(* ===== verification/_CoqProject ===== *)
-Q . S2P
Prelude.v
JsString.v
JsArray.v
JsDouble.v
JsState.v
JsObject.v
JsHeap.v
Underscore.v
UnderscoreEqual.v
UnderscoreLists.v
UnderscoreSets.v
UnderscoreOrders.v
UnderscoreTiming.v
UnderscoreFunctions.v
UnderscoreEngine.v
JsRegex.v
JsLiteral.v
UnderscoreText.v
UnderscoreTemplate.v
PathModule.v
WordcutRules.v
WordcutDict.v
WordcutCore.v
TinySegTables.v
TinySegmenter.v
Events.v
Process.v
ProcessTimers.v
Callbacks.v
BraceExpansion.v
MinimatchParse.v
Minimatch.v
GlobCommon.v
GlobSync.v
GlobExact.v
GlobTree.v
GlobSearch.v
GlobAsync.v
GlobTurns.v
GlobAsyncSearch.v
JsJson.v
Util.v
UtilInspect.v
UtilDebug.v
Assert.v
TraceViewer.v
ViewerPage.v
