(* ===== verification/Prelude.v ===== *)
(** * A verification of the search scripts and the trace viewer of the SPARC V8 core

    The repository holds a processor model, its documentation site and a log
    viewer.  The JavaScript of its own readable kind is in three places:
    - docs/generated_site/assets/javascripts/lunr/wordcut.js, the Thai word cutter
      the documentation search runs, bundled with the modules it requires;
    - docs/generated_site/assets/javascripts/lunr/tinyseg.js, the Japanese segmenter
      of the same search;
    - the script of log_viewer/viewer.html, which reads the traces the processor
      model writes.
    This library models them definition by definition and proves what they are for.

    ** Foundations
    - Prelude: outcomes of a computation ([Ret], [Throw], [OutOfFuel]), arrays read
      and written by index, counting loops.
    - JsString: strings as sequences of UTF-16 code units with the methods used.
    - JsArray: numerals, the keys that are array indices, and stable sorting.
    - JsDouble: integers as the doubles that hold them (rounding, overflow to the
      infinity, the shortest text that reads back).
    - JsState: computations on mutable objects that may throw ([stM]).
    - JsObject: values, and a heap of objects with classes, prototypes, elements and
      properties; the client functions are a parameter ([Client]), as are the objects
      a program starts with ([Realm]).  JsHeap: the laws of that heap, and chains of
      prototypes.  JsJson: [JSON.stringify].
    - JsLiteral: replacing by a pattern, JSON strings, and reading a literal back.
    - JsRegex: the regular expressions of the language, as a parser, a backtracking
      matcher and a relation, with the theorem that the last two agree.  Every
      pattern literal of the sources is parsed from its text, and the texts that
      minimatch builds at run time go through the same parser.

    ** Components, by source module
    - WordcutRules, WordcutDict, WordcutCore (wordcut.js, modules 1 to 8): word
      acceptors, the dictionary with its interval search, path building by dynamic
      programming, and the cutting functions.  [dict_acceptor_exact],
      [dict_transit_narrows]: the dictionary acceptor accepts exactly the words.
      [buildPath_fewest_words]: the path is optimal.  [cutIntoArray_partitions],
      [cut_variants_agree], [buildPath_entries_sound]: the result is a segmentation
      and each token is what its type says.
    - TinySegTables, TinySegmenter (tinyseg.js): the weights and the classifier.
      The words partition the text; they end where a linear classifier, written as a
      table of templates, says so ([segment_classifies]); scores stay exact integers
      ([score_exact]); decisions look two characters ahead.
    - PathModule (modules 22, 23): the POSIX path functions, against a walk of the
      directory tree.
    - Events (14): event emitters with listeners that are arbitrary client
      programs; Process (24): the tick queue with exceptions, which runs
      all that is scheduled ([ticks_fifo], [ticks_all_run]), and ProcessTimers the
      timer functions it finds and keeps ([timers_kept]); Callbacks (18, 21, 29):
      once, wrappy and inflight, the last on the interface [TickQueue], which
      Process implements.
    - BraceExpansion (10, 11, 13), MinimatchParse and Minimatch (20): glob patterns.
      Brace sets expand to their words, a segment compiles to a regular expression
      of its textbook meaning, and [matchOne] decides the declarative reading of a
      pattern ([glob_match]).
    - GlobCommon and GlobSync (15, 17): file globs on an abstract file system
      ([FileSystem]); GlobExact relates the search to the reading that minimatch
      decides, GlobTree gives concrete file systems, GlobSearch has the theorems
      about [glob.sync].
    - GlobAsync (16): the same search by callbacks, as a program of closures that are
      data ([callback]), requests and ticks in any order ([turn]), and the client's
      pause, resume and abort.  GlobTurns has the invariant of a search under way:
      which paths each registered callback will find, who answers each key, and a
      load that every turn decreases.  GlobAsyncSearch has the theorems: under every
      schedule the search ends, with what minimatch accepts ([glob_async_exact]) and
      the list of [glob.sync] ([glob_async_is_sync]); an aborted search is silent
      ([aborted_stays_silent]); and runs where the sources miss their aim.
    - underscore (25).  Underscore: callbacks and the functions on objects;
      UnderscoreEqual: deep equality, which ends on cyclic data and decides the
      equality of plain data ([isEqual_plain]); UnderscoreLists: the functions on
      collections and arrays, with what a pass over stored values does;
      UnderscoreSets and UnderscoreOrders: the theorems about them (searching,
      uniq, union and the rest, sorting, sorted places, extremes, shuffling);
      UnderscoreTiming: throttle, debounce, before and after as machines of calls,
      timers and returns ([throttle_spaced], [throttle_serves], [debounce_quiet]);
      UnderscoreFunctions: binding, memoizing, composing, ids and the wrapper objects
      ([memoize_remembers]); UnderscoreText: escaping and the source of a template
      ([escape_round_trip], [literal_reads_back]); UnderscoreTemplate: what a template
      compiles to and what that source computes ([template_renders]); UnderscoreEngine:
      what depends on the engine, with the proof that the replacements of Object.keys and
      of the native bind do what those do ([keys_fallback_agrees], [bind_agrees]).
    - Util, UtilInspect and UtilDebug (19, 26 to 28): inheritance ([inherits_links]), deprecation,
      and the printing of values, which ends on every heap ([inspect_terminates]) and
      prints strings as literals ([string_reads_back]).  UtilDebug: the debug logs, which
      look for the name of a section as a whole word ([debuglog_words]) and decide once
      ([debuglog_once]).
    - Assert (9): the assertions, as computations that throw values; deep equality
      decides the relation that the comments of the module describe, but for a primitive
      and an object, which comment 7.4 gives to == and the code calls different
      ([deepEqual_plain], [loosely_not_deeply]), [throws_verdict] says what becomes of a block, and
      [strip_frames_spec] what is left of a stack.
    - TraceViewer (viewer.html): the viewer as one state with its events; ViewerPage:
      the page around it, with the loader, the file pickers, the theme and the drag
      handles, whose requests come back in any order.  The page refines two named
      slots for files ([page_shows_files], [answers_commute]); panels stay on the
      screen and settings survive a visit ([settings_survive]).

    Components meet the way the sources compose them: GlobSync calls the compiled
    patterns of Minimatch, which calls BraceExpansion and JsRegex; GlobCommon calls
    PathModule; GlobAsync shares GlobCommon and the lookups of GlobSync, whose lemmas
    GlobTurns reuses; Callbacks uses Process through its interface.

    ** Loops and budgets
    Loops that the sources bound by an index are folds.  A loop that may run on is a
    Fixpoint with a step budget that answers [OutOfFuel] when the budget is spent;
    theorems say [= Ret], so they include that the budget is enough.  The budgets
    are: the length of the text or word list for [dictSeek] and [pathToRanges]; the
    length of the path for [matchOne]; the number of closing braces for brace
    expansion, whose sequences may have a loop without end ([expand_terminates] says
    which have); (segments + 1) * (height + 2) for
    [glob.sync] on a tree of that height; [weight] of GlobTurns, the number of calls
    that the files below the working directory can cause, plus 7, for the
    asynchronous search, where it bounds the turns as well; the number of objects and
    one more for the nesting of deep equality in underscore, and three more for that of a
    print; the height of the data for deep equality in assert, which has no bound on
    cyclic data ([cyclic_never_ends]); log2 n + 2 rounds for a binary search
    among n elements; for [flatten] the depth of the nesting.  A chain of underscore
    wrappers has a budget because it may not end ([chain_twice_never_ends]).  Events and ticks run client code of any
    length, so their theorems hold for every budget or for the runs that end.

    ** Parameters
    What the sources take from elsewhere is an argument: the word list literal of
    WordcutDict, the file system, [localeCompare] and the case mappings, the random
    texts of brace escaping, the numbers that shuffling draws, what an object is as a
    primitive and what number a text is, the texts of dates, what the language throws for
    an error, how it writes and reads decimals and what the window measures in
    ViewerPage, and the client code that listeners and callbacks run.
    The laws a theorem asks of them are named ([tree_like], [no_links], ...), and a
    witness instantiates them.

    ** Not modelled
    - The asynchronous glob calls no client code (its events are a list), and the
      theorems about its end are for trees without symbolic links and for a table of
      inflight that no other search is using.
    - Of underscore: what [new Function] makes of a template whose tags hold statements,
      and the module loaders.  Of the values it computes with: accessors and symbols, and numbers other than the integers, the second zero, the
      infinities and NaN; [__proto__] is a name like others.
    - An options object of inspect that brings its own stylize or seen, and a name of a
      debug log with back-references or word boundaries of its own.  Calls of assert(this instanceof ...) in the other
      modules always succeed there and are left out.
    - Console output and the win32 branches of glob (the process shim has no platform).
    - Names that a plain object inherits: the table of listeners in Events and the rows
      of TraceViewer hold what was put into them under every name, where in the sources
      an event type such as toString finds a function of Object.prototype and a trace
      column [__proto__] is not stored.
    - A clock that is set back: in UnderscoreTiming time never runs backwards, so the
      test [remaining > wait] of throttle, which is there for it, is never true.
    - The minified bundles of the site, and the C++, Sitar, Python and assembly parts
      of the repository, which are not JavaScript sources. *)
From Stdlib Require Export ZArith Lia.
From stdpp Require Export base tactics list numbers option strings sorting.

Open Scope Z_scope.

(** ** Outcomes of a JavaScript computation

    [Ret] is a normal completion, [Throw] a thrown exception and [OutOfFuel] the
    answer of an interpreter whose step budget ran out.  A theorem that some
    code returns is always stated as an equation with [Ret]. *)
Inductive js_error : Type :=
| TypeError (msg : string)
| RangeError (msg : string)
| PlainError (msg : string).

#[export] Instance js_error_eq_dec : EqDecision js_error.
Proof. solve_decision. Defined.

Inductive outcome (A : Type) : Type :=
| Ret (a : A)
| Throw (e : js_error)
| OutOfFuel.
Arguments Ret {A} _.
Arguments Throw {A} _.
Arguments OutOfFuel {A}.

#[export] Instance outcome_ret : MRet outcome := @Ret.
#[export] Instance outcome_bind : MBind outcome :=
  fun A B f m => match m with
                 | Ret a => f a
                 | Throw e => Throw e
                 | OutOfFuel => OutOfFuel
                 end.
#[export] Instance outcome_fmap : FMap outcome :=
  fun A B f m => match m with
                 | Ret a => Ret (f a)
                 | Throw e => Throw e
                 | OutOfFuel => OutOfFuel
                 end.

Definition returns {A} (m : outcome A) : Prop := exists a, m = Ret a.

(** Left fold in the outcome monad: a [for] loop over an array whose body
    updates a state and may throw. *)
Fixpoint foldM {A S} (f : S -> A -> outcome S) (s : S) (l : list A) : outcome S :=
  match l with
  | [] => Ret s
  | x :: r => s' ← f s x; foldM f s' r
  end.

(** ** Array access

    [js_get l i] is the value of [l[i]]: [None] is [undefined], for a negative
    index and for one past the end.  [js_at] is [l[i]] in a position where a
    property of the element is read, which throws on [undefined]. *)
Definition js_get {A} (l : list A) (i : Z) : option A :=
  if i <? 0 then None else l !! Z.to_nat i.

Definition js_at {A} (l : list A) (i : Z) : outcome A :=
  match js_get l i with
  | Some x => Ret x
  | None => Throw (TypeError "Cannot read property of undefined")
  end.

Definition js_len {A} (l : list A) : Z := Z.of_nat (length l).

(** ** Tactics of the development *)

(** Splits on the first [if] or [match] of the goal, keeping the equation. *)
Ltac split_match :=
  match goal with
  | |- context [match ?x with _ => _ end] =>
      lazymatch x with
      | context [match _ with _ => _ end] => fail
      | _ => let E := fresh "E" in destruct x eqn:E
      end
  end.

(** Turns the boolean comparisons of the context into propositions. *)
Ltac bool_props :=
  repeat match goal with
  | H : (_ <? _) = true |- _ => apply Z.ltb_lt in H
  | H : (_ <? _) = false |- _ => apply Z.ltb_ge in H
  | H : (_ <=? _) = true |- _ => apply Z.leb_le in H
  | H : (_ <=? _) = false |- _ => apply Z.leb_gt in H
  | H : (_ =? _) = true |- _ => apply Z.eqb_eq in H
  | H : (_ =? _) = false |- _ => apply Z.eqb_neq in H
  | H : _ && _ = true |- _ => apply andb_true_iff in H; destruct H
  | H : _ || _ = false |- _ => apply orb_false_iff in H; destruct H
  | H : negb _ = true |- _ => apply negb_true_iff in H
  | H : negb _ = false |- _ => apply negb_false_iff in H
  end.

Create HintDb js.
Create Rewrite HintDb js.

(** ** Lemmas about arrays *)
Section arrays.
Context {A : Type}.
Implicit Types (l : list A) (i : Z).

Lemma js_len_nonneg l : 0 <= js_len l.
Proof. unfold js_len; lia. Qed.

Lemma js_len_app l k : js_len (l ++ k) = js_len l + js_len k.
Proof. unfold js_len; rewrite length_app; lia. Qed.

Lemma js_len_cons x l : js_len (x :: l) = 1 + js_len l.
Proof. unfold js_len; cbn [length]; lia. Qed.

Lemma js_get_Some_range l i x : js_get l i = Some x -> 0 <= i < js_len l.
Proof.
  unfold js_get, js_len; split_match; [done|]. intros H%lookup_lt_Some. bool_props. lia.
Qed.

Lemma js_get_range l i : 0 <= i < js_len l -> exists x, js_get l i = Some x.
Proof.
  unfold js_get, js_len; intros Hi.
  destruct (i <? 0) eqn:E; bool_props; [lia|]. apply lookup_lt_is_Some_2. lia.
Qed.

Lemma js_get_None_range l i : js_get l i = None -> i < 0 \/ js_len l <= i.
Proof.
  intros H. destruct (decide (0 <= i < js_len l)) as [Hi|]; [|lia].
  destruct (js_get_range l i Hi) as [x Hx]. congruence.
Qed.

Lemma js_at_range l i : 0 <= i < js_len l -> exists x, js_get l i = Some x /\ js_at l i = Ret x.
Proof.
  intros Hi. destruct (js_get_range l i Hi) as [x Hx]. exists x. unfold js_at. by rewrite Hx.
Qed.

Lemma js_at_Some l i x : js_get l i = Some x -> js_at l i = Ret x.
Proof. unfold js_at. by intros ->. Qed.

Lemma js_at_Ret l i x : js_at l i = Ret x -> js_get l i = Some x.
Proof. unfold js_at. destruct (js_get l i); naive_solver. Qed.

Lemma js_get_app_l l k i : i < js_len l -> js_get (l ++ k) i = js_get l i.
Proof.
  unfold js_get, js_len; intros Hi. split_match; [done|]. bool_props. apply lookup_app_l. lia.
Qed.

Lemma js_get_app_r l k i : js_len l <= i -> js_get (l ++ k) i = js_get k (i - js_len l).
Proof.
  unfold js_get, js_len; intros Hi.
  destruct (i <? 0) eqn:E; bool_props; [lia|].
  destruct (i - Z.of_nat (length l) <? 0) eqn:E2; bool_props; [lia|].
  rewrite lookup_app_r by lia. f_equal. lia.
Qed.

Lemma js_get_snoc l x : js_get (l ++ [x]) (js_len l) = Some x.
Proof. rewrite js_get_app_r by lia. by rewrite Z.sub_diag. Qed.

Lemma js_get_nat l (n : nat) : js_get l (Z.of_nat n) = l !! n.
Proof.
  unfold js_get. destruct (_ <? 0) eqn:E; bool_props; [lia|]. by rewrite Nat2Z.id.
Qed.

Lemma js_get_elem l i x : js_get l i = Some x -> x ∈ l.
Proof.
  unfold js_get; split_match; [done|]. intros H. by eapply list_elem_of_lookup_2.
Qed.

Lemma js_get_insert l i j x :
  0 <= j < js_len l ->
  js_get (<[Z.to_nat j := x]> l) i = if decide (i = j) then Some x else js_get l i.
Proof.
  unfold js_get, js_len. intros Hj. destruct (i <? 0) eqn:E; bool_props.
  - case_decide; [lia|done].
  - rewrite list_lookup_insert. repeat case_decide; try done; lia.
Qed.

Lemma js_len_insert l (n : nat) x : js_len (<[n := x]> l) = js_len l.
Proof. unfold js_len. by rewrite length_insert. Qed.

Lemma elem_js_get l x : x ∈ l -> exists i, js_get l i = Some x.
Proof.
  intros [n Hn]%list_elem_of_lookup. exists (Z.of_nat n). by rewrite js_get_nat.
Qed.
End arrays.

(** In a strongly sorted list, an earlier element is related to a later one. *)
Lemma StronglySorted_lookup {A} (R : relation A) l (i j : nat) x y :
  StronglySorted R l -> (i < j)%nat -> l !! i = Some x -> l !! j = Some y -> R x y.
Proof.
  intros Hs. revert i j. induction Hs as [|a l Hs IH Ha]; intros i j Hij Hx Hy; [done|].
  destruct j as [|j]; [lia|]. cbn in Hy. destruct i as [|i]; cbn in Hx; simplify_eq.
  - rewrite Forall_lookup in Ha. eauto.
  - apply (IH i j); [lia|done|done].
Qed.

(** ** The outcome monad *)
Lemma bind_Ret {A B} (m : outcome A) (f : A -> outcome B) b :
  (x ← m; f x) = Ret b <-> exists a, m = Ret a /\ f a = Ret b.
Proof. destruct m; cbn; naive_solver. Qed.

Lemma foldM_app {A S} (f : S -> A -> outcome S) s l k :
  foldM f s (l ++ k) = (s' ← foldM f s l; foldM f s' k).
Proof.
  revert s; induction l as [|x l IH]; intros s; [done|].
  cbn. destruct (f s x); cbn; auto.
Qed.

(** Loop rule: a body that returns and preserves an invariant makes the whole
    loop return and preserve it. *)
Lemma foldM_inv {A S} (I : S -> Prop) (P : A -> Prop) (f : S -> A -> outcome S) s l :
  I s -> Forall P l ->
  (forall s x, I s -> P x -> exists s', f s x = Ret s' /\ I s') ->
  exists s', foldM f s l = Ret s' /\ I s'.
Proof.
  intros HI HP Hf. revert s HI. induction HP as [|x l Hx HP IH]; intros s HI; cbn; [eauto|].
  destruct (Hf s x HI Hx) as (s' & -> & HI'). cbn. auto.
Qed.

(** Counting loop [for (i = a; i < n; i++)]: the invariant may mention [i]. *)
Lemma foldM_seqZ_inv {S} (I : Z -> S -> Prop) (f : S -> Z -> outcome S) s a n :
  a <= n -> I a s ->
  (forall i s, a <= i < n -> I i s -> exists s', f s i = Ret s' /\ I (i + 1) s') ->
  exists s', foldM f s (seqZ a (n - a)) = Ret s' /\ I n s'.
Proof.
  intros Hn HI Hf. remember (Z.to_nat (n - a)) as k eqn:Hk.
  revert a s Hn HI Hf Hk. induction k as [|k IH]; intros a s Hn HI Hf Hk.
  - assert (n = a) as -> by lia. rewrite Z.sub_diag. eauto.
  - rewrite seqZ_cons by lia. cbn. destruct (Hf a s) as (s' & -> & HI'); [lia|done|]. cbn.
    replace (Z.pred (n - a)) with (n - Z.succ a) by lia.
    apply IH; [lia|by rewrite Z.add_1_r in HI'| |lia]. intros. apply Hf; [lia|done].
Qed.

(** The same rule for a loop body that cannot throw. *)
Lemma foldl_seqZ_inv {S} (I : Z -> S -> Prop) (f : S -> Z -> S) s a n :
  a <= n -> I a s -> (forall i s, a <= i < n -> I i s -> I (i + 1) (f s i)) ->
  I n (foldl f s (seqZ a (n - a))).
Proof.
  intros Hn HI Hf. remember (Z.to_nat (n - a)) as k eqn:Hk.
  revert a s Hn HI Hf Hk. induction k as [|k IH]; intros a s Hn HI Hf Hk.
  - assert (n = a) as -> by lia. by rewrite Z.sub_diag.
  - rewrite seqZ_cons by lia. cbn. replace (Z.pred (n - a)) with (n - Z.succ a) by lia.
    apply IH; [lia| | |lia].
    + rewrite <- Z.add_1_r. apply Hf; [lia|done].
    + intros. apply Hf; [lia|done].
Qed.

#[export] Hint Rewrite @js_len_app @js_len_cons : js.
#[export] Hint Resolve js_len_nonneg js_at_Some : js.
