(* ===== verification/JsString.v ===== *)
(** * JavaScript strings

    A string of the language is a finite sequence of UTF-16 code units, and all
    the string code of the sources indexes, compares and cuts it by code unit.
    [jsstr] is that sequence.  The file holds the String.prototype operations the
    sources use, the code-unit order behind [<] and [Array.prototype.sort], and
    the round trips ([split]/[join], [slice]/[++]) the components rely on. *)
From Stdlib Require Import Ascii String.
From stdpp Require Import sorting.
From S2P Require Import Prelude.

Abbreviation jsstr := (list Z).

(** ** Literals

    Source literals are written as in the JavaScript text, in UTF-8; [js] decodes
    them to code units (surrogate pairs for four-byte sequences). *)
Definition byte_val (a : ascii) : Z := Z.of_N (N_of_ascii a).

Definition utf16_of (c : Z) : jsstr :=
  if c <? 65536 then [c]
  else [55296 + (c - 65536) / 1024; 56320 + (c - 65536) mod 1024].

Fixpoint utf8_decode (s : string) : jsstr :=
  match s with
  | EmptyString => []
  | String a s1 =>
      let x := byte_val a in
      if x <? 128 then x :: utf8_decode s1 else
      match s1 with
      | String b s2 =>
          let y := byte_val b mod 64 in
          if x <? 224 then utf16_of ((x - 192) * 64 + y) ++ utf8_decode s2 else
          match s2 with
          | String c s3 =>
              let z := byte_val c mod 64 in
              if x <? 240 then utf16_of (((x - 224) * 64 + y) * 64 + z) ++ utf8_decode s3 else
              match s3 with
              | String d s4 =>
                  utf16_of ((((x - 240) * 64 + y) * 64 + z) * 64 + byte_val d mod 64)
                  ++ utf8_decode s4
              | EmptyString => []
              end
          | EmptyString => []
          end
      | EmptyString => []
      end
  end.

Definition js (s : string) : jsstr := utf8_decode s.
Arguments js s%_string.

(** The code unit of a one-character literal. *)
Definition chr (s : string) : Z := default 0 (head (js s)).
Arguments chr s%_string.

(** ** Code-unit order *)
Fixpoint str_ltb (a b : jsstr) : bool :=
  match a, b with
  | _, [] => false
  | [], _ :: _ => true
  | x :: a', y :: b' => if x <? y then true else if y <? x then false else str_ltb a' b'
  end.

Definition str_lt (a b : jsstr) : Prop := str_ltb a b = true.
Definition str_le (a b : jsstr) : Prop := str_ltb b a = false.

#[export] Instance str_lt_dec a b : Decision (str_lt a b).
Proof. unfold str_lt. apply _. Defined.
#[export] Instance str_le_dec : RelDecision str_le.
Proof. intros a b. unfold str_le. apply _. Defined.

(** ** String.prototype *)
Definition charAt (s : jsstr) (i : Z) : jsstr :=
  match js_get s i with Some c => [c] | None => [] end.

(** [s.slice(a, b)]: negative positions count from the end. *)
Definition slice_pos (n a : Z) : Z := if a <? 0 then Z.max 0 (n + a) else Z.min a n.

Definition js_slice {A} (s : list A) (a b : Z) : list A :=
  let n := js_len s in
  let a' := slice_pos n a in
  let b' := slice_pos n b in
  take (Z.to_nat (b' - a')) (drop (Z.to_nat a') s).

Definition js_slice_from {A} (s : list A) (a : Z) : list A := js_slice s a (js_len s).

(** [s.substring(a, b)]: positions are clamped to the string and swapped when
    they are in the wrong order. *)
Definition js_substring (s : jsstr) (a b : Z) : jsstr :=
  let n := js_len s in
  let a' := Z.min (Z.max a 0) n in
  let b' := Z.min (Z.max b 0) n in
  js_slice s (Z.min a' b') (Z.max a' b').

(** [s.substr(a, n)]: a start, which may be negative, and a length. *)
Definition js_substr (s : jsstr) (a n : Z) : jsstr :=
  let a' := slice_pos (js_len s) a in
  take (Z.to_nat n) (drop (Z.to_nat a') s).

Fixpoint starts_with (p s : jsstr) : bool :=
  match p, s with
  | [], _ => true
  | x :: p', y :: s' => (x =? y) && starts_with p' s'
  | _ :: _, [] => false
  end.

(** First position [>= i] at which [pat] occurs, [i] being the position of the
    suffix [s]. *)
Fixpoint find_from (pat s : jsstr) (i : Z) : Z :=
  if starts_with pat s then i
  else match s with
       | [] => -1
       | _ :: s' => find_from pat s' (i + 1)
       end.

(** [s.indexOf(pat, from)] *)
Definition indexOf (s pat : jsstr) (from : Z) : Z :=
  let k := Z.min (Z.max from 0) (js_len s) in
  find_from pat (drop (Z.to_nat k) s) k.

(** [s.split(sep)] for a non-empty separator; [skip] counts the code units of an
    occurrence of the separator still to be passed over. *)
Fixpoint split_loop (sep : jsstr) (skip : nat) (cur s : jsstr) : list jsstr :=
  match s with
  | [] => [cur]
  | x :: s' =>
      match skip with
      | S k => split_loop sep k cur s'
      | O => if starts_with sep s then cur :: split_loop sep (length sep - 1) [] s'
             else split_loop sep 0 (cur ++ [x]) s'
      end
  end.

Definition js_split (s sep : jsstr) : list jsstr := split_loop sep 0 [] s.

(** [a.join(sep)] *)
Fixpoint js_join (sep : jsstr) (l : list jsstr) : jsstr :=
  match l with
  | [] => []
  | [x] => x
  | x :: r => x ++ sep ++ js_join sep r
  end.

(** White space and line terminators: what [trim] strips and the class [\s]
    matches. *)
Definition is_space (c : Z) : bool :=
  (9 <=? c) && (c <=? 13) || (c =? 32) || (c =? 160) || (c =? 5760)
  || (8192 <=? c) && (c <=? 8202) || (c =? 8232) || (c =? 8233) || (c =? 8239)
  || (c =? 8287) || (c =? 12288) || (c =? 65279).

Fixpoint drop_spaces (s : jsstr) : jsstr :=
  match s with
  | [] => []
  | c :: r => if is_space c then drop_spaces r else s
  end.

Definition js_trim (s : jsstr) : jsstr := reverse (drop_spaces (reverse (drop_spaces s))).

Definition in_range (lo hi c : Z) : bool := (lo <=? c) && (c <=? hi).
Definition is_digit (c : Z) : bool := in_range 48 57 c.

(** ** The order *)
Lemma str_ltb_irrefl a : str_ltb a a = false.
Proof. induction a as [|x a IH]; cbn; [done|]. by rewrite Z.ltb_irrefl. Qed.

Lemma str_ltb_trans a b c : str_ltb a b = true -> str_ltb b c = true -> str_ltb a c = true.
Proof.
  revert b c; induction a as [|x a IH]; intros [|y b] [|z c]; cbn; try done.
  repeat split_match; bool_props; try done; try lia; eauto.
Qed.

Lemma str_ltb_total a b : a = b \/ str_ltb a b = true \/ str_ltb b a = true.
Proof.
  revert b; induction a as [|x a IH]; intros [|y b]; cbn; auto.
  destruct (x <? y) eqn:?; auto. destruct (y <? x) eqn:?; auto. bool_props.
  assert (x = y) as -> by lia. destruct (IH b) as [->|[]]; auto.
Qed.

Lemma str_ltb_asym a b : str_ltb a b = true -> str_ltb b a = false.
Proof.
  intros H. destruct (str_ltb b a) eqn:E; [|done].
  pose proof (str_ltb_trans _ _ _ H E). by rewrite str_ltb_irrefl in *.
Qed.

#[export] Instance str_le_trans : Transitive str_le.
Proof.
  intros a b c; unfold str_le; intros H1 H2.
  destruct (str_ltb c a) eqn:E; [|done].
  destruct (str_ltb_total a b) as [->|[H|H]]; [congruence| |congruence].
  pose proof (str_ltb_trans _ _ _ E H). congruence.
Qed.

#[export] Instance str_le_total : Total str_le.
Proof.
  intros a b; unfold str_le.
  destruct (str_ltb b a) eqn:E; [right; by apply str_ltb_asym|by left].
Qed.

#[export] Instance str_le_anti : AntiSymm (=) str_le.
Proof.
  intros a b; unfold str_le; intros H1 H2.
  destruct (str_ltb_total a b) as [->|[|]]; congruence.
Qed.

#[export] Instance str_lt_trans : Transitive str_lt.
Proof. intros a b c; apply str_ltb_trans. Qed.

Lemma str_le_lt_or_eq a b : str_le a b -> a = b \/ str_lt a b.
Proof.
  unfold str_le, str_lt. destruct (str_ltb_total a b) as [->|[|]]; auto; congruence.
Qed.

Lemma str_lt_not_eq a b : str_lt a b -> a <> b.
Proof. intros H ->. unfold str_lt in H. by rewrite str_ltb_irrefl in H. Qed.

Lemma str_lt_le a b : str_lt a b -> str_le a b.
Proof. apply str_ltb_asym. Qed.

Lemma str_ltb_app p a b : str_ltb (p ++ a) (p ++ b) = str_ltb a b.
Proof. induction p as [|x p IH]; cbn; [done|]. by rewrite Z.ltb_irrefl. Qed.

(** ** Prefixes *)
Lemma starts_with_spec p s : starts_with p s = true <-> p `prefix_of` s.
Proof.
  revert s; induction p as [|x p IH]; intros [|y s]; cbn.
  - split; [intros; apply prefix_nil|done].
  - split; [intros; apply prefix_nil|done].
  - split; [done|]. intros [k Hk]; discriminate.
  - rewrite andb_true_iff, IH, Z.eqb_eq. split.
    + intros [-> ?]. by apply prefix_cons.
    + intros H. split; [by eapply prefix_cons_inv_1|by eapply prefix_cons_inv_2].
Qed.

(** ** Slices *)
Section slices.
Context {A : Type}.
Implicit Types (s : list A) (a b : Z).

Lemma js_slice_in s a b :
  0 <= a <= b -> b <= js_len s ->
  js_slice s a b = take (Z.to_nat (b - a)) (drop (Z.to_nat a) s).
Proof.
  intros Ha Hb. unfold js_slice, slice_pos.
  destruct (a <? 0) eqn:?; bool_props; [lia|].
  destruct (b <? 0) eqn:?; bool_props; [lia|].
  by rewrite !Z.min_l by lia.
Qed.

Lemma js_slice_len s a b :
  0 <= a <= b -> b <= js_len s -> js_len (js_slice s a b) = b - a.
Proof.
  intros Ha Hb. rewrite js_slice_in by done. unfold js_len in *.
  rewrite length_take, length_drop. lia.
Qed.

Lemma js_slice_cat s a b c :
  0 <= a <= b -> b <= c -> c <= js_len s ->
  js_slice s a b ++ js_slice s b c = js_slice s a c.
Proof.
  intros Ha Hb Hc. rewrite !js_slice_in by lia.
  replace (Z.to_nat (c - a)) with (Z.to_nat (b - a) + Z.to_nat (c - b))%nat by lia.
  replace (drop (Z.to_nat b) s) with (drop (Z.to_nat (b - a)) (drop (Z.to_nat a) s))
    by (rewrite drop_drop; f_equal; lia).
  by rewrite take_take_drop.
Qed.

Lemma js_slice_full s : js_slice s 0 (js_len s) = s.
Proof.
  rewrite js_slice_in; [|pose proof (js_len_nonneg s); lia|lia].
  rewrite drop_0. apply take_ge. unfold js_len. lia.
Qed.

Lemma js_slice_empty s a : 0 <= a <= js_len s -> js_slice s a a = [].
Proof. intros H. rewrite js_slice_in by lia. by rewrite Z.sub_diag. Qed.
End slices.

Lemma js_slice_snoc {A} (s : list A) a i c :
  0 <= a <= i -> js_get s i = Some c -> js_slice s a i ++ [c] = js_slice s a (i + 1).
Proof.
  intros Ha Hc. pose proof (js_get_Some_range _ _ _ Hc).
  rewrite <- (js_slice_cat s a i (i + 1)) by lia. f_equal.
  rewrite js_slice_in by lia. replace (Z.to_nat (i + 1 - i)) with 1%nat by lia.
  unfold js_get in Hc. case_match; [done|]. by rewrite (drop_S _ _ _ Hc).
Qed.

Lemma js_slice_mid (p m r : jsstr) : js_slice (p ++ m ++ r) (js_len p) (js_len p + js_len m) = m.
Proof.
  pose proof (js_len_nonneg p). pose proof (js_len_nonneg m). pose proof (js_len_nonneg r).
  rewrite js_slice_in; [|lia|rewrite !js_len_app; lia].
  unfold js_len. replace (Z.to_nat (Z.of_nat (length p) + Z.of_nat (length m) - Z.of_nat (length p)))
    with (length m) by lia.
  by rewrite Nat2Z.id, drop_app_length, take_app_length.
Qed.

Lemma js_substring_in s a b :
  0 <= a <= b -> b <= js_len s -> js_substring s a b = js_slice s a b.
Proof. intros Ha Hb. unfold js_substring. f_equal; lia. Qed.

(** ** Searching *)
Lemma find_from_spec pat s i :
  (find_from pat s i = -1 /\ forall k, starts_with pat (drop k s) = false) \/
  (exists k, (k <= length s)%nat /\ find_from pat s i = i + Z.of_nat k /\
     starts_with pat (drop k s) = true /\
     forall j, (j < k)%nat -> starts_with pat (drop j s) = false).
Proof.
  revert i; induction s as [|x s IH]; intros i; cbn [find_from].
  - destruct (starts_with pat []) eqn:E.
    + right. exists 0%nat. cbn. repeat split; [lia|lia|done|lia].
    + left. split; [done|]. intros [|k]; done.
  - destruct (starts_with pat (x :: s)) eqn:E.
    + right. exists 0%nat. cbn [length drop]. repeat split; [lia|lia|done|lia].
    + destruct (IH (i + 1)) as [[-> Hn]|(k & Hk & -> & Hs & Hm)].
      * left. split; [done|]. intros [|k]; [done|]. apply Hn.
      * right. exists (S k). cbn [length drop]. repeat split; [lia|lia|done|].
        intros [|j] Hj; [done|]. apply Hm. lia.
Qed.

(** ** Splitting and joining *)
Lemma js_join_cons sep x l : l <> [] -> js_join sep (x :: l) = x ++ sep ++ js_join sep l.
Proof. by destruct l. Qed.

Lemma split_loop_nonempty sep k cur s : split_loop sep k cur s <> [].
Proof.
  revert k cur; induction s as [|x s IH]; intros k cur; cbn [split_loop]; [done|].
  destruct k; [|done]. by destruct (starts_with _ _).
Qed.

Lemma split_loop_join sep k cur s :
  sep <> [] -> (k <= length s)%nat ->
  js_join sep (split_loop sep k cur s) = cur ++ drop k s.
Proof.
  intros Hsep. revert k cur; induction s as [|x s IH]; intros k cur Hk; cbn [split_loop].
  - cbn. rewrite drop_nil. by rewrite app_nil_r.
  - destruct k as [|k]; [|cbn in *; rewrite IH by lia; done].
    destruct (starts_with sep (x :: s)) eqn:E.
    + apply starts_with_spec in E as [r Hr].
      rewrite js_join_cons by apply split_loop_nonempty.
      assert (length (x :: s) = length sep + length r)%nat as Hl
        by (rewrite Hr, length_app; lia).
      cbn [length] in Hl. rewrite IH by lia. cbn [app]. f_equal. cbn [drop].
      destruct sep as [|y sep]; [done|]. cbn in *.
      injection Hr as -> ->. rewrite Nat.sub_0_r. by rewrite drop_app_length.
    + rewrite IH by lia. rewrite <- app_assoc. done.
Qed.

(** [s.split(sep).join(sep)] is [s], for every non-empty separator. *)
Lemma split_join s sep : sep <> [] -> js_join sep (js_split s sep) = s.
Proof. intros Hs. unfold js_split. rewrite split_loop_join by (done || lia). done. Qed.

(** ** Splitting at one code unit *)
Section split_unit.
Context (c : Z).

Lemma split_loop_unit_app cur a b :
  split_loop [c] 0 cur (a ++ c :: b) = split_loop [c] 0 cur a ++ split_loop [c] 0 [] b.
Proof.
  revert cur; induction a as [|x a IH]; intros cur; cbn [app split_loop starts_with].
  - by rewrite Z.eqb_refl.
  - destruct ((c =? x) && true); cbn [length]; by rewrite IH.
Qed.

Lemma split_unit_app a b : js_split (a ++ c :: b) [c] = js_split a [c] ++ js_split b [c].
Proof. apply split_loop_unit_app. Qed.

Lemma split_loop_unit_none cur a : c ∉ a -> split_loop [c] 0 cur a = [cur ++ a].
Proof.
  revert cur; induction a as [|x a IH]; intros cur Ha; cbn [split_loop starts_with].
  - by rewrite app_nil_r.
  - apply not_elem_of_cons in Ha as [Hx Ha]. rewrite (proj2 (Z.eqb_neq c x)) by done. cbn [andb].
    rewrite IH by done. by rewrite <- app_assoc.
Qed.

Lemma split_unit_none a : c ∉ a -> js_split a [c] = [a].
Proof. apply split_loop_unit_none. Qed.

Lemma split_unit_free a : Forall (fun p => c ∉ p) (js_split a [c]).
Proof.
  enough (forall cur, c ∉ cur -> Forall (fun p => c ∉ p) (split_loop [c] 0 cur a)) as H
    by apply H, not_elem_of_nil.
  induction a as [|x a IH]; intros cur H; cbn [split_loop starts_with].
  - by repeat constructor.
  - destruct (c =? x) eqn:E; cbn [andb length].
    + constructor; [done|]. apply IH, not_elem_of_nil.
    + bool_props. apply IH. rewrite elem_of_app, list_elem_of_singleton. naive_solver.
Qed.

(** [join] then [split] gives the pieces back when none contains the separator. *)
Lemma join_split_unit l : l <> [] -> Forall (fun p => c ∉ p) l -> js_split (js_join [c] l) [c] = l.
Proof.
  intros Hl HF. induction HF as [|x l Hx HF IH]; [done|].
  destruct l as [|y l]; [by apply split_unit_none|].
  rewrite js_join_cons by done. cbn [app]. rewrite split_unit_app, IH by done.
  by rewrite split_unit_none.
Qed.
End split_unit.

#[export] Hint Resolve str_lt_le str_lt_not_eq : js.

(** ** Searching *)

Lemma find_first pat s n i : (forall k, (k < n)%nat -> starts_with pat (drop k s) = false) -> starts_with pat (drop n s) = true ->
  (n <= length s)%nat -> find_from pat s i = i + Z.of_nat n.
Proof.
  revert s i. induction n as [|n IH]; intros s i Hno Hyes Hn.
  - rewrite drop_0 in Hyes. destruct s; cbn [find_from]; rewrite Hyes; lia.
  - pose proof (Hno 0%nat ltac:(lia)) as H0. rewrite drop_0 in H0. destruct s as [|x s]; [cbn in Hn; lia|].
    cbn [find_from]. rewrite H0. rewrite IH; [lia| |done|cbn in Hn; lia]. intros k Hk. apply (Hno (S k)). lia.
Qed.

Lemma starts_self p s : starts_with p (p ++ s) = true.
Proof. induction p as [|x p IH]; [done|]. cbn. by rewrite Z.eqb_refl. Qed.
