(* ===== verification/JsArray.v ===== *)
(** * JavaScript arrays and numerals

    Numerals and the keys that are array indices, and [sort] with a comparison
    function, which is stable: a permutation, in order for a consistent comparison. *)
From S2P Require Import Prelude JsString.

(** ** Numerals *)
Fixpoint digits_val (acc : Z) (s : jsstr) : Z :=
  match s with
  | [] => acc
  | c :: r => digits_val (10 * acc + (c - 48)) r
  end.

(** [String(i)]: a number [n >= 0] has at most [log2 n + 1] decimal digits. *)
Fixpoint dec_digits (fuel : nat) (n : Z) (acc : jsstr) : jsstr :=
  match fuel with
  | O => acc
  | S fuel => if n <? 10 then (48 + n) :: acc else dec_digits fuel (n / 10) ((48 + n mod 10) :: acc)
  end.

Definition dec (i : Z) : jsstr :=
  let n := Z.abs i in
  let ds := dec_digits (Z.to_nat (Z.log2 n) + 1) n [] in
  if i <? 0 then chr "-" :: ds else ds.

(** The canonical text of an array index. *)
Definition index_key (s : jsstr) : option Z :=
  match s with
  | [] => None
  | c :: r =>
      if forallb is_digit s && (negb (c =? chr "0") || bool_decide (r = [])) && (digits_val 0 s <? 2 ^ 32 - 1)
      then Some (digits_val 0 s) else None
  end.

(** ** Sorting *)

(** [sort] with a comparison function: a stable sort. *)
Fixpoint insert_by {A} (cmp : A -> A -> Z) (x : A) (l : list A) : list A :=
  match l with
  | [] => [x]
  | y :: l' => if cmp x y <? 0 then x :: l else y :: insert_by cmp x l'
  end.
Definition sort_by {A} (cmp : A -> A -> Z) (l : list A) : list A := foldl (fun acc x => insert_by cmp x acc) [] l.

Lemma insert_by_perm {A} (cmp : A -> A -> Z) x l : insert_by cmp x l ≡ₚ x :: l.
Proof.
  induction l as [|y l IH]; cbn [insert_by]; [done|]. case_match; [done|]. rewrite IH. constructor.
Qed.

Lemma sort_by_perm {A} (cmp : A -> A -> Z) l : sort_by cmp l ≡ₚ l.
Proof.
  unfold sort_by. cut (forall acc, foldl (fun acc x => insert_by cmp x acc) acc l ≡ₚ l ++ acc).
  { intros Hc. by rewrite Hc, app_nil_r. }
  induction l as [|x l IH]; intros acc; cbn [foldl]; [done|]. rewrite IH, insert_by_perm. cbn [app]. by rewrite Permutation_middle.
Qed.

Lemma insert_by_sorted {A} (cmp : A -> A -> Z) x l : (forall a b, 0 <= cmp a b -> cmp b a <= 0) ->
  Sorted (fun a b => cmp a b <= 0) l -> Sorted (fun a b => cmp a b <= 0) (insert_by cmp x l).
Proof.
  intros Hc Hl. induction Hl as [|y l Hl IH Hy]; cbn [insert_by]; [by repeat constructor|].
  case_match; bool_props.
  - constructor; [by constructor|constructor; lia].
  - constructor; [done|]. assert (cmp y x <= 0) by (by apply Hc).
    destruct l as [|z l]; cbn [insert_by]; [by constructor|]. case_match; constructor; [done|]. by inversion Hy.
Qed.

Lemma sort_by_sorted {A} (cmp : A -> A -> Z) l : (forall a b, 0 <= cmp a b -> cmp b a <= 0) ->
  Sorted (fun a b => cmp a b <= 0) (sort_by cmp l).
Proof.
  intros Hc. unfold sort_by. cut (forall acc, Sorted (fun a b => cmp a b <= 0) acc ->
    Sorted (fun a b => cmp a b <= 0) (foldl (fun acc x => insert_by cmp x acc) acc l)); [intros H1; apply H1; constructor|].
  induction l as [|x l IH]; intros acc Ha; cbn [foldl]; [done|]. by apply IH, insert_by_sorted.
Qed.


(** A comparison that decides between any two of the elements leaves one order only. *)
Lemma insert_by_strongly {A} (P : A -> Prop) (cmp : A -> A -> Z) x l :
  (forall a b c, P a -> P b -> P c -> cmp a b < 0 -> cmp b c < 0 -> cmp a c < 0) ->
  (forall a b, P a -> P b -> a <> b -> cmp a b < 0 \/ cmp b a < 0) ->
  P x -> Forall P l -> x ∉ l -> StronglySorted (fun a b => cmp a b < 0) l -> StronglySorted (fun a b => cmp a b < 0) (insert_by cmp x l).
Proof.
  intros Ht Hd Hx HP Hn Hs. induction Hs as [|y l Hs IH Hy]; cbn [insert_by]; [by repeat constructor|].
  apply Forall_cons in HP as [HPy HP]. apply not_elem_of_cons in Hn as [Hxy Hn]. case_match; bool_props.
  - constructor; [by constructor|]. constructor; [lia|]. rewrite Forall_forall in *. intros z Hz. apply (Ht x y z); auto.
  - constructor; [by apply IH|]. rewrite insert_by_perm. constructor; [|done]. destruct (Hd y x); [done..| |lia]. lia.
Qed.

Lemma sort_by_strongly {A} (P : A -> Prop) (cmp : A -> A -> Z) l :
  (forall a b c, P a -> P b -> P c -> cmp a b < 0 -> cmp b c < 0 -> cmp a c < 0) ->
  (forall a b, P a -> P b -> a <> b -> cmp a b < 0 \/ cmp b a < 0) ->
  Forall P l -> NoDup l -> StronglySorted (fun a b => cmp a b < 0) (sort_by cmp l).
Proof.
  intros Ht Hd HP Hn. induction l as [|x l IH] using rev_ind; [constructor|].
  apply Forall_app in HP as [HP Hx%Forall_inv]. apply NoDup_app in Hn as (Hn & Hxl & _).
  unfold sort_by. rewrite foldl_app. cbn [foldl]. fold (sort_by cmp l).
  apply (insert_by_strongly P); [done..| | |by apply IH].
  - by rewrite sort_by_perm.
  - rewrite sort_by_perm. intros Hi. apply (Hxl x Hi). by left.
Qed.
