(* ===== verification/JsDouble.v ===== *)
(** * Integers as the language has them

    The numbers of the language are doubles.  Those that hold integers are integers here,
    with 2^1024, which no double is, for the infinity: rounding to the nearest double,
    addition, and the text of a number.  Up to 2^53 they are plain integers
    ([double_add_small], [double_text_small]). *)
From S2P Require Import Prelude JsString JsArray.

Definition infinity : Z := 2 ^ 1024.

(** [Number] of an exact natural number: the nearest double, halfway cases to even. *)
Definition to_number (z : Z) : Z :=
  if z <? 2 ^ 53 then z else
  let u := 2 ^ (Z.log2 z - 52) in
  let q := z / u in
  let r := z mod u in
  let up := (u <? 2 * r) || ((2 * r =? u) && Z.odd q) in
  Z.min infinity (u * (if up then q + 1 else q)).

Definition round_double (z : Z) : Z := if z <? 0 then - to_number (- z) else to_number z.

(** [a + b]; [None] is NaN. *)
Definition double_add (a b : Z) : option Z :=
  if Z.abs a =? infinity then (if (Z.abs b =? infinity) && negb (a =? b) then None else Some a)
  else if Z.abs b =? infinity then Some b
  else Some (round_double (a + b)).

(** The digits of [String(z)] from 2^53 on: the fewest that read back as [z], the closest of
    those; [n] is the number of digits in front of the point. *)
Fixpoint shortest (fuel : nat) (k n z : Z) : Z * Z :=
  match fuel with
  | O => (z, n)
  | S fuel =>
      let p := 10 ^ (n - k) in
      let lo := z / p in
      let closer := if 2 * (z mod p) <? p then lo else if p <? 2 * (z mod p) then lo + 1 else if Z.odd lo then lo + 1 else lo in
      match to_number (lo * p) =? z, to_number ((lo + 1) * p) =? z with
      | true, true => (closer, k)
      | true, false => (lo, k)
      | false, true => (lo + 1, k)
      | false, false => shortest fuel (k + 1) n z
      end
  end.

(** The text of [s] times ten to the [n - k], where [s] has [k] digits. *)
Definition positional (s k n : Z) : jsstr :=
  if n <=? 21 then dec s ++ replicate (Z.to_nat (n - k)) 48 else
  match dec s with
  | c :: ds => c :: (match ds with [] => [] | _ => js "." ++ ds end) ++ js "e+" ++ dec (n - 1)
  | [] => []
  end.

Definition large_text (z : Z) : jsstr :=
  let n := js_len (dec z) in
  let '(s, k) := shortest (Z.to_nat n) 1 n z in
  if s =? 10 ^ k then positional 1 1 (n + 1) else positional s k n.

Definition double_text (z : Z) : jsstr :=
  if Z.abs z <? 2 ^ 53 then dec z else
  let t := if Z.abs z =? infinity then js "Infinity" else large_text (Z.abs z) in
  if z <? 0 then js "-" ++ t else t.

Example large_texts :
  map double_text [2 ^ 53; - 2 ^ 60; 10 ^ 20 + 10 ^ 17; 10 ^ 21; to_number (123456789 * 10 ^ 20); infinity; to_number (10 ^ 23)] =
  map js ["9007199254740992"; "-1152921504606847000"; "100100000000000000000"; "1e+21"; "1.23456789e+28"; "Infinity"; "1e+23"]%string.
Proof. by vm_compute. Qed.

(** ** Rounding *)
Lemma to_number_small z : z < 2 ^ 53 -> to_number z = z.
Proof. intros H. unfold to_number. by rewrite (proj2 (Z.ltb_lt _ _) H). Qed.

(** The unit of the last place, and the nearest multiple of it. *)
Definition ulp (z : Z) : Z := 2 ^ (Z.log2 z - 52).
Definition nearest (u z : Z) : Z :=
  u * (if (u <? 2 * (z mod u)) || ((2 * (z mod u) =? u) && Z.odd (z / u)) then z / u + 1 else z / u).

Lemma to_number_large z : 2 ^ 53 <= z -> to_number z = Z.min infinity (nearest (ulp z) z).
Proof. intros H. unfold to_number. by rewrite (proj2 (Z.ltb_ge _ _) H). Qed.

Lemma nearest_multiple u m : 0 < u -> nearest u (u * m) = u * m.
Proof.
  intros Hu. unfold nearest. rewrite (Z.mul_comm u m), Z.mod_mul, Z.div_mul by lia.
  rewrite (proj2 (Z.ltb_ge _ _)), (proj2 (Z.eqb_neq _ _)) by lia. cbn. lia.
Qed.

Lemma nearest_mono u a b : 0 < u -> a <= b -> nearest u a <= nearest u b.
Proof.
  intros Hu Hab. unfold nearest. pose proof (Z.div_mod a u ltac:(lia)) as Ea. pose proof (Z.div_mod b u ltac:(lia)) as Eb.
  pose proof (Z.mod_pos_bound a u Hu). pose proof (Z.mod_pos_bound b u Hu). pose proof (Z.div_le_mono a b u Hu Hab) as Hq.
  apply Z.mul_le_mono_nonneg_l; [lia|]. destruct (Z.eq_dec (a / u) (b / u)) as [E|E]; [|repeat case_match; lia].
  rewrite <- E in *. assert (a mod u <= b mod u) as Hr by lia.
  destruct (Z.ltb_spec u (2 * (a mod u))), (Z.ltb_spec u (2 * (b mod u))), (Z.eqb_spec (2 * (a mod u)) u), (Z.eqb_spec (2 * (b mod u)) u);
    cbn [orb andb]; try lia; destruct (Z.odd (a / u)); lia.
Qed.

Lemma large_log z : 2 ^ 53 <= z -> 53 <= Z.log2 z /\ 0 < ulp z /\ 2 ^ Z.log2 z = ulp z * 2 ^ 52 /\ 2 ^ Z.log2 z <= z < 2 * 2 ^ Z.log2 z.
Proof.
  intros H. assert (53 <= Z.log2 z) as Hl by (apply Z.log2_le_pow2; lia). split; [done|]. unfold ulp.
  split; [apply Z.pow_pos_nonneg; lia|]. split; [rewrite <- Z.pow_add_r by lia; f_equal; lia|].
  pose proof (Z.log2_spec z ltac:(lia)) as [H1 H2]. rewrite Z.pow_succ_r in H2 by lia. lia.
Qed.

(** What is nearest stays between the powers of two. *)
Lemma nearest_bounds z : 2 ^ 53 <= z -> 2 ^ Z.log2 z <= nearest (ulp z) z <= 2 * 2 ^ Z.log2 z.
Proof.
  intros H. destruct (large_log z H) as (_ & Hu & E & Hz).
  assert (nearest (ulp z) (2 ^ Z.log2 z) = 2 ^ Z.log2 z) as E1 by (rewrite E; by apply nearest_multiple).
  assert (nearest (ulp z) (2 * 2 ^ Z.log2 z) = 2 * 2 ^ Z.log2 z) as E2.
  { rewrite E. replace (2 * (ulp z * 2 ^ 52)) with (ulp z * (2 * 2 ^ 52)) by lia. by apply nearest_multiple. }
  split; [rewrite <- E1|rewrite <- E2]; apply nearest_mono; lia.
Qed.

Lemma to_number_mono a b : a <= b -> to_number a <= to_number b.
Proof.
  intros Hab. destruct (Z.lt_ge_cases b (2 ^ 53)) as [Hb|Hb]; [by rewrite !to_number_small by lia|].
  rewrite (to_number_large b Hb). pose proof (nearest_bounds b Hb) as [Hb1 Hb2].
  destruct (large_log b Hb) as (Hlb & Hub & _ & Hzb).
  assert (2 ^ 53 <= infinity) as Hinf by (by vm_compute).
  destruct (Z.lt_ge_cases a (2 ^ 53)) as [Ha|Ha].
  { rewrite to_number_small by done. pose proof (Z.pow_le_mono_r 2 53 (Z.log2 b) ltac:(lia) Hlb). lia. }
  rewrite (to_number_large a Ha). apply Z.min_le_compat_l.
  destruct (Z.eq_dec (Z.log2 a) (Z.log2 b)) as [E|E].
  - assert (ulp a = ulp b) as -> by (unfold ulp; by rewrite E). by apply nearest_mono.
  - pose proof (nearest_bounds a Ha) as [_ Ha2]. pose proof (Z.log2_le_mono a b Hab).
    pose proof (Z.pow_le_mono_r 2 (Z.log2 a + 1) (Z.log2 b) ltac:(lia) ltac:(lia)) as Hp.
    destruct (large_log a Ha) as (Hla & _). rewrite Z.pow_add_r in Hp by lia. lia.
Qed.

Lemma to_number_nonneg z : 0 <= z -> 0 <= to_number z.
Proof. intros H. apply (to_number_mono 0 z) in H. by rewrite to_number_small in H by lia. Qed.

Lemma to_number_power k : 53 <= k -> to_number (2 ^ k) = Z.min infinity (2 ^ k).
Proof.
  intros Hk. rewrite to_number_large by (apply Z.pow_le_mono_r; lia). f_equal. unfold ulp. rewrite Z.log2_pow2 by lia.
  assert (2 ^ k = 2 ^ (k - 52) * 2 ^ 52) as E by (rewrite <- Z.pow_add_r by lia; f_equal; lia).
  rewrite E. apply nearest_multiple. apply Z.pow_pos_nonneg; lia.
Qed.

(** Rounding twice is rounding once. *)
Lemma to_number_idem z : to_number (to_number z) = to_number z.
Proof.
  destruct (Z.lt_ge_cases z (2 ^ 53)) as [Hz|Hz]; [by rewrite !(to_number_small z)|]. rewrite (to_number_large z Hz).
  destruct (Z.le_ge_cases infinity (nearest (ulp z) z)) as [Hi|Hi].
  { rewrite Z.min_l by done. by vm_compute. }
  rewrite Z.min_r by done. set (v := nearest (ulp z) z) in *. destruct (large_log z Hz) as (Hl & Hu & E & _).
  pose proof (nearest_bounds z Hz) as [H1 H2]. fold v in H1, H2.
  destruct (Z.eq_dec v (2 * 2 ^ Z.log2 z)) as [Ev|Ev].
  { rewrite <- Z.pow_succ_r in Ev by lia. rewrite Ev in *. rewrite to_number_power by lia. by rewrite Z.min_r by lia. }
  assert (Z.log2 v = Z.log2 z) as Elog by (apply Z.log2_unique; [lia|rewrite Z.pow_succ_r by lia; lia]).
  assert (2 ^ 53 <= 2 ^ Z.log2 z) as Hp by (apply Z.pow_le_mono_r; lia).
  rewrite to_number_large by lia. assert (ulp v = ulp z) as -> by (unfold ulp; by rewrite Elog).
  assert (nearest (ulp z) v = v) as ->; [|lia]. unfold v at 1. unfold nearest at 2. by apply nearest_multiple.
Qed.

(** ** Doubles *)
Definition is_double (z : Z) : Prop := round_double z = z /\ Z.abs z <= infinity.

Lemma round_double_opp z : round_double (- z) = - round_double z.
Proof.
  unfold round_double. destruct (Z.ltb_spec (- z) 0), (Z.ltb_spec z 0); try lia.
  - by rewrite Z.opp_involutive.
  - by assert (z = 0) as -> by lia.
Qed.

Lemma round_double_mono a b : a <= b -> round_double a <= round_double b.
Proof.
  intros H. unfold round_double. destruct (Z.ltb_spec a 0), (Z.ltb_spec b 0); try lia.
  - pose proof (to_number_mono (- b) (- a) ltac:(lia)). lia.
  - pose proof (to_number_nonneg (- a) ltac:(lia)). pose proof (to_number_nonneg b ltac:(lia)). lia.
  - by apply to_number_mono.
Qed.

Lemma to_number_le z : to_number z <= infinity.
Proof.
  destruct (Z.lt_ge_cases z (2 ^ 53)) as [Hz|Hz]; [rewrite to_number_small by done|rewrite to_number_large by done; lia].
  assert (2 ^ 53 <= infinity) by (by vm_compute). lia.
Qed.

Lemma to_number_double z : 0 <= z -> is_double (to_number z).
Proof.
  intros Hz. pose proof (to_number_nonneg z Hz). pose proof (to_number_le z). split; [|lia].
  unfold round_double. rewrite (proj2 (Z.ltb_ge _ _)) by done. apply to_number_idem.
Qed.

Lemma double_opp z : is_double z -> is_double (- z).
Proof. intros [H1 H2]. split; [by rewrite round_double_opp, H1|lia]. Qed.

Lemma round_is_double z : is_double (round_double z).
Proof.
  unfold round_double. destruct (Z.ltb_spec z 0); [apply double_opp|]; apply to_number_double; lia.
Qed.

Lemma small_double z : Z.abs z <= 2 ^ 53 -> is_double z.
Proof.
  intros H. assert (2 ^ 53 < infinity) by (by vm_compute). split; [|lia]. unfold round_double.
  assert (forall n, 0 <= n <= 2 ^ 53 -> to_number n = n) as Hn.
  { intros n Hn. destruct (Z.eq_dec n (2 ^ 53)) as [->|]; [by vm_compute|]. apply to_number_small. lia. }
  destruct (Z.ltb_spec z 0); rewrite Hn by lia; lia.
Qed.

Lemma double_add_double a b c : is_double a -> is_double b -> double_add a b = Some c -> is_double c.
Proof.
  intros Ha Hb. unfold double_add. repeat case_match; intros [= <-]; try done. apply round_is_double.
Qed.

Lemma double_add_opp a b : double_add (- a) (- b) = Z.opp <$> double_add a b.
Proof.
  unfold double_add. rewrite !Z.abs_opp. assert ((- a =? - b) = (a =? b)) as ->.
  { destruct (Z.eqb_spec (- a) (- b)), (Z.eqb_spec a b); lia. }
  repeat case_match; cbn; try done. f_equal. rewrite <- round_double_opp. f_equal. lia.
Qed.

(** Adding something positive does not go back. *)
Lemma double_add_le a b c : is_double a -> is_double b -> 0 <= b -> double_add a b = Some c -> a <= c.
Proof.
  intros [Ha Ha'] [Hb _] Hpos. unfold double_add. destruct (Z.eqb_spec (Z.abs a) infinity).
  - destruct (_ && _); [done|]. by intros [= <-].
  - destruct (Z.eqb_spec (Z.abs b) infinity); intros [= <-]; [lia|]. rewrite <- Ha at 1. apply round_double_mono. lia.
Qed.

Lemma double_add_small a b : Z.abs a <= 2 ^ 53 -> Z.abs b <= 2 ^ 53 -> Z.abs (a + b) <= 2 ^ 53 -> double_add a b = Some (a + b).
Proof.
  intros Ha Hb Hab. assert (2 ^ 53 < infinity) by (by vm_compute). unfold double_add.
  rewrite (proj2 (Z.eqb_neq (Z.abs a) _)), (proj2 (Z.eqb_neq (Z.abs b) _)) by lia. f_equal. by apply small_double.
Qed.

Lemma double_text_small z : Z.abs z < 2 ^ 53 -> double_text z = dec z.
Proof. intros H. unfold double_text. by rewrite (proj2 (Z.ltb_lt _ _) H). Qed.
