(* ===== verification/JsState.v ===== *)
(** * Computations on mutable objects

    Methods of the sources read and write the fields of shared objects and may
    throw half way.  [stM S A] is such a computation on a store of type [S]: what
    was written before an exception stays written.  [keeps R m] says that [m]
    only moves the store along the preorder [R], whether it returns, throws or
    runs out of fuel; the rules below prove it by the shape of [m]. *)
From S2P Require Import Prelude.

Definition stM (S A : Type) : Type := S -> S * outcome A.

#[export] Instance stM_ret S : MRet (stM S) := fun A a s => (s, Ret a).
#[export] Instance stM_bind S : MBind (stM S) :=
  fun A B f m s =>
    match m s with
    | (s', Ret a) => f a s'
    | (s', Throw e) => (s', Throw e)
    | (s', OutOfFuel) => (s', OutOfFuel)
    end.

Definition get_st {S} : stM S S := fun s => (s, Ret s).
Definition modify_st {S} (f : S -> S) : stM S unit := fun s => (f s, Ret tt).
Definition throw_st {S A} (e : js_error) : stM S A := fun s => (s, Throw e).
Definition no_fuel {S A} : stM S A := fun s => (s, OutOfFuel).

(** A call that does not touch the store. *)
Definition lift {S A} (m : outcome A) : stM S A := fun s => (s, m).

(** [for (x of l) body(x)] *)
Fixpoint iterM {S A} (body : A -> stM S unit) (l : list A) : stM S unit :=
  match l with
  | [] => mret tt
  | x :: r => body x ;; iterM body r
  end.

(** [l.map(body)], and [l.reduce(body, a)] *)
Fixpoint mapS {S A B} (body : A -> stM S B) (l : list A) : stM S (list B) :=
  match l with
  | [] => mret []
  | x :: r => y ← body x; ys ← mapS body r; mret (y :: ys)
  end.

Fixpoint foldS {S A B} (body : B -> A -> stM S B) (a : B) (l : list A) : stM S B :=
  match l with
  | [] => mret a
  | x :: r => a' ← body a x; foldS body a' r
  end.

Lemma bind_ran {S A B} (m : stM S A) (f : A -> stM S B) s s' a : m s = (s', Ret a) -> (m ≫= f) s = f a s'.
Proof. intros E. unfold mbind, stM_bind. by rewrite E. Qed.

Lemma bind_returned {S A B} (m : stM S A) (f : A -> stM S B) s s' b : (m ≫= f) s = (s', Ret b) ->
  exists s1 a, m s = (s1, Ret a) /\ f a s1 = (s', Ret b).
Proof. unfold mbind, stM_bind. destruct (m s) as [s1 [a|e|]]; [|done..]. intros E. by exists s1, a. Qed.

Lemma seq_ran {S B} (m n : stM S unit) (k : stM S B) s s1 : (m ;; n) s = (s1, Ret tt) -> (m ;; n ;; k) s = k s1.
Proof. unfold mbind, stM_bind. destruct (m s) as [s' [[]|e|]]; [|done..]. intros E. by rewrite E. Qed.

Lemma iterM_modify {S A} (f : A -> S -> S) l s :
  iterM (fun x => modify_st (f x)) l s = (foldl (fun s x => f x s) s l, Ret tt).
Proof. revert s. induction l as [|x l IH]; intros s; [done|]. apply IH. Qed.

Lemma foldS_app {S A B} (body : B -> A -> stM S B) l1 l2 b s :
  foldS body b (l1 ++ l2) s = (b' ← foldS body b l1; foldS body b' l2) s.
Proof.
  revert b s. induction l1 as [|x l1 IH]; intros b s; [done|]. cbn [foldS app]. unfold mbind, stM_bind.
  destruct (body b x s) as [s' [b'|e|]]; [|done..]. apply IH.
Qed.

(** Loops of a body that leaves the store alone. *)
Lemma foldS_pure {S A B} (body : B -> A -> stM S B) (g : B -> A -> B) l s :
  (forall b a, a ∈ l -> body b a s = (s, Ret (g b a))) -> forall b, foldS body b l s = (s, Ret (foldl g b l)).
Proof.
  induction l as [|x l IH]; intros Hg b; [done|]. cbn [foldS foldl].
  rewrite (bind_ran _ _ s s (g b x)) by (apply Hg; left). apply IH. intros b' a Ha. apply Hg. by right.
Qed.

Lemma mapS_pure {S A B} (body : A -> stM S B) (g : A -> B) l s :
  (forall a, a ∈ l -> body a s = (s, Ret (g a))) -> mapS body l s = (s, Ret (map g l)).
Proof.
  induction l as [|x l IH]; intros Hg; [done|]. cbn [mapS map].
  rewrite (bind_ran _ _ s s (g x)) by (apply Hg; left).
  rewrite (bind_ran _ _ s s (map g l)); [done|]. apply IH. intros a Ha. apply Hg. by right.
Qed.

Section keeps.
Context {S : Type} (R : relation S) `{!PreOrder R}.

Definition keeps {A} (m : stM S A) : Prop := forall s, R s (m s).1.

Lemma keeps_ret {A} (a : A) : keeps (mret a).
Proof. intros s. cbn. reflexivity. Qed.

Lemma keeps_throw {A} e : keeps (throw_st (A := A) e).
Proof. intros s. cbn. reflexivity. Qed.

Lemma keeps_no_fuel {A} : keeps (no_fuel (A := A)).
Proof. intros s. cbn. reflexivity. Qed.

Lemma keeps_get : keeps get_st.
Proof. intros s. cbn. reflexivity. Qed.

Lemma keeps_modify f : (forall s, R s (f s)) -> keeps (modify_st f).
Proof. intros H s. apply H. Qed.

Lemma keeps_bind {A B} (m : stM S A) (f : A -> stM S B) :
  keeps m -> (forall a, keeps (f a)) -> keeps (m ≫= f).
Proof.
  intros Hm Hf s. unfold mbind, stM_bind. specialize (Hm s).
  destruct (m s) as [s' [a|e|]]; cbn in *; [|done|done]. etrans; [exact Hm|apply Hf].
Qed.

(** The same, where the rest may look at the store it starts from. *)
Lemma keeps_get_bind {B} (f : S -> stM S B) : (forall s, R s (f s s).1) -> keeps (get_st ≫= f).
Proof. intros H s. apply H. Qed.

Lemma keeps_iter {A} (body : A -> stM S unit) l : (forall x, keeps (body x)) -> keeps (iterM body l).
Proof.
  intros H. induction l as [|x l IH]; cbn [iterM]; [apply keeps_ret|].
  apply keeps_bind; [apply H|]. intros _. exact IH.
Qed.
End keeps.

Create HintDb keeps.
#[export] Hint Resolve keeps_ret keeps_throw keeps_no_fuel keeps_get : keeps.
