(* ===== verification/JsObject.v ===== *)
(** * JavaScript values and objects

    What underscore and assert compute with: primitive values, and objects on a heap
    with their class, prototype, elements and named properties.  A property key is an
    index or a name ([key]), as arrays and strings distinguish them; elements are kept
    apart, a hole of an array being an element that is not there.  All properties hold
    data: there are no accessors, proxies or frozen objects, and symbols are left out.
    Numbers are the integers, which the modelled code does not take beyond 2^53, with
    the second zero, the infinities and NaN.

    Functions of clients are a parameter ([Client]), as are the objects every program
    starts with ([Realm]). *)
From stdpp Require Import list.
From S2P Require Import Prelude JsString JsArray JsState.

(** ** Values *)
Definition loc : Type := nat.
Bind Scope nat_scope with loc.

Inductive number : Type := Int (z : Z) | MinusZero | Infinity | MinusInfinity | NaN.

Inductive value : Type :=
| Undefined
| Null
| Bool (b : bool)
| Num (n : number)
| Str (s : jsstr)
| Obj (l : loc).

Inductive key : Type := Index (i : nat) | Name (s : jsstr).

Inductive class : Type :=
| CObject
| CArray
| CArguments
| CFunction
| CError
| CDate (t : number)
| CRegExp (text : jsstr)
| CBoolean (b : bool)
| CNumber (n : number)
| CString (s : jsstr).

#[export] Instance number_eq_dec : EqDecision number.
Proof. solve_decision. Defined.
#[export] Instance value_eq_dec : EqDecision value.
Proof. solve_decision. Defined.
#[export] Instance key_eq_dec : EqDecision key.
Proof. solve_decision. Defined.
#[export] Instance class_eq_dec : EqDecision class.
Proof. solve_decision. Defined.

(** A named property has a value and may be enumerable. *)
Record object : Type := Object {
  o_class : class;
  o_proto : option loc;
  o_elems : list (option value);
  o_props : list (jsstr * (value * bool)) }.

Definition heap : Type := list object.

Definition int (n : nat) : value := Num (Int (Z.of_nat n)).

(** *** Keys *)
Definition key_of_text (s : jsstr) : key :=
  match index_key s with Some i => Index (Z.to_nat i) | None => Name s end.

Definition key_text (k : key) : jsstr := match k with Index i => dec (Z.of_nat i) | Name s => s end.

Definition prop (s : string) : key := Name (js s).

(** ** Properties of an object *)
Definition assoc {A} (s : jsstr) (l : list (jsstr * A)) : option A := snd <$> List.find (fun p => bool_decide (p.1 = s)) l.

Definition char_at (s : jsstr) (i : nat) : option value := (fun c => Str [c]) <$> s !! i.

Definition get_own (o : object) (k : key) : option value :=
  match k, o_class o with
  | Index i, CString s => match char_at s i with Some v => Some v | None => mjoin (o_elems o !! i) end
  | Index i, _ => mjoin (o_elems o !! i)
  | Name n, CArray => if bool_decide (n = js "length") then Some (int (length (o_elems o))) else fst <$> assoc n (o_props o)
  | Name n, CString s => if bool_decide (n = js "length") then Some (int (length s)) else fst <$> assoc n (o_props o)
  | Name n, _ => fst <$> assoc n (o_props o)
  end.

(** The enumerable keys: indices in order, then names in the order they were added. *)
Definition index_keys (o : object) : list key :=
  match o_class o with CString s => map Index (seq 0 (length s)) | _ => [] end ++
  omap (fun '(i, v) => match v with Some _ => Some (Index i) | None => None end) (imap pair (o_elems o)).

Definition own_keys (o : object) : list key :=
  index_keys o ++ omap (fun '(n, (_, e)) => if (e : bool) then Some (Name n) else None) (o_props o).

Fixpoint set_assoc (s : jsstr) (v : value) (l : list (jsstr * (value * bool))) : list (jsstr * (value * bool)) :=
  match l with
  | [] => [(s, (v, true))]
  | (n, (w, e)) :: l => if bool_decide (n = s) then (n, (v, e)) :: l else (n, (w, e)) :: set_assoc s v l
  end.

Definition set_elem (i : nat) (v : value) (l : list (option value)) : list (option value) :=
  if (i <? length l)%nat then <[i := Some v]> l else l ++ replicate (i - length l) None ++ [Some v].

Definition resize (n : nat) (l : list (option value)) : list (option value) := take n l ++ replicate (n - length l) None.

Definition set_own (k : key) (v : value) (o : object) : object :=
  match k with
  | Index i => Object (o_class o) (o_proto o) (set_elem i v (o_elems o)) (o_props o)
  | Name n => Object (o_class o) (o_proto o) (o_elems o) (set_assoc n v (o_props o))
  end.

Definition delete_own (k : key) (o : object) : object :=
  match k with
  | Index i => Object (o_class o) (o_proto o) (alter (fun _ => None) i (o_elems o)) (o_props o)
  | Name n => Object (o_class o) (o_proto o) (o_elems o) (List.filter (fun p => negb (bool_decide (p.1 = n))) (o_props o))
  end.

(** ** Prototype chains

    A chain has at most as many links as there are objects: no program can close one. *)
Fixpoint find_prop (n : nat) (h : heap) (l : loc) (k : key) : option value :=
  match n with
  | O => None
  | S n =>
      match h !! l with
      | Some o =>
          match get_own o k with
          | Some v => Some v
          | None => match o_proto o with Some p => find_prop n h p k | None => None end
          end
      | None => None
      end
  end.

(** The keys of an object, enumerable or not. *)
Definition all_own (o : object) : list key :=
  index_keys o ++ match o_class o with CArray | CString _ => [prop "length"] | _ => [] end ++ map (fun p => Name p.1) (o_props o).

(** [for (var key in obj)]: the keys of the chain, without those seen before. *)
Fixpoint for_in (n : nat) (h : heap) (l : loc) (seen : list key) : list key :=
  match n with
  | O => []
  | S n =>
      match h !! l with
      | Some o =>
          let mine := List.filter (fun k => negb (bool_decide (k ∈ seen))) (own_keys o) in
          mine ++ match o_proto o with Some p => for_in n h p (seen ++ all_own o) | None => [] end
      | None => []
      end
  end.

Fixpoint on_chain (n : nat) (h : heap) (l p : loc) : bool :=
  match n with
  | O => false
  | S n => match h !! l ≫= o_proto with Some q => bool_decide (q = p) || on_chain n h q p | None => false end
  end.

(** The objects a program starts with. *)
Class Realm : Type := {
  object_proto : loc;
  array_proto : loc;
  function_proto : loc;
  string_proto : loc;
  number_proto : loc;
  boolean_proto : loc;
  error_proto : loc;
  underscore_proto : loc }.

(** ** Reading a property *)
Section reading.
Context `{Realm}.

Definition prop_of (h : heap) (v : value) (k : key) : option value :=
  match v with
  | Undefined | Null => None
  | Bool _ => find_prop (length h) h boolean_proto k
  | Num _ => find_prop (length h) h number_proto k
  | Str s =>
      match k with
      | Index i => match char_at s i with Some v => Some v | None => find_prop (length h) h string_proto k end
      | Name n => if bool_decide (n = js "length") then Some (int (length s)) else find_prop (length h) h string_proto k
      end
  | Obj l => find_prop (length h) h l k
  end.

Definition nullish (v : value) : bool := match v with Undefined | Null => true | _ => false end.

(** [v[k]] *)
Definition get (h : heap) (v : value) (k : key) : outcome value :=
  if nullish v then Throw (TypeError "Cannot read property of undefined") else Ret (default Undefined (prop_of h v k)).

(** [k in v] *)
Definition has_prop (h : heap) (v : value) (k : key) : outcome bool :=
  match v with
  | Obj l => Ret (bool_decide (is_Some (find_prop (length h) h l k)))
  | _ => Throw (TypeError "Cannot use 'in' operator")
  end.

(** [hasOwnProperty.call(v, k)] *)
Definition own_prop (h : heap) (v : value) (k : key) : outcome bool :=
  match v with
  | Undefined | Null => Throw (TypeError "Cannot convert undefined or null to object")
  | Str s => Ret (match k with Index i => (i <? length s)%nat | Name n => bool_decide (n = js "length") end)
  | Obj l => Ret (match h !! l with Some o => bool_decide (is_Some (get_own o k)) | None => false end)
  | _ => Ret false
  end.

(** ** Kinds of values *)
Definition class_of (h : heap) (v : value) : option class :=
  match v with Obj l => o_class <$> h !! l | _ => None end.

(** [Object.prototype.toString.call(v)], without the brackets. *)
Definition class_name (h : heap) (v : value) : string :=
  match v with
  | Undefined => "Undefined"
  | Null => "Null"
  | Bool _ => "Boolean"
  | Num _ => "Number"
  | Str _ => "String"
  | Obj l =>
      match o_class <$> h !! l with
      | Some CArray => "Array"
      | Some CArguments => "Arguments"
      | Some CFunction => "Function"
      | Some CError => "Error"
      | Some (CDate _) => "Date"
      | Some (CRegExp _) => "RegExp"
      | Some (CBoolean _) => "Boolean"
      | Some (CNumber _) => "Number"
      | Some (CString _) => "String"
      | Some CObject | None => "Object"
      end
  end.

Definition typeof (h : heap) (v : value) : string :=
  match v with
  | Undefined => "undefined"
  | Null => "object"
  | Bool _ => "boolean"
  | Num _ => "number"
  | Str _ => "string"
  | Obj l => match o_class <$> h !! l with Some CFunction => "function" | _ => "object" end
  end.

Definition is_function (h : heap) (v : value) : bool := bool_decide (typeof h v = "function"%string).
Definition is_object (v : value) : bool := match v with Obj _ => true | _ => false end.

(** [v instanceof f] *)
Definition instance_of (h : heap) (v f : value) : outcome bool :=
  if negb (is_function h f) then Throw (TypeError "Right-hand side of 'instanceof' is not callable") else
  match v with
  | Obj l =>
      p ← get h f (prop "prototype");
      match p with
      | Obj p => Ret (on_chain (length h) h l p)
      | _ => Throw (TypeError "Function has non-object prototype in instanceof check")
      end
  | _ => Ret false
  end.

Definition truthy (v : value) : bool :=
  match v with
  | Undefined | Null | Bool false | Num (Int 0) | Num MinusZero | Num NaN | Str [] => false
  | _ => true
  end.
End reading.

(** [a === b] *)
Definition strict_eq (a b : value) : bool :=
  match a, b with
  | Num NaN, Num NaN => false
  | Num (Int 0), Num MinusZero | Num MinusZero, Num (Int 0) => true
  | _, _ => bool_decide (a = b)
  end.

(** Equal up to the sign of zero: [0 === -0], but [1 / 0 !== 1 / -0]. *)
Lemma strict_eq_spec a b : strict_eq a b = true <->
  (a = b /\ a <> Num NaN) \/ (a = Num (Int 0) /\ b = Num MinusZero) \/ (a = Num MinusZero /\ b = Num (Int 0)).
Proof.
  unfold strict_eq. destruct a as [| | |[[| |]| | | |]| |], b as [| | |[[| |]| | | |]| |];
    rewrite ?bool_decide_eq_true; naive_solver.
Qed.

Lemma strict_eq_refl v : strict_eq v v = negb (bool_decide (v = Num NaN)).
Proof. destruct v as [| | |[[| |]| | | |]| |]; cbn; rewrite ?bool_decide_eq_true_2 by done; done. Qed.

Lemma strict_eq_trans a b c : strict_eq a b = true -> strict_eq b c = true -> strict_eq a c = true.
Proof. rewrite !strict_eq_spec. naive_solver. Qed.

Lemma strict_eq_sym a b : strict_eq a b = strict_eq b a.
Proof. apply eq_true_iff_eq. rewrite !strict_eq_spec. naive_solver. Qed.

Lemma strict_eq_self a b : strict_eq a b = true -> strict_eq b b = true.
Proof. intros E. apply (strict_eq_trans b a b); [by rewrite strict_eq_sym|done]. Qed.

(** ** Numbers *)

(** [a < b] on numbers: undefined for NaN. *)
Definition num_lt (a b : number) : bool :=
  match a, b with
  | NaN, _ | _, NaN => false
  | MinusInfinity, MinusInfinity | _, MinusInfinity | Infinity, _ => false
  | MinusInfinity, _ | _, Infinity => true
  | Int x, Int y => x <? y
  | Int x, MinusZero => x <? 0
  | MinusZero, Int y => 0 <? y
  | MinusZero, MinusZero => false
  end.

Definition num_eq (a b : number) : bool := strict_eq (Num a) (Num b).

(** ** Programs on the heap *)
Definition js_fun : Type := value -> list value -> stM heap value.

(** The client: what calling one of its functions does, with [this] and the
    arguments; the primitive that stands for an object; and the number a text that is
    no integer stands for. *)
Class Client : Type := {
  apply : loc -> js_fun;
  to_primitive : loc -> stM heap value;
  numeral : jsstr -> number }.

Section programs.
Context `{Realm} `{Client}.

Definition look {A} (f : heap -> outcome A) : stM heap A := fun h => (h, f h).

Definition alloc (o : object) : stM heap value := fun h => (h ++ [o], Ret (Obj (length h))).

Definition new_object : stM heap value := alloc (Object CObject (Some object_proto) [] []).
Definition new_array (vs : list value) : stM heap value := alloc (Object CArray (Some array_proto) (map Some vs) []).
(** [Array(n)] *)
Definition new_holes (n : nat) : stM heap value := alloc (Object CArray (Some array_proto) (replicate n None) []).

Definition getM (v : value) (k : key) : stM heap value := look (fun h => get h v k).

(** [v[k] = w]: nothing happens to a primitive. *)
Definition putM (v : value) (k : key) (w : value) : stM heap unit :=
  match v with
  | Undefined | Null => throw_st (TypeError "Cannot set property of undefined")
  | Obj l =>
      h ← get_st;
      match h !! l with
      | Some o =>
          match o_class o, k with
          | CArray, Name n =>
              if bool_decide (n = js "length") then
                match w with
                | Num (Int z) =>
                    if (0 <=? z) && (z <? 2 ^ 32)
                    then modify_st (fun h => <[l := Object (o_class o) (o_proto o) (resize (Z.to_nat z) (o_elems o)) (o_props o)]> h)
                    else throw_st (RangeError "Invalid array length")
                | _ => throw_st (RangeError "Invalid array length")
                end
              else modify_st (fun h => <[l := set_own k w o]> h)
          | _, _ => modify_st (fun h => <[l := set_own k w o]> h)
          end
      | None => mret tt
      end
  | _ => mret tt
  end.

(** [arr.push(v)] on an array. *)
Definition push (arr v : value) : stM heap unit :=
  match arr with
  | Obj l =>
      h ← get_st;
      match h !! l with
      | Some o => modify_st (fun h => <[l := set_own (Index (length (o_elems o))) v o]> h)
      | None => mret tt
      end
  | _ => throw_st (TypeError "push is not a function")
  end.

(** Calling a value. *)
Definition callM (f : value) : js_fun := fun this args =>
  h ← get_st;
  match f with
  | Obj l => if is_function h f then apply l this args else throw_st (TypeError "not a function")
  | _ => throw_st (TypeError "not a function")
  end.

(** *** Conversions *)
Definition to_prim (v : value) : stM heap value :=
  match v with
  | Obj l =>
      p ← to_primitive l;
      if is_object p then throw_st (TypeError "Cannot convert object to primitive value") else mret p
  | _ => mret v
  end.

Definition text_of_number (n : number) : jsstr :=
  match n with
  | Int z => dec z
  | MinusZero => js "0"
  | Infinity => js "Infinity"
  | MinusInfinity => js "-Infinity"
  | NaN => js "NaN"
  end.

Definition text_of_prim (v : value) : jsstr :=
  match v with
  | Undefined => js "undefined"
  | Null => js "null"
  | Bool true => js "true"
  | Bool false => js "false"
  | Num n => text_of_number n
  | Str s => s
  | Obj _ => []
  end.

(** ['' + v] *)
Definition to_text (v : value) : stM heap jsstr := p ← to_prim v; mret (text_of_prim p).

(** [v] as a property key. *)
Definition to_key (v : value) : stM heap key :=
  match v with
  | Num (Int z) => mret (if (0 <=? z) && (z <? 2 ^ 32 - 1) then Index (Z.to_nat z) else Name (dec z))
  | _ => s ← to_text v; mret (key_of_text s)
  end.

Definition number_of_prim (v : value) : number :=
  match v with
  | Undefined | Obj _ => NaN
  | Null | Bool false => Int 0
  | Bool true => Int 1
  | Num n => n
  | Str s => if bool_decide (s = []) then Int 0 else match index_key s with Some i => Int i | None => numeral s end
  end.

(** [a < b] *)
Definition less_than (a b : value) : stM heap bool :=
  p ← to_prim a;
  q ← to_prim b;
  mret (match p, q with
        | Str s, Str t => str_ltb s t
        | _, _ => num_lt (number_of_prim p) (number_of_prim q)
        end).
End programs.
