(* ===== verification/JsHeap.v ===== *)
(** * The laws of the heap

    Objects of a heap that grew or changed, reading a property that was written, and
    chains of prototypes. *)
From stdpp Require Import list.
From S2P Require Import Prelude JsString JsArray JsState JsObject.

(** ** Old and new objects *)
Lemma heap_old (h : heap) o l : (l < length h)%nat -> (h ++ [o]) !! l = h !! l.
Proof. exact (lookup_app_l h [o] l). Qed.

Lemma heap_new (h : heap) o : (h ++ [o]) !! length h = Some o.
Proof. exact (list_lookup_middle h [] o (length h) eq_refl). Qed.

Lemma heap_grown (h : heap) os l o : h !! l = Some o -> (h ++ os) !! l = Some o.
Proof. exact (lookup_app_l_Some h os l o). Qed.

Lemma heap_set_length (h : heap) l o : length (<[l := o]> h) = length h.
Proof. exact (length_insert h l o). Qed.

Lemma heap_set_eq (h : heap) l o o' : h !! l = Some o' -> <[l := o]> h !! l = Some o.
Proof. intros Hl. exact (list_lookup_insert_eq h l o (lookup_lt_Some _ _ _ Hl)). Qed.

Lemma heap_set_ne (h : heap) l m o : l <> m -> <[l := o]> h !! m = h !! m.
Proof. exact (list_lookup_insert_ne h l m o). Qed.

Lemma heap_set_twice (h : heap) l o o' : <[l := o]> (<[l := o']> h) = <[l := o]> h.
Proof. exact (list_insert_insert_eq h l o o'). Qed.

Lemma heap_set_old (h : heap) l o n : (l < length h)%nat -> <[l := o]> (h ++ [n]) = <[l := o]> h ++ [n].
Proof. exact (insert_app_l h [n] l o). Qed.

Lemma heap_set_new (h : heap) o n : <[length h := o]> (h ++ [n]) = h ++ [o].
Proof. etrans; [exact (insert_app_r_alt h [n] (length h) o (le_n _))|]. by rewrite Nat.sub_diag. Qed.

Lemma find_prop_own h l n k v o : h !! l = Some o -> get_own o k = Some v -> find_prop (S n) h l k = Some v.
Proof. intros Ho Hk. cbn [find_prop]. by rewrite Ho, Hk. Qed.

(** Objects whose properties are all stored by name and index. *)
Definition ordinary (c : class) : bool := match c with CArray | CString _ => false | _ => true end.

(** ** Properties that were written *)

Lemma assoc_set_assoc n v ps m : fst <$> assoc m (set_assoc n v ps) = if bool_decide (m = n) then Some v else fst <$> assoc m ps.
Proof.
  unfold assoc. induction ps as [|[k [w e]] ps IH]; cbn [set_assoc List.find fst].
  - case_bool_decide as E; [by subst m; rewrite bool_decide_eq_true_2|]. by rewrite bool_decide_eq_false_2 by congruence.
  - destruct (decide (k = n)) as [->|Hne].
    + rewrite (bool_decide_eq_true_2 (n = n)) by done. cbn [List.find fst].
      destruct (decide (m = n)) as [->|E]; [by rewrite !bool_decide_eq_true_2|].
      by rewrite (bool_decide_eq_false_2 (m = n)), (bool_decide_eq_false_2 (n = m)) by congruence.
    + rewrite (bool_decide_eq_false_2 (k = n)) by done. cbn [List.find fst]. destruct (decide (k = m)) as [->|E]; [|by rewrite (bool_decide_eq_false_2 (k = m))].
      by rewrite (bool_decide_eq_true_2 (m = m)), bool_decide_eq_false_2.
Qed.

Lemma set_elem_lookup i v (l : list (option value)) j : mjoin (set_elem i v l !! j) = if bool_decide (j = i) then Some v else mjoin (l !! j).
Proof.
  unfold set_elem. destruct (Nat.ltb_spec i (length l)) as [Hi|Hi].
  - case_bool_decide as E; [subst j; by rewrite list_lookup_insert_eq|]. by rewrite list_lookup_insert_ne by done.
  - destruct (decide (j < length l)%nat) as [Hj|Hj].
    { rewrite lookup_app_l by done. by rewrite bool_decide_eq_false_2 by lia. }
    rewrite (lookup_ge_None_2 l) by lia. rewrite lookup_app_r by lia. cbn [mjoin option_join].
    destruct (decide (j < i)%nat) as [Hji|Hji].
    { rewrite lookup_app_l by (rewrite length_replicate; lia). rewrite bool_decide_eq_false_2 by lia.
      destruct (replicate (i - length l) None !! (j - length l)%nat) as [x|] eqn:Ex; [|done]. apply lookup_replicate in Ex as [-> _]. done. }
    rewrite lookup_app_r by (rewrite length_replicate; lia). rewrite length_replicate. case_bool_decide as E.
    + subst j. by rewrite Nat.sub_diag.
    + destruct (j - length l - (i - length l))%nat eqn:En; [lia|done].
Qed.

(** Reading what was written. *)
Lemma get_set_own k v o k' : ordinary (o_class o) = true -> get_own (set_own k v o) k' = if bool_decide (k' = k) then Some v else get_own o k'.
Proof.
  intros Hc. assert (forall o' (k' : key), o_class o' = o_class o ->
    get_own o' k' = match k' with Index i => mjoin (o_elems o' !! i) | Name n => fst <$> assoc n (o_props o') end) as Hget.
  { intros o' [] E; unfold get_own; rewrite E; by destruct (o_class o). }
  rewrite !Hget by (by destruct k). destruct k as [i|n], k' as [j|m]; cbn [set_own o_elems o_props].
  - rewrite set_elem_lookup. by rewrite (bool_decide_ext (j = i) (Index j = Index i)) by (split; congruence).
  - by rewrite bool_decide_eq_false_2.
  - by rewrite bool_decide_eq_false_2.
  - rewrite assoc_set_assoc. by rewrite (bool_decide_ext (m = n) (Name m = Name n)) by (split; congruence).
Qed.

(** The object at [l] has its own property [k]. *)
Lemma getM_own `{Realm} h l o k v : h !! l = Some o -> get_own o k = Some v -> getM (Obj l) k h = (h, Ret v).
Proof.
  intros Ho Hk. unfold getM, look, get. cbn [nullish prop_of]. destruct (length h) as [|n] eqn:En; [apply lookup_lt_Some in Ho; lia|].
  by rewrite (find_prop_own h l n k v o).
Qed.

Lemma putM_object `{Realm} h l o k v : h !! l = Some o -> ordinary (o_class o) = true -> putM (Obj l) k v h = (<[l := set_own k v o]> h, Ret tt).
Proof. intros Ho Hc. unfold putM. rewrite (bind_ran _ _ _ h h) by done. rewrite Ho. by destruct (o_class o). Qed.

(** ** Prototype chains *)
Inductive chain (h : heap) : loc -> list loc -> Prop :=
| chain_last l o : h !! l = Some o -> o_proto o = None -> chain h l [l]
| chain_next l o p ls : h !! l = Some o -> o_proto o = Some p -> chain h p ls -> chain h l (l :: ls).

Lemma chain_fun h l ls ls' : chain h l ls -> chain h l ls' -> ls = ls'.
Proof.
  intros Hc. revert ls'. induction Hc as [l o Hl Hp|l o p ls Hl Hp Hc IH]; intros ls' Hc'; inversion Hc' as [l' o' Hl' Hp'|l' o' p' ls1 Hl' Hp' H1];
    subst; rewrite Hl in Hl'; injection Hl' as <-; try congruence.
  rewrite Hp in Hp'. injection Hp' as <-. f_equal. by apply IH.
Qed.

Lemma chain_suffix h l ls x : chain h l ls -> x ∈ ls -> exists ls', chain h x ls' /\ (length ls' <= length ls)%nat.
Proof.
  induction 1 as [l o Hl Hp|l o p ls Hl Hp Hc IH]; intros Hx; apply elem_of_cons in Hx as [->|Hx].
  - exists [l]. split; [by econstructor|done].
  - by apply elem_of_nil in Hx.
  - exists (l :: ls). split; [by econstructor|done].
  - destruct (IH Hx) as (ls' & H1 & H2). exists ls'. split; [done|cbn; lia].
Qed.

(** A chain that ends has no object twice, so it is no longer than the heap. *)
Lemma chain_nodup h l ls : chain h l ls -> NoDup ls.
Proof.
  induction 1 as [l o Hl Hp|l o p ls Hl Hp Hc IH]; constructor; try done; [apply not_elem_of_nil|constructor|].
  intros Hx. destruct (chain_suffix _ _ _ _ Hc Hx) as (ls' & H1 & H2).
  assert (l :: ls = ls') as <- by (eapply chain_fun; [|done]; by econstructor). cbn in H2. lia.
Qed.

Lemma chain_in_heap h l ls : chain h l ls -> Forall (fun x => (x < length h)%nat) ls.
Proof. induction 1; constructor; try done; try (by eapply lookup_lt_Some). Qed.

Lemma chain_other h h' l ls : (forall x, x ∈ ls -> h' !! x = h !! x) -> chain h l ls -> chain h' l ls.
Proof.
  intros Hx Hc. induction Hc as [l o Hl Hp|l o p ls Hl Hp Hc IH].
  - eapply chain_last; [|done]. by rewrite Hx by left.
  - eapply chain_next; [|done|]; [by rewrite Hx by left|]. apply IH. intros x Hi. apply Hx. by right.
Qed.

(** What is found along a chain. *)
Definition chain_prop (h : heap) (ls : list loc) (k : key) : option value := head (omap (fun l => h !! l ≫= fun o => get_own o k) ls).

Lemma find_prop_chain h l ls n k : chain h l ls -> (length ls <= n)%nat -> find_prop n h l k = chain_prop h ls k.
Proof.
  intros Hc. revert n. induction Hc as [l o Hl Hp|l o p ls Hl Hp Hc IH]; intros [|n] Hn; cbn in Hn; try lia; cbn [find_prop];
    unfold chain_prop; cbn [omap list_omap]; rewrite Hl; cbn; destruct (get_own o k); try done; rewrite Hp; [done|]. rewrite IH by lia. done.
Qed.

Lemma on_chain_chain h l ls n p : chain h l ls -> (length ls <= n)%nat -> on_chain n h l p = bool_decide (p ∈ tail ls).
Proof.
  intros Hc. revert n. induction Hc as [l o Hl Hp|l o q ls Hl Hp Hc IH]; intros [|n] Hn; cbn in Hn; try lia; cbn [on_chain tail]; rewrite Hl; cbn; rewrite Hp.
  - done.
  - rewrite IH by lia. inversion Hc; subst; cbn [tail];
      apply eq_true_iff_eq; rewrite orb_true_iff, !bool_decide_eq_true, elem_of_cons; naive_solver.
Qed.

Lemma for_in_seen h n l seen k : k ∈ seen -> k ∉ for_in n h l seen.
Proof.
  revert l seen. induction n as [|n IH]; intros l seen Hk; cbn [for_in]; [apply not_elem_of_nil|]. destruct (h !! l) as [o|]; [|apply not_elem_of_nil].
  rewrite elem_of_app. intros [Hi|Hi].
  - apply list_elem_of_In, filter_In in Hi as [_ Hi]. by rewrite bool_decide_eq_true_2 in Hi.
  - destruct (o_proto o); [|by apply elem_of_nil in Hi]. revert Hi. apply IH. apply elem_of_app. by left.
Qed.

Lemma chain_short h l ls : chain h l ls -> (length ls <= length h)%nat.
Proof.
  intros Hc. rewrite <- (length_seq (length h) 0). apply submseteq_length, NoDup_submseteq; [by eapply chain_nodup|].
  intros x Hx. pose proof (chain_in_heap h l ls Hc) as Hin. rewrite Forall_forall in Hin. apply elem_of_seq. specialize (Hin x Hx). lia.
Qed.

Lemma chain_prop_other h h' ls k : (forall x, x ∈ ls -> h' !! x = h !! x) -> chain_prop h' ls k = chain_prop h ls k.
Proof.
  intros Hx. unfold chain_prop. f_equal. induction ls as [|l ls IH]; [done|]. cbn [omap list_omap]. rewrite Hx by left.
  rewrite IH; [done|]. intros x Hi. apply Hx. by right.
Qed.

Lemma chain_prop_cons h l ls o k : h !! l = Some o ->
  chain_prop h (l :: ls) k = match get_own o k with Some v => Some v | None => chain_prop h ls k end.
Proof. intros Hl. unfold chain_prop. cbn [omap list_omap]. rewrite Hl. cbn. by destruct (get_own o k). Qed.

Lemma get_chain `{Realm} h l ls k : chain h l ls -> get h (Obj l) k = Ret (default Undefined (chain_prop h ls k)).
Proof. intros Hc. unfold get. cbn [nullish prop_of]. by rewrite (find_prop_chain h l ls) by (done || by eapply chain_short). Qed.

Lemma instance_of_chain `{Realm} h l ls f fo p : chain h l ls -> h !! f = Some fo -> o_class fo = CFunction ->
  get h (Obj f) (prop "prototype") = Ret (Obj p) -> instance_of h (Obj l) (Obj f) = Ret (bool_decide (p ∈ tail ls)).
Proof.
  intros Hc Hf Hfo Hp. unfold instance_of, is_function, typeof. rewrite Hf. cbn [fmap option_fmap option_map]. rewrite Hfo. cbn [negb]. rewrite bool_decide_eq_true_2 by done. cbn [negb].
  rewrite Hp. cbn. by rewrite (on_chain_chain h l ls) by (done || by eapply chain_short).
Qed.

Lemma get_own_ret `{Realm} h l o k v : h !! l = Some o -> get_own o k = Some v -> get h (Obj l) k = Ret v.
Proof. intros Ho Hk. pose proof (getM_own h l o k v Ho Hk) as E. exact (f_equal snd E). Qed.

(** A name that is not there is not a key. *)
Lemma get_own_none o n : ordinary (o_class o) = true -> get_own o (Name n) = None -> n ∉ map fst (o_props o).
Proof.
  intros Hc Hn. assert (fst <$> assoc n (o_props o) = None) as Ha by (revert Hn; unfold get_own; by destruct (o_class o)).
  clear Hn. intros Hi. unfold assoc in Ha. apply list_elem_of_fmap in Hi as ([m w] & -> & Hi). apply list_elem_of_In in Hi.
  destruct (List.find _ (o_props o)) eqn:E; [done|]. pose proof (find_none _ _ E _ Hi) as Hf. cbn in Hf. by rewrite bool_decide_eq_true_2 in Hf.
Qed.

Lemma elem_keys_spec (es : list (option value)) i :
  Index i ∈ omap (fun '(i, v) => match v with Some _ => Some (Index i) | None => None end) (imap pair es) <-> is_Some (mjoin (es !! i)).
Proof.
  rewrite list_elem_of_omap. split.
  - intros ([j [v|]] & Hj & [= ->]). apply list_elem_of_lookup in Hj as (k & Hk). rewrite list_lookup_imap in Hk.
    destruct (es !! k) as [w|] eqn:E; [|done]. cbn in Hk. injection Hk as -> ->. rewrite E. by eexists.
  - intros [v Hv]. destruct (es !! i) as [[w|]|] eqn:E; [|done..]. exists (i, Some w). split; [|done].
    apply list_elem_of_lookup. exists i. by rewrite list_lookup_imap, E.
Qed.

Lemma assoc_spec {A} n (l : list (jsstr * A)) : is_Some (assoc n l) <-> n ∈ map fst l.
Proof.
  unfold assoc. rewrite fmap_is_Some, list_elem_of_fmap. split.
  - intros [p Hp]. apply find_some in Hp as [Hi Hn]. apply bool_decide_eq_true in Hn. exists p. split; [done|by apply list_elem_of_In].
  - intros (p & -> & Hi). destruct (List.find _ l) eqn:E; [by eexists|]. apply list_elem_of_In in Hi.
    pose proof (find_none _ _ E _ Hi) as Hf. cbn in Hf. by rewrite bool_decide_eq_true_2 in Hf.
Qed.

(** The keys of an object are those it has a property of its own for. *)
Lemma all_own_spec o k : k ∈ all_own o <-> is_Some (get_own o k).
Proof.
  unfold all_own, index_keys. rewrite !elem_of_app. destruct k as [i|n]; cbn [get_own].
  - assert (Index i ∈ map (fun p : jsstr * (value * bool) => Name p.1) (o_props o) <-> False) as ->.
    { rewrite list_elem_of_fmap. split; [|done]. by intros (p & [=] & _). }
    rewrite elem_keys_spec. destruct (o_class o); try (rewrite elem_of_nil; tauto); rewrite ?elem_of_nil.
    all: rewrite ?list_elem_of_singleton.
    all: try (split; [by intros [[[]|]|[[=]|[]]]|by auto]).
    unfold char_at. split.
    + intros [[Hi|Hi]|[[=]|[]]].
      * apply list_elem_of_fmap in Hi as (j & [= <-] & Hj). apply list_elem_of_In, in_seq in Hj.
        destruct (lookup_lt_is_Some_2 s i) as [c ->]; [lia|]. by eexists.
      * by destruct (s !! i); [eexists|].
    + intros Hi. destruct (s !! i) eqn:E; [|by left; right]. left. left. apply list_elem_of_fmap. exists i. split; [done|].
      apply list_elem_of_In, in_seq. apply lookup_lt_Some in E. lia.
  - assert (Name n ∈ map (fun p : jsstr * (value * bool) => Name p.1) (o_props o) <-> is_Some (fst <$> assoc n (o_props o))) as ->.
    { rewrite fmap_is_Some, assoc_spec, !list_elem_of_fmap. split; [intros (p & [= ->] & Hp)|intros (p & -> & Hp)]; by exists p. }
    assert (forall es : list (option value), Name n ∉ omap (fun '(i, v) => match v with Some _ => Some (Index i) | None => None end) (imap pair es)) as He.
    { intros es Hi. apply list_elem_of_omap in Hi as ([j [v|]] & _ & [=]). }
    assert (forall m, Name n ∉ map Index (seq 0 m)) as Hs.
    { intros m Hi. apply list_elem_of_fmap in Hi as (j & [=] & _). }
    specialize (He (o_elems o)). unfold prop.
    destruct (o_class o) as [| | | | | | | | |s]; rewrite ?list_elem_of_singleton, ?elem_of_nil; try tauto;
      case_bool_decide as En; try (subst n; split; [by eexists|by auto]); try pose proof (Hs (length s)); clear Hs; naive_solver.
Qed.

Lemma own_keys_own o k : k ∈ own_keys o -> k ∈ all_own o.
Proof.
  unfold own_keys, all_own. rewrite !elem_of_app. intros [Hi|Hi]; [by left|right; right].
  apply list_elem_of_omap in Hi as ([m [w []]] & Hi & [= <-]). apply list_elem_of_fmap. by exists (m, (w, true)).
Qed.

Lemma for_in_next n h l o p seen : h !! l = Some o -> o_proto o = Some p ->
  for_in (S n) h l seen = List.filter (fun k => negb (bool_decide (k ∈ seen))) (own_keys o) ++
    for_in n h p (seen ++ all_own o).
Proof. intros Hl Hp. cbn [for_in]. by rewrite Hl, Hp. Qed.

Lemma for_in_last n h l o seen : h !! l = Some o -> o_proto o = None ->
  for_in (S n) h l seen = List.filter (fun k => negb (bool_decide (k ∈ seen))) (own_keys o).
Proof. intros Hl Hp. cbn [for_in]. by rewrite Hl, Hp, app_nil_r. Qed.
