(* ===== verification/Underscore.v ===== *)
(** * Underscore: callbacks and objects

    Module 25 of docs/generated_site/assets/javascripts/lunr/wordcut.js, its baseline
    and the functions on objects.  A callback is a value of the client or a function
    of underscore's own ([iteratee]).  An array that only the running function holds
    is a list until it is returned; the other objects are on the heap. *)
From stdpp Require Import list.
From S2P Require Import Prelude JsString JsArray JsState JsObject.

(** ** Kinds of values *)
Section kinds.
Context `{Realm}.

Definition isArray (h : heap) (v : value) : bool := bool_decide (class_of h v = Some CArray).
Definition isObject (h : heap) (v : value) : bool :=
  let type := typeof h v in
  bool_decide (type = "function"%string) || bool_decide (type = "object"%string) && truthy v.

(** [isArguments], [isFunction], [isString], [isNumber], [isDate], [isRegExp], [isError] *)
Definition is_named (name : string) (h : heap) (v : value) : bool := bool_decide (class_name h v = name).
Definition isArguments := is_named "Arguments".
Definition isString := is_named "String".
Definition isNumber := is_named "Number".
Definition isFunction (h : heap) (v : value) : bool := is_function h v.

Definition isNull (v : value) : bool := bool_decide (v = Null).
Definition isUndefined (v : value) : bool := bool_decide (v = Undefined).
Definition isBoolean (h : heap) (v : value) : bool :=
  bool_decide (v = Bool true) || bool_decide (v = Bool false) || is_named "Boolean" h v.

Definition isElement (h : heap) (v : value) : outcome bool :=
  if negb (truthy v) then Ret false else
  n ← get h v (prop "nodeType");
  Ret (strict_eq n (Num (Int 1))).

(** [_.has] *)
Definition has (h : heap) (v : value) (k : key) : outcome bool := if nullish v then Ret false else own_prop h v k.

(** *** Lengths *)
Definition property (h : heap) (k : key) (v : value) : value := if nullish v then Undefined else default Undefined (prop_of h v k).
Definition getLength (h : heap) (v : value) : value := property h (prop "length") v.

Definition MAX_ARRAY_INDEX : Z := 2 ^ 53 - 1.

(** The length of an array-like value: [isArrayLike]. *)
Definition array_length (h : heap) (v : value) : option Z :=
  match getLength h v with
  | Num (Int z) => if (0 <=? z) && (z <=? MAX_ARRAY_INDEX) then Some z else None
  | Num MinusZero => Some 0
  | _ => None
  end.
Definition isArrayLike (h : heap) (v : value) : bool := bool_decide (is_Some (array_length h v)).

(** The key that an index is. *)
Definition key_of_Z (i : Z) : key := if (0 <=? i) && (i <? 2 ^ 32 - 1) then Index (Z.to_nat i) else Name (dec i).

(** The values [v[0]] to [v[n - 1]]. *)
Definition elements (h : heap) (v : value) (n : Z) : list value := map (fun i => property h (key_of_Z i) v) (seqZ 0 n).

(** [_.isEmpty] *)
Definition keys (h : heap) (v : value) : list key :=
  match v with Obj l => match h !! l with Some o => own_keys o | None => [] end | _ => [] end.

Definition isEmpty (h : heap) (v : value) : bool :=
  if nullish v then true else
  match array_length h v with
  | Some n => if isArray h v || isString h v || isArguments h v then n =? 0 else bool_decide (keys h v = [])
  | None => bool_decide (keys h v = [])
  end.

(** [_.allKeys], and the keys of [for (var key in v)] for any value *)
Definition allKeys (h : heap) (v : value) : list key :=
  match v with Obj l => for_in (length h) h l [] | _ => [] end.

Definition in_keys (h : heap) (v : value) : list key :=
  match v with
  | Undefined | Null => []
  | Bool _ => for_in (length h) h boolean_proto []
  | Num _ => for_in (length h) h number_proto []
  | Str s => let mine := map Index (seq 0 (length s)) in mine ++ for_in (length h) h string_proto (mine ++ [prop "length"])
  | Obj l => for_in (length h) h l []
  end.

Definition values (h : heap) (v : value) : list value := map (fun k => property h k v) (keys h v).

Definition size (h : heap) (v : value) : Z :=
  if nullish v then 0 else match array_length h v with Some n => n | None => js_len (keys h v) end.

(** [_.isMatch] *)
Definition isMatch (h : heap) (object attrs : value) : bool :=
  let ks := keys h attrs in
  if nullish object then bool_decide (ks = []) else
  forallb (fun k => strict_eq (property h k attrs) (property h k object) && bool_decide (is_Some (prop_of h object k))) ks.

(** [_.functions] *)
Definition functions (h : heap) (v : value) : list jsstr :=
  sort_by (fun a b => if str_ltb a b then -1 else 1)
    (map key_text (List.filter (fun k => isFunction h (property h k v)) (in_keys h v))).

(** [_.flatten]'s worker: the values of the arrays, of which [vs] are the outermost. *)
Fixpoint flatten (fuel : nat) (h : heap) (shallow strict : bool) (vs : list value) : outcome (list value) :=
  match fuel with
  | O => OutOfFuel
  | S fuel =>
      foldM (fun out v =>
        match array_length h v with
        | Some n =>
            if isArray h v || isArguments h v then
              inner ← (if shallow then Ret (elements h v n) else flatten fuel h shallow strict (elements h v n));
              Ret (out ++ inner)
            else Ret (if strict then out else out ++ [v])
        | None => Ret (if strict then out else out ++ [v])
        end) [] vs
  end.
End kinds.

(** ** Callbacks *)
Inductive iteratee : Type := IVal (v : value) | IFun (f : js_fun).

Definition arg (args : list value) (i : nat) : value := default Undefined (args !! i).

(** The first [n] arguments; [None] is Infinity. *)
Definition pass (n : option nat) (args : list value) : list value :=
  match n with Some n => map (arg args) (seq 0 n) | None => args end.

(** [optimizeCb(func, context, argCount)] *)
Definition optimizeCb (func : js_fun) (context : value) (argCount : option nat) : js_fun :=
  match context with Undefined => func | _ => fun _ args => func context (pass argCount args) end.

Section objects.
Context `{Realm} `{Client}.

Definition identity : js_fun := fun _ args => mret (arg args 0).

Definition fun_of (it : iteratee) : js_fun := match it with IVal v => callM v | IFun f => f end.

(** [keysFunc] of an assigner *)
Definition createAssigner (keysFunc : heap -> value -> list key) (undefinedOnly : bool) (obj : value) (sources : list value)
    : stM heap value :=
  match sources with
  | [] => mret obj
  | _ =>
      if nullish obj then mret obj else
      iterM (fun source =>
        h ← get_st;
        iterM (fun k =>
          old ← getM obj k;
          if negb undefinedOnly || bool_decide (old = Undefined)
          then v ← getM source k; putM obj k v
          else mret tt) (keysFunc h source)) sources ;;
      mret obj
  end.
Definition extend := createAssigner allKeys false.
Definition extendOwn := createAssigner keys false.
Definition defaults := createAssigner allKeys true.

Definition matcher (attrs : value) : stM heap js_fun :=
  o ← new_object;
  attrs ← extendOwn o [attrs];
  mret (fun _ args h => (h, Ret (Bool (isMatch h (arg args 0) attrs)))).

(** [_.property(key)], as a function *)
Definition property_of (k : value) : js_fun := fun _ args =>
  let obj := arg args 0 in
  if nullish obj then mret Undefined else k ← to_key k; getM obj k.

(** [cb(value, context, argCount)] *)
Definition cb (it : iteratee) (context : value) (argCount : option nat) : stM heap js_fun :=
  match it with
  | IFun f => mret (optimizeCb f context argCount)
  | IVal v =>
      h ← get_st;
      if nullish v then mret identity else
      if isFunction h v then mret (optimizeCb (callM v) context argCount) else
      if isObject h v then matcher v else mret (property_of v)
  end.

Lemma cb_function (h : heap) (g : loc) n : is_function h (Obj g) = true -> cb (IVal (Obj g)) Undefined n h = (h, Ret (callM (Obj g))).
Proof. intros Hg. unfold cb. rewrite (bind_ran _ _ _ h h) by done. cbn [nullish]. unfold isFunction. by rewrite Hg. Qed.

Lemma callM_function (h : heap) (g : loc) this args : is_function h (Obj g) = true -> callM (Obj g) this args h = apply g this args h.
Proof. intros Hg. unfold callM. rewrite (bind_ran _ _ _ h h) by done. by rewrite Hg. Qed.

(** [baseCreate(prototype)]; [_.create] *)
Definition baseCreate (prototype : value) : stM heap value :=
  match prototype with
  | Obj p => alloc (Object CObject (Some p) [] [])
  | _ => new_object
  end.

Definition create (prototype props : value) : stM heap value :=
  result ← baseCreate prototype;
  if truthy props then extendOwn result [props] else mret result.

(** [_.clone] *)
Definition clone (obj : value) : stM heap value :=
  h ← get_st;
  match obj with
  | Obj l =>
      if isArray h obj then
        match h !! l with
        | Some o => alloc (Object CArray (Some array_proto) (o_elems o) [])
        | None => mret obj
        end
      else o ← new_object; extend o [obj]
  | _ => mret obj
  end.

Definition tap (obj : value) (interceptor : value) : stM heap value := callM interceptor Undefined [obj] ;; mret obj.

(** *** Walking an object *)
Definition mapObject (obj : value) (it : iteratee) (context : value) : stM heap value :=
  f ← cb it context (Some 3%nat);
  h ← get_st;
  results ← new_object;
  iterM (fun k => v ← getM obj k; r ← f Undefined [v; Str (key_text k); obj]; putM results k r) (keys h obj) ;;
  mret results.

Definition pairs (obj : value) : stM heap value :=
  h ← get_st;
  ps ← mapS (fun k => v ← getM obj k; new_array [Str (key_text k); v]) (keys h obj);
  new_array ps.

Definition invert (obj : value) : stM heap value :=
  result ← new_object;
  h ← get_st;
  iterM (fun k => v ← getM obj k; k' ← to_key v; putM result k' (Str (key_text k))) (keys h obj) ;;
  mret result.

Fixpoint findKey_loop (f : js_fun) (obj : value) (ks : list key) : stM heap value :=
  match ks with
  | [] => mret Undefined
  | k :: ks =>
      v ← getM obj k;
      r ← f Undefined [v; Str (key_text k); obj];
      if truthy r then mret (Str (key_text k)) else findKey_loop f obj ks
  end.

Definition findKey (obj : value) (it : iteratee) (context : value) : stM heap value :=
  f ← cb it context (Some 3%nat);
  h ← get_st;
  findKey_loop f obj (keys h obj).

(** The loop of [_.pick]. *)
Definition pick_loop (f : js_fun) (obj result : value) (ks : list (key * value)) : stM heap value :=
  iterM (fun '(k, kv) =>
    v ← getM obj k;
    r ← f Undefined [v; kv; obj];
    if truthy r then putM result k v else mret tt) ks ;;
  mret result.

Definition with_text (k : key) : key * value := (k, Str (key_text k)).

(** [_.pick(object, ...)] with a function, or with names and arrays of names *)
Definition pick (fuel : nat) (obj : value) (oiteratee : iteratee) (rest : list value) : stM heap value :=
  result ← new_object;
  if nullish obj then mret result else
  h ← get_st;
  match oiteratee with
  | IFun f => pick_loop (optimizeCb f (arg rest 0) (Some 3%nat)) obj result (map with_text (allKeys h obj))
  | IVal v =>
      if isFunction h v
      then pick_loop (optimizeCb (callM v) (arg rest 0) (Some 3%nat)) obj result (map with_text (allKeys h obj))
      else
        names ← look (fun h => flatten fuel h false false (v :: rest));
        ks ← mapS (fun n => k ← to_key n; mret (k, n)) names;
        pick_loop (fun _ args => k ← to_key (arg args 1); h ← get_st; mret (Bool (bool_decide (is_Some (prop_of h obj k)))))
          obj result ks
  end.

Definition negate (predicate : js_fun) : js_fun := fun this args => r ← predicate this args; mret (Bool (negb (truthy r))).

(** [_.omit] *)
Definition omit (fuel : nat) (obj : value) (oiteratee : value) (rest : list value) : stM heap value :=
  h ← get_st;
  if isFunction h oiteratee then pick fuel obj (IFun (negate (callM oiteratee))) rest
  else
    names ← look (fun h => flatten fuel h false false (oiteratee :: rest));
    texts ← mapS to_text names;
    pick fuel obj (IFun (fun _ args => mret (Bool (negb (bool_decide (arg args 1 ∈ map Str texts)))))) rest.

(** [_.result] *)
Definition result (object : value) (k : key) (fallback : value) : stM heap value :=
  h ← get_st;
  let v := property h k object in
  let v := if isUndefined v then fallback else v in
  if isFunction h v then callM v object [] else mret v.
End objects.

(** ** Objects for the examples *)

(** The first objects: the prototypes of objects and arrays, and their constructors. *)
Definition demo_realm : Realm :=
  {| object_proto := 0; array_proto := 1; function_proto := 2; string_proto := 0; number_proto := 0; boolean_proto := 0;
     error_proto := 0; underscore_proto := 5 |}.

Definition hidden (n : string) (v : value) : jsstr * (value * bool) := (js n, (v, false)).
Definition shown (n : string) (v : value) : jsstr * (value * bool) := (js n, (v, true)).

Definition demo_base : heap :=
  [Object CObject None [] [hidden "constructor" (Obj 3)];
   Object CArray (Some 0%nat) [] [hidden "constructor" (Obj 4)];
   Object CFunction (Some 0%nat) [] [];
   Object CFunction (Some 2%nat) [] [hidden "prototype" (Obj 0)];
   Object CFunction (Some 2%nat) [] [hidden "prototype" (Obj 1)];
   Object CObject (Some 0%nat) [] []].

Definition an_object (ps : list (jsstr * (value * bool))) : object := Object CObject (Some 0%nat) [] ps.
Definition an_array (vs : list value) : object := Object CArray (Some 1%nat) (map Some vs) [].

(** A client whose functions divide their first argument by ten. *)
Definition demo_client : Client :=
  {| apply := fun _ _ args => match arg args 0 with Num (Int z) => mret (Num (Int (z / 10))) | _ => mret (Num NaN) end;
     to_primitive := fun _ => mret Undefined;
     numeral := fun _ => NaN |}.
