(* ===== verification/UnderscoreEqual.v ===== *)
(** * Underscore: deep equality

    [_.isEqual] of module 25 of
    docs/generated_site/assets/javascripts/lunr/wordcut.js.  It ends on every heap,
    whatever cycles there are.  On plain data, arrays and objects of properties, a
    positive answer means that the two values look alike along every path of keys
    ([same_data]), and on data without cycles it means exactly that; on cyclic data the
    answer may be negative though no path tells the values apart. *)
From stdpp Require Import list.
From S2P Require Import Prelude JsString JsArray JsState JsObject Underscore.

(** Whether all of them pass, from the first on; stops at the first that does not. *)
Fixpoint allM {A} (f : A -> outcome bool) (l : list A) : outcome bool :=
  match l with
  | [] => Ret true
  | x :: l => r ← f x; if (r : bool) then allM f l else Ret false
  end.

Section equal.
Context `{Realm}.

(** [v instanceof _] *)
Definition is_wrapper (h : heap) (v : value) : bool :=
  match v with Obj l => on_chain (length h) h l underscore_proto | _ => false end.

Definition unwrap (h : heap) (v : value) : value := if is_wrapper h v then property h (prop "_wrapped") v else v.

(** What built-in conversions make of primitives and their wrappers, of dates and of
    regular expressions. *)
Definition text_content (h : heap) (v : value) : jsstr :=
  match v, class_of h v with
  | Str s, _ | _, Some (CString s) => s
  | _, Some (CRegExp t) => t
  | _, _ => []
  end.

Definition number_content (h : heap) (v : value) : number :=
  match v, class_of h v with
  | Num n, _ | _, Some (CNumber n) => n
  | Bool b, _ | _, Some (CBoolean b) => Int (if b then 1 else 0)
  | _, Some (CDate t) => t
  | _, _ => NaN
  end.

(** [f instanceof f] for a function *)
Definition self_instance (h : heap) (f : value) : outcome bool := if isFunction h f then instance_of h f f else Ret false.

Definition same_constructor (h : heap) (a b : value) : outcome bool :=
  aCtor ← get h a (prop "constructor");
  bCtor ← get h b (prop "constructor");
  if strict_eq aCtor bCtor then Ret true else
  x ← self_instance h aCtor;
  y ← (if (x : bool) then self_instance h bCtor else Ret false);
  if (y : bool) then Ret true else
  p ← has_prop h a (prop "constructor");
  q ← (if (p : bool) then has_prop h b (prop "constructor") else Ret false);
  Ret (negb (q : bool)).

(** [eq]; the two stacks are one list of pairs, the innermost first.  A negative answer
    ends the comparison, so nothing is popped then. *)
Fixpoint eq (fuel : nat) (h : heap) (a b : value) (stack : list (loc * loc)) : outcome bool :=
  match fuel with
  | O => OutOfFuel
  | S fuel =>
      if strict_eq a b then Ret (match a with Num (Int 0) | Num MinusZero => bool_decide (a = b) | _ => true end) else
      if nullish a || nullish b then Ret false else
      let a := unwrap h a in
      let b := unwrap h b in
      let className := class_name h a in
      if negb (bool_decide (className = class_name h b)) then Ret false else
      if bool_decide (className ∈ ["RegExp"; "String"]%string) then Ret (bool_decide (text_content h a = text_content h b)) else
      if bool_decide (className = "Number"%string) then
        Ret (match number_content h a, number_content h b with
             | NaN, y => bool_decide (y = NaN)
             | Int 0, y => bool_decide (y = Int 0)
             | MinusZero, y => bool_decide (y = MinusZero)
             | x, y => num_eq x y
             end) else
      if bool_decide (className ∈ ["Date"; "Boolean"]%string) then Ret (num_eq (number_content h a) (number_content h b)) else
      let areArrays := bool_decide (className = "Array"%string) in
      ok ← (if areArrays then Ret true else
            if negb (bool_decide (typeof h a = "object"%string)) || negb (bool_decide (typeof h b = "object"%string)) then Ret false
            else same_constructor h a b);
      if negb (ok : bool) then Ret false else
      match a, b with
      | Obj la, Obj lb =>
          match List.find (fun p => bool_decide (p.1 = la)) stack with
          | Some (_, x) => Ret (bool_decide (x = lb))
          | None =>
              let deep k := eq fuel h (property h k a) (property h k b) ((la, lb) :: stack) in
              if areArrays then
                match h !! la, h !! lb with
                | Some oa, Some ob =>
                    let length := length (o_elems oa) in
                    if negb (length =? List.length (o_elems ob))%nat then Ret false
                    else allM deep (reverse (map Index (seq 0 length)))
                | _, _ => Ret false
                end
              else
                let ks := keys h a in
                if negb (List.length (keys h b) =? List.length ks)%nat then Ret false
                else allM (fun k => r ← has h b k; if (r : bool) then deep k else Ret false) (reverse ks)
          end
      | _, _ => Ret false
      end
  end.

Definition isEqual (fuel : nat) (h : heap) (a b : value) : outcome bool := eq fuel h a b [].

(** ** It ends *)
Definition ends {A} (m : outcome A) : Prop := m <> OutOfFuel.

Lemma ends_bind {A B} (m : outcome A) (f : A -> outcome B) : ends m -> (forall a, m = Ret a -> ends (f a)) -> ends (m ≫= f).
Proof. unfold ends. destruct m as [a|e|]; cbn; [intros _ Hf; by apply Hf|done|done]. Qed.

Lemma allM_ends {A} (f : A -> outcome bool) l : (forall x, x ∈ l -> ends (f x)) -> ends (allM f l).
Proof.
  induction l as [|x l IH]; intros Hf; cbn [allM]; [done|]. apply ends_bind; [apply Hf; by left|].
  intros [] _; [apply IH; intros y Hy; apply Hf; by right|done].
Qed.

Lemma get_ends h v k : ends (get h v k).
Proof. unfold get. by case_match. Qed.

Lemma has_prop_ends h v k : ends (has_prop h v k).
Proof. unfold has_prop. by case_match. Qed.

Lemma instance_ends h v f : ends (instance_of h v f).
Proof.
  unfold instance_of. case_match; [done|]. case_match; try done. apply ends_bind; [apply get_ends|]. intros p _. by case_match.
Qed.

Lemma constructor_ends h a b : ends (same_constructor h a b).
Proof.
  unfold same_constructor, self_instance.
  repeat first [ apply ends_bind | apply get_ends | apply has_prop_ends | apply instance_ends | case_match | progress intros | done ].
Qed.

Lemma has_ends h v k : ends (has h v k).
Proof. unfold has, own_prop. by repeat case_match. Qed.

(** The objects of the stack are different objects of the heap. *)
Definition stack_ok (h : heap) (stack : list (loc * loc)) : Prop :=
  NoDup (map fst stack) /\ Forall (fun l => l < length h)%nat (map fst stack).

Lemma stack_short h stack : stack_ok h stack -> (length stack <= length h)%nat.
Proof.
  intros [Hnd Hin]. rewrite <- (length_map fst), <- (length_seq (length h) 0). apply submseteq_length, NoDup_submseteq; [done|].
  intros l Hl. rewrite Forall_forall in Hin. apply elem_of_seq. specialize (Hin l Hl). lia.
Qed.

Lemma find_none (stack : list (loc * loc)) l : List.find (fun p => bool_decide (p.1 = l)) stack = None -> l ∉ map fst stack.
Proof.
  intros Hf Hi. apply list_elem_of_fmap in Hi as ([x y] & -> & Hi). apply list_elem_of_In in Hi.
  pose proof (find_none _ _ Hf _ Hi) as Hn. cbn in Hn. by rewrite bool_decide_true in Hn.
Qed.

Lemma stack_push h stack la lb o : stack_ok h stack -> h !! la = Some o ->
  List.find (fun p => bool_decide (p.1 = la)) stack = None -> stack_ok h ((la, lb) :: stack).
Proof.
  intros [Hnd Hin] Ho Hf. split; cbn [map fst]; constructor; [by apply find_none|done|by eapply lookup_lt_Some|done].
Qed.

Lemma eq_ends fuel h a b stack : stack_ok h stack -> (length h - length stack < fuel)%nat -> ends (eq fuel h a b stack).
Proof.
  revert a b stack. induction fuel as [|fuel IH]; intros a b stack Hst Hf; [lia|]. cbn [eq].
  do 6 (case_match; [done|]). apply ends_bind.
  { repeat case_match; try done. apply constructor_ends. }
  intros [] _; [cbn [negb]|done]. generalize (unwrap h a) as a', (unwrap h b) as b'. intros a' b'.
  destruct a' as [| | | | |la], b' as [| | | | |lb]; try done.
  destruct (List.find _ stack) as [[x y]|] eqn:Ef; [done|].
  assert (forall o k, h !! la = Some o -> ends (eq fuel h (property h k (Obj la)) (property h k (Obj lb)) ((la, lb) :: stack))) as Hdeep.
  { intros o k Ho. pose proof (stack_push h stack la lb o Hst Ho Ef) as Hp. apply IH; [done|]. pose proof (stack_short _ _ Hp). cbn in *. lia. }
  case_match.
  - destruct (h !! la) as [oa|] eqn:Eo; [|done]. destruct (h !! lb); [|done]. case_match; [done|].
    apply allM_ends. intros k _. by eapply Hdeep.
  - case_match; [done|]. apply allM_ends. intros k Hk. apply ends_bind; [apply has_ends|]. intros [] _; [|done].
    unfold keys in Hk. destruct (h !! la) as [oa|] eqn:Eo; [by eapply Hdeep|]. by apply elem_of_reverse, elem_of_nil in Hk.
Qed.
End equal.

(** Comparing two values always ends: there is a bound for the depth, the number of
    objects, for every heap, cyclic or not, and every pair of values. *)
Theorem isEqual_terminates (R : Realm) (h : heap) (a b : value) : isEqual (length h + 1) h a b <> OutOfFuel.
Proof. apply eq_ends; [split; constructor|]. cbn. lia. Qed.

(** ** Plain data

    The objects of [D] are arrays and objects of enumerable properties, made by the
    same constructor [c], and hold primitives or each other. *)
Record data `{Realm} (h : heap) (c : value) (D : loc -> Prop) : Prop := {
  dt_object l : D l -> exists o, h !! l = Some o /\ NoDup (map fst (o_props o)) /\ Forall (fun p => p.2.2 = true) (o_props o) /\
    (o_class o = CArray \/ (o_class o = CObject /\ get h (Obj l) (prop "constructor") = Ret c));
  dt_plain l : D l -> is_wrapper h (Obj l) = false }.

Section looks.
Context `{Realm} (h : heap).

(** What is found under a key. *)
Definition child (v : value) (k : key) : option value :=
  match v with
  | Obj l =>
      match h !! l with
      | Some o =>
          match o_class o, k with
          | CArray, Index i => if (i <? length (o_elems o))%nat then Some (property h k v) else None
          | CArray, Name _ => None
          | _, _ => if bool_decide (k ∈ own_keys o) then Some (property h k v) else None
          end
      | None => None
      end
  | _ => None
  end.

Fixpoint walk (v : value) (path : list key) : option value :=
  match path with
  | [] => Some v
  | k :: path => match child v k with Some w => walk w path | None => None end
  end.

(** The same primitive, or objects of the same class. *)
Definition alike (v w : value) : Prop :=
  match v, w with Obj l, Obj m => class_of h v = class_of h w | _, _ => v = w end.

(** Nothing tells the two apart along any path. *)
Definition same_data (v w : value) : Prop := forall path,
  match walk v path, walk w path with
  | Some x, Some y => alike x y
  | None, None => True
  | _, _ => False
  end.

(** All that is stored in an object of the set is a primitive or in the set. *)
Definition closed_data (D : loc -> Prop) : Prop := forall l k m, D l -> child (Obj l) k = Some (Obj m) -> D m.

(** No object contains itself. *)
Definition acyclic (D : loc -> Prop) : Prop := exists rank : loc -> nat,
  forall l k m, D l -> child (Obj l) k = Some (Obj m) -> (rank m < rank l)%nat.
End looks.

Definition in_data (D : loc -> Prop) (v : value) : Prop := match v with Obj l => D l | _ => True end.

Section plain.
Context `{Realm} (h : heap) (c : value) (D : loc -> Prop) (Hdata : data h c D) (Hclosed : closed_data h D) (Hc : c <> Num NaN).

Lemma data_child v k w : in_data D v -> child h v k = Some w -> in_data D w.
Proof. destruct v as [| | | | |l]; try done. destruct w; try done. cbn [in_data]. apply Hclosed. Qed.

Lemma same_child v w k : same_data h v w -> 
  match child h v k, child h w k with
  | Some x, Some y => same_data h x y
  | None, None => True
  | _, _ => False
  end.
Proof.
  intros Hs. pose proof (Hs [k]) as H1. cbn [walk] in H1.
  destruct (child h v k) as [x|] eqn:Ex, (child h w k) as [y|] eqn:Ey; try done.
  intros path. pose proof (Hs (k :: path)) as Hp. cbn [walk] in Hp. by rewrite Ex, Ey in Hp.
Qed.

(** *** Relations closed under looking deeper *)
Definition related (S : list (loc * loc)) (v w : value) : Prop :=
  match v, w with Obj l, Obj m => l = m \/ (l, m) ∈ S | _, _ => v = w end.

Definition steps (S : list (loc * loc)) (p : loc * loc) : Prop :=
  class_of h (Obj p.1) = class_of h (Obj p.2) /\
  forall k, match child h (Obj p.1) k, child h (Obj p.2) k with
            | Some x, Some y => related S x y
            | None, None => True
            | _, _ => False
            end.

Lemma related_mono S S' v w : S ⊆ S' -> related S v w -> related S' v w.
Proof. intros HS. unfold related. destruct v, w; try done. intros [?|?]; [by left|right; by apply HS]. Qed.

Lemma steps_mono S S' p : S ⊆ S' -> steps S p -> steps S' p.
Proof.
  intros HS [H1 H2]. split; [done|]. intros k. specialize (H2 k). destruct (child h (Obj p.1) k), (child h (Obj p.2) k); try done.
  by eapply related_mono.
Qed.

Lemma related_same S v w : (forall p, p ∈ S -> steps S p) -> related S v w -> same_data h v w.
Proof.
  intros HS Hvw path. revert v w Hvw. induction path as [|k path IH]; intros v w Hvw; cbn [walk].
  - unfold related in Hvw. unfold alike. destruct v as [| | | | |l], w as [| | | | |m]; try done. destruct Hvw as [->|Hi]; [done|].
    apply (HS _ Hi).
  - assert (match child h v k, child h w k with Some x, Some y => related S x y | None, None => True | _, _ => False end) as Hk.
    { unfold related in Hvw. destruct v as [| | | | |l], w as [| | | | |m]; try done. destruct Hvw as [->|Hi].
      - destruct (child h (Obj m) k) as [x|]; [|done]. unfold related. destruct x; try done. by left.
      - apply (HS _ Hi). }
    destruct (child h v k) as [x|], (child h w k) as [y|]; try done. by apply IH.
Qed.
End plain.

(** ** Comparing plain data *)
Definition kids (o : object) : list key :=
  match o_class o with CArray => map Index (seq 0 (length (o_elems o))) | _ => own_keys o end.

Definition tidy (o : object) : Prop := NoDup (map fst (o_props o)) /\ Forall (fun p => p.2.2 = true) (o_props o) /\
  (o_class o = CArray \/ o_class o = CObject).

Lemma enum_names ps : Forall (fun p : jsstr * (value * bool) => p.2.2 = true) ps ->
  omap (fun '(n, (_, e)) => if (e : bool) then Some (Name n) else None) ps = map (fun p => Name p.1) ps.
Proof. induction 1 as [|[n [w e]] ps He Hps IH]; [done|]. cbn in *. by rewrite He, IH. Qed.

Definition elem_keys (i : nat) (es : list (option value)) : list key :=
  omap (fun '(j, v) => match v with Some _ => Some (Index j) | None => None end) (imap (fun j v => ((i + j)%nat, v)) es).

Lemma elem_keys_in i es k : k ∈ elem_keys i es <-> exists j v, k = Index (i + j) /\ es !! j = Some (Some v).
Proof.
  unfold elem_keys. rewrite list_elem_of_omap. split.
  - intros ([j' v] & Hi & Hk). apply elem_of_lookup_imap in Hi as (j & v' & [= -> ->] & Hl). destruct v' as [v'|]; [|done].
    injection Hk as <-. by exists j, v'.
  - intros (j & v & -> & Hl). exists ((i + j)%nat, Some v). split; [|done]. apply elem_of_lookup_imap. by exists j, (Some v).
Qed.

Lemma elem_keys_nodup i es : NoDup (elem_keys i es).
Proof.
  revert i. induction es as [|v es IH]; intros i; [constructor|].
  assert (elem_keys i (v :: es) = (match v with Some _ => [Index i] | None => [] end) ++ elem_keys (S i) es) as ->.
  { unfold elem_keys. cbn [imap]. cbn. rewrite Nat.add_0_r.
    assert (imap ((fun j v => ((i + j)%nat, v)) ∘ S) es = imap (fun j v => ((S i + j)%nat, v)) es) as ->
      by (apply imap_ext; intros; cbn; f_equal; lia).
    by destruct v. }
  destruct v as [v|]; [|apply IH]. constructor; [|apply IH]. intros (j & w & [= Hj] & _)%elem_keys_in. lia.
Qed.

Lemma own_keys_object o : o_class o = CObject -> Forall (fun p => p.2.2 = true) (o_props o) ->
  own_keys o = elem_keys 0 (o_elems o) ++ map (fun p => Name p.1) (o_props o).
Proof. intros Hc He. unfold own_keys, index_keys. by rewrite Hc, enum_names. Qed.

Lemma kids_nodup o : tidy o -> NoDup (kids o).
Proof.
  intros (Hnd & He & [Hc|Hc]); unfold kids; rewrite Hc.
  - apply NoDup_fmap_2; [by intros ? ? [= ->]|apply NoDup_seq].
  - rewrite own_keys_object by done. apply NoDup_app. split_and!; [apply elem_keys_nodup| |].
    + intros k (j & v & -> & _)%elem_keys_in (p & [=] & _)%list_elem_of_fmap.
    + rewrite <- (map_map fst Name). apply NoDup_fmap_2; [by intros ? ? [= ->]|done].
Qed.

Lemma assoc_some {A} s (l : list (jsstr * A)) : is_Some (assoc s l) <-> s ∈ map fst l.
Proof.
  unfold assoc. rewrite fmap_is_Some. induction l as [|[n a] l IH]; cbn.
  - split; [by intros []|by intros ?%elem_of_nil].
  - rewrite elem_of_cons, <- IH. case_bool_decide as E; [split; [by left|by eexists]|]. split; [by right|]. by intros [?|?].
Qed.

Lemma has_own o k : tidy o -> o_class o = CObject -> is_Some (get_own o k) <-> k ∈ own_keys o.
Proof.
  intros (Hnd & He & _) Hc. rewrite own_keys_object, elem_of_app, elem_keys_in by done. unfold get_own. rewrite Hc.
  destruct k as [i|n].
  - split.
    + intros [v Hv]. left. exists i, v. split; [done|]. by destruct (o_elems o !! i) as [[w|]|]; cbn in Hv; simplify_eq.
    + intros [(j & v & [= ->] & Hl)|(p & [=] & _)%list_elem_of_fmap]. cbn. rewrite Hl. by eexists.
  - rewrite fmap_is_Some, assoc_some, list_elem_of_fmap. split.
    + intros (p & -> & Hp). right. apply list_elem_of_fmap. by exists p.
    + intros [(j & v & [=] & _)|(p & [= ->] & Hp)%list_elem_of_fmap]. by exists p.
Qed.

Section compare.
Context `{Realm} (h : heap) (c : value) (D : loc -> Prop) (Hdata : data h c D) (Hclosed : closed_data h D) (Hc : c <> Num NaN).

Lemma data_tidy l : D l -> exists o, h !! l = Some o /\ tidy o /\ (o_class o = CObject -> get h (Obj l) (prop "constructor") = Ret c).
Proof.
  intros Hl. destruct (dt_object _ _ _ Hdata l Hl) as (o & Ho & Hn & He & Hk). exists o. split; [done|].
  split; [split_and!; [done|done|tauto]|]. intros Ho'. destruct Hk as [Hk|[_ Hk]]; [congruence|done].
Qed.

Lemma child_kids l o k : h !! l = Some o -> tidy o ->
  child h (Obj l) k = if bool_decide (k ∈ kids o) then Some (property h k (Obj l)) else None.
Proof.
  intros Ho (_ & _ & Hk). unfold child, kids. rewrite Ho. destruct Hk as [->| ->]; [|done].
  destruct k as [i|n].
  - destruct (Nat.ltb_spec i (length (o_elems o))) as [Hi|Hi].
    + rewrite bool_decide_true; [done|]. apply list_elem_of_fmap. exists i. split; [done|]. apply elem_of_seq. lia.
    + rewrite bool_decide_false; [done|]. intros (j & [= ->] & Hj%elem_of_seq)%list_elem_of_fmap. lia.
  - rewrite bool_decide_false; [done|]. by intros (j & [=] & _)%list_elem_of_fmap.
Qed.

(** A primitive equals itself only; zeros are told apart, NaN equals NaN. *)
Lemma eq_prim n a b st : in_data D a -> in_data D b -> is_object a && is_object b = false ->
  eq (S n) h a b st = Ret (bool_decide (a = b)).
Proof.
  intros Ha Hb Hp. cbn [eq]. destruct (strict_eq a b) eqn:Es.
  - apply strict_eq_spec in Es as [[-> Hn]|[[-> ->]|[-> ->]]]; [|done|done].
    rewrite bool_decide_true by done. by repeat case_match.
  - assert (a = b -> a = Num NaN) as Hnan.
    { intros ->. destruct (decide (b = Num NaN)) as [|Hn]; [done|]. assert (strict_eq b b = true) by (apply strict_eq_spec; by left). congruence. }
    destruct (nullish a || nullish b) eqn:En.
    { rewrite bool_decide_false; [done|]. intros E. pose proof (Hnan E). by subst. }
    assert (forall v, in_data D v -> unwrap h v = v) as Hu.
    { intros [| | | | |l] Hv; try done. unfold unwrap. by rewrite (dt_plain _ _ _ Hdata l Hv). }
    rewrite (Hu a Ha), (Hu b Hb). clear Hu.
    assert (forall l, in_data D (Obj l) -> class_name h (Obj l) = "Array"%string \/ class_name h (Obj l) = "Object"%string) as Hn.
    { intros l Hl. destruct (data_tidy l Hl) as (o & Ho & (_ & _ & [Hk|Hk]) & _); cbn; rewrite Ho; cbn; rewrite Hk; [by left|by right]. }
    destruct (bool_decide (class_name h a = class_name h b)) eqn:Ec; cbn [negb].
    + apply bool_decide_eq_true in Ec.
      destruct a as [| |x|x|x|l], b as [| |y|y|y|m]; try done;
        try (destruct (Hn _ Ha) as [E|E]; rewrite E in Ec; done); try (destruct (Hn _ Hb) as [E|E]; rewrite E in Ec; done).
      * cbn. f_equal. destruct x, y; by cbn in *.
      * cbn. f_equal. destruct x as [[]| | | |], y as [[]| | | |]; try done; cbn in *;
          repeat case_bool_decide; try done; congruence.
      * cbn. f_equal. apply bool_decide_ext. split; [by intros ->|by intros [= ->]].
    + apply bool_decide_eq_false in Ec. rewrite bool_decide_false; [done|]. by intros ->.
Qed.

Lemma allM_ext {A} (f g : A -> outcome bool) l : (forall x, x ∈ l -> f x = g x) -> allM f l = allM g l.
Proof.
  induction l as [|x l IH]; intros Hf; [done|]. cbn [allM]. rewrite Hf by by left. rewrite IH; [done|]. intros y Hy. apply Hf. by right.
Qed.

Lemma class_name_data l o : h !! l = Some o -> tidy o ->
  class_name h (Obj l) = match o_class o with CArray => "Array"%string | _ => "Object"%string end.
Proof. intros Ho (_ & _ & [Hk|Hk]); cbn; rewrite Ho; cbn; by rewrite Hk. Qed.

Lemma keys_kids l o : h !! l = Some o -> o_class o = CObject -> keys h (Obj l) = kids o.
Proof. intros Ho Hk. unfold keys, kids. by rewrite Ho, Hk. Qed.

Definition deeper n la lb st k := eq n h (property h k (Obj la)) (property h k (Obj lb)) ((la, lb) :: st).

Lemma eq_objects n la lb oa ob st : D la -> D lb -> la <> lb -> h !! la = Some oa -> h !! lb = Some ob ->
  eq (S n) h (Obj la) (Obj lb) st =
  if negb (bool_decide (o_class oa = o_class ob)) then Ret false else
  match List.find (fun p => bool_decide (p.1 = la)) st with
  | Some (_, x) => Ret (bool_decide (x = lb))
  | None =>
      if negb (length (kids oa) =? length (kids ob))%nat then Ret false else
      allM (fun k => if bool_decide (k ∈ kids ob) then deeper n la lb st k else Ret false) (reverse (kids oa))
  end.
Proof.
  intros Ha Hb Hne Hoa Hob.
  destruct (data_tidy la Ha) as (oa' & Ea & Hta & Hca). rewrite Hoa in Ea. injection Ea as <-.
  destruct (data_tidy lb Hb) as (ob' & Eb & Htb & Hcb). rewrite Hob in Eb. injection Eb as <-.
  cbn [eq]. unfold strict_eq. rewrite bool_decide_false by congruence. cbn [nullish orb].
  unfold unwrap. rewrite (dt_plain _ _ _ Hdata la Ha), (dt_plain _ _ _ Hdata lb Hb).
  rewrite (class_name_data la oa), (class_name_data lb ob) by done.
  pose proof Hta as (_ & _ & Hka). pose proof Htb as (_ & _ & Hkb).
  destruct Hka as [Hka|Hka], Hkb as [Hkb|Hkb]; rewrite Hka, Hkb; try done.
  - cbn. rewrite Hoa, Hob. destruct (List.find _ st) as [[x y]|]; [done|].
    unfold kids. rewrite Hka, Hkb, !length_map, !length_seq.
    destruct (length (o_elems oa) =? length (o_elems ob))%nat eqn:El; [|done]. cbn [negb]. apply Nat.eqb_eq in El.
    apply allM_ext. intros k Hk. rewrite El in Hk. rewrite elem_of_reverse in Hk. by rewrite bool_decide_true.
  - assert (same_constructor h (Obj la) (Obj lb) = Ret true) as Esc.
    { unfold same_constructor. rewrite (Hca Hka), (Hcb Hkb). cbn [mbind outcome_bind].
      assert (strict_eq c c = true) as -> by (apply strict_eq_spec; by left). done. }
    cbn -[same_constructor keys has]. rewrite Hoa, Hob. cbn -[same_constructor keys has]. rewrite Hka, Hkb.
    cbn -[same_constructor keys has]. rewrite Esc. cbn -[keys has].
    destruct (List.find _ st) as [[x y]|]; [done|].
    rewrite (keys_kids la oa), (keys_kids lb ob) by done. rewrite (Nat.eqb_sym (length (kids ob))).
    destruct (length (kids oa) =? length (kids ob))%nat; [|done]. cbn [negb]. apply allM_ext. intros k _.
    unfold has. cbn [nullish own_prop]. rewrite Hob. cbn. assert (kids ob = own_keys ob) as -> by (unfold kids; by rewrite Hkb).
    rewrite (bool_decide_ext _ _ (has_own ob k Htb Hkb)).
    by destruct (bool_decide _).
Qed.

Lemma allM_true {A} (f : A -> outcome bool) l : allM f l = Ret true <-> forall x, x ∈ l -> f x = Ret true.
Proof.
  induction l as [|x l IH]; cbn [allM].
  - split; [by intros _ x Hx%elem_of_nil|done].
  - setoid_rewrite elem_of_cons. destruct (f x) as [[]|e|] eqn:Ex; cbn; [|split; [done|intros Hf; rewrite (Hf x) in Ex by (by left); done]..].
    rewrite IH. split; [intros Hl y [->|Hy]; [done|by apply Hl]|]. intros Hl y Hy. apply Hl. by right.
Qed.

Lemma allM_false {A} (f : A -> outcome bool) l : allM f l = Ret false -> exists x, x ∈ l /\ f x = Ret false.
Proof.
  induction l as [|x l IH]; cbn [allM]; [done|]. destruct (f x) as [[]|e|] eqn:Ex; cbn; [|intros _; exists x; split; [by left|done]|done|done].
  intros (y & Hy & E)%IH. exists y. split; [by right|done].
Qed.

Lemma allM_throws {A} (f : A -> outcome bool) l e : (forall x, x ∈ l -> f x <> Throw e) -> allM f l <> Throw e.
Proof.
  induction l as [|x l IH]; cbn [allM]; intros Hf; [done|]. specialize (Hf x) as Hx.
  destruct (f x) as [[]|e'|] eqn:E; cbn; [apply IH; intros y Hy; apply Hf; by right|done|apply Hx; by left|done].
Qed.

Lemma kid_in_data l o k : D l -> h !! l = Some o -> tidy o -> k ∈ kids o -> in_data D (property h k (Obj l)).
Proof.
  intros Hl Ho Ht Hk. apply (data_child h D Hclosed (Obj l) k); [done|]. rewrite (child_kids l o k Ho Ht). by rewrite bool_decide_true.
Qed.

(** *** A positive answer *)
Lemma gather (l : list key) (f g : key -> value) T :
  (forall k, k ∈ l -> exists S, related (S ++ T) (f k) (g k) /\ forall p, p ∈ S -> steps h (S ++ T) p) ->
  exists S, (forall k, k ∈ l -> related (S ++ T) (f k) (g k)) /\ forall p, p ∈ S -> steps h (S ++ T) p.
Proof.
  induction l as [|k l IH]; intros Hl.
  - exists []. split; by intros x Hx%elem_of_nil.
  - destruct (Hl k) as (S1 & R1 & P1); [by left|]. destruct IH as (S2 & R2 & P2); [intros x Hx; apply Hl; by right|].
    assert (S1 ++ T ⊆ (S1 ++ S2) ++ T) as H1 by (intros x; rewrite !elem_of_app; tauto).
    assert (S2 ++ T ⊆ (S1 ++ S2) ++ T) as H2 by (intros x; rewrite !elem_of_app; tauto).
    exists (S1 ++ S2). split.
    + intros x [->|Hx]%elem_of_cons; [eapply related_mono; [exact H1|exact R1]|]. eapply related_mono; [exact H2|by apply R2].
    + intros p [Hp|Hp]%elem_of_app; [eapply steps_mono; [exact H1|by apply P1]|eapply steps_mono; [exact H2|by apply P2]].
Qed.

Lemma same_kids oa ob : tidy oa -> tidy ob -> length (kids oa) = length (kids ob) -> (forall k, k ∈ kids oa -> k ∈ kids ob) ->
  forall k, k ∈ kids oa <-> k ∈ kids ob.
Proof.
  intros Ha Hb Hl Hs k. split; [apply Hs|].
  assert (kids oa ≡ₚ kids ob) as ->; [|done]. apply submseteq_length_Permutation; [|lia].
  apply NoDup_submseteq; [by apply kids_nodup|done].
Qed.

Lemma eq_sound n a b st : in_data D a -> in_data D b -> eq n h a b st = Ret true ->
  exists S, related (S ++ st) a b /\ forall p, p ∈ S -> steps h (S ++ st) p.
Proof.
  revert a b st. induction n as [|n IH]; intros a b st Ha Hb; [done|].
  destruct (is_object a && is_object b) eqn:Eo.
  2: { rewrite eq_prim by done. intros [= ->%bool_decide_eq_true]. exists []. split; [|by intros p Hp%elem_of_nil].
       by destruct b. }
  destruct a as [| | | | |la], b as [| | | | |lb]; try done. cbn [in_data] in *.
  destruct (decide (la = lb)) as [->|Hne].
  { intros _. exists []. split; [by left|by intros p Hp%elem_of_nil]. }
  destruct (data_tidy la Ha) as (oa & Hoa & Hta & _), (data_tidy lb Hb) as (ob & Hob & Htb & _).
  rewrite (eq_objects n la lb oa ob st) by done. case_bool_decide as Hcl; cbn [negb]; [|done].
  destruct (List.find _ st) as [[y x]|] eqn:Ef.
  { intros [= ->%bool_decide_eq_true]. exists []. split; [|by intros p Hp%elem_of_nil]. right.
    apply List.find_some in Ef as [Hi He]. apply bool_decide_eq_true in He. cbn in He. subst y. by apply list_elem_of_In. }
  destruct (length (kids oa) =? length (kids ob))%nat eqn:El; cbn [negb]; [|done]. apply Nat.eqb_eq in El.
  intros Hall. rewrite allM_true in Hall. setoid_rewrite elem_of_reverse in Hall.
  assert (forall k, k ∈ kids oa -> k ∈ kids ob /\ deeper n la lb st k = Ret true) as Hk.
  { intros k Hk. specialize (Hall k Hk). by case_bool_decide. }
  destruct (gather (kids oa) (fun k => property h k (Obj la)) (fun k => property h k (Obj lb)) ((la, lb) :: st)) as (S & RS & PS).
  { intros k Hi. destruct (Hk k Hi) as [Hj Hd]. apply IH; [by eapply kid_in_data|by eapply kid_in_data|done]. }
  assert (S ++ (la, lb) :: st ⊆ ((la, lb) :: S) ++ st) as Hsub by (intros x; cbn; rewrite !elem_of_app, !elem_of_cons, elem_of_app; tauto).
  exists ((la, lb) :: S). split; [right; by left|]. intros p [->|Hp]%elem_of_cons; [|eapply steps_mono; [exact Hsub|by apply PS]].
  split; cbn [fst snd].
  - cbn. rewrite Hoa, Hob. cbn. by rewrite Hcl.
  - intros k. rewrite (child_kids la oa), (child_kids lb ob) by done.
    pose proof (same_kids oa ob Hta Htb El (fun k Hi => proj1 (Hk k Hi)) k) as Hiff.
    rewrite (bool_decide_ext _ _ Hiff). case_bool_decide as Hi; [|done]. eapply related_mono; [exact Hsub|]. apply RS. by apply Hiff.
Qed.

(** *** A negative answer on data without cycles *)
Lemma eq_complete (rank : loc -> nat) n a b st : (forall l k m, D l -> child h (Obj l) k = Some (Obj m) -> (rank m < rank l)%nat) ->
  in_data D a -> in_data D b -> same_data h a b ->
  (forall l p, a = Obj l -> p ∈ st -> (rank l < rank p.1)%nat) -> eq n h a b st <> Ret false.
Proof.
  intros Hrank. revert a b st. induction n as [|n IH]; intros a b st Ha Hb Hs Hst; [done|].
  pose proof (Hs []) as Htop. cbn [walk] in Htop.
  destruct (is_object a && is_object b) eqn:Eo.
  2: { rewrite eq_prim by done. unfold alike in Htop. assert (a = b) as -> by (by destruct a, b). by rewrite bool_decide_true. }
  destruct a as [| | | | |la], b as [| | | | |lb]; try done. cbn [in_data alike] in *.
  destruct (decide (la = lb)) as [->|Hne].
  { cbn [eq]. unfold strict_eq. by rewrite bool_decide_true. }
  destruct (data_tidy la Ha) as (oa & Hoa & Hta & _), (data_tidy lb Hb) as (ob & Hob & Htb & _).
  rewrite (eq_objects n la lb oa ob st) by done. cbn in Htop. rewrite Hoa, Hob in Htop. injection Htop as Hcl.
  rewrite bool_decide_true by done. cbn [negb].
  destruct (List.find _ st) as [[y x]|] eqn:Ef.
  { apply List.find_some in Ef as [Hi He]. apply bool_decide_eq_true in He. cbn in He. subst y. apply list_elem_of_In in Hi.
    specialize (Hst la _ eq_refl Hi). cbn in Hst. lia. }
  assert (forall k, match child h (Obj la) k, child h (Obj lb) k with
                    | Some x, Some y => same_data h x y | None, None => True | _, _ => False end) as Hkid by (intros k; by apply same_child).
  assert (forall k, k ∈ kids oa <-> k ∈ kids ob) as Hiff.
  { intros k. specialize (Hkid k). rewrite (child_kids la oa), (child_kids lb ob) in Hkid by done. by do 2 case_bool_decide. }
  assert (kids oa ≡ₚ kids ob) as Hperm by (apply NoDup_Permutation; [by apply kids_nodup|by apply kids_nodup|done]).
  rewrite (Permutation_length Hperm), Nat.eqb_refl. cbn [negb]. intros (k & Hk & E)%allM_false. rewrite elem_of_reverse in Hk.
  rewrite bool_decide_true in E by by apply Hiff. revert E. specialize (Hkid k).
  pose proof (Hrank la k) as Hr. rewrite (child_kids la oa), (child_kids lb ob) in Hkid by done. rewrite (child_kids la oa) in Hr by done.
  rewrite bool_decide_true in Hkid, Hr by done. rewrite bool_decide_true in Hkid by by apply Hiff.
  apply IH; [by eapply kid_in_data|eapply kid_in_data; [done..|by apply Hiff]|done|].
  intros l p Hl [->|Hp]%elem_of_cons; cbn [fst].
  - apply Hr; [done|]. by rewrite Hl.
  - etrans; [apply Hr; [done|by rewrite Hl]|]. by apply Hst.
Qed.

Lemma eq_returns n a b st e : in_data D a -> in_data D b -> eq n h a b st <> Throw e.
Proof.
  revert a b st. induction n as [|n IH]; intros a b st Ha Hb; [done|].
  destruct (is_object a && is_object b) eqn:Eo; [|by rewrite eq_prim by done].
  destruct a as [| | | | |la], b as [| | | | |lb]; try done. cbn [in_data] in *.
  destruct (decide (la = lb)) as [->|Hne]; [cbn [eq]; unfold strict_eq; by rewrite bool_decide_true|].
  destruct (data_tidy la Ha) as (oa & Hoa & Hta & _), (data_tidy lb Hb) as (ob & Hob & Htb & _).
  rewrite (eq_objects n la lb oa ob st) by done. case_match; [done|]. case_match; [by case_match|]. case_match; [done|].
  apply allM_throws. intros k Hk. rewrite elem_of_reverse in Hk. destruct (bool_decide (k ∈ kids ob)) eqn:Hj; [|done].
  apply bool_decide_eq_true in Hj.
  apply IH; [exact (kid_in_data la oa k Ha Hoa Hta Hk)|exact (kid_in_data lb ob k Hb Hob Htb Hj)].
Qed.
End compare.

(** C8: deep equality of plain data.  The comparison returns; if it says that two values
    are equal then they look alike along every path of keys, also where the data is
    cyclic; and on data without cycles it says so whenever they do. *)
Theorem isEqual_plain (R : Realm) (h : heap) (c : value) (D : loc -> Prop) (a b : value)
    (Hdata : data h c D) (Hclosed : closed_data h D) (Hc : c <> Num NaN) (Ha : in_data D a) (Hb : in_data D b) :
  exists r, isEqual (length h + 1) h a b = Ret r /\
    (r = true -> same_data h a b) /\ (acyclic h D -> same_data h a b -> r = true).
Proof.
  unfold isEqual. assert (ends (eq (length h + 1) h a b [])) as Hends by (apply eq_ends; [split; constructor|cbn; lia]).
  destruct (eq (length h + 1) h a b []) as [r|e|] eqn:E; [|by eapply eq_returns in E|by destruct Hends].
  exists r. split; [done|]. split.
  - intros ->. destruct (eq_sound h c D Hdata Hclosed Hc _ a b [] Ha Hb E) as (S & RS & PS). rewrite app_nil_r in *.
    by eapply related_same.
  - intros [rank Hrank] Hs. destruct r; [done|]. exfalso.
    refine (eq_complete h c D Hdata Hclosed Hc rank _ a b [] Hrank Ha Hb Hs _ E). by intros l p _ Hp%elem_of_nil.
Qed.

(** ** Examples *)

(** [{x: [1, NaN], y: "s"}] and [{y: "s", x: [1, NaN]}]; then [{x: itself}] and
    [{x: {x: the outer one}}]. *)
Definition demo_heap : heap := demo_base ++
  [an_object [shown "x" (Obj 7); shown "y" (Str (js "s"))];
   an_array [Num (Int 1); Num NaN];
   an_object [shown "y" (Str (js "s")); shown "x" (Obj 9)];
   an_array [Num (Int 1); Num NaN];
   an_object [shown "x" (Obj 10)];
   an_object [shown "x" (Obj 12)];
   an_object [shown "x" (Obj 11)];
   Object CObject (Some 5%nat) [] [shown "_wrapped" Null];
   Object CObject (Some 5%nat) [] [shown "_wrapped" Null]].

Definition demo_set (l : loc) : Prop := l ∈ [6; 7; 8; 9; 10; 11; 12]%nat.

(** Boolean checks of the side conditions. *)
Lemma data_check `{Realm} h c ls :
  forallb (fun l => match h !! l with
                    | Some o => bool_decide (NoDup (map fst (o_props o))) && forallb (fun p => p.2.2) (o_props o) &&
                                (bool_decide (o_class o = CArray) ||
                                 bool_decide (o_class o = CObject) && bool_decide (prop_of h (Obj l) (prop "constructor") = Some c)) &&
                                negb (is_wrapper h (Obj l))
                    | None => false
                    end) ls = true -> data h c (fun l => l ∈ ls).
Proof.
  rewrite forallb_forall. intros Hall. split; intros l Hl%list_elem_of_In%Hall; destruct (h !! l) as [o|] eqn:Ho; try done;
    apply andb_true_iff in Hl as [[[Hn He]%andb_true_iff Hk]%andb_true_iff Hw].
  - exists o. split; [done|]. split; [by apply bool_decide_eq_true in Hn|]. split.
    { apply Forall_forall. intros p Hp. rewrite forallb_forall in He. by apply He, list_elem_of_In. }
    apply orb_true_iff in Hk as [Hk|[Hk Hc]%andb_true_iff]; [left; by apply bool_decide_eq_true in Hk|right].
    apply bool_decide_eq_true in Hk, Hc. split; [done|]. unfold get. cbn [nullish]. by rewrite Hc.
  - by apply negb_true_iff in Hw.
Qed.

Lemma closed_check `{Realm} h ls :
  forallb (fun l => match h !! l with
                    | Some o => forallb (fun k => match property h k (Obj l) with Obj m => bool_decide (m ∈ ls) | _ => true end) (kids o)
                    | None => true
                    end) ls = true -> (forall l o, l ∈ ls -> h !! l = Some o -> tidy o) -> closed_data h (fun l => l ∈ ls).
Proof.
  rewrite forallb_forall. intros Hall Ht l k m Hl Hk. pose proof (Hall l (proj1 (list_elem_of_In _ _) Hl)) as Hc.
  destruct (h !! l) as [o|] eqn:Ho; [|unfold child in Hk; by rewrite Ho in Hk].
  rewrite (child_kids h l o k Ho (Ht l o Hl Ho)) in Hk. case_bool_decide as Hi; [|done]. injection Hk as Hk.
  rewrite forallb_forall in Hc. specialize (Hc k (proj1 (list_elem_of_In _ _) Hi)). rewrite Hk in Hc. by apply bool_decide_eq_true in Hc.
Qed.

Lemma demo_data : data (H := demo_realm) demo_heap (Obj 3) demo_set.
Proof. apply data_check. vm_compute. reflexivity. Qed.

Lemma demo_closed : closed_data (H := demo_realm) demo_heap demo_set.
Proof.
  apply closed_check; [vm_compute; reflexivity|]. intros l o Hl Ho.
  destruct (data_tidy (H := demo_realm) demo_heap (Obj 3) demo_set demo_data l Hl) as (o' & Ho' & Ht & _).
  rewrite Ho in Ho'. by injection Ho' as <-.
Qed.

Lemma isEqual_plain_witness :
  isEqual (H := demo_realm) (length demo_heap + 1) demo_heap (Obj 6) (Obj 8) = Ret true /\
  exists r, isEqual (H := demo_realm) (length demo_heap + 1) demo_heap (Obj 6) (Obj 8) = Ret r /\
    (r = true -> same_data (H := demo_realm) demo_heap (Obj 6) (Obj 8)) /\
    (acyclic (H := demo_realm) demo_heap demo_set -> same_data (H := demo_realm) demo_heap (Obj 6) (Obj 8) -> r = true).
Proof.
  split; [vm_compute; reflexivity|].
  apply (isEqual_plain demo_realm demo_heap (Obj 3) demo_set (Obj 6) (Obj 8) demo_data demo_closed).
  - discriminate.
  - left.
  - do 2 right. left.
Defined.

(** ** Departures *)

(** A cycle of one object and one of two look alike along every path, but are not equal. *)
Lemma unrolled_cycle_differs :
  same_data (H := demo_realm) demo_heap (Obj 10) (Obj 11) /\
  isEqual (H := demo_realm) (length demo_heap + 1) demo_heap (Obj 10) (Obj 11) = Ret false.
Proof.
  split; [|vm_compute; reflexivity].
  apply (related_same (H := demo_realm) demo_heap [(10, 11); (10, 12)]%nat); [|right; by left].
  assert (forall l m, demo_heap !! l = Some (an_object [shown "x" (Obj m)]) -> (property (H := demo_realm) demo_heap (prop "x") (Obj l) = Obj m) ->
    forall k, child (H := demo_realm) demo_heap (Obj l) k = if bool_decide (k = prop "x") then Some (Obj m) else None) as Hkid.
  { intros l m Ho Hp k. unfold child. rewrite Ho. cbn. rewrite (bool_decide_ext (k ∈ _) (k = prop "x")) by apply list_elem_of_singleton.
    case_bool_decide as Hk; [|done]. subst k. exact (f_equal Some Hp). }
  intros p [->|[->|Hp%elem_of_nil]%elem_of_cons]%elem_of_cons; [..|done].
  - split; [done|]. intros k. cbn [fst snd]. rewrite (Hkid 10 10)%nat, (Hkid 11 12)%nat by done. case_bool_decide; [|done]. right. right. by left.
  - split; [done|]. intros k. cbn [fst snd]. rewrite (Hkid 10 10)%nat, (Hkid 12 11)%nat by done. case_bool_decide; [|done]. right. by left.
Qed.

(** Two wrappers of null cannot be compared: the constructor of null is read. *)
Lemma wrapped_null_throws :
  isEqual (H := demo_realm) (length demo_heap + 1) demo_heap (Obj 13) (Obj 14) = Throw (TypeError "Cannot read property of undefined").
Proof. vm_compute. reflexivity. Qed.
