(* ===== verification/UnderscoreLists.v ===== *)
(** * Underscore: collections and arrays

    The collection functions (module 25 of wordcut.js, [_.each] to [_.partition]) and
    the array functions ([_.first] to [_.range]).  A collection is walked by its
    indices when it is array-like and by its own keys otherwise; what is stored is read
    when its turn comes.  A length is an integer, or a primitive that is coerced to one.
    [Math.random] is an argument: [roll n] is [Math.floor(Math.random() * n)]. *)
From stdpp Require Import list.
From S2P Require Import Prelude JsString JsArray JsState JsObject JsHeap Underscore.

(** ** Lengths and slices *)
Section lengths.
Context `{Realm} `{Client}.

(** The bound that [i < getLength(v)] tests, where it is finite. *)
Definition count (h : heap) (v : value) : Z := match number_of_prim (getLength h v) with Int z => z | _ => 0 end.

(** [slice]'s positions count from the end if they are negative. *)
Definition relative (n i : Z) : Z := if i <? 0 then Z.max (n + i) 0 else Z.min i n.

(** [slice.call(v, from, to)]: a hole where nothing is found. *)
Definition slice (h : heap) (v : value) (from to : Z) : list (option value) :=
  let n := Z.min (Z.max 0 (count h v)) MAX_ARRAY_INDEX in
  map (fun i => prop_of h v (key_of_Z i)) (seqZ (relative n from) (relative n to - relative n from)).

(** An array has a length from 0 to [2 ^ 32 - 1]. *)
Definition sized (n : Z) : stM heap unit := if (0 <=? n) && (n <? 2 ^ 32) then mret tt else throw_st (RangeError "Invalid array length").

Definition sliceM (v : value) (from : Z) (to : option Z) : stM heap value :=
  h ← get_st;
  if nullish v then throw_st (TypeError "Array.prototype.slice called on null or undefined")
  else
    let vs := slice h v from (default (count h v) to) in
    sized (js_len vs) ;; alloc (Object CArray (Some array_proto) vs []).

(** ** Walking a collection *)

(** The keys to read and what the callback is told of each. *)
Definition positions (h : heap) (obj : value) : list (key * value) :=
  match array_length h obj with
  | Some n => map (fun i => (key_of_Z i, Num (Int i))) (seqZ 0 n)
  | None => map with_text (keys h obj)
  end.

Definition visit {A} (obj : value) (step : A -> value -> value -> stM heap A) (a : A) : stM heap A :=
  h ← get_st;
  foldS (fun a '(k, i) => v ← getM obj k; step a v i) a (positions h obj).

(** [_.each] *)
Definition each (obj : value) (it : iteratee) (context : value) : stM heap value :=
  let f := optimizeCb (fun_of it) context (Some 3%nat) in
  visit obj (fun _ v i => f Undefined [v; i; obj] ;; mret tt) tt ;;
  mret obj.

(** [_.map], and the values of its result *)
Definition map_values (obj : value) (f : js_fun) : stM heap (list value) :=
  h ← get_st;
  sized (js_len (positions h obj)) ;;
  visit obj (fun rs v i => r ← f Undefined [v; i; obj]; mret (rs ++ [r])) [].

Definition map_ (obj : value) (it : iteratee) (context : value) : stM heap value :=
  f ← cb it context (Some 3%nat);
  rs ← map_values obj f;
  new_array rs.

(** [createReduce(dir)]; without a memo the first value is taken, and where there is
    none the property that the code reads in its place. *)
Definition createReduce (left : bool) (obj : value) (it : iteratee) (memo : option value) (context : value) : stM heap value :=
  let f := optimizeCb (fun_of it) context (Some 4%nat) in
  h ← get_st;
  let ps := if left then positions h obj else reverse (positions h obj) in
  let iterator memo ps := foldS (fun memo '(k, i) => v ← getM obj k; f Undefined [memo; v; i; obj]) memo ps in
  match memo, ps with
  | Some memo, _ => iterator memo ps
  | None, (k, _) :: ps => memo ← getM obj k; iterator memo ps
  | None, [] => getM obj (if isArrayLike h obj then key_of_Z (if left then 0 else -1) else prop "undefined")
  end.
Definition reduce := createReduce true.
Definition reduceRight := createReduce false.

(** [createPredicateIndexFinder(dir)] *)
Fixpoint find_position (f : js_fun) (array : value) (ixs : list Z) : stM heap Z :=
  match ixs with
  | [] => mret (-1)
  | i :: ixs =>
      v ← getM array (key_of_Z i);
      r ← f Undefined [v; Num (Int i); array];
      if truthy r then mret i else find_position f array ixs
  end.

Definition createPredicateIndexFinder (forward : bool) (array : value) (it : iteratee) (context : value) : stM heap Z :=
  f ← cb it context (Some 3%nat);
  h ← get_st;
  let ixs := seqZ 0 (count h array) in
  find_position f array (if forward then ixs else reverse ixs).
Definition findIndex := createPredicateIndexFinder true.
Definition findLastIndex := createPredicateIndexFinder false.

(** [_.find] *)
Definition find (obj : value) (it : iteratee) (context : value) : stM heap value :=
  h ← get_st;
  if isArrayLike h obj then
    i ← findIndex obj it context;
    if i =? -1 then mret Undefined else getM obj (key_of_Z i)
  else
    k ← findKey obj it context;
    if isUndefined k then mret Undefined else k ← to_key k; getM obj k.

(** [_.filter], and the values of its result *)
Definition filter_values (obj : value) (f : js_fun) : stM heap (list value) :=
  visit obj (fun rs v i => r ← f Undefined [v; i; obj]; mret (if truthy r then rs ++ [v] else rs)) [].

Definition filter_ (obj : value) (it : iteratee) (context : value) : stM heap value :=
  f ← cb it context (Some 3%nat);
  rs ← filter_values obj f;
  new_array rs.

Definition reject (obj : value) (it : iteratee) (context : value) : stM heap value :=
  f ← cb it Undefined (Some 3%nat);
  filter_ obj (IFun (negate f)) context.

(** The loop of [_.every] and [_.some]: does a callback answer [stop]? *)
Fixpoint answers (f : js_fun) (stop : bool) (obj : value) (ps : list (key * value)) : stM heap bool :=
  match ps with
  | [] => mret false
  | (k, i) :: ps =>
      v ← getM obj k;
      r ← f Undefined [v; i; obj];
      if Bool.eqb (truthy r) stop then mret true else answers f stop obj ps
  end.

Definition every (obj : value) (it : iteratee) (context : value) : stM heap bool :=
  f ← cb it context (Some 3%nat);
  h ← get_st;
  b ← answers f false obj (positions h obj);
  mret (negb b).

Definition some (obj : value) (it : iteratee) (context : value) : stM heap bool :=
  f ← cb it context (Some 3%nat);
  h ← get_st;
  answers f true obj (positions h obj).

(** [_.invoke], [_.pluck], [_.where], [_.findWhere] *)
Definition invoke (obj method : value) (args : list value) : stM heap value :=
  h ← get_st;
  let isFunc := isFunction h method in
  map_ obj (IFun (fun _ a =>
    let v := arg a 0 in
    func ← (if isFunc then mret method else k ← to_key method; getM v k);
    if nullish func then mret func else callM func v args)) Undefined.

Definition pluck (obj key : value) : stM heap value := map_ obj (IFun (property_of key)) Undefined.

Definition where_ (obj attrs : value) : stM heap value := f ← matcher attrs; filter_ obj (IFun f) Undefined.
Definition findWhere (obj attrs : value) : stM heap value := f ← matcher attrs; find obj (IFun f) Undefined.

(** [_.partition] *)
Definition partition (obj : value) (it : iteratee) (context : value) : stM heap value :=
  f ← cb it context (Some 3%nat);
  pf ← visit obj (fun '(ps, fs) v i => r ← f Undefined [v; i; obj]; mret (if truthy r then (ps ++ [v], fs) else (ps, fs ++ [v]))) ([], []);
  p ← new_array pf.1;
  f ← new_array pf.2;
  new_array [p; f].

(** [_.toArray] *)
Definition toArray (obj : value) : stM heap value :=
  h ← get_st;
  if negb (truthy obj) then new_array [] else
  if isArray h obj then sliceM obj 0 None else
  if isArrayLike h obj then map_ obj (IFun identity) Undefined else new_array (values h obj).
End lengths.

(** ** Extremes, chance and order *)
Section orders.
Context `{Realm} `{Client}.

(** [a > b] *)
Definition greater_than (a b : value) : stM heap bool :=
  p ← to_prim a;
  q ← to_prim b;
  mret (match p, q with
        | Str s, Str t => str_ltb t s
        | _, _ => num_lt (number_of_prim q) (number_of_prim p)
        end).

(** The reads of the elements: an object that is no array is copied first. *)
Definition element_reads (h : heap) (obj : value) : list (stM heap value) :=
  match array_length h obj with
  | Some n => map (fun i => getM obj (key_of_Z i)) (seqZ 0 n)
  | None => map mret (values h obj)
  end.

(** [_.max] and [_.min], with the comparison and the value to start from *)
Definition extreme (better : value -> value -> stM heap bool) (worst : value) (obj : value) (it : iteratee) (context : value) : stM heap value :=
  h ← get_st;
  let direct := match it with IVal v => nullish v && negb (nullish obj) | IFun _ => false end in
  if direct then
    foldS (fun result read => value ← read; b ← better value result; mret (if b : bool then value else result))
      worst (element_reads h obj)
  else
    f ← cb it context (Some 3%nat);
    r ← visit obj (fun '(result, lastComputed) v i =>
      computed ← f Undefined [v; i; obj];
      b ← better computed lastComputed;
      mret (if b || strict_eq computed worst && strict_eq result worst then (v, computed) else (result, lastComputed)))
      (worst, worst);
    mret r.1.
Definition max := extreme greater_than (Num MinusInfinity).
Definition min := extreme less_than (Num Infinity).

(** [_.random(lo, hi)] *)
Definition random (roll : Z -> Z) (lo hi : Z) : Z := lo + roll (hi - lo + 1).

(** The loop of [_.shuffle]; [rolls index] is drawn at [index]. *)
Fixpoint shuffle_loop (rolls : nat -> Z -> Z) (index : nat) (set : list value) (shuffled : list (option value)) : list (option value) :=
  match set with
  | [] => shuffled
  | v :: set =>
      let rand := random (rolls index) 0 (Z.of_nat index) in
      let shuffled :=
        if rand =? Z.of_nat index then shuffled
        else set_elem index (default Undefined (mjoin (shuffled !! Z.to_nat rand))) shuffled in
      shuffle_loop rolls (S index) set (set_elem (Z.to_nat rand) v shuffled)
  end.

Definition collected (h : heap) (obj : value) : list value :=
  match array_length h obj with Some n => elements h obj n | None => values h obj end.

Definition shuffle (rolls : nat -> Z -> Z) (obj : value) : stM heap value :=
  h ← get_st;
  let set := collected h obj in
  sized (js_len set) ;;
  alloc (Object CArray (Some array_proto) (shuffle_loop rolls 0 set (replicate (length set) None)) []).

(** [_.sample]; a number to take is an integer. *)
Definition sample (rolls : nat -> Z -> Z) (obj : value) (n : option Z) (guard : bool) : stM heap value :=
  h ← get_st;
  match n, guard with
  | Some n, false => s ← shuffle rolls obj; sliceM s 0 (Some (Z.max 0 n))
  | _, _ =>
      let set := collected h obj in
      let i := random (rolls 0%nat) 0 (js_len set - 1) in
      if isArrayLike h obj then getM obj (key_of_Z i) else mret (default Undefined (set !! Z.to_nat i))
  end.

(** [sort] with a comparison that runs code: a stable insertion sort. *)
Fixpoint insertM {A} (cmp : A -> A -> stM heap Z) (x : A) (l : list A) : stM heap (list A) :=
  match l with
  | [] => mret [x]
  | y :: l' => c ← cmp x y; if c <? 0 then mret (x :: l) else r ← insertM cmp x l'; mret (y :: r)
  end.
Definition sortM {A} (cmp : A -> A -> stM heap Z) (l : list A) : stM heap (list A) := foldS (fun acc x => insertM cmp x acc) [] l.

Record ranked : Type := Ranked { r_value : value; r_index : value; r_criteria : value }.

(** The sign of [left - right]. *)
Definition number_order (a b : number) : Z := if num_lt a b then -1 else if num_lt b a then 1 else 0.

Definition compare_ranked (left right : ranked) : stM heap Z :=
  let a := r_criteria left in
  let b := r_criteria right in
  let tie := number_order (number_of_prim (r_index left)) (number_of_prim (r_index right)) in
  if strict_eq a b then mret tie else
  gt ← greater_than a b;
  if (gt : bool) || isUndefined a then mret 1 else
  lt ← less_than a b;
  if (lt : bool) || isUndefined b then mret (-1) else mret tie.

(** [_.sortBy] *)
Definition sortBy (obj : value) (it : iteratee) (context : value) : stM heap value :=
  f ← cb it context (Some 3%nat);
  h ← get_st;
  sized (js_len (positions h obj)) ;;
  rs ← visit obj (fun rs v i => c ← f Undefined [v; i; obj]; mret (rs ++ [Ranked v i c])) [];
  rs ← sortM compare_ranked rs;
  new_array (map r_value rs).

(** *** Groups *)
Definition group (behavior : value -> value -> value -> stM heap unit) (obj : value) (it : iteratee) (context : value) : stM heap value :=
  result ← new_object;
  f ← cb it context (Some 3%nat);
  visit obj (fun _ v i => key ← f Undefined [v; i; obj]; behavior result v key) tt ;;
  mret result.

Definition groupBy := group (fun result v key =>
  k ← to_key key;
  present ← look (fun h => has h result k);
  if (present : bool)
  then k ← to_key key; arr ← getM result k; push arr v
  else k ← to_key key; arr ← new_array [v]; putM result k arr).

Definition indexBy := group (fun result v key => k ← to_key key; putM result k v).

(** [n + 1], on the counts that [countBy] stores. *)
Definition increment (v : value) : value := match number_of_prim v with Int z => Num (Int (z + 1)) | MinusZero => Num (Int 1) | n => Num n end.

Definition countBy := group (fun result v key =>
  k ← to_key key;
  present ← look (fun h => has h result k);
  if (present : bool)
  then k ← to_key key; n ← getM result k; putM result k (increment n)
  else k ← to_key key; putM result k (Num (Int 1))).
End orders.

(** ** Arrays *)
Section arrays.
Context `{Realm} `{Client}.

(** [_.initial], [_.rest], [_.first], [_.last]; a number to take is an integer. *)
Definition initial (array : value) (n : option Z) (guard : bool) : stM heap value :=
  getM array (prop "length") ;;
  h ← get_st;
  let n := if guard then 1 else default 1 n in
  sliceM array 0 (Some (Z.max 0 (count h array - n))).

Definition rest (array : value) (n : option Z) (guard : bool) : stM heap value :=
  sliceM array (if guard then 1 else default 1 n) None.

Definition first (array : value) (n : option Z) (guard : bool) : stM heap value :=
  h ← get_st;
  if nullish array then mret Undefined else
  match n, guard with
  | Some n, false => initial array (Some (count h array - n)) false
  | _, _ => getM array (Index 0)
  end.

Definition last_key (h : heap) (array : value) : key :=
  match number_of_prim (getLength h array) with
  | Int z => key_of_Z (z - 1)
  | MinusZero => key_of_Z (-1)
  | n => Name (text_of_number n)
  end.

Definition last (array : value) (n : option Z) (guard : bool) : stM heap value :=
  h ← get_st;
  if nullish array then mret Undefined else
  match n, guard with
  | Some n, false => rest array (Some (Z.max 0 (count h array - n))) false
  | _, _ => getM array (last_key h array)
  end.

(** [_.compact], [_.flatten] *)
Definition compact (array : value) : stM heap value := filter_ array (IFun identity) Undefined.

Definition flatten_ (fuel : nat) (array : value) (shallow : bool) : stM heap value :=
  vs ← look (fun h => flatten fuel h shallow false (elements h array (count h array)));
  new_array vs.

(** *** Searching: [createIndexFinder] *)

(** [_.isNaN] *)
Definition isNaN (h : heap) (v : value) : bool :=
  isNumber h v && match v with Num n => negb (strict_eq v (Num n)) | _ => true end.

(** What is searched: a value, or an array that only underscore holds. *)
Record view : Type := View { v_length : Z; v_at : Z -> value }.
Definition view_of (h : heap) (v : value) : view := View (count h v) (fun i => property h (key_of_Z i) v).
Definition view_of_list (vs : list value) : view := View (js_len vs) (fun i => if i <? 0 then Undefined else default Undefined (vs !! Z.to_nat i)).

Definition index_in (forward : bool) (h : heap) (array : view) (item : value) (idx : option Z) : Z :=
  let n := v_length array in
  let i := match idx with Some idx => if forward then (if 0 <=? idx then idx else Z.max (idx + n) 0) else 0 | None => 0 end in
  let length := match idx with
                | Some idx => if forward then n else if 0 <=? idx then Z.min (idx + 1) n else idx + n + 1
                | None => n
                end in
  if negb (strict_eq item item) then
    let all := Z.max 0 n in
    let from := relative all i in
    let offsets := seqZ 0 (relative all length - from) in
    match List.find (fun j => isNaN h (v_at array (from + j))) (if forward then offsets else reverse offsets) with
    | Some j => j + i
    | None => -1
    end
  else
    match List.find (fun idx => strict_eq (v_at array idx) item) (if forward then seqZ i (length - i) else reverse (seqZ 0 length)) with
    | Some idx => idx
    | None => -1
    end.

(** [_.sortedIndex]: the range is halved in every round. *)
Fixpoint sortedIndex_loop (fuel : nat) (f : js_fun) (array value : value) (low high : Z) : stM heap Z :=
  match fuel with
  | O => no_fuel
  | S fuel =>
      if low <? high then
        let mid := (low + high) / 2 in
        v ← getM array (key_of_Z mid);
        c ← f Undefined [v];
        b ← less_than c value;
        if (b : bool) then sortedIndex_loop fuel f array value (mid + 1) high else sortedIndex_loop fuel f array value low mid
      else mret low
  end.

Definition sortedIndex (array obj : value) (it : iteratee) (context : value) : stM heap Z :=
  f ← cb it context (Some 1%nat);
  value ← f Undefined [obj];
  h ← get_st;
  let high := count h array in
  sortedIndex_loop (Z.to_nat (Z.log2 high) + 2) f array value 0 high.

(** The third argument: none, a number or [true]. *)
Inductive start : Type := Everywhere | From (idx : Z) | InOrder.

Definition createIndexFinder (forward : bool) (array item : value) (idx : start) : stM heap Z :=
  h ← get_st;
  let search idx :=
    if negb (strict_eq item item) && nullish array
    then throw_st (TypeError "Array.prototype.slice called on null or undefined")
    else mret (index_in forward h (view_of h array) item idx) in
  match idx with
  | From idx => search (Some idx)
  | Everywhere => search None
  | InOrder =>
      if forward && negb (count h array =? 0) then
        idx ← sortedIndex array item (IVal Undefined) Undefined;
        v ← getM array (key_of_Z idx);
        mret (if strict_eq v item then idx else -1)
      else search None
  end.
Definition indexOf := createIndexFinder true.
Definition lastIndexOf := createIndexFinder false.

(** [_.contains] *)
Definition contains (h : heap) (obj item : value) (fromIndex : option Z) (guard : bool) : bool :=
  let array := if isArrayLike h obj then view_of h obj else view_of_list (values h obj) in
  0 <=? index_in true h array item (Some (if guard then 0 else default 0 fromIndex)).

Definition includes (h : heap) (vs : list value) (item : value) : bool := 0 <=? index_in true h (view_of_list vs) item (Some 0).

(** *** Sets *)

(** The loop of [_.uniq]: the result, and the computed values seen. *)
Definition uniq_step (isSorted : bool) (f : option js_fun) (array : value) (st : list value * (list value * value)) (i : Z)
    : stM heap (list value * (list value * value)) :=
  let '(result, (seen, last)) := st in
  value ← getM array (key_of_Z i);
  computed ← match f with Some f => f Undefined [value; Num (Int i); array] | None => mret value end;
  h ← get_st;
  mret (if isSorted then (if (i =? 0) || negb (strict_eq last computed) then result ++ [value] else result, (seen, computed))
        else match f with
             | Some _ => if includes h seen computed then st else (result ++ [value], (seen ++ [computed], last))
             | None => if includes h result value then st else (result ++ [value], (seen, last))
             end).

(** [_.uniq(array, isSorted, iteratee, context)] *)
Definition uniq (array isSorted it context : value) : stM heap value :=
  h ← get_st;
  let '(isSorted, it, context) := if isBoolean h isSorted then (truthy isSorted, it, context) else (false, isSorted, it) in
  f ← (if nullish it then mret None else f ← cb (IVal it) context (Some 3%nat); mret (Some f));
  h ← get_st;
  r ← foldS (uniq_step isSorted f array) ([], ([], Undefined)) (seqZ 0 (count h array));
  new_array r.1.

(** [_.union], [_.intersection], [_.difference], [_.without] *)
Definition union_ (arrays : list value) : stM heap value :=
  vs ← look (fun h => flatten 1 h true true arrays);
  array ← new_array vs;
  uniq array Undefined Undefined Undefined.

Definition intersection_values (h : heap) (array : value) (others : list value) : list value :=
  foldl (fun result item =>
    if includes h result item then result
    else if forallb (fun other => contains h other item None false) others then result ++ [item] else result)
    [] (elements h array (count h array)).

Definition intersection_ (arrays : list value) : stM heap value :=
  h ← get_st;
  match arrays with
  | [] => new_array []
  | array :: others => new_array (intersection_values h array others)
  end.

Definition difference_ (array : value) (others : list value) : stM heap value :=
  rest ← look (fun h => flatten 1 h true true others);
  filter_ array (IFun (fun _ args h => (h, Ret (Bool (negb (includes h rest (arg args 0))))))) Undefined.

Definition without (array : value) (items : list value) : stM heap value :=
  a ← new_array items;
  difference_ array [a].

(** *** Tables *)

(** [_.unzip], [_.zip] *)
Definition unzip (array : value) : stM heap value :=
  n ← (if truthy array then
         m ← max array (IFun (fun _ args h => (h, Ret (getLength h (arg args 0))))) Undefined;
         h ← get_st;
         l ← getM m (prop "length");
         mret (if truthy l then count h m else 0)
       else mret 0);
  sized n ;;
  columns ← mapS (fun index => pluck array (Num (Int index))) (seqZ 0 n);
  new_array columns.

Definition new_arguments (vs : list value) : stM heap value :=
  alloc (Object CArguments (Some object_proto) (map Some vs) [(js "length", (int (length vs), false))]).

Definition zip_ (arrays : list value) : stM heap value :=
  a ← new_arguments arrays;
  unzip a.

(** [_.object(list, values)] *)
Definition object_ (list values : value) : stM heap value :=
  result ← new_object;
  h ← get_st;
  iterM (fun i =>
    if truthy values then
      k ← getM list (key_of_Z i);
      k ← to_key k;
      v ← getM values (key_of_Z i);
      putM result k v
    else
      pair ← getM list (key_of_Z i);
      k ← getM pair (Index 0);
      k ← to_key k;
      pair ← getM list (key_of_Z i);
      v ← getM pair (Index 1);
      putM result k v) (seqZ 0 (count h list)) ;;
  mret result.

(** [_.range] on integers *)
Fixpoint range_loop (n : nat) (start step : Z) : list value :=
  match n with O => [] | S n => Num (Int start) :: range_loop n (start + step) step end.

Definition ceil_div (a b : Z) : Z := - (- a / b).

Definition range (start : Z) (stop : option Z) (step : Z) : stM heap value :=
  let '(start, stop) := match stop with Some stop => (start, stop) | None => (0, start) end in
  let step := if step =? 0 then 1 else step in
  let length := Z.max (ceil_div (stop - start) step) 0 in
  sized length ;;
  new_array (range_loop (Z.to_nat length) start step).
End arrays.

(** ** Walking with a callback that leaves the heap alone *)
Section pure.
Context `{Realm} `{Client} (h : heap).

Lemma positions_nullish obj : nullish obj = true -> positions h obj = [].
Proof. by destruct obj. Qed.

(** The state of the loop stands for one of type [B]. *)
Lemma visit_sim {A B} (num : B -> A) obj (step : A -> value -> value -> stM heap A) (g : B -> value -> value -> B) :
  (forall b k i, (k, i) ∈ positions h obj -> step (num b) (property h k obj) i h = (h, Ret (num (g b (property h k obj) i)))) ->
  forall b, visit obj step (num b) h = (h, Ret (num (foldl (fun b p => g b (property h p.1 obj) p.2) b (positions h obj)))).
Proof.
  intros Hg b. unfold visit. rewrite (bind_ran _ _ _ h h) by done.
  assert (forall k i, (k, i) ∈ positions h obj -> getM obj k h = (h, Ret (property h k obj))) as Hget.
  { intros k i Hp. unfold getM, look, get, property. destruct (nullish obj) eqn:En; [|done].
    rewrite positions_nullish in Hp by done. by apply elem_of_nil in Hp. }
  revert b Hg Hget. induction (positions h obj) as [|[k i] ps IH]; intros b Hg Hget; [done|]. cbn [foldS foldl fst snd].
  rewrite (bind_ran _ _ _ h (num (g b (property h k obj) i))).
  - apply IH; intros; [apply Hg|eapply Hget]; by right.
  - rewrite (bind_ran _ _ _ h (property h k obj)); [apply Hg; left|eapply Hget; left].
Qed.

Lemma visit_pure {A} obj (step : A -> value -> value -> stM heap A) (g : A -> value -> value -> A) :
  (forall a k i, (k, i) ∈ positions h obj -> step a (property h k obj) i h = (h, Ret (g a (property h k obj) i))) ->
  forall a, visit obj step a h = (h, Ret (foldl (fun a p => g a (property h p.1 obj) p.2) a (positions h obj))).
Proof. apply (visit_sim id). Qed.

Lemma collected_positions obj : map (fun p => property h p.1 obj) (positions h obj) = collected h obj.
Proof.
  unfold collected, positions. destruct (array_length h obj) as [n|]; unfold elements, values; rewrite map_map; by apply map_ext.
Qed.

Lemma foldl_filter {A} (P : A -> bool) l acc : foldl (fun rs v => if P v then rs ++ [v] else rs) acc l = acc ++ List.filter P l.
Proof.
  revert acc. induction l as [|v l IH]; intros acc; cbn; [by rewrite app_nil_r|]. rewrite IH. destruct (P v); [|done]. by rewrite <- app_assoc.
Qed.

Lemma foldl_map {A B T} (step : T -> B -> T) (f : A -> B) l a : foldl step a (map f l) = foldl (fun a x => step a (f x)) a l.
Proof. revert a. induction l as [|x l IH]; intros a; [done|]. apply IH. Qed.

Lemma foldl_snoc {A B} (f : A -> B) l acc : foldl (fun rs x => rs ++ [f x]) acc l = acc ++ map f l.
Proof. revert acc. induction l as [|x l IH]; intros acc; cbn; [by rewrite app_nil_r|]. by rewrite IH, <- app_assoc. Qed.

Lemma filter_values_pure obj f (P : value -> bool) :
  (forall k i, (k, i) ∈ positions h obj ->
    exists r, f Undefined [property h k obj; i; obj] h = (h, Ret r) /\ truthy r = P (property h k obj)) ->
  filter_values obj f h = (h, Ret (List.filter P (collected h obj))).
Proof.
  intros Hf. unfold filter_values. rewrite (visit_pure obj _ (fun rs v i => if P v then rs ++ [v] else rs)).
  - by rewrite <- collected_positions, <- (app_nil_l (List.filter _ _)), <- foldl_filter, foldl_map.
  - intros rs k i Hp. destruct (Hf k i Hp) as (r & Hr & HP). by rewrite (bind_ran _ _ _ _ _ Hr), HP.
Qed.

(** [_.map] with such a callback *)
Lemma map_values_pure obj f (g : value -> value) :
  js_len (positions h obj) < 2 ^ 32 ->
  (forall k i, (k, i) ∈ positions h obj -> f Undefined [property h k obj; i; obj] h = (h, Ret (g (property h k obj)))) ->
  map_values obj f h = (h, Ret (map g (collected h obj))).
Proof.
  intros Hn Hf. unfold map_values. rewrite (bind_ran _ _ _ h h) by done. unfold sized.
  rewrite (proj2 (Z.leb_le _ _)), (proj2 (Z.ltb_lt _ _)) by (unfold js_len in *; lia). cbn [andb].
  rewrite (bind_ran _ _ _ h tt) by done.
  rewrite (visit_pure obj _ (fun rs v i => rs ++ [g v])).
  - rewrite <- collected_positions, map_map. do 2 f_equal. exact (foldl_snoc (fun p => g (property h p.1 obj)) _ []).
  - intros rs k i Hp. by rewrite (bind_ran _ _ _ _ _ (Hf k i Hp)).
Qed.
End pure.

(** ** Arrays on the heap *)
Section stored.
Context `{Realm} `{Client} (h : heap) (l : loc) (p : option loc) (vs : list value) (ps : list (jsstr * (value * bool))).
Hypothesis (Hl : h !! l = Some (Object CArray p (map Some vs) ps)).

Lemma stored_prop o k v : h !! l = Some o -> get_own o k = Some v -> property h k (Obj l) = v.
Proof.
  intros Ho Hk. unfold property. cbn [nullish prop_of]. destruct (length h) as [|n] eqn:En.
  { apply lookup_lt_Some in Ho. lia. }
  by rewrite (find_prop_own h l n k v o).
Qed.

Lemma stored_length : getLength h (Obj l) = int (length vs).
Proof. unfold getLength. eapply stored_prop; [exact Hl|]. cbn. by rewrite length_map. Qed.

Lemma stored_count : count h (Obj l) = js_len vs.
Proof. unfold count. by rewrite stored_length. Qed.

Lemma stored_isArray : isArray h (Obj l) = true.
Proof. unfold isArray. cbn. by rewrite Hl. Qed.

Lemma stored_item i v : (Z.of_nat i < 2 ^ 32 - 1) -> vs !! i = Some v -> property h (key_of_Z (Z.of_nat i)) (Obj l) = v.
Proof.
  intros Hi Hv. unfold key_of_Z. rewrite (proj2 (Z.leb_le _ _)), (proj2 (Z.ltb_lt _ _)) by lia. cbn [andb].
  eapply stored_prop; [exact Hl|]. cbn. rewrite Nat2Z.id, list_lookup_fmap, Hv. done.
Qed.

Hypothesis (Hsize : js_len vs < 2 ^ 32).

Lemma stored_array_length : array_length h (Obj l) = Some (js_len vs).
Proof.
  unfold array_length. rewrite stored_length. unfold int, MAX_ARRAY_INDEX, js_len in *.
  rewrite (proj2 (Z.leb_le _ _)), (proj2 (Z.leb_le _ _)) by lia. done.
Qed.

Lemma stored_positions : positions h (Obj l) = map (fun i => (key_of_Z (Z.of_nat i), int i)) (seq 0 (length vs)).
Proof.
  unfold positions. rewrite stored_array_length. unfold js_len, seqZ. rewrite Nat2Z.id.
  transitivity (map (fun i => (key_of_Z i, Num (Int i))) (map Z.of_nat (seq 0 (length vs)))); [|by rewrite map_map].
  f_equal. apply map_ext. intros i. lia.
Qed.

Lemma stored_sized : sized (js_len (positions h (Obj l))) h = (h, Ret tt).
Proof.
  rewrite stored_positions. unfold sized, js_len in *. rewrite length_map, length_seq.
  by rewrite (proj2 (Z.leb_le _ _)), (proj2 (Z.ltb_lt _ _)) by lia.
Qed.

Lemma stored_nth i : (i < length vs)%nat -> property h (key_of_Z (Z.of_nat i)) (Obj l) = default Undefined (vs !! i).
Proof.
  intros Hi. destruct (lookup_lt_is_Some_2 vs i Hi) as [v Hv]. rewrite Hv. apply stored_item; [unfold js_len in Hsize; lia|done].
Qed.

Lemma stored_elements : elements h (Obj l) (js_len vs) = vs.
Proof.
  unfold elements. apply list_eq. intros i. rewrite list_lookup_fmap. unfold js_len in *.
  destruct (decide (i < length vs)%nat) as [Hi|Hi].
  - rewrite lookup_seqZ_lt by lia. destruct (lookup_lt_is_Some_2 vs i Hi) as [v Hv]. rewrite Hv, Z.add_0_l. cbn.
    f_equal. apply stored_item; [lia|done].
  - rewrite lookup_seqZ_ge by lia. cbn. symmetry. apply lookup_ge_None. lia.
Qed.

Lemma stored_collected : collected h (Obj l) = vs.
Proof. unfold collected. by rewrite stored_array_length, stored_elements. Qed.

Lemma stored_like : isArrayLike h (Obj l) = true.
Proof. unfold isArrayLike. by rewrite stored_array_length. Qed.
End stored.
