(* ===== verification/UnderscoreSets.v ===== *)
(** * Underscore: searching and sets

    What the searches of UnderscoreLists find, and the arrays that [_.uniq], [_.union],
    [_.intersection] and [_.difference] build: an item is the first of its kind, kinds
    being told apart by [===] with NaN a kind of its own. *)
From stdpp Require Import list.
From S2P Require Import Prelude JsString JsArray JsState JsObject JsHeap Underscore UnderscoreLists.

(** ** Searching a range *)
Lemma find_seqZ (P : Z -> bool) i n :
  match List.find P (seqZ i n) with
  | Some r => i <= r < i + n /\ P r = true /\ forall j, i <= j < r -> P j = false
  | None => forall j, i <= j < i + n -> P j = false
  end.
Proof.
  destruct (Z_le_gt_dec n 0) as [Hn|Hn]; [rewrite seqZ_nil by lia; intros j Hj; lia|].
  replace n with (Z.of_nat (Z.to_nat n)) by lia. generalize (Z.to_nat n). clear Hn. intros m. revert i.
  induction m as [|m IH]; intros i; [intros j Hj; lia|].
  rewrite seqZ_cons by lia. cbn [List.find]. replace (Z.pred (Z.of_nat (S m))) with (Z.of_nat m) by lia.
  destruct (P i) eqn:Ei; [split_and!; [lia..|done|intros j Hj; lia]|]. specialize (IH (Z.succ i)).
  destruct (List.find P _) as [r|].
  - destruct IH as (Hr & HP & Hf). split_and!; [lia..|done|]. intros j Hj.
    destruct (decide (j = i)) as [->|]; [done|]. apply Hf. lia.
  - intros j Hj. destruct (decide (j = i)) as [->|]; [done|]. apply IH. lia.
Qed.

Lemma find_reverse_seqZ (P : Z -> bool) n :
  match List.find P (reverse (seqZ 0 n)) with
  | Some r => 0 <= r < n /\ P r = true /\ forall j, r < j < n -> P j = false
  | None => forall j, 0 <= j < n -> P j = false
  end.
Proof.
  destruct (Z_le_gt_dec n 0) as [Hn|Hn]; [rewrite seqZ_nil by lia; intros j Hj; lia|].
  replace n with (Z.of_nat (Z.to_nat n)) by lia. generalize (Z.to_nat n). clear Hn. intros m.
  induction m as [|m IH]; [intros j Hj; lia|].
  replace (Z.of_nat (S m)) with (Z.of_nat m + 1) by lia. rewrite seqZ_app by lia. rewrite reverse_app.
  change (seqZ (0 + Z.of_nat m) 1) with (seqZ (0 + Z.of_nat m) (1 + 0)). rewrite seqZ_cons by lia. rewrite seqZ_nil by lia.
  cbn [reverse rev_append app List.find]. replace (0 + Z.of_nat m) with (Z.of_nat m) by lia.
  destruct (P (Z.of_nat m)) eqn:Em; [split_and!; [lia..|done|intros j Hj; lia]|].
  destruct (List.find P _) as [r|].
  - destruct IH as (Hr & HP & Hf). split_and!; [lia..|done|]. intros j Hj.
    destruct (decide (j = Z.of_nat m)) as [->|]; [done|]. apply Hf. lia.
  - intros j Hj. destruct (decide (j = Z.of_nat m)) as [->|]; [done|]. apply IH. lia.
Qed.

(** ** Kinds of items *)
Section kinds.
Context `{Realm} (h : heap).

(** [v] counts as [item]. *)
Definition found (item v : value) : bool := if strict_eq item item then strict_eq v item else isNaN h v.

Lemma isNaN_number n : isNaN h (Num n) = bool_decide (n = NaN).
Proof. destruct n as [[| |]| | | |]; cbn; unfold isNaN, isNumber, is_named; cbn; rewrite ?bool_decide_eq_true_2 by done; done. Qed.

Lemma found_trans x v w : found x v = true -> found v w = true -> found x w = true.
Proof.
  unfold found. destruct (strict_eq x x) eqn:Ex; intros Hv.
  - pose proof (strict_eq_trans _ _ _ Hv ltac:(by rewrite strict_eq_sym)) as Hvv. rewrite Hvv. intros Hw. by eapply strict_eq_trans.
  - destruct (strict_eq v v) eqn:Ev; [|done]. rewrite strict_eq_spec.
    intros [[-> _]|[[-> ->]|[-> ->]]]; [done|by rewrite isNaN_number in Hv..].
Qed.

(** [index_in], on the positions the arguments leave. *)
Lemma index_in_forward array item idx (n := v_length array)
    (i := match idx with Some idx => if 0 <=? idx then idx else Z.max (idx + n) 0 | None => 0 end) (r := index_in true h array item idx) :
  (r = -1 /\ forall j, i <= j < n -> found item (v_at array j) = false) \/
  (i <= r < n /\ found item (v_at array r) = true /\ forall j, i <= j < r -> found item (v_at array j) = false).
Proof.
  subst r. unfold index_in, found. fold n. fold i. destruct (strict_eq item item); cbn [negb].
  - replace (match idx with Some _ => n | None => n end) with n by (by destruct idx).
    pose proof (find_seqZ (fun idx => strict_eq (v_at array idx) item) i (n - i)) as Hf. destruct (List.find _ _) as [r|].
    + right. destruct Hf as (? & ? & ?). split_and!; [lia..|done|done].
    + left. split; [done|]. intros j Hj. apply Hf. lia.
  - replace (match idx with Some _ => n | None => n end) with n by (by destruct idx).
    assert (0 <= i) as Hi by (subst i; destruct idx; [case_match|]; lia).
    destruct (Z_le_gt_dec n 0) as [Hn|Hn].
    { left. replace (Z.max 0 n) with 0 by lia. split; [|intros j Hj; lia].
      rewrite seqZ_nil; [done|]. unfold relative. repeat case_match; lia. }
    replace (Z.max 0 n) with n by lia.
    replace (relative n n) with n by (unfold relative; case_match; lia).
    replace (relative n i) with (Z.min i n) by (unfold relative; case_match; lia).
    pose proof (find_seqZ (fun j => isNaN h (v_at array (Z.min i n + j))) 0 (n - Z.min i n)) as Hf. destruct (List.find _ _) as [r|].
    + right. destruct Hf as (Hr & HP & Hf). replace (Z.min i n) with i in * by lia. rewrite Z.add_comm in HP. split_and!; [lia..|done|].
      intros j Hj. specialize (Hf (j - i)). replace (i + (j - i)) with j in Hf by lia. apply Hf. lia.
    + left. split; [done|]. intros j Hj. specialize (Hf (j - i)). replace (Z.min i n + (j - i)) with j in Hf by lia. apply Hf. lia.
Qed.

Lemma index_in_backward array item idx (n := v_length array)
    (last := match idx with Some idx => if 0 <=? idx then Z.min idx (n - 1) else idx + n | None => n - 1 end) (r := index_in false h array item idx) :
  (strict_eq item item = true \/ -1 <= last) ->
  (r = -1 /\ forall j, 0 <= j <= last -> found item (v_at array j) = false) \/
  (0 <= r <= last /\ found item (v_at array r) = true /\ forall j, r < j <= last -> found item (v_at array j) = false).
Proof.
  subst r. unfold index_in, found. fold n. intros Hl.
  set (length := match idx with Some _ => _ | None => n end).
  assert (length = last + 1) as Elen by (subst length last; destruct idx; [case_match|]; lia).
  destruct (strict_eq item item); cbn [negb].
  - pose proof (find_reverse_seqZ (fun idx => strict_eq (v_at array idx) item) length) as Hf. destruct (List.find _ _) as [r|].
    + right. destruct Hf as (? & ? & Hf). split_and!; [lia..|done|]. intros j Hj. apply Hf. lia.
    + left. split; [done|]. intros j Hj. apply Hf. lia.
  - destruct Hl as [?|Hl]; [done|].
    replace (match idx with Some _ => 0 | None => 0 end) with 0 by (by destruct idx).
    destruct (Z_le_gt_dec n 0) as [Hn|Hn].
    { left. replace (Z.max 0 n) with 0 by lia. assert (last <= -1) by (subst last; destruct idx; [case_match|]; lia).
      split; [|intros j Hj; lia]. rewrite seqZ_nil; [done|]. unfold relative. repeat case_match; lia. }
    assert (last < n) by (subst last; destruct idx as [idx|]; [destruct (Z.leb_spec 0 idx)|]; lia).
    replace (Z.max 0 n) with n by lia. replace (relative n 0) with 0 by (unfold relative; case_match; lia).
    replace (relative n length) with length by (unfold relative; case_match; lia).
    replace (length - 0) with length by lia.
    pose proof (find_reverse_seqZ (fun j => isNaN h (v_at array (0 + j))) length) as Hf. destruct (List.find _ _) as [r|].
    + right. destruct Hf as (? & HP & Hf). rewrite Z.add_0_r. split_and!; [lia..|done|]. intros j Hj. apply Hf. lia.
    + left. split; [done|]. intros j Hj. apply Hf. lia.
Qed.
End kinds.

(** ** Arrays as lists *)
Section arrays.
Context `{Realm} `{Client} (h : heap).

Lemma view_of_list_at vs j : 0 <= j < js_len vs -> vs !! Z.to_nat j = Some (v_at (view_of_list vs) j).
Proof.
  intros Hj. cbn. destruct (Z.ltb_spec j 0); [lia|]. destruct (lookup_lt_is_Some_2 vs (Z.to_nat j)) as [v Hv]; [unfold js_len in *; lia|].
  by rewrite Hv.
Qed.

Lemma index_in_found array item :
  (0 <=? index_in true h array item (Some 0)) = true <-> exists j, 0 <= j < v_length array /\ found h item (v_at array j) = true.
Proof.
  destruct (index_in_forward h array item (Some 0)) as [[-> Hf]|(Hr & Hi & _)]; cbn in *.
  - split; [done|]. intros (j & Hj & E). by rewrite Hf in E.
  - rewrite Z.leb_le. split; [|lia]. intros _. by eexists.
Qed.

Lemma found_in_list vs n at_ item : (forall j, 0 <= j < n -> vs !! Z.to_nat j = Some (at_ j)) -> js_len vs = Z.max 0 n ->
  (exists j, 0 <= j < n /\ found h item (at_ j) = true) <-> existsb (found h item) vs = true.
Proof.
  intros Hat Hn. unfold js_len in Hn. rewrite existsb_exists. setoid_rewrite <- list_elem_of_In. setoid_rewrite list_elem_of_lookup. split.
  - intros (j & Hj & E). eauto.
  - intros (v & [k Hk] & E). pose proof (lookup_lt_Some _ _ _ Hk). exists (Z.of_nat k). split; [lia|].
    assert (Some v = Some (at_ (Z.of_nat k))) as [= <-]; [|done]. rewrite <- Hat by lia. by rewrite Nat2Z.id.
Qed.

Lemma includes_spec vs item : includes h vs item = existsb (found h item) vs.
Proof.
  apply eq_true_iff_eq. unfold includes. rewrite index_in_found. apply found_in_list.
  - apply view_of_list_at.
  - cbn. unfold js_len. lia.
Qed.

Lemma elements_length v n : length (elements h v n) = Z.to_nat n.
Proof. unfold elements. by rewrite length_map, length_seqZ. Qed.

(** [v[0]] to [v[n - 1]] *)
Definition items (v : value) : list value := elements h v (count h v).

Lemma array_length_count v n : array_length h v = Some n -> n = count h v.
Proof. unfold array_length, count. destruct (getLength h v) as [| | |[]| |]; try done; cbn; [case_match|]; intros E; try done; by injection E as <-. Qed.

Lemma collected_array v : isArrayLike h v = true -> collected h v = items v.
Proof.
  unfold isArrayLike, collected. rewrite bool_decide_eq_true. intros [n E]. rewrite E. apply array_length_count in E. by subst n.
Qed.

Lemma items_at v j : 0 <= j < count h v -> items v !! Z.to_nat j = Some (property h (key_of_Z j) v).
Proof.
  intros Hj. unfold items, elements. rewrite list_lookup_fmap, lookup_seqZ_lt by lia. cbn. by rewrite Z2Nat.id by lia.
Qed.

(** [_.contains] looks through the collection. *)
Lemma contains_spec obj item : contains h obj item None false = existsb (found h item) (collected h obj).
Proof.
  unfold contains. cbn [default]. destruct (isArrayLike h obj) eqn:Ea.
  - rewrite collected_array by done. apply eq_true_iff_eq. rewrite index_in_found. apply found_in_list; [apply items_at|].
    cbn. unfold items, js_len. rewrite elements_length. lia.
  - unfold collected. replace (array_length h obj) with (@None Z); [by rewrite <- includes_spec|].
    unfold isArrayLike in Ea. apply bool_decide_eq_false in Ea. destruct (array_length h obj); [|done]. exfalso. eauto.
Qed.
End arrays.

(** ** The first of each kind *)
Section firsts.
Context `{Realm} `{Client} (h : heap).

(** Pairs of a criterion and a value: the values whose criterion is new. *)
Definition firsts_by (ps : list (value * value)) : list value :=
  omap (fun i => p ← ps !! i; if existsb (found h p.1) (map fst (take i ps)) then None else Some p.2) (seq 0 (length ps)).

Definition firsts (vs : list value) : list value := firsts_by (map (fun v => (v, v)) vs).

Lemma omap_ext_in {A B} (f g : A -> option B) (l : list A) : (forall x, x ∈ l -> f x = g x) -> omap f l = omap g l.
Proof.
  induction l as [|x l IH]; intros E; [done|]. cbn. rewrite (E x) by left. rewrite IH; [done|]. intros y Hy. apply E. by right.
Qed.

Lemma firsts_by_snoc ps c v :
  firsts_by (ps ++ [(c, v)]) = firsts_by ps ++ (if existsb (found h c) (map fst ps) then [] else [v]).
Proof.
  unfold firsts_by. rewrite length_app. cbn [length]. rewrite seq_app, omap_app. f_equal.
  - apply omap_ext_in. intros i Hi%elem_of_seq. by rewrite lookup_app_l, take_app_le by lia.
  - cbn [seq omap list_omap Nat.add]. rewrite list_lookup_middle by done. cbn. rewrite take_app_length. by destruct (existsb _ _).
Qed.

Lemma firsts_snoc vs v : firsts (vs ++ [v]) = firsts vs ++ (if existsb (found h v) vs then [] else [v]).
Proof. unfold firsts. rewrite map_app. cbn [map]. rewrite firsts_by_snoc, map_map. cbn. by rewrite map_id. Qed.

(** Nothing is lost by keeping the first only. *)
Lemma existsb_firsts x vs : existsb (found h x) (firsts vs) = existsb (found h x) vs.
Proof.
  induction vs as [|v vs IH] using rev_ind; [done|]. rewrite firsts_snoc, !existsb_app, IH. cbn [existsb].
  destruct (existsb (found h v) vs) eqn:Ev; [|done]. cbn [existsb]. rewrite !orb_false_r.
  destruct (found h x v) eqn:Ex; [|by rewrite orb_false_r]. rewrite orb_true_r.
  apply existsb_exists in Ev as (w & Hw & E). apply existsb_exists. exists w. split; [done|]. by eapply found_trans.
Qed.

(** ** uniq *)
Definition new_list (vs : list value) : heap := h ++ [Object CArray (Some array_proto) (map Some vs) []].

Variables (array : value) (crit : value -> Z -> value).

(** What the loop reads at [i]. *)
Definition reading (i : Z) : value * value := let v := property h (key_of_Z i) array in (crit v i, v).
Definition readings : list (value * value) := map reading (seqZ 0 (count h array)).

Lemma getM_item i : 0 <= i < count h array -> getM array (key_of_Z i) h = (h, Ret (property h (key_of_Z i) array)).
Proof. intros Hi. unfold getM, look, get, property. destruct array; try done; cbn in Hi; lia. Qed.

Variable (f : option js_fun).
Hypothesis (Hf : match f with
                 | Some f => forall v i, f Undefined [v; Num (Int i); array] h = (h, Ret (crit v i))
                 | None => forall v i, crit v i = v
                 end).

Lemma uniq_step_pure isSorted st i : 0 <= i < count h array ->
  uniq_step isSorted f array st i h = (h, Ret (
    let '(result, (seen, last)) := st in
    let '(c, v) := reading i in
    if isSorted then (if (i =? 0) || negb (strict_eq last c) then result ++ [v] else result, (seen, c))
    else match f with
         | Some _ => if includes h seen c then st else (result ++ [v], (seen ++ [c], last))
         | None => if includes h result v then st else (result ++ [v], (seen, last))
         end)).
Proof.
  intros Hi. destruct st as [result [seen last]]. unfold uniq_step. rewrite (bind_ran _ _ _ _ _ (getM_item i Hi)). cbn [reading].
  unfold reading. destruct f as [g|]; [by rewrite (bind_ran _ _ _ _ _ (Hf _ _))|]. by rewrite Hf.
Qed.

Definition read_upto (m : nat) : list (value * value) := map reading (seqZ 0 (Z.of_nat m)).

Lemma read_upto_snoc m (v := property h (key_of_Z (Z.of_nat m)) array) : read_upto (S m) = read_upto m ++ [(crit v (Z.of_nat m), v)].
Proof.
  unfold read_upto. replace (Z.of_nat (S m)) with (Z.of_nat m + 1) by lia. rewrite seqZ_app, map_app by lia. done.
Qed.

Lemma uniq_run_snoc isSorted (m : nat) st st' : (Z.of_nat m < count h array) ->
  foldS (uniq_step isSorted f array) ([], ([], Undefined)) (seqZ 0 (Z.of_nat m)) h = (h, Ret st) ->
  uniq_step isSorted f array st (Z.of_nat m) h = (h, Ret st') ->
  foldS (uniq_step isSorted f array) ([], ([], Undefined)) (seqZ 0 (Z.of_nat (S m))) h = (h, Ret st').
Proof.
  intros Hm IH E. replace (Z.of_nat (S m)) with (Z.of_nat m + 1) by lia. rewrite seqZ_app by lia.
  rewrite foldS_app, (bind_ran _ _ _ _ _ IH).
  replace (seqZ (0 + Z.of_nat m) 1) with [Z.of_nat m] by (unfold seqZ; cbn; f_equal; lia). cbn [foldS]. by rewrite (bind_ran _ _ _ _ _ E).
Qed.

(** What a pass has after the first [m] elements. *)
Lemma uniq_unsorted (m : nat) : (Z.of_nat m <= count h array) ->
  foldS (uniq_step false f array) ([], ([], Undefined)) (seqZ 0 (Z.of_nat m)) h =
    (h, Ret (firsts_by (read_upto m), (match f with Some _ => firsts (map fst (read_upto m)) | None => [] end, Undefined))).
Proof.
  induction m as [|m IH]; intros Hm; [by destruct f|]. eapply uniq_run_snoc; [lia|apply IH; lia|].
  rewrite uniq_step_pure by lia. rewrite read_upto_snoc, map_app. cbn [reading map fst]. rewrite firsts_by_snoc, firsts_snoc.
  set (v := property h _ array). destruct f as [g|] eqn:Ef.
  - rewrite includes_spec, existsb_firsts. case_match; by rewrite ?app_nil_r.
  - rewrite includes_spec. replace (firsts_by (read_upto m)) with (firsts (map snd (read_upto m))).
    + rewrite existsb_firsts. unfold read_upto. rewrite !map_map. cbn. rewrite Hf. 
      rewrite (map_ext (fun x => crit _ x) (fun i => property h (key_of_Z i) array)) by (intros; apply Hf).
      case_match; by rewrite ?app_nil_r.
    + unfold firsts, read_upto. rewrite !map_map. f_equal. apply map_ext. intros i. unfold reading. by rewrite Hf.
Qed.

(** Equal criteria stand together, and none is NaN. *)
Definition together (cs : list value) : Prop :=
  (forall i j k a b c, (i < j < k)%nat -> cs !! i = Some a -> cs !! j = Some b -> cs !! k = Some c ->
    strict_eq a c = true -> strict_eq b c = true) /\ Num NaN ∉ cs.

Lemma together_take cs n : together cs -> together (take n cs).
Proof.
  intros [Ht Hn]. split.
  - intros i j k a b c Hk Ha Hb Hc. rewrite lookup_take_Some in *. destruct Ha, Hb, Hc. by eapply Ht.
  - intros Hi. apply Hn. rewrite <- (take_drop n cs). apply elem_of_app. by left.
Qed.

(** The last of a sorted run tells whether the next is new. *)
Lemma together_last cs c : together (cs ++ [c]) ->
  existsb (found h c) cs = match list_basics.list.last cs with Some l => strict_eq l c | None => false end.
Proof.
  intros [Ht Hn]. assert (strict_eq c c = true) as Hc.
  { rewrite strict_eq_refl, bool_decide_eq_false_2; [done|]. intros ->. apply Hn, elem_of_app. right. by left. }
  destruct cs as [|l cs _] using rev_ind; [done|]. rewrite last_snoc. apply eq_true_iff_eq. rewrite existsb_exists. split.
  - intros (v & Hv%list_elem_of_In & E). unfold found in E. rewrite Hc in E.
    apply elem_of_app in Hv as [Hv|Hv%list_elem_of_singleton]; [|by subst v]. apply list_elem_of_lookup in Hv as [k Hk].
    pose proof (lookup_lt_Some _ _ _ Hk) as Hlt.
    apply (Ht k (length cs) (S (length cs)) v l c); [lia|by rewrite !lookup_app_l by (rewrite ?length_app; lia)|..|done].
    + rewrite lookup_app_l by (rewrite length_app; cbn; lia). by rewrite list_lookup_middle.
    + rewrite list_lookup_middle; [done|]. rewrite length_app. cbn. lia.
  - intros E. exists l. split; [apply list_elem_of_In, elem_of_app; right; by left|]. unfold found. by rewrite Hc.
Qed.

Lemma uniq_sorted (m : nat) : (Z.of_nat m <= count h array) -> together (map fst (read_upto m)) ->
  foldS (uniq_step true f array) ([], ([], Undefined)) (seqZ 0 (Z.of_nat m)) h =
    (h, Ret (firsts_by (read_upto m), ([], default Undefined (list_basics.list.last (map fst (read_upto m)))))).
Proof.
  induction m as [|m IH]; intros Hm Ht; [by destruct f|].
  rewrite read_upto_snoc in Ht |- *. rewrite map_app in Ht |- *. cbn [map fst] in *.
  eapply uniq_run_snoc; [lia|apply IH; [lia|]|].
  { apply (together_take _ (length (map fst (read_upto m)))) in Ht. by rewrite take_app_length in Ht. }
  rewrite uniq_step_pure by lia. rewrite firsts_by_snoc, (together_last _ _ Ht), last_snoc. cbn [reading default].
  destruct m as [|m]; [done|]. rewrite (proj2 (Z.eqb_neq (Z.of_nat (S m)) 0)) by lia. cbn [orb].
  assert (exists l, list_basics.list.last (map fst (read_upto (S m))) = Some l) as [l ->].
  { eexists. rewrite read_upto_snoc, map_app. cbn [map fst]. by rewrite last_snoc. }
  cbn [default id]. by destruct (strict_eq _ _); rewrite ?app_nil_r.
Qed.
End firsts.

Section sets.
Context `{Realm} `{Client} (h : heap).

(** [_.uniq] of an array, by an iteratee or not: the values whose criterion is new,
    in order, as a new array; where equal criteria stand together, the fast pass for
    sorted arrays gives the same. *)
Lemma uniq_firsts (array it context : value) (f : option js_fun) (crit : value -> Z -> value)
    (Hit : if nullish it then f = None else exists g, f = Some g /\ cb (IVal it) context (Some 3%nat) h = (h, Ret g))
    (Hcrit : match f with
             | Some g => forall v i, g Undefined [v; Num (Int i); array] h = (h, Ret (crit v i))
             | None => forall v i, crit v i = v
             end)
    (rs := readings h array crit) (answer := (new_list h (firsts_by h rs), Ret (Obj (length h)))) :
  uniq array (Bool false) it context h = answer /\
  (isBoolean h it = false -> forall other, uniq array it context other h = answer) /\
  (together (map fst rs) -> uniq array (Bool true) it context h = answer).
Proof.
  assert (forall b args r, (if isBoolean h args.1.1 then (truthy args.1.1, args.1.2, args.2) else (false, args.1.1, args.1.2)) = (b, it, context) ->
    foldS (uniq_step b f array) ([], ([], Undefined)) (seqZ 0 (count h array)) h = (h, Ret (firsts_by h rs, r)) ->
    uniq array args.1.1 args.1.2 args.2 h = answer) as Huniq.
  { intros b [[a1 a2] a3] r Ea E. cbn [fst snd] in *. unfold uniq. rewrite (bind_ran _ _ _ h h) by done. rewrite Ea.
    rewrite (bind_ran _ _ _ h f).
    2:{ destruct (nullish it); [by subst f|]. destruct Hit as (g & -> & Hg). by rewrite (bind_ran _ _ _ _ _ Hg). }
    rewrite (bind_ran _ _ _ h h) by done. by rewrite (bind_ran _ _ _ _ _ E). }
  destruct (Z_le_gt_dec (count h array) 0) as [Hn|Hn].
  { assert (forall b, foldS (uniq_step b f array) ([], ([], Undefined)) (seqZ 0 (count h array)) h = (h, Ret (firsts_by h rs, ([], Undefined)))) as Hz.
    { intros b. subst rs. unfold readings. by rewrite seqZ_nil by lia. }
    split_and!.
    - by apply (Huniq false (Bool false, it, context) ([], Undefined)).
    - intros Hb other. apply (Huniq false (it, context, other) ([], Undefined)); [|done]. cbn. by rewrite Hb.
    - intros _. by apply (Huniq true (Bool true, it, context) ([], Undefined)). }
  replace (seqZ 0 (count h array)) with (seqZ 0 (Z.of_nat (Z.to_nat (count h array)))) in Huniq by (f_equal; lia).
  assert (rs = read_upto h array crit (Z.to_nat (count h array))) as Ers.
  { subst rs. unfold readings, read_upto. do 2 f_equal. lia. }
  pose proof (uniq_unsorted h array crit f Hcrit (Z.to_nat (count h array)) ltac:(lia)) as Hu. rewrite <- Ers in Hu.
  split_and!.
  - by eapply (Huniq false (Bool false, it, context)).
  - intros Hb other. eapply (Huniq false (it, context, other)); [|done]. cbn. by rewrite Hb.
  - intros Ht. eapply (Huniq true (Bool true, it, context)); [done|]. rewrite Ers in Ht |- *. apply uniq_sorted; [done|lia|done].
Qed.
End sets.

(** ** union, intersection, difference *)
Section operations.
Context `{Realm} `{Client} (h : heap).

(** What an argument contributes: the elements of an array, else nothing. *)
Definition members (v : value) : list value :=
  match array_length h v with Some n => if isArray h v || isArguments h v then elements h v n else [] | None => [] end.

Lemma flatten_members vs : flatten 1 h true true vs = Ret (concat (map members vs)).
Proof.
  cbn [flatten]. rewrite <- (app_nil_l (concat _)). generalize (@nil value).
  induction vs as [|v vs IH]; intros out; cbn [foldM map concat]; [by rewrite app_nil_r|].
  unfold members at 1. rewrite app_assoc. rewrite <- IH. 
  destruct (array_length h v); [|by rewrite app_nil_r]. by destruct (_ || _); [|rewrite app_nil_r].
Qed.

(** A new object that is no wrapped number is not taken for NaN. *)
Lemma isNaN_grow o v : (forall n, o_class o <> CNumber n) -> isNaN (h ++ [o]) v = isNaN h v.
Proof.
  intros Ho. unfold isNaN, isNumber, is_named. destruct v as [| | | | |l]; try done. do 2 f_equal. apply bool_decide_ext. cbn.
  destruct (decide (l < length h)%nat); [by rewrite heap_old|].
  replace (h !! l) with (@None object) by (symmetry; apply lookup_ge_None; lia). cbn. destruct (decide (l = length h)) as [->|].
  - rewrite heap_new. cbn. destruct (o_class o) eqn:Eo; try done. by edestruct Ho.
  - replace ((h ++ [o]) !! l) with (@None object); [done|]. symmetry. apply lookup_ge_None. rewrite length_app. cbn. lia.
Qed.

Lemma found_grow o x v : (forall n, o_class o <> CNumber n) -> found (h ++ [o]) x v = found h x v.
Proof. intros Ho. unfold found. by rewrite isNaN_grow. Qed.

Lemma existsb_ext' {A} (P Q : A -> bool) l : (forall x, P x = Q x) -> existsb P l = existsb Q l.
Proof. intros E. induction l as [|x l IH]; [done|]. cbn. by rewrite E, IH. Qed.

Lemma firsts_by_grow o ps : (forall n, o_class o <> CNumber n) -> firsts_by (h ++ [o]) ps = firsts_by h ps.
Proof.
  intros Ho. unfold firsts_by. apply omap_ext_in. intros i _. destruct (ps !! i) as [q|]; [|done]. cbn.
  by rewrite (existsb_ext' _ (found h q.1)) by (intros; by apply found_grow).
Qed.
End operations.

Section theorems.
Context `{Realm} `{Client} (h : heap).

(** The loop of [_.intersection] *)
Lemma intersection_firsts array others :
  intersection_values h array others =
  firsts h (List.filter (fun v => forallb (fun o => existsb (found h v) (collected h o)) others) (items h array)).
Proof.
  unfold intersection_values. fold (items h array). induction (items h array) as [|v vs IH] using rev_ind; [done|].
  rewrite foldl_app, IH, List.filter_app. cbn [foldl List.filter]. rewrite includes_spec, existsb_firsts.
  replace (forallb (fun other => contains h other v None false) others)
    with (forallb (fun o => existsb (found h v) (collected h o)) others).
  2:{ clear. induction others as [|o os IH]; [done|]. cbn. by rewrite contains_spec, IH. }
  destruct (forallb _ others); [|rewrite app_nil_r; by destruct (existsb _ _)]. rewrite firsts_snoc.
  destruct (existsb _ _); by rewrite ?app_nil_r.
Qed.
End theorems.

(** The set operations.  A union has the first of each kind among the elements of all
    the arrays; an intersection, the first of each kind among the elements that every
    array contains; a difference, all elements that no other array has.  The arguments
    are not changed. *)
Theorem set_operations (R : Realm) (C : Client) (h : heap) (array : value) (others : list value)
    (Hsize : js_len (concat (map (members h) (array :: others))) < 2 ^ 32) :
  (exists tmp, union_ (array :: others) h =
     ((h ++ [tmp]) ++ [Object CArray (Some array_proto) (map Some (firsts h (concat (map (members h) (array :: others))))) []],
      Ret (Obj (S (length h))))) /\
  intersection_ (array :: others) h =
    (new_list h (firsts h (List.filter (fun v => forallb (fun o => existsb (found h v) (collected h o)) others) (items h array))),
     Ret (Obj (length h))) /\
  difference_ array others h =
    (new_list h (List.filter (fun v => negb (existsb (found h v) (concat (map (members h) others)))) (collected h array)),
     Ret (Obj (length h))).
Proof.
  split_and!.
  - set (vs := concat _) in *. exists (Object CArray (Some array_proto) (map Some vs) []).
    unfold union_. rewrite (bind_ran _ _ _ h vs) by (unfold look; by rewrite flatten_members).
    rewrite (bind_ran _ _ _ (new_list h vs) (Obj (length h))) by done.
    pose proof (heap_new h (Object CArray (Some array_proto) (map Some vs) [])) as Hl. fold (new_list h vs) in Hl |- *.
    destruct (uniq_firsts (new_list h vs) (Obj (length h)) Undefined Undefined None (fun v _ => v) eq_refl ltac:(done)) as (_ & Hu & _).
    rewrite Hu by done. replace (length (new_list h vs)) with (S (length h)) by (unfold new_list; rewrite length_app; cbn; lia).
    unfold new_list at 1. do 5 f_equal. unfold firsts, new_list at 1. rewrite firsts_by_grow by done. do 2 f_equal.
    transitivity (map (fun v : value => (v, v)) (elements (new_list h vs) (Obj (length h)) (js_len vs))).
    { unfold readings, elements. rewrite map_map, (stored_count _ _ _ _ _ Hl). done. }
    by rewrite (stored_elements _ _ _ _ _ Hl).
  - unfold intersection_. rewrite (bind_ran _ _ _ h h) by done. by rewrite intersection_firsts.
  - unfold difference_. rewrite (bind_ran _ _ _ h (concat (map (members h) others))) by (unfold look; by rewrite flatten_members).
    unfold filter_. rewrite (bind_ran _ _ _ h _) by done. 
    erewrite bind_ran; [|apply (filter_values_pure h array _ (fun v => negb (existsb (found h v) (concat (map (members h) others)))))]; [done|].
    intros k i _. eexists. split; [done|]. cbn. rewrite includes_spec. by destruct (existsb _ _).
Qed.

(** Searching an array-like value.  [_.indexOf] gives the first position from the start
    asked for where the item is found ([===], or any NaN if it is NaN), [_.lastIndexOf]
    the last one up to it; they give -1 if there is none.  Negative starts count from the end. *)
Theorem searches_exact (R : Realm) (C : Client) (h : heap) (array item : value) (idx : option Z)
    (Hitem : strict_eq item item = true \/ nullish array = false) :
  let n := count h array in
  let hit j := found h item (property h (key_of_Z j) array) in
  let start := match idx with Some idx => From idx | None => Everywhere end in
  let low := match idx with Some idx => if 0 <=? idx then idx else Z.max (idx + n) 0 | None => 0 end in
  let high := match idx with Some idx => if 0 <=? idx then Z.min idx (n - 1) else idx + n | None => n - 1 end in
  (exists r, indexOf array item start h = (h, Ret r) /\
    (r = -1 /\ (forall j, low <= j < n -> hit j = false) \/
     low <= r < n /\ hit r = true /\ forall j, low <= j < r -> hit j = false)) /\
  (exists r, lastIndexOf array item start h = (h, Ret r) /\
    (strict_eq item item = true \/ -1 <= high ->
     r = -1 /\ (forall j, 0 <= j <= high -> hit j = false) \/
     0 <= r <= high /\ hit r = true /\ forall j, r < j <= high -> hit j = false)).
Proof.
  intros n hit start low high.
  assert (forall b, createIndexFinder b array item start h = (h, Ret (index_in b h (view_of h array) item idx))) as Hfind.
  { intros b. unfold createIndexFinder. rewrite (bind_ran _ _ _ h h) by done. subst start.
    assert (negb (strict_eq item item) && nullish array = false) as Hs by (destruct Hitem as [-> | ->]; [done|apply andb_false_r]).
    destruct idx; by rewrite Hs. }
  split; eexists; (split; [apply Hfind|]).
  - apply (index_in_forward h (view_of h array) item idx).
  - apply (index_in_backward h (view_of h array) item idx).
Qed.

(** Duplicates.  [_.uniq] makes a new array of the values whose kind is new, or whose
    criterion is if there is an iteratee; and what the pass for sorted arrays makes is
    the same wherever equal criteria stand together. *)
Theorem uniq_keeps_first (R : Realm) (C : Client) (h : heap) (l g : loc) (p : option loc) (vs : list value) ps (crit : value -> value)
    (Hl : h !! l = Some (Object CArray p (map Some vs) ps)) (Hsize : js_len vs < 2 ^ 32)
    (Hg : is_function h (Obj g) = true) (Hcrit : forall v i, apply g Undefined [v; Num (Int i); Obj l] h = (h, Ret (crit v))) :
  let plain := (new_list h (firsts h vs), Ret (Obj (length h))) in
  let by_g := (new_list h (firsts_by h (map (fun v => (crit v, v)) vs)), Ret (Obj (length h))) in
  uniq (Obj l) Undefined Undefined Undefined h = plain /\
  uniq (Obj l) (Obj g) Undefined Undefined h = by_g /\
  (together vs -> uniq (Obj l) (Bool true) Undefined Undefined h = plain) /\
  (together (map crit vs) -> uniq (Obj l) (Bool true) (Obj g) Undefined h = by_g).
Proof.
  intros plain by_g.
  assert (forall c, readings h (Obj l) (fun v _ => c v) = map (fun v => (c v, v)) vs) as Hr.
  { intros c. rewrite <- (stored_elements h l p vs ps Hl Hsize) at 1. unfold readings, elements. by rewrite map_map, (stored_count h l p vs ps Hl). }
  destruct (uniq_firsts h (Obj l) Undefined Undefined None (fun v _ => v)) as (_ & H1 & H2); [done..|].
  destruct (uniq_firsts h (Obj l) (Obj g) Undefined (Some (callM (Obj g))) (fun v _ => crit v)) as (_ & H3 & H4).
  { cbn [nullish]. eexists. split; [done|by apply cb_function]. }
  { intros v i. by rewrite callM_function. }
  rewrite (Hr (fun v => v)) in H1, H2. rewrite (Hr crit) in H3, H4. rewrite map_map in H2, H4. rewrite map_id in H2.
  split_and!; [by apply H1|apply H3|by apply H2|by apply H4].
  unfold is_function in Hg. apply bool_decide_eq_true in Hg. cbn in Hg. unfold isBoolean, is_named. cbn. by destruct (o_class <$> h !! g) as [[]|].
Qed.

(** ** Examples *)
Definition sets_heap : heap := demo_base ++
  [an_array [Num (Int 3); Num (Int 11); Num (Int 3); Num NaN; Num (Int 14); Num NaN];
   an_array [Num (Int 14); Num NaN; Str (js "3")]].

Lemma searches_exact_witness :
  indexOf (H := demo_realm) (H0 := demo_client) (Obj 6) (Num NaN) (From (-2)) sets_heap = (sets_heap, Ret 5).
Proof.
  destruct (proj1 (searches_exact demo_realm demo_client sets_heap (Obj 6) (Num NaN) (Some (-2)) (or_intror eq_refl))) as (r & Hr & _).
  vm_compute. reflexivity.
Defined.

Lemma uniq_keeps_first_witness :
  uniq (H := demo_realm) (H0 := demo_client) (Obj 6) Undefined Undefined Undefined sets_heap =
  (new_list (H := demo_realm) sets_heap [Num (Int 3); Num (Int 11); Num NaN; Num (Int 14)], Ret (Obj 8)).
Proof.
  destruct (uniq_keeps_first demo_realm demo_client sets_heap 6 2 (Some 1%nat)
    [Num (Int 3); Num (Int 11); Num (Int 3); Num NaN; Num (Int 14); Num NaN] []
    (fun v => match v with Num (Int z) => Num (Int (z / 10)) | _ => Num NaN end)) as (Hplain & _).
  - reflexivity.
  - reflexivity.
  - reflexivity.
  - intros v i. cbn. by destruct v as [| | |[]| |].
  - rewrite Hplain. vm_compute. reflexivity.
Defined.

Lemma set_operations_witness :
  difference_ (H := demo_realm) (H0 := demo_client) (Obj 6) [Obj 7] sets_heap =
  (new_list (H := demo_realm) sets_heap [Num (Int 3); Num (Int 11); Num (Int 3)], Ret (Obj 8)).
Proof.
  destruct (set_operations demo_realm demo_client sets_heap (Obj 6) [Obj 7]) as (_ & _ & Hd).
  - vm_compute. reflexivity.
  - rewrite Hd. vm_compute. reflexivity.
Defined.

(** ** Departures *)

(** Searching backwards for NaN from before the first element finds one: a negative
    length counts from the end once more. *)
Lemma lastIndexOf_nan_wraps :
  let h := demo_base ++ [an_array [Num NaN; Num (Int 1); Num (Int 2)]] in
  lastIndexOf (H := demo_realm) (H0 := demo_client) (Obj 6) (Num NaN) (From (-5)) h = (h, Ret 0) /\
  lastIndexOf (H := demo_realm) (H0 := demo_client) (Obj 6) (Num (Int 1)) (From (-4)) h = (h, Ret (-1)).
Proof. by vm_compute. Qed.

(** Any wrapped number is found when NaN is searched. *)
Lemma wrapped_number_is_nan :
  let h := demo_base ++ [Object (CNumber (Int 5)) (Some 0%nat) [] []] in
  isNaN h (Obj 6) = true.
Proof. by vm_compute. Qed.

(** Searching null for NaN throws; for anything else it gives -1. *)
Lemma searching_null :
  indexOf (H := demo_realm) (H0 := demo_client) Null (Num NaN) Everywhere [] =
    ([], Throw (TypeError "Array.prototype.slice called on null or undefined")) /\
  indexOf (H := demo_realm) (H0 := demo_client) Null (Num (Int 1)) Everywhere [] = ([], Ret (-1)).
Proof. by vm_compute. Qed.
