(* ===== verification/UnderscoreOrders.v ===== *)
(** * Underscore: order and chance

    [_.sortBy] sorts stably, [_.sortedIndex] finds the place of an element, [_.max] and
    [_.min] the extremes, [_.shuffle] an equally likely permutation and [_.range] a
    progression. *)
From stdpp Require Import list.
From S2P Require Import Prelude JsString JsArray JsState JsObject JsHeap Underscore UnderscoreLists UnderscoreSets.

(** ** Comparing primitive values *)
Definition primitive (v : value) : bool := negb (is_object v).

Section comparing.
Context `{Realm} `{Client}.

(** [a < b], where no code runs *)
Definition prim_less (a b : value) : bool :=
  match a, b with
  | Str s, Str t => str_ltb s t
  | _, _ => num_lt (number_of_prim a) (number_of_prim b)
  end.

Lemma to_prim_primitive v h : primitive v = true -> to_prim v h = (h, Ret v).
Proof. by destruct v. Qed.

Lemma less_than_primitive a b h : primitive a = true -> primitive b = true -> less_than a b h = (h, Ret (prim_less a b)).
Proof.
  intros Ha Hb. unfold less_than. rewrite (bind_ran _ _ _ _ _ (to_prim_primitive a h Ha)), (bind_ran _ _ _ _ _ (to_prim_primitive b h Hb)).
  done.
Qed.

Lemma greater_than_primitive a b h : primitive a = true -> primitive b = true -> greater_than a b h = (h, Ret (prim_less b a)).
Proof.
  intros Ha Hb. unfold greater_than. rewrite (bind_ran _ _ _ _ _ (to_prim_primitive a h Ha)), (bind_ran _ _ _ _ _ (to_prim_primitive b h Hb)).
  destruct a, b; done.
Qed.

(** *** Sorting with a comparison that leaves the heap alone *)
Lemma insertM_pure {A} (P : A -> Prop) (cmp : A -> A -> stM heap Z) (c : A -> A -> Z) x l h :
  (forall a b, P a -> P b -> cmp a b h = (h, Ret (c a b))) -> P x -> Forall P l ->
  insertM cmp x l h = (h, Ret (insert_by c x l)).
Proof.
  intros Hc Hx HP. induction HP as [|y l Hy HP IH]; [done|]. cbn [insertM insert_by].
  rewrite (bind_ran _ _ _ _ _ (Hc x y Hx Hy)). destruct (c x y <? 0); [done|]. by rewrite (bind_ran _ _ _ _ _ IH).
Qed.

Lemma sortM_pure {A} (P : A -> Prop) (cmp : A -> A -> stM heap Z) (c : A -> A -> Z) l h :
  (forall a b, P a -> P b -> cmp a b h = (h, Ret (c a b))) -> Forall P l ->
  sortM cmp l h = (h, Ret (sort_by c l)).
Proof.
  intros Hc HP. induction l as [|x l IH] using rev_ind; [done|]. apply Forall_app in HP as [HP Hx%Forall_inv].
  unfold sortM, sort_by. rewrite foldS_app, foldl_app, (bind_ran _ _ _ _ _ (IH HP)). cbn [foldS foldl].
  rewrite (bind_ran _ _ _ h (insert_by c x (sort_by c l))); [done|]. apply (insertM_pure P); [done..|]. by rewrite sort_by_perm.
Qed.

(** ** sortBy *)

(** Criteria that can be ordered: numbers or texts, perhaps with undefined among them. *)
Definition numeric (v : value) : Prop := match v with Num n => n <> NaN | Undefined => True | _ => False end.
Definition textual (v : value) : Prop := match v with Str _ | Undefined => True | _ => False end.

(** Undefined comes last. *)
Definition before (a b : value) : bool :=
  match a, b with
  | Undefined, _ => false
  | _, Undefined => true
  | _, _ => prim_less a b
  end.

Definition compare_pure (x y : ranked) : Z :=
  let a := r_criteria x in
  let b := r_criteria y in
  let tie := number_order (number_of_prim (r_index x)) (number_of_prim (r_index y)) in
  if strict_eq a b then tie else if prim_less b a || isUndefined a then 1 else if prim_less a b || isUndefined b then -1 else tie.

Lemma compare_ranked_primitive x y h : primitive (r_criteria x) = true -> primitive (r_criteria y) = true ->
  compare_ranked x y h = (h, Ret (compare_pure x y)).
Proof.
  intros Hx Hy. unfold compare_ranked, compare_pure. case_match; [done|].
  rewrite (bind_ran _ _ _ _ _ (greater_than_primitive _ _ h Hx Hy)). case_match; [done|].
  rewrite (bind_ran _ _ _ _ _ (less_than_primitive _ _ h Hx Hy)). by case_match.
Qed.
End comparing.

(** The order of numbers and of texts *)
Lemma num_lt_irrefl a : num_lt a a = false.
Proof. destruct a; cbn; lia || done. Qed.

Lemma num_lt_trans a b c : num_lt a b = true -> num_lt b c = true -> num_lt a c = true.
Proof. destruct a, b, c; cbn; intros; bool_props; try done; lia. Qed.

Lemma num_lt_total a b : a <> NaN -> b <> NaN -> num_lt a b = true \/ num_lt b a = true \/ strict_eq (Num a) (Num b) = true.
Proof.
  intros Ha Hb. rewrite strict_eq_spec. destruct a as [x| | | |], b as [y| | | |]; try done; cbn [num_lt]; auto.
  - destruct (Z.lt_total x y) as [?|[->|?]]; [left; lia|right; right; by left|right; left; lia].
  - destruct (Z.lt_total x 0) as [?|[->|?]]; [left; lia|right; right; right; by left|right; left; lia].
  - destruct (Z.lt_total y 0) as [?|[->|?]]; [right; left; lia|right; right; right; by right|left; lia].
Qed.

Lemma num_lt_strict_eq a b : strict_eq (Num a) (Num b) = true -> num_lt a b = false.
Proof.
  rewrite strict_eq_spec. intros [[[= ->] _]|[[[= ->] [= ->]]|[[= ->] [= ->]]]]; [apply num_lt_irrefl|done..].
Qed.

Lemma num_lt_asym a b : num_lt a b = true -> num_lt b a = false.
Proof. intros E. destruct (num_lt b a) eqn:E2; [|done]. pose proof (num_lt_trans _ _ _ E E2). by rewrite num_lt_irrefl in *. Qed.

Section ordering.
Context `{Realm} `{Client}.

(** Criteria of one kind are in a total order, up to [===]. *)
Definition one_kind (l : list value) : Prop := Forall numeric l \/ Forall textual l.

Lemma before_irrefl a : before a a = false.
Proof. destruct a; try done; cbn [before prim_less]; apply num_lt_irrefl || apply str_ltb_irrefl. Qed.

Lemma before_asym a b : before a b = true -> before b a = false.
Proof. destruct a, b; try done; cbn [before prim_less]; apply num_lt_asym || apply str_ltb_asym. Qed.

Lemma before_trans a b c : one_kind [a; b; c] -> before a b = true -> before b c = true -> before a c = true.
Proof.
  intros [Hk|Hk]; inversion_clear Hk as [|? ? Ha Hk']; inversion_clear Hk' as [|? ? Hb Hk]; inversion_clear Hk as [|? ? Hc _];
    destruct a, b, c; try done; cbn; [apply num_lt_trans|apply str_ltb_trans].
Qed.

Lemma before_total a b : one_kind [a; b] -> before a b = true \/ before b a = true \/ strict_eq a b = true.
Proof.
  intros [Hk|Hk]; inversion_clear Hk as [|? ? Ha Hk']; inversion_clear Hk' as [|? ? Hb _]; destruct a, b; try done; cbn [before]; auto.
  - by apply num_lt_total.
  - cbn. destruct (str_ltb_total s s0) as [->|[?|?]]; auto. right. right. by apply bool_decide_eq_true.
Qed.

Lemma strict_eq_before a b : strict_eq a b = true -> before a b = false.
Proof.
  rewrite strict_eq_spec. intros [[-> _]|[[-> ->]|[-> ->]]]; [apply before_irrefl|done..].
Qed.

Lemma strict_eq_before_l a b c : strict_eq a b = true -> before a c = before b c.
Proof.
  rewrite strict_eq_spec. intros [[-> _]|[[-> ->]|[-> ->]]]; [done|..]; destruct c as [| |[]|n|s|]; try done;
    cbn [before prim_less number_of_prim]; try (destruct n; done); by destruct (if bool_decide _ then _ else _).
Qed.

(** Not coming before is an order as well. *)
Lemma before_negative a b c : one_kind [a; b; c] -> before a b = false -> before b c = false -> before a c = false.
Proof.
  intros Hk E1 E2. destruct (before a c) eqn:E; [|done].
  assert (one_kind [a; b] /\ one_kind [b; a; c]) as [Hab Hbac].
  { unfold one_kind in *. rewrite !Forall_cons, !Forall_nil in *. tauto. }
  destruct (before_total a b Hab) as [?|[Hba|Hs]]; [congruence| |].
  - pose proof (before_trans b a c Hbac Hba E). congruence.
  - rewrite (strict_eq_before_l a b c Hs) in E. congruence.
Qed.

(** The comparison of [sortBy]: by the criteria, and by the indices where they are equal. *)
Lemma compare_before x y : one_kind [r_criteria x; r_criteria y] ->
  compare_pure x y =
  if before (r_criteria x) (r_criteria y) then -1 else if before (r_criteria y) (r_criteria x) then 1
  else number_order (number_of_prim (r_index x)) (number_of_prim (r_index y)).
Proof.
  intros Hk. unfold compare_pure. set (tie := number_order _ _). generalize dependent (r_criteria y). generalize (r_criteria x). intros a b Hk.
  destruct (strict_eq a b) eqn:E.
  - rewrite (strict_eq_before _ _ E), strict_eq_before; [done|]. by rewrite strict_eq_sym.
  - destruct Hk as [Hk|Hk]; inversion_clear Hk as [|? ? Ha Hk']; inversion_clear Hk' as [|? ? Hb _]; destruct a, b; try done.
    + by rewrite orb_true_r.
    + by destruct n.
    + unfold before, isUndefined. rewrite !bool_decide_eq_false_2, !orb_false_r by done. cbn [prim_less].
      cbn [number_of_prim]. destruct (num_lt n n0) eqn:En; [by rewrite (num_lt_asym _ _ En)|done].
    + by rewrite orb_true_r.
    + cbn [prim_less]. by destruct (number_of_prim (Str s)).
    + unfold before, isUndefined. rewrite !bool_decide_eq_false_2, !orb_false_r by done. cbn [prim_less].
      destruct (str_ltb s s0) eqn:En; [by rewrite (str_ltb_asym _ _ En)|done].
Qed.
End ordering.

(** ** Sorting by a criterion *)
Lemma StronglySorted_map {A B} (T : B -> B -> Prop) (f : A -> B) l :
  StronglySorted T (map f l) -> StronglySorted (fun x y => T (f x) (f y)) l.
Proof.
  induction l as [|x l IH]; intros Hs; [constructor|]. inversion_clear Hs as [|? ? Hs' Hx]. constructor; [by apply IH|].
  by rewrite Forall_map in Hx.
Qed.

Lemma StronglySorted_weaken {A} (T U : A -> A -> Prop) l :
  (forall x y, x ∈ l -> y ∈ l -> T x y -> U x y) -> StronglySorted T l -> StronglySorted U l.
Proof.
  intros Hw Hs. induction Hs as [|x l Hs IH Hx]; constructor.
  - apply IH. intros y z Hy Hz. apply Hw; by right.
  - rewrite Forall_forall in *. intros y Hy. apply Hw; [left|by right|by apply Hx].
Qed.

Section sorting.
Context `{Realm} `{Client} (vs : list value) (crit : value -> Z -> value).

Definition nth_value (i : nat) : value := default Undefined (vs !! i).
Definition criterion (i : nat) : value := crit (nth_value i) (Z.of_nat i).
Definition entry (i : nat) : ranked := Ranked (nth_value i) (int i) (criterion i).

(** [i] comes before [j]: its criterion does, or neither does and it was first. *)
Definition in_order (i j : nat) : Prop :=
  before (criterion i) (criterion j) = true \/
  (before (criterion j) (criterion i) = false /\ (i < j)%nat).

Hypothesis (Hkind : one_kind (map criterion (seq 0 (length vs)))).

Lemma criterion_kinds ks : Forall (fun i => (i < length vs)%nat) ks -> one_kind (map criterion ks).
Proof.
  intros Hi. assert (forall K : value -> Prop, Forall K (map criterion (seq 0 (length vs))) -> Forall K (map criterion ks)) as Hf.
  { intros K. rewrite !Forall_map, !Forall_forall. intros HK i Hx. apply HK, elem_of_seq. rewrite Forall_forall in Hi. specialize (Hi i Hx). lia. }
  destruct Hkind as [Hk|Hk]; [left|right]; by apply Hf.
Qed.

Lemma kinds2 i j : (i < length vs)%nat -> (j < length vs)%nat -> one_kind [criterion i; criterion j].
Proof. intros. by apply (criterion_kinds [i; j]); repeat constructor. Qed.

Lemma number_order_int i j : number_order (number_of_prim (int i)) (number_of_prim (int j)) = if (i <? j)%nat then -1 else if (j <? i)%nat then 1 else 0.
Proof.
  unfold number_order, int. cbn [num_lt number_of_prim].
  destruct (Z.ltb_spec (Z.of_nat i) (Z.of_nat j)), (Z.ltb_spec (Z.of_nat j) (Z.of_nat i)), (Nat.ltb_spec i j), (Nat.ltb_spec j i); lia.
Qed.

Lemma compare_entry i j : (i < length vs)%nat -> (j < length vs)%nat -> compare_pure (entry i) (entry j) < 0 <-> in_order i j.
Proof.
  intros Hi Hj. rewrite compare_before by (by apply kinds2). cbn [r_criteria r_index entry]. rewrite number_order_int. unfold in_order.
  destruct (before (criterion i) (criterion j)) eqn:E1; [split; [auto|lia]|].
  destruct (before (criterion j) (criterion i)) eqn:E2; [split; [lia|intros [?|[? ?]]; done]|].
  destruct (Nat.ltb_spec i j); [split; [auto|lia]|]. destruct (Nat.ltb_spec j i); split; try lia; intros [?|[? ?]]; (done || lia).
Qed.

Lemma in_order_trans i j k : (i < length vs)%nat -> (j < length vs)%nat -> (k < length vs)%nat ->
  in_order i j -> in_order j k -> in_order i k.
Proof.
  intros Hi Hj Hk.
  assert (forall a b c, (a < length vs)%nat -> (b < length vs)%nat -> (c < length vs)%nat -> one_kind [criterion a; criterion b; criterion c]) as H3.
  { intros a b c ? ? ?. by apply (criterion_kinds [a; b; c]); repeat constructor. }
  unfold in_order. intros [E1|[E1 H1]] [E2|[E2 H2]].
  - left. by eapply before_trans; [apply (H3 i j k)|..].
  - destruct (before (criterion i) (criterion k)) eqn:E; [by left|]. by rewrite (before_negative _ _ _ (H3 i k j Hi Hk Hj) E E2) in E1.
  - destruct (before (criterion i) (criterion k)) eqn:E; [by left|]. by rewrite (before_negative _ _ _ (H3 j i k Hj Hi Hk) E1 E) in E2.
  - right. split; [by apply (before_negative _ _ _ (H3 k j i Hk Hj Hi))|lia].
Qed.

Definition is_entry (x : ranked) : Prop := exists i, (i < length vs)%nat /\ x = entry i.

Lemma entry_inj i j : entry i = entry j -> i = j.
Proof. intros [= _ E _]. lia. Qed.

(** Sorting the entries puts the positions in order. *)
Lemma sort_entries :
  exists perm, sort_by compare_pure (map entry (seq 0 (length vs))) = map entry perm /\
    perm ≡ₚ seq 0 (length vs) /\ StronglySorted in_order perm.
Proof.
  destruct (Permutation_map_inv entry (seq 0 (length vs)) (sort_by_perm compare_pure _)) as (perm & Hperm & Hp).
  exists perm. split; [done|]. split; [by symmetry|].
  assert (Forall (fun i => (i < length vs)%nat) perm) as Hlt.
  { rewrite <- Hp. apply Forall_forall. intros i Hi%elem_of_seq. lia. }
  assert (StronglySorted (fun x y => compare_pure x y < 0) (map entry perm)) as Hs.
  { rewrite <- Hperm. apply (sort_by_strongly is_entry).
    - intros a b c (i & Hi & ->) (j & Hj & ->) (k & Hk & ->). rewrite !compare_entry by done. by apply in_order_trans.
    - intros a b (i & Hi & ->) (j & Hj & ->) Hne. rewrite !compare_entry by done. unfold in_order.
      destruct (before (criterion i) (criterion j)) eqn:E1; [auto|]. destruct (before (criterion j) (criterion i)) eqn:E2; [auto|].
      assert (i <> j) by congruence. destruct (Nat.lt_total i j) as [?|[?|?]]; [auto|done|auto].
    - apply Forall_forall. intros x (i & -> & Hi%elem_of_seq)%list_elem_of_fmap. exists i. split; [lia|done].
    - apply (NoDup_fmap_2_strong entry); [|apply NoDup_seq]. intros i j _ _. apply entry_inj. }
  apply StronglySorted_map in Hs. eapply StronglySorted_weaken; [|exact Hs]. cbn. intros i j Hi Hj.
  rewrite Forall_forall in Hlt. apply compare_entry; by apply Hlt.
Qed.
End sorting.

(** C9: [_.sortBy] of an array whose criteria are numbers or texts, or missing: the values
    in the order of their criteria, undefined last, and in their old order where the
    criteria agree. *)
Theorem sortBy_sorts (R : Realm) (C : Client) (h : heap) (l g : loc) (p : option loc) (vs : list value) ps (crit : value -> Z -> value)
    (Hl : h !! l = Some (Object CArray p (map Some vs) ps)) (Hsize : js_len vs < 2 ^ 32) (Hg : is_function h (Obj g) = true)
    (Hcrit : forall v i, apply g Undefined [v; Num (Int i); Obj l] h = (h, Ret (crit v i)))
    (Hkind : one_kind (map (criterion vs crit) (seq 0 (length vs)))) :
  exists perm, perm ≡ₚ seq 0 (length vs) /\ StronglySorted (in_order vs crit) perm /\
    sortBy (Obj l) (IVal (Obj g)) Undefined h =
      (h ++ [Object CArray (Some array_proto) (map (fun i => vs !! i) perm) []], Ret (Obj (length h))).
Proof.
  destruct (sort_entries vs crit Hkind) as (perm & Hsort & Hperm & Hord). exists perm. split_and!; [done..|].
  unfold sortBy. rewrite (bind_ran _ _ _ _ _ (cb_function h g _ Hg)), (bind_ran _ _ _ h h) by done.
  rewrite (bind_ran _ _ _ _ _ (stored_sized h l p vs ps Hl Hsize)).
  rewrite (bind_ran _ _ _ h (map (entry vs crit) (seq 0 (length vs)))).
  2:{ rewrite (visit_pure h (Obj l) _ (fun rs v i => rs ++ [Ranked v i (crit v match i with Num (Int i) => i | _ => 0 end)])).
      - rewrite (stored_positions h l p vs ps Hl Hsize), foldl_map.
        rewrite (foldl_snoc (fun i => Ranked (property h (key_of_Z (Z.of_nat i)) (Obj l)) (int i) (crit (property h (key_of_Z (Z.of_nat i)) (Obj l)) (Z.of_nat i))) _ []).
        cbn [app]. do 2 f_equal. apply map_ext_in. intros i Hi%in_seq. unfold entry, criterion, nth_value.
        by rewrite (stored_nth h l p vs ps Hl Hsize) by lia.
      - intros rs k i Hp. rewrite (stored_positions h l p vs ps Hl Hsize) in Hp. apply list_elem_of_fmap in Hp as (j & [= -> ->] & _).
        rewrite (bind_ran _ _ _ h (crit (property h (key_of_Z (Z.of_nat j)) (Obj l)) (Z.of_nat j))); [done|].
        rewrite callM_function by done. apply Hcrit. }
  rewrite (bind_ran _ _ _ h (map (entry vs crit) perm)).
  2:{ rewrite (sortM_pure (fun x => primitive (r_criteria x) = true) _ compare_pure); [by rewrite Hsort|intros x y Hx Hy; by apply compare_ranked_primitive|].
      rewrite Forall_map. apply Forall_forall. intros i Hi. cbn. destruct Hkind as [Hk|Hk]; rewrite Forall_map, Forall_forall in Hk; specialize (Hk i Hi); by destruct (criterion vs crit i). }
  unfold new_array, alloc. do 5 f_equal. rewrite !map_map. apply map_ext_in. intros i Hi. cbn. unfold nth_value.
  destruct (lookup_lt_is_Some_2 vs i) as [v Hv]; [|by rewrite Hv].
  apply list_elem_of_In in Hi. rewrite Hperm in Hi. apply elem_of_seq in Hi. lia.
Qed.

(** ** Searching a sorted array *)
Section searching.
Context `{Realm} `{Client} (h : heap) (l : loc) (p : option loc) (vs : list value) (ps : list (jsstr * (value * bool))).
Context (f : js_fun) (crit : value -> value) (t : value).
Hypothesis (Hl : h !! l = Some (Object CArray p (map Some vs) ps)) (Hsize : js_len vs < 2 ^ 32).
Hypothesis (Hf : forall v, f Undefined [v] h = (h, Ret (crit v))).
Hypothesis (Hprim : Forall (fun v => primitive (crit v) = true) vs) (Ht : primitive t = true).

(** The element at [i] belongs before [t]. *)
Definition smaller (i : Z) : bool := prim_less (crit (nth_value vs (Z.to_nat i))) t.

Lemma sortedIndex_step i : 0 <= i < js_len vs ->
  (v ← getM (Obj l) (key_of_Z i); c ← f Undefined [v]; less_than c t) h = (h, Ret (smaller i)).
Proof.
  intros Hi. unfold js_len in Hi. rewrite (bind_ran _ _ _ h (nth_value vs (Z.to_nat i))).
  2:{ unfold getM, look, get. cbn [nullish]. do 2 f_equal. rewrite <- (Z2Nat.id i) at 1 by lia. apply (stored_nth h l p vs ps Hl Hsize). lia. }
  rewrite (bind_ran _ _ _ _ _ (Hf _)). apply less_than_primitive; [|done].
  destruct (lookup_lt_is_Some_2 vs (Z.to_nat i)) as [v Hv]; [lia|]. unfold nth_value. rewrite Hv. cbn.
  rewrite Forall_forall in Hprim. by eapply Hprim, list_elem_of_lookup_2.
Qed.

(** Every round keeps a smaller element before the range and none after it. *)
Lemma sortedIndex_loop_found fuel low high : 0 <= low <= high -> high <= js_len vs ->
  (low < high -> Z.log2 (high - low) + 2 <= Z.of_nat fuel) -> (0 < fuel)%nat ->
  (low = 0 \/ smaller (low - 1) = true) -> (high = js_len vs \/ smaller high = false) ->
  exists r, sortedIndex_loop fuel f (Obj l) t low high h = (h, Ret r) /\ low <= r <= high /\
    (r = 0 \/ smaller (r - 1) = true) /\ (r = js_len vs \/ smaller r = false).
Proof.
  revert low high. induction fuel as [|fuel IH]; intros low high Hlow Hhigh Hfuel Hpos HL HH; [lia|]. cbn [sortedIndex_loop].
  destruct (Z.ltb_spec low high) as [Hlt|Hge].
  2:{ exists low. assert (high = low) as -> by lia. split_and!; [done|lia..|done|done]. }
  specialize (Hfuel Hlt). set (mid := (low + high) / 2).
  assert (low <= mid < high) as Hmid by (subst mid; split; [apply Z.div_le_lower_bound|apply Z.div_lt_upper_bound]; lia).
  assert (high - mid - 1 <= (high - low) / 2 /\ mid - low <= (high - low) / 2) as [Hw1 Hw2].
  { subst mid. pose proof (Z.div_mod (low + high) 2). pose proof (Z.mod_pos_bound (low + high) 2).
    pose proof (Z.div_mod (high - low) 2). pose proof (Z.mod_pos_bound (high - low) 2). lia. }
  assert (forall w, 0 < w -> w <= (high - low) / 2 -> Z.log2 w + 2 <= Z.of_nat fuel) as Hlog.
  { intros w Hw Hle. pose proof (Z.log2_double w Hw).
    pose proof (Z.log2_le_mono (2 * w) (high - low)) as Hm. pose proof (Z.div_mod (high - low) 2).
    pose proof (Z.mod_pos_bound (high - low) 2). lia. }
  pose proof (sortedIndex_step mid ltac:(lia)) as Hs. unfold mbind, stM_bind in Hs |- *.
  destruct (getM (Obj l) (key_of_Z mid) h) as [h1 [v|e|]]; [|done..].
  destruct (f Undefined [v] h1) as [h2 [c|e|]]; [|done..]. rewrite Hs. pose proof (Z.log2_nonneg (high - low)).
  destruct (smaller mid) eqn:Em.
  - assert (smaller (mid + 1 - 1) = true) as Em' by (by replace (mid + 1 - 1) with mid by lia).
    destruct (IH (mid + 1) high ltac:(lia) Hhigh (fun Hw => Hlog (high - (mid + 1)) ltac:(lia) ltac:(lia)) ltac:(lia) (or_intror Em') HH)
      as (r & Hr & Hb & Hrest).
    exists r. split; [exact Hr|]. split; [lia|done].
  - destruct (IH low mid ltac:(lia) ltac:(lia) (fun Hw => Hlog (mid - low) ltac:(lia) ltac:(lia)) ltac:(lia) HL (or_intror Em)) as (r & Hr & Hb & Hrest).
    exists r. split; [exact Hr|]. split; [lia|done].
Qed.

Lemma sortedIndex_found obj it context :
  cb it context (Some 1%nat) h = (h, Ret f) -> crit obj = t ->
  exists r, sortedIndex (Obj l) obj it context h = (h, Ret r) /\ 0 <= r <= js_len vs /\
    (r = 0 \/ smaller (r - 1) = true) /\ (r = js_len vs \/ smaller r = false).
Proof.
  intros Hcb Hobj. unfold sortedIndex. rewrite (bind_ran _ _ _ _ _ Hcb), (bind_ran _ _ _ _ _ (Hf obj)), Hobj, (bind_ran _ _ _ h h) by done.
  rewrite (stored_count h l p vs ps Hl). pose proof (Z.log2_nonneg (js_len vs)).
  assert (0 <= js_len vs) by (unfold js_len; lia). apply sortedIndex_loop_found; [lia..|rewrite Z.sub_0_r; lia|lia|by left|by left].
Qed.

(** Where what is smaller stands first, the place divides the array. *)
Lemma boundary_divides r : 0 <= r <= js_len vs ->
  (r = 0 \/ smaller (r - 1) = true) -> (r = js_len vs \/ smaller r = false) ->
  (forall i j, 0 <= i < j -> j < js_len vs -> smaller j = true -> smaller i = true) ->
  forall i, 0 <= i < js_len vs -> smaller i = (i <? r).
Proof.
  intros Hr H1 H2 Hmono i Hi. destruct (Z.ltb_spec i r).
  - destruct H1 as [?|H1]; [lia|]. destruct (decide (i = r - 1)) as [->|]; [done|]. by apply (Hmono i (r - 1)); try lia.
  - destruct H2 as [?|H2]; [lia|]. destruct (decide (i = r)) as [->|]; [done|]. destruct (smaller i) eqn:E; [|done].
    rewrite (Hmono r i) in H2; [done|lia..|done].
Qed.
End searching.

(** [_.sortedIndex] returns, after at most [log2 n + 1] comparisons, a place with a
    smaller element before it and none after it; where all the smaller elements stand
    first it is the place that parts them from the others. *)
Theorem sortedIndex_place (R : Realm) (C : Client) (h : heap) (l g : loc) (p : option loc) (vs : list value) ps (crit : value -> value) (obj : value)
    (Hl : h !! l = Some (Object CArray p (map Some vs) ps)) (Hsize : js_len vs < 2 ^ 32) (Hg : is_function h (Obj g) = true)
    (Hcrit : forall v, apply g Undefined [v] h = (h, Ret (crit v)))
    (Hprim : Forall (fun v => primitive (crit v) = true) (obj :: vs))
    (small := smaller vs crit (crit obj)) :
  exists r, sortedIndex (Obj l) obj (IVal (Obj g)) Undefined h = (h, Ret r) /\ 0 <= r <= js_len vs /\
    (r = 0 \/ small (r - 1) = true) /\ (r = js_len vs \/ small r = false) /\
    ((forall i j, 0 <= i < j -> j < js_len vs -> small j = true -> small i = true) ->
     forall i, 0 <= i < js_len vs -> small i = (i <? r)).
Proof.
  apply Forall_cons in Hprim as [Ho Hprim].
  destruct (sortedIndex_found h l p vs ps (callM (Obj g)) crit (crit obj) Hl Hsize) with (obj := obj) (it := IVal (Obj g)) (context := Undefined)
    as (r & Hr & Hb & H1 & H2); try done.
  - intros v. rewrite callM_function by done. apply Hcrit.
  - by apply cb_function.
  - exists r. split_and!; try done; [lia..|]. intros Hmono. by apply boundary_divides.
Qed.

(** On an array of integers in ascending order, searching with the sorted flag finds
    what searching from the start finds. *)
Theorem indexOf_sorted (R : Realm) (C : Client) (h : heap) (l : loc) (p : option loc) (zs : list Z) ps (z : Z)
    (Hl : h !! l = Some (Object CArray p (map Some (map (fun z => Num (Int z)) zs)) ps)) (Hsize : js_len zs < 2 ^ 32 - 1)
    (Hsorted : StronglySorted Z.le zs) (Hend : property h (key_of_Z (js_len zs)) (Obj l) = Undefined) :
  indexOf (Obj l) (Num (Int z)) InOrder h = indexOf (Obj l) (Num (Int z)) Everywhere h.
Proof.
  set (vs := map (fun z => Num (Int z)) zs) in *. assert (js_len vs = js_len zs) as Hlen by (unfold js_len, vs; by rewrite length_map).
  assert (0 <= js_len zs) by (unfold js_len; lia).
  unfold indexOf, createIndexFinder. rewrite !(bind_ran _ _ _ h h) by done.
  rewrite (stored_count h l p vs ps Hl), !(strict_eq_refl (Num (Int z))), !bool_decide_eq_false_2 by done. cbn [negb andb].
  destruct (Z.eqb_spec (js_len vs) 0) as [|Hne]; [done|]. cbn [negb].
  destruct (sortedIndex_found h l p vs ps identity (fun v => v) (Num (Int z)) Hl ltac:(lia)) with (obj := Num (Int z)) (it := IVal Undefined) (context := Undefined)
    as (r & Hr & Hb & H1 & H2); try done.
  { unfold vs. rewrite Forall_map. by apply Forall_forall. }
  rewrite (bind_ran _ _ _ _ _ Hr). rewrite (bind_ran _ _ _ h (property h (key_of_Z r) (Obj l))) by done.
  assert (forall i zi, zs !! Z.to_nat i = Some zi -> 0 <= i -> property h (key_of_Z i) (Obj l) = Num (Int zi) /\ smaller vs (fun v => v) (Num (Int z)) i = (zi <? z)) as Hat.
  { intros i zi Hi Hi0. pose proof (lookup_lt_Some _ _ _ Hi). assert (vs !! Z.to_nat i = Some (Num (Int zi))) as Hv by (unfold vs; by rewrite list_lookup_fmap, Hi).
    split; [|unfold smaller, nth_value; by rewrite Hv].
    rewrite <- (Z2Nat.id i) by lia. apply (stored_item h l p vs ps Hl); [unfold js_len in *; lia|done]. }
  assert (forall i, 0 <= i < js_len vs -> exists zi, zs !! Z.to_nat i = Some zi) as Hex.
  { intros i Hi. apply lookup_lt_is_Some_2. unfold js_len in *. lia. }
  assert (forall i j zi zj, 0 <= i < j -> zs !! Z.to_nat i = Some zi -> zs !! Z.to_nat j = Some zj -> zi <= zj) as Hmono.
  { intros i j zi zj Hij Hi Hj. eapply (StronglySorted_lookup Z.le zs); [done| |exact Hi|exact Hj]. lia. }
  assert (forall i, 0 <= i < js_len vs -> smaller vs (fun v => v) (Num (Int z)) i = (i <? r)) as Hdiv.
  { apply boundary_divides; [done..|]. intros i j Hij Hj Hs. destruct (Hex i) as [zi Hi]; [lia|]. destruct (Hex j) as [zj Hzj]; [lia|].
    destruct (Hat i zi) as [_ Ei]; [done|lia|]. destruct (Hat j zj) as [_ Ej]; [done|lia|]. rewrite Ej in Hs. rewrite Ei.
    pose proof (Hmono i j zi zj ltac:(lia) Hi Hzj). lia. }
  assert (forall i, 0 <= i < js_len vs -> i <> r -> found h (Num (Int z)) (property h (key_of_Z i) (Obj l)) = true ->
    r < i /\ found h (Num (Int z)) (property h (key_of_Z r) (Obj l)) = true) as Honly.
  { intros i Hi Hne' E. destruct (Hex i Hi) as [zi Hzi]. destruct (Hat i zi Hzi ltac:(lia)) as [Hp Es]. rewrite (Hdiv i Hi) in Es.
    unfold found in E |- *. rewrite strict_eq_refl, bool_decide_eq_false_2 in E |- * by done. cbn [negb] in *.
    rewrite Hp, strict_eq_spec in E. destruct E as [[[= ->] _]|[[_ ?]|[? _]]]; [|done..]. split; [lia|].
    destruct (Hex r) as [zr Hzr]; [lia|]. destruct (Hat r zr Hzr ltac:(lia)) as [-> Er]. rewrite (Hdiv r ltac:(lia)) in Er.
    pose proof (Hmono r i zr z ltac:(lia) Hzr Hzi). replace zr with z by lia. by rewrite strict_eq_refl, bool_decide_eq_false_2. }
  assert (strict_eq (property h (key_of_Z r) (Obj l)) (Num (Int z)) = found h (Num (Int z)) (property h (key_of_Z r) (Obj l))) as ->.
  { unfold found. by rewrite (strict_eq_refl (Num (Int z))), bool_decide_eq_false_2. }
  do 2 f_equal.
  assert (r = js_len vs -> found h (Num (Int z)) (property h (key_of_Z r) (Obj l)) = false) as Hout.
  { intros ->. rewrite Hlen, Hend. unfold found. by rewrite strict_eq_refl, bool_decide_eq_false_2. }
  destruct (index_in_forward h (view_of h (Obj l)) (Num (Int z)) None) as [[-> Hf]|(Hr0 & Hi & Hf)];
    cbn [v_length view_of v_at] in *; rewrite (stored_count h l p vs ps Hl) in *.
  - destruct (found h (Num (Int z)) (property h (key_of_Z r) (Obj l))) eqn:Eh; [|done].
    assert (r <> js_len vs) by (intros E; by specialize (Hout E)). rewrite Hf in Eh; [done|lia].
  - set (r0 := index_in _ _ _ _ _) in *. destruct (decide (r0 = r)) as [Er|Hne'].
    + by rewrite <- Er, Hi.
    + destruct (Honly r0 Hr0 Hne' Hi) as [Hlt Ehit]. rewrite Hf in Ehit; [done|lia].
Qed.

(** ** Extremes *)
Section extremes.
Context `{Realm} `{Client} (h : heap) (better : value -> value -> stM heap bool) (gt : number -> number -> bool) (worst : number).
Hypothesis (Hbetter : forall a b, better (Num a) (Num b) h = (h, Ret (gt a b))).
Hypothesis (Hirrefl : forall a, gt a a = false) (Htrans : forall a b c, gt a b = true -> gt b c = true -> gt a c = true).
Hypothesis (Hworst : forall a, a <> NaN -> a <> worst -> gt a worst = true) (Hnan : forall a, gt NaN a = false) (Hw : worst <> NaN /\ worst <> Int 0 /\ worst <> MinusZero).

(** One round, on numbers *)
Definition extreme_step (crit : value -> number) (st : value * number) (v : value) : value * number :=
  if gt (crit v) st.2 || strict_eq (Num (crit v)) (Num worst) && strict_eq st.1 (Num worst) then (v, crit v) else st.

(** After [vs]: the best of them, or nothing that is a number was among them. *)
Definition best_of (crit : value -> number) (vs : list value) (st : value * number) : Prop :=
  (st.1 ∈ vs /\ st.2 = crit st.1 /\ crit st.1 <> NaN /\ forall v, v ∈ vs -> gt (crit v) (crit st.1) = false) \/
  (st = (Num worst, worst) /\ forall v, v ∈ vs -> crit v = NaN).

Lemma in_snoc (w v : value) vs : w ∈ vs ++ [v] <-> w ∈ vs \/ w = v.
Proof. by rewrite elem_of_app, list_elem_of_singleton. Qed.

Lemma strict_eq_worst v : strict_eq v (Num worst) = true <-> v = Num worst.
Proof. destruct Hw as (? & ? & ?). rewrite strict_eq_spec. naive_solver. Qed.

Lemma extreme_fold crit vs : Num worst ∉ vs -> best_of crit vs (foldl (extreme_step crit) (Num worst, worst) vs).
Proof.
  destruct Hw as (Hwn & _ & _). induction vs as [|v vs IH] using rev_ind; intros Hn; [right; split; [done|by intros v ?%elem_of_nil]|].
  assert ((Num worst ∉ vs) /\ v <> Num worst) as [Hn1 Hn2].
  { split; intros Hx; apply Hn, elem_of_app; [by left|right; subst v; by left]. }
  rewrite foldl_app. cbn [foldl]. specialize (IH Hn1). destruct (foldl _ _ vs) as [r last]. unfold extreme_step, best_of in *. cbn [fst snd] in *.
  destruct IH as [(Hr & -> & Hrn & Hbest)|([= -> ->] & Hall)].
  - replace (strict_eq r (Num worst)) with false. 2:{ symmetry. apply not_true_iff_false. rewrite strict_eq_worst. by intros ->. }
    rewrite andb_false_r, orb_false_r. left. destruct (gt (crit v) (crit r)) eqn:Eg; cbn [fst snd].
    + split_and!; [apply elem_of_app; right; by left|done| |].
      { intros E. by rewrite E, Hnan in Eg. }
      intros w [Hw'| ->]%in_snoc; [|apply Hirrefl]. apply not_true_iff_false. intros E.
      assert (gt (crit w) (crit r) = true) as Ht by (by eapply Htrans). by rewrite Hbest in Ht.
    + split_and!; [apply elem_of_app; by left|done..|]. intros w [Hw'| ->]%in_snoc; auto.
  - replace (strict_eq (Num worst) (Num worst)) with true by (symmetry; by apply strict_eq_worst). rewrite andb_true_r.
    destruct (decide (crit v = NaN)) as [Ev|Ev].
    { rewrite Ev, Hnan. replace (strict_eq (Num NaN) (Num worst)) with false by (by destruct worst). right. split; [done|].
      intros w [Hw'| ->]%in_snoc; auto. }
    replace (gt (crit v) worst || strict_eq (Num (crit v)) (Num worst)) with true.
    2:{ symmetry. apply orb_true_iff. destruct (decide (crit v = worst)) as [->|]; [right; by apply strict_eq_worst|left; by apply Hworst]. }
    left. cbn [fst snd]. split_and!; [apply elem_of_app; right; by left|done..|].
    intros w [Hw'| ->]%in_snoc; [|apply Hirrefl]. by rewrite (Hall w Hw'), Hnan.
Qed.
End extremes.

Lemma direct_fold (gt : number -> number -> bool) worst ns :
  (forall a, gt a a = false) -> (forall a b c, gt a b = true -> gt b c = true -> gt a c = true) ->
  let r := foldl (fun r n => if gt n r then n else r) worst ns in (r = worst \/ r ∈ ns) /\ forall n, n ∈ ns -> gt n r = false.
Proof.
  intros Hirrefl Htrans. induction ns as [|n ns IH] using rev_ind; [split_and!; [by left|by intros n ?%elem_of_nil]|].
  rewrite foldl_app. cbn [foldl] in *. destruct IH as (Hr & Hb). set (r := foldl _ worst ns) in *.
  setoid_rewrite elem_of_app. setoid_rewrite list_elem_of_singleton. destruct (gt n r) eqn:E.
  - split; [tauto|]. intros m [Hm| ->]; [|apply Hirrefl]. apply not_true_iff_false. intros E2.
    pose proof (Htrans m n r E2 E) as Ht. by rewrite (Hb m Hm) in Ht.
  - split; [tauto|]. intros m [Hm| ->]; auto.
Qed.

Section extremes_of_arrays.
Context `{Realm} `{Client} (h : heap) (l : loc) (p : option loc) (vs : list value) (ps : list (jsstr * (value * bool))).
Context (better : value -> value -> stM heap bool) (gt : number -> number -> bool) (worst : number).
Hypothesis (Hl : h !! l = Some (Object CArray p (map Some vs) ps)) (Hsize : js_len vs < 2 ^ 32).
Hypothesis (Hbetter : forall a b, better (Num a) (Num b) h = (h, Ret (gt a b))).

Lemma extreme_by (g : loc) (crit : value -> number) : is_function h (Obj g) = true ->
  (forall v i, apply g Undefined [v; Num (Int i); Obj l] h = (h, Ret (Num (crit v)))) ->
  extreme better (Num worst) (Obj l) (IVal (Obj g)) Undefined h =
  (h, Ret (foldl (extreme_step gt worst crit) (Num worst, worst) vs).1).
Proof.
  intros Hg Hcrit. unfold extreme. rewrite (bind_ran _ _ _ h h) by done. cbn [nullish andb].
  rewrite (bind_ran _ _ _ _ _ (cb_function h g _ Hg)).
  set (num (st : value * number) := (st.1, Num st.2)).
  rewrite (bind_ran _ _ _ h (num (foldl (extreme_step gt worst crit) (Num worst, worst) vs))); [done|].
  change (Num worst, Num worst) with (num (Num worst, worst)).
  rewrite (visit_sim h num (Obj l) _ (fun st v _ => extreme_step gt worst crit st v)).
  - rewrite <- (stored_collected h l p vs ps Hl Hsize) at 1. by rewrite <- collected_positions, foldl_map.
  - intros st k i Hp. rewrite (stored_positions h l p vs ps Hl Hsize) in Hp. apply list_elem_of_fmap in Hp as (j & [= -> ->] & _).
    set (v := property h _ _). unfold num. rewrite (bind_ran _ _ _ h (Num (crit v))) by (rewrite callM_function by done; apply Hcrit).
    rewrite (bind_ran _ _ _ _ _ (Hbetter _ _)). unfold extreme_step. by case_match.
Qed.

(** Without an iteratee the elements are compared themselves. *)
Lemma extreme_direct (ns : list number) : vs = map Num ns ->
  extreme better (Num worst) (Obj l) (IVal Undefined) Undefined h =
  (h, Ret (Num (foldl (fun r n => if gt n r then n else r) worst ns))).
Proof.
  intros Hvs. unfold extreme. rewrite (bind_ran _ _ _ h h) by done. cbn [nullish andb negb].
  assert (Forall2 (fun read n => read h = (h, Ret (Num n))) (element_reads h (Obj l)) ns) as Hreads.
  { unfold element_reads. rewrite (stored_array_length h l p vs ps Hl Hsize).
    apply Forall2_same_length_lookup_2; [unfold js_len; by rewrite length_map, length_seqZ, Nat2Z.id, Hvs, length_map|].
    intros i read n Hr Hn. rewrite list_lookup_fmap in Hr. pose proof (lookup_lt_Some _ _ _ Hn) as Hlt.
    assert (length vs = length ns) as Hlen by (by rewrite Hvs, length_map).
    rewrite lookup_seqZ_lt in Hr by (unfold js_len; lia). injection Hr as <-. rewrite Z.add_0_l.
    change (getM (Obj l) (key_of_Z (Z.of_nat i)) h) with (h, Ret (property h (key_of_Z (Z.of_nat i)) (Obj l))).
    rewrite (stored_nth h l p vs ps Hl Hsize) by lia. by rewrite Hvs, list_lookup_fmap, Hn. }
  clear Hvs. generalize worst as r. induction Hreads as [|read n reads ns' Hr Hreads IH]; intros r; [done|]. cbn [foldS foldl].
  rewrite (bind_ran _ _ _ h (Num (if gt n r then n else r))); [apply IH|].
  rewrite (bind_ran _ _ _ _ _ Hr), (bind_ran _ _ _ _ _ (Hbetter _ _)). by case_match.
Qed.
End extremes_of_arrays.

(** [_.max] and [_.min].  By an iteratee that computes numbers: an element with which
    no other compares better, or the infinity they start with if every criterion is NaN;
    that infinity itself must not be an element.  Without one, on numbers: the same with
    the elements for criteria, NaN being passed over. *)
Theorem max_min_best (R : Realm) (C : Client) (h : heap) (l g : loc) (p : option loc) (vs : list value) ps (crit : value -> number)
    (Hl : h !! l = Some (Object CArray p (map Some vs) ps)) (Hsize : js_len vs < 2 ^ 32) (Hg : is_function h (Obj g) = true)
    (Hcrit : forall v i, apply g Undefined [v; Num (Int i); Obj l] h = (h, Ret (Num (crit v)))) :
  (Num MinusInfinity ∉ vs -> exists r, max (Obj l) (IVal (Obj g)) Undefined h = (h, Ret r) /\
    ((r ∈ vs /\ crit r <> NaN /\ forall v, v ∈ vs -> num_lt (crit r) (crit v) = false) \/
     (r = Num MinusInfinity /\ forall v, v ∈ vs -> crit v = NaN))) /\
  (Num Infinity ∉ vs -> exists r, min (Obj l) (IVal (Obj g)) Undefined h = (h, Ret r) /\
    ((r ∈ vs /\ crit r <> NaN /\ forall v, v ∈ vs -> num_lt (crit v) (crit r) = false) \/
     (r = Num Infinity /\ forall v, v ∈ vs -> crit v = NaN))) /\
  (forall ns, vs = map Num ns -> exists lo hi,
    min (Obj l) (IVal Undefined) Undefined h = (h, Ret (Num lo)) /\ max (Obj l) (IVal Undefined) Undefined h = (h, Ret (Num hi)) /\
    (lo = Infinity \/ lo ∈ ns) /\ (hi = MinusInfinity \/ hi ∈ ns) /\
    forall n, n ∈ ns -> num_lt n lo = false /\ num_lt hi n = false).
Proof.
  assert (forall a b, greater_than (Num a) (Num b) h = (h, Ret (num_lt b a))) as Hgt by (intros; by apply greater_than_primitive).
  assert (forall a b, less_than (Num a) (Num b) h = (h, Ret (num_lt a b))) as Hlt by (intros; by apply less_than_primitive).
  assert (forall a, a <> NaN -> a <> MinusInfinity -> num_lt MinusInfinity a = true) as Hmin by (by intros []).
  assert (forall a, a <> NaN -> a <> Infinity -> num_lt a Infinity = true) as Hmax by (by intros []).
  assert (forall a, num_lt a NaN = false) as HnanR by (by intros []).
  assert (forall a b c, num_lt b a = true -> num_lt c b = true -> num_lt c a = true) as Htr by (intros a b c H1 H2; by eapply num_lt_trans).
  split_and!.
  - intros Hn. eexists. split; [by apply (extreme_by h l p vs ps greater_than (fun a b => num_lt b a) MinusInfinity)|].
    destruct (extreme_fold (fun a b => num_lt b a) MinusInfinity num_lt_irrefl Htr Hmin HnanR ltac:(done) crit vs Hn)
      as [(Hr & _ & Hrn & Hb)|(-> & Hall)]; eauto.
  - intros Hn. eexists. split; [by apply (extreme_by h l p vs ps less_than num_lt Infinity)|].
    destruct (extreme_fold num_lt Infinity num_lt_irrefl num_lt_trans Hmax ltac:(done) ltac:(done) crit vs Hn)
      as [(Hr & _ & Hrn & Hb)|(-> & Hall)]; eauto.
  - intros ns Hns. eexists _, _. split; [by apply (extreme_direct h l p vs ps less_than num_lt Infinity)|].
    split; [by apply (extreme_direct h l p vs ps greater_than (fun a b => num_lt b a) MinusInfinity)|].
    destruct (direct_fold num_lt Infinity ns num_lt_irrefl num_lt_trans) as (Ha1 & Hb1).
    destruct (direct_fold (fun a b => num_lt b a) MinusInfinity ns num_lt_irrefl Htr) as (Ha2 & Hb2).
    split_and!; [done..|]. intros n Hn. split; [by apply Hb1|by apply Hb2].
Qed.

(** ** Shuffling

    One round on full arrays: the new value comes last, or takes the place of a value
    that goes last. *)
Definition place {A} (ws : list A) (v : A) (r : nat) : list A :=
  match ws !! r with Some w => <[r := v]> ws ++ [w] | None => ws ++ [v] end.

(** The rounds for [vs], with the places drawn. *)
Definition dealt {A} (vs : list A) (rs : list nat) : list A := foldl (fun ws p => place ws p.1 p.2) [] (zip vs rs).

(** The place drawn in round [i] is one of [0], ..., [i]. *)
Definition drawn (rs : list nat) : Prop := forall i r, rs !! i = Some r -> (r <= i)%nat.

Lemma place_length {A} (ws : list A) v r : length (place ws v r) = S (length ws).
Proof. unfold place. destruct (ws !! r); rewrite length_app; cbn; [rewrite length_insert|]; lia. Qed.

Lemma place_perm {A} (ws : list A) v r : place ws v r ≡ₚ v :: ws.
Proof.
  unfold place. destruct (ws !! r) as [w|] eqn:E; [|by rewrite Permutation_app_comm].
  rewrite insert_take_drop by (by eapply lookup_lt_Some). trans (v :: take r ws ++ w :: drop (S r) ws); [solve_Permutation|].
  by rewrite take_drop_middle.
Qed.

Lemma dealt_snoc {A} (vs : list A) rs v r : length vs = length rs -> dealt (vs ++ [v]) (rs ++ [r]) = place (dealt vs rs) v r.
Proof. intros E. unfold dealt. rewrite zip_with_app by done. by rewrite foldl_app. Qed.

Lemma dealt_perm {A} (vs : list A) rs : length vs = length rs -> dealt vs rs ≡ₚ vs.
Proof.
  revert rs. induction vs as [|v vs IH] using rev_ind; intros rs E; [by destruct rs|]. rewrite length_app in E. cbn in E.
  destruct rs as [|r rs _] using rev_ind; [cbn in E; lia|]. rewrite length_app in E. cbn in E.
  rewrite dealt_snoc by lia. rewrite place_perm, IH by lia. solve_Permutation.
Qed.

(** The value of the last round is where it was put. *)
Lemma place_at {A} (ws : list A) v r : (r <= length ws)%nat -> place ws v r !! r = Some v.
Proof.
  intros Hr. unfold place. destruct (ws !! r) as [w|] eqn:E.
  - pose proof (lookup_lt_Some _ _ _ E). rewrite lookup_app_l by (by rewrite length_insert). by apply list_lookup_insert_eq.
  - apply lookup_ge_None in E. by apply list_lookup_middle; lia.
Qed.

(** From a result without repetitions the last place and the result before can be read off. *)
Lemma place_inj {A} (ws ws' : list A) v r r' : NoDup (v :: ws) -> (r <= length ws)%nat -> (r' <= length ws')%nat ->
  place ws v r = place ws' v r' -> r = r' /\ ws = ws'.
Proof.
  intros Hn Hr Hr' E. assert (length ws = length ws') as Hlen.
  { pose proof (f_equal length E) as El. rewrite !place_length in El. lia. }
  assert (r = r') as <-.
  { rewrite <- (place_perm ws v r) in Hn. rewrite NoDup_alt in Hn. apply (Hn r r' v); [by apply place_at|]. rewrite E. by apply place_at. }
  split; [done|]. unfold place in E. destruct (ws !! r) as [w|] eqn:Ew, (ws' !! r) as [w'|] eqn:Ew'.
  - apply app_inj_tail in E as [E <-]. apply list_eq. intros i. destruct (decide (i = r)) as [->|Hne]; [congruence|].
    pose proof (f_equal (fun l => l !! i) E) as El. cbn in El. by rewrite !list_lookup_insert_ne in El by done.
  - apply lookup_lt_Some in Ew. apply lookup_ge_None in Ew'. lia.
  - apply lookup_lt_Some in Ew'. apply lookup_ge_None in Ew. lia.
  - by apply app_inj_tail in E as [E _].
Qed.

(** Every arrangement can be reached. *)
Lemma place_surj {A} (us : list A) v : v ∈ us -> exists ws r, (r <= length ws)%nat /\ us = place ws v r.
Proof.
  intros (a & b & ->)%list_elem_of_split. destruct b as [|w b _] using rev_ind.
  - exists a, (length a). split; [done|]. unfold place. by rewrite lookup_ge_None_2.
  - exists (a ++ w :: b), (length a). split; [rewrite length_app; lia|]. unfold place. rewrite list_lookup_middle by done.
    rewrite insert_app_r_alt, Nat.sub_diag by done. cbn. by rewrite <- app_assoc.
Qed.

(** Each arrangement comes from one sequence of draws. *)
Lemma dealt_once {A} (vs us : list A) : NoDup vs -> us ≡ₚ vs ->
  exists rs, (length rs = length vs /\ drawn rs /\ dealt vs rs = us) /\
    forall rs', length rs' = length vs /\ drawn rs' /\ dealt vs rs' = us -> rs' = rs.
Proof.
  revert us. induction vs as [|v vs IH] using rev_ind; intros us Hn Hp.
  - apply Permutation_nil_r in Hp as ->. exists []. split; [done|]. by intros [] (? & _).
  - destruct (place_surj us v) as (ws & r & Hr & ->); [rewrite Hp; apply elem_of_app; right; by left|].
    rewrite place_perm in Hp. rewrite <- Permutation_cons_append in Hp. apply Permutation_cons_inv in Hp as Hp'.
    rewrite <- Permutation_cons_append in Hn. destruct (IH ws) as (rs & (Hlen & Hd & E) & Hu); [by inversion Hn|done|].
    assert (length ws = length vs) as Hws by (by rewrite Hp').
    exists (rs ++ [r]). split.
    + split_and!; [rewrite !length_app; cbn; lia| |rewrite dealt_snoc by done; by rewrite E].
      intros i r' Hi. apply lookup_snoc_Some in Hi as [[Hi1 Hi2]|[-> ->]]; [by eapply Hd|lia].
    + intros rs' (Hlen' & Hd' & E'). destruct rs' as [|r' rs' _] using rev_ind; [rewrite length_app in Hlen'; cbn in Hlen'; lia|].
      rewrite !length_app in Hlen'. cbn in Hlen'. rewrite dealt_snoc in E' by lia.
      assert (r' <= length rs')%nat as Hr' by (apply (Hd' (length rs')); by apply list_lookup_middle).
      pose proof (dealt_perm vs rs' ltac:(lia)) as Hp2.
      destruct (place_inj (dealt vs rs') ws v r' r) as [-> E2]; [by rewrite Hp2|rewrite Hp2; lia|done|done|].
      f_equal. apply Hu. split_and!; [lia| |done]. intros i q Hi. apply (Hd' i). by apply lookup_app_l_Some.
Qed.

Section shuffling.
Context `{Realm} `{Client}.

Lemma set_elem_at i v (l : list (option value)) : (i < length l)%nat -> set_elem i v l = <[i := Some v]> l.
Proof. intros Hi. unfold set_elem. by rewrite (proj2 (Nat.ltb_lt _ _)). Qed.

(** The loop makes these rounds. *)
Lemma shuffle_loop_dealt rolls index vs ws n : (forall i k, 0 < k -> 0 <= rolls i k < k) -> length ws = index -> (length vs <= n)%nat ->
  shuffle_loop rolls index vs (map Some ws ++ replicate n None) =
  map Some (foldl (fun ws p => place ws p.1 p.2) ws (zip vs (map (fun i => Z.to_nat (rolls i (Z.of_nat i + 1))) (seq index (length vs))))) ++
    replicate (n - length vs) None.
Proof.
  intros Hrolls. revert index ws n. induction vs as [|v vs IH]; intros index ws n Hi Hn; [by rewrite Nat.sub_0_r|].
  cbn [shuffle_loop length seq map zip zip_with foldl fst snd]. unfold random. rewrite Z.add_0_l, Z.sub_0_r.
  destruct (Hrolls index (Z.of_nat index + 1)) as [Hr1 Hr2]; [lia|]. set (r := rolls index _) in *.
  destruct n as [|n]; [cbn in Hn; lia|]. change (S n - S (length vs))%nat with (n - length vs)%nat. rewrite <- (IH (S index) (place ws v (Z.to_nat r)) n);
    [|by rewrite place_length, Hi|cbn in Hn; lia].
  f_equal. cbn [replicate]. unfold place. destruct (Z.eqb_spec r (Z.of_nat index)) as [E|E].
  - rewrite (lookup_ge_None_2 ws) by lia. rewrite set_elem_at by (rewrite length_app, length_map; cbn; lia).
    rewrite map_app, <- app_assoc. rewrite insert_app_r_alt by (rewrite length_map; lia). rewrite length_map. 
    by replace (Z.to_nat r - length ws)%nat with 0%nat by lia.
  - destruct (lookup_lt_is_Some_2 ws (Z.to_nat r)) as [w Hw]; [lia|]. rewrite Hw.
    rewrite (lookup_app_l (map Some ws)) by (rewrite length_map; lia). rewrite list_lookup_fmap, Hw. cbn [fmap option_fmap option_map mjoin option_join default].
    rewrite (set_elem_at index) by (rewrite length_app, length_map; cbn; lia).
    rewrite set_elem_at by (rewrite length_insert, length_app, length_map; cbn; lia).
    rewrite insert_app_r_alt by (rewrite length_map; lia). rewrite length_map, Hi, Nat.sub_diag. cbn [insert list_insert].
    rewrite insert_app_l by (rewrite length_map; lia). rewrite map_app, <- app_assoc. cbn. by rewrite list_fmap_insert.
Qed.

(** What [_.random] can draw: one of the [k] numbers below [k]. *)
Definition roller (rolls : nat -> Z -> Z) : Prop := forall i k, 0 < k -> 0 <= rolls i k < k.

(** The places drawn in the rounds. *)
Definition draws (rolls : nat -> Z -> Z) (n : nat) : list nat := map (fun i => Z.to_nat (rolls i (Z.of_nat i + 1))) (seq 0 n).

Lemma draws_lookup rolls n i : (i < n)%nat -> draws rolls n !! i = Some (Z.to_nat (rolls i (Z.of_nat i + 1))).
Proof. intros Hi. unfold draws. by rewrite list_lookup_fmap, lookup_seq_lt. Qed.

Lemma draws_drawn rolls n : roller rolls -> drawn (draws rolls n).
Proof.
  intros Hr i r Hi. pose proof (lookup_lt_Some _ _ _ Hi) as Hl. unfold draws in Hl. rewrite length_map, length_seq in Hl.
  rewrite draws_lookup in Hi by done. injection Hi as <-. specialize (Hr i (Z.of_nat i + 1)). lia.
Qed.

Definition shuffled (h : heap) (us : list value) : heap * outcome value :=
  (h ++ [Object CArray (Some array_proto) (map Some us) []], Ret (Obj (length h))).

Lemma shuffled_inj h us us' : shuffled h us = shuffled h us' -> us = us'.
Proof.
  unfold shuffled. intros [= E]. apply app_inv_head in E. injection E as E. by apply (inj (fmap Some)) in E.
Qed.

Lemma shuffle_deals h obj rolls : js_len (collected h obj) < 2 ^ 32 -> roller rolls ->
  shuffle rolls obj h = shuffled h (dealt (collected h obj) (draws rolls (length (collected h obj)))).
Proof.
  intros Hsize Hr. set (vs := collected h obj) in *. unfold shuffle. rewrite (bind_ran _ _ _ h h) by done. fold vs. rewrite (bind_ran _ _ _ h tt).
  2:{ unfold sized. by rewrite (proj2 (Z.leb_le _ _)), (proj2 (Z.ltb_lt _ _)) by (unfold js_len in *; lia). }
  pose proof (shuffle_loop_dealt rolls 0 vs [] (length vs) Hr eq_refl (le_n _)) as E. cbn [map app] in E.
  by rewrite E, Nat.sub_diag, app_nil_r.
Qed.
End shuffling.

(** The draws that make a given sequence of places. *)
Definition rolls_of (rs : list nat) (i : nat) (k : Z) : Z := if k =? Z.of_nat i + 1 then Z.of_nat (default 0%nat (rs !! i)) else 0.

Lemma rolls_of_roller rs : drawn rs -> roller (rolls_of rs).
Proof.
  intros Hd i k Hk. unfold rolls_of. destruct (Z.eqb_spec k (Z.of_nat i + 1)) as [->|]; [|lia].
  destruct (rs !! i) as [r|] eqn:E; cbn; [apply Hd in E; lia|lia].
Qed.

Lemma draws_agree rolls rolls' n : roller rolls -> roller rolls' -> draws rolls n = draws rolls' n <->
  forall i, (i < n)%nat -> rolls i (Z.of_nat i + 1) = rolls' i (Z.of_nat i + 1).
Proof.
  intros Hr Hr'. split.
  - intros E i Hi. pose proof (f_equal (fun l => l !! i) E) as Ei. cbn in Ei. rewrite !draws_lookup in Ei by done. injection Ei as Ei.
    pose proof (Hr i (Z.of_nat i + 1) ltac:(lia)). pose proof (Hr' i (Z.of_nat i + 1) ltac:(lia)). lia.
  - intros E. unfold draws. apply map_ext_in. intros i [_ Hi]%in_seq. by rewrite E by lia.
Qed.

Lemma draws_of rs : draws (rolls_of rs) (length rs) = rs.
Proof.
  apply list_eq_same_length with (n := length rs); [done|by unfold draws; rewrite length_map, length_seq|].
  intros i x y Hi Hx Hy. rewrite draws_lookup in Hx by done. injection Hx as <-. unfold rolls_of. rewrite Z.eqb_refl, Hy. cbn. lia.
Qed.

(** C10: [_.shuffle] gives a new array with the elements in another order, whatever is drawn;
    and in each order equally often: round [i] draws one of [i + 1] numbers, and where no
    element repeats, each arrangement is the result for exactly one choice of the numbers
    drawn in the rounds. *)
Theorem shuffle_uniform (R : Realm) (C : Client) (h : heap) (obj : value)
    (Hsize : js_len (collected h obj) < 2 ^ 32) (vs := collected h obj) :
  (forall rolls, roller rolls -> exists us, us ≡ₚ vs /\ shuffle rolls obj h = shuffled h us) /\
  (NoDup vs -> forall us, us ≡ₚ vs -> exists rolls, roller rolls /\
    forall rolls', roller rolls' -> (shuffle rolls' obj h = shuffled h us <->
      forall i, (i < length vs)%nat -> rolls' i (Z.of_nat i + 1) = rolls i (Z.of_nat i + 1))).
Proof.
  assert (forall rolls, length (draws rolls (length vs)) = length vs) as Hlen by (intros; unfold draws; by rewrite length_map, length_seq).
  split.
  - intros rolls Hr. eexists. split; [|by apply shuffle_deals]. by apply dealt_perm.
  - intros Hn us Hp. destruct (dealt_once vs us Hn Hp) as (rs & (Hl & Hd & E) & Hu). exists (rolls_of rs).
    split; [by apply rolls_of_roller|]. intros rolls' Hr'. rewrite shuffle_deals by done. fold vs.
    rewrite <- draws_agree by (done || by apply rolls_of_roller). assert (draws (rolls_of rs) (length vs) = rs) as -> by (rewrite <- Hl; apply draws_of). split.
    + intros Es%shuffled_inj. apply Hu. split_and!; [apply Hlen|by apply draws_drawn|done].
    + intros ->. by rewrite E.
Qed.

(** ** Progressions *)
Lemma range_loop_spec n start step : range_loop n start step = map (fun k => Num (Int (start + Z.of_nat k * step))) (seq 0 n).
Proof.
  revert start. induction n as [|n IH]; intros start; [done|]. cbn [range_loop seq map]. rewrite IH. f_equal; [do 2 f_equal; lia|].
  rewrite <- fmap_S_seq, map_map. apply map_ext. intros k. do 2 f_equal. lia.
Qed.

(** [_.range(start, stop, step)]: the numbers from [start] on, [step] apart, that lie
    before [stop] in the direction of [step]; too many of them are an error. *)
Theorem range_exact (R : Realm) (h : heap) (start stop step : Z) (Hstep : step <> 0)
    (n := Z.max (ceil_div (stop - start) step) 0) :
  (forall k, 0 <= k < n <-> 0 <= k /\ (if 0 <? step then start + k * step < stop else stop < start + k * step)) /\
  range start (Some stop) step h =
    if n <? 2 ^ 32
    then (h ++ [Object CArray (Some array_proto) (map (fun k => Some (Num (Int (start + k * step)))) (seqZ 0 n)) []], Ret (Obj (length h)))
    else (h, Throw (RangeError "Invalid array length")).
Proof.
  split.
  - intros k. unfold n, ceil_div. destruct (Z.ltb_spec 0 step).
    + pose proof (Z.div_mod (- (stop - start)) step). pose proof (Z.mod_pos_bound (- (stop - start)) step). nia.
    + pose proof (Z.div_mod (- (stop - start)) step). pose proof (Z.mod_neg_bound (- (stop - start)) step). nia.
  - unfold range. rewrite (proj2 (Z.eqb_neq step 0)) by done. fold n. unfold sized.
    rewrite (proj2 (Z.leb_le 0 n)) by lia. cbn [andb]. destruct (n <? 2 ^ 32); [|done]. rewrite (bind_ran _ _ _ h tt) by done.
    rewrite range_loop_spec. unfold new_array, alloc. do 5 f_equal. unfold seqZ. rewrite map_map.
    transitivity (map (fun k => Some (Num (Int (start + k * step)))) (map (fun i => Z.of_nat i + 0) (seq 0 (Z.to_nat n)))); [|done].
    rewrite map_map. apply map_ext. intros k. do 3 f_equal. lia.
Qed.

(** ** Examples *)
Definition tens (v : value) : value := match v with Num (Int z) => Num (Int (z / 10)) | _ => Num NaN end.
Definition tens_number (v : value) : number := match v with Num (Int z) => Int (z / 10) | _ => NaN end.

Definition order_values : list value := map (fun z => Num (Int z)) [35; 12; 31; 18].
Definition order_heap : heap := demo_base ++ [an_array order_values].

Lemma tens_applied l v i h : apply (Client := demo_client) 2 Undefined [v; i; Obj l] h = (h, Ret (tens v)).
Proof. by destruct v as [| | |[]| |]. Qed.

Lemma sortBy_sorts_witness : exists perm, perm ≡ₚ seq 0 4 /\
  sortBy (H := demo_realm) (H0 := demo_client) (Obj 6) (IVal (Obj 2)) Undefined order_heap =
    (order_heap ++ [an_array (map (fun z => Num (Int z)) [12; 18; 35; 31])], Ret (Obj 7)).
Proof.
  destruct (sortBy_sorts demo_realm demo_client order_heap 6 2 (Some 1%nat) order_values [] (fun v _ => tens v)) as (perm & Hp & _ & _).
  - reflexivity.
  - reflexivity.
  - reflexivity.
  - intros v i. apply tens_applied.
  - left. by repeat constructor.
  - exists perm. split; [exact Hp|vm_compute; reflexivity].
Defined.

Lemma sortedIndex_place_witness : exists r,
  sortedIndex (H := demo_realm) (H0 := demo_client) (Obj 6) (Num (Int 30)) (IVal (Obj 2)) Undefined order_heap = (order_heap, Ret r) /\ 0 <= r <= 4.
Proof.
  destruct (sortedIndex_place demo_realm demo_client order_heap 6 2 (Some 1%nat) order_values [] tens (Num (Int 30))) as (r & Hr & Hb & _).
  - reflexivity.
  - reflexivity.
  - reflexivity.
  - intros v. by destruct v as [| | |[]| |].
  - by repeat constructor.
  - exists r. by split.
Defined.

Lemma indexOf_sorted_witness :
  let h := demo_base ++ [an_array (map (fun z => Num (Int z)) [1; 4; 4; 9])] in
  indexOf (H := demo_realm) (H0 := demo_client) (Obj 6) (Num (Int 4)) InOrder h = (h, Ret 1).
Proof.
  intros h. rewrite (indexOf_sorted demo_realm demo_client h 6 (Some 1%nat) [1; 4; 4; 9] [] 4).
  - vm_compute. reflexivity.
  - reflexivity.
  - reflexivity.
  - repeat constructor; lia.
  - reflexivity.
Defined.

Lemma max_min_best_witness : exists r,
  max (H := demo_realm) (H0 := demo_client) (Obj 6) (IVal (Obj 2)) Undefined order_heap = (order_heap, Ret r).
Proof.
  destruct (max_min_best demo_realm demo_client order_heap 6 2 (Some 1%nat) order_values [] tens_number) as (Hmax & _ & _).
  - reflexivity.
  - reflexivity.
  - reflexivity.
  - intros v i. rewrite tens_applied. by destruct v as [| | |[]| |].
  - destruct Hmax as (r & Hr & _); [|by exists r]. apply (bool_decide_unpack _). vm_compute. exact I.
Defined.

Lemma shuffle_uniform_witness :
  (exists us, us ≡ₚ order_values /\ shuffle (H := demo_realm) (fun _ k => k - 1) (Obj 6) order_heap = shuffled (H := demo_realm) order_heap us) /\
  exists rolls, roller rolls /\ shuffle (H := demo_realm) rolls (Obj 6) order_heap = shuffled (H := demo_realm) order_heap (rev order_values).
Proof.
  destruct (shuffle_uniform demo_realm demo_client order_heap (Obj 6)) as (H1 & H2); [by vm_compute|]. split.
  - apply H1. intros i k Hk. lia.
  - destruct (H2 ltac:(apply (bool_decide_unpack _); by vm_compute) (rev order_values)) as (rolls & Hr & Hrs).
    + symmetry. apply Permutation_rev.
    + exists rolls. split; [exact Hr|]. by apply (Hrs rolls Hr).
Defined.

Lemma range_exact_witness :
  range (H := demo_realm) 10 (Some 0) (-4) [] =
    ([Object CArray (Some 1%nat) (map (fun z => Some (Num (Int z))) [10; 6; 2]) []], Ret (Obj 0)).
Proof.
  rewrite (proj2 (range_exact demo_realm [] 10 0 (-4) ltac:(discriminate))). vm_compute. reflexivity.
Defined.

(** ** Departures *)

(** An element that is the infinity [_.max] starts with is forgotten when a later
    criterion is that infinity, however good its own was. *)
Definition best_first : Client :=
  {| apply := fun _ _ args => mret (if bool_decide (arg args 0 = Num MinusInfinity) then Num (Int 5) else Num MinusInfinity);
     to_primitive := fun _ => mret Undefined;
     numeral := fun _ => NaN |}.

Lemma max_forgets :
  let h := demo_base ++ [an_array [Num MinusInfinity; Num (Int 3)]] in
  max (H := demo_realm) (H0 := best_first) (Obj 6) (IVal (Obj 2)) Undefined h = (h, Ret (Num (Int 3))).
Proof. by vm_compute. Qed.
