(* ===== verification/UnderscoreTiming.v ===== *)
(** * Underscore: throttle, debounce, before and after

    The functions of module 25 of wordcut.js that limit when a client function runs, as
    machines.  An event is a call of the limited function, the firing of a
    timer, or the return of the client function; it carries the time it happens at.
    The client function may call the limited one while it runs: its runs form a stack.
    What was called and what was run is recorded, the latest first. *)
From stdpp Require Import list.
From S2P Require Import Prelude JsString JsArray JsState JsObject.

(** ** Events and timers *)
Definition invocation : Type := value * list value.

Inductive event : Type :=
| Called (t : Z) (c : invocation)
| Fired (t : Z) (id : nat)
| Returned (t : Z) (v : value)
| Raised (t : Z).

Definition time_of (e : event) : Z := match e with Called t _ | Fired t _ | Returned t _ | Raised t => t end.

(** A timer fires when it is due or later. *)
Record clockwork : Type := Clockwork { c_now : Z; c_timers : list (nat * Z); c_next : nat }.

Definition setTimeout (delay : Z) (c : clockwork) : clockwork * nat :=
  (Clockwork (c_now c) (c_timers c ++ [(c_next c, c_now c + delay)]) (S (c_next c)), c_next c).

Definition clearTimeout (id : nat) (c : clockwork) : clockwork :=
  Clockwork (c_now c) (List.filter (fun p => negb (p.1 =? id)%nat) (c_timers c)) (c_next c).

Definition is_due (t : Z) (id : nat) (c : clockwork) : bool := existsb (fun p => (p.1 =? id)%nat && (p.2 <=? t)) (c_timers c).

(** Where the client function was called from. *)
Inductive frame : Type := InCall | InLater.

Record machine (V : Type) : Type := Machine {
  m_vars : V;
  m_clock : clockwork;
  m_stack : list frame;
  m_calls : list (Z * invocation);
  m_runs : list (Z * invocation) }.
Arguments Machine {V}.
Arguments m_vars {V}.
Arguments m_clock {V}.
Arguments m_stack {V}.
Arguments m_calls {V}.
Arguments m_runs {V}.

(** [func.apply(context, args)]; null arguments are none. *)
Definition run_client {V} (from : frame) (call : option invocation) (m : machine V) : machine V :=
  Machine (m_vars m) (m_clock m) (from :: m_stack m) (m_calls m) ((c_now (m_clock m), default (Null, []) call) :: m_runs m).

Definition with_vars {V} (v : V) (c : clockwork) (m : machine V) : machine V :=
  Machine v c (m_stack m) (m_calls m) (m_runs m).

(** The machine of a function with variables [V]: what a call, a timer and a return do. *)
Record limiter (V : Type) : Type := Limiter {
  l_start : V;
  l_call : invocation -> machine V -> machine V;
  l_later : machine V -> machine V;
  l_return : frame -> value -> V -> V }.
Arguments Limiter {V}.
Arguments l_start {V}.
Arguments l_call {V}.
Arguments l_later {V}.
Arguments l_return {V}.

Definition set_now {V} (t : Z) (m : machine V) : machine V :=
  Machine (m_vars m) (Clockwork t (c_timers (m_clock m)) (c_next (m_clock m))) (m_stack m) (m_calls m) (m_runs m).

(** One event; none where it cannot happen: time does not run backwards, a timer fires
    between the turns and when it is due. *)
Definition step {V} (l : limiter V) (m : machine V) (e : event) : option (machine V) :=
  if time_of e <? c_now (m_clock m) then None else
  let m := set_now (time_of e) m in
  match e with
  | Called t c => Some (l_call l c (Machine (m_vars m) (m_clock m) (m_stack m) ((t, c) :: m_calls m) (m_runs m)))
  | Fired t id =>
      match m_stack m with
      | [] => if is_due t id (m_clock m) then Some (l_later l (with_vars (m_vars m) (clearTimeout id (m_clock m)) m)) else None
      | _ => None
      end
  | Returned _ v =>
      match m_stack m with
      | [] => None
      | f :: stack => Some (Machine (l_return l f v (m_vars m)) (m_clock m) stack (m_calls m) (m_runs m))
      end
  | Raised _ =>
      match m_stack m with
      | [] => None
      | _ :: stack => Some (Machine (m_vars m) (m_clock m) stack (m_calls m) (m_runs m))
      end
  end.

(** A machine starts at a positive time: [Date.now()] is not zero. *)
Definition started {V} (l : limiter V) (t : Z) : machine V := Machine (l_start l) (Clockwork t [] 0) [] [] [].

Inductive reachable {V} (l : limiter V) : machine V -> Prop :=
| reach_start t : 0 < t -> reachable l (started l t)
| reach_step m e m' : reachable l m -> step l m e = Some m' -> reachable l m'.

(** ** throttle *)
Record throttle_options : Type := ThrottleOptions { wait : Z; leading : bool; trailing : bool }.

Record throttle_vars : Type := ThrottleVars {
  t_previous : Z;
  t_timeout : option nat;
  t_call : option invocation;   (* context and args *)
  t_result : value }.

(** The function [throttle] returns. *)
Definition throttled (o : throttle_options) (c : invocation) (m : machine throttle_vars) : machine throttle_vars :=
  let v := m_vars m in
  let now := c_now (m_clock m) in
  let previous := if (t_previous v =? 0) && negb (leading o) then now else t_previous v in
  let remaining := wait o - (now - previous) in
  if (remaining <=? 0) || (wait o <? remaining) then
    let clock := match t_timeout v with Some id => clearTimeout id (m_clock m) | None => m_clock m end in
    run_client InCall (Some c) (with_vars (ThrottleVars now None (Some c) (t_result v)) clock m)
  else
    match t_timeout v with
    | None =>
        if trailing o then
          let '(clock, id) := setTimeout remaining (m_clock m) in
          with_vars (ThrottleVars previous (Some id) (Some c) (t_result v)) clock m
        else with_vars (ThrottleVars previous None (Some c) (t_result v)) (m_clock m) m
    | Some id => with_vars (ThrottleVars previous (Some id) (Some c) (t_result v)) (m_clock m) m
    end.

Definition throttle_later (o : throttle_options) (m : machine throttle_vars) : machine throttle_vars :=
  let v := m_vars m in
  let previous := if leading o then c_now (m_clock m) else 0 in
  run_client InLater (t_call v) (with_vars (ThrottleVars previous None (t_call v) (t_result v)) (m_clock m) m).

Definition throttle_return (f : frame) (r : value) (v : throttle_vars) : throttle_vars :=
  ThrottleVars (t_previous v) (t_timeout v) (match t_timeout v with None => None | Some _ => t_call v end) r.

Definition throttle (o : throttle_options) : limiter throttle_vars :=
  Limiter (ThrottleVars 0 None None Undefined) (throttled o) (throttle_later o) throttle_return.

(** ** debounce *)
Record debounce_vars : Type := DebounceVars {
  d_timeout : option nat;
  d_call : option invocation;
  d_timestamp : Z;
  d_result : value }.

(** The function [debounce] returns. *)
Definition debounced (wait : Z) (immediate : bool) (c : invocation) (m : machine debounce_vars) : machine debounce_vars :=
  let v := m_vars m in
  let now := c_now (m_clock m) in
  match d_timeout v with
  | Some id => with_vars (DebounceVars (Some id) (Some c) now (d_result v)) (m_clock m) m
  | None =>
      let '(clock, id) := setTimeout wait (m_clock m) in
      let m := with_vars (DebounceVars (Some id) (Some c) now (d_result v)) clock m in
      if immediate then run_client InCall (Some c) m else m
  end.

Definition debounce_later (wait : Z) (immediate : bool) (m : machine debounce_vars) : machine debounce_vars :=
  let v := m_vars m in
  let last := c_now (m_clock m) - d_timestamp v in
  if (last <? wait) && (0 <=? last) then
    let '(clock, id) := setTimeout (wait - last) (m_clock m) in
    with_vars (DebounceVars (Some id) (d_call v) (d_timestamp v) (d_result v)) clock m
  else
    let m := with_vars (DebounceVars None (d_call v) (d_timestamp v) (d_result v)) (m_clock m) m in
    if immediate then m else run_client InLater (d_call v) m.

Definition debounce_return (f : frame) (r : value) (v : debounce_vars) : debounce_vars :=
  let call := match f, d_timeout v with InLater, Some _ => d_call v | _, _ => None end in
  DebounceVars (d_timeout v) call (d_timestamp v) r.

Definition debounce (wait : Z) (immediate : bool) : limiter debounce_vars :=
  Limiter (DebounceVars None None 0 Undefined) (debounced wait immediate) (debounce_later wait immediate) debounce_return.

(** ** before, once and after *)
Record count_vars : Type := CountVars {
  n_times : Z;
  n_memo : value;
  n_func : bool;        (* func is not null *)
  n_crashed : bool }.   (* null was called *)

(** The function [before] returns. *)
Definition counted_before (c : invocation) (m : machine count_vars) : machine count_vars :=
  let v := m_vars m in
  let times := n_times v - 1 in
  if 0 <? times then
    if n_func v then run_client InCall (Some c) (with_vars (CountVars times (n_memo v) true (n_crashed v)) (m_clock m) m)
    else with_vars (CountVars times (n_memo v) false true) (m_clock m) m
  else with_vars (CountVars times (n_memo v) (n_func v && negb (times <=? 1)) (n_crashed v)) (m_clock m) m.

Definition before_return (f : frame) (r : value) (v : count_vars) : count_vars :=
  CountVars (n_times v) r (n_func v && negb (n_times v <=? 1)) (n_crashed v).

Definition before (times : Z) : limiter count_vars :=
  Limiter (CountVars times Undefined true false) counted_before id before_return.

Definition once : limiter count_vars := before 2.

(** The function [after] returns. *)
Definition counted_after (c : invocation) (m : machine count_vars) : machine count_vars :=
  let v := m_vars m in
  let times := n_times v - 1 in
  let m := with_vars (CountVars times (n_memo v) (n_func v) (n_crashed v)) (m_clock m) m in
  if times <? 1 then run_client InCall (Some c) m else m.

Definition after (times : Z) : limiter count_vars :=
  Limiter (CountVars times Undefined true false) counted_after id (fun _ _ v => v).

(** ** Invariants *)
Section throttle_invariant.
Context (o : throttle_options).

Definition spaced (runs : list (Z * invocation)) : Prop := Sorted (fun a b => b.1 + wait o <= a.1) runs.

Record throttle_inv (m : machine throttle_vars) : Prop := {
  ti_now : 0 < c_now (m_clock m);
  ti_timer : c_timers (m_clock m) = match t_timeout (m_vars m) with Some id => [(id, t_previous (m_vars m) + wait o)] | None => [] end;
  ti_previous : t_previous (m_vars m) <= c_now (m_clock m);
  ti_unset : t_previous (m_vars m) = 0 -> leading o = false -> t_timeout (m_vars m) = None;
  ti_run : match m_runs m with
           | [] => True
           | (r, _) :: _ => r <= c_now (m_clock m) /\ (r <= t_previous (m_vars m) \/ (t_previous (m_vars m) = 0 /\ leading o = false))
           end;
  ti_spaced : spaced (m_runs m);
  ti_served :
    match t_timeout (m_vars m) with
    | Some _ => exists t c cs, m_calls m = (t, c) :: cs /\ t_call (m_vars m) = Some c /\ t_previous (m_vars m) <= t <= c_now (m_clock m)
    | None => trailing o = true ->
        match m_calls m with [] => True | (t, c) :: _ => exists tr rs, m_runs m = (tr, c) :: rs /\ t <= tr end
    end }.

Lemma spaced_cons now c runs :
  spaced runs -> match runs with [] => True | (r, _) :: _ => r + wait o <= now end -> spaced ((now, c) :: runs).
Proof. intros Hs Hr. constructor; [done|]. destruct runs as [|[r c'] runs]; constructor. done. Qed.

Lemma throttle_inv_now m t : throttle_inv m -> c_now (m_clock m) <= t -> throttle_inv (set_now t m).
Proof.
  intros [] Ht. split; cbn in *; try done; try lia. 
  - destruct (m_runs m) as [|[r c] rs]; [done|]. destruct ti_run0. split; [lia|done].
  - destruct (t_timeout (m_vars m)); [|done]. destruct ti_served0 as (t0 & c & cs & ? & ? & ?). exists t0, c, cs. split_and!; done || lia.
Qed.

Lemma throttled_inv c m m' : throttle_inv m -> m' = throttled o c (Machine (m_vars m) (m_clock m) (m_stack m) ((c_now (m_clock m), c) :: m_calls m) (m_runs m)) ->
  throttle_inv m'.
Proof.
  intros [Hnow Htimer Hprev Hunset Hrun Hsp Hserved] ->. destruct m as [[previous timeout call result] [now timers next] stack calls runs].
  cbn in *. unfold throttled. cbn. set (previous' := if (previous =? 0) && negb (leading o) then now else previous).
  assert (previous' = now /\ previous = 0 /\ leading o = false /\ timeout = None \/ previous' = previous /\ (previous = 0 -> leading o = true)) as Hp.
  { subst previous'. destruct (Z.eqb_spec previous 0), (leading o) eqn:El; cbn; auto 10. }
  set (remaining := wait o - (now - previous')).
  destruct ((remaining <=? 0) || (wait o <? remaining)) eqn:Er.
  - assert (remaining <= 0) as Hr by (bool_props; subst remaining; lia).
    replace (match timeout with Some id => clearTimeout id (Clockwork now timers next) | None => Clockwork now timers next end)
      with (Clockwork now [] next).
    2:{ destruct timeout as [id|]; rewrite Htimer; [|done]. unfold clearTimeout. cbn. by rewrite Nat.eqb_refl. }
    split; cbn; try done; try lia.
    + apply spaced_cons; [done|]. destruct runs as [|[r c'] rs]; [done|]. subst remaining.
      destruct Hrun as [H1 [H2|[E1 E2]]], Hp as [(? & ? & _)|(? & Hl)]; try lia. rewrite Hl in E2 by done. done.
    + intros _. do 2 eexists. split; [done|lia].
  - assert (0 < remaining) as Hr by (bool_props; lia).
    assert (match runs with [] => True | (r, _) :: _ => r <= now /\ (r <= previous' \/ (previous' = 0 /\ leading o = false)) end) as Hrun'.
    { destruct runs as [|[r c'] rs]; [done|]. destruct Hrun as [H1 H2]. split; [done|]. destruct Hp as [(-> & _)|(-> & _)]; [left; lia|done]. }
    assert (previous' <= now) as Hprev' by (destruct Hp as [(-> & _)|(-> & _)]; lia).
    assert (previous' = 0 -> leading o = false -> False) as Hset'.
    { destruct Hp as [(-> & _)|(-> & Hl)]; [lia|]. intros E1 E2. rewrite Hl in E2 by done. done. }
    destruct timeout as [id|]; [|destruct (trailing o) eqn:Et]; (split; cbn; try done; try lia).
    + destruct Hp as [(_ & _ & _ & ?)|(-> & _)]; [done|]. done.
    + intros E1 E2. by destruct Hset'.
    + do 3 eexists. split_and!; [done|done|lia..].
    + rewrite Htimer. cbn. do 2 f_equal. lia.
    + intros E1 E2. by destruct Hset'.
    + do 3 eexists. split_and!; [done|done|lia..].
    + by rewrite Et.
Qed.

Lemma throttle_step_inv m e m' : throttle_inv m -> step (throttle o) m e = Some m' -> throttle_inv m'.
Proof.
  intros Hi Hs. unfold step in Hs. destruct (Z.ltb_spec (time_of e) (c_now (m_clock m))) as [|Ht]; [done|].
  apply (throttle_inv_now _ (time_of e)) in Hi; [|done]. set (m0 := set_now (time_of e) m) in *.
  destruct e as [t c|t id|t v|t]; cbn [time_of] in *.
  - injection Hs as <-. by apply (throttled_inv c m0).
  - destruct (m_stack m0) eqn:Est; [|done]. destruct (is_due t id (m_clock m0)) eqn:Ed; [|done]. injection Hs as <-.
    destruct Hi as [Hnow Htimer Hprev Hunset Hrun Hsp Hserved]. unfold is_due in Ed. rewrite Htimer in Ed.
    destruct (t_timeout (m_vars m0)) as [id'|] eqn:Eo; [|done]. cbn in Ed. rewrite orb_false_r in Ed. bool_props.
    assert (id' = id) as -> by (by apply Nat.eqb_eq). clear Est.
    split; cbn in *; try done; try (destruct (leading o); lia).
    + rewrite Htimer. cbn. by rewrite Nat.eqb_refl.
    + apply spaced_cons; [done|]. destruct (m_runs m) as [|[r c'] rs]; [done|]. destruct Hrun as [_ [?|[E1 E2]]]; [lia|]. by specialize (Hunset E1 E2).
    + intros _. destruct Hserved as (t0 & c & cs & -> & -> & Ht0). do 2 eexists. split; [done|cbn; lia].
  - destruct (m_stack m0) as [|f stack] eqn:Est; [done|]. injection Hs as <-. destruct Hi as [Hnow Htimer Hprev Hunset Hrun Hsp Hserved].
    split; cbn in *; try done. by destruct (t_timeout (m_vars m)).
  - destruct (m_stack m0) as [|f stack] eqn:Est; [done|]. injection Hs as <-. by destruct Hi.
Qed.

Lemma throttle_reachable_inv m : reachable (throttle o) m -> throttle_inv m.
Proof.
  intros Hr. induction Hr as [t Ht|m e m' Hr IH Hs]; [|by eapply throttle_step_inv]. split; cbn; try done; try lia. constructor.
Qed.
End throttle_invariant.

Section debounce_invariant.
Context (wait : Z) (immediate : bool).

Record debounce_inv (m : machine debounce_vars) : Prop := {
  di_timer : match d_timeout (m_vars m) with
             | Some id => exists due, c_timers (m_clock m) = [(id, due)] /\ due <= d_timestamp (m_vars m) + wait
             | None => c_timers (m_clock m) = []
             end;
  di_past : Forall (fun p => p.1 <= c_now (m_clock m)) (m_calls m);
  di_last : match m_calls m with [] => d_timeout (m_vars m) = None | (t, _) :: _ => d_timestamp (m_vars m) = t end;
  di_latest : Forall (fun p => p.1 <= d_timestamp (m_vars m)) (m_calls m);
  di_quiet : d_timeout (m_vars m) = None -> Forall (fun p => p.1 + wait <= c_now (m_clock m)) (m_calls m);
  di_call : immediate = false -> d_timeout (m_vars m) <> None -> exists t c cs, m_calls m = (t, c) :: cs /\ d_call (m_vars m) = Some c;
  di_frames : immediate = false -> InCall ∉ m_stack m;
  di_served : immediate = false -> d_timeout (m_vars m) = None ->
    match m_calls m with [] => True | (t, c) :: _ => exists tr rs, m_runs m = (tr, c) :: rs /\ t + wait <= tr end }.

Lemma debounce_inv_now m t : debounce_inv m -> c_now (m_clock m) <= t -> debounce_inv (set_now t m).
Proof.
  intros [] Ht. split; cbn in *; try done.
  - eapply Forall_impl; [exact di_past0|]. cbn. lia.
  - intros E. eapply Forall_impl; [exact (di_quiet0 E)|]. cbn. lia.
Qed.

Lemma debounced_inv c m m' : debounce_inv m ->
  m' = debounced wait immediate c (Machine (m_vars m) (m_clock m) (m_stack m) ((c_now (m_clock m), c) :: m_calls m) (m_runs m)) -> debounce_inv m'.
Proof.
  intros [Htimer Hpast Hlast Hlatest Hquiet Hcall Hframes Hserved] ->.
  destruct m as [[timeout call stamp result] [now timers next] stack calls runs]. cbn in *. unfold debounced. cbn.
  destruct timeout as [id|].
  - split; cbn; try done.
    + destruct Htimer as (due & E & Hd). exists due. split; [done|]. destruct calls as [|[t ?] cs]; [done|]. subst stamp.
      apply Forall_cons in Hpast as [Hp _]. cbn in Hp. lia.
    + constructor; [done|exact Hpast].
    + constructor; [done|exact Hpast].
    + intros _ _. by do 3 eexists.
  - assert (debounce_inv (Machine (DebounceVars (Some next) (Some c) now result) (Clockwork now (timers ++ [(next, now + wait)]) (S next)) stack ((now, c) :: calls) runs)) as Hm.
    { split; cbn; try done.
      - exists (now + wait). split; [by rewrite Htimer|lia].
      - constructor; [done|exact Hpast].
      - constructor; [done|exact Hpast].
      - intros _ _. by do 3 eexists. }
    destruct immediate eqn:Ei; [|exact Hm]. destruct Hm. split; cbn in *; try done; by rewrite Ei.
Qed.

Lemma debounce_step_inv m e m' : debounce_inv m -> step (debounce wait immediate) m e = Some m' -> debounce_inv m'.
Proof.
  intros Hi Hs. unfold step in Hs. destruct (Z.ltb_spec (time_of e) (c_now (m_clock m))) as [|Ht]; [done|].
  apply (debounce_inv_now _ (time_of e)) in Hi; [|done]. set (m0 := set_now (time_of e) m) in *.
  destruct e as [t c|t id|t v|t]; cbn [time_of] in *.
  - injection Hs as <-. by apply (debounced_inv c m0).
  - destruct (m_stack m0) eqn:Est; [|done]. destruct (is_due t id (m_clock m0)) eqn:Ed; [|done]. injection Hs as <-.
    destruct Hi as [Htimer Hpast Hlast Hlatest Hquiet Hcall Hframes Hserved].
    destruct m as [[timeout call stamp result] [now timers next] stack calls runs]. cbn in *. subst stack. unfold debounce_later. cbn.
    destruct timeout as [id'|]; [|rewrite Htimer in Ed; done]. destruct Htimer as (due & -> & Hdue).
    cbn in Ed |- *. rewrite orb_false_r in Ed. bool_props. assert (id' = id) as -> by (by apply Nat.eqb_eq). rewrite Nat.eqb_refl. cbn [negb].
    destruct ((t - stamp <? wait) && (0 <=? t - stamp)) eqn:Eq.
    + split; cbn; try done.
      * exists (t + (wait - (t - stamp))). split; [done|lia].
      * by destruct calls as [|[? ?] ?].
      * intros E _. by apply Hcall.
    + assert (stamp + wait <= t \/ calls = []) as Hold.
      { destruct calls as [|[tc ?] cs]; [by right|left]. subst stamp. apply Forall_cons in Hpast as [Hp _]. cbn in Hp. bool_props; lia. }
      assert (Forall (fun p => p.1 + wait <= t) calls) as Hq.
      { destruct Hold as [Ho| ->]; [|done]. eapply Forall_impl; [exact Hlatest|]. cbn. lia. }
      destruct immediate eqn:Ei; (split; cbn; try done; try (by destruct calls as [|[? ?] ?]); try (rewrite Ei; done); try (by rewrite Nat.eqb_refl)).
      * intros _. apply not_elem_of_cons. split; [done|apply not_elem_of_nil].
      * intros _ _. destruct (Hcall eq_refl) as (tc & c & cs & -> & ->); [done|]. do 2 eexists. split; [done|]. apply Forall_cons in Hq as [Hq _]. done.
  - destruct (m_stack m0) as [|f stack] eqn:Est; [done|]. injection Hs as <-.
    destruct Hi as [Htimer Hpast Hlast Hlatest Hquiet Hcall Hframes Hserved]. split; cbn in *; try done.
    + intros Ei Eo. destruct (Hcall Ei Eo) as (tc & c & cs & -> & ->). do 3 eexists. split; [done|].
      destruct f; [|by destruct (d_timeout (m_vars m))]. destruct (Hframes Ei). rewrite Est. left.
    + intros Ei Hf. apply (Hframes Ei). rewrite Est. by right.
  - destruct (m_stack m0) as [|f stack] eqn:Est; [done|]. injection Hs as <-. destruct Hi. split; cbn in *; try done.
    intros Ei Hf. apply (di_frames0 Ei). rewrite Est. by right.
Qed.

Lemma debounce_reachable_inv m : reachable (debounce wait immediate) m -> debounce_inv m.
Proof.
  intros Hr. induction Hr as [t Ht|m e m' Hr IH Hs]; [|by eapply debounce_step_inv]. split; cbn; try done; try constructor. intros _. by apply not_elem_of_nil.
Qed.
End debounce_invariant.

(** ** What the two promise *)

(** C11: a throttled function never runs twice within [wait] milliseconds, whatever calls
    it, also from inside itself, and whatever the options. *)
Theorem throttle_spaced (o : throttle_options) (m : machine throttle_vars) (Hm : reachable (throttle o) m) :
  Sorted (fun later earlier => earlier.1 + wait o <= later.1) (m_runs m).
Proof. by apply throttle_reachable_inv in Hm as []. Qed.

(** C12: with the trailing edge on, no call of a throttled function is lost: the latest call
    has been run, or a timer is set to go off within [wait] of it, and when that fires
    between the turns the function runs with what the latest call was given. *)
Theorem throttle_serves (o : throttle_options) (m : machine throttle_vars) (t : Z) (c : invocation) cs
    (Hm : reachable (throttle o) m) (Ht : trailing o = true) (Hc : m_calls m = (t, c) :: cs) :
  (exists tr rs, m_runs m = (tr, c) :: rs /\ t <= tr) \/
  (exists id due, c_timers (m_clock m) = [(id, due)] /\ due <= t + wait o /\
    (m_stack m = [] -> forall t', due <= t' -> c_now (m_clock m) <= t' ->
      exists m', step (throttle o) m (Fired t' id) = Some m' /\ m_runs m' = (t', c) :: m_runs m)).
Proof.
  apply throttle_reachable_inv in Hm as [Hnow Htimer Hprev Hunset Hrun Hsp Hserved]. rewrite Hc in Hserved.
  destruct (t_timeout (m_vars m)) as [id|] eqn:Eo; [|left; by apply Hserved]. destruct Hserved as (t0 & c0 & cs0 & [= -> -> _] & Ecall & Hb).
  right. exists id, (t_previous (m_vars m) + wait o). split_and!; [done|lia|]. intros Est t' Hdue Hle. unfold step. cbn [time_of].
  rewrite (proj2 (Z.ltb_ge _ _) Hle). cbn. rewrite Est. unfold is_due. cbn. rewrite Htimer. cbn.
  rewrite Nat.eqb_refl, (proj2 (Z.leb_le _ _) Hdue). cbn. eexists. split; [done|]. cbn. by rewrite Ecall.
Qed.

Section debounce_promise.
Context (w : Z).

(** A run, on either edge. *)
Lemma debounce_run immediate m e m' r : debounce_inv w immediate m ->
  step (debounce w immediate) m e = Some m' -> m_runs m' = r :: m_runs m ->
  Forall (fun p => p.1 + w <= r.1) (m_calls m) /\
  (if immediate then e = Called r.1 r.2 else exists t cs, m_calls m = (t, r.2) :: cs).
Proof.
  intros Hm Hs Hr. unfold step in Hs. destruct (Z.ltb_spec (time_of e) (c_now (m_clock m))) as [|Hle]; [done|].
  destruct (debounce_inv_now w immediate m (time_of e) Hm Hle) as [Htimer Hpast Hlast Hlatest Hquiet Hcall Hframes Hserved].
  destruct m as [[timeout call stamp result] [now timers next] stack calls runs]. cbn in *.
  assert (r :: runs <> runs) as Hne by (intros E; apply (f_equal length) in E; cbn in E; lia).
  destruct e as [t c|t id|t v|t]; cbn in *.
  + injection Hs as <-. destruct timeout as [id|]; [done|]. cbn in Hr. destruct immediate; [|done]. injection Hr as <-. split; [by apply Hquiet|done].
  + destruct stack; [|done]. destruct (existsb _ timers) eqn:Ed; [|done]. injection Hs as <-. unfold debounce_later in Hr. cbn in Hr.
    destruct ((t - stamp <? w) && (0 <=? t - stamp)) eqn:Eq; [done|]. destruct immediate eqn:Ei; [done|]. injection Hr as <-. cbn.
    destruct timeout as [id'|]; [|by rewrite Htimer in Ed]. destruct (Hcall eq_refl) as (tc & c & cs & -> & ->); [done|]. subst stamp.
    split; [|by exists tc, cs]. apply Forall_cons in Hpast as [Hp _]. cbn in Hp. eapply Forall_impl; [exact Hlatest|]. cbn. bool_props; lia.
  + destruct stack; [done|]. injection Hs as <-. done.
  + destruct stack; [done|]. injection Hs as <-. done.
Qed.

(** The trailing edge: the timer runs the latest call or waits on. *)
Lemma debounce_trailing m : debounce_inv w false m -> forall t c cs, m_calls m = (t, c) :: cs ->
  (exists tr rs, m_runs m = (tr, c) :: rs /\ t + w <= tr) \/
  (exists id due, c_timers (m_clock m) = [(id, due)] /\ due <= t + w /\
    (m_stack m = [] -> forall t', due <= t' -> c_now (m_clock m) <= t' ->
      exists m', step (debounce w false) m (Fired t' id) = Some m' /\
        if t + w <=? t' then m_runs m' = (t', c) :: m_runs m else exists id', c_timers (m_clock m') = [(id', t + w)])).
Proof.
  intros Hm t c cs Hc. destruct Hm as [Htimer Hpast Hlast Hlatest Hquiet Hcall Hframes Hserved]. rewrite Hc in *.
  destruct (d_timeout (m_vars m)) as [id|] eqn:Eo; [|left; by apply Hserved]. destruct Htimer as (due & Et & Hd).
  destruct (Hcall eq_refl) as (t0 & c0 & cs0 & [= -> -> _] & Ecall); [done|]. subst t0. right. exists id, due. split_and!; [done|lia|].
  intros Est t' Hdue Hle. unfold step. cbn [time_of]. rewrite (proj2 (Z.ltb_ge _ _) Hle). cbn. rewrite Est. unfold is_due. cbn. rewrite Et. cbn.
  rewrite Nat.eqb_refl, (proj2 (Z.leb_le _ _) Hdue). cbn. eexists. split; [done|]. unfold debounce_later. cbn.
  apply Forall_cons in Hpast as [Hp _]. cbn in Hp. set (t := d_timestamp (m_vars m)) in *. rewrite (proj2 (Z.leb_le 0 (t' - t))) by lia. rewrite andb_true_r.
  destruct (Z.ltb_spec (t' - t) w), (Z.leb_spec (t + w) t'); try lia.
  + exists (c_next (m_clock m)). cbn. rewrite Nat.eqb_refl. cbn. by replace (t' + (w - (t' - t))) with (t + w) by lia.
  + cbn. by rewrite Ecall.
Qed.

(** The leading edge: a call with no timer waiting runs at once, and the timer of a burst
    goes away when the latest call is [w] old. *)
Lemma debounce_leading m : debounce_inv w true m ->
  (forall t c, c_now (m_clock m) <= t -> exists m', step (debounce w true) m (Called t c) = Some m' /\
    m_runs m' = if bool_decide (c_timers (m_clock m) = []) then (t, c) :: m_runs m else m_runs m) /\
  (m_calls m = [] -> c_timers (m_clock m) = []) /\
  (forall t c cs, m_calls m = (t, c) :: cs -> c_timers (m_clock m) = [] \/
    (exists id due, c_timers (m_clock m) = [(id, due)] /\ due <= t + w /\
      (m_stack m = [] -> forall t', due <= t' -> c_now (m_clock m) <= t' ->
        exists m', step (debounce w true) m (Fired t' id) = Some m' /\ m_runs m' = m_runs m /\
          if t + w <=? t' then c_timers (m_clock m') = [] else exists id', c_timers (m_clock m') = [(id', t + w)]))).
Proof.
  intros [Htimer Hpast Hlast _ _ _ _ _]. split_and!.
  - intros t c Hle. unfold step. cbn [time_of]. rewrite (proj2 (Z.ltb_ge _ _) Hle). eexists. split; [done|]. cbn. unfold debounced. cbn.
    destruct (d_timeout (m_vars m)) as [id|]; [destruct Htimer as (due & -> & _)|rewrite Htimer]; done.
  - intros Hc. rewrite Hc in Hlast. by rewrite Hlast in Htimer.
  - intros t c cs Hc. rewrite Hc in *. destruct (d_timeout (m_vars m)) as [id|] eqn:Eo; [|by left]. destruct Htimer as (due & Et & Hd).
    right. exists id, due. split_and!; [done|lia|].
    intros Est t' Hdue Hle. unfold step. cbn [time_of]. rewrite (proj2 (Z.ltb_ge _ _) Hle). cbn. rewrite Est. unfold is_due. cbn. rewrite Et. cbn.
    rewrite Nat.eqb_refl, (proj2 (Z.leb_le _ _) Hdue). cbn. eexists. split; [done|]. unfold debounce_later. cbn.
    apply Forall_cons in Hpast as [Hp _]. cbn in Hp. subst t. set (t := d_timestamp (m_vars m)) in *.
    rewrite (proj2 (Z.leb_le 0 (t' - t))) by lia. rewrite andb_true_r.
    destruct (Z.ltb_spec (t' - t) w), (Z.leb_spec (t + w) t'); try lia; (split; [done|]); cbn; rewrite Nat.eqb_refl; cbn.
    + eexists. by replace (t' + (w - (t' - t))) with (t + w) by lia.
    + done.
Qed.
End debounce_promise.

(** C13: a debounced function runs only when every call before was at least [wait]
    milliseconds ago.  On the trailing edge it runs with what the latest call was given,
    and that call is not lost: it has been run, or the timer that waits for its turn
    either runs it or is set again to the time it becomes due.  On the leading edge only a
    call runs it, with what it was given: at once if no timer is waiting, as before the
    first call, and not at all otherwise; and the timer goes away when it fires [wait]
    after the latest call or later, or is set again to that time. *)
Theorem debounce_quiet (w : Z) (immediate : bool) (m : machine debounce_vars) (Hm : reachable (debounce w immediate) m) :
  (forall e m' r, step (debounce w immediate) m e = Some m' -> m_runs m' = r :: m_runs m ->
    Forall (fun p => p.1 + w <= r.1) (m_calls m) /\
    if immediate then e = Called r.1 r.2 else exists t cs, m_calls m = (t, r.2) :: cs) /\
  (immediate = false -> forall t c cs, m_calls m = (t, c) :: cs ->
    (exists tr rs, m_runs m = (tr, c) :: rs /\ t + w <= tr) \/
    (exists id due, c_timers (m_clock m) = [(id, due)] /\ due <= t + w /\
      (m_stack m = [] -> forall t', due <= t' -> c_now (m_clock m) <= t' ->
        exists m', step (debounce w immediate) m (Fired t' id) = Some m' /\
          if t + w <=? t' then m_runs m' = (t', c) :: m_runs m else exists id', c_timers (m_clock m') = [(id', t + w)]))) /\
  (immediate = true ->
    (forall t c, c_now (m_clock m) <= t -> exists m', step (debounce w immediate) m (Called t c) = Some m' /\
      m_runs m' = if bool_decide (c_timers (m_clock m) = []) then (t, c) :: m_runs m else m_runs m) /\
    (m_calls m = [] -> c_timers (m_clock m) = []) /\
    (forall t c cs, m_calls m = (t, c) :: cs -> c_timers (m_clock m) = [] \/
      (exists id due, c_timers (m_clock m) = [(id, due)] /\ due <= t + w /\
        (m_stack m = [] -> forall t', due <= t' -> c_now (m_clock m) <= t' ->
          exists m', step (debounce w immediate) m (Fired t' id) = Some m' /\ m_runs m' = m_runs m /\
            if t + w <=? t' then c_timers (m_clock m') = [] else exists id', c_timers (m_clock m') = [(id', t + w)])))).
Proof.
  apply debounce_reachable_inv in Hm. split_and!.
  - intros e m' r. by apply debounce_run.
  - intros ->. by apply debounce_trailing.
  - intros ->. by apply debounce_leading.
Qed.

(** ** Counting calls *)
Record before_inv (times : Z) (m : machine count_vars) : Prop := {
  bi_times : n_times (m_vars m) = times - js_len (m_calls m);
  bi_runs : js_len (m_runs m) = Z.min (js_len (m_calls m)) (Z.max 0 (times - 1));
  bi_func : n_func (m_vars m) = false -> n_times (m_vars m) <= 1;
  bi_timers : c_timers (m_clock m) = [];
  bi_safe : n_crashed (m_vars m) = false }.

Lemma before_reachable_inv times m : reachable (before times) m -> before_inv times m.
Proof.
  intros Hr. induction Hr as [t Ht|m e m' Hr IH Hs]; [by split; cbn; unfold js_len; cbn; try lia|].
  destruct m as [[n memo func crashed] [now timers next] stack calls runs], IH as [Htimes Hruns Hfunc Htimers Hsafe]. cbn in *.
  unfold step in Hs. destruct (time_of e <? _); [done|]. destruct e as [t c|t id|t v|t]; cbn in Hs; subst timers crashed n.
  - injection Hs as <-. unfold counted_before. cbn. destruct (Z.ltb_spec 0 (times - js_len calls - 1)).
    + destruct func; [|specialize (Hfunc eq_refl); lia]. split; cbn; unfold js_len in *; cbn; try done; lia.
    + split; cbn; unfold js_len in *; cbn; try done; lia.
  - by destruct stack.
  - destruct stack; [done|]. injection Hs as <-. split; cbn; try done. destruct (Z.leb_spec (times - js_len calls) 1); [done|].
    rewrite andb_true_r. exact Hfunc.
  - destruct stack; [done|]. injection Hs as <-. by split.
Qed.

(** [before(n)] runs the client function for the first [n - 1] calls and no others,
    also when it calls itself, and never calls the null it sets; [once] is [before(2)];
    [after(n)] leaves out the first [n - 1] calls. *)
Theorem calls_counted (times : Z) :
  (forall m, reachable (before times) m ->
    js_len (m_runs m) = Z.min (js_len (m_calls m)) (Z.max 0 (times - 1)) /\ n_crashed (m_vars m) = false) /\
  (forall m, reachable once m -> js_len (m_runs m) <= 1) /\
  (forall m, reachable (after times) m -> js_len (m_runs m) = js_len (m_calls m) - Z.min (js_len (m_calls m)) (Z.max 0 (times - 1))).
Proof.
  split_and!.
  - intros m [_ Hr _ _ Hs]%before_reachable_inv. by split.
  - intros m [_ Hr _ _ _]%before_reachable_inv. unfold js_len in *. lia.
  - intros m Hr.
    cut (n_times (m_vars m) = times - js_len (m_calls m) /\ c_timers (m_clock m) = [] /\
         js_len (m_runs m) = js_len (m_calls m) - Z.min (js_len (m_calls m)) (Z.max 0 (times - 1))); [tauto|].
    induction Hr as [t Ht|m e m' Hr IH Hs]; [split_and!; unfold js_len; cbn; lia || done|].
    destruct m as [[n memo func crashed] [now timers next] stack calls runs]. cbn in *. destruct IH as (-> & -> & IH).
    unfold step in Hs. destruct (time_of e <? _); [done|]. destruct e as [t c|t id|t v|t]; cbn in Hs.
    + injection Hs as <-. unfold counted_after. cbn. destruct (Z.ltb_spec (times - js_len calls - 1) 1); cbn; unfold js_len in *; cbn; split_and!; try done; lia.
    + by destruct stack.
    + destruct stack; [done|]. by injection Hs as <-.
    + destruct stack; [done|]. by injection Hs as <-.
Qed.

(** ** Examples: four calls, the last from inside the client function *)
Definition call_with (n : Z) : invocation := (Undefined, [Num (Int n)]).

Fixpoint play {V} (l : limiter V) (m : machine V) (es : list event) : option (machine V) :=
  match es with [] => Some m | e :: es => match step l m e with Some m' => play l m' es | None => None end end.

Lemma play_reachable {V} (l : limiter V) m es m' : reachable l m -> play l m es = Some m' -> reachable l m'.
Proof.
  revert m. induction es as [|e es IH]; intros m Hm E; [by injection E as <-|]. cbn in E.
  destruct (step l m e) as [m1|] eqn:Es; [|done]. eapply IH; [|exact E]. by eapply reach_step.
Qed.

Definition hundred : throttle_options := ThrottleOptions 100 true true.
Definition some_calls : list event :=
  [Called 1000 (call_with 1); Returned 1001 Undefined; Called 1030 (call_with 2); Called 1060 (call_with 3);
   Fired 1105 0; Called 1110 (call_with 4)].

Definition throttled_state : machine throttle_vars := default (started (throttle hundred) 1) (play (throttle hundred) (started (throttle hundred) 1) some_calls).

Lemma throttled_state_reachable : reachable (throttle hundred) throttled_state.
Proof. apply (play_reachable _ (started (throttle hundred) 1) some_calls); [apply reach_start; lia|vm_compute; reflexivity]. Qed.

Lemma throttle_spaced_witness : m_runs throttled_state = [(1105, call_with 3); (1000, call_with 1)] /\
  Sorted (fun later earlier => earlier.1 + 100 <= later.1) (m_runs throttled_state).
Proof. split; [vm_compute; reflexivity|]. apply (throttle_spaced hundred throttled_state throttled_state_reachable). Defined.

Lemma throttle_serves_witness :
  (exists tr rs, m_runs throttled_state = (tr, call_with 4) :: rs /\ 1110 <= tr) \/
  (exists id due, c_timers (m_clock throttled_state) = [(id, due)] /\ due <= 1110 + 100).
Proof.
  destruct (throttle_serves hundred throttled_state 1110 (call_with 4) [(1060, call_with 3); (1030, call_with 2); (1000, call_with 1)]
    throttled_state_reachable) as [Hl|(id & due & Ht & Hd & _)].
  - reflexivity.
  - vm_compute. reflexivity.
  - left. exact Hl.
  - right. exists id, due. split; [exact Ht|exact Hd].
Defined.

Definition more_calls : list event :=
  [Called 1000 (call_with 1); Called 1060 (call_with 2); Fired 1103 0; Called 1120 (call_with 3); Fired 1160 1; Fired 1222 2].

Definition debounced_state : machine debounce_vars :=
  default (started (debounce 100 false) 1) (play (debounce 100 false) (started (debounce 100 false) 1) more_calls).

Lemma debounced_state_reachable : reachable (debounce 100 false) debounced_state.
Proof. apply (play_reachable _ (started (debounce 100 false) 1) more_calls); [apply reach_start; lia|vm_compute; reflexivity]. Qed.

Lemma debounce_quiet_witness : m_runs debounced_state = [(1222, call_with 3)] /\
  forall e m' r, step (debounce 100 false) debounced_state e = Some m' -> m_runs m' = r :: m_runs debounced_state ->
    Forall (fun p => p.1 + 100 <= r.1) (m_calls debounced_state).
Proof.
  split; [vm_compute; reflexivity|]. intros e m' r Hs Hr.
  apply (proj1 (debounce_quiet 100 false debounced_state debounced_state_reachable) e m' r Hs Hr).
Defined.

(** Of five calls in two bursts an immediate function runs the first of each. *)
Definition burst_calls : list event :=
  [Called 1000 (call_with 1); Returned 1001 Undefined; Called 1060 (call_with 2); Fired 1103 0; Called 1120 (call_with 3);
   Fired 1160 1; Fired 1222 2; Called 1300 (call_with 4); Returned 1301 Undefined; Called 1350 (call_with 5)].

Example first_of_burst :
  m_runs <$> play (debounce 100 true) (started (debounce 100 true) 1) burst_calls = Some [(1300, call_with 4); (1000, call_with 1)].
Proof. by vm_compute. Qed.
