(* ===== verification/UnderscoreFunctions.v ===== *)
(** * Underscore: functions and small utilities

    Functions that make functions (module 25 of wordcut.js): binding, partial
    application, memoizing, composing, delaying; the unique ids; and the wrapper objects
    with their chains.  A function that is returned is a [js_fun] with what it closes
    over as arguments; the location [bound] is the function object itself. *)
From stdpp Require Import list.
From S2P Require Import Prelude JsString JsArray JsState JsObject JsHeap Underscore UnderscoreEqual UnderscoreLists.

Section functions.
Context `{Realm} `{Client}.

(** ** Binding *)
Definition executeBound (sourceFunc boundFunc context callingContext : value) (args : list value) : stM heap value :=
  constructed ← look (fun h => instance_of h callingContext boundFunc);
  if negb (constructed : bool) then callM sourceFunc context args else
  p ← getM sourceFunc (prop "prototype");
  self ← baseCreate p;
  result ← callM sourceFunc self args;
  h ← get_st;
  mret (if isObject h result then result else self).

(** The function [_.bind] returns where there is no native one. *)
Definition bind (bound func context : value) (boundArgs : list value) : js_fun := fun this args =>
  executeBound func bound context this (boundArgs ++ args).

(** The arguments of a partially applied function; [hole] is the object [_]. *)
Fixpoint partial_args (hole : value) (boundArgs arguments : list value) (position : nat) : list value :=
  match boundArgs with
  | [] => drop position arguments
  | b :: boundArgs =>
      if strict_eq b hole then arg arguments position :: partial_args hole boundArgs arguments (S position)
      else b :: partial_args hole boundArgs arguments position
  end.

(** The function [_.partial] returns. *)
Definition partial (hole bound func : value) (boundArgs : list value) : js_fun := fun this args =>
  executeBound func bound this this (partial_args hole boundArgs args 0).

Definition wrap (hole bound func wrapper : value) : js_fun := partial hole bound wrapper [func].

(** [_.bindAll]; [bind_native] makes the function object of a method. *)
Definition bindAll (bind_native : value -> value -> stM heap value) (obj : value) (names : list value) : stM heap value :=
  match names with
  | [] => throw_st (PlainError "bindAll must be passed function names")
  | _ =>
      iterM (fun name => k ← to_key name; f ← getM obj k; g ← bind_native f obj; k ← to_key name; putM obj k g) names ;;
      mret obj
  end.

(** ** Remembering *)

(** The function [_.memoize] returns; [memoized] is the function object, which holds the cache. *)
Definition memoize (memoized func : value) (hasher : option value) : js_fun := fun this args =>
  cache ← getM memoized (prop "cache");
  key ← match hasher with Some hasher => callM hasher this args | None => mret (arg args 0) end;
  address ← to_text key;
  let k := key_of_text address in
  present ← look (fun h => has h cache k);
  (if negb (present : bool) then v ← callM func this args; putM cache k v else mret tt) ;;
  getM cache k.

(** ** Composing *)
Definition compose (functions : list value) : js_fun := fun this args =>
  match reverse functions with
  | [] => throw_st (TypeError "Cannot read property 'apply' of undefined")
  | last :: others =>
      result ← callM last this args;
      foldS (fun result f => callM f this [result]) result others
  end.

Definition constant (v : value) : js_fun := fun _ _ => mret v.
Definition noop : js_fun := fun _ _ => mret Undefined.
Definition propertyOf (obj : value) : js_fun := fun _ args =>
  if nullish obj then mret Undefined else k ← to_key (arg args 0); getM obj k.

(** [_.times] *)
Definition times (n : Z) (it : iteratee) (context : value) : stM heap value :=
  sized (Z.max 0 n) ;;
  let f := optimizeCb (fun_of it) context (Some 1%nat) in
  vs ← mapS (fun i => f Undefined [Num (Int i)]) (seqZ 0 n);
  new_array vs.

(** [_.delay] and [_.defer]: what a timer is set to do. *)
Record delayed : Type := Delayed { d_func : value; d_args : list value; d_wait : value }.
Definition delay (func wait : value) (args : list value) : delayed := Delayed func args wait.
Definition defer (func : value) (args : list value) : delayed := delay func (Num (Int 1)) args.
Definition delayed_call (d : delayed) : stM heap value := callM (d_func d) Null (d_args d).

(** ** Unique ids *)
Definition uniqueId (idCounter : Z) (prefix : value) : stM heap (Z * jsstr) :=
  let id := dec (idCounter + 1) in
  if truthy prefix then p ← to_text prefix; mret (idCounter + 1, p ++ id) else mret (idCounter + 1, id).

(** ** Wrapper objects *)

(** [_(obj)], as a function or with [new] *)
Definition wrapper (obj : value) : stM heap value :=
  h ← get_st;
  if is_wrapper h obj then mret obj else
  self ← alloc (Object CObject (Some underscore_proto) [] []);
  putM self (prop "_wrapped") obj ;;
  mret self.

Definition chain (obj : value) : stM heap value :=
  instance ← wrapper obj;
  putM instance (prop "_chain") (Bool true) ;;
  mret instance.

(** The inner [result]: a chain goes on with a wrapped value, by calling the [chain] method
    of the wrapper, which ends in the same function.  The budget bounds these calls. *)
Fixpoint chain_result (fuel : nat) (instance obj : value) : stM heap value :=
  match fuel with
  | O => no_fuel
  | S fuel =>
      c ← getM instance (prop "_chain");
      if truthy c then
        w ← wrapper obj;
        inner ← getM w (prop "_wrapped");
        next ← chain inner;
        chain_result fuel w next
      else mret obj
  end.

(** A method that [_.mixin] adds for the function [func] of the object [root]. *)
Definition mixin_method (fuel : nat) (func : js_fun) (root : value) : js_fun := fun this args =>
  obj ← getM this (prop "_wrapped");
  r ← func root (obj :: args);
  chain_result fuel this r.

(** [delete obj[0]] *)
Definition delete_first (obj : value) : stM heap unit :=
  match obj with
  | Obj l => modify_st (fun h => match h !! l with Some o => <[l := delete_own (Index 0) o]> h | None => h end)
  | _ => mret tt
  end.

(** The methods that change the wrapped array, and those that read it. *)
Definition mutator_method (fuel : nat) (removes : bool) (method : js_fun) : js_fun := fun this args =>
  obj ← getM this (prop "_wrapped");
  method obj args ;;
  (if removes then n ← getM obj (prop "length"); if strict_eq n (Num (Int 0)) then delete_first obj else mret tt else mret tt) ;;
  chain_result fuel this obj.

Definition accessor_method (fuel : nat) (method : js_fun) : js_fun := fun this args =>
  obj ← getM this (prop "_wrapped");
  r ← method obj args;
  chain_result fuel this r.

Definition wrapper_value (this : value) : stM heap value := getM this (prop "_wrapped").
Definition wrapper_toString (this : value) : stM heap jsstr := v ← getM this (prop "_wrapped"); to_text v.
End functions.

(** ** What these functions promise *)

(** A memoized function.  For a text whose result is in the cache, the client function
    does not run and the heap stays as it is; for another one it runs, and what it
    returns is kept, so that calling again with the same text runs nothing and returns
    the same. *)
Theorem memoize_remembers (R : Realm) (C : Client) (h : heap) (m cache : loc) (mo co : object) (func this : value) (s : jsstr) rest
    (Hm : h !! m = Some mo) (Hcache : get_own mo (prop "cache") = Some (Obj cache)) (Hco : h !! cache = Some co) :
  let call := memoize (Obj m) func None this (Str s :: rest) in
  (forall v, get_own co (key_of_text s) = Some v -> call h = (h, Ret v)) /\
  (get_own co (key_of_text s) = None ->
   forall h1 v co1, callM func this (Str s :: rest) h = (h1, Ret v) -> m <> cache ->
     h1 !! m = Some mo -> h1 !! cache = Some co1 -> o_class co1 = CObject ->
     exists h2, call h = (h2, Ret v) /\ call h2 = (h2, Ret v)).
Proof.
  intros call.
  assert (forall h mo co, h !! m = Some mo -> get_own mo (prop "cache") = Some (Obj cache) -> h !! cache = Some co ->
    call h = ((if negb (bool_decide (is_Some (get_own co (key_of_text s)))) then v ← callM func this (Str s :: rest); putM (Obj cache) (key_of_text s) v else mret tt) ;;
              getM (Obj cache) (key_of_text s)) h) as Hcall.
  { intros h' mo' co' Hm' Hc' Hco'. unfold call, memoize. rewrite (bind_ran _ _ _ _ _ (getM_own h' m mo' _ _ Hm' Hc')).
    rewrite (bind_ran _ _ _ h' (Str s)) by done. rewrite (bind_ran _ _ _ h' s) by done.
    rewrite (bind_ran _ _ _ h' (bool_decide (is_Some (get_own co' (key_of_text s))))); [done|].
    unfold look, has. cbn [nullish own_prop]. by rewrite Hco'. }
  assert (forall h mo co v, h !! m = Some mo -> get_own mo (prop "cache") = Some (Obj cache) -> h !! cache = Some co ->
    get_own co (key_of_text s) = Some v -> call h = (h, Ret v)) as Hhit.
  { intros h' mo' co' v Hm' Hc' Hco' Hv. rewrite (Hcall h' mo' co') by done. rewrite Hv, bool_decide_eq_true_2 by eauto. cbn [negb].
    rewrite (bind_ran _ _ _ h' tt) by done. by apply (getM_own h' cache co'). }
  split; [intros v Hv; by apply (Hhit h mo co)|]. intros Hnone h1 v co1 Hf Hne Hm1 Hco1 Hcl.
  assert (h1 !! cache = Some co1) as Hlt by done. apply lookup_lt_Some in Hlt.
  exists (<[cache := set_own (key_of_text s) v co1]> h1).
  assert (<[cache := set_own (key_of_text s) v co1]> h1 !! cache = Some (set_own (key_of_text s) v co1)) as Hc2 by (by apply list_lookup_insert_eq).
  assert (get_own (set_own (key_of_text s) v co1) (key_of_text s) = Some v) as Hg by (rewrite get_set_own, bool_decide_eq_true_2 by (done || by rewrite Hcl); done).
  split.
  - rewrite (Hcall h mo co) by done. rewrite Hnone, bool_decide_eq_false_2 by (by intros [? ?]). cbn [negb].
    rewrite (bind_ran _ _ _ (<[cache := set_own (key_of_text s) v co1]> h1) tt); [by apply (getM_own _ cache (set_own (key_of_text s) v co1))|].
    rewrite (bind_ran _ _ _ _ _ Hf). apply putM_object; [done|by rewrite Hcl].
  - apply (Hhit _ mo (set_own (key_of_text s) v co1)); try done. etrans; [by apply list_lookup_insert_ne|done].
Qed.

(** The place of a hole among the holes. *)
Definition holes_before (hole : value) (boundArgs : list value) (i : nat) : nat :=
  length (List.filter (fun b => strict_eq b hole) (take i boundArgs)).

(** Partial application: what was bound stays where it is, the holes take the arguments in
    order, and the arguments that are left follow. *)
Lemma partial_args_spec hole boundArgs arguments position i :
  partial_args hole boundArgs arguments position !! i =
  match boundArgs !! i with
  | Some b => Some (if strict_eq b hole then arg arguments (position + holes_before hole boundArgs i) else b)
  | None => arguments !! (position + holes_before hole boundArgs (length boundArgs) + (i - length boundArgs))%nat
  end.
Proof.
  unfold holes_before. revert position i. induction boundArgs as [|b bs IH]; intros position i; cbn [partial_args].
  - rewrite lookup_drop. cbn. f_equal. lia.
  - destruct (strict_eq b hole) eqn:E; destruct i as [|i]; cbn [lookup list_lookup take List.filter length]; rewrite ?E; cbn [length];
      [by rewrite Nat.add_0_r| |done|]; rewrite IH; destruct (bs !! i); cbn [length Nat.sub]; do 2 f_equal; try done; try lia.
    by rewrite Nat.add_succ_r.
Qed.

(** ** Wrappers of wrappers *)
Definition chained (v : value) `{Realm} : object :=
  Object CObject (Some underscore_proto) [] [(js "_wrapped", (v, true)); (js "_chain", (Bool true, true))].

Section chaining.
Context `{Realm} `{Client}.

Lemma chained_wrapper h l v : h !! l = Some (chained v) -> is_wrapper h (Obj l) = true.
Proof.
  intros Hl. unfold is_wrapper. destruct (length h) as [|n] eqn:En; [apply lookup_lt_Some in Hl; lia|]. cbn [on_chain]. rewrite Hl. cbn.
  by rewrite bool_decide_eq_true_2.
Qed.

Lemma chain_fresh h v : is_object v = false -> chain v h = (h ++ [chained v], Ret (Obj (length h))).
Proof.
  intros Hv. unfold chain, wrapper. rewrite (bind_ran _ _ _ (h ++ [Object CObject (Some underscore_proto) [] [(js "_wrapped", (v, true))]]) (Obj (length h))).
  - set (o := Object _ _ _ _). rewrite (bind_ran _ _ _ (<[length h := set_own (prop "_chain") (Bool true) o]> (h ++ [o])) tt).
    + unfold mret, stM_ret. f_equal. etrans; [exact (insert_app_r_alt h [o] (length h) _ (le_n _))|]. by rewrite Nat.sub_diag.
    + by apply putM_object; [apply heap_new|].
  - rewrite (bind_ran _ _ _ h h) by done. replace (is_wrapper h v) with false by (by destruct v).
    rewrite (bind_ran _ _ _ (h ++ [Object CObject (Some underscore_proto) [] []]) (Obj (length h))) by done.
    set (o := Object _ _ _ _). rewrite (bind_ran _ _ _ (<[length h := set_own (prop "_wrapped") v o]> (h ++ [o])) tt).
    + unfold mret, stM_ret. f_equal. etrans; [exact (insert_app_r_alt h [o] (length h) _ (le_n _))|]. by rewrite Nat.sub_diag.
    + by apply putM_object; [apply heap_new|].
Qed.

(** Calling [chain] on a wrapper that chains already never returns: each call makes
    another wrapper that chains and calls its method again. *)
Lemma chain_twice_never_ends fuel h a b v w :
  h !! a = Some (chained v) -> h !! b = Some (chained w) -> is_object w = false -> (chain_result fuel (Obj a) (Obj b) h).2 = OutOfFuel.
Proof.
  revert h a b v. induction fuel as [|fuel IH]; intros h a b v Ha Hb Hw; [done|]. cbn [chain_result].
  rewrite (bind_ran _ _ _ h (Bool true)) by (by apply (getM_own h a (chained v))). cbn [truthy].
  rewrite (bind_ran _ _ _ h (Obj b)).
  2:{ unfold wrapper. rewrite (bind_ran _ _ _ h h) by done. by rewrite (chained_wrapper h b w Hb). }
  rewrite (bind_ran _ _ _ h w) by (by apply (getM_own h b (chained w))).
  rewrite (bind_ran _ _ _ _ _ (chain_fresh h w Hw)). apply (IH _ b (length h) w); [|apply heap_new|done].
  rewrite heap_old; [done|]. by apply lookup_lt_Some in Hb.
Qed.

End chaining.

(** ** Examples *)
Definition memo_heap : heap := demo_base ++ [Object CFunction (Some 2%nat) [] [shown "cache" (Obj 7)]; an_object []].

Lemma memoize_remembers_witness : exists h2,
  memoize (H := demo_realm) (H0 := demo_client) (Obj 6) (Obj 2) None Undefined [Str (js "k")] memo_heap = (h2, Ret (Num NaN)) /\
  memoize (H := demo_realm) (H0 := demo_client) (Obj 6) (Obj 2) None Undefined [Str (js "k")] h2 = (h2, Ret (Num NaN)).
Proof.
  apply (proj2 (memoize_remembers demo_realm demo_client memo_heap 6 7 (Object CFunction (Some 2%nat) [] [shown "cache" (Obj 7)]) (an_object [])
    (Obj 2) Undefined (js "k") [] eq_refl eq_refl eq_refl) eq_refl memo_heap (Num NaN) (an_object [])); try reflexivity. discriminate.
Defined.

(** ** Departures *)

(** Ids are not unique across prefixes. *)
Lemma uniqueId_collides :
  uniqueId (H0 := demo_client) 1 (Str (js "a1")) [] = ([], Ret (2, js "a12")) /\
  uniqueId (H0 := demo_client) 11 (Str (js "a")) [] = ([], Ret (12, js "a12")).
Proof. by vm_compute. Qed.
