(* ===== verification/UnderscoreEngine.v ===== *)
(** * Underscore on older engines

    The parts of module 25 that depend on the engine it runs on: the keys of an object where
    there is no [Object.keys] or where some names are never enumerated, binding with and
    without the native [bind], arguments objects that have no class of their own, and
    [noConflict].  [keys_fallback_agrees] and [bind_agrees]: the replacements do what the
    native functions do. *)
From stdpp Require Import list.
From S2P Require Import Prelude JsString JsArray JsState JsObject JsHeap Underscore UnderscoreEqual UnderscoreLists UnderscoreFunctions.

Section engine.
Context `{Realm} `{Client}.

(** ** Keys *)

Definition nonEnumerableProps : list string :=
  ["valueOf"; "isPrototypeOf"; "toString"; "propertyIsEnumerable"; "hasOwnProperty"; "toLocaleString"].

(** [(_.isFunction(constructor) && constructor.prototype) || ObjProto] *)
Definition proto_of_constructor (obj : value) : stM heap value :=
  constructor ← getM obj (prop "constructor");
  h ← get_st;
  proto ← (if isFunction h constructor then getM constructor (prop "prototype") else mret (Bool false));
  mret (if truthy proto then proto else Obj object_proto).

Definition collect_step (obj proto : value) (keys : list key) (name : string) : stM heap (list key) :=
  inside ← look (fun h => has_prop h obj (prop name));
  if negb (inside : bool) then mret keys else
  mine ← getM obj (prop name);
  theirs ← getM proto (prop name);
  mret (if negb (strict_eq mine theirs) && negb (bool_decide (prop name ∈ keys)) then keys ++ [prop name] else keys).

Definition collectNonEnumProps (obj : value) (keys : list key) : stM heap (list key) :=
  proto ← proto_of_constructor obj;
  own ← look (fun h => has h obj (prop "constructor"));
  let keys := if (own : bool) && negb (bool_decide (prop "constructor" ∈ keys)) then keys ++ [prop "constructor"] else keys in
  foldS (collect_step obj proto) keys (reverse nonEnumerableProps).

(** [_.keys] without [Object.keys] *)
Definition keys_fallback (hasEnumBug : bool) (obj : value) : stM heap (list key) :=
  h ← get_st;
  if negb (isObject h obj) then mret [] else
  keys ← foldS (fun keys k => own ← look (fun h => has h obj k); mret (if (own : bool) then keys ++ [k] else keys)) [] (in_keys h obj);
  if hasEnumBug then collectNonEnumProps obj keys else mret keys.

(** [_.allKeys] *)
Definition allKeys_by_engine (hasEnumBug : bool) (obj : value) : stM heap (list key) :=
  h ← get_st;
  if negb (isObject h obj) then mret [] else
  let keys := in_keys h obj in
  if hasEnumBug then collectNonEnumProps obj keys else mret keys.

(** ** Arguments objects *)
Definition isArguments_fallback (h : heap) (obj : value) : outcome bool := has h obj (prop "callee").

(** ** Binding *)

(** [nativeBind && func.bind === nativeBind] *)
Definition uses_native (nativeBind : option value) (func : value) : stM heap bool :=
  match nativeBind with
  | Some b => f ← getM func (prop "bind"); mret (strict_eq f b)
  | None => mret false
  end.

(** A function that the native [bind] made: when it is called, and with [new]. *)
Definition native_bound (func context : value) (boundArgs : list value) : js_fun := fun _ args => callM func context (boundArgs ++ args).

Definition native_construct (func : value) (boundArgs args : list value) : stM heap value :=
  p ← getM func (prop "prototype");
  self ← baseCreate p;
  result ← callM func self (boundArgs ++ args);
  h ← get_st;
  mret (if isObject h result then result else self).

(** [_.bind]; [bound] is the function object it makes.  The native [bind] refuses what is not
    callable as the replacement does. *)
Definition bind_by_engine (nativeBind : option value) (bound func context : value) (boundArgs : list value) : stM heap js_fun :=
  native ← uses_native nativeBind func;
  h ← get_st;
  if negb (isFunction h func) then throw_st (TypeError "Bind must be called on a function") else
  mret (if (native : bool) then native_bound func context boundArgs else bind bound func context boundArgs).

(** ** The global name *)
Definition noConflict (root previousUnderscore this : value) : stM heap value :=
  putM root (prop "_") previousUnderscore ;; mret this.

(** ** The replacements agree with the native functions *)

Lemma filter_own h v ks keys : (forall k, k ∈ ks -> exists b, has h v k = Ret b) ->
  foldS (fun keys k => own ← look (fun h => has h v k); mret (if (own : bool) then keys ++ [k] else keys)) keys ks h =
  (h, Ret (keys ++ List.filter (fun k => match has h v k with Ret b => b | _ => false end) ks)).
Proof.
  revert keys. induction ks as [|k ks IH]; intros keys Hk; [by rewrite app_nil_r|]. cbn [foldS List.filter].
  destruct (Hk k) as [b Hb]; [by left|]. rewrite Hb.
  rewrite (bind_ran _ _ h h (if b then keys ++ [k] else keys)).
  - rewrite IH by (intros k' Hk'; apply Hk; by right). destruct b; [by rewrite <- app_assoc|done].
  - unfold look, mbind, stM_bind. by rewrite Hb.
Qed.

Lemma has_all_own h l o k : h !! l = Some o -> has h (Obj l) k = Ret (bool_decide (k ∈ all_own o)).
Proof.
  intros Hl. unfold has, own_prop. cbn [nullish]. rewrite Hl. f_equal. apply bool_decide_ext. symmetry. apply all_own_spec.
Qed.

(** Of the keys of a loop, those of the object itself are its enumerable keys: what it
    inherits under a name it has too is not listed. *)
Lemma own_of_loop h l o : h !! l = Some o ->
  List.filter (fun k => bool_decide (k ∈ all_own o)) (for_in (length h) h l []) = own_keys o.
Proof.
  intros Hl. destruct (length h) as [|n] eqn:En; [apply lookup_lt_Some in Hl; lia|].
  assert (forall ks, (forall k, k ∈ ks -> k ∈ all_own o) -> List.filter (fun k => bool_decide (k ∈ all_own o)) ks = ks) as Hall.
  { induction ks as [|k ks IH]; intros Hk; [done|]. cbn [List.filter]. rewrite bool_decide_true by (apply Hk; by left).
    f_equal. apply IH. intros k' Hk'. apply Hk. by right. }
  assert (forall ks, (forall k, k ∈ ks -> k ∉ all_own o) -> List.filter (fun k => bool_decide (k ∈ all_own o)) ks = []) as Hnone.
  { induction ks as [|k ks IH]; intros Hk; [done|]. cbn [List.filter]. rewrite bool_decide_false by (apply Hk; by left).
    apply IH. intros k' Hk'. apply Hk. by right. }
  assert (List.filter (fun k => negb (bool_decide (k ∈ []))) (own_keys o) = own_keys o) as Hmine.
  { clear. induction (own_keys o) as [|k ks IH]; [done|]. cbn [List.filter]. rewrite bool_decide_false by apply not_elem_of_nil. cbn [negb]. by rewrite IH. }
  destruct (o_proto o) as [p|] eqn:Ep.
  - rewrite (for_in_next n h l o p) by done. rewrite List.filter_app, Hmine, (Hnone (for_in n h p _)); [rewrite app_nil_r; apply Hall; intros k; apply own_keys_own|].
    intros k Hk Ho. by apply (for_in_seen h n p ([] ++ all_own o) k).
  - rewrite (for_in_last n h l o) by done. rewrite Hmine. apply Hall; intros k; apply own_keys_own.
Qed.

Lemma isObject_object h l : isObject h (Obj l) = true.
Proof. unfold isObject. cbn [typeof]. by destruct (o_class <$> h !! l) as [[]|]. Qed.

Theorem keys_fallback_agrees (h : heap) (obj : value) : keys_fallback false obj h = (h, Ret (keys h obj)).
Proof.
  unfold keys_fallback. rewrite (bind_ran _ _ h h h) by done.
  destruct obj as [| |b|n|s|l]; [done|done|by destruct b|done|done|].
  rewrite isObject_object. cbn [negb]. destruct (h !! l) as [o|] eqn:Hl; cbn [keys]; rewrite Hl.
  - rewrite (bind_ran _ _ h h (own_keys o)); [done|].
    cbn [in_keys]. rewrite (filter_own h) by (intros k _; eexists; by apply has_all_own). rewrite <- (own_of_loop h l o Hl) at 1.
    do 2 f_equal. apply filter_ext. intros k. by rewrite (has_all_own h l o k Hl).
  - rewrite (bind_ran _ _ h h []); [done|]. cbn [in_keys].
    assert (for_in (length h) h l [] = []) as ->; [|done].
    destruct (length h); [done|]. cbn [for_in]. change (list_lookup l h) with (h !! l). by rewrite Hl.
Qed.

(** What a bound function made without the native [bind] does, called as a function or as a
    constructor, is what the native one does. *)
Theorem bind_agrees (bound func context this : value) (boundArgs args : list value) (h : heap) (new : bool) :
  instance_of h this bound = Ret new ->
  bind bound func context boundArgs this args h =
    (if new then native_construct func boundArgs args else native_bound func context boundArgs this args) h.
Proof.
  intros Hi. unfold bind, executeBound. rewrite (bind_ran _ _ h h new) by (unfold look; by rewrite Hi). by destruct new.
Qed.

(** The repair of the enumeration only appends names, each of them once. *)
Definition repaired (keys ks : list key) : Prop :=
  exists extra, ks = keys ++ extra /\ (forall k, k ∈ extra -> k ∈ map prop ("constructor"%string :: nonEnumerableProps)) /\
    NoDup extra /\ (forall k, k ∈ extra -> k ∉ keys).

Lemma repaired_refl keys : repaired keys keys.
Proof. exists []. rewrite app_nil_r. split_and!; [done| |constructor|]; intros k Hk; by apply elem_of_nil in Hk. Qed.

Lemma repaired_add keys ks name : repaired keys ks -> name ∈ "constructor"%string :: nonEnumerableProps -> prop name ∉ ks ->
  repaired keys (ks ++ [prop name]).
Proof.
  intros (extra & -> & Hin & Hnd & Hnew) Hname Hn. rewrite elem_of_app in Hn. exists (extra ++ [prop name]).
  rewrite <- app_assoc. split_and!; [done| | |].
  - intros k [Hk|Hk%list_elem_of_singleton]%elem_of_app; [by apply Hin|]. subst k. by apply list_elem_of_fmap_2.
  - apply NoDup_app. split_and!; [done| |apply NoDup_singleton]. intros k Hk ->%list_elem_of_singleton. tauto.
  - intros k [Hk|Hk%list_elem_of_singleton]%elem_of_app; [by apply Hnew|]. subst k. tauto.
Qed.

Lemma collect_step_repairs obj proto keys ks name h h' ks' : name ∈ nonEnumerableProps ->
  repaired keys ks -> collect_step obj proto ks name h = (h', Ret ks') -> repaired keys ks'.
Proof.
  intros Hname Hk. unfold collect_step. intros (h1 & inside & _ & E)%bind_returned.
  destruct inside; cbn [negb] in E; [|by injection E as _ <-].
  apply bind_returned in E as (h2 & mine & _ & E). apply bind_returned in E as (h3 & theirs & _ & E). injection E as _ <-.
  destruct (strict_eq mine theirs); cbn [negb andb]; [done|]. case_bool_decide as Hd; [done|].
  apply repaired_add; [done|by right|done].
Qed.

Lemma collect_loop_repairs obj proto keys names ks h h' ks' : (forall name, name ∈ names -> name ∈ nonEnumerableProps) ->
  repaired keys ks -> foldS (collect_step obj proto) ks names h = (h', Ret ks') -> repaired keys ks'.
Proof.
  revert ks h. induction names as [|name names IH]; intros ks h Hn Hk; cbn [foldS]; [by intros [= _ <-]|].
  intros (h1 & ks1 & E1 & E)%bind_returned.
  apply (IH ks1 h1); [intros n' Hn'; apply Hn; by right| |done]. apply (collect_step_repairs obj proto keys ks name h h1); [apply Hn; by left|done|done].
Qed.

Theorem collectNonEnumProps_repairs obj keys h h' ks : collectNonEnumProps obj keys h = (h', Ret ks) -> repaired keys ks.
Proof.
  unfold collectNonEnumProps. intros (h1 & proto & _ & E)%bind_returned. apply bind_returned in E as (h2 & own & _ & E).
  revert E. apply collect_loop_repairs; [intros name; by rewrite elem_of_reverse|].
  destruct own; cbn [andb]; [|apply repaired_refl]. case_bool_decide as Hd; cbn [negb]; [apply repaired_refl|].
  apply repaired_add; [apply repaired_refl|by left|done].
Qed.

End engine.
