(* ===== verification/JsRegex.v ===== *)
(** * JavaScript regular expressions

    The sources test, split and rewrite strings with regular expressions, and
    minimatch builds their text at run time.  This file is the part of the
    language those uses need: a parser for the pattern text ([regex_parse]), the
    backtracking matcher of the language definition with greedy and lazy
    quantifiers, captures and look-ahead ([rmatch], [regex_exec]), and a
    declarative reading of a pattern as a relation ([den]).  [match_at_sound] and
    [match_at_complete] show that the matcher finds a match exactly when the
    relation has one, so the components reason with [den]. *)
From S2P Require Import Prelude JsString.

(** ** Syntax *)
Inductive class_item : Type :=
| CRange (lo hi : Z)
| CSpace (pos : bool)
| CDigit (pos : bool)
| CWord (pos : bool)
| CFold (canon : Z -> Z) (member : Z -> bool).

Inductive regex : Type :=
| REmpty
| RChar (c : Z)
| RClass (neg : bool) (items : list class_item)
| RSeq (r1 r2 : regex)
| RAlt (r1 r2 : regex)
| RRepeat (min : nat) (max : option nat) (greedy : bool) (lo hi : nat) (r : regex)
| RGroup (n : nat) (r : regex)
| RLook (pos : bool) (r : regex)
| RBol
| REol
| RForeign.

(** [RForeign] stands for an atom the matcher does not cover, a back-reference or
    a word boundary; a text is [supported] when it has none.  [CFold] is the
    ignore-case flag on a class, see [fold_case]. *)
Fixpoint supported (r : regex) : bool :=
  match r with
  | RForeign => false
  | RSeq r1 r2 | RAlt r1 r2 => supported r1 && supported r2
  | RRepeat _ _ _ _ _ r1 | RGroup _ r1 | RLook _ r1 => supported r1
  | _ => true
  end.

(** ** Characters *)
Definition is_word_char (c : Z) : bool :=
  is_digit c || in_range 65 90 c || in_range 97 122 c || (c =? 95).

(** Some code unit of a set is equal to [c] under the case mapping. *)
Definition fold_test (canon : Z -> Z) (c : Z) (member : Z -> bool) : bool :=
  existsb (fun a => (canon a =? canon c) && member a) (seqZ 0 65536).

Definition item_match (c : Z) (it : class_item) : bool :=
  match it with
  | CRange lo hi => in_range lo hi c
  | CSpace pos => Bool.eqb pos (is_space c)
  | CDigit pos => Bool.eqb pos (is_digit c)
  | CWord pos => Bool.eqb pos (is_word_char c)
  | CFold canon member => fold_test canon c member
  end.

Definition class_ok (neg : bool) (items : list class_item) (c : Z) : bool :=
  xorb neg (existsb (item_match c) items).

(** The dot: any code unit but a line terminator. *)
Definition dot_items : list class_item := [CRange 10 10; CRange 13 13; CRange 8232 8233].

(** ** Captures

    The captures of a match, the latest first; entering a repetition forgets the
    captures of the groups inside it. *)
Definition caps := list (nat * jsstr).

Fixpoint cap_get (c : caps) (n : nat) : option jsstr :=
  match c with
  | [] => None
  | (m, s) :: r => if (m =? n)%nat then Some s else cap_get r n
  end.

Definition cap_reset (lo hi : nat) (c : caps) : caps :=
  List.filter (fun p => negb ((lo <=? p.1) && (p.1 <? hi))%nat) c.

Definition consumed (s s' : jsstr) : jsstr := take (length s - length s') s.

(** ** The matcher

    A match ends in a state: the captures and the rest of the input.  The matcher
    takes the continuation of the language definition, which decides whether the
    pattern to the right can still succeed. *)
Definition mstate : Type := caps * jsstr.
Definition mcont : Type := caps -> jsstr -> option mstate.

(** RepeatMatcher of the language definition.  An iteration beyond the minimum
    that consumes nothing fails, so [min + length s + 1] rounds are enough. *)
Fixpoint repeat_match (m : caps -> jsstr -> mcont -> option mstate)
    (greedy : bool) (reset : caps -> caps) (fuel min : nat) (max : option nat)
    (c : caps) (s : jsstr) (k : mcont) : option mstate :=
  match fuel with
  | O => None
  | S fuel' =>
      if bool_decide (max = Some 0%nat) then k c s else
      let again :=
        m (reset c) s (fun c' s' =>
          if ((min =? 0) && (length s' =? length s))%nat then None
          else repeat_match m greedy reset fuel' (min - 1) (Nat.pred <$> max) c' s' k) in
      if (0 <? min)%nat then again
      else if greedy then match again with Some x => Some x | None => k c s end
      else match k c s with Some x => Some x | None => again end
  end.

(** [total] is the length of the whole input. *)
Fixpoint rmatch (total : nat) (r : regex) (c : caps) (s : jsstr) (k : mcont) : option mstate :=
  match r with
  | REmpty => k c s
  | RChar x => match s with y :: s' => if x =? y then k c s' else None | [] => None end
  | RClass neg items =>
      match s with y :: s' => if class_ok neg items y then k c s' else None | [] => None end
  | RSeq r1 r2 => rmatch total r1 c s (fun c' s' => rmatch total r2 c' s' k)
  | RAlt r1 r2 =>
      match rmatch total r1 c s k with Some x => Some x | None => rmatch total r2 c s k end
  | RRepeat min max greedy lo hi r1 =>
      repeat_match (rmatch total r1) greedy (cap_reset lo hi) (min + length s + 1) min max c s k
  | RGroup n r1 => rmatch total r1 c s (fun c' s' => k ((n, consumed s s') :: c') s')
  | RLook pos r1 =>
      match rmatch total r1 c s (fun c' s' => Some (c', s')) with
      | Some (c', _) => if pos then k c' s else None
      | None => if pos then None else k c s
      end
  | RBol => if (length s =? total)%nat then k c s else None
  | REol => match s with [] => k c s | _ => None end
  | RForeign => None
  end.

(** One attempt at the suffix [s] of an input of length [total]. *)
Definition match_at (total : nat) (r : regex) (s : jsstr) : option mstate :=
  rmatch total r [] s (fun c s' => Some (c, s')).

(** [re.exec(s)]: the leftmost match; its position, its text and its captures. *)
Record match_result : Type := MatchResult { m_index : Z; m_text : jsstr; m_caps : caps }.

Fixpoint exec_from (total : nat) (r : regex) (s : jsstr) (i : Z) : option match_result :=
  match match_at total r s with
  | Some (c, s') => Some (MatchResult i (consumed s s') c)
  | None => match s with
            | [] => None
            | _ :: s1 => exec_from total r s1 (i + 1)
            end
  end.

Definition regex_exec (r : regex) (s : jsstr) : option match_result :=
  exec_from (length s) r s 0.

(** [re.test(s)], and [s.match(re)] in a condition. *)
Definition regex_test (r : regex) (s : jsstr) : bool :=
  match regex_exec r s with Some _ => true | None => false end.

(** The ignore-case flag: a code unit is compared with the members of a class
    after both went through the case mapping [canon]. *)
Definition fold_item (canon : Z -> Z) (it : class_item) : class_item :=
  CFold canon (fun a => item_match a it).

Fixpoint fold_case (canon : Z -> Z) (r : regex) : regex :=
  match r with
  | RChar x => RClass false [fold_item canon (CRange x x)]
  | RClass neg items => RClass neg (map (fold_item canon) items)
  | RSeq r1 r2 => RSeq (fold_case canon r1) (fold_case canon r2)
  | RAlt r1 r2 => RAlt (fold_case canon r1) (fold_case canon r2)
  | RRepeat min max greedy lo hi r1 => RRepeat min max greedy lo hi (fold_case canon r1)
  | RGroup n r1 => RGroup n (fold_case canon r1)
  | RLook pos r1 => RLook pos (fold_case canon r1)
  | REmpty | RBol | REol | RForeign => r
  end.

(** [s.split(re)] for a pattern without groups that never matches the empty
    text; [skip] code units belong to the separator just read. *)
Fixpoint split_re_loop (total : nat) (r : regex) (skip : nat) (cur s : jsstr) : list jsstr :=
  match s with
  | [] => [cur]
  | x :: s1 =>
      match skip with
      | S n => split_re_loop total r n cur s1
      | O =>
          match match_at total r s with
          | Some (_, s') =>
              let n := length (consumed s s') in
              if (n =? 0)%nat then split_re_loop total r 0 (cur ++ [x]) s1
              else cur :: split_re_loop total r (n - 1) [] s1
          | None => split_re_loop total r 0 (cur ++ [x]) s1
          end
      end
  end.

Definition regex_split (r : regex) (s : jsstr) : list jsstr := split_re_loop (length s) r 0 [] s.

(** [s.replace(re, f)] for a global pattern: [f] gets the match.  [skip] code
    units belong to the previous match. *)
Fixpoint replace_loop (total : nat) (r : regex) (f : match_result -> jsstr) (skip : nat)
    (s : jsstr) (i : Z) : jsstr :=
  match skip, s with
  | S n, _ :: s1 => replace_loop total r f n s1 (i + 1)
  | _, _ =>
      match match_at total r s with
      | Some (c, s') =>
          let m := consumed s s' in
          match s with
          | [] => f (MatchResult i m c)
          | x :: s1 =>
              f (MatchResult i m c) ++
              (if (length m =? 0)%nat then x :: replace_loop total r f 0 s1 (i + 1)
               else replace_loop total r f (length m - 1) s1 (i + 1))
          end
      | None => match s with [] => [] | x :: s1 => x :: replace_loop total r f 0 s1 (i + 1) end
      end
  end.

Definition replace_global (r : regex) (f : match_result -> jsstr) (s : jsstr) : jsstr :=
  replace_loop (length s) r f 0 s 0.

(** [s.replace(re, f)] for a pattern without the global flag. *)
Definition replace_first (r : regex) (f : match_result -> jsstr) (s : jsstr) : jsstr :=
  match regex_exec r s with
  | None => s
  | Some m =>
      js_slice s 0 (m_index m) ++ f m ++ js_slice_from s (m_index m + js_len (m_text m))
  end.

(** ** Parsing pattern text *)
Definition hex_val (c : Z) : option Z :=
  if in_range 48 57 c then Some (c - 48)
  else if in_range 65 70 c then Some (c - 55)
  else if in_range 97 102 c then Some (c - 87)
  else None.

Fixpoint hex_num (acc : Z) (s : jsstr) : option Z :=
  match s with
  | [] => Some acc
  | c :: r => match hex_val c with Some d => hex_num (16 * acc + d) r | None => None end
  end.

(** Up to [n] octal digits whose value stays below 256. *)
Fixpoint parse_octal (n : nat) (acc : Z) (s : jsstr) : Z * jsstr :=
  match n, s with
  | S n', c :: r =>
      if in_range 48 55 c && (8 * acc + (c - 48) <=? 255) then parse_octal n' (8 * acc + (c - 48)) r
      else (acc, s)
  | _, _ => (acc, s)
  end.

Definition is_letter (c : Z) : bool := in_range 65 90 c || in_range 97 122 c.

(** An escape with a fixed number of hexadecimal digits; without them the letter
    stands for itself. *)
Definition hex_escape (n : nat) (c : Z) (r : jsstr) : class_item * jsstr :=
  match (if (n <=? length r)%nat then hex_num 0 (take n r) else None) with
  | Some v => (CRange v v, drop n r)
  | None => (CRange c c, r)
  end.

(** The escape after a backslash: a class, or one code unit.  A word boundary and
    a back-reference exist outside brackets only, where [None] stands for them. *)
Definition parse_escape (in_class : bool) (s : jsstr) : option (option class_item * jsstr) :=
  match s with
  | [] => None
  | c :: r =>
      let unit_ v := Some (Some (CRange v v), r) in
      if c =? chr "s" then Some (Some (CSpace true), r)
      else if c =? chr "S" then Some (Some (CSpace false), r)
      else if c =? chr "d" then Some (Some (CDigit true), r)
      else if c =? chr "D" then Some (Some (CDigit false), r)
      else if c =? chr "w" then Some (Some (CWord true), r)
      else if c =? chr "W" then Some (Some (CWord false), r)
      else if c =? chr "n" then unit_ 10
      else if c =? chr "r" then unit_ 13
      else if c =? chr "t" then unit_ 9
      else if c =? chr "f" then unit_ 12
      else if c =? chr "v" then unit_ 11
      else if c =? chr "b" then if in_class then unit_ 8 else Some (None, r)
      else if (c =? chr "B") && negb in_class then Some (None, r)
      else if c =? chr "u" then let '(it, r1) := hex_escape 4 c r in Some (Some it, r1)
      else if c =? chr "x" then let '(it, r1) := hex_escape 2 c r in Some (Some it, r1)
      else if c =? chr "c" then
        match r with
        | d :: r1 =>
            if is_letter d || in_class && (is_digit d || (d =? 95))
            then Some (Some (CRange (d mod 32) (d mod 32)), r1)
            else Some (Some (CRange 92 92), s)
        | [] => Some (Some (CRange 92 92), s)
        end
      else if is_digit c then
        if negb in_class && negb (c =? 48) then Some (None, r)
        else if in_range 48 55 c then
          let '(v, r1) := parse_octal 3 0 s in Some (Some (CRange v v), r1)
        else unit_ c
      else unit_ c
  end.

Definition regex_of_item (it : class_item) : regex :=
  match it with
  | CRange lo hi => if lo =? hi then RChar lo else RClass false [it]
  | _ => RClass false [it]
  end.

Definition class_atom (s : jsstr) : option (class_item * jsstr) :=
  match s with
  | [] => None
  | c :: r =>
      if c =? chr "\" then
        match parse_escape true r with Some (Some it, r1) => Some (it, r1) | _ => None end
      else Some (CRange c c, r)
  end.

(** The inside of a bracket, up to its closing bracket. *)
Fixpoint parse_class (fuel : nat) (s : jsstr) : option (list class_item * jsstr) :=
  match fuel with
  | O => None
  | S fuel' =>
      match s with
      | [] => None
      | c :: r =>
          if c =? chr "]" then Some ([], r) else
          match class_atom s with
          | None => None
          | Some (it, r1) =>
              match it, r1 with
              | CRange lo _, d :: e :: _ =>
                  if (d =? chr "-") && negb (e =? chr "]") then
                    match class_atom (drop 1 r1) with
                    | Some (CRange hi _, r2) =>
                        if hi <? lo then None
                        else match parse_class fuel' r2 with
                             | Some (l, r3) => Some (CRange lo hi :: l, r3)
                             | None => None
                             end
                    | Some (it2, r2) =>
                        match parse_class fuel' r2 with
                        | Some (l, r3) => Some (it :: CRange d d :: it2 :: l, r3)
                        | None => None
                        end
                    | None => None
                    end
                  else match parse_class fuel' r1 with
                       | Some (l, r3) => Some (it :: l, r3)
                       | None => None
                       end
              | _, _ => match parse_class fuel' r1 with
                        | Some (l, r3) => Some (it :: l, r3)
                        | None => None
                        end
              end
          end
      end
  end.

Fixpoint parse_nat (acc : option nat) (s : jsstr) : option nat * jsstr :=
  match s with
  | c :: r =>
      if is_digit c then parse_nat (Some (10 * default 0%nat acc + Z.to_nat (c - 48))%nat) r
      else (acc, s)
  | [] => (acc, s)
  end.

(** Bounds of a quantifier, if one starts here. *)
Definition parse_bounds (s : jsstr) : option (nat * option nat * jsstr) :=
  match s with
  | [] => None
  | c :: r =>
      if c =? chr "*" then Some (0%nat, None, r)
      else if c =? chr "+" then Some (1%nat, None, r)
      else if c =? chr "?" then Some (0%nat, Some 1%nat, r)
      else if c =? chr "{" then
        match parse_nat None r with
        | (Some a, d :: r1) =>
            if d =? chr "}" then Some (a, Some a, r1)
            else if d =? chr "," then
              match parse_nat None r1 with
              | (b, e :: r2) => if e =? chr "}" then Some (a, b, r2) else None
              | _ => None
              end
            else None
        | _ => None
        end
      else None
  end.

(** [None]: the bounds are out of order. *)
Definition apply_quant (lo hi : nat) (r : regex) (s : jsstr) : option (regex * jsstr) :=
  match parse_bounds s with
  | None => Some (r, s)
  | Some (a, b, s1) =>
      if (default a b <? a)%nat then None else
      match s1 with
      | c :: s2 => if c =? chr "?" then Some (RRepeat a b false lo hi r, s2)
                   else Some (RRepeat a b true lo hi r, s1)
      | [] => Some (RRepeat a b true lo hi r, s1)
      end
  end.

(** [parse_alt] reads alternatives up to a closing parenthesis or the end;
    [parse_seq] one alternative.  [n] is the number of the next group. *)
Fixpoint parse_alt (fuel n : nat) (s : jsstr) : option (regex * nat * jsstr) :=
  match fuel with
  | O => None
  | S fuel' =>
      match parse_seq fuel' n s with
      | None => None
      | Some (r, n1, s1) =>
          match s1 with
          | c :: s2 =>
              if c =? chr "|" then
                match parse_alt fuel' n1 s2 with
                | Some (r', n2, s3) => Some (RAlt r r', n2, s3)
                | None => None
                end
              else Some (r, n1, s1)
          | [] => Some (r, n1, s1)
          end
      end
  end
with parse_seq (fuel n : nat) (s : jsstr) : option (regex * nat * jsstr) :=
  match fuel with
  | O => None
  | S fuel' =>
      match s with
      | [] => Some (REmpty, n, s)
      | c :: s1 =>
          if (c =? chr "|") || (c =? chr ")") then Some (REmpty, n, s)
          else match parse_term fuel' n s with
               | None => None
               | Some (r, n1, s2) =>
                   match parse_seq fuel' n1 s2 with
                   | Some (r', n2, s3) => Some (RSeq r r', n2, s3)
                   | None => None
                   end
               end
      end
  end
with parse_term (fuel n : nat) (s : jsstr) : option (regex * nat * jsstr) :=
  match fuel with
  | O => None
  | S fuel' =>
      let quant n1 r rest :=
        match apply_quant n n1 r rest with Some (q, s2) => Some (q, n1, s2) | None => None end in
      match s with
      | [] => None
      | c :: s1 =>
          if c =? chr "^" then Some (RBol, n, s1)
          else if c =? chr "$" then Some (REol, n, s1)
          else if c =? chr "(" then
            let kind := take 2 s1 in
            let plain := negb (starts_with [chr "?"] s1) in
            let look := bool_decide (kind = js "?=") || bool_decide (kind = js "?!") in
            if negb plain && negb look && negb (bool_decide (kind = js "?:")) then None else
            match parse_alt fuel' (if plain then S n else n) (if plain then s1 else drop 2 s1) with
            | Some (r, n1, d :: s3) =>
                if negb (d =? chr ")") then None else
                quant n1 (if look then RLook (bool_decide (kind = js "?=")) r
                          else if plain then RGroup n r else r) s3
            | _ => None
            end
          else if bool_decide (is_Some (parse_bounds s)) then None
          else if c =? chr "." then quant n (RClass true dot_items) s1
          else if c =? chr "[" then
            let neg := starts_with [chr "^"] s1 in
            match parse_class (S (length s1)) (if neg then drop 1 s1 else s1) with
            | Some (items, s2) => quant n (RClass neg items) s2
            | None => None
            end
          else if c =? chr "\" then
            match parse_escape false s1 with
            | Some (Some it, s2) => quant n (regex_of_item it) s2
            | Some (None, s2) =>
                if is_digit (default 0 (head s1)) then quant n RForeign s2 else Some (RForeign, n, s2)
            | None => None
            end
          else quant n (RChar c) s1
      end
  end.

(** [new RegExp(text)]: [None] is a SyntaxError.  Every call consumes text or
    descends three levels, hence the bound. *)
Definition regex_parse (text : jsstr) : option regex :=
  match parse_alt (3 * length text + 3) 1 text with
  | Some (r, _, []) => Some r
  | _ => None
  end.

(** A literal of the sources. *)
Definition regex_lit (text : string) : regex := default REmpty (regex_parse (js text)).
Arguments regex_lit text%_string.

(** ** What a pattern means

    [den total r c s c' s']: from captures [c] and input [s] the pattern [r] can
    match a prefix of [s], leaving captures [c'] and input [s']. *)
Definition mrel : Type := caps -> jsstr -> caps -> jsstr -> Prop.

Inductive rep_rel (R : mrel) (reset : caps -> caps) : nat -> option nat -> mrel :=
| rep_stop min max c s :
    max = Some 0%nat \/ min = 0%nat -> rep_rel R reset min max c s c s
| rep_step min max c s c1 s1 c2 s2 :
    max <> Some 0%nat -> R (reset c) s c1 s1 ->
    (min = 0%nat -> length s1 <> length s) ->
    rep_rel R reset (min - 1) (Nat.pred <$> max) c1 s1 c2 s2 ->
    rep_rel R reset min max c s c2 s2.

Fixpoint den (total : nat) (r : regex) (c : caps) (s : jsstr) (c' : caps) (s' : jsstr) : Prop :=
  match r with
  | REmpty => c' = c /\ s' = s
  | RChar x => c' = c /\ s = x :: s'
  | RClass neg items => c' = c /\ exists y, s = y :: s' /\ class_ok neg items y = true
  | RSeq r1 r2 => exists c1 s1, den total r1 c s c1 s1 /\ den total r2 c1 s1 c' s'
  | RAlt r1 r2 => den total r1 c s c' s' \/ den total r2 c s c' s'
  | RRepeat min max _ lo hi r1 => rep_rel (den total r1) (cap_reset lo hi) min max c s c' s'
  | RGroup n r1 => exists c1, den total r1 c s c1 s' /\ c' = (n, consumed s s') :: c1
  | RLook true r1 => s' = s /\ exists s1, den total r1 c s c' s1
  | RLook false r1 => c' = c /\ s' = s /\ forall c1 s1, ~ den total r1 c s c1 s1
  | RBol => c' = c /\ s' = s /\ length s = total
  | REol => c' = c /\ s' = s /\ s = []
  | RForeign => False
  end.

(** A match leaves a suffix of the input. *)
Lemma rep_rel_suffix R reset min max c s c' s' :
  (forall c s c' s', R c s c' s' -> s' `suffix_of` s) ->
  rep_rel R reset min max c s c' s' -> s' `suffix_of` s.
Proof.
  intros HR. induction 1 as [|min max c s c1 s1 c2 s2 _ H1 _ _ IH]; [done|].
  etrans; [exact IH|eauto].
Qed.

Lemma den_suffix total r c s c' s' : den total r c s c' s' -> s' `suffix_of` s.
Proof.
  revert c s c' s'; induction r as [|x|neg items|r1 IH1 r2 IH2|r1 IH1 r2 IH2|min max g lo hi r IH
    |n r IH|[] r IH| | |]; intros c s c' s'; cbn [den].
  - by intros [_ ->].
  - intros [_ ->]. by exists [x].
  - intros (_ & y & -> & _). by exists [y].
  - intros (c1 & s1 & H1 & H2). etrans; [eapply IH2, H2|eapply IH1, H1].
  - intros [H|H]; eauto.
  - apply rep_rel_suffix, IH.
  - intros (c1 & H & _). eauto.
  - by intros [-> _].
  - by intros (_ & -> & _).
  - by intros (_ & -> & _).
  - by intros (_ & -> & _).
  - done.
Qed.

(** Without back-references no decision looks at the captures: a continuation
    that is blind to them stays so under every pattern. *)
Definition blind (k : mcont) : Prop := forall c1 c2 s, is_Some (k c1 s) -> is_Some (k c2 s).

Lemma repeat_match_blind m greedy reset fuel min max k :
  (forall k, blind k -> blind (fun c s => m c s k)) -> blind k ->
  blind (fun c s => repeat_match m greedy reset fuel min max c s k).
Proof.
  intros Hm Hk. revert min max. induction fuel as [|fuel IH]; intros min max c1 c2 s; cbn; [done|].
  case_bool_decide; [apply Hk|].
  assert (forall c c', is_Some (m (reset c) s (fun c' s' =>
            if ((min =? 0) && (length s' =? length s))%nat then None
            else repeat_match m greedy reset fuel (min - 1) (Nat.pred <$> max) c' s' k)) ->
          is_Some (m (reset c') s (fun c' s' =>
            if ((min =? 0) && (length s' =? length s))%nat then None
            else repeat_match m greedy reset fuel (min - 1) (Nat.pred <$> max) c' s' k))) as Ha.
  { intros c c'. apply Hm. intros c3 c4 s'. case_match; [done|]. apply IH. }
  specialize (Ha c1 c2). specialize (Hk c1 c2 s).
  case_match; [exact Ha|]. destruct greedy.
  - destruct (m (reset c1) _ _); [intros _; destruct Ha as [y ->]; [by eexists|done]|].
    intros H1. by destruct (m (reset c2) _ _); [|apply Hk].
  - destruct (k c1 s); [intros _; destruct Hk as [y ->]; [by eexists|done]|].
    intros H1. by destruct (k c2 s); [|apply Ha].
Qed.

Lemma rmatch_blind total r k : blind k -> blind (fun c s => rmatch total r c s k).
Proof.
  revert k; induction r as [|x|neg items|r1 IH1 r2 IH2|r1 IH1 r2 IH2|min max g lo hi r IH
    |n r IH|pos r IH| | |]; intros k Hk c1 c2 s; cbn [rmatch].
  - apply Hk.
  - destruct s; [done|]. case_match; [apply Hk|done].
  - destruct s; [done|]. case_match; [apply Hk|done].
  - apply IH1, IH2, Hk.
  - specialize (IH1 k Hk c1 c2 s). specialize (IH2 k Hk c1 c2 s). cbn in *.
    destruct (rmatch total r1 c1 s k).
    + intros _. destruct IH1 as [y ->]; [by eexists|done].
    + intros H. by destruct (rmatch total r1 c2 s k); [|apply IH2].
  - by apply repeat_match_blind.
  - apply IH. intros c3 c4 s'. apply Hk.
  - assert (blind (fun c s => Some (c, s))) as Hb by (intros ???; by eexists).
    pose proof (IH _ Hb c1 c2 s) as H1. pose proof (IH _ Hb c2 c1 s) as H2. cbn in *.
    destruct (rmatch total r c1 s _) as [[c3 s3]|].
    + destruct H1 as [[c4 s4] ->]; [by eexists|]. destruct pos; [apply Hk|done].
    + destruct (rmatch total r c2 s _); [by destruct H2 as [? [=]]; eexists|].
      destruct pos; [done|apply Hk].
  - case_match; [apply Hk|done].
  - destruct s; [apply Hk|done].
  - done.
Qed.

(** What the matcher owes a relation: a success comes from a match whose
    continuation succeeds, and a match with a succeeding continuation is not
    missed. *)
Definition implements (m : caps -> jsstr -> mcont -> option mstate) (R : mrel) : Prop :=
  forall c s k,
    (forall x, m c s k = Some x -> exists c' s', R c s c' s' /\ k c' s' = Some x) /\
    (blind k -> forall c' s', R c s c' s' -> is_Some (k c' s') -> is_Some (m c s k)).

Lemma repeat_match_sound m R greedy reset fuel min max c s k x :
  implements m R -> repeat_match m greedy reset fuel min max c s k = Some x ->
  exists c' s', rep_rel R reset min max c s c' s' /\ k c' s' = Some x.
Proof.
  intros Hm. revert min max c s; induction fuel as [|fuel IH]; intros min max c s; cbn; [done|].
  case_bool_decide as Hmax; [intros Hk; exists c, s; split; [constructor; auto|done]|].
  set (again := m _ _ _).
  assert (again = Some x -> exists c' s', rep_rel R reset min max c s c' s' /\ k c' s' = Some x) as Ha.
  { intros (c1 & s1 & H1 & H2)%Hm. case_match eqn:E; [done|].
    apply IH in H2 as (c2 & s2 & H2 & Hk). exists c2, s2. split; [|done].
    apply (rep_step R reset min max c s c1 s1); [done|done| |done].
    intros ->. by apply andb_false_iff in E as [?|?%Nat.eqb_neq]. }
  assert (min = 0%nat -> k c s = Some x ->
    exists c' s', rep_rel R reset min max c s c' s' /\ k c' s' = Some x) as Hk.
  { intros -> H. exists c, s. split; [constructor; auto|done]. }
  clearbody again. destruct min as [|min]; [|exact Ha].
  destruct greedy.
  - destruct again; [exact Ha|]. apply Hk. lia.
  - destruct (k c s); [apply Hk; lia|exact Ha].
Qed.

Lemma repeat_match_complete m R greedy reset fuel min max c s k c' s' :
  implements m R -> (forall k, blind k -> blind (fun c s => m c s k)) -> blind k ->
  (forall c s c' s', R c s c' s' -> s' `suffix_of` s) -> rep_rel R reset min max c s c' s' -> (min + length s < fuel)%nat -> is_Some (k c' s') ->
  is_Some (repeat_match m greedy reset fuel min max c s k).
Proof.
  intros Hm Hb Hbk Hs Hr. revert fuel. induction Hr as [min max c s H|min max c s c1 s1 c2 s2 Hmax H1 Hne _ IH];
    intros [|fuel] Hf Hk; [lia| |lia|]; cbn.
  - case_bool_decide; [done|]. destruct H as [?| ->]; [done|]. cbn.
    destruct greedy; [by destruct (m _ _ _)|]. destruct Hk as [x ->]. done.
  - rewrite bool_decide_false by done.
    match goal with |- context [m (reset c) s ?kk] => set (k1 := kk) end.
    assert (is_Some (m (reset c) s k1)) as Ha.
    { destruct (Hm (reset c) s k1) as [_ Hc]. eapply Hc; [|exact H1|]; unfold k1.
      { intros c3 c4 s'. case_match; [done|]. by apply repeat_match_blind. }
      pose proof (suffix_length _ _ (Hs _ _ _ _ H1)).
      destruct ((min =? 0) && (length s1 =? length s))%nat eqn:E.
      - apply andb_true_iff in E as [E1%Nat.eqb_eq E2%Nat.eqb_eq]. by destruct (Hne E1).
      - apply IH; [|done]. apply andb_false_iff in E as [E%Nat.eqb_neq|E%Nat.eqb_neq]; lia. }
    clearbody k1. destruct min; [|done]. destruct greedy.
    + destruct Ha as [x ->]. done.
    + by destruct (k c s).
Qed.

(** Looking ahead: the captures of what was seen stay, its text is given back. *)
Lemma look_implements total pos r : implements (rmatch total r) (den total r) ->
  implements (rmatch total (RLook pos r)) (den total (RLook pos r)).
Proof.
  intros IH c s k. cbn [rmatch den].
  set (kk := fun (c' : caps) (s' : jsstr) => Some (c', s')).
  assert (blind kk) as Hbk by (intros ???; by eexists).
  destruct (IH c s kk) as [Hs Hc]. destruct (rmatch total r c s kk) as [[c1 s1]|] eqn:E.
  - destruct (Hs _ eq_refl) as (c2 & s2 & H2 & [= -> ->]). destruct pos.
    + split; [by eauto 10|]. intros Hb c' s' (-> & s3 & _). apply Hb.
    + split; [done|]. intros _ c' s' (_ & _ & Hn). by destruct (Hn _ _ H2).
  - assert (forall c' s', ~ den total r c s c' s') as Hn.
    { intros c' s' H. destruct (Hc Hbk _ _ H) as [y Hy]; [by eexists|done]. }
    destruct pos.
    + split; [done|]. intros _ c' s' (-> & s1 & H1). by destruct (Hn _ _ H1).
    + split; [|by intros _ c' s' (-> & -> & _)]. intros x Hk. by exists c, s.
Qed.

Lemma rmatch_implements total r : implements (rmatch total r) (den total r).
Proof.
  induction r as [|x|neg items|r1 IH1 r2 IH2|r1 IH1 r2 IH2|min max g lo hi r IH
    |n r IH|pos r IH| | |]; intros c s k; cbn [rmatch den].
  - split; [by eauto|]. by intros _ c' s' [-> ->].
  - split.
    + intros y H. destruct s as [|z s]; [done|]. case_match eqn:E; [|done]. bool_props. subst. eauto.
    + intros _ c' s' [-> ->]. by rewrite Z.eqb_refl.
  - split.
    + intros y H. destruct s as [|z s]; [done|]. case_match eqn:E; [|done]. eauto 10.
    + intros _ c' s' (-> & y & -> & E). by rewrite E.
  - split.
    + intros x (c1 & s1 & H1 & (c2 & s2 & H2 & Hk)%IH2)%IH1. eauto 10.
    + intros Hb c' s' (c1 & s1 & H1 & H2) Hk. eapply IH1; [by apply rmatch_blind|exact H1|].
      by eapply IH2.
  - split.
    + intros x H. destruct (rmatch total r1 c s k) eqn:E; simplify_eq.
      * apply IH1 in E as (c' & s' & ? & ?). eauto.
      * apply IH2 in H as (c' & s' & ? & ?). eauto.
    + intros Hb c' s' [H|H] Hk.
      * destruct (IH1 c s k) as [_ Hc]. destruct (Hc Hb c' s' H Hk) as [y ->]. done.
      * destruct (rmatch total r1 c s k); [done|]. by eapply IH2.
  - split.
    + intros x. by apply repeat_match_sound.
    + intros Hb c' s' H Hk.
      eapply repeat_match_complete;
        [exact IH|apply rmatch_blind|exact Hb|apply den_suffix|exact H|lia|done].
  - split.
    + intros x (c1 & s1 & H1 & Hk)%IH. eauto 10.
    + intros Hb c' s' (c1 & H1 & ->) Hk. eapply IH; [|exact H1|exact Hk].
      intros c3 c4 s3. apply Hb.
  - by apply look_implements.
  - split.
    + intros x. case_match eqn:E; [|done]. apply Nat.eqb_eq in E. intros. by exists c, s.
    + intros _ c' s' (-> & -> & ->). by rewrite Nat.eqb_refl.
  - split.
    + intros x. destruct s; [|done]. intros. by exists c, [].
    + by intros _ c' s' (-> & -> & ->).
  - by split.
Qed.

(** ** One attempt, leftmost search and tests *)
Lemma match_at_sound total r s c' s' :
  match_at total r s = Some (c', s') -> den total r [] s c' s'.
Proof. by intros (c & s1 & H & [= -> ->])%rmatch_implements. Qed.

Lemma match_at_complete total r s c' s' :
  den total r [] s c' s' -> is_Some (match_at total r s).
Proof.
  intros H. unfold match_at. destruct (rmatch_implements total r [] s (fun c s => Some (c, s))) as [_ Hc].
  eapply Hc; [|exact H|by eexists]. intros ???. by eexists.
Qed.

Lemma exec_from_spec total r s i :
  (exec_from total r s i = None /\ forall n c' s', ~ den total r [] (drop n s) c' s') \/
  (exists n c' s', (n <= length s)%nat /\
    exec_from total r s i = Some (MatchResult (i + Z.of_nat n) (consumed (drop n s) s') c') /\
    match_at total r (drop n s) = Some (c', s') /\
    forall k, (k < n)%nat -> match_at total r (drop k s) = None).
Proof.
  revert i; induction s as [|x s IH]; intros i; cbn [exec_from].
  - destruct (match_at total r []) as [[c' s']|] eqn:E.
    + right. exists 0%nat, c', s'. cbn [drop length]. rewrite Z.add_0_r.
      split; [lia|]. split; [done|]. split; [done|lia].
    + left. split; [done|]. intros n c' s' H. rewrite drop_nil in H.
      apply match_at_complete in H as [? H]. congruence.
  - destruct (match_at total r (x :: s)) as [[c' s']|] eqn:E.
    + right. exists 0%nat, c', s'. cbn [drop length]. rewrite Z.add_0_r.
      split; [lia|]. split; [done|]. split; [done|lia].
    + destruct (IH (i + 1)) as [[-> Hn]|(n & c' & s' & Hl & -> & Hm & Hb)].
      * left. split; [done|]. intros [|n] c' s' H; [|by apply Hn in H].
        apply match_at_complete in H as [? H]. cbn [drop] in H. congruence.
      * right. exists (S n), c', s'. cbn [drop length]. split; [lia|].
        split; [do 2 f_equal; lia|]. split; [done|]. intros [|k] Hk; [done|]. apply Hb. lia.
Qed.

(** [re.test(s)] holds exactly when the pattern matches at some position. *)
Lemma regex_test_spec r s :
  regex_test r s = true <-> exists n c' s', den (length s) r [] (drop n s) c' s'.
Proof.
  unfold regex_test, regex_exec. destruct (exec_from_spec (length s) r s 0)
    as [[-> Hn]|(n & c' & s' & _ & -> & Hm & _)].
  - split; [done|]. intros (n & c' & s' & H). by apply Hn in H.
  - split; [|done]. intros _. exists n, c', s'. by apply match_at_sound.
Qed.

(** ** Repetition of a single code unit *)
Lemma cap_reset_none n c : cap_reset n n c = c.
Proof.
  unfold cap_reset. induction c as [|[m s] c IH]; [done|]. cbn [List.filter fst].
  destruct ((n <=? m) && (m <? n))%nat eqn:E; [|cbn [negb]; by rewrite IH].
  apply andb_true_iff in E as [?%Nat.leb_le ?%Nat.ltb_lt]. lia.
Qed.

Lemma consumed_app p s : consumed (p ++ s) s = p.
Proof.
  unfold consumed. rewrite length_app. replace (length p + length s - length s)%nat with (length p) by lia.
  apply take_app_length.
Qed.

Lemma consumed_self s : consumed s s = [].
Proof. apply (consumed_app []). Qed.

(** A pattern that reads exactly one code unit. *)
Definition single (R : mrel) (P : Z -> Prop) : Prop :=
  forall c s c' s', R c s c' s' <-> c' = c /\ exists y, s = y :: s' /\ P y.

Lemma single_class total neg items : single (den total (RClass neg items)) (fun y => class_ok neg items y = true).
Proof. intros c s c' s'. done. Qed.

Lemma single_char total x : single (den total (RChar x)) (fun y => y = x).
Proof. intros c s c' s'. cbn. naive_solver. Qed.

Lemma rep_single R P n min max c s c' s' :
  single R P -> (forall m, max = Some m -> (min <= m)%nat) ->
  rep_rel R (cap_reset n n) min max c s c' s' <->
  c' = c /\ exists p, s = p ++ s' /\ Forall P p /\ (min <= length p)%nat /\
    forall m, max = Some m -> (length p <= m)%nat.
Proof.
  intros HR Hmax. split.
  - intros H. revert Hmax. induction H as [min max c s H|min max c s c1 s1 c2 s2 Hm H1 _ _ IH]; intros Hmax.
    + split; [done|]. exists []. split; [done|]. split; [constructor|]. cbn.
      split; [|intros; lia]. destruct H as [->|]; [|lia]. specialize (Hmax _ eq_refl). lia.
    + rewrite cap_reset_none in H1. apply HR in H1 as (-> & y & -> & Hy).
      destruct IH as (-> & p & -> & Hp & Hlen & Hlm).
      { intros m Em. destruct max as [m'|]; [|done]. injection Em as <-. specialize (Hmax _ eq_refl). lia. }
      split; [done|]. exists (y :: p). split; [done|]. split; [by constructor|]. cbn [length].
      split; [lia|]. intros m ->. specialize (Hlm _ eq_refl). destruct m; [done|]. cbn in Hlm. lia.
  - intros (-> & p & -> & Hp & Hlen & Hlm). revert min max Hmax Hlen Hlm.
    induction Hp as [|y p Hy Hp IH]; intros min max Hmax Hlen Hlm; cbn in *.
    + constructor. lia.
    + apply (rep_step _ _ min max c _ c (p ++ s')).
      * intros ->. specialize (Hlm _ eq_refl). lia.
      * rewrite cap_reset_none. apply HR. eauto.
      * cbn. lia.
      * apply IH; [|lia|].
        -- intros m Em. destruct max as [m'|]; [|done]. injection Em as <-.
           specialize (Hmax _ eq_refl). lia.
        -- intros m Em. destruct max as [m'|]; [|done]. injection Em as <-.
           specialize (Hlm _ eq_refl). lia.
Qed.

(** A lazy repetition of a class that admits everything stops at the first
    suffix where the rest of the pattern succeeds. *)
Lemma repeat_lazy_any m1 n fuel c s k :
  (forall c s k, m1 c s k = match s with [] => None | _ :: s' => k c s' end) ->
  (length s < fuel)%nat ->
  let m := repeat_match m1 false (cap_reset n n) fuel 0 None c s k in
  (m = None /\ forall i, (i <= length s)%nat -> k c (drop i s) = None) \/
  (exists i, (i <= length s)%nat /\ m = k c (drop i s) /\ is_Some m /\
     forall j, (j < i)%nat -> k c (drop j s) = None).
Proof.
  intros Hall. revert fuel; induction s as [|y s IH]; intros [|fuel] Hf; cbn in Hf; [lia| |lia|];
    cbn [repeat_match]; rewrite bool_decide_false by done; cbn [Nat.ltb Nat.leb];
    rewrite cap_reset_none, Hall.
  - destruct (k c []) eqn:E.
    + right. exists 0%nat. cbn. rewrite E. split; [lia|]. split; [done|]. split; [by eexists|lia].
    + left. split; [done|]. intros i _. by rewrite drop_nil.
  - destruct (k c (y :: s)) eqn:E.
    + right. exists 0%nat. cbn. rewrite E. split; [lia|]. split; [done|]. split; [by eexists|lia].
    + rewrite (proj2 (Nat.eqb_neq (length s) (length (y :: s)))) by (cbn; lia).
      cbn [Nat.eqb andb Nat.sub].
      change (Nat.pred <$> @None nat) with (@None nat).
      destruct (IH fuel) as [[-> Hn]|(i & Hi & Hm & Hs & Hj)]; [lia| |].
      * left. split; [done|]. intros [|i] Hi; [done|]. apply Hn. cbn in Hi. lia.
      * right. exists (S i). cbn [length drop]. split; [lia|]. split; [done|]. split; [done|].
        intros [|j] Hlt; [done|]. apply Hj. lia.
Qed.

(** The classes of one or two code units and their complements. *)
Lemma in_range_unit c y : in_range c c y = (y =? c).
Proof. unfold in_range. destruct (y =? c) eqn:E; bool_props; lia. Qed.

Lemma class_not y c : class_ok true [CRange c c] y = true <-> y <> c.
Proof.
  unfold class_ok. cbn [existsb item_match]. rewrite in_range_unit, orb_false_r.
  rewrite xorb_true_l, negb_true_iff. apply Z.eqb_neq.
Qed.

Lemma class_is y c : class_ok false [CRange c c] y = true <-> y = c.
Proof.
  unfold class_ok. cbn [existsb item_match]. rewrite in_range_unit, orb_false_r. apply Z.eqb_eq.
Qed.

Lemma class_not2 y c d : class_ok true [CRange c c; CRange d d] y = true <-> y <> c /\ y <> d.
Proof.
  unfold class_ok. cbn [existsb item_match]. rewrite !in_range_unit, orb_false_r.
  rewrite xorb_true_l, negb_true_iff, orb_false_iff. by rewrite !Z.eqb_neq.
Qed.

Lemma class_any y : class_ok false [CSpace true; CSpace false] y = true.
Proof. unfold class_ok. cbn. by destruct (is_space y). Qed.

(** ** Texts a pattern can read *)

(** Every code unit the pattern consumes satisfies [P]. *)
Fixpoint reads_only (P : Z -> Prop) (r : regex) : Prop :=
  match r with
  | RChar x => P x
  | RClass neg items => forall y, class_ok neg items y = true -> P y
  | RSeq r1 r2 | RAlt r1 r2 => reads_only P r1 /\ reads_only P r2
  | RRepeat _ _ _ _ _ r1 | RGroup _ r1 => reads_only P r1
  | REmpty | RLook _ _ | RBol | REol | RForeign => True
  end.

Lemma rep_rel_reads (R : mrel) (P : Z -> Prop) reset min max c s c' s' :
  (forall c s c' s', R c s c' s' -> exists p, s = p ++ s' /\ Forall P p) ->
  rep_rel R reset min max c s c' s' -> exists p, s = p ++ s' /\ Forall P p.
Proof.
  intros HR. induction 1 as [|min max c s c1 s1 c2 s2 _ H1 _ _ (p2 & -> & Hp2)]; [by exists []|].
  apply HR in H1 as (p1 & -> & Hp1). exists (p1 ++ p2). split; [by rewrite app_assoc|by apply Forall_app].
Qed.

Lemma den_reads P total r c s c' s' :
  reads_only P r -> den total r c s c' s' -> exists p, s = p ++ s' /\ Forall P p.
Proof.
  revert c s c' s'; induction r as [|x|neg items|r1 IH1 r2 IH2|r1 IH1 r2 IH2|min max g lo hi r IH
    |n r IH|[] r IH| | |]; intros c s c' s'; cbn [den reads_only]; intros Hr.
  - intros [_ ->]. by exists [].
  - intros [_ ->]. exists [x]. by repeat constructor.
  - intros (_ & y & -> & Hy). exists [y]. split; [done|]. constructor; [by apply Hr|constructor].
  - destruct Hr as [Hr1 Hr2]. intros (c1 & s1 & H1 & H2).
    apply IH1 in H1 as (p1 & -> & Hp1); [|done]. apply IH2 in H2 as (p2 & -> & Hp2); [|done].
    exists (p1 ++ p2). split; [by rewrite app_assoc|by apply Forall_app].
  - destruct Hr as [Hr1 Hr2]. intros [H|H]; eauto.
  - apply rep_rel_reads. eauto.
  - intros (c1 & H & _). eauto.
  - intros [-> _]. by exists [].
  - intros (_ & -> & _). by exists [].
  - intros (_ & -> & _). by exists [].
  - intros (_ & -> & _). by exists [].
  - done.
Qed.

(** The pattern ends in [$]. *)
Fixpoint ends_eol (r : regex) : bool :=
  match r with
  | REol => true
  | RSeq r1 REmpty => ends_eol r1
  | RSeq _ r2 => ends_eol r2
  | _ => false
  end.

Lemma den_ends_eol total r c s c' s' : ends_eol r = true -> den total r c s c' s' -> s' = [].
Proof.
  revert c s c' s'; induction r as [|x|ng it|r1 IH1 r2 IH2|r1 IH1 r2 IH2|mn mx g lo hi r IH|n r IH|pos r IH| | |];
    intros c s c' s' Hr H; try done.
  - cbn [den] in H. destruct H as (c1 & s1 & H1 & H2).
    assert (ends_eol r2 = true \/ (r2 = REmpty /\ ends_eol r1 = true)) as [He|[-> He]]
      by (destruct r2; cbn in Hr; auto).
    + by eapply IH2.
    + cbn in H2. destruct H2 as [_ ->]. by eapply IH1.
  - by destruct H as (_ & -> & ->).
Qed.

(** A test with an anchored pattern [^...$] decides the whole text. *)
Lemma test_anchored_reads P r s :
  ends_eol r = true -> reads_only P r -> regex_test (RSeq RBol r) s = true -> Forall P s.
Proof.
  intros He Hr H. apply regex_test_spec in H as (n & c' & s' & c1 & s1 & (-> & -> & Hl) & Hd).
  pose proof (den_ends_eol _ _ _ _ _ _ He Hd) as ->. apply (den_reads P) in Hd as (p & Hp & HF); [|done].
  rewrite length_drop in Hl. rewrite app_nil_r in Hp. destruct n as [|n]; [cbn in Hp; by subst|].
  destruct s as [|x s]; [constructor|]. cbn in Hl. lia.
Qed.

(** A pattern that starts with [^] is tried at the start only. *)
Lemma test_anchored r s :
  regex_test (RSeq RBol r) s = true <-> exists c' s', den (length s) r [] s c' s'.
Proof.
  rewrite regex_test_spec. split.
  - intros (n & c' & s' & c1 & s1 & (-> & -> & Hl) & Hd). rewrite length_drop in Hl.
    destruct n as [|n]; [eauto|]. destruct s as [|x s]; [eauto|]. cbn in Hl. lia.
  - intros (c' & s' & H). exists 0%nat, c', s', [], s. cbn [drop den]. auto.
Qed.

(** A class of single members. *)
Lemma class_members neg cs y :
  class_ok neg (map (fun c => CRange c c) cs) y = true <-> (if neg then y ∉ cs else y ∈ cs).
Proof.
  assert (existsb (item_match y) (map (fun c => CRange c c) cs) = bool_decide (y ∈ cs)) as E.
  { induction cs as [|c cs IH]; [done|]. cbn [map existsb item_match]. rewrite in_range_unit, IH.
    destruct (Z.eqb_spec y c) as [->|Hn].
    - symmetry. apply bool_decide_eq_true. left.
    - cbn [orb]. apply bool_decide_ext. rewrite elem_of_cons. naive_solver. }
  unfold class_ok. rewrite E. destruct neg; cbn [xorb]; case_bool_decide; cbn; split; (done || naive_solver).
Qed.

(** ** Parsing, term by term *)
Definition quant_free (s : jsstr) : Prop := parse_bounds s = None.

Lemma quant_free_cons c s : c <> chr "*" -> c <> chr "+" -> c <> chr "?" -> c <> chr "{" -> quant_free (c :: s).
Proof.
  intros ????. unfold quant_free, parse_bounds.
  repeat (match goal with |- context [c =? ?d] => destruct (Z.eqb_spec c d); [done|] end). done.
Qed.

Definition not_quant (c : Z) : Prop := c <> chr "*" /\ c <> chr "+" /\ c <> chr "?" /\ c <> chr "{".

(** The cases of a term. *)
Definition quant (n n1 : nat) (r : regex) (rest : jsstr) : option (regex * nat * jsstr) :=
  match apply_quant n n1 r rest with Some (q, s2) => Some (q, n1, s2) | None => None end.

Lemma quant_none n n1 r rest : quant_free rest -> quant n n1 r rest = Some (r, n1, rest).
Proof. unfold quant, apply_quant. by intros ->. Qed.

Lemma parse_term_bracket fuel n u :
  parse_term (S fuel) n (chr "[" :: u) =
  match parse_class (S (length u)) (if starts_with [chr "^"] u then drop 1 u else u) with
  | Some (items, s2) => quant n n (RClass (starts_with [chr "^"] u) items) s2
  | None => None
  end.
Proof. reflexivity. Qed.

Lemma parse_term_escape fuel n c u : (is_word_char c = false) ->
  parse_term (S fuel) n (chr "\" :: c :: u) = quant n n (RChar c) u.
Proof.
  intros Hc. transitivity (match parse_escape false (c :: u) with
    | Some (Some it, s2) => quant n n (regex_of_item it) s2
    | Some (None, s2) => if is_digit c then quant n n RForeign s2 else Some (RForeign, n, s2)
    | None => None end); [reflexivity|].
  assert (forall d, is_word_char d = true -> (c =? d) = false) as Hd.
  { intros d Hd. destruct (Z.eqb_spec c d); [congruence|done]. }
  unfold parse_escape. rewrite !Hd by reflexivity.
  assert (is_digit c = false) as ->.
  { unfold is_word_char in Hc. bool_props. done. }
  cbn [andb]. unfold regex_of_item. by rewrite Z.eqb_refl.
Qed.

Lemma parse_term_plain fuel n c u : (c ∉ js "^$(*+?{.[\") ->
  parse_term (S fuel) n (c :: u) = quant n n (RChar c) u.
Proof.
  intros Hc.
  assert (forall d, d ∈ js "^$(*+?{.[\" -> (c =? d) = false) as Hd.
  { intros d Hd. destruct (Z.eqb_spec c d); [congruence|done]. }
  cbn [parse_term]. unfold parse_bounds.
  rewrite !Hd by (apply (bool_decide_unpack _); vm_compute; exact I). cbn [andb orb].
  rewrite bool_decide_false by (intros [? [=]]). done.
Qed.

(** Reading a term in front of a sequence. *)
Lemma parse_seq_cons fuel n c s r n1 s2 : c <> chr "|" -> c <> chr ")" ->
  parse_term fuel n (c :: s) = Some (r, n1, s2) ->
  parse_seq (S fuel) n (c :: s) =
  match parse_seq fuel n1 s2 with Some (r', n2, s3) => Some (RSeq r r', n2, s3) | None => None end.
Proof.
  intros H1 H2 E. cbn [parse_seq]. destruct (Z.eqb_spec c (chr "|")); [done|].
  destruct (Z.eqb_spec c (chr ")")); [done|]. cbn [orb]. by rewrite E.
Qed.

(** A text of letters, digits and other characters of no meaning is read as itself. *)
Fixpoint text_ast (s : jsstr) : regex := match s with [] => REmpty | c :: s => RSeq (RChar c) (text_ast s) end.

Definition plain_text (s : jsstr) : Prop := Forall (fun c => c ∉ js "^$(*+?{.[\" ++ js "|)") s.

Lemma parse_seq_plain s fuel n : plain_text s -> (length s + 2 <= fuel)%nat ->
  parse_seq fuel n s = Some (text_ast s, n, []).
Proof.
  intros Hs. revert fuel. induction Hs as [|c s Hc Hs IH]; intros fuel Hf.
  - destruct fuel; [lia|done].
  - destruct fuel as [|[|fuel]]; [cbn in Hf; lia..|]. rewrite (parse_seq_cons (S fuel) n c s (RChar c) n s).
    + rewrite IH by (cbn in Hf; lia). done.
    + intros ->. apply Hc. apply (bool_decide_unpack _). vm_compute. exact I.
    + intros ->. apply Hc. apply (bool_decide_unpack _). vm_compute. exact I.
    + rewrite parse_term_plain by (intros Hin; apply Hc, elem_of_app; by left).
      apply quant_none. destruct Hs as [|d s Hd Hs]; [done|].
      apply quant_free_cons; intros ->; apply Hd; apply (bool_decide_unpack _); vm_compute; exact I.
Qed.

Lemma parse_plain s : plain_text s -> regex_parse s = Some (text_ast s).
Proof.
  intros Hs. unfold regex_parse. replace (3 * length s + 3)%nat with (S (3 * length s + 2)) by lia.
  cbn [parse_alt]. by rewrite parse_seq_plain by (done || lia).
Qed.
