(* ===== verification/JsLiteral.v ===== *)
(** * Replacing by a pattern, and string literals

    What [replace] with a global pattern does to a text, match by match; the JSON form of
    a string; and reading back the string that a literal of the language stands for. *)
From S2P Require Import Prelude JsString JsRegex.

(** The matches [s.replace(r, ...)] with a global pattern goes through. *)
Fixpoint matches_loop (total : nat) (r : regex) (skip : nat) (s : jsstr) (i : Z) : list match_result :=
  match skip, s with
  | S n, _ :: s1 => matches_loop total r n s1 (i + 1)
  | _, _ =>
      match match_at total r s with
      | Some (c, s') =>
          let m := consumed s s' in
          MatchResult i m c ::
          match s with
          | [] => []
          | x :: s1 => if (length m =? 0)%nat then matches_loop total r 0 s1 (i + 1) else matches_loop total r (length m - 1) s1 (i + 1)
          end
      | None => match s with [] => [] | x :: s1 => matches_loop total r 0 s1 (i + 1) end
      end
  end.

(** ** Replacing *)
Lemma no_match_replace total r f s i j : exec_from total r s i = None -> replace_loop total r f 0 s j = s.
Proof.
  revert i j. induction s as [|x s IH]; intros i j; cbn [exec_from replace_loop]; destruct (match_at total r _) as [[c s']|]; try done.
  intros E. f_equal. by eapply IH.
Qed.

Lemma replace_skip total r f p s i : replace_loop total r f (length p) (p ++ s) i = replace_loop total r f 0 s (i + Z.of_nat (length p)).
Proof.
  revert i. induction p as [|x p IH]; intros i; [by rewrite Z.add_0_r|]. cbn [length app replace_loop]. rewrite IH. f_equal. lia.
Qed.

(** A match of the text [x :: p] in front of [s] *)
Lemma replace_match total r f x p s i c : match_at total r (x :: p ++ s) = Some (c, s) ->
  replace_loop total r f 0 (x :: p ++ s) i = f (MatchResult i (x :: p) c) ++ replace_loop total r f 0 s (i + 1 + Z.of_nat (length p)).
Proof.
  intros E. cbn [replace_loop]. rewrite E. pose proof (consumed_app (x :: p) s) as Hc. cbn [app] in Hc. rewrite Hc.
  cbn [length Nat.eqb]. rewrite Nat.sub_succ, Nat.sub_0_r. by rewrite replace_skip.
Qed.

(** A pattern of single code units *)
Lemma replace_units total r f (special : Z -> bool) (g : Z -> jsstr) s i :
  match_at total r [] = None -> (forall c s, match_at total r (c :: s) = if special c then Some ([], s) else None) ->
  (forall i c, special c = true -> f (MatchResult i [c] []) = g c) ->
  replace_loop total r f 0 s i = concat (map (fun c => if special c then g c else [c]) s).
Proof.
  intros H0 H1 Hg. revert i. induction s as [|c s IH]; intros i; [cbn [replace_loop]; by rewrite H0|].
  cbn [map concat]. destruct (special c) eqn:E.
  - pose proof (replace_match total r f c [] s i []) as E1. cbn [app] in E1. rewrite E1 by (by rewrite H1, E). by rewrite Hg, IH.
  - cbn [replace_loop]. rewrite H1, E. by rewrite IH.
Qed.

(** ** JSON strings *)
Definition hex_digit (n : Z) : Z := if n <? 10 then 48 + n else 87 + n.
Definition hex4 (c : Z) : jsstr := map (fun d => hex_digit (c / 16 ^ d mod 16)) [3; 2; 1; 0].

Definition json_escapes : list (Z * Z) := [(8, 98); (9, 116); (10, 110); (12, 102); (13, 114); (34, 34); (92, 92)].

Definition is_lead (c : Z) : bool := in_range 55296 56319 c.
Definition is_trail (c : Z) : bool := in_range 56320 57343 c.

(** A code unit by itself: escaped if it has a letter, is a control unit or half a pair. *)
Definition json_chunk (c : Z) : jsstr :=
  match List.find (fun p => p.1 =? c) json_escapes with
  | Some (_, e) => [92; e]
  | None => if in_range 0 31 c || in_range 55296 57343 c then 92 :: 117 :: hex4 c else [c]
  end.

Fixpoint json_chunks (s : jsstr) : list jsstr :=
  match s with
  | [] => []
  | c :: r =>
      match r with
      | d :: r' => if is_lead c && is_trail d then [c] :: [d] :: json_chunks r' else json_chunk c :: json_chunks r
      | [] => [json_chunk c]
      end
  end.

(** [JSON.stringify(s)] of a string *)
Definition json_quote (s : jsstr) : jsstr := 34 :: concat (json_chunks s) ++ [34].

(** ** Literals

    The value of a literal, after the opening quote [q], and the text behind it.  The code
    units [ends] may not stand in it unescaped: they were four until 2019 and are two since.
    Octal and braced escapes are not read. *)
Definition escape_value (e : Z) : option Z :=
  if e =? 98 then Some 8 else if e =? 116 then Some 9 else if e =? 110 then Some 10
  else if e =? 118 then Some 11 else if e =? 102 then Some 12 else if e =? 114 then Some 13
  else if (e =? 120) || is_digit e || bool_decide (e ∈ [10; 13; 8232; 8233]) then None else Some e.

Fixpoint read_literal (q : Z) (ends : list Z) (s : jsstr) : option (jsstr * jsstr) :=
  match s with
  | [] => None
  | c :: r =>
      if c =? q then Some ([], r)
      else if bool_decide (c ∈ ends) then None
      else if c =? 92 then
        match r with
        | [] => None
        | e :: r1 =>
            if e =? 117 then
              match r1 with
              | a :: b :: c' :: d :: r2 =>
                  match hex_num 0 [a; b; c'; d] with Some u => prod_map (cons u) id <$> read_literal q ends r2 | None => None end
              | _ => None
              end
            else
              match escape_value e with
              | Some v => prod_map (cons v) id <$> read_literal q ends r1
              | None => None
              end
        end
      else prod_map (cons c) id <$> read_literal q ends r
  end.

(** ** Reading what was quoted *)
Section reading.
Context (q : Z) (ends : list Z).

(** A text that reads as the code unit [c]. *)
Definition reads (t : jsstr) (c : Z) : Prop :=
  forall rest, read_literal q ends (t ++ rest) = prod_map (cons c) id <$> read_literal q ends rest.

Lemma read_chunks ts s rest : Forall2 reads ts s -> read_literal q ends (concat ts ++ q :: rest) = Some (s, rest).
Proof.
  induction 1 as [|t c ts s Ht Hts IH]; cbn [concat].
  - cbn [app read_literal]. by rewrite Z.eqb_refl.
  - rewrite <- app_assoc, Ht, IH. done.
Qed.

Context (Hq : q <> 92) (He : 92 ∉ ends).

Lemma reads_unit c : c <> q -> c ∉ ends -> c <> 92 -> reads [c] c.
Proof.
  intros H1 H2 H3 rest. cbn [app read_literal]. by rewrite (proj2 (Z.eqb_neq _ _) H1), bool_decide_eq_false_2, (proj2 (Z.eqb_neq _ _) H3).
Qed.

Lemma reads_escape e c : e <> 117 -> escape_value e = Some c -> reads [92; e] c.
Proof.
  intros Hu Hc rest. cbn [app read_literal].
  rewrite (proj2 (Z.eqb_neq 92 q)), bool_decide_eq_false_2, Z.eqb_refl, (proj2 (Z.eqb_neq _ _) Hu), Hc by done. done.
Qed.

Lemma hex_digit_read d : 0 <= d < 16 -> hex_val (hex_digit d) = Some d.
Proof.
  intros Hd. unfold hex_val, hex_digit, in_range. destruct (Z.ltb_spec d 10).
  - replace ((48 <=? 48 + d) && (48 + d <=? 57)) with true by (symmetry; apply andb_true_iff; lia). f_equal. lia.
  - replace ((48 <=? 87 + d) && (87 + d <=? 57)) with false by (symmetry; apply andb_false_iff; lia).
    replace ((65 <=? 87 + d) && (87 + d <=? 70)) with false by (symmetry; apply andb_false_iff; lia).
    replace ((97 <=? 87 + d) && (87 + d <=? 102)) with true by (symmetry; apply andb_true_iff; lia). f_equal. lia.
Qed.

Lemma hex4_num c : 0 <= c < 65536 -> hex_num 0 (hex4 c) = Some c.
Proof.
  intros Hc. unfold hex4. cbn [map hex_num].
  repeat (rewrite hex_digit_read by (apply Z.mod_pos_bound; lia)). f_equal.
  change (16 ^ 3) with 4096. change (16 ^ 2) with 256. change (16 ^ 1) with 16. change (16 ^ 0) with 1. rewrite Z.div_1_r.
  pose proof (Z.div_mod c 16). pose proof (Z.div_mod (c / 16) 16). pose proof (Z.div_mod (c / 256) 16).
  replace (c / 4096) with (c / 256 / 16) by (rewrite Z.div_div by lia; f_equal; lia). replace (c / 256) with (c / 16 / 16) in * by (rewrite Z.div_div by lia; f_equal; lia).
  assert (c / 16 / 16 / 16 < 16) by (repeat (apply Z.div_lt_upper_bound; [lia|]); lia).
  assert (0 <= c / 16 / 16 / 16) by (repeat (apply Z.div_pos; [|lia]); lia).
  rewrite (Z.mod_small (c / 16 / 16 / 16)) by lia. lia.
Qed.

Lemma reads_hex c : 0 <= c < 65536 -> reads (92 :: 117 :: hex4 c) c.
Proof.
  intros Hc rest. pose proof (hex4_num c Hc) as Hn. revert Hn. unfold hex4. cbn [map app read_literal]. intros Hn.
  rewrite (proj2 (Z.eqb_neq 92 q)), bool_decide_eq_false_2 by done. by rewrite !Z.eqb_refl, Hn.
Qed.
End reading.

(** *** The chunks of a JSON string *)
Definition plain_unit (c : Z) : bool := negb (in_range 0 31 c || (c =? 34) || (c =? 92)).

(** What stands for [c]: an escape, or [c] itself. *)
Inductive chunk_for : jsstr -> Z -> Prop :=
| chunk_letter e c : (c, e) ∈ json_escapes -> chunk_for [92; e] c
| chunk_hex c : 0 <= c < 65536 -> plain_unit c = true \/ in_range 0 31 c = true -> c <> 39 -> chunk_for (92 :: 117 :: hex4 c) c
| chunk_plain c : plain_unit c = true -> chunk_for [c] c.

Lemma json_chunk_for c : chunk_for (json_chunk c) c.
Proof.
  unfold json_chunk. destruct (List.find _ json_escapes) as [[c' e]|] eqn:E.
  - apply find_some in E as [Hi Hc]. apply Z.eqb_eq in Hc as <-. apply chunk_letter. by apply list_elem_of_In.
  - destruct (in_range 0 31 c || in_range 55296 57343 c) eqn:Er.
    + unfold in_range in Er. rewrite orb_true_iff, !andb_true_iff, !Z.leb_le in Er. apply chunk_hex; [lia| |lia].
      destruct (in_range 0 31 c) eqn:Ei; [by right|]. left. unfold plain_unit. rewrite Ei.
      rewrite (proj2 (Z.eqb_neq c 34)), (proj2 (Z.eqb_neq c 92)); [done|..]; unfold in_range in Ei; rewrite andb_false_iff, !Z.leb_gt in Ei; lia.
    + apply chunk_plain. unfold plain_unit. apply orb_false_iff in Er as [-> _]. cbn [orb].
      pose proof (find_none _ _ E) as Hn. pose proof (Hn (34, 34)) as H1. pose proof (Hn (92, 92)) as H2. cbn [fst] in H1, H2.
      rewrite (Z.eqb_sym c 34), H1, (Z.eqb_sym c 92), H2 by (cbn; tauto). done.
Qed.

Lemma json_chunks_for s : Forall2 chunk_for (json_chunks s) s.
Proof.
  remember (length s) as n eqn:En. assert (length s <= n)%nat as Hn by lia. clear En. revert s Hn.
  induction n as [|n IH]; intros s Hn; destruct s as [|c [|d r]]; cbn in Hn; try lia; cbn [json_chunks]; try by repeat constructor.
  - constructor; [apply json_chunk_for|constructor].
  - destruct (is_lead c && is_trail d) eqn:E.
    + unfold is_lead, is_trail, in_range in E. rewrite !andb_true_iff, !Z.leb_le in E.
      constructor; [|constructor]; [..|apply IH; lia]; apply chunk_plain; unfold plain_unit, in_range;
        rewrite negb_true_iff, !orb_false_iff, andb_false_iff, !Z.leb_gt, !Z.eqb_neq; lia.
    + constructor; [apply json_chunk_for|]. apply (IH (d :: r)). cbn. lia.
Qed.
