(* ===== verification/UnderscoreText.v ===== *)
(** * Underscore: escaping and templates

    [_.escape] and [_.unescape], and the source text that [_.template] compiles (module 25
    of wordcut.js).  Their patterns are parsed from the texts the code builds and run on
    the matcher of JsRegex.  What [new Function] makes of the source is not modelled;
    the string literals in it are read back by [read_literal] of JsLiteral. *)
From S2P Require Import Prelude JsString JsRegex JsLiteral.

Definition text_assoc (s : jsstr) (l : list (jsstr * jsstr)) : option jsstr := snd <$> List.find (fun p => bool_decide (p.1 = s)) l.

(** ** Escaping *)
Definition quot : Z := 34.

Definition escapeMap : list (jsstr * jsstr) :=
  [(js "&", js "&amp;"); (js "<", js "&lt;"); (js ">", js "&gt;"); ([quot], js "&quot;"); (js "'", js "&#x27;"); (js "`", js "&#x60;")].

Definition unescapeMap : list (jsstr * jsstr) := map (fun '(k, v) => (v, k)) escapeMap.

Definition escaper_source (map_ : list (jsstr * jsstr)) : jsstr := js "(?:" ++ js_join (js "|") (map fst map_) ++ js ")".

(** The function [createEscaper(map)] returns; a missing string is the empty one. *)
Definition createEscaper (map_ : list (jsstr * jsstr)) (string : option jsstr) : jsstr :=
  let re := default REmpty (regex_parse (escaper_source map_)) in
  let string := default [] string in
  if regex_test re string then replace_global re (fun m => default (js "undefined") (text_assoc (m_text m) map_)) string else string.

Definition escape : option jsstr -> jsstr := createEscaper escapeMap.
Definition unescape : option jsstr -> jsstr := createEscaper unescapeMap.

(** ** Templates *)

(** The sources of the delimiters, and the name of the data. *)
Record template_settings : Type := TemplateSettings {
  ts_evaluate : jsstr;
  ts_interpolate : jsstr;
  ts_escape : jsstr;
  ts_variable : jsstr }.

Definition templateSettings : template_settings :=
  TemplateSettings (js "<%([\s\S]+?)%>") (js "<%=([\s\S]+?)%>") (js "<%-([\s\S]+?)%>") [].

Definition noMatch : jsstr := js "(.)^".

(** [settings.escape || noMatch] *)
Definition or_noMatch (source : jsstr) : jsstr := if bool_decide (source = []) then noMatch else source.

Definition matcher_text (s : template_settings) : jsstr :=
  js_join (js "|") [or_noMatch (ts_escape s); or_noMatch (ts_interpolate s); or_noMatch (ts_evaluate s)] ++ js "|$".

Definition escapes : list (jsstr * jsstr) :=
  [(js "'", js "'"); (js "\", js "\"); ([13], js "r"); ([10], js "n"); ([8232], js "u2028"); ([8233], js "u2029")].

Definition escaperRe : regex := regex_lit "\\|'|\r|\n|\u2028|\u2029".

Definition escapeChar (m : match_result) : jsstr := js "\" ++ default (js "undefined") (text_assoc (m_text m) escapes).

Definition literal_text (text : jsstr) : jsstr := replace_global escaperRe escapeChar text.

Definition nl : jsstr := [10].

(** The callback: the text before the match, then the code of the match. *)
Definition template_step (text : jsstr) (st : jsstr * Z) (m : match_result) : jsstr * Z :=
  let '(source, index) := st in
  let source := source ++ literal_text (js_slice text index (m_index m)) in
  let index := m_index m + js_len (m_text m) in
  let group n := default [] (cap_get (m_caps m) n) in
  let source :=
    if negb (bool_decide (group 1%nat = [])) then source ++ js "'+" ++ nl ++ js "((__t=(" ++ group 1%nat ++ js "))==null?'':_.escape(__t))+" ++ nl ++ js "'"
    else if negb (bool_decide (group 2%nat = [])) then source ++ js "'+" ++ nl ++ js "((__t=(" ++ group 2%nat ++ js "))==null?'':__t)+" ++ nl ++ js "'"
    else if negb (bool_decide (group 3%nat = [])) then source ++ js "';" ++ nl ++ group 3%nat ++ nl ++ js "__p+='"
    else source in
  (source, index).

(** The statements that build the output. *)
Definition template_body (s : template_settings) (text : jsstr) : option jsstr :=
  match regex_parse (matcher_text s) with
  | Some matcher =>
      Some ((foldl (template_step text) (js "__p+='", 0) (matches_loop (length text) matcher 0 text 0)).1 ++ js "';" ++ nl)
  | None => None
  end.

(** The body of the function that [_.template] makes; none for a bad pattern. *)
Definition template_source (s : template_settings) (text : jsstr) : option jsstr :=
  body ← template_body s text;
  let body := if bool_decide (ts_variable s = []) then js "with(obj||{}){" ++ nl ++ body ++ js "}" ++ nl else body in
  Some (js "var __t,__p='',__j=Array.prototype.join," ++ js "print=function(){__p+=__j.call(arguments,'');};" ++ nl ++ body ++ js "return __p;" ++ nl).

(** [template.source] *)
Definition template_precompiled (s : template_settings) (text : jsstr) : option jsstr :=
  source ← template_source s text;
  let argument := if bool_decide (ts_variable s = []) then js "obj" else ts_variable s in
  Some (js "function(" ++ argument ++ js "){" ++ nl ++ source ++ js "}").

(** ** escape and unescape *)

(** The test in front of the replacement changes nothing. *)
Lemma createEscaper_replaces map_ s (re := default REmpty (regex_parse (escaper_source map_))) :
  createEscaper map_ (Some s) = replace_global re (fun m => default (js "undefined") (text_assoc (m_text m) map_)) s.
Proof.
  unfold createEscaper. fold re. change (default [] (Some s)) with s. destruct (regex_test re s) eqn:E; [done|]. unfold regex_test, regex_exec in E.
  destruct (exec_from (length s) re s 0) eqn:Ee; [done|]. unfold replace_global. symmetry. by eapply no_match_replace.
Qed.

Definition escapeRe : regex := default REmpty (regex_parse (escaper_source escapeMap)).
Definition unescapeRe : regex := default REmpty (regex_parse (escaper_source unescapeMap)).

Definition special (c : Z) : bool := (38 =? c) || (60 =? c) || (62 =? c) || (34 =? c) || (39 =? c) || (96 =? c).
Definition entity (c : Z) : jsstr := default (js "undefined") (text_assoc [c] escapeMap).

Lemma escapeRe_units total c s : match_at total escapeRe (c :: s) = if special c then Some ([], s) else None.
Proof.
  unfold special, match_at. replace escapeRe with ltac:(let r := eval vm_compute in escapeRe in exact r) by (vm_compute; reflexivity).
  cbn -[Z.eqb]. repeat match goal with |- context [?a =? c] => destruct (a =? c) end; done.
Qed.

Lemma escape_units s : escape (Some s) = concat (map (fun c => if special c then entity c else [c]) s).
Proof.
  unfold escape. rewrite createEscaper_replaces. apply (replace_units (length s) escapeRe).
  - by vm_compute.
  - apply escapeRe_units.
  - done.
Qed.

Lemma special_cases c : special c = true -> c ∈ [38; 60; 62; 34; 39; 96].
Proof. unfold special. rewrite !orb_true_iff, !Z.eqb_eq, !elem_of_cons. naive_solver. Qed.

(** Where an entity stands, unescape reads it; anywhere else it reads one code unit. *)
Lemma unescape_entity total c s : special c = true -> match_at total unescapeRe (entity c ++ s) = Some ([], s).
Proof.
  intros Hc%special_cases. unfold match_at.
  replace unescapeRe with ltac:(let r := eval vm_compute in unescapeRe in exact r) by (vm_compute; reflexivity).
  repeat (apply elem_of_cons in Hc as [-> |Hc]; [by vm_compute|]). by apply elem_of_nil in Hc.
Qed.

Lemma entity_facts c : special c = true ->
  (exists x p, entity c = x :: p) /\ default (js "undefined") (text_assoc (entity c) unescapeMap) = [c] /\ Forall (fun c => c ∉ [60; 62; 34; 39; 96]) (entity c).
Proof.
  intros Hc%special_cases. repeat (apply elem_of_cons in Hc as [-> |Hc]; [split; [by do 2 eexists|split; [by vm_compute|]]|]); [..|by apply elem_of_nil in Hc];
    apply (bool_decide_unpack _); by vm_compute.
Qed.

Lemma unescape_other total c s : c <> 38 -> match_at total unescapeRe (c :: s) = None.
Proof.
  intros Hc. unfold match_at. replace unescapeRe with ltac:(let r := eval vm_compute in unescapeRe in exact r) by (vm_compute; reflexivity).
  cbn [rmatch]. by rewrite (proj2 (Z.eqb_neq 38 c)).
Qed.

(** C15: escaping for HTML.  The escaped text has no angle bracket, quote or
    backquote, and unescaping it gives the text back. *)
Theorem escape_round_trip (s : jsstr) :
  unescape (Some (escape (Some s))) = s /\ Forall (fun c => c ∉ [60; 62; 34; 39; 96]) (escape (Some s)).
Proof.
  rewrite escape_units. split.
  - unfold unescape. rewrite createEscaper_replaces. fold unescapeRe. unfold replace_global. generalize (length (concat (map (fun c => if special c then entity c else [c]) s))) as total, 0.
    intros total. induction s as [|c s IH]; intros i; [by vm_compute|]. cbn [map concat]. destruct (special c) eqn:Ec.
    + pose proof (unescape_entity total c (concat (map (fun c => if special c then entity c else [c]) s)) Ec) as Hm.
      destruct (entity_facts c Ec) as ((x & p & Ee) & Hback & _). rewrite Ee in Hm, Hback |- *. cbn [app] in Hm |- *.
      rewrite (replace_match _ _ _ _ _ _ _ _ Hm), IH. cbn [m_text]. by rewrite Hback.
    + cbn [app replace_loop]. rewrite unescape_other, IH; [done|]. intros ->. done.
  - apply Forall_concat. apply Forall_map, Forall_forall. intros c _. destruct (special c) eqn:Ec; [by apply entity_facts|].
    constructor; [|done]. intros Hc. unfold special in Ec. repeat (apply elem_of_cons in Hc as [-> |Hc]; [done|]). by apply elem_of_nil in Hc.
Qed.

(** ** Literals *)
Definition escaped_unit (c : Z) : bool := (92 =? c) || (39 =? c) || (13 =? c) || (10 =? c) || (8232 =? c) || (8233 =? c).
Definition escape_of (c : Z) : jsstr := js "\" ++ default (js "undefined") (text_assoc [c] escapes).

Lemma escaperRe_units total c s : match_at total escaperRe (c :: s) = if escaped_unit c then Some ([], s) else None.
Proof.
  unfold escaped_unit, match_at. replace escaperRe with ltac:(let r := eval vm_compute in escaperRe in exact r) by (vm_compute; reflexivity).
  cbn -[Z.eqb]. repeat match goal with |- context [?a =? c] => destruct (a =? c) end; done.
Qed.

Lemma literal_units t : literal_text t = concat (map (fun c => if escaped_unit c then escape_of c else [c]) t).
Proof. apply (replace_units (length t) escaperRe); [by vm_compute|apply escaperRe_units|done]. Qed.

(** A template's text survives the source.  As a single-quoted literal, what [_.template]
    writes for a text reads back as that text, whatever it contains, and ends at the quote
    written behind it.  All four line ends are escaped, as older engines ask. *)
Definition line_ends : list Z := [10; 13; 8232; 8233].

Lemma escaped_reads c : reads 39 line_ends (if escaped_unit c then escape_of c else [c]) c.
Proof.
  destruct (escaped_unit c) eqn:Ec.
  - assert (c ∈ [92; 39; 13; 10; 8232; 8233]) as Hc.
    { unfold escaped_unit in Ec. rewrite !orb_true_iff, !Z.eqb_eq in Ec. rewrite !elem_of_cons. naive_solver. }
    clear Ec. repeat (apply elem_of_cons in Hc as [-> |Hc];
      [match goal with |- context [escape_of ?v] => let e := eval vm_compute in (escape_of v) in change (escape_of v) with e end; intros rest; reflexivity|]).
    by apply elem_of_nil in Hc.
  - unfold escaped_unit in Ec. rewrite !orb_false_iff, !Z.eqb_neq in Ec. apply reads_unit; [lia| |lia].
    unfold line_ends. rewrite !not_elem_of_cons. split_and!; try lia. apply not_elem_of_nil.
Qed.

Theorem literal_reads_back (t rest : jsstr) : read_literal 39 line_ends (literal_text t ++ 39 :: rest) = Some (t, rest).
Proof.
  rewrite literal_units. apply read_chunks. induction t as [|c t IH]; cbn [map]; constructor; [apply escaped_reads|done].
Qed.
