(* ===== verification/UnderscoreTemplate.v ===== *)
(** * Templates that render

    [_.template] of module 25 compiles a text with tags to the source of a function
    (UnderscoreText.v has the compiler).  Here a template is seen as what its author means:
    a text, and behind it tags, each with the text that follows.  [template_compiles] gives
    the source that comes out, and [template_renders] what it computes when the language
    runs it: the text with each expression replaced by its value, escaped where asked. *)
From stdpp Require Import list.
From S2P Require Import Prelude JsString JsRegex JsLiteral UnderscoreText.

(** ** Templates as their author sees them *)

Inductive tag : Type := Escape (e : jsstr) | Interpolate (e : jsstr) | Evaluate (e : jsstr).

Definition tag_text (x : tag) : jsstr :=
  match x with
  | Escape e => js "<%-" ++ e ++ js "%>"
  | Interpolate e => js "<%=" ++ e ++ js "%>"
  | Evaluate e => js "<%" ++ e ++ js "%>"
  end.

Definition tags_text (l : list (tag * jsstr)) : jsstr := concat (map (fun '(x, t) => tag_text x ++ t) l).

(** No part of [s] is [pat]. *)
Fixpoint lacks (pat s : jsstr) : bool := negb (starts_with pat s) && match s with [] => true | _ :: s => lacks pat s end.

(** A text that opens no tag; an expression that closes none and is taken for no other. *)
Definition text_ok (t : jsstr) : bool := lacks (js "<%") t.
Definition tag_ok (x : tag) : bool :=
  match x with
  | Escape e | Interpolate e => negb (bool_decide (e = [])) && lacks (js "%>") e
  | Evaluate e => negb (bool_decide (e = [])) && lacks (js "%>") e && negb (bool_decide (head e = Some 45)) && negb (bool_decide (head e = Some 61))
  end.
Definition tags_ok (l : list (tag * jsstr)) : bool := forallb (fun '(x, t) => tag_ok x && text_ok t) l.

(** ** The matcher of the default settings *)

Definition any_char : list class_item := [CSpace true; CSpace false].

Definition tag_re (n : nat) (open : jsstr) : regex :=
  foldr (fun c r => RSeq (RChar c) r) (RSeq (RGroup n (RSeq (RRepeat 1 None false (S n) (S n) (RClass false any_char)) REmpty)) (text_ast (js "%>"))) open.

Definition tag_matcher : regex :=
  RAlt (tag_re 1 (js "<%-")) (RAlt (tag_re 2 (js "<%=")) (RAlt (tag_re 3 (js "<%")) (RSeq REol REmpty))).

Lemma matcher_parsed : regex_parse (matcher_text templateSettings) = Some tag_matcher.
Proof. vm_compute. reflexivity. Qed.

(** ** What it matches *)

Lemma text_ast_match total w c s k : rmatch total (text_ast w) c s k = if starts_with w s then k c (drop (length w) s) else None.
Proof.
  revert s. induction w as [|x w IH]; intros s; [done|]. cbn [text_ast rmatch starts_with]. destruct s as [|y s]; [done|].
  destruct (x =? y); [apply IH|done].
Qed.

Lemma open_match total n open c s k : rmatch total (tag_re n open) c s k =
  if starts_with open s then rmatch total (tag_re n []) c (drop (length open) s) k else None.
Proof.
  revert s. induction open as [|x open IH]; intros s; [done|]. cbn [tag_re foldr rmatch starts_with]. destruct s as [|y s]; [done|].
  destruct (x =? y); [apply IH|done].
Qed.

Lemma any_match total c y s k : rmatch total (RClass false any_char) c (y :: s) k = k c s.
Proof. cbn [rmatch]. unfold class_ok. cbn. by destruct (is_space y). Qed.

(** A lazy repetition ends at the first place where the rest of the pattern matches. *)
Lemma lazy_match total lo hi e rest k x fuel : (length e < fuel)%nat ->
  (forall j, (j < length e)%nat -> k [] (drop j e ++ rest) = None) -> k [] rest = Some x ->
  repeat_match (rmatch total (RClass false any_char)) false (cap_reset lo hi) fuel 0 None [] (e ++ rest) k = Some x.
Proof.
  revert fuel. induction e as [|y e IH]; intros [|fuel] Hf Hno Hyes; cbn [length] in Hf; [lia| |lia|];
    cbn [repeat_match]; rewrite bool_decide_false by done; cbv zeta; cbn [Nat.ltb Nat.leb].
  - cbn [app]. by rewrite Hyes.
  - pose proof (Hno 0%nat ltac:(cbn; lia)) as H0. rewrite drop_0 in H0. rewrite H0. cbn [app]. rewrite any_match.
    destruct (Nat.eqb_spec (length (e ++ rest)) (length (y :: e ++ rest))) as [E|_]; [cbn in E; lia|]. cbn [Nat.eqb andb].
    apply IH; [lia| |done]. intros j Hj. apply (Hno (S j)). cbn. lia.
Qed.

Lemma lazy_plus total lo hi y e rest k x :
  (forall j, (j < length e)%nat -> k [] (drop j e ++ rest) = None) -> k [] rest = Some x ->
  rmatch total (RRepeat 1 None false lo hi (RClass false any_char)) [] (y :: e ++ rest) k = Some x.
Proof.
  intros Hno Hyes. change (repeat_match (rmatch total (RClass false any_char)) false (cap_reset lo hi) (S (length (y :: e ++ rest) + 1)) 1 None []
    (y :: e ++ rest) k = Some x).
  cbn [repeat_match]. rewrite bool_decide_false by done. cbv zeta. cbn [Nat.ltb Nat.leb]. rewrite any_match. cbn [Nat.eqb andb].
  apply lazy_match; [cbn; rewrite length_app; lia|done..].
Qed.

Lemma lacks_drop pat s j : lacks pat s = true -> starts_with pat (drop j s) = false.
Proof.
  revert j. induction s as [|x s IH]; intros j Hs; cbn [lacks] in Hs; apply andb_true_iff in Hs as [Hn Hs]; apply negb_true_iff in Hn.
  - by rewrite drop_nil.
  - destruct j as [|j]; [done|]. by apply IH.
Qed.

(** A delimiter of two different units does not begin inside and end behind. *)
Lemma lacks_before a b e rest j : a <> b -> lacks [a; b] e = true -> (j < length e)%nat -> match rest with y :: _ => y <> b | [] => True end ->
  starts_with [a; b] (drop j e ++ rest) = false.
Proof.
  intros Hab He Hj Hr. pose proof (lacks_drop _ _ j He) as Hd. destruct (drop j e) as [|x [|y t]] eqn:E.
  - apply (f_equal length) in E. rewrite length_drop in E. cbn in E. lia.
  - destruct rest as [|y rest]; [done|]. cbn [app starts_with]. destruct (a =? x); [|done]. cbn [andb]. destruct (Z.eqb_spec b y); [congruence|done].
  - cbn [app starts_with] in Hd |- *. destruct (a =? x); [|done]. by destruct (b =? y).
Qed.

Definition tag_no (x : tag) : nat := match x with Escape _ => 1 | Interpolate _ => 2 | Evaluate _ => 3 end.
Definition tag_expr (x : tag) : jsstr := match x with Escape e | Interpolate e | Evaluate e => e end.

Lemma tag_ok_expr x : tag_ok x = true -> tag_expr x <> [] /\ lacks (js "%>") (tag_expr x) = true.
Proof. destruct x as [e|e|e]; cbn [tag_ok tag_expr]; intros Hx; rewrite ?andb_true_iff, ?negb_true_iff, ?bool_decide_eq_false in Hx; tauto. Qed.

Lemma body_match total n e rest k x : e <> [] -> lacks (js "%>") e = true ->
  k [(n, e)] rest = Some x -> rmatch total (tag_re n []) [] (e ++ js "%>" ++ rest) k = Some x.
Proof.
  intros Hne He Hx. destruct e as [|y e]; [done|].
  set (s := (y :: e) ++ js "%>" ++ rest).
  change (rmatch total (RRepeat 1 None false (S n) (S n) (RClass false any_char)) [] (y :: e ++ js "%>" ++ rest)
    (fun c' s' => rmatch total (text_ast (js "%>")) ((n, consumed s s') :: c') s' k) = Some x).
  apply lazy_plus.
  - intros j Hj. rewrite text_ast_match. change (js "%>" ++ rest) with (37 :: 62 :: rest).
    change (js "%>") with [37; 62] in *. rewrite lacks_before; [done|done| |done|done].
    cbn [lacks] in He. by apply andb_true_iff in He as [_ He].
  - rewrite text_ast_match, starts_self. unfold s. rewrite consumed_app. exact Hx.
Qed.

Definition attempt (total n : nat) (open s : jsstr) : option mstate :=
  if starts_with open s then rmatch total (tag_re n []) [] (drop (length open) s) (fun c s => Some (c, s)) else None.

Lemma matcher_at total s : match_at total tag_matcher s =
  match attempt total 1 (js "<%-") s with
  | Some x => Some x
  | None => match attempt total 2 (js "<%=") s with
            | Some x => Some x
            | None => match attempt total 3 (js "<%") s with
                      | Some x => Some x
                      | None => match s with [] => Some ([], []) | _ => None end
                      end
            end
  end.
Proof. unfold attempt. rewrite <- !(open_match total _ (js _)). by destruct s. Qed.

Lemma attempt_none total n open s : starts_with open s = false -> attempt total n open s = None.
Proof. unfold attempt. by intros ->. Qed.

Lemma attempt_tag total n open e rest : e <> [] -> lacks (js "%>") e = true ->
  attempt total n open (open ++ e ++ js "%>" ++ rest) = Some ([(n, e)], rest).
Proof.
  intros Hne He. unfold attempt. rewrite starts_self, drop_app_length.
  by rewrite (body_match total n e rest _ ([(n, e)], rest)).
Qed.

Lemma longer_tag c s : starts_with (js "<%" ++ [c]) (js "<%" ++ s) = match s with y :: _ => c =? y | [] => false end.
Proof. destruct s as [|y s]; [done|]. cbn [app starts_with js]. change (starts_with (js "<%" ++ [c]) (js "<%" ++ y :: s)) with ((c =? y) && true). by rewrite andb_true_r. Qed.

Lemma match_tag total x rest : tag_ok x = true ->
  match_at total tag_matcher (tag_text x ++ rest) = Some ([(tag_no x, tag_expr x)], rest).
Proof.
  intros Hx. destruct (tag_ok_expr x Hx) as [Hne He]. rewrite matcher_at.
  destruct x as [e|e|e]; cbn [tag_text tag_no tag_expr] in *; rewrite <- ?app_assoc.
  - by rewrite attempt_tag.
  - rewrite attempt_none by done. by rewrite attempt_tag.
  - cbn [tag_ok] in Hx. rewrite !andb_true_iff, !negb_true_iff, !bool_decide_eq_false in Hx. destruct Hx as [[[_ _] H1] H2].
    destruct e as [|y e]; [done|]. cbn [head] in H1, H2.
    change (js "<%-") with (js "<%" ++ [45]). change (js "<%=") with (js "<%" ++ [61]).
    rewrite !attempt_none by (rewrite longer_tag; cbn [app]; apply Z.eqb_neq; congruence). by rewrite attempt_tag.
Qed.

Lemma match_text total y s : starts_with (js "<%") (y :: s) = false -> match_at total tag_matcher (y :: s) = None.
Proof.
  intros Hs. rewrite matcher_at.
  assert (forall c, starts_with (js "<%" ++ [c]) (y :: s) = false) as Hc.
  { intros c. apply not_true_iff_false. rewrite starts_with_spec. intros [t E]. apply not_true_iff_false in Hs. apply Hs.
    rewrite E, <- app_assoc. apply starts_self. }
  change (js "<%-") with (js "<%" ++ [45]). change (js "<%=") with (js "<%" ++ [61]). by rewrite !attempt_none.
Qed.

Lemma match_end total : match_at total tag_matcher [] = Some ([], []).
Proof. by rewrite matcher_at. Qed.

(** ** The matches of a template *)

Lemma matches_skip total r p s i : matches_loop total r (length p) (p ++ s) i = matches_loop total r 0 s (i + js_len p).
Proof.
  revert i. induction p as [|x p IH]; intros i; [by rewrite Z.add_0_r|]. cbn [length app matches_loop]. rewrite IH. f_equal. autorewrite with js. lia.
Qed.

Lemma matches_tag total r p s i c : p <> [] -> match_at total r (p ++ s) = Some (c, s) ->
  matches_loop total r 0 (p ++ s) i = MatchResult i p c :: matches_loop total r 0 s (i + js_len p).
Proof.
  intros Hp E. destruct p as [|x p]; [done|]. pose proof (consumed_app (x :: p) s) as Hc. cbn [app] in *. cbn [matches_loop].
  rewrite E, Hc. cbn [length Nat.eqb].
  rewrite Nat.sub_succ, Nat.sub_0_r, matches_skip. do 2 f_equal. autorewrite with js. lia.
Qed.

(** What follows a text: a tag or the end. *)
Lemma tags_head l : match tags_text l with y :: _ => y <> 37 | [] => True end.
Proof. destruct l as [|[[e|e|e] t] l]; done. Qed.

Lemma matches_text total t l i : text_ok t = true ->
  matches_loop total tag_matcher 0 (t ++ tags_text l) i = matches_loop total tag_matcher 0 (tags_text l) (i + js_len t).
Proof.
  intros Ht. assert (forall j, (j < length t)%nat -> starts_with (js "<%") (drop j t ++ tags_text l) = false) as Hno.
  { intros j Hj. apply (lacks_before 60 37); [done|exact Ht|done|apply tags_head]. }
  clear Ht. revert i. induction t as [|y t IH]; intros i; [by rewrite Z.add_0_r|].
  cbn [app matches_loop]. rewrite match_text by apply (Hno 0%nat ltac:(cbn; lia)). rewrite IH.
  - f_equal. autorewrite with js. lia.
  - intros j Hj. apply (Hno (S j)). cbn. lia.
Qed.

(** ** What a template compiles to *)

Definition tag_code (x : tag) : jsstr :=
  match x with
  | Escape e => js "'+" ++ nl ++ js "((__t=(" ++ e ++ js "))==null?'':_.escape(__t))+" ++ nl ++ js "'"
  | Interpolate e => js "'+" ++ nl ++ js "((__t=(" ++ e ++ js "))==null?'':__t)+" ++ nl ++ js "'"
  | Evaluate e => js "';" ++ nl ++ e ++ nl ++ js "__p+='"
  end.

Definition tags_code (l : list (tag * jsstr)) : jsstr := concat (map (fun '(x, t) => tag_code x ++ literal_text t) l).

Lemma step_tag text src p t x rest : text = p ++ t ++ tag_text x ++ rest -> tag_ok x = true ->
  template_step text (src, js_len p) (MatchResult (js_len p + js_len t) (tag_text x) [(tag_no x, tag_expr x)]) =
  (src ++ literal_text t ++ tag_code x, js_len (p ++ t ++ tag_text x)).
Proof.
  intros -> Hx. destruct (tag_ok_expr x Hx) as [Hne _]. unfold template_step. cbn [m_index m_text m_caps]. rewrite js_slice_mid.
  f_equal; [|autorewrite with js; lia].
  destruct x as [e|e|e]; cbn [tag_no tag_expr tag_code cap_get Nat.eqb default] in *; unfold default, from_option, id;
    rewrite ?(bool_decide_false (e = [])), ?(bool_decide_true ([] = [])) by done; cbn [negb]; by rewrite <- !app_assoc.
Qed.

Lemma step_end text src p t : text = p ++ t ->
  template_step text (src, js_len p) (MatchResult (js_len p + js_len t) [] []) = (src ++ literal_text t, js_len text).
Proof.
  intros ->. unfold template_step. cbn [m_index m_text m_caps].
  pose proof (js_slice_mid p t []) as E. rewrite app_nil_r in E. rewrite E. f_equal. unfold js_len. rewrite length_app. cbn. lia.
Qed.

Lemma compile_loop text total l p t src : text = p ++ t ++ tags_text l -> text_ok t = true -> tags_ok l = true ->
  (foldl (template_step text) (src, js_len p) (matches_loop total tag_matcher 0 (t ++ tags_text l) (js_len p))).1 =
  src ++ literal_text t ++ tags_code l.
Proof.
  revert p t src. induction l as [|[x t'] l IH]; intros p t src Htext Ht Hl; rewrite matches_text by done.
  - change (tags_text []) with (@nil Z) in *. rewrite app_nil_r in Htext. cbn [matches_loop]. rewrite match_end. cbn [foldl consumed length].
    change (consumed [] []) with (@nil Z). rewrite step_end by done. cbn [fst]. unfold tags_code. cbn. by rewrite app_nil_r.
  - cbn [tags_ok forallb] in Hl. apply andb_true_iff in Hl as [[Hx Ht']%andb_true_iff Hl].
    assert (tags_text ((x, t') :: l) = tag_text x ++ t' ++ tags_text l) as E by (unfold tags_text; cbn; by rewrite <- app_assoc).
    rewrite E in *. rewrite (matches_tag total tag_matcher (tag_text x) (t' ++ tags_text l) _ [(tag_no x, tag_expr x)]); [|by destruct x|by apply match_tag].
    cbn [foldl]. rewrite (step_tag text src p t x (t' ++ tags_text l)) by done.
    replace (js_len p + js_len t + js_len (tag_text x)) with (js_len (p ++ t ++ tag_text x)) by (autorewrite with js; lia).
    rewrite IH; [|by rewrite Htext, <- !app_assoc|done|done].
    unfold tags_code. cbn [map concat]. by rewrite <- !app_assoc.
Qed.

(** The source that a template compiles to, tag by tag. *)
Theorem template_compiles (t : jsstr) (l : list (tag * jsstr)) (Ht : text_ok t = true) (Hl : tags_ok l = true) :
  template_body templateSettings (t ++ tags_text l) = Some (js "__p+='" ++ literal_text t ++ tags_code l ++ js "';" ++ nl).
Proof.
  unfold template_body. rewrite matcher_parsed.
  pose proof (compile_loop (t ++ tags_text l) (length (t ++ tags_text l)) l [] t (js "__p+='") eq_refl Ht Hl) as E.
  change (js_len []) with 0 in E. rewrite E. by rewrite <- !app_assoc.
Qed.

Lemma template_compiles_witness :
  template_body templateSettings (js "Hi " ++ tags_text [(Escape (js " name "), js "!")]) =
  Some (js "__p+='" ++ literal_text (js "Hi ") ++ tags_code [(Escape (js " name "), js "!")] ++ js "';" ++ nl).
Proof. apply (template_compiles (js "Hi ") [(Escape (js " name "), js "!")]); vm_compute; reflexivity. Defined.

(** ** Running the source

    The part of the language that the source of a template without code blocks uses: one
    statement [__p+=] with a sum of string literals and of conditionals
    [(__t=(expression))==null?'':...].  An expression reaches to the first place where the
    text of its conditional goes on.  What it evaluates to is a parameter: nothing for null
    and undefined, otherwise the text it becomes.
    The expressions are complete ones, so that the parentheses around them close. *)

Definition strip (pat s : jsstr) : option jsstr := if starts_with pat s then Some (drop (length pat) s) else None.

Fixpoint until (pat s : jsstr) : option (jsstr * jsstr) :=
  if starts_with pat s then Some ([], drop (length pat) s)
  else match s with [] => None | c :: s => prod_map (cons c) id <$> until pat s end.

Section run.
Context (value_of : jsstr -> option jsstr).

Definition opening : jsstr := js "+" ++ nl ++ js "((__t=(".
Definition asking : jsstr := js "))==null?'':".

(** A sum: its text and what is left of the source. *)
Fixpoint run_sum (fuel : nat) (s : jsstr) : option (jsstr * jsstr) :=
  match fuel with
  | O => None
  | S fuel =>
      q ← strip (js "'") s;
      lit ← read_literal 39 line_ends q;
      match strip opening lit.2 with
      | None => Some lit
      | Some s =>
          cond ← until asking s;
          let v := value_of cond.1 in
          match strip (js "_.escape(__t))+" ++ nl) cond.2 with
          | Some s =>
              out ← run_sum fuel s;
              Some (lit.1 ++ match v with Some t => escape (Some t) | None => [] end ++ out.1, out.2)
          | None =>
              s ← strip (js "__t)+" ++ nl) cond.2;
              out ← run_sum fuel s;
              Some (lit.1 ++ default [] v ++ out.1, out.2)
          end
      end
  end.

(** The whole statement, with nothing behind it. *)
Definition run_body (fuel : nat) (s : jsstr) : option jsstr :=
  s ← strip (js "__p+=") s;
  out ← run_sum fuel s;
  if bool_decide (out.2 = js ";" ++ nl) then Some out.1 else None.

(** What the author means. *)
Definition tag_value (x : tag) : jsstr :=
  match x with
  | Escape e => match value_of e with Some t => escape (Some t) | None => [] end
  | Interpolate e => default [] (value_of e)
  | Evaluate _ => []
  end.

Definition rendered (t : jsstr) (l : list (tag * jsstr)) : jsstr := t ++ concat (map (fun '(x, t) => tag_value x ++ t) l).

Lemma strip_self p s : strip p (p ++ s) = Some s.
Proof. unfold strip. by rewrite starts_self, drop_app_length. Qed.

Lemma strip_none p s : starts_with p s = false -> strip p s = None.
Proof. unfold strip. by intros ->. Qed.

(** A delimiter that overlaps with no copy of itself is found behind what lacks it. *)
Definition borderless (pat : jsstr) : bool :=
  forallb (fun k => negb (bool_decide (take k pat = drop (length pat - k) pat))) (seq 1 (length pat - 1)).

Lemma lacks_behind pat d s : borderless pat = true -> starts_with pat d = false -> d <> [] -> starts_with pat (d ++ pat ++ s) = false.
Proof.
  intros Hb Hd Hne. apply not_true_iff_false. intros [u E]%starts_with_spec.
  destruct (decide (length pat <= length d)%nat) as [Hl|Hl].
  - apply not_true_iff_false in Hd. apply Hd, starts_with_spec. exists (drop (length pat) d).
    rewrite <- (take_drop (length pat) d) at 1. f_equal. apply (f_equal (take (length pat))) in E.
    by rewrite take_app_le, take_app_length in E.
  - assert (pat = d ++ drop (length d) pat) as Ep.
    { rewrite <- (take_drop (length d) pat) at 1. f_equal. apply (f_equal (take (length d))) in E.
      by rewrite take_app_length, take_app_le in E by lia. }
    set (w := drop (length d) pat) in *. assert (length w = length pat - length d)%nat as Hw by (unfold w; by rewrite length_drop).
    assert (pat ++ u = d ++ w ++ u) as Eu by (rewrite Ep at 1; by rewrite <- app_assoc). rewrite Eu in E. apply app_inv_head in E.
    unfold borderless in Hb. rewrite forallb_forall in Hb. specialize (Hb (length w)).
    assert (0 < length d)%nat by (destruct d; [done|cbn; lia]).
    rewrite bool_decide_true in Hb; [assert (negb true = true) as [=] by (apply Hb, in_seq; lia)|].
    replace (length pat - length w)%nat with (length d) by lia. change (drop (length d) pat) with w.
    apply (f_equal (take (length w))) in E. by rewrite take_app_length, take_app_le in E by lia.
Qed.

Lemma until_found pat e s : borderless pat = true -> lacks pat e = true -> until pat (e ++ pat ++ s) = Some (e, s).
Proof.
  intros Hb. induction e as [|c e IH]; intros He.
  - cbn [app]. destruct (pat ++ s) eqn:E; cbn [until]; rewrite <- E, starts_self, drop_app_length; done.
  - cbn [lacks] in He. apply andb_true_iff in He as [Hn%negb_true_iff He].
    pose proof (lacks_behind pat (c :: e) s Hb Hn ltac:(done)) as Hc. cbn [app] in Hc |- *. cbn [until]. rewrite Hc, IH by done. done.
Qed.

(** The expressions that the run understands: what follows is not in them, and no comment
    reaches over it. *)
Definition tag_runs (x : tag) : bool :=
  match x with Escape e | Interpolate e => lacks asking e && lacks (js "//") e && lacks (js "/*") e | Evaluate _ => false end.

Lemma run_tags l t rest fuel : (length l < fuel)%nat -> forallb (fun '(x, _) => tag_runs x) l = true ->
  starts_with opening rest = false ->
  run_sum fuel (js "'" ++ literal_text t ++ tags_code l ++ js "'" ++ rest) = Some (rendered t l, rest).
Proof.
  revert t fuel. induction l as [|[x t'] l IH]; intros t [|fuel] Hf Hl Hr; cbn [length] in Hf; [lia| |lia|]; cbn [run_sum].
  - rewrite strip_self. cbn [mbind option_bind]. change (tags_code []) with (@nil Z). cbn [app].
    change (js "'" ++ rest) with (39 :: rest). rewrite literal_reads_back. cbn [mbind option_bind snd fst].
    rewrite strip_none by done. unfold rendered. cbn. by rewrite app_nil_r.
  - cbn [forallb] in Hl. apply andb_true_iff in Hl as [Hx Hl]. rewrite strip_self. cbn [mbind option_bind].
    assert (rendered t ((x, t') :: l) = t ++ tag_value x ++ rendered t' l) as Er.
    { unfold rendered. cbn [map concat]. by rewrite <- !app_assoc. }
    specialize (IH t' fuel ltac:(lia) Hl Hr).
    destruct x as [e|e|e]; cbn [tag_runs] in Hx; [| |done]; apply andb_true_iff in Hx as [[Hx _]%andb_true_iff _]; rewrite Er; unfold tags_code; cbn [map concat tag_code]; fold (tags_code l); rewrite <- !app_assoc.
    + change (js "'+" ++ nl ++ js "((__t=(" ++ ?u) with (39 :: opening ++ u).
      rewrite literal_reads_back. cbn [mbind option_bind snd fst]. rewrite strip_self.
      change (js "))==null?'':_.escape(__t))+" ++ nl ++ ?u) with (asking ++ (js "_.escape(__t))+" ++ nl) ++ u).
      rewrite until_found by done. cbn [mbind option_bind snd fst]. rewrite strip_self. by rewrite IH.
    + change (js "'+" ++ nl ++ js "((__t=(" ++ ?u) with (39 :: opening ++ u).
      rewrite literal_reads_back. cbn [mbind option_bind snd fst]. rewrite strip_self.
      change (js "))==null?'':__t)+" ++ nl ++ ?u) with (asking ++ (js "__t)+" ++ nl) ++ u).
      rewrite until_found by done. cbn [mbind option_bind snd fst].
      rewrite strip_none by done. rewrite strip_self. cbn [mbind option_bind]. by rewrite IH.
Qed.
End run.

(** C14: a template does what its author means.  For texts that open no tag and expressions
    that close none, however many and whatever quotes, backslashes and line ends they hold:
    the source that [_.template] makes of it, when it is run, gives the text with each
    interpolated expression replaced by its value, each escaped one by its escaped value,
    and null and undefined by nothing. *)
Theorem template_renders (value_of : jsstr -> option jsstr) (t : jsstr) (l : list (tag * jsstr)) (fuel : nat)
    (Ht : text_ok t = true) (Hl : tags_ok l = true) (Hr : forallb (fun '(x, _) => tag_runs x) l = true) (Hf : (length l < fuel)%nat) :
  exists body, template_body templateSettings (t ++ tags_text l) = Some body /\
    run_body value_of fuel body =
    Some (t ++ concat (map (fun '(x, text) =>
      match x with
      | Escape e => match value_of e with Some v => escape (Some v) | None => [] end
      | Interpolate e => default [] (value_of e)
      | Evaluate _ => []
      end ++ text) l)).
Proof.
  eexists. split.
  - exact (template_compiles t l Ht Hl).
  - unfold run_body. change (js "__p+='" ++ ?u) with (js "__p+=" ++ js "'" ++ u). rewrite strip_self. cbn [mbind option_bind].
    change (js "';" ++ nl) with (js "'" ++ js ";" ++ nl). rewrite run_tags by done.
    cbn [mbind option_bind fst snd]. by rewrite bool_decide_true.
Qed.

Definition demo_value (e : jsstr) : option jsstr := if bool_decide (e = js " name ") then Some (js "<b>") else None.

Lemma template_renders_witness :
  exists body, template_body templateSettings (js "It's \ " ++ tags_text [(Escape (js " name "), [10]); (Interpolate (js "none"), js "%>")]) = Some body /\
    run_body demo_value 3 body = Some (js "It's \ &lt;b&gt;" ++ 10 :: js "%>").
Proof.
  apply (template_renders demo_value (js "It's \ ") [(Escape (js " name "), [10]); (Interpolate (js "none"), js "%>")] 3);
    [vm_compute; reflexivity..|cbn; lia].
Defined.

(** A line comment in an expression takes the end of the conditional with it: the source
    holds it in front of the parentheses that close the expression. *)
Lemma comment_swallows :
  template_body templateSettings (js "<%= x // note %>") =
  Some (js "__p+=''+" ++ nl ++ js "((__t=( x // note ))==null?'':__t)+" ++ nl ++ js "'';" ++ nl).
Proof. by vm_compute. Qed.
