(* ===== verification/PathModule.v ===== *)
(** * Path names

    Modules 22 (path) and 23 (path-is-absolute) of
    docs/generated_site/assets/javascripts/lunr/wordcut.js: the POSIX path
    library the dictionary loader and glob use.  The results: the right-to-left
    normalisation equals a left-to-right walk of the directory tree, [normalize]
    is idempotent, [resolve] composes, [relative] is undone by [resolve], and the
    pattern behind [dirname], [basename] and [extname] always matches and cuts a
    path where it should. *)
From S2P Require Import Prelude JsString JsRegex.

Definition slash : jsstr := Eval vm_compute in js "/".
Definition dot : jsstr := Eval vm_compute in js ".".
Definition dotdot : jsstr := Eval vm_compute in js "..".

(** [process.cwd()] of the process shim. *)
Definition process_cwd : jsstr := slash.

(** ** normalizeArray *)

(** [parts.splice(i, 1)] *)
Definition splice1 {A} (l : list A) (i : Z) : list A :=
  take (Z.to_nat i) l ++ drop (S (Z.to_nat i)) l.

Definition norm_step (st : list jsstr * nat) (i : Z) : list jsstr * nat :=
  let '(parts, up) := st in
  let last := js_get parts i in
  if decide (last = Some dot) then (splice1 parts i, up)
  else if decide (last = Some dotdot) then (splice1 parts i, S up)
  else if (0 <? up)%nat then (splice1 parts i, Nat.pred up)
  else (parts, up).

Definition normalizeArray (parts : list jsstr) (allowAboveRoot : bool) : list jsstr :=
  let '(parts', up) := foldl norm_step (parts, 0%nat) (reverse (seqZ 0 (js_len parts))) in
  if allowAboveRoot then replicate up dotdot ++ parts' else parts'.

(** [filter(s.split('/'), function (p) { return !!p; })] *)
Definition truthy (p : jsstr) : bool := match p with [] => false | _ => true end.
Definition path_filter {A} (xs : list A) (f : A -> bool) : list A := List.filter f xs.
Definition path_parts (s : jsstr) : list jsstr := path_filter (js_split s slash) truthy.

(** [substr(str, start, len)]: a negative start counts from the end. *)
Definition substr (str : jsstr) (start : Z) (len : option Z) : jsstr :=
  match len with
  | None => js_slice_from str start
  | Some n => js_substr str start n
  end.

Definition isAbsolute (path : jsstr) : bool := bool_decide (charAt path 0 = slash).

(** ** resolve, normalize, join, relative

    An argument is [Some s] for a string and [None] for anything else. *)
Fixpoint resolve_loop (args : list (option jsstr)) (resolvedPath : jsstr) (resolvedAbsolute : bool)
  : outcome (jsstr * bool) :=
  match args with
  | [] => Ret (resolvedPath, resolvedAbsolute)
  | path :: rest =>
      if resolvedAbsolute then Ret (resolvedPath, resolvedAbsolute) else
      match path with
      | None => Throw (TypeError "Arguments to path.resolve must be strings")
      | Some [] => resolve_loop rest resolvedPath resolvedAbsolute
      | Some path => resolve_loop rest (path ++ slash ++ resolvedPath) (isAbsolute path)
      end
  end.

Definition or_dot (s : jsstr) : jsstr := if truthy s then s else dot.

Definition resolve (args : list (option jsstr)) : outcome jsstr :=
  '(resolvedPath, resolvedAbsolute) ← resolve_loop (reverse args ++ [Some process_cwd]) [] false;
  let body := js_join slash (normalizeArray (path_parts resolvedPath) (negb resolvedAbsolute)) in
  Ret (or_dot ((if resolvedAbsolute : bool then slash else []) ++ body)).

Definition normalize (path : jsstr) : jsstr :=
  let absolute := isAbsolute path in
  let trailingSlash := bool_decide (substr path (-1) None = slash) in
  let path1 := js_join slash (normalizeArray (path_parts path) (negb absolute)) in
  let path2 := if negb (truthy path1) && negb absolute then dot else path1 in
  let path3 := if truthy path2 && trailingSlash then path2 ++ slash else path2 in
  (if absolute then slash else []) ++ path3.

(** The callback of [filter] throws on the first argument that is no string. *)
Fixpoint join_filter (paths : list (option jsstr)) : outcome (list jsstr) :=
  match paths with
  | [] => Ret []
  | None :: _ => Throw (TypeError "Arguments to path.join must be strings")
  | Some p :: rest => r ← join_filter rest; Ret (if truthy p then p :: r else r)
  end.

Definition join (paths : list (option jsstr)) : outcome jsstr :=
  l ← join_filter paths; Ret (normalize (js_join slash l)).

(** [trim] of [relative] *)
Fixpoint first_nonempty (arr : list jsstr) (start : Z) : Z :=
  match arr with
  | [] => start
  | x :: r => if truthy x then start else first_nonempty r (start + 1)
  end.

Definition trim (arr : list jsstr) : list jsstr :=
  let start := first_nonempty arr 0 in
  let last := js_len arr - 1 - first_nonempty (reverse arr) 0 in
  if last <? start then [] else js_slice arr start (last - start + 1).

(** Length of the common prefix, at most [length]. *)
Fixpoint samePartsLength (fromParts toParts : list jsstr) : Z :=
  match fromParts, toParts with
  | x :: f, y :: t => if decide (x = y) then 1 + samePartsLength f t else 0
  | _, _ => 0
  end.

Definition relative (from to : option jsstr) : outcome jsstr :=
  from' ← resolve [from];
  to' ← resolve [to];
  let fromParts := trim (js_split (substr from' 1 None) slash) in
  let toParts := trim (js_split (substr to' 1 None) slash) in
  let same := samePartsLength fromParts toParts in
  let outputParts := replicate (Z.to_nat (js_len fromParts - same)) dotdot in
  Ret (js_join slash (outputParts ++ js_slice_from toParts same)).

Definition sep : jsstr := slash.
Definition delimiter : jsstr := Eval vm_compute in js ":".

(** ** dirname, basename, extname *)
Definition splitPathRe : regex := Eval vm_compute in
  regex_lit "^(\/?|)([\s\S]*?)((?:\.{1,2}|[^\/]+?|)(\.[^.\/]*|))(?:[\/]*)$".

(** [splitPathRe.exec(filename).slice(1)]: root, dir, basename, ext. *)
Definition splitPath (filename : jsstr) : outcome (jsstr * jsstr * jsstr * jsstr) :=
  match regex_exec splitPathRe filename with
  | None => Throw (TypeError "Cannot read property of null")
  | Some m =>
      let g n := default [] (cap_get (m_caps m) n) in
      Ret (g 1%nat, g 2%nat, g 3%nat, g 4%nat)
  end.

Definition dirname (path : jsstr) : outcome jsstr :=
  '(root, dir, _, _) ← splitPath path;
  if negb (truthy root) && negb (truthy dir) then Ret dot
  else Ret (root ++ (if truthy dir then substr dir 0 (Some (js_len dir - 1)) else dir)).

Definition basename (path : jsstr) (ext : option jsstr) : outcome jsstr :=
  '(_, _, f, _) ← splitPath path;
  match ext with
  | Some (x :: e') =>
      let e := x :: e' in
      if decide (substr f (-1 * js_len e) None = e) then Ret (substr f 0 (Some (js_len f - js_len e)))
      else Ret f
  | _ => Ret f
  end.

Definition extname (path : jsstr) : outcome jsstr :=
  '(_, _, _, e) ← splitPath path; Ret e.

(** ** path-is-absolute *)
Definition posix (path : jsstr) : bool := bool_decide (charAt path 0 = slash).

Definition splitDeviceRe : regex := Eval vm_compute in
  regex_lit "^([a-zA-Z]:|[\\\/]{2}[^\\\/]+[\\\/]+[^\\\/]+)?([\\\/])?([\s\S]*?)$".

Definition win32 (path : jsstr) : outcome bool :=
  match regex_exec splitDeviceRe path with
  | None => Throw (TypeError "Cannot read property of null")
  | Some m =>
      let device := default [] (cap_get (m_caps m) 1) in
      let isUnc := truthy device && negb (bool_decide (charAt device 1 = js ":")) in
      Ret (truthy (default [] (cap_get (m_caps m) 2)) || isUnc)
  end.

(** The shim has no [process.platform]. *)
Definition path_is_absolute : jsstr -> bool := posix.

(** ** Components of a path name *)
Definition slash_unit : Z := 47.

(** A component: not empty, no slash inside. *)
Definition component (p : jsstr) : Prop := p <> [] /\ slash_unit ∉ p.

Lemma path_parts_component s : Forall component (path_parts s).
Proof.
  unfold path_parts, path_filter. apply Forall_forall. intros p Hp.
  apply list_elem_of_In, filter_In in Hp as [Hp%list_elem_of_In Ht]. split; [by destruct p|].
  pose proof (split_unit_free slash_unit s) as H. rewrite Forall_forall in H. by apply H.
Qed.

Lemma path_parts_app a b : path_parts (a ++ slash ++ b) = path_parts a ++ path_parts b.
Proof.
  unfold path_parts, path_filter, slash. cbn [app]. by rewrite split_unit_app, List.filter_app.
Qed.

Lemma path_parts_nil : path_parts [] = [].
Proof. reflexivity. Qed.

Lemma path_parts_slash s : path_parts (slash ++ s) = path_parts s.
Proof. apply (path_parts_app []). Qed.

Lemma path_parts_trail s : path_parts (s ++ slash) = path_parts s.
Proof.
  pose proof (path_parts_app s []) as H. rewrite app_nil_r in H. rewrite H, path_parts_nil.
  apply app_nil_r.
Qed.

Lemma path_parts_join l : Forall component l -> path_parts (js_join slash l) = l.
Proof.
  intros H. induction H as [|x l [Hx Hs] H IH]; [done|].
  assert (path_parts x = [x]) as Hp.
  { unfold path_parts, path_filter. rewrite (split_unit_none slash_unit) by done. by destruct x. }
  destruct l as [|y l]; [exact Hp|].
  rewrite js_join_cons by done. by rewrite path_parts_app, IH, Hp.
Qed.

Lemma isAbsolute_cons c s : isAbsolute (c :: s) = (c =? slash_unit).
Proof.
  unfold isAbsolute, charAt, js_get, slash, slash_unit. cbn. destruct (c =? 47) eqn:E; bool_props.
  - subst. by rewrite bool_decide_true.
  - rewrite bool_decide_false; [done|]. by intros [= ->].
Qed.

Lemma join_not_absolute l : Forall component l -> isAbsolute (js_join slash l) = false.
Proof.
  intros H. destruct H as [|x l [Hx Hs] H]; [done|]. destruct x as [|c x]; [done|].
  apply not_elem_of_cons in Hs as [Hc _].
  destruct l; cbn [js_join app]; rewrite isAbsolute_cons; apply Z.eqb_neq; congruence.
Qed.

(** ** Normalisation as a walk

    [walk] reads the components from the left and keeps the directories entered
    so far, innermost first.  [allow] says whether leaving the start is recorded. *)
Definition walk_step (allow : bool) (stk : list jsstr) (x : jsstr) : list jsstr :=
  if decide (x = dot) then stk
  else if decide (x = dotdot) then
    match stk with
    | [] => if allow then [x] else []
    | y :: stk' => if decide (y = dotdot) then (if allow then x :: stk else stk) else stk'
    end
  else x :: stk.

Definition walk (allow : bool) (stk parts : list jsstr) : list jsstr :=
  foldl (walk_step allow) stk parts.

(** The loop of [normalizeArray] as a right fold. *)
Definition norm_rtl (x : jsstr) (st : list jsstr * nat) : list jsstr * nat :=
  let '(k, up) := st in
  if decide (x = dot) then (k, up)
  else if decide (x = dotdot) then (k, S up)
  else match up with O => (x :: k, O) | S up' => (k, up') end.

Lemma splice1_mid {A} (l k : list A) x : splice1 (l ++ x :: k) (js_len l) = l ++ k.
Proof.
  unfold splice1, js_len. rewrite Nat2Z.id, take_app_length. f_equal.
  rewrite (cons_middle x l k), app_assoc.
  replace (S (length l)) with (length (l ++ [x])) by (rewrite length_app; cbn; lia).
  by rewrite drop_app_length.
Qed.

Lemma norm_loop_rtl l k up :
  foldl norm_step (l ++ k, up) (reverse (seqZ 0 (js_len l))) = foldr norm_rtl (k, up) l.
Proof.
  revert k up. induction l as [|x l IH] using rev_ind; intros k up; [done|].
  rewrite js_len_app. change (js_len [x]) with 1. pose proof (js_len_nonneg l).
  rewrite seqZ_app by lia. rewrite reverse_app. rewrite <- app_assoc.
  change (seqZ (0 + js_len l) 1) with [js_len l]. cbn [reverse rev_append app foldl].
  rewrite foldr_snoc. unfold norm_step at 2, norm_rtl at 2.
  rewrite js_get_app_r, Z.sub_diag by lia. cbn [js_get].
  change (js_get (x :: k) 0) with (Some x). rewrite splice1_mid.
  repeat case_decide; simplify_eq; try by rewrite IH.
  destruct up as [|up]; cbn [Nat.ltb Nat.leb Nat.pred]; [|by rewrite IH].
  change (l ++ x :: k) with (l ++ [x] ++ k). rewrite (IH ([x] ++ k)). done.
Qed.

Lemma normalizeArray_rtl l allow :
  normalizeArray l allow =
  let '(k, up) := foldr norm_rtl ([], 0%nat) l in
  if allow then replicate up dotdot ++ k else k.
Proof.
  unfold normalizeArray. rewrite <- norm_loop_rtl. by rewrite app_nil_r.
Qed.

Lemma walk_rtl allow stk l :
  walk allow stk l =
  let '(k, up) := foldr norm_rtl ([], 0%nat) l in
  reverse k ++ Nat.iter up (fun s => walk_step allow s dotdot) stk.
Proof.
  revert stk; induction l as [|x l IH]; intros stk; [done|].
  unfold walk in *. cbn [foldl foldr]. rewrite IH.
  destruct (foldr norm_rtl ([], 0%nat) l) as [k up]. unfold norm_rtl.
  unfold walk_step at 2. destruct (decide (x = dot)) as [->|Hd]; [done|].
  destruct (decide (x = dotdot)) as [->|Hdd]; [by rewrite Nat.iter_succ_r|].
  destruct up as [|up]; [by rewrite reverse_cons, <- app_assoc|].
  rewrite Nat.iter_succ_r. do 2 f_equal. unfold walk_step.
  rewrite decide_False by done. rewrite decide_True by done. by rewrite decide_False.
Qed.

Lemma iter_up_nil allow up :
  Nat.iter up (fun s => walk_step allow s dotdot) [] = if allow then replicate up dotdot else [].
Proof.
  induction up as [|up IH]; cbn [Nat.iter nat_rect]; [by destruct allow|].
  unfold Nat.iter in IH. rewrite IH. by destruct allow, up.
Qed.

Lemma reverse_replicate {A} n (x : A) : reverse (replicate n x) = replicate n x.
Proof.
  induction n as [|n IH]; [done|]. cbn [replicate]. rewrite reverse_cons, IH.
  by rewrite <- replicate_cons_app.
Qed.

Lemma normalizeArray_walk l allow : normalizeArray l allow = reverse (walk allow [] l).
Proof.
  rewrite normalizeArray_rtl, walk_rtl. destruct (foldr norm_rtl ([], 0%nat) l) as [k up].
  rewrite iter_up_nil, reverse_app, reverse_involutive. by destruct allow; rewrite ?reverse_replicate.
Qed.

(** Ordinary names are entered, and [..] leaves an ordinary directory. *)
Definition name (x : jsstr) : Prop := x <> dot /\ x <> dotdot.

Lemma walk_app allow stk a b : walk allow stk (a ++ b) = walk allow (walk allow stk a) b.
Proof. apply foldl_app. Qed.

Lemma walk_names allow stk l : Forall name l -> walk allow stk l = reverse l ++ stk.
Proof.
  intros H. revert stk. unfold walk. induction H as [|x l [Hx1 Hx2] H IH]; intros stk; [done|].
  cbn [foldl]. rewrite IH. unfold walk_step. rewrite !decide_False by done.
  by rewrite reverse_cons, <- app_assoc.
Qed.

Lemma walk_up allow stk l : Forall name l ->
  walk allow (l ++ stk) (replicate (length l) dotdot) = stk.
Proof.
  intros H. induction H as [|x l [Hx1 Hx2] H IH]; [done|].
  cbn [length replicate]. unfold walk in *. cbn [foldl]. cbn [app]. unfold walk_step at 2.
  rewrite decide_False, decide_True, decide_False by done. exact IH.
Qed.

(** The directories of an absolute walk are ordinary names of the path. *)
Lemma walk_abs_inv (P : jsstr -> Prop) stk l :
  Forall name stk -> Forall P stk -> Forall P l ->
  Forall name (walk false stk l) /\ Forall P (walk false stk l).
Proof.
  intros Hn Hs H. revert stk Hn Hs. unfold walk. induction H as [|x l Hx H IH]; intros stk Hn Hs;
    [done|]. cbn [foldl]. apply IH; unfold walk_step; repeat case_decide; try done.
  - destruct stk as [|y stk]; [done|]. case_decide; [done|]. by apply Forall_cons in Hn as [_ ?].
  - by constructor.
  - destruct stk as [|y stk]; [done|]. case_decide; [done|]. by apply Forall_cons in Hs as [_ ?].
  - by constructor.
Qed.

(** ** resolve as a sequence of directory changes *)

(** [cd]: an absolute argument starts at the root, a relative one here. *)
Definition cd (dir : list jsstr) (arg : jsstr) : list jsstr :=
  walk false (if isAbsolute arg then [] else dir) (path_parts arg).

(** The path name of a directory given innermost first. *)
Definition dir_name (dir : list jsstr) : jsstr := slash ++ js_join slash (reverse dir).

Lemma resolve_loop_cd l rp :
  exists q, resolve_loop (map Some l ++ [Some process_cwd]) rp false = Ret (q, true) /\
    walk false [] (path_parts q) = walk false (foldl cd [] (reverse l)) (path_parts rp).
Proof.
  revert rp; induction l as [|x l IH]; intros rp.
  - exists (slash ++ slash ++ rp). split; [done|]. by rewrite !path_parts_slash.
  - rewrite reverse_cons, foldl_app. cbn [map app foldl resolve_loop].
    destruct x as [|c x]; [apply IH|]. set (y := c :: x). unfold cd at 1.
    destruct (isAbsolute y) eqn:E.
    + exists (y ++ slash ++ rp). split; [by destruct (map Some l)|].
      by rewrite path_parts_app, walk_app.
    + destruct (IH (y ++ slash ++ rp)) as (q & Hq & Hw). exists q. split; [exact Hq|].
      by rewrite Hw, path_parts_app, walk_app.
Qed.

Lemma resolve_is_cd (args : list jsstr) : resolve (map Some args) = Ret (dir_name (foldl cd [] args)).
Proof.
  unfold resolve.
  assert (reverse (map Some args) = map Some (reverse args)) as -> by apply (symmetry (fmap_reverse Some args)).
  destruct (resolve_loop_cd (reverse args) []) as (q & -> & Hw). cbn [mbind outcome_bind].
  rewrite normalizeArray_walk. cbn [negb]. rewrite Hw, reverse_involutive, path_parts_nil. done.
Qed.

(** Directories reached by [cd] consist of ordinary components. *)
Definition dir_ok (dir : list jsstr) : Prop := Forall name dir /\ Forall component dir.

Lemma cd_ok dir arg : dir_ok dir -> dir_ok (cd dir arg).
Proof.
  intros [Hn Hc]. apply walk_abs_inv; [by case_match|by case_match|apply path_parts_component].
Qed.

Lemma cds_ok dir args : dir_ok dir -> dir_ok (foldl cd dir args).
Proof. revert dir; induction args as [|a args IH]; intros dir H; [done|]. by apply IH, cd_ok. Qed.

Lemma root_ok : dir_ok [].
Proof. split; constructor. Qed.

Lemma cd_dir_name dir d : dir_ok d -> cd dir (dir_name d) = d.
Proof.
  intros [Hn Hc]. unfold cd, dir_name. change (isAbsolute (slash ++ _)) with true. cbv iota.
  rewrite path_parts_slash, path_parts_join by by apply Forall_reverse.
  rewrite walk_names by by apply Forall_reverse. rewrite reverse_involutive. apply app_nil_r.
Qed.

(** ** normalize *)
Lemma substr_last_app s c : substr (s ++ [c]) (-1) None = [c].
Proof.
  unfold substr, js_slice_from, js_slice, slice_pos. rewrite js_len_app.
  change (js_len [c]) with 1. pose proof (js_len_nonneg s). cbn [Z.ltb Z.compare].
  destruct (js_len s + 1 <? 0) eqn:E; bool_props; [lia|].
  rewrite Z.max_r, Z.min_id by lia.
  replace (Z.to_nat (js_len s + 1 - (js_len s + 1 + -1))) with 1%nat by lia.
  replace (Z.to_nat (js_len s + 1 + -1)) with (length s) by (unfold js_len; lia).
  by rewrite drop_app_length.
Qed.

Lemma join_last l x : js_join slash (l ++ [x]) = (match l with [] => [] | _ => js_join slash l ++ slash end) ++ x.
Proof.
  induction l as [|y l IH]; [done|]. cbn [app]. rewrite js_join_cons by by destruct l.
  rewrite IH. destruct l as [|z l]; [cbn [js_join]; by rewrite <- app_assoc|].
  rewrite (js_join_cons slash y (z :: l)) by done. by rewrite !app_assoc.
Qed.

Lemma join_no_trailing l : Forall component l -> substr (js_join slash l) (-1) None <> slash.
Proof.
  intros H. destruct l as [|x l _] using rev_ind; [done|].
  rewrite join_last. apply Forall_app in H as [_ H]. apply Forall_cons in H as [[Hx Hs] _].
  destruct x as [|c x _] using rev_ind; [done|]. rewrite app_assoc, substr_last_app.
  intros [= ->]. apply Hs, elem_of_app. right. by apply list_elem_of_singleton.
Qed.

Lemma truthy_join l : Forall component l -> truthy (js_join slash l) = match l with [] => false | _ => true end.
Proof.
  intros H. destruct H as [|x l [Hx _] _]; [done|]. destruct x; [done|]. by destruct l.
Qed.

(** What the loop of [normalizeArray] keeps: some [..]s, then ordinary names. *)
Lemma norm_rtl_names l : Forall component l ->
  Forall name (foldr norm_rtl ([], 0%nat) l).1 /\ Forall component (foldr norm_rtl ([], 0%nat) l).1.
Proof.
  intros H. induction H as [|x l Hx H [IH1 IH2]]; [by split; constructor|]. cbn [foldr].
  destruct (foldr norm_rtl ([], 0%nat) l) as [k up]. unfold norm_rtl. repeat case_decide; [done|done|].
  destruct up; [|done]. split; constructor; done.
Qed.

Lemma norm_rtl_fix k (st : list jsstr) : Forall name k -> foldr norm_rtl (st, 0%nat) k = (k ++ st, 0%nat).
Proof.
  intros H. induction H as [|x k [Hx1 Hx2] H IH]; [done|]. cbn [foldr]. rewrite IH.
  unfold norm_rtl. by rewrite !decide_False.
Qed.

Lemma norm_rtl_ups n (k : list jsstr) up : foldr norm_rtl (k, up) (replicate n dotdot) = (k, n + up)%nat.
Proof. induction n as [|n IH]; [done|]. cbn [replicate foldr]. by rewrite IH. Qed.

Lemma normalizeArray_fix l allow :
  Forall component l -> normalizeArray (normalizeArray l allow) allow = normalizeArray l allow.
Proof.
  intros Hl. destruct (norm_rtl_names l Hl) as [Hn _]. rewrite (normalizeArray_rtl l allow).
  destruct (foldr norm_rtl ([], 0%nat) l) as [k up]. cbn [fst] in Hn. rewrite normalizeArray_rtl.
  destruct allow.
  - by rewrite foldr_app, norm_rtl_fix, app_nil_r, norm_rtl_ups, Nat.add_0_r.
  - by rewrite norm_rtl_fix, app_nil_r.
Qed.

Lemma normalizeArray_component l allow : Forall component l -> Forall component (normalizeArray l allow).
Proof.
  intros Hl. destruct (norm_rtl_names l Hl) as [_ Hc]. rewrite normalizeArray_rtl.
  destruct (foldr norm_rtl ([], 0%nat) l) as [k up]. destruct allow; [|done].
  apply Forall_app. split; [|done]. apply Forall_replicate. split; [done|].
  vm_compute. intros H. by repeat (apply elem_of_cons in H as [?|H]; [done|]); apply not_elem_of_nil in H.
Qed.

Lemma normalize_abs p : isAbsolute p = true ->
  normalize p = slash ++ (let b := js_join slash (normalizeArray (path_parts p) false) in
    if truthy b && bool_decide (substr p (-1) None = slash) then b ++ slash else b).
Proof. intros H. unfold normalize. rewrite H. cbn [negb]. by rewrite andb_false_r. Qed.

Lemma normalize_rel p : isAbsolute p = false ->
  normalize p = (let b := or_dot (js_join slash (normalizeArray (path_parts p) true)) in
    if bool_decide (substr p (-1) None = slash) then b ++ slash else b).
Proof.
  intros H. unfold normalize, or_dot. rewrite H. cbn [negb app]. rewrite andb_true_r.
  by destruct (truthy (js_join slash (normalizeArray (path_parts p) true))) eqn:E; cbn [negb]; rewrite ?E.
Qed.

(** A path [b] or [b/] with [b] slash-free at its end: which of the two it is. *)
Lemma trailing_slash (t : bool) b :
  substr b (-1) None <> slash ->
  bool_decide (substr (if t then b ++ slash else b) (-1) None = slash) = t.
Proof.
  intros H. destruct t; [|by apply bool_decide_false].
  apply bool_decide_true. apply (substr_last_app b slash_unit).
Qed.

Lemma isAbsolute_app b t : b <> [] -> isAbsolute (b ++ t) = isAbsolute b.
Proof. destruct b as [|c b]; [done|]. intros _. cbn [app]. by rewrite !isAbsolute_cons. Qed.

Lemma normalize_fix_abs p : isAbsolute p = true -> normalize (normalize p) = normalize p.
Proof.
  intros H. rewrite (normalize_abs p H). cbv zeta. set (N := normalizeArray (path_parts p) false).
  set (t := bool_decide _).
  pose proof (normalizeArray_component _ false (path_parts_component p)) as HN. fold N in HN.
  pose proof (normalizeArray_fix _ false (path_parts_component p)) as Hf. fold N in Hf.
  rewrite normalize_abs by done. cbv zeta. rewrite path_parts_slash.
  destruct N as [|x N'] eqn:EN; [reflexivity|]. rewrite <- EN in *.
  assert (truthy (js_join slash N) = true) as Ht by (rewrite truthy_join by done; by rewrite EN).
  rewrite Ht. cbn [andb].
  assert (path_parts (if t then js_join slash N ++ slash else js_join slash N) = N) as ->
    by (destruct t; rewrite ?path_parts_trail; by apply path_parts_join).
  rewrite Hf, Ht. cbn [andb]. f_equal.
  replace (bool_decide (substr _ _ _ = slash)) with t; [done|]. symmetry.
  set (b := js_join slash N).
  assert (substr (slash ++ b) (-1) None <> slash) as Hb.
  { pose proof (join_no_trailing N HN) as Hj. fold b in Hj, Ht.
    clearbody b. destruct b as [|c b _] using rev_ind; [done|].
    rewrite app_assoc, substr_last_app. by rewrite substr_last_app in Hj. }
  pose proof (trailing_slash t (slash ++ b) Hb) as Hts. clearbody t.
  destruct t; [by rewrite app_assoc|exact Hts].
Qed.

Lemma normalize_fix_rel p : isAbsolute p = false -> normalize (normalize p) = normalize p.
Proof.
  intros H. rewrite (normalize_rel p H). cbv zeta. set (N := normalizeArray (path_parts p) true).
  set (t := bool_decide _).
  pose proof (normalizeArray_component _ true (path_parts_component p)) as HN. fold N in HN.
  pose proof (normalizeArray_fix _ true (path_parts_component p)) as Hf. fold N in Hf.
  destruct N as [|x N'] eqn:EN.
  - destruct t; reflexivity.
  - rewrite <- EN in *. unfold or_dot.
    assert (truthy (js_join slash N) = true) as Ht by (rewrite truthy_join by done; by rewrite EN).
    rewrite Ht. set (b := js_join slash N) in *.
    assert (b <> []) as Hb by (intros Eb; by rewrite Eb in Ht).
    rewrite normalize_rel.
    + cbv zeta. unfold or_dot.
      assert (path_parts (if t then b ++ slash else b) = N) as ->
        by (destruct t; rewrite ?path_parts_trail; by apply path_parts_join).
      rewrite Hf. fold b. rewrite Ht. rewrite trailing_slash; [done|by apply join_no_trailing].
    + destruct t; [rewrite isAbsolute_app by done|]; by apply join_not_absolute.
Qed.

(** ** relative *)
Lemma first_nonempty_component l : Forall component l -> first_nonempty l 0 = 0.
Proof. intros H. destruct H as [|x l [Hx _] _]; [done|]. by destruct x. Qed.

Lemma trim_component l : Forall component l -> trim l = l.
Proof.
  intros H. unfold trim. rewrite (first_nonempty_component l) by done.
  rewrite (first_nonempty_component (reverse l)) by by apply Forall_reverse.
  destruct l as [|x l]; [done|]. rewrite js_len_cons. pose proof (js_len_nonneg l).
  destruct (_ <? _) eqn:E; bool_props; [lia|].
  replace (1 + js_len l - 1 - 0 - 0 + 1) with (js_len (x :: l)) by (rewrite js_len_cons; lia).
  apply js_slice_full.
Qed.

Lemma substr_dir_name dir : substr (dir_name dir) 1 None = js_join slash (reverse dir).
Proof.
  unfold substr, dir_name, js_slice_from. set (s := js_join _ _).
  pose proof (js_len_nonneg s). rewrite js_slice_in; rewrite js_len_app; change (js_len slash) with 1; [|lia..].
  cbn [Z.to_nat Pos.to_nat Pos.iter_op slash app drop]. apply take_ge. unfold js_len in *. lia.
Qed.

Lemma trim_split_dir dir : dir_ok dir -> trim (js_split (js_join slash (reverse dir)) slash) = reverse dir.
Proof.
  intros [_ H]. apply Forall_reverse in H. destruct (reverse dir) as [|x l] eqn:E; [done|].
  unfold slash. rewrite (join_split_unit slash_unit); [by apply trim_component|done|].
  eapply Forall_impl; [exact H|]. by intros y [_ ?].
Qed.

Lemma samePartsLength_spec f t :
  0 <= samePartsLength f t <= js_len f /\ samePartsLength f t <= js_len t /\
  take (Z.to_nat (samePartsLength f t)) f = take (Z.to_nat (samePartsLength f t)) t.
Proof.
  revert t; induction f as [|x f IH]; intros [|y t]; cbn [samePartsLength];
    rewrite ?js_len_cons; try pose proof (js_len_nonneg f); try pose proof (js_len_nonneg t);
    change (@js_len jsstr []) with 0; try (split; [lia|split; [lia|done]]).
  case_decide as E; [subst|split; [lia|split; [lia|done]]].
  destruct (IH t) as (H1 & H2 & H3). split; [lia|]. split; [lia|].
  replace (Z.to_nat (1 + samePartsLength f t)) with (S (Z.to_nat (samePartsLength f t))) by lia.
  cbn [take]. by rewrite H3.
Qed.

Lemma dotdot_component : component dotdot.
Proof.
  split; [done|]. intros H. by repeat (apply elem_of_cons in H as [?|H]; [done|]); apply not_elem_of_nil in H.
Qed.

(** The relative name from [f] to [t], as components. *)
Lemma walk_relative f t :
  Forall name f -> Forall name t ->
  walk false (reverse f) (replicate (Z.to_nat (js_len f - samePartsLength f t)) dotdot ++
    js_slice_from t (samePartsLength f t)) = reverse t.
Proof.
  intros Hf Ht. destruct (samePartsLength_spec f t) as (H1 & H2 & H3).
  set (k := samePartsLength f t) in *. rewrite walk_app.
  assert (reverse f = reverse (drop (Z.to_nat k) f) ++ reverse (take (Z.to_nat k) f)) as ->
    by by rewrite <- reverse_app, take_drop.
  replace (Z.to_nat (js_len f - k)) with (length (reverse (drop (Z.to_nat k) f)))
    by (rewrite length_reverse, length_drop; unfold js_len in *; lia).
  rewrite walk_up by by apply Forall_reverse, Forall_drop.
  unfold js_slice_from. rewrite js_slice_in by lia. rewrite (take_ge (drop _ t))
    by (rewrite length_drop; unfold js_len; lia).
  rewrite walk_names by by apply Forall_drop. by rewrite H3, <- reverse_app, take_drop.
Qed.

Lemma cd_relative f t :
  dir_ok f -> dir_ok t -> exists r,
  relative (Some (dir_name f)) (Some (dir_name t)) = Ret r /\ cd f r = t.
Proof.
  intros Hf Ht. unfold relative.
  pose proof (resolve_is_cd [dir_name f]) as E1. pose proof (resolve_is_cd [dir_name t]) as E2.
  cbn [map foldl] in E1, E2. rewrite cd_dir_name in E1, E2 by done. rewrite E1, E2.
  cbn [mbind outcome_bind]. rewrite !substr_dir_name, !trim_split_dir by done.
  eexists. split; [reflexivity|]. destruct Hf as [Hf1 Hf2], Ht as [Ht1 Ht2].
  match goal with |- cd f (js_join slash ?l) = t => set (parts := l) end.
  assert (Forall component parts) as Hp.
  { apply Forall_app. split; [apply Forall_replicate, dotdot_component|].
    unfold js_slice_from, js_slice. apply Forall_take, Forall_drop. by apply Forall_reverse. }
  unfold cd. rewrite join_not_absolute, path_parts_join by done.
  rewrite <- (reverse_involutive f) at 1. unfold parts.
  rewrite walk_relative by by apply Forall_reverse. by rewrite reverse_involutive.
Qed.

(** ** Results *)

(** Normalisation is a walk.  The in-place right-to-left loop of
    [normalizeArray], with its counter of pending [..]s, computes the same
    components as reading them from the left and entering or leaving one
    directory at a time. *)
Theorem normalizeArray_is_walk (parts : list jsstr) (allowAboveRoot : bool) :
  normalizeArray parts allowAboveRoot = reverse (walk allowAboveRoot [] parts).
Proof. apply normalizeArray_walk. Qed.

(** [normalize] is idempotent, on every path name. *)
Theorem normalize_idempotent (path : jsstr) : normalize (normalize path) = normalize path.
Proof.
  destruct (isAbsolute path) eqn:H; [by apply normalize_fix_abs|by apply normalize_fix_rel].
Qed.

(** C40: [resolve] refines a sequence of directory changes.  On string arguments it
    returns the absolute name of the directory reached from the root by changing
    to each argument in turn; the components of that name are ordinary. *)
Theorem resolve_refines_cd (args : list jsstr) :
  resolve (map Some args) = Ret (dir_name (foldl cd [] args)) /\ dir_ok (foldl cd [] args).
Proof. split; [apply resolve_is_cd|apply cds_ok, root_ok]. Qed.

(** C39: [resolve] undoes [relative].  For all path names [from] and [to],
    [relative(from, to)] returns a name that resolved against [from] gives what
    [to] alone resolves to. *)
Theorem resolve_relative (from to : jsstr) :
  exists f t r, resolve [Some from] = Ret f /\ resolve [Some to] = Ret t /\
    relative (Some from) (Some to) = Ret r /\ resolve [Some f; Some r] = Ret t /\
    resolve [Some from; Some r] = Ret t.
Proof.
  pose proof (resolve_is_cd [from]) as Ef. pose proof (resolve_is_cd [to]) as Et.
  pose proof (cds_ok [] [from] root_ok) as Hf. pose proof (cds_ok [] [to] root_ok) as Ht.
  cbn [map foldl] in *. set (df := cd [] from) in *. set (dt := cd [] to) in *.
  destruct (cd_relative df dt Hf Ht) as (r & Hr & Hcd).
  assert (relative (Some from) (Some to) = Ret r) as Hr'.
  { revert Hr. unfold relative. rewrite Ef, Et.
    pose proof (resolve_is_cd [dir_name df]) as E1. pose proof (resolve_is_cd [dir_name dt]) as E2.
    cbn [map foldl] in E1, E2. rewrite cd_dir_name in E1, E2 by done. by rewrite E1, E2. }
  exists (dir_name df), (dir_name dt), r. split; [done|]. split; [done|]. split; [done|]. split.
  - pose proof (resolve_is_cd [dir_name df; r]) as E. cbn [map foldl] in E.
    by rewrite cd_dir_name, Hcd in E.
  - pose proof (resolve_is_cd [from; r]) as E. cbn [map foldl] in E. fold df in E. by rewrite Hcd in E.
Qed.

(** ** The pattern of splitPath *)
Definition any_class : list class_item := [CSpace true; CSpace false].

Definition root_re : regex :=
  RAlt (RSeq (RRepeat 0 (Some 1%nat) true 2 2 (RChar 47)) REmpty) REmpty.

Definition stem_re : regex :=
  RAlt (RSeq (RRepeat 1 (Some 2%nat) true 4 4 (RChar 46)) REmpty)
    (RAlt (RSeq (RRepeat 1 None false 4 4 (RClass true [CRange 47 47])) REmpty) REmpty).

Definition ext_re : regex :=
  RAlt (RSeq (RChar 46)
    (RSeq (RRepeat 0 None true 5 5 (RClass true [CRange 46 46; CRange 47 47])) REmpty)) REmpty.

Definition tail_re : regex :=
  RSeq (RGroup 3 (RSeq stem_re (RSeq (RGroup 4 ext_re) REmpty)))
    (RSeq (RSeq (RRepeat 0 None true 5 5 (RClass false [CRange 47 47])) REmpty) (RSeq REol REmpty)).

Lemma splitPathRe_shape : splitPathRe =
  RSeq RBol (RSeq (RGroup 1 root_re)
    (RSeq (RGroup 2 (RSeq (RRepeat 0 None false 3 3 (RClass false any_class)) REmpty)) tail_re)).
Proof. reflexivity. Qed.

Definition ext_ok (ext : jsstr) : Prop :=
  ext = [] \/ (exists e, ext = 46 :: e /\ (46 ∉ e) /\ slash_unit ∉ e).

Lemma Forall_not_elem (c : Z) l : Forall (fun y => y <> c) l <-> c ∉ l.
Proof.
  rewrite Forall_forall. split; [intros H Hc; by apply H in Hc|]. intros H y Hy ->. done.
Qed.

Lemma stem_den total c s c' s' : den total stem_re c s c' s' -> c' = c /\ exists x, s = x ++ s' /\ slash_unit ∉ x.
Proof.
  unfold stem_re. cbn [den]. intros [(c1 & s1 & H & -> & ->)|[(c1 & s1 & H & -> & ->)|[-> ->]]].
  - apply (rep_single _ _ _ _ _ _ _ _ _ (single_char total 46)) in H as (-> & p & -> & Hp & _);
      [|by intros m [= <-]; lia].
    split; [done|]. exists p. split; [done|]. apply Forall_not_elem. eapply Forall_impl; [exact Hp|].
    by intros ? ->.
  - apply (rep_single _ _ _ _ _ _ _ _ _ (single_class total _ _)) in H as (-> & p & -> & Hp & _); [|done].
    split; [done|]. exists p. split; [done|]. apply Forall_not_elem. eapply Forall_impl; [exact Hp|].
    intros y Hy. by apply class_not in Hy.
  - split; [done|]. exists []. split; [done|]. apply not_elem_of_nil.
Qed.

Lemma ext_den total c s c' s' : den total ext_re c s c' s' -> c' = c /\ exists e, s = e ++ s' /\ ext_ok e.
Proof.
  unfold ext_re. cbn [den]. intros [(c1 & s1 & [-> ->] & c2 & s2 & H & -> & ->)|[-> ->]].
  - apply (rep_single _ _ _ _ _ _ _ _ _ (single_class total _ _)) in H as (-> & p & -> & Hp & _); [|done].
    split; [done|]. exists (46 :: p). split; [done|]. right. exists p. split; [done|].
    rewrite <- !Forall_not_elem.
    split; (eapply Forall_impl; [exact Hp|]); intros y Hy; by apply class_not2 in Hy as [? ?].
  - split; [done|]. exists []. split; [done|]. by left.
Qed.

Lemma tail_den total c u c' s' :
  den total tail_re c u c' s' ->
  exists base ext sl, u = base ++ sl /\ (slash_unit ∉ base) /\ Forall (fun y => y = slash_unit) sl /\
    ext `suffix_of` base /\ ext_ok ext /\ c' = (3%nat, base) :: (4%nat, ext) :: c.
Proof.
  unfold tail_re. cbn [den].
  intros (c1 & s1 & (c2 & (c3 & s3 & H1 & c4 & s4 & (c5 & H2 & ->) & -> & ->) & ->) &
          c6 & s6 & (c7 & s7 & H3 & -> & ->) & c8 & s8 & (-> & -> & ->) & -> & ->).
  apply stem_den in H1 as (-> & x & -> & Hx). apply ext_den in H2 as (-> & e & -> & He).
  apply (rep_single _ _ _ _ _ _ _ _ _ (single_class total _ _)) in H3 as (-> & sl & -> & Hsl & _); [|done].
  rewrite app_nil_r in *. exists (x ++ e), e, sl. rewrite !app_assoc, !consumed_app.
  split; [done|]. split.
  - rewrite elem_of_app. intros [?|Hs]; [done|]. destruct He as [->|(e' & -> & _ & He)].
    + by apply not_elem_of_nil in Hs.
    + apply elem_of_cons in Hs as [?|?]; done.
  - split; [eapply Forall_impl; [exact Hsl|]; intros y Hy; by apply class_is in Hy|].
    split; [by exists x|]. done.
Qed.

Lemma tail_den_exists total c base sl :
  slash_unit ∉ base -> Forall (fun y => y = slash_unit) sl ->
  exists c' s', den total tail_re c (base ++ sl) c' s'.
Proof.
  intros Hb Hsl. eexists _, []. unfold tail_re. cbn [den]. eexists _, sl. split.
  - eexists. split; [|reflexivity]. exists c, sl. split.
    + unfold stem_re. cbn [den]. right. destruct base as [|y base]; [by right|]. left.
      exists c, sl. split; [|done].
      apply (rep_single _ _ _ _ _ _ _ _ _ (single_class total _ _)); [done|].
      split; [done|]. exists (y :: base). split; [done|]. split; [|cbn; split; [lia|done]].
      apply Forall_not_elem in Hb. eapply Forall_impl; [exact Hb|]. intros z Hz. by apply class_not.
    + eexists _, sl. split; [|done]. eexists. split; [|reflexivity]. unfold ext_re. cbn [den]. by right.
  - eexists _, []. split; [|eexists _, []; split; [split; [reflexivity|done]|done]].
    eexists _, []. split; [|done].
    apply (rep_single _ _ _ _ _ _ _ _ _ (single_class total _ _)); [done|]. split; [reflexivity|].
    exists sl. rewrite app_nil_r. split; [done|]. split; [|split; [lia|done]].
    eapply Forall_impl; [exact Hsl|]. intros z Hz. by apply class_is.
Qed.

(** Where the continuation always succeeds, the root group takes a leading slash. *)
Lemma root_match total s k :
  (forall c w, is_Some (k c w)) ->
  rmatch total (RGroup 1 root_re) [] s k =
  (if isAbsolute s then k [(1%nat, slash)] (drop 1 s) else k [(1%nat, [])] s).
Proof.
  intros Hk. unfold root_re. cbn [rmatch].
  destruct s as [|y s]; [by destruct (Hk [(1%nat, [])] []) as [x Hx]; cbn; rewrite Hx|].
  rewrite isAbsolute_cons. cbn [repeat_match plus length Nat.ltb Nat.leb].
  rewrite bool_decide_false by done. rewrite (Z.eqb_sym 47 y). unfold slash_unit.
  destruct (y =? 47) eqn:E.
  - bool_props. subst y. rewrite (proj2 (Nat.eqb_neq (length s) (S (length s)))) by lia.
    cbn [andb Nat.eqb fmap option_fmap option_map Nat.pred].
    replace (length s + 1)%nat with (S (length s)) by lia. cbn [repeat_match].
    rewrite bool_decide_true by done. change (47 :: s) with ([47] ++ s).
    rewrite consumed_app, !cap_reset_none. cbn [drop app]. unfold slash.
    destruct (Hk [(1%nat, [47])] s) as [x Hx].
    rewrite Hx. done.
  - rewrite consumed_self. destruct (Hk [(1%nat, [])] (y :: s)) as [x ->]. done.
Qed.

(** Suffixes where the rest of the pattern succeeds: a slash-free base, then
    slashes. *)
Definition base_suffix (u : jsstr) : Prop :=
  exists base sl, u = base ++ sl /\ (slash_unit ∉ base) /\ Forall (fun y => y = slash_unit) sl.

Lemma tail_match total c u :
  (rmatch total tail_re c u (fun c s => Some (c, s)) = None <-> ~ base_suffix u) /\
  (forall x, rmatch total tail_re c u (fun c s => Some (c, s)) = Some x ->
   exists base ext sl, u = base ++ sl /\ (slash_unit ∉ base) /\ Forall (fun y => y = slash_unit) sl /\
     ext `suffix_of` base /\ ext_ok ext /\ x.1 = (3%nat, base) :: (4%nat, ext) :: c).
Proof.
  destruct (rmatch_implements total tail_re c u (fun c s => Some (c, s))) as [Hs Hc].
  assert (forall x, rmatch total tail_re c u (fun c s => Some (c, s)) = Some x ->
   exists base ext sl, u = base ++ sl /\ (slash_unit ∉ base) /\ Forall (fun y => y = slash_unit) sl /\
     ext `suffix_of` base /\ ext_ok ext /\ x.1 = (3%nat, base) :: (4%nat, ext) :: c) as H.
  { intros x (c' & s' & Hd & [= <-])%Hs. by apply tail_den in Hd. }
  split; [|exact H]. split.
  - intros HN (base & sl & -> & Hb & Hsl). destruct (tail_den_exists total c base sl Hb Hsl) as (c' & s' & Hd).
    destruct (Hc ltac:(intros ???; by eexists) c' s' Hd) as [x Hx]; [by eexists|congruence].
  - intros Hn. destruct (rmatch _ _ _ _ _) as [x|] eqn:E; [|done].
    destruct (H x eq_refl) as (base & ext & sl & -> & Hb & Hsl & _). destruct Hn. by exists base, sl.
Qed.

Lemma base_suffix_nil : base_suffix [].
Proof. exists [], []. split; [done|]. split; [apply not_elem_of_nil|constructor]. Qed.

(** The lazy directory group and the tail, on the text after the root. *)
Lemma dir_match total c w :
  exists x dir base ext sl,
    rmatch total (RSeq (RGroup 2 (RSeq (RRepeat 0 None false 3 3 (RClass false any_class)) REmpty)) tail_re)
      c w (fun c s => Some (c, s)) = Some x /\
    x.1 = (3%nat, base) :: (4%nat, ext) :: (2%nat, dir) :: c /\
    w = dir ++ base ++ sl /\ (slash_unit ∉ base) /\ Forall (fun y => y = slash_unit) sl /\
    (dir = [] \/ (exists d, dir = d ++ slash /\ base <> [])) /\ ext `suffix_of` base /\ ext_ok ext.
Proof.
  cbn [rmatch]. rewrite Nat.add_0_l.
  match goal with |- context [repeat_match ?m1 false ?r ?f 0 None c w ?k] =>
    destruct (repeat_lazy_any m1 3 f c w k) as [[_ Hn]|(i & Hi & Hm & [x Hx] & Hj)] end.
  - intros c' [|y s'] k; [done|]. by rewrite class_any.
  - lia.
  - specialize (Hn (length w) ltac:(lia)). rewrite drop_all in Hn.
    apply tail_match in Hn. destruct Hn. exact base_suffix_nil.
  - rewrite Hx. rewrite Hx in Hm. symmetry in Hm. apply tail_match in Hm
      as (base & ext & sl & Hu & Hb & Hsl & Hext & Hok & Hc).
    exists x, (take i w), base, ext, sl. split; [done|].
    assert (consumed w (drop i w) = take i w) as Ec
      by (rewrite <- (take_drop i w) at 1; apply consumed_app).
    rewrite Ec in Hc. split; [done|]. rewrite <- Hu, take_drop. split; [done|].
    split; [done|]. split; [done|]. split; [|done].
    destruct i as [|i]; [by left|]. right.
    destruct (lookup_lt_is_Some_2 w i) as [y Hy]; [lia|].
    rewrite (take_S_r _ _ _ Hy). specialize (Hj i ltac:(lia)). apply tail_match in Hj.
    rewrite (drop_S _ _ _ Hy), Hu in Hj.
    destruct (decide (y = slash_unit)) as [->|Hne].
    + exists (take i w). split; [done|]. intros ->. destruct Hj. exists [], (slash_unit :: sl).
      split; [done|]. split; [done|]. by constructor.
    + destruct Hj. exists (y :: base), sl. split; [done|]. split; [|done].
      apply not_elem_of_cons. done.
Qed.

Definition split_ok (path root dir base ext : jsstr) : Prop :=
  exists sl, path = root ++ dir ++ base ++ sl /\
    root = (if isAbsolute path then slash else []) /\
    (dir = [] \/ (exists d, dir = d ++ slash /\ base <> [])) /\
    (slash_unit ∉ base) /\ Forall (fun y => y = slash_unit) sl /\
    ext `suffix_of` base /\ ext_ok ext.

Lemma splitPath_ok path :
  exists root dir base ext, splitPath path = Ret (root, dir, base, ext) /\ split_ok path root dir base ext.
Proof.
  set (k := fun c w => rmatch (length path) (RSeq (RGroup 2 (RSeq (RRepeat 0 None false 3 3
    (RClass false any_class)) REmpty)) tail_re) c w (fun c s => Some (c, s))).
  assert (forall c w, is_Some (k c w)) as Hk
    by (intros c w; destruct (dir_match (length path) c w) as (x & _ & _ & _ & _ & Hx & _);
      by exists x).
  assert (match_at (length path) splitPathRe path =
    if isAbsolute path then k [(1%nat, slash)] (drop 1 path) else k [(1%nat, [])] path) as Hm.
  { rewrite <- (root_match (length path)) by exact Hk. unfold match_at. rewrite splitPathRe_shape.
    set (r2 := RSeq (RGroup 2 _) tail_re) in *. set (r1 := RGroup 1 root_re).
    cbn [rmatch]. by rewrite Nat.eqb_refl. }
  set (root := if isAbsolute path then slash else []) in *.
  set (w := if isAbsolute path then drop 1 path else path) in *.
  assert (path = root ++ w) as Hp.
  { unfold root, w. destruct path as [|y path]; [done|]. rewrite isAbsolute_cons.
    destruct (y =? slash_unit) eqn:E; bool_props; by subst. }
  replace (if isAbsolute path then k [(1%nat, slash)] (drop 1 path) else k [(1%nat, [])] path)
    with (k [(1%nat, root)] w) in Hm by (unfold root, w; by destruct (isAbsolute path)).
  destruct (dir_match (length path) [(1%nat, root)] w)
    as ([c' s'] & dir & base & ext & sl & Hx & Hc & Hw & Hb & Hsl & Hd & He).
  fold (k [(1%nat, root)] w) in Hx. cbn [fst] in Hc. subst c'.
  exists root, dir, base, ext. split.
  - unfold splitPath, regex_exec. destruct path; cbn [exec_from]; rewrite Hm, Hx; done.
  - exists sl. split; [by rewrite <- Hw|]. done.
Qed.

Lemma unit_split_unique (c : Z) b1 b2 r1 r2 :
  (c ∉ b1) -> (c ∉ b2) -> b1 ++ c :: r1 = b2 ++ c :: r2 -> b1 = b2 /\ r1 = r2.
Proof.
  revert b2; induction b1 as [|x b1 IH]; intros [|y b2] H1 H2 E; cbn in E.
  - by injection E.
  - injection E as <- _. destruct H2. apply elem_of_cons. by left.
  - injection E as -> _. destruct H1. apply elem_of_cons. by left.
  - injection E as -> E. apply not_elem_of_cons in H1 as [_ H1], H2 as [_ H2].
    destruct (IH b2 H1 H2 E) as [-> ->]. done.
Qed.

Lemma last_slash_unique b1 b2 p1 p2 :
  (slash_unit ∉ b1) -> (slash_unit ∉ b2) ->
  (p1 ++ slash) ++ b1 = (p2 ++ slash) ++ b2 -> p1 = p2 /\ b1 = b2.
Proof.
  intros H1 H2 E. apply (f_equal reverse) in E. rewrite !reverse_app in E. unfold slash in E.
  change (reverse [47]) with [47] in E. cbn [app] in E.
  apply (unit_split_unique slash_unit) in E as [E1 E2]; [|by rewrite elem_of_reverse..].
  by apply (inj reverse) in E1, E2.
Qed.

(** With a base name at its end, a path splits at its last slash. *)
Lemma splitPath_at d b : component b ->
  exists root dir ext, splitPath (d ++ slash ++ b) = Ret (root, dir, b, ext) /\
    ((root = slash /\ dir = [] /\ d = []) \/ (exists d', dir = d' ++ slash /\ d = root ++ d' /\ d <> [])).
Proof.
  intros [Hne Hb].
  destruct (splitPath_ok (d ++ slash ++ b)) as (root & dir & base & ext & E & sl & Hp & Hr & Hd & Hs & Hsl & _).
  assert (sl = []) as ->.
  { destruct sl as [|x sl _] using rev_ind; [done|]. destruct b as [|y b _] using rev_ind; [done|].
    rewrite !app_assoc in Hp. apply app_inj_tail in Hp as [_ ->].
    apply Forall_app in Hsl as [_ Hx]. apply Forall_cons in Hx as [-> _].
    destruct Hb. apply elem_of_app. right. by apply list_elem_of_singleton. }
  rewrite app_nil_r in Hp. exists root, dir, ext.
  destruct Hd as [->|(d' & -> & Hbase)].
  - cbn [app] in Hp. destruct (isAbsolute (d ++ slash ++ b)); subst root.
    + rewrite (app_assoc d) in Hp. change (slash ++ base) with (([] ++ slash) ++ base) in Hp.
      apply last_slash_unique in Hp as [-> ->]; [|done..]. split; [exact E|]. by left.
    + destruct Hs. cbn [app] in Hp. rewrite <- Hp. apply elem_of_app. right. apply elem_of_app. left.
      by apply list_elem_of_singleton.
  - rewrite app_assoc, (app_assoc root), (app_assoc root) in Hp.
    apply last_slash_unique in Hp as [-> ->]; [|done..]. split; [exact E|]. right. exists d'.
    split; [done|]. split; [done|]. intros Hnil. apply app_eq_nil in Hnil as [-> ->]. done.
Qed.

Lemma substr_drop_last s c : substr (s ++ [c]) 0 (Some (js_len (s ++ [c]) - 1)) = s.
Proof.
  unfold substr, js_substr, slice_pos. rewrite js_len_app. change (js_len [c]) with 1.
  pose proof (js_len_nonneg s). cbn [Z.ltb Z.compare]. rewrite Z.min_l by lia. cbn [Z.to_nat drop].
  replace (Z.to_nat (js_len s + 1 - 1)) with (length s) by (unfold js_len; lia). apply take_app_length.
Qed.

(** The split pattern always matches and cuts the path where it should.  For
    every path, [splitPath] returns a root (the leading slash, if any), a
    directory part that is empty or ends in a slash, and a base without slashes,
    which together with the trailing slashes make up the path; the extension is a
    suffix of the base that is empty or one dot followed by neither dots nor
    slashes. *)
Theorem splitPath_correct (path : jsstr) :
  exists root dir base ext, splitPath path = Ret (root, dir, base, ext) /\
    split_ok path root dir base ext.
Proof. apply splitPath_ok. Qed.

(** For every directory name [d] and component [b], the path [d/b] has base
    name [b] and directory name [d] (the root when [d] is empty). *)
Theorem dirname_basename (d b : jsstr) (Hb : component b) :
  basename (d ++ slash ++ b) None = Ret b /\
  dirname (d ++ slash ++ b) = Ret (if truthy d then d else slash).
Proof.
  destruct (splitPath_at d b Hb) as (root & dir & ext & E & H).
  unfold basename, dirname. rewrite E. cbn [mbind outcome_bind]. split; [done|].
  destruct H as [(-> & -> & ->)|(d' & -> & -> & Hd)]; [done|].
  assert (truthy (d' ++ slash) = true) as -> by by destruct d'.
  rewrite andb_false_r. unfold slash at 1 2. rewrite substr_drop_last.
  by destruct (root ++ d').
Qed.

Lemma dirname_basename_witness :
  basename (js "/srv" ++ slash ++ js "tdict.txt") None = Ret (js "tdict.txt") /\
  dirname (js "/srv" ++ slash ++ js "tdict.txt") = Ret (js "/srv").
Proof.
  apply (dirname_basename (js "/srv") (js "tdict.txt")).
  split; [done|]. apply (bool_decide_unpack _). vm_compute. exact I.
Defined.
