(* ===== verification/WordcutRules.v ===== *)
(** * Word acceptors and the built-in word rules of the Thai segmenter

    An acceptor is a small automaton that reads one code unit at a time and says
    whether what it has read so far is a word ([isFinal]) or can no longer become
    one ([isError]).  The rule objects create them.  Modules 3 (latin_rules) and
    6 (thai_rules) of docs/generated_site/assets/javascripts/lunr/wordcut.js. *)
From stdpp Require Import gmap strings.
From S2P Require Import Prelude JsString.

(** The fields private to one kind of acceptor; the constructor stands for the
    [transit] closure of the object.  A dictionary acceptor holds the word array
    of its dictionary and the bounds [l], [r] of the words that still match
    ([r] is [null] when the right search found nothing). *)
Inductive acc_data : Type :=
| AccWord
| AccSpace
| AccSinsym
| AccNumber
| AccRule0
| AccPart (patterns : list jsstr)
| AccDict (dict : list jsstr) (l : Z) (r : option Z).

Record acceptor : Type := Acceptor {
  data : acc_data;
  strOffset : Z;
  isFinal : bool;
  isError : bool;
  tag : string;
  type : string;
  w : Z;
  unk : option Z;
  mw : option Z
}.

(** [this.isFinal = f; this.strOffset++; return this] *)
Definition acc_advance (a : acceptor) (d : acc_data) (f : bool) : acceptor :=
  Acceptor d (strOffset a + 1) f (isError a) (tag a) (type a) (w a) (unk a) (mw a).

(** [this.isError = true; return this] *)
Definition acc_fail (a : acceptor) (d : acc_data) : acceptor :=
  Acceptor d (strOffset a) (isFinal a) true (tag a) (type a) (w a) (unk a) (mw a).

(** The object literal a rule returns: offset 0, neither final nor in error. *)
Definition acc_new (d : acc_data) (t : string) (u : option Z) : acceptor :=
  Acceptor d 0 false false t t 1 u None.

(** ** Character tests of the rules *)

(** [lch = ch.toLowerCase(); lch >= "a" && lch <= "z"]: the ASCII letters, and
    the two other characters whose lower case starts with an ASCII letter
    (U+0130 gives [i] and a combining dot, U+212A KELVIN SIGN gives [k]). *)
Definition word_char (ch : Z) : bool :=
  in_range 97 122 ch || in_range 65 90 ch || (ch =? 304) || (ch =? 8490).

Definition number_char (ch : Z) : bool := in_range 48 57 ch.

Definition space_char (ch : Z) : bool :=
  (ch =? 32) || (ch =? 9) || (ch =? 13) || (ch =? 10) || (ch =? 160) || (ch =? 8195).

(** The symbols of the single-symbol rule: at sign, parentheses, slash, comma,
    hyphen, dot, double quote and backquote. *)
Definition sinsym_char (ch : Z) : bool :=
  bool_decide (ch ∈ [64; 40; 41; 47; 44; 45; 46; 34; 96]).

Definition thai_consonant (ch : Z) : bool := in_range 3585 3630 ch.

(** [isMatch(pat, offset, ch)] *)
Definition isMatch (pat : jsstr) (offset : Z) (ch : Z) : bool :=
  if js_len pat <=? offset then false
  else match js_get pat offset with
       | None => false
       | Some c =>
           (c =? ch)
           || (((c =? 3585) || (c =? 3586)) && thai_consonant ch)
           || (((c =? 3617) || (c =? 3610)) && thai_consonant ch)
           || ((c =? 3657) && in_range 3656 3659 ch)
       end.

(** ** The rule objects *)
Definition Rule0_pat : jsstr := Eval vm_compute in js "เหก็ม".

Definition PartRule_patterns : list jsstr :=
  Eval vm_compute in map js ["แก"; "เก"; "ก้"; "กก์"; "กา"; "กี"; "กิ"; "กืก"]%string.

Definition WordRule_createAcceptor (tags : gmap string acceptor) : option acceptor :=
  match tags !! "WORD_RULE"%string with
  | Some _ => None
  | None => Some (acc_new AccWord "WORD_RULE" None)
  end.

Definition WordRule_transit (a : acceptor) (ch : Z) : acceptor :=
  if word_char ch then acc_advance a (data a) true else acc_fail a (data a).

Definition NumberRule_createAcceptor (tags : gmap string acceptor) : option acceptor :=
  match tags !! "NUMBER_RULE"%string with
  | Some _ => None
  | None => Some (acc_new AccNumber "NUMBER_RULE" None)
  end.

Definition NumberRule_transit (a : acceptor) (ch : Z) : acceptor :=
  if number_char ch then acc_advance a (data a) true else acc_fail a (data a).

Definition SpaceRule_createAcceptor (tags : gmap string acceptor) : option acceptor :=
  match tags !! "SPACE_RULE"%string with
  | Some _ => None
  | None => Some (acc_new AccSpace "SPACE_RULE" None)
  end.

Definition SpaceRule_transit (a : acceptor) (ch : Z) : acceptor :=
  if space_char ch then acc_advance a (data a) true else acc_fail a (data a).

Definition SingleSymbolRule_createAcceptor (tags : gmap string acceptor) : option acceptor :=
  Some (acc_new AccSinsym "SINSYM" None).

Definition SingleSymbolRule_transit (a : acceptor) (ch : Z) : acceptor :=
  if (strOffset a =? 0) && sinsym_char ch
  then acc_advance a (data a) true else acc_fail a (data a).

Definition Rule0_createAcceptor (tags : gmap string acceptor) : option acceptor :=
  Some (acc_new AccRule0 "THAI_RULE" None).

Definition Rule0_transit (a : acceptor) (ch : Z) : acceptor :=
  if isMatch Rule0_pat (strOffset a) ch
  then acc_advance a (data a) (strOffset a + 1 =? js_len Rule0_pat)
  else acc_fail a (data a).

Definition PartRule_createAcceptor (tags : gmap string acceptor) : option acceptor :=
  Some (acc_new (AccPart PartRule_patterns) "PART" (Some 1)).

Definition PartRule_transit (a : acceptor) (patterns : list jsstr) (ch : Z) : acceptor :=
  let offset := strOffset a in
  let patterns' := List.filter (fun pat => isMatch pat offset ch) patterns in
  if 0 <? js_len patterns'
  then acc_advance a (AccPart patterns') (existsb (fun pat => js_len pat =? 1 + offset) patterns')
  else acc_fail a (AccPart patterns').

(** ** What the rules accept *)

Lemma acc_advance_offset a d f : strOffset (acc_advance a d f) = strOffset a + 1.
Proof. done. Qed.

(** Reading a whole string with one acceptor, stopping at the first error (an
    acceptor in error is dropped and never reads again). *)
Fixpoint acc_run (step : acceptor -> Z -> acceptor) (a : acceptor) (s : jsstr) : acceptor :=
  match s with
  | [] => a
  | c :: r => let a' := step a c in if isError a' then a' else acc_run step a' r
  end.

(** A rule whose [transit] accepts any run of characters of a class: it is in no
    error exactly on runs of the class, and final after the first one. *)
Section char_class.
Context (step : acceptor -> Z -> acceptor) (cls : Z -> bool).
Hypothesis step_spec : forall a ch,
  step a ch = if cls ch then acc_advance a (data a) true else acc_fail a (data a).

Lemma class_run_ok a s :
  isError a = false -> forallb cls s = true ->
  isError (acc_run step a s) = false /\
  strOffset (acc_run step a s) = strOffset a + js_len s /\
  (s <> [] -> isFinal (acc_run step a s) = true).
Proof.
  revert a; induction s as [|c s IH]; intros a Ha Hs; cbn.
  - split; [done|]. split; [unfold js_len; cbn; lia|done].
  - cbn in Hs. bool_props. rewrite step_spec, H. cbn. rewrite Ha.
    destruct (IH (acc_advance a (data a) true)) as (H1 & H2 & H3); [done|done|].
    split; [done|]. split; [rewrite H2, js_len_cons; cbn; lia|]. intros _.
    destruct s; [done|]. by apply H3.
Qed.

Lemma class_run_err a s :
  isError a = false -> forallb cls s = false -> isError (acc_run step a s) = true.
Proof.
  revert a; induction s as [|c s IH]; intros a Ha Hs; [done|].
  cbn in Hs. cbn. rewrite step_spec. destruct (cls c) eqn:E; cbn; [|done].
  rewrite Ha. apply IH; [done|]. done.
Qed.
End char_class.
