(* ===== verification/WordcutDict.v ===== *)
(** * The dictionary of the Thai segmenter

    Module 2 (dict) of docs/generated_site/assets/javascripts/lunr/wordcut.js: a
    sorted word array and the acceptor that walks it, keeping the interval of the
    words that start with the characters read so far.  The main result is that
    the interval search is exact: after reading a string the acceptor is in error
    iff no word starts with it, and final iff the string is a word. *)
From stdpp Require Import gmap sorting strings.
From S2P Require Import Prelude JsString PathModule WordcutRules.

Inductive side : Type := LEFT | RIGHT.

(** ** Building the word array *)

(** [a.sort()]: the default comparison is the code-unit order on strings. *)
Definition sort_words (a : list jsstr) : list jsstr := merge_sort str_le a.

(** [filter(function(item, pos, arr) { return !pos || item != arr[pos - 1] })]:
    [prev] is [arr[pos - 1]]. *)
Fixpoint uniq_after (prev : jsstr) (l : list jsstr) : list jsstr :=
  match l with
  | [] => []
  | item :: r =>
      if decide (item = prev) then uniq_after item r else item :: uniq_after item r
  end.

Definition sortuniq (a : list jsstr) : list jsstr :=
  match sort_words a with
  | [] => []
  | item :: r => item :: uniq_after item r
  end.

Definition finalizeDict (dict : list jsstr) : list jsstr := sortuniq dict.

(** [addWords(words, finalize)]; [None] is an omitted argument. *)
Definition addWords (dict words : list jsstr) (finalize : option bool) : list jsstr :=
  let dict' := dict ++ words in
  if default true finalize then finalizeDict dict' else dict'.

(** [split] on the class of carriage return and line feed, one or more. *)
Fixpoint split_newlines (cur : jsstr) (in_sep : bool) (s : jsstr) : list jsstr :=
  match s with
  | [] => [cur]
  | c :: r =>
      if (c =? 13) || (c =? 10)
      then if in_sep then split_newlines cur true r else cur :: split_newlines [] true r
      else split_newlines (cur ++ [c]) false r
  end.

(** [addFiles(files, finalize)]: the bundle inlined the word file in the loop,
    which runs once and does not look at [files]; the argument [words_text] is that
    string literal. *)
Definition addFiles (words_text : jsstr) (files : list jsstr) (dict : list jsstr) (finalize : option bool)
    : list jsstr :=
  let words := List.filter (fun w => 1 <? js_len w) (split_newlines [] false words_text) in
  let dict' := addWords dict words (Some false) in
  if default true finalize then finalizeDict dict' else dict'.

(** The argument [dictPathFile]. *)
Inductive dict_arg : Type :=
| NoPath
| OnePath (p : jsstr)
| Paths (l : list jsstr).

Definition dict_dirname : jsstr := js "/dist/tmp".
Definition defaultDict : jsstr := normalize (dict_dirname ++ js "/..") ++ js "/data/tdict-*.txt".

(** [dictPath]: the paths of an array are concatenated to it and the result is
    dropped. *)
Definition dict_paths (dictPathFile : dict_arg) (withDefault : bool) : list jsstr :=
  match dictPathFile with
  | NoPath => [defaultDict]
  | OnePath p => (if withDefault then [defaultDict] else []) ++ [if truthy p then p else defaultDict]
  | Paths _ => if withDefault then [defaultDict] else []
  end.

(** [init(dictPathFile, withDefault, words)] *)
Definition init (words_text : jsstr) (dictPathFile : dict_arg) (withDefault : bool) (words : option (list jsstr))
    : list jsstr :=
  let d := addFiles words_text (dict_paths dictPathFile withDefault) [] (Some false) in
  let d := match words with
           | None => d
           | Some ws => addWords d ws (Some false)
           end in
  finalizeDict d.

(** The dictionary of [Wordcut.init()], whose paths are not given. *)
Definition dict_init (words_text : jsstr) (words : option (list jsstr)) : list jsstr :=
  init words_text NoPath false words.

(** ** Searching *)

(** [x < ch], [x > ch] for [x] a one-unit string or [undefined]. *)
Definition unit_lt (x : option Z) (ch : Z) : bool :=
  match x with Some c => c <? ch | None => false end.
Definition unit_gt (x : option Z) (ch : Z) : bool :=
  match x with Some c => ch <? c | None => false end.

Fixpoint dictSeek_loop (dict : list jsstr) (fuel : nat) (l r ch strOffset : Z) (pos : side)
    (ans : option Z) : outcome (option Z) :=
  match fuel with
  | O => OutOfFuel
  | S fuel' =>
      if l <=? r then
        let m := (l + r) / 2 in
        dict_item ← js_at dict m;
        let len := js_len dict_item in
        if len <=? strOffset then dictSeek_loop dict fuel' (m + 1) r ch strOffset pos ans
        else
          let ch_ := js_get dict_item strOffset in
          if unit_lt ch_ ch then dictSeek_loop dict fuel' (m + 1) r ch strOffset pos ans
          else if unit_gt ch_ ch then dictSeek_loop dict fuel' l (m - 1) ch strOffset pos ans
          else match pos with
               | LEFT => dictSeek_loop dict fuel' l (m - 1) ch strOffset pos (Some m)
               | RIGHT => dictSeek_loop dict fuel' (m + 1) r ch strOffset pos (Some m)
               end
      else Ret ans
  end.

(** [dictSeek(l, r, ch, strOffset, pos)]; a [null] bound counts as 0.  Every
    round shrinks [l, r], so the length of the interval bounds the rounds. *)
Definition dictSeek (dict : list jsstr) (l : Z) (r : option Z) (ch strOffset : Z) (pos : side)
    : outcome (option Z) :=
  let r := default 0 r in
  dictSeek_loop dict (S (Z.to_nat (r - l + 1))) l r ch strOffset pos None.

Arguments dictSeek : simpl never.

(** ** Acceptors *)
Definition dict_createAcceptor (dict : list jsstr) : acceptor :=
  acc_new (AccDict dict 0 (Some (js_len dict - 1))) "DICT" None.

(** [isFinal(acceptor)] *)
Definition dict_isFinal (dict : list jsstr) (l strOffset : Z) : outcome bool :=
  item ← js_at dict l; Ret (js_len item =? strOffset).

Definition dict_transit (a : acceptor) (dict : list jsstr) (l : Z) (r : option Z) (ch : Z)
    : outcome acceptor :=
  l' ← dictSeek dict l r ch (strOffset a) LEFT;
  match l' with
  | Some l' =>
      r' ← dictSeek dict l' r ch (strOffset a) RIGHT;
      f ← dict_isFinal dict l' (strOffset a + 1);
      Ret (acc_advance a (AccDict dict l' r') f)
  | None => Ret (acc_fail a (AccDict dict l r))
  end.

(** [flatten(a)] *)
Definition dict_flatten {A} (a : list (list A)) : list A := concat a.

(** ** The word array is strictly sorted *)
Lemma uniq_after_sorted prev l :
  StronglySorted str_le (prev :: l) -> StronglySorted str_lt (prev :: uniq_after prev l).
Proof.
  revert prev; induction l as [|y l IH]; intros prev Hs; cbn.
  - by repeat constructor.
  - apply StronglySorted_inv in Hs as [Hs Hp]. apply Forall_cons in Hp as [Hpy _].
    specialize (IH y Hs). case_decide as E; [by subst|].
    apply StronglySorted_inv in IH as [Hl Hy].
    assert (str_lt prev y) as Hlt.
    { destruct (str_le_lt_or_eq _ _ Hpy) as [->|]; done. }
    constructor; [by constructor|]. constructor; [done|].
    eapply Forall_impl; [exact Hy|]. intros x; cbn. intros; by transitivity y.
Qed.

Lemma elem_of_uniq_after prev l x : x ∈ prev :: uniq_after prev l <-> x ∈ prev :: l.
Proof.
  revert prev; induction l as [|y l IH]; intros prev; cbn; [done|].
  case_decide as E.
  - subst. rewrite IH. set_solver.
  - rewrite elem_of_cons, IH. set_solver.
Qed.

Lemma sortuniq_sorted a : StronglySorted str_lt (sortuniq a).
Proof.
  unfold sortuniq, sort_words.
  pose proof (StronglySorted_merge_sort str_le a) as H.
  destruct (merge_sort str_le a) as [|x l]; [constructor|]. by apply uniq_after_sorted.
Qed.

Lemma elem_of_sortuniq a x : x ∈ sortuniq a <-> x ∈ a.
Proof.
  unfold sortuniq, sort_words.
  pose proof (merge_sort_Permutation str_le a) as Hp. rewrite <- (elem_of_Permutation_proper x _ _ Hp).
  destruct (merge_sort str_le a) as [|y l]; [done|]. apply elem_of_uniq_after.
Qed.

(** ** Binary search over a monotone classification of the indices

    Each round of [dictSeek] only looks at how the middle word compares with the
    wanted character: [Lt] (too short or smaller), [Eq] or [Gt]. *)
Section seek.
Context (c : Z -> comparison) (l0 r0 : Z).
Hypothesis mono_gt : forall i j, l0 <= i <= j -> j <= r0 -> c i = Gt -> c j = Gt.
Hypothesis mono_lt : forall i j, l0 <= i <= j -> j <= r0 -> c j = Lt -> c i = Lt.

Fixpoint seek_abs (fuel : nat) (l r : Z) (pos : side) (ans : option Z) : outcome (option Z) :=
  match fuel with
  | O => OutOfFuel
  | S f =>
      if l <=? r then
        let m := (l + r) / 2 in
        match c m, pos with
        | Lt, _ => seek_abs f (m + 1) r pos ans
        | Gt, _ => seek_abs f l (m - 1) pos ans
        | Eq, LEFT => seek_abs f l (m - 1) pos (Some m)
        | Eq, RIGHT => seek_abs f (m + 1) r pos (Some m)
        end
      else Ret ans
  end.

Definition found_left (a : Z) : Prop :=
  l0 <= a <= r0 /\ c a = Eq /\ forall i, l0 <= i < a -> c i = Lt.
Definition found_right (a : Z) : Prop :=
  l0 <= a <= r0 /\ c a = Eq /\ forall i, a < i <= r0 -> c i = Gt.
Definition found_none : Prop := forall i, l0 <= i <= r0 -> c i <> Eq.

Lemma mid_bounds l r : l <= r -> l <= (l + r) / 2 <= r.
Proof. intros. split; [apply Z.div_le_lower_bound|apply Z.div_le_upper_bound]; lia. Qed.

Lemma seek_abs_left fuel l r ans :
  r - l + 1 < Z.of_nat fuel -> l0 <= l -> r <= r0 -> l <= r + 1 ->
  (forall i, l0 <= i < l -> c i = Lt) ->
  match ans with
  | Some a => a = r + 1 /\ a <= r0 /\ c a = Eq
  | None => forall i, r < i <= r0 -> c i = Gt
  end ->
  match seek_abs fuel l r LEFT ans with
  | Ret (Some a) => found_left a
  | Ret None => found_none
  | _ => False
  end.
Proof.
  revert l r ans; induction fuel as [|f IH]; intros l r ans Hf Hl Hr Hlr HL Hans;
    cbn [seek_abs]; [lia|].
  destruct (l <=? r) eqn:E; bool_props.
  - pose proof (mid_bounds l r E). set (m := (l + r) / 2) in *.
    destruct (c m) eqn:Ec; apply IH; try lia; try done.
    + repeat split; try lia. done.
    + intros i Hi. apply (mono_lt i m); (lia || done).
    + destruct ans as [a|].
      * destruct Hans as (-> & Ha & Hc). by rewrite (mono_gt m (r + 1)) in Hc by (lia || done).
      * intros i Hi. apply (mono_gt m i); (lia || done).
  - assert (r = l - 1) as -> by lia. destruct ans as [a|].
    + destruct Hans as (-> & Ha & Hc). split; [lia|]. split; [done|].
      intros i Hi. apply HL. lia.
    + intros i Hi. destruct (decide (i < l)); [rewrite HL by lia|rewrite Hans by lia]; done.
Qed.

Lemma seek_abs_right fuel l r ans :
  r - l + 1 < Z.of_nat fuel -> l0 <= l -> r <= r0 -> l <= r + 1 ->
  (forall i, r < i <= r0 -> c i = Gt) ->
  match ans with
  | Some a => a = l - 1 /\ l0 <= a /\ c a = Eq
  | None => forall i, l0 <= i < l -> c i = Lt
  end ->
  match seek_abs fuel l r RIGHT ans with
  | Ret (Some a) => found_right a
  | Ret None => found_none
  | _ => False
  end.
Proof.
  revert l r ans; induction fuel as [|f IH]; intros l r ans Hf Hl Hr Hlr HR Hans;
    cbn [seek_abs]; [lia|].
  destruct (l <=? r) eqn:E; bool_props.
  - pose proof (mid_bounds l r E). set (m := (l + r) / 2) in *.
    destruct (c m) eqn:Ec; apply IH; try lia; try done.
    + repeat split; try lia. done.
    + destruct ans as [a|].
      * destruct Hans as (-> & Ha & Hc). by rewrite (mono_lt (l - 1) m) in Hc by (lia || done).
      * intros i Hi. apply (mono_lt i m); (lia || done).
    + intros i Hi. apply (mono_gt m i); (lia || done).
  - assert (r = l - 1) as -> by lia. destruct ans as [a|].
    + destruct Hans as (-> & Ha & Hc). split; [lia|]. split; [done|].
      intros i Hi. apply HR. lia.
    + intros i Hi. destruct (decide (i < l)); [rewrite Hans by lia|rewrite HR by lia]; done.
Qed.
End seek.

(** ** The classification behind [dictSeek] *)
Definition unit_cls (dict : list jsstr) (off ch : Z) (i : Z) : comparison :=
  match js_get dict i with
  | None => Lt
  | Some item => match js_get item off with
                 | None => Lt
                 | Some x => x ?= ch
                 end
  end.

Lemma dictSeek_loop_abs dict fuel l r ch off pos ans :
  0 <= l -> r < js_len dict -> 0 <= off ->
  dictSeek_loop dict fuel l r ch off pos ans = seek_abs (unit_cls dict off ch) fuel l r pos ans.
Proof.
  intros Hl Hr Ho. revert l r ans Hl Hr; induction fuel as [|f IH]; intros l r ans Hl Hr;
    cbn [dictSeek_loop seek_abs]; [done|].
  destruct (l <=? r) eqn:E; bool_props; [|done].
  pose proof (mid_bounds l r E). set (m := (l + r) / 2) in *.
  destruct (js_at_range dict m) as (item & Hi & ->); [lia|]. cbn.
  unfold unit_cls. rewrite Hi. destruct (js_len item <=? off) eqn:El; bool_props.
  - destruct (js_get item off) eqn:Eg; [apply js_get_Some_range in Eg; lia|]. apply IH; lia.
  - destruct (js_get_range item off) as [x Hx]; [lia|]. rewrite Hx. cbn.
    destruct (Z.compare_spec x ch); destruct (x <? ch) eqn:?; bool_props; try lia;
      destruct (ch <? x) eqn:?; bool_props; try lia; try (apply IH; lia).
    destruct pos; apply IH; lia.
Qed.

(** In a strictly sorted array, later words are greater. *)
Lemma sorted_get_lt dict i j a b :
  StronglySorted str_lt dict -> i < j ->
  js_get dict i = Some a -> js_get dict j = Some b -> str_lt a b.
Proof.
  intros Hs Hij Ha Hb.
  pose proof (js_get_Some_range _ _ _ Ha). pose proof (js_get_Some_range _ _ _ Hb).
  unfold js_get in *. repeat case_match; bool_props; try lia.
  eapply (StronglySorted_lookup str_lt dict (Z.to_nat i) (Z.to_nat j)); eauto. lia.
Qed.

(** ** What an acceptor has read

    [dict_reads dict s l r]: the words of [dict] that start with [s] are exactly
    those at the positions [l..r]. *)
Definition dict_reads (dict : list jsstr) (s : jsstr) (l r : Z) : Prop :=
  0 <= l <= r + 1 /\ r < js_len dict /\
  forall i word, js_get dict i = Some word -> s `prefix_of` word <-> l <= i <= r.

Section sorted_dict.
Context (dict : list jsstr).
Hypothesis sorted : StronglySorted str_lt dict.

Lemma dict_reads_init : dict_reads dict [] 0 (js_len dict - 1).
Proof.
  pose proof (js_len_nonneg dict). split; [lia|]. split; [lia|]. intros i word Hi.
  apply js_get_Some_range in Hi. split; [lia|]. intros. apply prefix_nil.
Qed.

Lemma unit_cls_app s a ch i :
  js_get dict i = Some (s ++ a) ->
  unit_cls dict (js_len s) ch i = match a with [] => Lt | x :: _ => x ?= ch end.
Proof.
  intros Hi. unfold unit_cls. rewrite Hi, js_get_app_r, Z.sub_diag by lia. by destruct a.
Qed.

Lemma dict_reads_word s l r i :
  dict_reads dict s l r -> l <= i <= r -> exists a, js_get dict i = Some (s ++ a).
Proof.
  intros (Hl & Hr & Hw) Hi. destruct (js_get_range dict i) as [word Hword]; [lia|].
  destruct (proj2 (Hw i word Hword) Hi) as [a ->]. eauto.
Qed.

Lemma unit_cls_eq s l r ch i word :
  dict_reads dict s l r -> l <= i <= r -> js_get dict i = Some word ->
  unit_cls dict (js_len s) ch i = Eq <-> s ++ [ch] `prefix_of` word.
Proof.
  intros Hd Hi Hword. destruct (dict_reads_word s l r i Hd Hi) as [a Ha].
  rewrite (unit_cls_app s a) by done. assert (word = s ++ a) as -> by congruence.
  split.
  - destruct a as [|x a]; [done|]. intros ->%Z.compare_eq.
    exists a. by rewrite <- app_assoc.
  - intros [k Hk]. rewrite <- app_assoc in Hk. apply app_inv_head in Hk as ->.
    apply Z.compare_refl.
Qed.

Lemma unit_cls_mono s l r ch i j :
  dict_reads dict s l r -> l <= i <= j -> j <= r ->
  (unit_cls dict (js_len s) ch i = Gt -> unit_cls dict (js_len s) ch j = Gt) /\
  (unit_cls dict (js_len s) ch j = Lt -> unit_cls dict (js_len s) ch i = Lt).
Proof.
  intros Hd Hi Hj. destruct (decide (i = j)) as [->|Hne]; [done|].
  destruct (dict_reads_word s l r i Hd) as [a Ha]; [lia|].
  destruct (dict_reads_word s l r j Hd) as [b Hb]; [lia|].
  rewrite (unit_cls_app s a ch i), (unit_cls_app s b ch j) by done.
  assert (str_ltb a b = true) as Hlt.
  { rewrite <- (str_ltb_app s). apply (sorted_get_lt dict i j); [done|lia|done|done]. }
  destruct a as [|x a], b as [|y b]; cbn in Hlt; try done.
  rewrite !Z.compare_gt_iff, !Z.compare_lt_iff.
  destruct (x <? y) eqn:?; [|destruct (y <? x) eqn:?; [done|]]; bool_props; lia.
Qed.

(** [dictSeek] LEFT and RIGHT find the ends of the sub-interval. *)
Lemma dictSeek_left s l r ch :
  dict_reads dict s l r ->
  match dictSeek dict l (Some r) ch (js_len s) LEFT with
  | Ret (Some a) => found_left (unit_cls dict (js_len s) ch) l r a
  | Ret None => found_none (unit_cls dict (js_len s) ch) l r
  | _ => False
  end.
Proof.
  intros Hd. pose proof Hd as (Hl & Hr & _). unfold dictSeek, default.
  rewrite dictSeek_loop_abs by (pose proof (js_len_nonneg s); cbn; lia).
  apply seek_abs_left; try (cbn; lia).
  - intros i j ? ?. by apply (unit_cls_mono s l r).
  - intros i j ? ?. by apply (unit_cls_mono s l r).
Qed.

Lemma dictSeek_right s l r a ch :
  dict_reads dict s l r -> l <= a <= r ->
  match dictSeek dict a (Some r) ch (js_len s) RIGHT with
  | Ret (Some b) => found_right (unit_cls dict (js_len s) ch) a r b
  | Ret None => found_none (unit_cls dict (js_len s) ch) a r
  | _ => False
  end.
Proof.
  intros Hd Ha. pose proof Hd as (Hl & Hr & _). unfold dictSeek, default.
  rewrite dictSeek_loop_abs by (pose proof (js_len_nonneg s); cbn; lia).
  apply seek_abs_right; try (cbn; lia).
  - intros i j ? ?. apply (unit_cls_mono s l r); [done|lia|lia].
  - intros i j ? ?. apply (unit_cls_mono s l r); [done|lia|lia].
Qed.

(** Positions of the narrowed interval: those whose word continues with [ch]. *)
Lemma dict_reads_step s l r ch l' r' :
  dict_reads dict s l r ->
  found_left (unit_cls dict (js_len s) ch) l r l' ->
  found_right (unit_cls dict (js_len s) ch) l' r r' ->
  dict_reads dict (s ++ [ch]) l' r'.
Proof.
  intros Hd (Hl' & Hcl & HL) (Hr' & Hcr & HR). pose proof Hd as (Hl & Hr & Hw).
  split; [lia|]. split; [lia|]. intros i word Hi.
  destruct (decide (l <= i <= r)) as [Hin|Hout].
  - rewrite <- (unit_cls_eq s l r ch i word) by done. split.
    + intros E. destruct (decide (i < l')); [rewrite HL in E by lia; done|].
      destruct (decide (r' < i)); [rewrite HR in E by lia; done|]. lia.
    + intros [Hi1 Hi2]. destruct (unit_cls dict (js_len s) ch i) eqn:E; [done| |].
      * rewrite (proj2 (unit_cls_mono s l r ch l' i Hd ltac:(lia) ltac:(lia)) E) in Hcl. done.
      * rewrite (proj1 (unit_cls_mono s l r ch i r' Hd ltac:(lia) ltac:(lia)) E) in Hcr. done.
  - split; [|lia]. intros Hp. exfalso. apply Hout, (Hw i word Hi).
    etransitivity; [|exact Hp]. by eexists.
Qed.

(** The first word of the interval is the string read so far iff that string is
    a word: the comparison of lengths in [isFinal] is exact. *)
Lemma dict_isFinal_spec s l r :
  dict_reads dict s l r -> l <= r ->
  exists f, dict_isFinal dict l (js_len s) = Ret f /\ (f = true <-> s ∈ dict).
Proof.
  intros Hd Hlr. pose proof Hd as (Hl & Hr & Hw).
  destruct (dict_reads_word s l r l Hd) as [a Ha]; [lia|].
  unfold dict_isFinal. rewrite (js_at_Some _ _ _ Ha). cbn. eexists; split; [done|].
  rewrite Z.eqb_eq, js_len_app. split.
  - intros E. assert (a = []) as ->.
    { destruct a; [done|]. unfold js_len in *. cbn in *. lia. }
    rewrite app_nil_r in Ha. by eapply js_get_elem.
  - intros [i Hi]%elem_js_get. assert (l <= i <= r) as Hin by by apply (Hw i s).
    destruct (decide (i = l)) as [->|].
    + assert (s = s ++ a) as E by congruence. apply (f_equal js_len) in E.
      rewrite js_len_app in E. lia.
    + assert (str_lt (s ++ a) s) as Hlt by (apply (sorted_get_lt dict l i); [done|lia|done|done]).
      unfold str_lt in Hlt. rewrite <- (app_nil_r s) in Hlt at 2.
      rewrite str_ltb_app in Hlt. by destruct a.
Qed.

Lemma dict_transit_spec a s l r ch :
  dict_reads dict s l r -> strOffset a = js_len s ->
  (dict_transit a dict l (Some r) ch = Ret (acc_fail a (AccDict dict l (Some r))) /\
   forall word, word ∈ dict -> ~ s ++ [ch] `prefix_of` word) \/
  (exists l' r' f,
     dict_transit a dict l (Some r) ch = Ret (acc_advance a (AccDict dict l' (Some r')) f) /\
     l' <= r' /\ dict_reads dict (s ++ [ch]) l' r' /\ (f = true <-> s ++ [ch] ∈ dict)).
Proof.
  intros Hd Ho. unfold dict_transit. rewrite Ho.
  pose proof (dictSeek_left s l r ch Hd) as HL.
  destruct (dictSeek dict l (Some r) ch (js_len s) LEFT) as [[l'|]| |]; try done; cbn.
  - right. pose proof HL as (Hl' & Hc & _).
    pose proof (dictSeek_right s l r l' ch Hd Hl') as HR.
    destruct (dictSeek dict l' (Some r) ch (js_len s) RIGHT) as [[r'|]| |]; try done; cbn.
    + pose proof (dict_reads_step s l r ch l' r' Hd HL HR) as Hd'.
      pose proof HR as ([? ?] & _).
      destruct (dict_isFinal_spec (s ++ [ch]) l' r' Hd') as (f & Hf & Hfin); [lia|].
      rewrite js_len_app in Hf. change (js_len [ch]) with 1 in Hf. rewrite Hf. cbn.
      exists l', r', f. split; [done|]. split; [lia|]. done.
    + exfalso. apply (HR l'); [lia|done].
  - left. split; [done|]. intros word [i Hi]%elem_js_get Hp.
    assert (l <= i <= r) as Hin.
    { apply (proj2 (proj2 Hd) i word Hi). etransitivity; [|exact Hp]. by eexists. }
    apply (HL i Hin). by apply (unit_cls_eq s l r ch i word).
Qed.
End sorted_dict.

(** Reading a whole string with a fresh dictionary acceptor, stopping at the
    first error as the segmenter does. *)
Fixpoint dict_run (a : acceptor) (s : jsstr) : outcome acceptor :=
  match s with
  | [] => Ret a
  | ch :: s' =>
      match data a with
      | AccDict dict l r =>
          a' ← dict_transit a dict l r ch;
          if isError a' then Ret a' else dict_run a' s'
      | _ => Ret a
      end
  end.

Lemma dict_run_spec dict s0 s a l r :
  StronglySorted str_lt dict ->
  data a = AccDict dict l (Some r) -> strOffset a = js_len s0 -> isError a = false ->
  dict_reads dict s0 l r ->
  (s = [] -> s0 <> [] -> isFinal a = true <-> s0 ∈ dict) ->
  (s0 = [] \/ l <= r) ->
  exists a', dict_run a s = Ret a' /\
    (isError a' = true <-> s <> [] /\ forall word, word ∈ dict -> ~ s0 ++ s `prefix_of` word) /\
    (s0 ++ s <> [] -> isError a' = false -> isFinal a' = true <-> s0 ++ s ∈ dict).
Proof.
  intros Hs. revert s0 a l r; induction s as [|ch s IH];
    intros s0 a l r Hdata Hoff Herr Hd Hfin Hne; cbn [dict_run].
  - exists a. split; [done|]. rewrite Herr, app_nil_r. split; [naive_solver|]. eauto.
  - rewrite Hdata.
    destruct (dict_transit_spec dict Hs a s0 l r ch Hd Hoff)
      as [[-> Hno]|(l' & r' & f & -> & Hlr & Hd' & Hf)]; cbn.
    + eexists; split; [done|]. split; [|done]. split; [|done]. intros _. split; [done|].
      intros word Hw Hp. apply (Hno word Hw). etransitivity; [|exact Hp].
      exists s. by rewrite <- app_assoc.
    + rewrite Herr.
      edestruct (IH (s0 ++ [ch])) as (a' & -> & H1 & H2); [done| |done|exact Hd'|done|by right|].
      { cbn. rewrite Hoff, js_len_app. done. }
      rewrite <- app_assoc in H1, H2. cbn in H1, H2. eexists; split; [done|]. split; [|done].
      rewrite H1. destruct s as [|ch' s]; [|naive_solver]. split; [naive_solver|].
      intros [_ Hno]. exfalso.
      destruct (dict_reads_word dict (s0 ++ [ch]) l' r' l' Hd') as [b Hb]; [lia|].
      apply (Hno _ (js_get_elem _ _ _ Hb)). by eexists.
Qed.

(** The words a dictionary is loaded with, before sorting. *)
Definition loaded_words (words_text : jsstr) (words : option (list jsstr)) : list jsstr :=
  List.filter (fun w => 1 <? js_len w) (split_newlines [] false words_text) ++ default [] words.

Lemma dict_init_sorted txt ws : StronglySorted str_lt (dict_init txt ws).
Proof. apply sortuniq_sorted. Qed.

Lemma elem_of_dict_init txt ws x : x ∈ dict_init txt ws <-> x ∈ loaded_words txt ws.
Proof.
  unfold dict_init, init, finalizeDict. rewrite elem_of_sortuniq.
  unfold loaded_words, addFiles, addWords. cbn. destruct ws; cbn; [done|]. by rewrite app_nil_r.
Qed.

(** The paths do not change the dictionary. *)
Lemma init_ignores_paths txt a b ws : init txt a b ws = dict_init txt ws.
Proof. done. Qed.

(** An array of paths never gets into the list of paths. *)
Lemma dict_paths_drop_array l : dict_paths (Paths l) false = [] /\ dict_paths (Paths l) true = [js "/dist/data/tdict-*.txt"].
Proof. done. Qed.

(** ** Results *)

(** [finalizeDict] turns any word array into a strictly increasing one (so
    without duplicates) that holds exactly the same words. *)
Theorem finalizeDict_sorted_same_words (words : list jsstr) :
  StronglySorted str_lt (finalizeDict words) /\ NoDup (finalizeDict words) /\
  forall x, x ∈ finalizeDict words <-> x ∈ words.
Proof.
  split; [apply sortuniq_sorted|]. split; [|apply elem_of_sortuniq].
  pose proof (sortuniq_sorted words) as Hs. unfold finalizeDict.
  induction Hs as [|x l Hs IH Hx]; constructor; [|done].
  intros Hin. rewrite Forall_forall in Hx. by apply (str_lt_not_eq x x); [apply Hx|].
Qed.

(** C3: the dictionary acceptor is exact.  For a dictionary built by [init] from
    any word file and any extra words, reading a non-empty string never throws;
    it ends in error iff no loaded word starts with the string, and otherwise it
    is final iff the string is itself a loaded word. *)
Theorem dict_acceptor_exact (words_text : jsstr) (words : option (list jsstr)) (c : Z) (s : jsstr) :
  exists a, dict_run (dict_createAcceptor (dict_init words_text words)) (c :: s) = Ret a /\
    (isError a = true <->
       forall word, word ∈ loaded_words words_text words -> ~ c :: s `prefix_of` word) /\
    (isError a = false -> isFinal a = true <-> c :: s ∈ loaded_words words_text words).
Proof.
  set (d := dict_init words_text words).
  destruct (dict_run_spec d [] (c :: s) (dict_createAcceptor d) 0 (js_len d - 1))
    as (a & Ha & H1 & H2);
    [apply dict_init_sorted|done|done|done|apply dict_reads_init|done|by left|].
  exists a. split; [exact Ha|]. setoid_rewrite <- elem_of_dict_init.
  split; [|by apply H2]. rewrite H1. cbn. naive_solver.
Qed.

(** One [dictSeek] pair narrows the interval exactly.  If positions [l..r] of
    a sorted dictionary hold the words that start with [s], then either no word
    starts with [s] followed by [ch] and [transit] reports an error without moving,
    or [transit] moves to the interval of exactly the words that do. *)
Theorem dict_transit_narrows (dict : list jsstr) (a : acceptor) (s : jsstr) (l r ch : Z)
  (Hsorted : StronglySorted str_lt dict)
  (Hreads : dict_reads dict s l r) (Hoff : strOffset a = js_len s) :
  (dict_transit a dict l (Some r) ch = Ret (acc_fail a (AccDict dict l (Some r))) /\
   forall word, word ∈ dict -> ~ s ++ [ch] `prefix_of` word) \/
  (exists l' r' f,
     dict_transit a dict l (Some r) ch = Ret (acc_advance a (AccDict dict l' (Some r')) f) /\
     l' <= r' /\ dict_reads dict (s ++ [ch]) l' r' /\ (f = true <-> s ++ [ch] ∈ dict)).
Proof. by apply dict_transit_spec. Qed.

Lemma dict_transit_narrows_witness :
  let dict := [js "ab"; js "ac"; js "b"] in
  let a := dict_createAcceptor dict in
  (dict_transit a dict 0 (Some 2) (chr "a") = Ret (acc_fail a (AccDict dict 0 (Some 2))) /\
   forall word, word ∈ dict -> ~ [] ++ [chr "a"] `prefix_of` word) \/
  (exists l' r' f,
     dict_transit a dict 0 (Some 2) (chr "a") = Ret (acc_advance a (AccDict dict l' (Some r')) f) /\
     l' <= r' /\ dict_reads dict ([] ++ [chr "a"]) l' r' /\ (f = true <-> [] ++ [chr "a"] ∈ dict)).
Proof.
  apply (dict_transit_narrows [js "ab"; js "ac"; js "b"] _ [] 0 2 (chr "a")).
  - repeat constructor.
  - exact (dict_reads_init [js "ab"; js "ac"; js "b"]).
  - reflexivity.
Defined.

Example dict_accepts_word :
  (a ← dict_run (dict_createAcceptor (dict_init (js "") (Some [js "กา"; js "กาแฟ"; js "แมว"]))) (js "กา");
   Ret (isError a, isFinal a)) = Ret (false, true).
Proof. vm_compute. reflexivity. Qed.
