(* ===== verification/WordcutCore.v ===== *)
(** * The Thai segmenter: acceptors, path building and cutting

    Modules 1 (acceptors), 4 (path_info_builder), 5 (path_selector), 7 (wordcut)
    and 8 (wordcut_core) of docs/generated_site/assets/javascripts/lunr/wordcut.js.
    [buildPath] runs all acceptors over the text and keeps, for every prefix, the
    best way to end a word there; [pathToRanges] reads the chosen boundaries back.
    The results: no call throws, and the tokens are non-empty and concatenate to
    the input text. *)
From stdpp Require Import gmap.
From S2P Require Import Prelude JsString WordcutRules WordcutDict.

(** ** Module 1: the set of running acceptors *)
Inductive creator : Type :=
| WordRule | SpaceRule | SingleSymbolRule | NumberRule
| Rule0 | PartRule
| DictCreator (dict : list jsstr).

(** [creator.createAcceptor(tag)] *)
Definition createAcceptor (c : creator) (tags : gmap string acceptor) : option acceptor :=
  match c with
  | WordRule => WordRule_createAcceptor tags
  | SpaceRule => SpaceRule_createAcceptor tags
  | SingleSymbolRule => SingleSymbolRule_createAcceptor tags
  | NumberRule => NumberRule_createAcceptor tags
  | Rule0 => Rule0_createAcceptor tags
  | PartRule => PartRule_createAcceptor tags
  | DictCreator dict => Some (dict_createAcceptor dict)
  end.

(** [acceptor.transit(ch)]: the method closed over by the object. *)
Definition acc_transit (a : acceptor) (ch : Z) : outcome acceptor :=
  match data a with
  | AccWord => Ret (WordRule_transit a ch)
  | AccSpace => Ret (SpaceRule_transit a ch)
  | AccSinsym => Ret (SingleSymbolRule_transit a ch)
  | AccNumber => Ret (NumberRule_transit a ch)
  | AccRule0 => Ret (Rule0_transit a ch)
  | AccPart patterns => Ret (PartRule_transit a patterns ch)
  | AccDict dict l r => dict_transit a dict l r ch
  end.

Record Acceptors : Type := MkAcceptors {
  creators : list creator;
  current : list acceptor;
  tags : gmap string acceptor
}.

(** [module.exports()]: a clone with [init()] run on it. *)
Definition Acceptors_init : Acceptors := MkAcceptors [] [] ∅.

Definition Acceptors_reset (self : Acceptors) : Acceptors :=
  MkAcceptors (creators self) [] ∅.

(** The body of the loop over [self.current]: the survivors and their tags. *)
Definition transit_one (ch : Z) (st : list acceptor * gmap string acceptor) (a : acceptor)
    : outcome (list acceptor * gmap string acceptor) :=
  a' ← acc_transit a ch;
  if isError a' then Ret st
  else Ret (st.1 ++ [a'], <[tag a' := a']> st.2).

Definition Acceptors_transit (self : Acceptors) (ch : Z) : outcome Acceptors :=
  let cur := current self ++ omap (fun c => createAcceptor c (tags self)) (creators self) in
  st ← foldM (transit_one ch) ([], ∅) cur;
  Ret (MkAcceptors (creators self) st.1 st.2).

Definition getFinalAcceptors (self : Acceptors) : list acceptor :=
  List.filter isFinal (current self).

(** ** Module 4: candidate path entries *)
Record path_info : Type := PathInfo {
  pi_p : option Z;          (* start of the word ending here; null at the root *)
  pi_mw : Z;
  pi_w : Z;                 (* number of words *)
  pi_unk : Z;               (* number of unknown words *)
  pi_type : string;
  pi_merge : option Z       (* undefined unless a PART acceptor set it *)
}.

(** [path[j].merge = p] *)
Definition set_merge (p : Z) (path : list path_info) (j : Z) : outcome (list path_info) :=
  info ← js_at path j;
  Ret (<[Z.to_nat j := PathInfo (pi_p info) (pi_mw info) (pi_w info) (pi_unk info)
                                (pi_type info) (Some p)]> path).

(** One call of the [map] callback; the path is shared and may be marked. *)
Definition info_of_acceptor (i : Z) (st : list path_info * list path_info) (a : acceptor)
    : outcome (list path_info * list path_info) :=
  let p := i - strOffset a + 1 in
  info ← js_at st.1 p;
  let part := bool_decide (type a = "PART"%string) in
  path' ← (if part then foldM (set_merge p) st.1 (seqZ (p + 1) (i - p)) else Ret st.1);
  let new := PathInfo (Some p) (pi_mw info + default 0 (mw a)) (w a + pi_w info)
                      (default 0 (unk a) + pi_unk info) (type a)
                      (if part then Some p else None) in
  Ret (path', st.2 ++ [new]).

(** [buildByAcceptors(path, finalAcceptors, i)]: the marked path and the infos
    (the final [filter] drops nothing, an object is always true). *)
Definition buildByAcceptors (path : list path_info) (finals : list acceptor) (i : Z)
    : outcome (list path_info * list path_info) :=
  foldM (info_of_acceptor i) (path, []) finals.

(** The class U+0E48..U+0E4E of tone marks. *)
Definition tone_mark (c : Z) : bool := in_range 3656 3662 c.

Definition fallback (path : list path_info) (leftBoundary : Z) (text : jsstr) (i : Z)
    : outcome path_info :=
  ch ← js_at text i;
  info ← js_at path leftBoundary;
  if tone_mark ch then
    let p := if leftBoundary =? 0 then Some leftBoundary else pi_p info in
    Ret (PathInfo p 0 (1 + pi_w info) (1 + pi_unk info) "UNK" None)
  else
    Ret (PathInfo (Some leftBoundary) (pi_mw info) (1 + pi_w info) (1 + pi_unk info) "UNK" None).

Definition build (path : list path_info) (finals : list acceptor) (i leftBoundary : Z) (text : jsstr)
    : outcome (list path_info * list path_info) :=
  r ← buildByAcceptors path finals i;
  if 0 <? js_len r.2 then Ret r
  else info ← fallback r.1 leftBoundary text i; Ret (r.1, [info]).

(** ** Module 5: choosing a candidate *)
Definition better (path selected : path_info) : bool :=
  if pi_unk path <? pi_unk selected then true
  else if pi_unk path =? pi_unk selected then
    if pi_mw path <? pi_mw selected then true
    else if pi_mw path =? pi_mw selected then pi_w path <? pi_w selected
    else false
  else false.

Definition selectPath (paths : list path_info) : option path_info :=
  foldl (fun selected path =>
           match selected with
           | None => Some path
           | Some s => if better path s then Some path else Some s
           end) None paths.

Definition createPath : list path_info := [PathInfo None 0 0 0 "INIT" None].

(** ** Module 8: the core *)
Record build_state : Type := BuildState {
  bs_acceptors : Acceptors;
  bs_path : list path_info;
  bs_left : Z
}.

(** The body of the loop of [buildPath] at position [i]. *)
Definition buildPath_step (text : jsstr) (st : build_state) (i : Z) : outcome build_state :=
  ch ← js_at text i;
  acc ← Acceptors_transit (bs_acceptors st) ch;
  r ← build (bs_path st) (getFinalAcceptors acc) i (bs_left st) text;
  match selectPath r.2 with
  | None => Throw (TypeError "Cannot read property type of null")
  | Some selected =>
      Ret (BuildState acc (r.1 ++ [selected])
             (if bool_decide (pi_type selected = "UNK"%string) then bs_left st else i))
  end.

Definition buildPath (self : Acceptors) (text : jsstr) : outcome (list path_info) :=
  st ← foldM (buildPath_step text) (BuildState (Acceptors_reset self) createPath 0)
         (seqZ 0 (js_len text));
  Ret (bs_path st).

Record range : Type := Range { rng_s : option Z; rng_e : Z }.

(** The loop of [pathToRanges].  [ranges] holds the array built so far with its
    last element first, so that the final [reverse()] has nothing left to do. *)
Fixpoint pathToRanges_loop (fuel : nat) (path : list path_info) (e : Z) (ranges : list range)
    : outcome (list range) :=
  match fuel with
  | O => OutOfFuel
  | S fuel' =>
      if 0 <? e then
        info ← js_at path e;
        let '(s, ranges') :=
          match pi_merge info, ranges with
          | Some m, r :: rest => (Some m, Range (Some m) (rng_e r) :: rest)
          | _, _ => (pi_p info, Range (pi_p info) e :: ranges)
          end in
        pathToRanges_loop fuel' path (default 0 s) ranges'
      else Ret ranges
  end.

Definition pathToRanges (path : list path_info) : outcome (list range) :=
  pathToRanges_loop (S (length path)) path (js_len path - 1) [].

Arguments buildPath : simpl never.
Arguments pathToRanges : simpl never.

(** [text.substring(r.s, r.e)]; a [null] start counts as 0. *)
Definition range_text (text : jsstr) (r : range) : jsstr :=
  js_substring text (default 0 (rng_s r)) (rng_e r).

Definition rangesToText (text : jsstr) (ranges : list range) (delimiter : jsstr) : jsstr :=
  js_join delimiter (map (range_text text) ranges).

Definition cut (self : Acceptors) (text : jsstr) (delimiter : option jsstr) : outcome jsstr :=
  path ← buildPath self text;
  ranges ← pathToRanges path;
  Ret (rangesToText text ranges (default (js "|") delimiter)).

(** A range with its optional [text] field. *)
Definition cutIntoRanges (self : Acceptors) (text : jsstr) (noText : bool)
    : outcome (list (range * option jsstr)) :=
  path ← buildPath self text;
  ranges ← pathToRanges path;
  Ret (map (fun r => (r, if noText then None else Some (range_text text r))) ranges).

Definition cutIntoArray (self : Acceptors) (text : jsstr) : outcome (list jsstr) :=
  path ← buildPath self text;
  ranges ← pathToRanges path;
  Ret (map (range_text text) ranges).

(** ** Module 7: putting the segmenter together *)
Definition latinRules : list creator := [WordRule; SpaceRule; SingleSymbolRule; NumberRule].
Definition thaiRules : list creator := [Rule0; PartRule].

Definition initNoDict : Acceptors := MkAcceptors (latinRules ++ thaiRules) [] ∅.

(** [Wordcut.init(dict_path, withDefault, additionalWords)]: the paths do not change the
    dictionary ([WordcutDict.init_ignores_paths]). *)
Definition Wordcut_init (words_text : jsstr) (additionalWords : option (list jsstr)) : Acceptors :=
  MkAcceptors (creators initNoDict ++ [DictCreator (dict_init words_text additionalWords)]) [] ∅.

(** ** What a word of each type is *)
Fixpoint pat_match (pat : jsstr) (k : Z) (s : jsstr) : bool :=
  match s with
  | [] => true
  | c :: r => isMatch pat k c && pat_match pat (k + 1) r
  end.

(** The text of a path entry, by the type of the acceptor that produced it. *)
Definition token_ok (dict : list jsstr) (t : string) (s : jsstr) : Prop :=
  (t = "DICT"%string -> s ∈ dict) /\
  (t = "WORD_RULE"%string -> s <> [] /\ forallb word_char s = true) /\
  (t = "NUMBER_RULE"%string -> s <> [] /\ forallb number_char s = true) /\
  (t = "SPACE_RULE"%string -> s <> [] /\ forallb space_char s = true) /\
  (t = "SINSYM"%string -> exists c, s = [c] /\ sinsym_char c = true) /\
  (t = "THAI_RULE"%string -> js_len s = js_len Rule0_pat /\ pat_match Rule0_pat 0 s = true) /\
  (t = "PART"%string -> exists pat, pat ∈ PartRule_patterns /\ js_len pat = js_len s /\
                                     pat_match pat 0 s = true).

(** What a live acceptor knows about the characters [s] it has read. *)
Definition kind_type (d : acc_data) : string :=
  match d with
  | AccWord => "WORD_RULE" | AccSpace => "SPACE_RULE" | AccSinsym => "SINSYM"
  | AccNumber => "NUMBER_RULE" | AccRule0 => "THAI_RULE" | AccPart _ => "PART"
  | AccDict _ _ _ => "DICT"
  end.

Definition kind_reads (dict : list jsstr) (d : acc_data) (s : jsstr) : Prop :=
  match d with
  | AccWord => forallb word_char s = true
  | AccSpace => forallb space_char s = true
  | AccNumber => forallb number_char s = true
  | AccSinsym => forallb sinsym_char s = true
  | AccRule0 => pat_match Rule0_pat 0 s = true
  | AccPart ps => forall pat, pat ∈ ps -> pat ∈ PartRule_patterns /\ pat_match pat 0 s = true
  | AccDict d l r => d = dict /\ exists r', r = Some r' /\ dict_reads dict s l r'
  end.

Record reads (dict : list jsstr) (a : acceptor) (s : jsstr) : Prop := {
  reads_off : strOffset a = js_len s;
  reads_err : isError a = false;
  reads_type : type a = kind_type (data a);
  reads_kind : kind_reads dict (data a) s;
  reads_final : isFinal a = true -> token_ok dict (type a) s
}.

Lemma pat_match_snoc pat k s c :
  pat_match pat k (s ++ [c]) = pat_match pat k s && isMatch pat (k + js_len s) c.
Proof.
  revert k; induction s as [|x s IH]; intros k; cbn [pat_match app].
  - rewrite Z.add_0_r, andb_true_r. done.
  - rewrite IH, js_len_cons, <- andb_assoc.
    replace (k + (1 + js_len s)) with (k + 1 + js_len s) by lia. done.
Qed.

Lemma forallb_snoc {A} (f : A -> bool) l x : forallb f (l ++ [x]) = forallb f l && f x.
Proof. rewrite forallb_app. cbn. by rewrite andb_true_r. Qed.

(** Discharges [token_ok] goals: six of the seven implications have a false
    premise. *)
Ltac token_ok_tac :=
  unfold token_ok; repeat match goal with |- _ /\ _ => refine (conj _ _) end;
  let E := fresh "Et" in intros E; try discriminate E; clear E.

Section live.
Context (dict : list jsstr).
Hypothesis sorted : StronglySorted str_lt dict.

Definition creator_ok (c : creator) : Prop :=
  match c with DictCreator d => d = dict | _ => True end.

Lemma createAcceptor_reads c tags a :
  creator_ok c -> createAcceptor c tags = Some a -> reads dict a [].
Proof.
  destruct c; cbn; unfold WordRule_createAcceptor, SpaceRule_createAcceptor,
    NumberRule_createAcceptor, SingleSymbolRule_createAcceptor, Rule0_createAcceptor,
    PartRule_createAcceptor; intros Hok H; repeat case_match; simplify_eq;
    constructor; try done.
  cbn. split; [done|]. eexists; split; [done|]. apply dict_reads_init.
Qed.

(** Advancing keeps an acceptor consistent. *)
Lemma advance_reads a s ch d f :
  reads dict a s -> kind_type d = kind_type (data a) -> kind_reads dict d (s ++ [ch]) ->
  (f = true -> token_ok dict (type a) (s ++ [ch])) ->
  reads dict (acc_advance a d f) (s ++ [ch]).
Proof.
  intros [Ho He Ht Hk Hf] Hd Hk' Hf'. constructor; cbn; try done.
  - rewrite Ho, js_len_app. done.
  - congruence.
Qed.

(** The rules that read runs of one character class. *)
Lemma class_transit_reads (cls : Z -> bool) a s ch :
  reads dict a s ->
  (forall s, kind_reads dict (data a) s <-> forallb cls s = true) ->
  (forall s, s <> [] -> forallb cls s = true -> token_ok dict (type a) s) ->
  let a' := if cls ch then acc_advance a (data a) true else acc_fail a (data a) in
  isError a' = true \/ reads dict a' (s ++ [ch]).
Proof.
  intros Hr Hk Hw. destruct (cls ch) eqn:E; cbn; [right|by left].
  assert (forallb cls (s ++ [ch]) = true) as Hs.
  { rewrite forallb_snoc, E, andb_true_r. apply Hk, Hr. }
  apply advance_reads; [done|done|by apply Hk|]. intros _. apply Hw; [|done]. by destruct s.
Qed.

Lemma PartRule_transit_reads a ps s ch :
  reads dict a s -> data a = AccPart ps ->
  isError (PartRule_transit a ps ch) = true \/ reads dict (PartRule_transit a ps ch) (s ++ [ch]).
Proof.
  intros Hr Hd. pose proof Hr as [Ho _ Ht Hk _]. rewrite Hd in Hk, Ht. cbn in Hk, Ht.
  unfold PartRule_transit. rewrite Ho.
  set (ps' := List.filter (fun pat => isMatch pat (js_len s) ch) ps).
  assert (forall pat, pat ∈ ps' ->
            pat ∈ PartRule_patterns /\ pat_match pat 0 (s ++ [ch]) = true) as Hps'.
  { intros pat. unfold ps'. rewrite list_elem_of_In, filter_In, <- list_elem_of_In.
    intros [Hin Hm]. destruct (Hk pat Hin) as [? Hp]. split; [done|].
    by rewrite pat_match_snoc, Z.add_0_l, Hp, Hm. }
  destruct (0 <? js_len ps'); [right|by left].
  apply advance_reads; [done|by rewrite Hd|done|].
  intros (pat & Hin & Hl)%existsb_exists. bool_props. rewrite <- list_elem_of_In in Hin.
  destruct (Hps' pat Hin). rewrite Ht. token_ok_tac. exists pat.
  split; [done|]. split; [rewrite js_len_app, Hl; unfold js_len; cbn; lia|done].
Qed.

Lemma Rule0_transit_reads a s ch :
  reads dict a s -> data a = AccRule0 ->
  isError (Rule0_transit a ch) = true \/ reads dict (Rule0_transit a ch) (s ++ [ch]).
Proof.
  intros Hr Hd. pose proof Hr as [Ho _ Ht Hk _]. rewrite Hd in Hk, Ht. cbn [kind_reads kind_type] in Hk, Ht.
  unfold Rule0_transit. rewrite Ho. destruct (isMatch Rule0_pat (js_len s) ch) eqn:E; [right|by left].
  assert (pat_match Rule0_pat 0 (s ++ [ch]) = true) as Hm by (by rewrite pat_match_snoc, Z.add_0_l, Hk, E).
  apply advance_reads; [done|done|by rewrite Hd|].
  intros Hl. bool_props. rewrite Ht. token_ok_tac. split; [|done].
  rewrite js_len_app, <- Hl. done.
Qed.

Lemma Sinsym_transit_reads a s ch :
  reads dict a s -> data a = AccSinsym ->
  isError (SingleSymbolRule_transit a ch) = true \/
  reads dict (SingleSymbolRule_transit a ch) (s ++ [ch]).
Proof.
  intros Hr Hd. pose proof Hr as [Ho _ Ht Hk _]. rewrite Hd in Hk, Ht. cbn [kind_reads kind_type] in Hk, Ht.
  unfold SingleSymbolRule_transit. rewrite Ho.
  destruct (js_len s =? 0) eqn:E0; cbn; [|by left].
  destruct (sinsym_char ch) eqn:E; cbn; [right|by left].
  assert (s = []) as ->. { bool_props. destruct s; [done|]. unfold js_len in E0. cbn in E0. lia. }
  apply advance_reads; [done|done|rewrite Hd; cbn; by rewrite E|].
  intros _. rewrite Ht. token_ok_tac. by exists ch.
Qed.

(** Every live acceptor steps without throwing, and either drops out or has now
    read one character more. *)
Lemma acc_transit_reads a s ch :
  reads dict a s ->
  exists a', acc_transit a ch = Ret a' /\ (isError a' = true \/ reads dict a' (s ++ [ch])).
Proof.
  intros Hr. pose proof Hr as [Ho _ Ht Hk _]. unfold acc_transit.
  destruct (data a) as [| | | | |ps|d l r] eqn:Hd; cbn in Ht.
  1,2,4: eexists; split; [done|]; unfold WordRule_transit, SpaceRule_transit, NumberRule_transit;
    apply class_transit_reads; [done|intros; by rewrite Hd|intros; rewrite Ht; by token_ok_tac].
  - eexists; split; [done|]. by apply Sinsym_transit_reads.
  - eexists; split; [done|]. by apply Rule0_transit_reads.
  - eexists; split; [done|]. by apply PartRule_transit_reads.
  - destruct Hk as (-> & r' & -> & Hk).
    destruct (dict_transit_spec dict sorted a s l r' ch Hk Ho)
      as [[-> _]|(l' & r2 & f & -> & _ & Hd' & Hf)]; eexists; (split; [done|]); [by left|right].
    apply advance_reads; [done|by rewrite Hd|cbn; eauto|].
    intros Hft. rewrite Ht. token_ok_tac. by apply Hf.
Qed.
End live.

(** ** Choosing: [selectPath] returns the first of the least candidates *)
Lemma selectPath_snoc l y :
  selectPath (l ++ [y]) =
  match selectPath l with
  | None => Some y
  | Some s => if better y s then Some y else Some s
  end.
Proof. unfold selectPath. rewrite foldl_app. done. Qed.

Lemma better_trans x y z : better x y = true -> better y z = true -> better x z = true.
Proof.
  unfold better. repeat case_match; bool_props; try done; lia.
Qed.

Lemma better_negtrans x y z : better x y = false -> better y z = false -> better x z = false.
Proof.
  unfold better. repeat case_match; bool_props; try done; lia.
Qed.

Lemma better_asym x y : better x y = true -> better y x = false.
Proof.
  unfold better. repeat case_match; bool_props; try done; lia.
Qed.

Lemma selectPath_split l x :
  selectPath l = Some x ->
  exists l1 l2, l = l1 ++ x :: l2 /\
    (forall y, y ∈ l1 -> better x y = true) /\ (forall y, y ∈ l2 -> better y x = false).
Proof.
  revert x; induction l as [|y l IH] using rev_ind; intros x; [done|].
  rewrite selectPath_snoc. destruct (selectPath l) as [s|] eqn:E.
  - destruct (IH s eq_refl) as (l1 & l2 & -> & H1 & H2).
    destruct (better y s) eqn:Eb; intros [= <-].
    + exists (l1 ++ s :: l2), []. split; [done|]. split; [|set_solver].
      intros z. rewrite elem_of_app, elem_of_cons. intros [Hz|[->|Hz]].
      * eapply better_trans; eauto.
      * done.
      * specialize (H2 z Hz). destruct (better y z) eqn:E2; [done|].
        pose proof (better_negtrans _ _ _ E2 H2). congruence.
    + exists l1, (l2 ++ [y]). rewrite <- app_assoc. cbn. split; [done|]. split; [done|].
      intros z. rewrite elem_of_app, list_elem_of_singleton. intros [Hz| ->]; auto.
  - intros [= <-]. assert (l = []) as ->.
    { destruct l as [|z l _] using rev_ind; [done|]. rewrite selectPath_snoc in E.
      destruct (selectPath l); [|done]. by destruct (better z p). }
    exists [], []. cbn. split; [done|]. set_solver.
Qed.

Lemma selectPath_is_Some l : l <> [] -> exists x, selectPath l = Some x /\ x ∈ l.
Proof.
  intros Hl. destruct (selectPath l) as [x|] eqn:E.
  - exists x. split; [done|]. destruct (selectPath_split l x E) as (l1 & l2 & -> & _). set_solver.
  - destruct l as [|y l _] using rev_ind; [done|]. rewrite selectPath_snoc in E.
    destruct (selectPath l); [|done]. by destruct (better y p).
Qed.

(** ** The invariant of [buildPath] *)
Section build.
Context (dict : list jsstr) (text : jsstr).
Hypothesis sorted : StronglySorted str_lt dict.

(** A live acceptor has read the text from some earlier position up to [i]. *)
Definition alive (i : Z) (a : acceptor) : Prop :=
  exists k, 0 <= k < i /\ reads dict a (js_slice text k i).

Definition Acceptors_ok (i : Z) (acc : Acceptors) : Prop :=
  Forall (creator_ok dict) (creators acc) /\ Forall (alive i) (current acc).

Lemma transit_one_ok i ch st a k :
  js_get text i = Some ch -> 0 <= k <= i -> reads dict a (js_slice text k i) ->
  Forall (alive (i + 1)) st.1 ->
  exists st', transit_one ch st a = Ret st' /\ Forall (alive (i + 1)) st'.1.
Proof.
  intros Hch Hk Hr Hst. unfold transit_one.
  destruct (acc_transit_reads dict sorted a _ ch Hr) as (a' & -> & Ha'). cbn.
  destruct (isError a') eqn:E; [eauto|]. destruct Ha' as [|Ha']; [congruence|].
  rewrite (js_slice_snoc text k i) in Ha' by done.
  eexists; split; [done|]. cbn. apply Forall_app. split; [done|]. constructor; [|done].
  exists k. split; [lia|done].
Qed.

Lemma Acceptors_transit_ok i ch acc :
  js_get text i = Some ch -> 0 <= i -> Acceptors_ok i acc ->
  exists acc', Acceptors_transit acc ch = Ret acc' /\ Acceptors_ok (i + 1) acc'.
Proof.
  intros Hch Hi [Hc Hcur]. unfold Acceptors_transit.
  destruct (foldM_inv (fun st => Forall (alive (i + 1)) st.1)
              (fun a => exists k, 0 <= k <= i /\ reads dict a (js_slice text k i))
              (transit_one ch) ([], ∅)
              (current acc ++ omap (fun c => createAcceptor c (tags acc)) (creators acc)))
    as (st & -> & Hst).
  - done.
  - apply Forall_app. split.
    + eapply Forall_impl; [exact Hcur|]. intros a (k & Hk & Hr). exists k. split; [lia|done].
    + apply Forall_forall. intros a Ha. apply list_elem_of_omap in Ha as (c & Hin & Hcr).
      exists i. split; [lia|]. rewrite js_slice_empty by (apply js_get_Some_range in Hch; lia).
      eapply createAcceptor_reads; [|done]. by eapply Forall_forall in Hc.
  - intros st a Hst (k & Hk & Hr). by eapply transit_one_ok.
  - eexists; split; [done|]. by split.
Qed.

(** A path entry for position [e]: it points strictly to the left, so does its
    merge mark, and its text is a word of its type. *)
Definition entry_ok (e : Z) (info : path_info) : Prop :=
  exists p, pi_p info = Some p /\ 0 <= p < e /\
    token_ok dict (pi_type info) (js_slice text p e) /\
    (forall m, pi_merge info = Some m -> 0 <= m < e).

Definition path_ok (n : Z) (path : list path_info) : Prop :=
  js_len path = n /\ forall e info, 1 <= e -> js_get path e = Some info -> entry_ok e info.

Lemma set_merge_ok n path p j :
  path_ok n path -> 0 <= p < j -> j < n ->
  exists path', set_merge p path j = Ret path' /\ path_ok n path'.
Proof.
  intros [Hlen Hp] Hj Hn. unfold set_merge.
  destruct (js_at_range path j) as (info & Hi & ->); [lia|]. cbn.
  eexists; split; [done|]. split; [by rewrite js_len_insert|].
  intros e info' He Hg. rewrite js_get_insert in Hg by lia. case_decide as E; [|by apply Hp].
  subst. simplify_eq. destruct (Hp j info) as (q & Hq1 & Hq2 & Hq3 & Hq4); [lia|done|].
  exists q. cbn. split; [done|]. split; [done|]. split; [done|]. naive_solver lia.
Qed.

Lemma mark_merge_ok i path p :
  path_ok (i + 1) path -> 0 <= p <= i ->
  exists path', foldM (set_merge p) path (seqZ (p + 1) (i - p)) = Ret path' /\ path_ok (i + 1) path'.
Proof.
  intros Hp Hpi. apply (foldM_inv _ (fun j => p < j <= i)); [done| |].
  - apply Forall_forall. intros j Hj%elem_of_seqZ. lia.
  - intros path' j Hok Hj. apply set_merge_ok; [done|lia|lia].
Qed.

Lemma info_of_acceptor_ok i st a :
  0 <= i -> i < js_len text -> alive (i + 1) a -> isFinal a = true ->
  path_ok (i + 1) st.1 -> Forall (entry_ok (i + 1)) st.2 ->
  exists st', info_of_acceptor i st a = Ret st' /\
    (path_ok (i + 1) st'.1 /\ Forall (entry_ok (i + 1)) st'.2 /\ st'.2 <> []).
Proof.
  intros Hi Ht (k & Hk & [Ho _ _ _ Hf]) Hfin Hpath Hst. unfold info_of_acceptor.
  rewrite js_slice_len in Ho by lia. rewrite Ho.
  replace (i - (i + 1 - k) + 1) with k by lia.
  destruct (js_at_range st.1 k) as (info & Hg & ->); [destruct Hpath; lia|]. cbn.
  assert (exists path', (if bool_decide (type a = "PART"%string)
            then foldM (set_merge k) st.1 (seqZ (k + 1) (i - k)) else Ret st.1) = Ret path' /\
            path_ok (i + 1) path') as (path' & -> & Hp').
  { case_bool_decide; [apply mark_merge_ok; [done|lia]|eauto]. }
  cbn. eexists; split; [done|]. cbn. split; [done|]. split; [|by destruct st.2].
  apply Forall_app. split; [done|]. constructor; [|done]. exists k. cbn.
  split; [done|]. split; [lia|]. split; [by apply Hf|]. intros m. case_bool_decide; naive_solver lia.
Qed.

Lemma fallback_ok i path left :
  0 <= i -> i < js_len text -> 0 <= left <= i -> path_ok (i + 1) path ->
  exists info, fallback path left text i = Ret info /\ entry_ok (i + 1) info.
Proof.
  intros Hi Ht Hl [Hlen Hp]. unfold fallback.
  destruct (js_at_range text i) as (ch & _ & ->); [lia|]. cbn.
  destruct (js_at_range path left) as (info & Hg & ->); [lia|]. cbn.
  destruct (tone_mark ch); eexists; (split; [done|]).
  - destruct (left =? 0) eqn:E; bool_props.
    + exists left. cbn. split; [done|]. split; [lia|]. split; [by token_ok_tac|done].
    + destruct (Hp left info) as (q & Hq & ? & _); [lia|done|]. exists q. cbn.
      split; [done|]. split; [lia|]. split; [by token_ok_tac|done].
  - exists left. cbn. split; [done|]. split; [lia|]. split; [by token_ok_tac|done].
Qed.

Lemma build_ok i path finals left :
  0 <= i -> i < js_len text -> 0 <= left <= i -> path_ok (i + 1) path ->
  Forall (fun a => alive (i + 1) a /\ isFinal a = true) finals ->
  exists r, build path finals i left text = Ret r /\
    path_ok (i + 1) r.1 /\ Forall (entry_ok (i + 1)) r.2 /\ r.2 <> [].
Proof.
  intros Hi Ht Hl Hp Hfin. unfold build, buildByAcceptors.
  destruct (foldM_inv (fun st => path_ok (i + 1) st.1 /\ Forall (entry_ok (i + 1)) st.2)
              _ (info_of_acceptor i) (path, []) finals (conj Hp (Forall_nil_2 _)) Hfin)
    as (r & -> & Hr1 & Hr2).
  { intros st a [Hs1 Hs2] [Ha1 Ha2].
    destruct (info_of_acceptor_ok i st a Hi Ht Ha1 Ha2 Hs1 Hs2) as (st' & ? & ? & ? & _). eauto. }
  cbn. destruct (0 <? js_len r.2) eqn:E; bool_props.
  - exists r. split; [done|]. split; [done|]. split; [done|]. intros E0. by rewrite E0 in E.
  - destruct (fallback_ok i r.1 left Hi Ht Hl Hr1) as (info & -> & Hinfo). cbn.
    eexists; split; [done|]. cbn. split; [done|]. by split; [repeat constructor|].
Qed.

Definition build_inv (i : Z) (st : build_state) : Prop :=
  Acceptors_ok i (bs_acceptors st) /\ path_ok (i + 1) (bs_path st) /\
  0 <= bs_left st <= Z.max 0 (i - 1).

Lemma buildPath_step_ok i st :
  0 <= i -> i < js_len text -> build_inv i st ->
  exists st', buildPath_step text st i = Ret st' /\ build_inv (i + 1) st'.
Proof.
  intros Hi Ht (Hacc & Hpath & Hleft). unfold buildPath_step.
  destruct (js_at_range text i) as (ch & Hch & ->); [lia|]. cbn.
  destruct (Acceptors_transit_ok i ch (bs_acceptors st) Hch Hi Hacc) as (acc & -> & Hacc'). cbn.
  destruct (build_ok i (bs_path st) (getFinalAcceptors acc) (bs_left st)) as (r & -> & H1 & H2 & H3);
    [done|done|lia|done| |].
  { apply Forall_forall. intros a. unfold getFinalAcceptors.
    rewrite list_elem_of_In, filter_In, <- list_elem_of_In. intros [Ha ?].
    destruct Hacc' as [_ Hcur]. rewrite Forall_forall in Hcur. auto. }
  cbn. destruct (selectPath_is_Some r.2 H3) as (sel & -> & Hsel).
  eexists; split; [done|]. split; [done|]. cbn. split.
  - destruct H1 as [Hlen Hp]. split; [rewrite js_len_app, Hlen; done|].
    intros e info He Hg. destruct (decide (e < js_len r.1)).
    + rewrite js_get_app_l in Hg by lia. by apply Hp.
    + pose proof (js_get_Some_range _ _ _ Hg) as Hr. rewrite js_len_app in Hr.
      assert (e = i + 1) as -> by (change (js_len [sel]) with 1 in Hr; lia).
      rewrite <- Hlen, js_get_snoc in Hg. simplify_eq. by eapply Forall_forall in H2.
  - case_bool_decide; lia.
Qed.

Lemma buildPath_ok self :
  Forall (creator_ok dict) (creators self) ->
  exists path, buildPath self text = Ret path /\ path_ok (js_len text + 1) path.
Proof.
  intros Hc. unfold buildPath.
  destruct (foldM_seqZ_inv build_inv (buildPath_step text)
              (BuildState (Acceptors_reset self) createPath 0) 0 (js_len text))
    as (st & E & _ & Hp & _).
  - apply js_len_nonneg.
  - split; [by split|]. split; [|cbn; lia]. split; [done|]. intros e info He Hg.
    apply js_get_Some_range in Hg. unfold js_len in Hg. cbn in Hg. lia.
  - intros i st Hi Hinv. apply buildPath_step_ok; [lia|lia|done].
  - rewrite Z.sub_0_r in E. rewrite E. cbn. eauto.
Qed.
End build.

(** ** Reading the boundaries back *)

(** [tiles a l n]: the ranges [l] cover [a, n) without gaps and none is empty. *)
Fixpoint tiles (a : Z) (l : list range) (n : Z) : Prop :=
  match l with
  | [] => a = n
  | r :: l' => rng_s r = Some a /\ a < rng_e r /\ tiles (rng_e r) l' n
  end.

Lemma pathToRanges_loop_tiles dict text n path fuel e ranges :
  path_ok dict text (n + 1) path -> 0 <= e <= n -> e < Z.of_nat fuel -> tiles e ranges n ->
  exists ranges', pathToRanges_loop fuel path e ranges = Ret ranges' /\ tiles 0 ranges' n.
Proof.
  intros [Hlen Hp]. revert e ranges; induction fuel as [|f IH]; intros e ranges He Hf Ht; [lia|].
  cbn [pathToRanges_loop]. destruct (0 <? e) eqn:E; bool_props.
  - destruct (js_at_range path e) as (info & Hg & ->); [lia|]. cbn.
    destruct (Hp e info) as (p & Hpi & Hpe & _ & Hm); [lia|done|].
    destruct (pi_merge info) as [m|].
    + specialize (Hm m eq_refl). destruct ranges as [|r ranges].
      * rewrite Hpi. cbn. apply IH; [lia|lia|]. cbn in *. split; [done|]. split; [lia|done].
      * cbn. apply IH; [lia|lia|]. cbn in *. destruct Ht as (_ & ? & ?).
        split; [done|]. split; [lia|done].
    + rewrite Hpi. cbn. apply IH; [lia|lia|]. cbn in *. split; [done|]. split; [lia|done].
  - assert (e = 0) as -> by lia. eauto.
Qed.

Lemma pathToRanges_tiles dict text n path :
  path_ok dict text (n + 1) path -> 0 <= n ->
  exists ranges, pathToRanges path = Ret ranges /\ tiles 0 ranges n.
Proof.
  intros Hp Hn. pose proof Hp as [Hlen _]. unfold pathToRanges. rewrite Hlen.
  apply (pathToRanges_loop_tiles dict text n); [done|lia| |cbn; lia].
  unfold js_len in Hlen. lia.
Qed.

Lemma tiles_le a l n : tiles a l n -> a <= n.
Proof.
  revert a; induction l as [|r l IH]; intros a; cbn; [lia|].
  intros (_ & ? & H%IH). lia.
Qed.

Lemma tiles_text text a l :
  0 <= a -> tiles a l (js_len text) ->
  concat (map (range_text text) l) = js_slice text a (js_len text) /\
  Forall (fun t => t <> []) (map (range_text text) l).
Proof.
  revert a; induction l as [|r l IH]; intros a Ha; cbn.
  - intros ->. split; [|constructor]. rewrite js_slice_empty by lia. done.
  - intros (Hs & Hlt & Ht). pose proof (tiles_le _ _ _ Ht).
    destruct (IH (rng_e r)) as [-> Hne]; [lia|done|].
    assert (range_text text r = js_slice text a (rng_e r)) as ->.
    { unfold range_text. rewrite Hs. cbn. apply js_substring_in; lia. }
    split.
    + rewrite js_slice_cat by lia. done.
    + constructor; [|done]. intros E%(f_equal js_len). rewrite js_slice_len in E by lia.
      unfold js_len in E. cbn in E. lia.
Qed.

Lemma Wordcut_init_creators txt ws :
  Forall (creator_ok (dict_init txt ws)) (creators (Wordcut_init txt ws)).
Proof. by repeat constructor. Qed.

Lemma Wordcut_ranges txt ws text :
  exists path ranges, buildPath (Wordcut_init txt ws) text = Ret path /\
    path_ok (dict_init txt ws) text (js_len text + 1) path /\
    pathToRanges path = Ret ranges /\ tiles 0 ranges (js_len text).
Proof.
  destruct (buildPath_ok (dict_init txt ws) text (dict_init_sorted txt ws) (Wordcut_init txt ws))
    as (path & Hb & Hp); [apply Wordcut_init_creators|].
  destruct (pathToRanges_tiles _ _ _ _ Hp (js_len_nonneg text)) as (ranges & Hr & Ht). eauto 10.
Qed.

(** ** Optimality

    The cost of an entry is the number of unknown words, then [mw] (always 0),
    then the number of words. *)
Definition cost (info : path_info) : Z * Z * Z := (pi_unk info, pi_mw info, pi_w info).

Definition same_costs (p1 p2 : list path_info) : Prop :=
  forall e, cost <$> js_get p1 e = cost <$> js_get p2 e.

#[export] Instance same_costs_equiv : Equivalence same_costs.
Proof.
  split; unfold same_costs.
  - done.
  - intros ? ? H e. by rewrite H.
  - intros ? ? ? H1 H2 e. by rewrite H1.
Qed.

Lemma set_merge_costs p path j path' : set_merge p path j = Ret path' -> same_costs path path'.
Proof.
  unfold set_merge. intros (info & Hi%js_at_Ret & [= <-])%bind_Ret e.
  rewrite js_get_insert by (by eapply js_get_Some_range). case_decide; [|done].
  subst. by rewrite Hi.
Qed.

Lemma foldM_set_merge_costs p l path path' :
  foldM (set_merge p) path l = Ret path' -> same_costs path path'.
Proof.
  revert path; induction l as [|j l IH]; intros path; cbn; [by intros [= <-]|].
  intros (p1 & H1%set_merge_costs & H2%IH)%bind_Ret. by etransitivity.
Qed.

Lemma info_of_acceptor_cost i st a st' :
  info_of_acceptor i st a = Ret st' ->
  same_costs st.1 st'.1 /\ exists info new,
    js_get st.1 (i - strOffset a + 1) = Some info /\ st'.2 = st.2 ++ [new] /\
    cost new = (default 0 (unk a) + pi_unk info, pi_mw info + default 0 (mw a), w a + pi_w info).
Proof.
  unfold info_of_acceptor.
  intros (info & Hi%js_at_Ret & (path' & Hpath & [= <-])%bind_Ret)%bind_Ret. cbn. split.
  - case_bool_decide; [by eapply foldM_set_merge_costs|by simplify_eq].
  - eexists info, _. repeat split. done.
Qed.

(** Every final acceptor contributes a candidate whose cost is that of the entry
    it starts from plus its own. *)
Lemma buildByAcceptors_cost i finals path infos r :
  foldM (info_of_acceptor i) (path, infos) finals = Ret r ->
  same_costs path r.1 /\
  (forall x, x ∈ infos -> x ∈ r.2) /\
  (forall x, x ∈ r.2 -> x ∈ infos \/ exists a info, a ∈ finals /\
     js_get path (i - strOffset a + 1) = Some info /\
     cost x = (default 0 (unk a) + pi_unk info, pi_mw info + default 0 (mw a), w a + pi_w info)) /\
  forall a info, a ∈ finals -> js_get path (i - strOffset a + 1) = Some info ->
    exists new, new ∈ r.2 /\
      cost new = (default 0 (unk a) + pi_unk info, pi_mw info + default 0 (mw a), w a + pi_w info).
Proof.
  revert path infos; induction finals as [|a finals IH]; intros path infos; cbn.
  - intros [= <-]. cbn. split; [done|]. split; [done|]. split; [auto|]. set_solver.
  - intros (st & H1%info_of_acceptor_cost & H2)%bind_Ret. cbn in H1.
    destruct H1 as (Hc & info & new & Hinfo & Hnew & Hcost).
    destruct st as [path1 infos1]. cbn in Hc, Hnew. subst infos1.
    destruct (IH _ _ H2) as (Hc2 & Hin & Hout & Hall). split; [by etransitivity|].
    assert (forall b jb, js_get path1 b = Some jb -> exists jb', js_get path b = Some jb' /\ cost jb' = cost jb) as Hback.
    { intros b jb Hb. specialize (Hc b). rewrite Hb in Hc. destruct (js_get path b) as [jb'|]; [|done].
      exists jb'. split; [done|]. cbn in Hc. congruence. }
    split; [set_solver|]. split.
    + intros x [Hx|(b & jb & Hb & Hjb & Hxc)]%Hout.
      * apply elem_of_app in Hx as [Hx| ->%list_elem_of_singleton]; [by left|].
        right. exists a, info. split; [set_solver|]. done.
      * right. destruct (Hback _ _ Hjb) as (jb' & ? & Hjc). exists b, jb'.
        split; [set_solver|]. split; [done|].
        rewrite Hxc. injection Hjc as -> -> ->. done.
    + intros b jb Hb Hjb. apply elem_of_cons in Hb as [->|Hb].
      * assert (jb = info) as -> by congruence. exists new. split; [|done]. set_solver.
      * specialize (Hc (i - strOffset b + 1)). rewrite Hjb in Hc.
        destruct (js_get path1 (i - strOffset b + 1)) as [jb'|] eqn:Ej; [|done].
        destruct (Hall b jb' Hb Ej) as (n & ? & Hn). exists n. split; [done|].
        rewrite Hn. injection Hc as -> -> ->. done.
Qed.

Section optimal.
Context (dict : list jsstr) (text : jsstr).
Hypothesis sorted : StronglySorted str_lt dict.

(** No acceptor ever has an [mw], each counts one word and none a negative
    number of unknown ones. *)
Definition plain (a : acceptor) : Prop := mw a = None /\ w a = 1 /\ 0 <= default 0 (unk a).

Lemma createAcceptor_plain c tags a : createAcceptor c tags = Some a -> plain a.
Proof.
  destruct c; cbn; unfold WordRule_createAcceptor, SpaceRule_createAcceptor,
    NumberRule_createAcceptor, SingleSymbolRule_createAcceptor, Rule0_createAcceptor,
    PartRule_createAcceptor; intros H; repeat case_match; simplify_eq; done.
Qed.

Lemma acc_transit_plain a ch a' : acc_transit a ch = Ret a' -> plain a -> plain a'.
Proof.
  intros H Hp. unfold acc_transit, WordRule_transit, SpaceRule_transit, NumberRule_transit,
    SingleSymbolRule_transit, Rule0_transit, PartRule_transit in H.
  destruct (data a); [repeat case_match; by simplify_eq..|].
  unfold dict_transit in H. apply bind_Ret in H as (l' & _ & H). destruct l'; [|by simplify_eq].
  apply bind_Ret in H as (r' & _ & H). apply bind_Ret in H as (f & _ & H). by simplify_eq.
Qed.

(** The acceptor the dictionary contributes for a text it has read as [s]. *)
Definition dict_reader (a : acceptor) (s : jsstr) : Prop :=
  exists l r, data a = AccDict dict l (Some r) /\ dict_reads dict s l r /\
    strOffset a = js_len s /\ isError a = false /\ unk a = None /\
    (s <> [] -> s ∈ dict -> isFinal a = true).

Lemma dict_reader_transit a s ch word :
  dict_reader a s -> word ∈ dict -> s ++ [ch] `prefix_of` word ->
  exists a', acc_transit a ch = Ret a' /\ isError a' = false /\ dict_reader a' (s ++ [ch]).
Proof.
  intros (l & r & Hd & Hr & Ho & He & Hu & Hf) Hw Hp. unfold acc_transit. rewrite Hd.
  destruct (dict_transit_spec dict sorted a s l r ch Hr Ho)
    as [[_ Hno]|(l' & r' & f & -> & _ & Hr' & Hf')]; [by destruct (Hno word Hw)|].
  eexists; split; [done|]. split; [done|]. exists l', r'. cbn.
  split; [done|]. split; [done|]. split; [rewrite Ho, js_len_app; done|].
  split; [done|]. split; [done|]. intros _ Hin. by apply Hf'.
Qed.

Definition complete (i : Z) (acc : Acceptors) : Prop :=
  DictCreator dict ∈ creators acc /\ Forall plain (current acc) /\
  forall k word, 0 <= k < i -> word ∈ dict -> js_slice text k i `prefix_of` word ->
    exists a, a ∈ current acc /\ dict_reader a (js_slice text k i).

Lemma transit_survivors ch cur st0 st :
  foldM (transit_one ch) st0 cur = Ret st ->
  (forall a, a ∈ st0.1 -> a ∈ st.1) /\
  (forall a a', a ∈ cur -> acc_transit a ch = Ret a' -> isError a' = false -> a' ∈ st.1) /\
  (Forall plain st0.1 -> Forall plain cur -> Forall plain st.1).
Proof.
  revert st0; induction cur as [|b cur IH]; intros st0; cbn.
  - intros [= <-]. split; [done|]. split; [set_solver|done].
  - intros (st1 & H1 & H2)%bind_Ret. destruct (IH _ H2) as (Hin & Hsurv & Hpl).
    unfold transit_one in H1. apply bind_Ret in H1 as (b' & Hb & H1).
    destruct (isError b') eqn:E; simplify_eq; cbn in *.
    + split; [done|]. split.
      * intros a a' [->|Ha]%elem_of_cons Ht He; [|by eapply Hsurv].
        rewrite Hb in Ht. injection Ht as ->. by rewrite E in He.
      * intros Hp0 [_ Hp]%Forall_cons. auto.
    + split; [set_solver|]. split.
      * intros a a' [->|Ha]%elem_of_cons Ht He; [|by eapply Hsurv].
        rewrite Hb in Ht. injection Ht as ->. apply Hin. set_solver.
      * intros Hp0 [Hb0 Hp]%Forall_cons. apply Hpl; [|done]. apply Forall_app.
        split; [done|]. constructor; [|done]. by eapply acc_transit_plain.
Qed.

Lemma Acceptors_transit_complete i ch acc acc' :
  js_get text i = Some ch -> 0 <= i -> complete i acc ->
  Acceptors_transit acc ch = Ret acc' -> complete (i + 1) acc'.
Proof.
  intros Hch Hi (Hc & Hpl & Hall) H. unfold Acceptors_transit in H.
  apply bind_Ret in H as (st & Hst & [= <-]).
  destruct (transit_survivors _ _ _ _ Hst) as (_ & Hsurv & Hplain). split; [done|]. cbn. split.
  - apply Hplain; [done|]. apply Forall_app. split; [done|]. apply Forall_forall.
    intros a (c & _ & Ha)%list_elem_of_omap. by eapply createAcceptor_plain.
  - intros k word Hk Hw. pose proof (js_get_Some_range _ _ _ Hch) as Hr.
    rewrite <- (js_slice_snoc text k i ch) by (done || lia). intros Hp.
    assert (exists a, a ∈ current acc ++ omap (fun c => createAcceptor c (tags acc)) (creators acc)
              /\ dict_reader a (js_slice text k i)) as (a & Ha & Hread).
    { destruct (decide (k < i)) as [Hlt|].
      - destruct (Hall k word) as (a & Ha & ?); [lia|done|etransitivity; [by eexists|done]|].
        exists a. split; [|done]. set_solver.
      - assert (k = i) as -> by lia. exists (dict_createAcceptor dict). split.
        + apply elem_of_app. right. apply list_elem_of_omap. by eexists.
        + rewrite js_slice_empty by lia. exists 0, (js_len dict - 1).
          split; [done|]. split; [apply dict_reads_init|]. done. }
    destruct (dict_reader_transit a _ ch word Hread Hw Hp) as (a' & Ht & He & Hread').
    exists a'. split; [by eapply Hsurv|done].
Qed.

(** [x] costs at most one known word more than [y]. *)
Definition step_le (x y : path_info) : Prop :=
  pi_unk x < pi_unk y \/ (pi_unk x = pi_unk y /\ pi_w x <= pi_w y + 1).

Definition path_opt (path : list path_info) : Prop :=
  (forall e x, js_get path e = Some x ->
     pi_mw x = 0 /\ 0 <= pi_unk x /\ (e = 0 -> pi_unk x = 0 /\ pi_w x = 0)) /\
  forall p e x y, 0 <= p < e -> js_slice text p e ∈ dict ->
    js_get path p = Some y -> js_get path e = Some x -> step_le x y.

Lemma same_costs_get p1 p2 e x :
  same_costs p1 p2 -> js_get p2 e = Some x -> exists y, js_get p1 e = Some y /\ cost y = cost x.
Proof.
  intros H Hx. specialize (H e). rewrite Hx in H. destruct (js_get p1 e) as [y|]; [|done].
  exists y. split; [done|]. cbn in H. congruence.
Qed.

Lemma path_opt_costs p1 p2 : same_costs p1 p2 -> path_opt p1 -> path_opt p2.
Proof.
  intros Hc [Hmw Hle]. split.
  - intros e x Hx. destruct (same_costs_get _ _ _ _ Hc Hx) as (y & Hy & Ec).
    injection Ec as <- <- <-. eauto.
  - intros p e x y Hpe Hin Hy Hx.
    destruct (same_costs_get _ _ _ _ Hc Hx) as (x' & Hx' & Ex).
    destruct (same_costs_get _ _ _ _ Hc Hy) as (y' & Hy' & Ey).
    unfold step_le. injection Ex as <- _ <-. injection Ey as <- _ <-. by eapply Hle.
Qed.

(** Appending the selected entry keeps the path optimal when the candidates
    include one for every dictionary word that ends here. *)
Lemma path_opt_snoc i path infos sel :
  0 <= i -> path_opt path -> js_len path = i + 1 -> selectPath infos = Some sel ->
  (forall x, x ∈ infos -> pi_mw x = 0 /\ 0 <= pi_unk x) ->
  (forall p y, 0 <= p <= i -> js_slice text p (i + 1) ∈ dict -> js_get path p = Some y ->
     exists x, x ∈ infos /\ cost x = (pi_unk y, 0, 1 + pi_w y)) ->
  path_opt (path ++ [sel]).
Proof.
  intros Hi [Hmw Hle] Hlen Hsel Hinf Hcand.
  destruct (selectPath_split _ _ Hsel) as (l1 & l2 & -> & H1 & H2).
  assert (forall e x, js_get (path ++ [sel]) e = Some x ->
            (e <= i /\ js_get path e = Some x) \/ (e = i + 1 /\ x = sel)) as Hget.
  { intros e x Hx. pose proof (js_get_Some_range _ _ _ Hx) as Hr. rewrite js_len_app in Hr.
    change (js_len [sel]) with 1 in Hr. destruct (decide (e <= i)).
    - left. by rewrite js_get_app_l in Hx by lia.
    - right. assert (e = i + 1) as -> by lia. rewrite <- Hlen, js_get_snoc in Hx. by simplify_eq. }
  split.
  - intros e x [[_ Hx]|[-> ->]]%Hget; [by eapply Hmw|].
    destruct (Hinf sel); [set_solver|]. split; [done|]. split; [done|lia].
  - intros p e x y Hpe Hin Hy [[? Hx]|[-> ->]]%Hget.
    + apply Hget in Hy as [[_ Hy]|[? _]]; [by eapply Hle|lia].
    + apply Hget in Hy as [[_ Hy]|[? _]]; [|lia].
      destruct (Hcand p y) as (c & Hc & Ec); [lia|done|done|]. injection Ec as Eu Em Ew.
      destruct (Hinf sel) as [Hm0 _]; [set_solver|].
      assert (better c sel = false) as Hb.
      { apply elem_of_app in Hc as [Hc|[->|Hc]%elem_of_cons]; [| |by apply H2].
        - by apply better_asym, H1.
        - unfold better. rewrite !Z.ltb_irrefl, !Z.eqb_refl. done. }
      unfold better in Hb. rewrite Eu, Em, Ew, Hm0 in Hb. unfold step_le.
      repeat case_match; bool_props; try done; lia.
Qed.
(** The candidates of a round: costs without [mw], and one for every dictionary
    word that ends at [i + 1]. *)
Lemma build_candidates i acc path left r :
  0 <= i -> i < js_len text -> js_len path = i + 1 -> complete (i + 1) acc -> path_opt path ->
  build path (getFinalAcceptors acc) i left text = Ret r ->
  same_costs path r.1 /\
  (forall x, x ∈ r.2 -> pi_mw x = 0 /\ 0 <= pi_unk x) /\
  (forall p y, 0 <= p <= i -> js_slice text p (i + 1) ∈ dict -> js_get path p = Some y ->
     exists x, x ∈ r.2 /\ cost x = (pi_unk y, 0, 1 + pi_w y)).
Proof.
  intros Hi Ht Hlen (_ & Hpl & Hall) [Hmw _] H. unfold build in H.
  apply bind_Ret in H as (r0 & H0 & H).
  destruct (buildByAcceptors_cost _ _ _ _ _ H0) as (Hc & _ & Hout & Hin).
  assert (forall p y, 0 <= p <= i -> js_slice text p (i + 1) ∈ dict -> js_get path p = Some y ->
     exists x, x ∈ r0.2 /\ cost x = (pi_unk y, 0, 1 + pi_w y)) as Hcand.
  { intros p y Hp Hw Hy. destruct (Hall p _ ltac:(lia) Hw (reflexivity _))
      as (a & Ha & l & rr & _ & _ & Ho & _ & Hu & Hf).
    assert (isFinal a = true) as Hfin.
    { apply Hf; [|done]. intros E%(f_equal js_len). rewrite js_slice_len in E by lia.
      unfold js_len in E. cbn in E. lia. }
    rewrite js_slice_len in Ho by lia.
    rewrite Forall_forall in Hpl. destruct (Hpl a Ha) as (Hm & Hw1 & _).
    destruct (Hin a y) as (x & Hx & Ex).
    { unfold getFinalAcceptors. rewrite list_elem_of_In, filter_In, <- list_elem_of_In. done. }
    { rewrite Ho. by replace (i - (i + 1 - p) + 1) with p by lia. }
    exists x. split; [done|]. rewrite Ex, Hu, Hm, Hw1. cbn.
    destruct (Hmw p y Hy) as (-> & _). done. }
  destruct (0 <? js_len r0.2) eqn:E.
  - injection H as <-. split; [done|]. split; [|done].
    intros x [Hx|(a & info & Ha & Hg & Ex)]%Hout; [set_solver|].
    rewrite Forall_forall in Hpl. destruct (Hpl a) as (Hm & _ & Hu).
    { unfold getFinalAcceptors in Ha. rewrite list_elem_of_In, filter_In, <- list_elem_of_In in Ha.
      apply Ha. }
    destruct (Hmw _ _ Hg) as (Hm0 & Hu0 & _). injection Ex as -> -> _. rewrite Hm, Hm0. cbn. lia.
  - bool_props. assert (r0.2 = []) as Hnil.
    { destruct r0.2; [done|]. unfold js_len in E. cbn in E. lia. }
    apply bind_Ret in H as (info & Hfb & [= <-]). cbn. split; [done|]. split.
    + intros x ->%list_elem_of_singleton. unfold fallback in Hfb.
      apply bind_Ret in Hfb as (ch & _ & Hfb). apply bind_Ret in Hfb as (y & Hy%js_at_Ret & Hfb).
      destruct (same_costs_get _ _ _ _ Hc Hy) as (y' & Hy' & Ey). injection Ey as Eu Em _.
      destruct (Hmw _ _ Hy') as (? & ? & _). case_match; injection Hfb as <-; cbn; lia.
    + intros p y Hp Hw Hy. destruct (Hcand p y Hp Hw Hy) as (x & Hx & _). rewrite Hnil in Hx. set_solver.
Qed.

Definition opt_inv (i : Z) (st : build_state) : Prop :=
  build_inv dict text i st /\ complete i (bs_acceptors st) /\ path_opt (bs_path st).

Lemma buildPath_step_opt i st :
  0 <= i -> i < js_len text -> opt_inv i st ->
  exists st', buildPath_step text st i = Ret st' /\ opt_inv (i + 1) st'.
Proof.
  intros Hi Ht (Hb & Hc & Ho).
  destruct (buildPath_step_ok dict text sorted i st Hi Ht Hb) as (st' & E & Hb').
  exists st'. split; [done|]. split; [done|]. unfold buildPath_step in E.
  apply bind_Ret in E as (ch & Hch%js_at_Ret & E). apply bind_Ret in E as (acc & Hacc & E).
  apply bind_Ret in E as (r & Hr & E). destruct (selectPath r.2) as [sel|] eqn:Es; [|done].
  injection E as <-. cbn.
  pose proof (Acceptors_transit_complete i ch _ _ Hch Hi Hc Hacc) as Hc'. split; [done|].
  destruct Hb as (_ & [Hlen _] & _).
  destruct (build_candidates i acc _ _ _ Hi Ht Hlen Hc' Ho Hr) as (Hcost & Hmw & Hcand).
  destruct Hb' as (_ & [Hlen' _] & _). cbn in Hlen'. rewrite js_len_app in Hlen'.
  change (js_len [sel]) with 1 in Hlen'.
  apply (path_opt_snoc i r.1 r.2); [done|by eapply path_opt_costs|lia|done|done|].
  intros p y Hp Hw Hy. destruct (same_costs_get _ _ _ _ Hcost Hy) as (y' & Hy' & Ey).
  destruct (Hcand p y' Hp Hw Hy') as (x & Hx & Ex). exists x. split; [done|].
  rewrite Ex. injection Ey as -> _ ->. done.
Qed.

Lemma buildPath_opt self :
  Forall (creator_ok dict) (creators self) -> DictCreator dict ∈ creators self ->
  exists path, buildPath self text = Ret path /\ js_len path = js_len text + 1 /\ path_opt path.
Proof.
  intros Hc Hd. unfold buildPath.
  destruct (foldM_seqZ_inv opt_inv (buildPath_step text)
              (BuildState (Acceptors_reset self) createPath 0) 0 (js_len text))
    as (st & E & (_ & [Hlen _] & _) & _ & Ho).
  - apply js_len_nonneg.
  - assert (forall e x, js_get createPath e = Some x -> e = 0 /\ x = PathInfo None 0 0 0 "INIT" None) as H0.
    { intros e x Hx. pose proof (js_get_Some_range _ _ _ Hx) as Hr. unfold js_len in Hr. cbn in Hr.
      assert (e = 0) as -> by lia. by injection Hx as <-. }
    split; [|split].
    + split; [by split|]. split; [|cbn; lia]. split; [done|]. intros e info He [? _]%H0. lia.
    + split; [done|]. split; [done|]. intros. lia.
    + split; cbn.
      * intros e x [-> ->]%H0. cbn. lia.
      * intros p e x y Hpe _ _ [? _]%H0. lia.
  - intros i st Hi Hinv. apply buildPath_step_opt; [lia|lia|done].
  - rewrite Z.sub_0_r in E. rewrite E. cbn. eauto.
Qed.

(** Along any cut of the text into dictionary words, the entries stay at least as
    good as that cut. *)
Lemma path_opt_words path done_ rest x :
  path_opt path -> js_len path = js_len text + 1 ->
  Forall (fun w => w <> [] /\ w ∈ dict) (done_ ++ rest) -> text = concat (done_ ++ rest) ->
  js_get path (js_len (concat done_)) = Some x -> pi_unk x = 0 /\ pi_w x <= js_len done_.
Proof.
  intros [Hmw Hle] Hlen. revert rest x. induction done_ as [|w0 ws IH] using rev_ind; intros rest x Hw Ht Hx.
  - destruct (Hmw _ _ Hx) as (_ & _ & H0). destruct H0 as [-> ->]; done.
  - rewrite <- app_assoc in Hw, Ht. rewrite concat_app in Hx. cbn in Hx. rewrite app_nil_r in Hx.
    assert (w0 <> [] /\ w0 ∈ dict) as [Hne Hin].
    { rewrite Forall_forall in Hw. apply Hw. set_solver. }
    assert (js_len text = js_len (concat ws) + (js_len w0 + js_len (concat rest))) as Htl.
    { rewrite Ht, concat_app. cbn. by rewrite !js_len_app. }
    pose proof (js_len_nonneg (concat ws)). pose proof (js_len_nonneg (concat rest)).
    assert (0 < js_len w0) by (destruct w0; [done|]; rewrite js_len_cons; pose proof (js_len_nonneg w0); lia).
    destruct (js_get_range path (js_len (concat ws))) as [y Hy]; [lia|].
    destruct (IH ([w0] ++ rest) y) as [Hu Hwy]; [done|done|done|].
    rewrite js_len_app in Hx.
    destruct (Hmw _ _ Hx) as (_ & Hux & _).
    destruct (Hle (js_len (concat ws)) (js_len (concat ws) + js_len w0) x y) as [?|[? ?]]; try done; try lia.
    + replace (js_slice text _ _) with w0; [done|].
      rewrite js_slice_in by lia. rewrite Ht, concat_app. cbn. unfold js_len.
      rewrite Nat2Z.id, drop_app_length.
      replace (Z.to_nat _) with (length w0) by lia. by rewrite take_app_length.
    + rewrite js_len_app. unfold js_len at 2. cbn. lia.
Qed.
End optimal.

Lemma cut_words txt ws text words :
  Forall (fun w => w <> [] /\ w ∈ loaded_words txt ws) words -> text = concat words ->
  exists path info, buildPath (Wordcut_init txt ws) text = Ret path /\
    js_get path (js_len text) = Some info /\ pi_unk info = 0 /\ pi_w info <= js_len words.
Proof.
  intros Hw Ht. set (d := dict_init txt ws).
  destruct (buildPath_opt d text (dict_init_sorted txt ws) (Wordcut_init txt ws))
    as (path & Hb & Hlen & Ho); [apply Wordcut_init_creators|set_solver|].
  pose proof (js_len_nonneg text).
  destruct (js_get_range path (js_len text)) as [info Hi]; [lia|].
  exists path, info. split; [done|]. split; [done|].
  apply (path_opt_words d text (dict_init_sorted txt ws) path words [] info);
    rewrite ?app_nil_r; try done.
  - eapply Forall_impl; [exact Hw|]. intros w [? ?].
    split; [done|]. by apply elem_of_dict_init.
  - by rewrite <- Ht.
Qed.

(** ** Results *)

(** C1: cutting loses and invents nothing.  For every word file, every list of
    extra words and every text, [cutIntoArray] returns without throwing, all its
    tokens are non-empty and their concatenation is the text. *)
Theorem cutIntoArray_partitions (words_text : jsstr) (words : option (list jsstr)) (text : jsstr) :
  exists toks, cutIntoArray (Wordcut_init words_text words) text = Ret toks /\
    concat toks = text /\ Forall (fun t => t <> []) toks.
Proof.
  destruct (Wordcut_ranges words_text words text) as (path & ranges & Hb & _ & Hr & Ht).
  unfold cutIntoArray. rewrite Hb. cbn. rewrite Hr. cbn. eexists; split; [done|].
  destruct (tiles_text text 0 ranges) as [-> Hne]; [lia|done|]. split; [|done].
  apply js_slice_full.
Qed.

(** [cutIntoRanges] returns consecutive non-empty ranges from 0 to the length
    of the text, [cutIntoArray] their substrings and [cut] those substrings
    joined by the delimiter, a vertical bar when none is given. *)
Theorem cut_variants_agree (words_text : jsstr) (words : option (list jsstr)) (text : jsstr)
    (delimiter : option jsstr) (noText : bool) :
  exists ranges, tiles 0 ranges (js_len text) /\
    cutIntoRanges (Wordcut_init words_text words) text noText =
      Ret (map (fun r => (r, if noText then None else Some (range_text text r))) ranges) /\
    cutIntoArray (Wordcut_init words_text words) text = Ret (map (range_text text) ranges) /\
    cut (Wordcut_init words_text words) text delimiter =
      Ret (js_join (default (js "|") delimiter) (map (range_text text) ranges)).
Proof.
  destruct (Wordcut_ranges words_text words text) as (path & ranges & Hb & _ & Hr & Ht).
  exists ranges. split; [done|]. unfold cutIntoRanges, cutIntoArray, cut, rangesToText.
  rewrite Hb. cbn. rewrite Hr. cbn. done.
Qed.

(** C4: every boundary has a reason.  [buildPath] returns an entry for every
    prefix of the text; the entry of prefix [e > 0] names a start [p < e], and
    unless its type is [UNK] the text from [p] to [e] is a word of that type (a
    loaded word for [DICT], a run of letters for [WORD_RULE], and so on). *)
Theorem buildPath_entries_sound (words_text : jsstr) (words : option (list jsstr)) (text : jsstr) :
  exists path, buildPath (Wordcut_init words_text words) text = Ret path /\
    js_len path = js_len text + 1 /\
    forall e info, 1 <= e -> js_get path e = Some info ->
      exists p, pi_p info = Some p /\ 0 <= p < e /\
        token_ok (dict_init words_text words) (pi_type info) (js_slice text p e).
Proof.
  destruct (Wordcut_ranges words_text words text) as (path & _ & Hb & [Hlen Hp] & _).
  exists path. split; [done|]. split; [done|]. intros e info He Hg.
  destruct (Hp e info He Hg) as (p & ? & ? & ? & _). eauto.
Qed.

(** C2: the segmentation is optimal.  If the text is a concatenation of [n]
    loaded words, the entry [buildPath] ends with counts no unknown word and at
    most [n] words: a dictionary segmentation with the fewest words is found. *)
Theorem buildPath_fewest_words (words_text : jsstr) (words : option (list jsstr))
    (text : jsstr) (cut_ : list jsstr)
    (Hwords : Forall (fun w => w <> [] /\ w ∈ loaded_words words_text words) cut_)
    (Htext : text = concat cut_) :
  exists path info, buildPath (Wordcut_init words_text words) text = Ret path /\
    js_get path (js_len text) = Some info /\ pi_unk info = 0 /\ pi_w info <= js_len cut_.
Proof. by apply cut_words. Qed.

Lemma buildPath_fewest_words_witness :
  exists path info,
    buildPath (Wordcut_init [] (Some [js "กา"; js "กาแฟ"; js "แฟน"; js "น"])) (js "กาแฟน") = Ret path /\
    js_get path (js_len (js "กาแฟน")) = Some info /\ pi_unk info = 0 /\
    pi_w info <= js_len [js "กา"; js "แฟน"].
Proof.
  apply (buildPath_fewest_words [] (Some [js "กา"; js "กาแฟ"; js "แฟน"; js "น"]) (js "กาแฟน")
           [js "กา"; js "แฟน"]).
  - repeat constructor; try (vm_compute; discriminate); vm_compute; set_solver.
  - reflexivity.
Defined.

(** [selectPath] returns the first candidate that is least by unknown words,
    then [mw], then words; it returns [null] only for an empty array. *)
Theorem selectPath_first_least (paths : list path_info) :
  match selectPath paths with
  | None => paths = []
  | Some x => exists before after, paths = before ++ x :: after /\
      (forall y, y ∈ before -> better x y = true) /\
      (forall y, y ∈ after -> better y x = false)
  end.
Proof.
  destruct (selectPath paths) as [x|] eqn:E; [by apply selectPath_split|].
  destruct paths as [|y l]; [done|]. destruct (selectPath_is_Some (y :: l)) as (x & Hx & _); congruence.
Qed.

(** An unknown character takes the last character of the known word before
    it: [leftBoundary] is set to the index of that last character and not past
    it, so a word and a question mark are cut inside the word. *)
Theorem unknown_swallows_last_char :
  cut (Wordcut_init [] None) (js "ab?") None = Ret (js "a|b?") /\
  cut (Wordcut_init [] None) (js "ab") None = Ret (js "ab").
Proof. split; vm_compute; reflexivity. Qed.

Example cut_thai :
  cutIntoArray (Wordcut_init [] (Some [js "กา"; js "กาแฟ"; js "แมว"; js "กิน"])) (js "แมวกินกาแฟ 12")
  = Ret [js "แมว"; js "กิน"; js "กาแฟ"; js " "; js "12"].
Proof. vm_compute. reflexivity. Qed.
