(* ===== verification/TinySegmenter.v ===== *)
(** * The Japanese segmenter

    docs/generated_site/assets/javascripts/lunr/tinyseg.js: a linear classifier
    slides over the text and decides before every character whether a word starts
    there, from the characters around it, their types and its last three
    decisions.  The results: segmentation is a partition of the input, the words end
    where the classifier, written as a table of templates, says so, the scores stay
    far inside the exactly representable integers, and a decision never
    depends on text further than two characters ahead. *)
From S2P Require Import Prelude JsString TinySegTables.

(** ** Character types *)

(** A regular expression of one bracket class, as its ranges. *)
Definition char_class := list (Z * Z).

Definition range_of (s : string) : Z * Z := (chr s, chr s).

(** [patterns] of the constructor, in the order its [for in] loop visits them. *)
Definition chartype_ : list (char_class * jsstr) := Eval vm_compute in
  [ (map range_of ["一"; "二"; "三"; "四"; "五"; "六"; "七"; "八"; "九"; "十";
                   "百"; "千"; "万"; "億"; "兆"]%string, js "M");
    ([(chr "一", chr "龠"); range_of "々"; range_of "〆"; range_of "ヵ"; range_of "ヶ"], js "H");
    ([(chr "ぁ", chr "ん")], js "I");
    ([(chr "ァ", chr "ヴ"); range_of "ー"; (chr "ｱ", chr "ﾝ"); range_of "ﾞ"; range_of "ｰ"], js "K");
    ([(chr "a", chr "z"); (chr "A", chr "Z"); (chr "ａ", chr "ｚ"); (chr "Ａ", chr "Ｚ")], js "A");
    ([(chr "0", chr "9"); (chr "０", chr "９")], js "N") ].

Definition in_class (cls : char_class) (c : Z) : bool :=
  existsb (fun '(lo, hi) => in_range lo hi c) cls.

(** [str.match(regexp)]: some code unit of the string is in the class. *)
Definition class_match (cls : char_class) (str : jsstr) : bool := existsb (in_class cls) str.

Fixpoint ctype_loop (l : list (char_class * jsstr)) (str : jsstr) : jsstr :=
  match l with
  | [] => js "O"
  | (cls, t) :: r => if class_match cls str then t else ctype_loop r str
  end.

Definition ctype_ (str : jsstr) : jsstr := ctype_loop chartype_ str.

(** ** Scores *)

(** [this.ts_(this.T[key])]: the weight, or 0 when the key is absent.  No key is
    longer than six units, so none is a property of Object.prototype. *)
Fixpoint prop (t : weights) (key : jsstr) : option Z :=
  match t with
  | [] => None
  | (k, v) :: r => if decide (k = key) then Some v else prop r key
  end.

Definition ts_ (v : option Z) : Z := default 0 v.

(** The features of one position: each weight object with the key it is read at. *)
Definition features (p1 p2 p3 w1 w2 w3 w4 w5 w6 c1 c2 c3 c4 c5 c6 : jsstr) : list (weights * jsstr) :=
  [ (UP1__, p1); (UP2__, p2); (UP3__, p3); (BP1__, p1 ++ p2); (BP2__, p2 ++ p3);
    (UW1__, w1); (UW2__, w2); (UW3__, w3); (UW4__, w4); (UW5__, w5); (UW6__, w6);
    (BW1__, w2 ++ w3); (BW2__, w3 ++ w4); (BW3__, w4 ++ w5);
    (TW1__, w1 ++ w2 ++ w3); (TW2__, w2 ++ w3 ++ w4); (TW3__, w3 ++ w4 ++ w5);
    (TW4__, w4 ++ w5 ++ w6);
    (UC1__, c1); (UC2__, c2); (UC3__, c3); (UC4__, c4); (UC5__, c5); (UC6__, c6);
    (BC1__, c2 ++ c3); (BC2__, c3 ++ c4); (BC3__, c4 ++ c5);
    (TC1__, c1 ++ c2 ++ c3); (TC2__, c2 ++ c3 ++ c4); (TC3__, c3 ++ c4 ++ c5);
    (TC4__, c4 ++ c5 ++ c6);
    (UQ1__, p1 ++ c1); (UQ2__, p2 ++ c2); (UQ3__, p3 ++ c3);
    (BQ1__, p2 ++ c2 ++ c3); (BQ2__, p2 ++ c3 ++ c4); (BQ3__, p3 ++ c2 ++ c3);
    (BQ4__, p3 ++ c3 ++ c4);
    (TQ1__, p2 ++ c1 ++ c2 ++ c3); (TQ2__, p2 ++ c2 ++ c3 ++ c4);
    (TQ3__, p3 ++ c1 ++ c2 ++ c3); (TQ4__, p3 ++ c2 ++ c3 ++ c4) ].

Definition add_feature (score : Z) (f : weights * jsstr) : Z := score + ts_ (prop f.1 f.2).

Definition seg_score (p1 p2 p3 w1 w2 w3 w4 w5 w6 c1 c2 c3 c4 c5 c6 : jsstr) : Z :=
  foldl add_feature BIAS__ (features p1 p2 p3 w1 w2 w3 w4 w5 w6 c1 c2 c3 c4 c5 c6).

(** ** Segmentation *)

(** [a[i]] in a string context: [undefined] would read as its name. *)
Definition str_at (a : list jsstr) (i : Z) : jsstr := default (js "undefined") (js_get a i).

Record seg_state : Type := SegState {
  sg_result : list jsstr;
  sg_word : jsstr;
  sg_p1 : jsstr;
  sg_p2 : jsstr;
  sg_p3 : jsstr
}.

(** The body of the main loop at index [i]. *)
Definition segment_step (seg ctype : list jsstr) (st : seg_state) (i : Z) : seg_state :=
  let score := seg_score (sg_p1 st) (sg_p2 st) (sg_p3 st)
    (str_at seg (i - 3)) (str_at seg (i - 2)) (str_at seg (i - 1))
    (str_at seg i) (str_at seg (i + 1)) (str_at seg (i + 2))
    (str_at ctype (i - 3)) (str_at ctype (i - 2)) (str_at ctype (i - 1))
    (str_at ctype i) (str_at ctype (i + 1)) (str_at ctype (i + 2)) in
  if 0 <? score
  then SegState (sg_result st ++ [sg_word st]) ([] ++ str_at seg i) (sg_p2 st) (sg_p3 st) (js "B")
  else SegState (sg_result st) (sg_word st ++ str_at seg i) (sg_p2 st) (sg_p3 st) (js "O").

Definition seg_of (o : list jsstr) : list jsstr :=
  [js "B3"; js "B2"; js "B1"] ++ o ++ [js "E1"; js "E2"; js "E3"].

Definition ctype_of (o : list jsstr) : list jsstr :=
  [js "O"; js "O"; js "O"] ++ map ctype_ o ++ [js "O"; js "O"; js "O"].

(** [input.split("")]: one string per code unit. *)
Definition split_units (s : jsstr) : list jsstr := map (fun c => [c]) s.

(** [segment(input)]; [None] is [null] or [undefined]. *)
Definition segment (input : option jsstr) : list jsstr :=
  match input with
  | None => []
  | Some [] => []
  | Some s =>
      let o := split_units s in
      let seg := seg_of o in
      let ctype := ctype_of o in
      let st := foldl (segment_step seg ctype)
                  (SegState [] (str_at seg 3) (js "U") (js "U") (js "U"))
                  (seqZ 4 (js_len seg - 3 - 4)) in
      sg_result st ++ [sg_word st]
  end.

(** ** The scores are small *)
Definition weight_max : Z := 32768.

Definition small_table (t : weights) : bool := forallb (fun kv => Z.abs kv.2 <=? weight_max) t.

Lemma prop_small t key : small_table t = true -> Z.abs (ts_ (prop t key)) <= weight_max.
Proof.
  unfold small_table, ts_. induction t as [|[k v] t IH]; cbn; [unfold weight_max; lia|].
  intros H. bool_props. case_decide; cbn; [lia|auto].
Qed.

Lemma features_small p1 p2 p3 w1 w2 w3 w4 w5 w6 c1 c2 c3 c4 c5 c6 :
  Forall (fun f => small_table f.1 = true)
    (features p1 p2 p3 w1 w2 w3 w4 w5 w6 c1 c2 c3 c4 c5 c6).
Proof. unfold features. repeat (constructor; [vm_compute; reflexivity|]). constructor. Qed.

Lemma foldl_small s l :
  Forall (fun f => small_table f.1 = true) l ->
  Z.abs (foldl add_feature s l) <= Z.abs s + js_len l * weight_max.
Proof.
  intros H. revert s. induction H as [|f l Hf H IH]; intros s; cbn [foldl].
  - unfold js_len. cbn. lia.
  - specialize (IH (add_feature s f)). pose proof (prop_small f.1 f.2 Hf).
    unfold add_feature in *. rewrite js_len_cons. lia.
Qed.

(** ** The input array *)
Lemma str_at_seg s i : 3 <= i < 3 + js_len s -> exists c, str_at (seg_of (split_units s)) i = [c] /\ js_get s (i - 3) = Some c.
Proof.
  intros Hi. unfold str_at, seg_of.
  rewrite js_get_app_r by (unfold js_len; cbn; lia). change (js_len _) with 3 at 1.
  assert (js_len (split_units s) = js_len s) as Hl by (unfold js_len, split_units; by rewrite length_map).
  rewrite js_get_app_l by lia. destruct (js_get_range s (i - 3)) as [c Hc]; [lia|].
  exists c. split; [|done]. unfold js_get in *. case_match; [done|].
  unfold split_units. rewrite list_lookup_fmap, Hc. done.
Qed.

Lemma js_len_seg s : js_len (seg_of (split_units s)) = js_len s + 6.
Proof.
  unfold seg_of. rewrite !js_len_app. unfold split_units, js_len. rewrite length_map. cbn. lia.
Qed.

(** ** Segmentation is a partition *)
Definition seg_inv (s : jsstr) (i : Z) (st : seg_state) : Prop :=
  concat (sg_result st) ++ sg_word st = js_slice s 0 (i - 3) /\ sg_word st <> [] /\
  Forall (fun t => t <> []) (sg_result st).

Lemma segment_step_inv s ctype st i :
  4 <= i < 3 + js_len s -> seg_inv s i st ->
  seg_inv s (i + 1) (segment_step (seg_of (split_units s)) ctype st i).
Proof.
  intros Hi (Hc & Hw & Hr). destruct (str_at_seg s i) as (c & Hs & Hg); [lia|].
  unfold segment_step. rewrite Hs.
  case_match; unfold seg_inv; cbn [sg_result sg_word];
    replace (i + 1 - 3) with (i - 3 + 1) by lia.
  - rewrite concat_app. cbn. rewrite app_nil_r, Hc, (js_slice_snoc s 0 (i - 3)) by (done || lia).
    split; [done|]. split; [done|]. apply Forall_app. split; [done|]. by constructor.
  - rewrite app_assoc, Hc, (js_slice_snoc s 0 (i - 3)) by (done || lia).
    split; [done|]. split; [by destruct (sg_word st)|done].
Qed.

Lemma segment_run_inv s ctype m :
  4 <= m <= 3 + js_len s ->
  seg_inv s m (foldl (segment_step (seg_of (split_units s)) ctype)
                 (SegState [] (str_at (seg_of (split_units s)) 3) (js "U") (js "U") (js "U"))
                 (seqZ 4 (m - 4))).
Proof.
  intros Hm. apply foldl_seqZ_inv; [lia| |].
  - destruct (str_at_seg s 3) as (c & Hs & Hg); [lia|]. unfold seg_inv. cbn [sg_result sg_word].
    rewrite Hs. split; [|done]. cbn. rewrite js_slice_in by lia. replace (3 - 3) with 0 in * by done.
    destruct s as [|x s]; [done|]. unfold js_get in Hg. cbn in Hg. by injection Hg as ->.
  - intros i st Hi. apply segment_step_inv. lia.
Qed.

Lemma segment_partition s : concat (segment (Some s)) = s /\ Forall (fun t => t <> []) (segment (Some s)).
Proof.
  destruct s as [|c s]; [done|]. unfold segment. rewrite js_len_seg.
  pose proof (js_len_nonneg s). set (t := c :: s).
  assert (js_len t = 1 + js_len s) as Hl by apply js_len_cons.
  replace (js_len t + 6 - 3 - 4) with (3 + js_len t - 4) by lia.
  destruct (segment_run_inv t (ctype_of (split_units t)) (3 + js_len t)) as (Hc & Hw & Hr); [lia|].
  split.
  - rewrite concat_app. cbn [concat]. rewrite app_nil_r, Hc.
    replace (3 + js_len t - 3) with (js_len t) by lia. apply js_slice_full.
  - apply Forall_app. split; [done|]. by constructor.
Qed.

(** ** Look-ahead *)
Lemma str_at_seg_app s t i :
  i < 3 + js_len s ->
  str_at (seg_of (split_units s)) i = str_at (seg_of (split_units (s ++ t))) i.
Proof.
  intros Hi. unfold str_at. f_equal. unfold seg_of, split_units. rewrite map_app.
  set (pre := [js "B3"; js "B2"; js "B1"]). rewrite <- !app_assoc, !(app_assoc pre).
  assert (js_len (pre ++ map (fun c => [c]) s) = 3 + js_len s) as Hl.
  { rewrite js_len_app. unfold js_len. by rewrite length_map. }
  by rewrite !(js_get_app_l (pre ++ _)) by lia.
Qed.

Lemma str_at_ctype_app s t i :
  i < 3 + js_len s ->
  str_at (ctype_of (split_units s)) i = str_at (ctype_of (split_units (s ++ t))) i.
Proof.
  intros Hi. unfold str_at. f_equal. unfold ctype_of, split_units. rewrite !map_app.
  set (pre := [js "O"; js "O"; js "O"]). rewrite <- !app_assoc, !(app_assoc pre).
  assert (js_len (pre ++ map ctype_ (map (fun c => [c]) s)) = 3 + js_len s) as Hl.
  { rewrite js_len_app. unfold js_len. by rewrite !length_map. }
  by rewrite !(js_get_app_l (pre ++ _)) by lia.
Qed.

(** The loop of [segment] run up to index [m]. *)
Definition seg_run (s : jsstr) (m : Z) : seg_state :=
  foldl (segment_step (seg_of (split_units s)) (ctype_of (split_units s)))
    (SegState [] (str_at (seg_of (split_units s)) 3) (js "U") (js "U") (js "U")) (seqZ 4 (m - 4)).

(** Index [i] is decided by [seg[i - 3 .. i + 2]]: up to [m <= length s + 1] the
    loop has not seen past the text [s] yet. *)
Lemma seg_run_app s t m : s <> [] -> m <= js_len s + 1 -> seg_run s m = seg_run (s ++ t) m.
Proof.
  intros Hs Hm. unfold seg_run.
  rewrite <- (str_at_seg_app s t 3).
  2: { destruct s; [done|]. rewrite js_len_cons. pose proof (js_len_nonneg s). lia. }
  assert (forall l st, Forall (fun i => i <= js_len s) l ->
    foldl (segment_step (seg_of (split_units s)) (ctype_of (split_units s))) st l =
    foldl (segment_step (seg_of (split_units (s ++ t))) (ctype_of (split_units (s ++ t)))) st l) as H.
  { intros l st Hl. revert st. induction Hl as [|i l Hi Hl IH]; intros st; cbn [foldl]; [done|].
    rewrite IH. f_equal. unfold segment_step.
    rewrite <- !(str_at_seg_app s t), <- !(str_at_ctype_app s t) by lia. done. }
  apply H, Forall_forall. intros i Hi%elem_of_seqZ. lia.
Qed.

Lemma segment_run s : s <> [] -> segment (Some s) = sg_result (seg_run s (3 + js_len s)) ++ [sg_word (seg_run s (3 + js_len s))].
Proof.
  intros Hs. destruct s as [|c s]; [done|]. unfold segment, seg_run. rewrite js_len_seg.
  by replace (js_len (c :: s) + 6 - 3 - 4) with (3 + js_len (c :: s) - 4) by lia.
Qed.

(** Ends of the tokens of a segmentation that starts at [a]. *)
Fixpoint bounds (a : Z) (toks : list jsstr) : list Z :=
  match toks with
  | [] => []
  | t :: r => (a + js_len t) :: bounds (a + js_len t) r
  end.

Lemma bounds_app a l k : bounds a (l ++ k) = bounds a l ++ bounds (a + js_len (concat l)) k.
Proof.
  revert a; induction l as [|t l IH]; intros a; cbn.
  - unfold js_len. cbn. by rewrite Z.add_0_r.
  - rewrite IH, js_len_app. do 3 f_equal. lia.
Qed.

Lemma bounds_ge a t l b : b ∈ bounds a (t :: l) -> a + js_len t <= b.
Proof.
  revert a t; induction l as [|u l IH]; intros a t; cbn.
  - intros ->%list_elem_of_singleton. lia.
  - intros [->|H]%elem_of_cons; [lia|]. apply IH in H. pose proof (js_len_nonneg u). lia.
Qed.

(** Running on from index [m] only appends tokens, the first of which extends
    the word open at [m]. *)
Lemma seg_run_extends s m n :
  4 <= m <= n ->
  exists t l, sg_result (seg_run s n) ++ [sg_word (seg_run s n)] = sg_result (seg_run s m) ++ t :: l /\
    js_len (sg_word (seg_run s m)) <= js_len t.
Proof.
  intros Hmn. unfold seg_run at 1 2.
  replace (n - 4) with ((m - 4) + (n - m)) by lia. rewrite seqZ_app, foldl_app by lia.
  fold (seg_run s m). replace (4 + (m - 4)) with m by lia.
  apply (foldl_seqZ_inv (fun _ st => exists t l,
    sg_result st ++ [sg_word st] = sg_result (seg_run s m) ++ t :: l /\
    js_len (sg_word (seg_run s m)) <= js_len t)); [lia|by eexists _, []|].
  intros i st _ (t & l & E & Hl). unfold segment_step. case_match; cbn [sg_result sg_word].
  - exists t, (l ++ [[] ++ str_at (seg_of (split_units s)) i]). split; [|done].
    rewrite E, <- app_assoc. done.
  - destruct l as [|u l _] using rev_ind.
    + apply app_inj_tail in E as [-> ->]. eexists _, []. split; [done|].
      rewrite js_len_app. pose proof (js_len_nonneg (str_at (seg_of (split_units s)) i)). lia.
    + rewrite app_comm_cons, app_assoc in E. apply app_inj_tail in E as [-> ->].
      rewrite <- app_assoc. cbn. by eauto.
Qed.

Lemma segment_bounds s m b :
  s <> [] -> 4 <= m <= 3 + js_len s -> b < m - 3 ->
  b ∈ bounds 0 (segment (Some s)) <-> b ∈ bounds 0 (sg_result (seg_run s m)).
Proof.
  intros Hs Hm Hb. rewrite segment_run by done.
  destruct (seg_run_extends s m (3 + js_len s)) as (t & l & -> & Hl); [lia|].
  rewrite bounds_app, elem_of_app. split; [|by left]. intros [H|H]; [done|].
  apply bounds_ge in H. exfalso.
  destruct (segment_run_inv s (ctype_of (split_units s)) m) as (Hc & _); [lia|].
  apply (f_equal js_len) in Hc. rewrite js_len_app, js_slice_len in Hc by lia.
  unfold seg_run in *. lia.
Qed.

(** ** The classifier *)

(** The classifier as a formula: [n]-grams of the characters around a position, of their
    types and of the decisions before it, by their offsets from the position. *)
Record template : Type := Template { tm_weights : weights; tm_tags : list Z; tm_chars : list Z; tm_kinds : list Z }.

(** The grams of length [n] that start at [start], [start + 1], ... *)
Definition grams (n start : Z) (ws : list weights) : list (weights * list Z) :=
  imap (fun k w => (w, seqZ (start + Z.of_nat k) n)) ws.

Definition templates : list template :=
  map (fun '(w, os) => Template w os [] []) (grams 1 (-3) [UP1__; UP2__; UP3__] ++ grams 2 (-3) [BP1__; BP2__]) ++
  map (fun '(w, os) => Template w [] os [])
    (grams 1 (-3) [UW1__; UW2__; UW3__; UW4__; UW5__; UW6__] ++ grams 2 (-2) [BW1__; BW2__; BW3__] ++
     grams 3 (-3) [TW1__; TW2__; TW3__; TW4__]) ++
  map (fun '(w, os) => Template w [] [] os)
    (grams 1 (-3) [UC1__; UC2__; UC3__; UC4__; UC5__; UC6__] ++ grams 2 (-2) [BC1__; BC2__; BC3__] ++
     grams 3 (-3) [TC1__; TC2__; TC3__; TC4__]) ++
  map (fun '(w, os) => Template w os [] os) (grams 1 (-3) [UQ1__; UQ2__; UQ3__]) ++
  map (fun '(w, os) => Template w [-2] [] os) (grams 2 (-2) [BQ1__; BQ2__]) ++
  map (fun '(w, os) => Template w [-1] [] os) (grams 2 (-2) [BQ3__; BQ4__]) ++
  map (fun '(w, os) => Template w [-2] [] os) (grams 3 (-3) [TQ1__; TQ2__]) ++
  map (fun '(w, os) => Template w [-1] [] os) (grams 3 (-3) [TQ3__; TQ4__]).

(** The characters of the text, with names for the places before and after it. *)
Definition char_name (s : jsstr) (j : Z) : jsstr :=
  if j <? 0 then js "B" ++ [chr "0" - j] else
  match js_get s j with Some c => [c] | None => js "E" ++ [chr "0" + (j - js_len s + 1)] end.

Definition char_kind (s : jsstr) (j : Z) : jsstr := match js_get s j with Some c => ctype_ [c] | None => js "O" end.

(** The decision [k] positions back, of a history whose newest decision comes first. *)
Definition tag_back (history : list jsstr) (o : Z) : jsstr := nth (Z.to_nat (- o - 1)) history (js "U").

(** The weight of the gram that a template finds. *)
Definition template_weight (tag name kind : Z -> jsstr) (t : template) : Z :=
  default 0 (prop (tm_weights t)
    (concat (map tag (tm_tags t)) ++ concat (map name (tm_chars t)) ++ concat (map kind (tm_kinds t)))).

Definition linear (tag name kind : Z -> jsstr) : Z := BIAS__ + foldr Z.add 0 (map (template_weight tag name kind) templates).

Definition linear_score (s : jsstr) (history : list jsstr) (i : Z) : Z :=
  linear (tag_back history) (fun o => char_name s (i + o)) (fun o => char_kind s (i + o)).

(** The decisions before the positions 1 to [n], newest first: B where a word starts. *)
Fixpoint decisions (s : jsstr) (n : nat) : list jsstr :=
  match n with
  | O => []
  | S m => let history := decisions s m in
      (if 0 <? linear_score s history (Z.of_nat n) then js "B" else js "O") :: history
  end.

Definition word_starts (s : jsstr) (b : Z) : Prop := 0 < linear_score s (decisions s (Z.to_nat b - 1)) b.

Lemma foldl_weights b l : foldl add_feature b l = b + foldr Z.add 0 (map (fun f : weights * jsstr => ts_ (prop f.1 f.2)) l).
Proof. revert b. induction l as [|f l IH]; intros b; cbn -[prop]; [lia|]. rewrite IH. unfold add_feature. lia. Qed.

Lemma gram_weight w key tag name kind t : tm_weights t = w ->
  concat (map tag (tm_tags t)) ++ concat (map name (tm_chars t)) ++ concat (map kind (tm_kinds t)) = key ->
  ts_ (prop w key) = template_weight tag name kind t.
Proof. intros <- <-. done. Qed.

(** The sum of [segment] is the one of the templates. *)
Lemma seg_score_linear (tag name kind : Z -> jsstr) :
  seg_score (tag (-3)) (tag (-2)) (tag (-1)) (name (-3)) (name (-2)) (name (-1)) (name 0) (name 1) (name 2)
    (kind (-3)) (kind (-2)) (kind (-1)) (kind 0) (kind 1) (kind 2) = linear tag name kind.
Proof.
  unfold seg_score, linear. rewrite foldl_weights. do 2 f_equal. unfold templates, features. rewrite !map_app.
  cbn [grams imap map app].
  repeat (apply (f_equal2 cons); [apply gram_weight; [reflexivity|cbv -[app]; by rewrite ?app_nil_r]|]). done.
Qed.

(** The arrays of [segment] are the names and the kinds. *)
Lemma str_at_name s j : -3 <= j < js_len s + 3 -> str_at (seg_of (split_units s)) (j + 3) = char_name s j.
Proof.
  intros Hj. unfold char_name. destruct (Z.ltb_spec j 0) as [Hn|Hp].
  { assert (j = -3 \/ j = -2 \/ j = -1) as [->|[->| ->]] by lia; done. }
  destruct (js_get s j) as [c|] eqn:Hc.
  - pose proof (js_get_Some_range _ _ _ Hc). destruct (str_at_seg s (j + 3)) as (c' & -> & Hc'); [lia|].
    replace (j + 3 - 3) with j in Hc' by lia. congruence.
  - apply js_get_None_range in Hc. destruct Hc as [Hc|Hc]; [lia|]. unfold str_at, seg_of. rewrite app_assoc.
    assert (js_len ([js "B3"; js "B2"; js "B1"] ++ split_units s) = 3 + js_len s) as Hl.
    { rewrite js_len_app. unfold js_len, split_units. by rewrite length_map. }
    rewrite js_get_app_r, Hl by lia. replace (j + 3 - (3 + js_len s)) with (j - js_len s) by lia.
    assert (j - js_len s = 0 \/ j - js_len s = 1 \/ j - js_len s = 2) as [->|[->| ->]] by lia; done.
Qed.

Lemma str_at_kind s j : -3 <= j < js_len s + 3 -> str_at (ctype_of (split_units s)) (j + 3) = char_kind s j.
Proof.
  intros Hj. unfold char_kind, str_at, ctype_of. unfold split_units. rewrite map_map.
  assert (forall i, 0 <= i < 3 -> js_get [js "O"; js "O"; js "O"] i = Some (js "O")) as HO.
  { intros i Hi. assert (i = 0 \/ i = 1 \/ i = 2) as [->|[->| ->]] by lia; done. }
  assert (js_len (map (fun c => ctype_ [c]) s) = js_len s) as Hl by (unfold js_len; by rewrite length_map).
  destruct (js_get s j) as [c|] eqn:Hc.
  - pose proof (js_get_Some_range _ _ _ Hc). rewrite js_get_app_r by (unfold js_len; cbn; lia).
    change (js_len [js "O"; js "O"; js "O"]) with 3. replace (j + 3 - 3) with j by lia. rewrite js_get_app_l by lia.
    unfold js_get in *. case_match; [done|]. by rewrite list_lookup_fmap, Hc.
  - apply js_get_None_range in Hc. destruct Hc as [Hc|Hc].
    + rewrite js_get_app_l by (unfold js_len; cbn; lia). by rewrite HO by lia.
    + rewrite js_get_app_r by (unfold js_len in *; cbn; lia). change (js_len [js "O"; js "O"; js "O"]) with 3.
      replace (j + 3 - 3) with j by lia. rewrite js_get_app_r by lia. rewrite Hl. by rewrite HO by lia.
Qed.

Lemma segment_step_score s h j : 1 <= j < js_len s ->
  let w o := str_at (seg_of (split_units s)) (j + 3 + o) in
  let c o := str_at (ctype_of (split_units s)) (j + 3 + o) in
  seg_score (tag_back h (-3)) (tag_back h (-2)) (tag_back h (-1)) (w (-3)) (w (-2)) (w (-1)) (w 0) (w 1) (w 2)
    (c (-3)) (c (-2)) (c (-1)) (c 0) (c 1) (c 2) = linear_score s h j.
Proof.
  intros Hj w c. unfold linear_score. rewrite <- seg_score_linear.
  assert (forall o, -3 <= o <= 2 -> w o = char_name s (j + o) /\ c o = char_kind s (j + o)) as H.
  { intros o Ho. unfold w, c. replace (j + 3 + o) with (j + o + 3) by lia. by rewrite str_at_name, str_at_kind by lia. }
  repeat match goal with |- context [w ?o] => rewrite (proj1 (H o ltac:(lia))) | |- context [c ?o] => rewrite (proj2 (H o ltac:(lia))) end. done.
Qed.

(** The state of the loop at index [i]: the decisions before the position [i - 3]. *)
Definition decided (s : jsstr) (i : Z) (st : seg_state) : Prop :=
  let h := decisions s (Z.to_nat (i - 4)) in
  (sg_p1 st, sg_p2 st, sg_p3 st) = (tag_back h (-3), tag_back h (-2), tag_back h (-1)) /\
  forall b, b ∈ bounds 0 (sg_result st) <-> 1 <= b < i - 3 /\ word_starts s b.

Lemma segment_step_decided s st i : 4 <= i < 3 + js_len s -> seg_inv s i st -> decided s i st ->
  decided s (i + 1) (segment_step (seg_of (split_units s)) (ctype_of (split_units s)) st i).
Proof.
  intros Hi (Hc & _ & _) [[= H1 H2 H3] Hb]. set (h := decisions s (Z.to_nat (i - 4))) in *.
  assert (decisions s (Z.to_nat (i + 1 - 4)) = (if 0 <? linear_score s h (i - 3) then js "B" else js "O") :: h) as Hd.
  { replace (Z.to_nat (i + 1 - 4)) with (S (Z.to_nat (i - 4))) by lia. cbn [decisions]. fold h.
    by replace (Z.of_nat (S (Z.to_nat (i - 4)))) with (i - 3) by lia. }
  assert (forall b, 1 <= b < i + 1 - 3 /\ word_starts s b <->
    (1 <= b < i - 3 /\ word_starts s b) \/ (b = i - 3 /\ 0 < linear_score s h (i - 3))) as Hnext.
  { intros b. assert (word_starts s (i - 3) <-> 0 < linear_score s h (i - 3)) as Hw.
    { unfold word_starts, h. by replace (Z.to_nat (i - 3) - 1)%nat with (Z.to_nat (i - 4)) by lia. }
    destruct (decide (b = i - 3)) as [->|]; [rewrite Hw; lia|]. split; [intros [? ?]; left; split; [lia|done]|].
    intros [[? ?]|[? ?]]; [split; [lia|done]|done]. }
  pose proof (segment_step_score s h (i - 3) ltac:(lia)) as Hs. cbv zeta in Hs. replace (i - 3 + 3) with i in Hs by lia.
  unfold decided, segment_step. rewrite Hd, H1, H2, H3.
  change (i + -3) with (i - 3) in Hs. change (i + -2) with (i - 2) in Hs. change (i + -1) with (i - 1) in Hs. rewrite !Z.add_0_r in Hs. rewrite Hs.
  assert (forall b, b ∈ bounds 0 (sg_result st ++ [sg_word st]) <-> b ∈ bounds 0 (sg_result st) \/ b = i - 3) as Hsnoc.
  { intros b. rewrite bounds_app, elem_of_app. cbn [bounds]. rewrite list_elem_of_singleton.
    apply (f_equal js_len) in Hc. rewrite js_len_app, js_slice_len in Hc by lia. by replace (0 + js_len (concat (sg_result st)) + js_len (sg_word st)) with (i - 3) by lia. }
  destruct (Z.ltb_spec 0 (linear_score s h (i - 3))) as [Hp|Hp]; cbn [sg_p1 sg_p2 sg_p3 sg_result]; (split; [done|]); intros b; rewrite Hnext.
  - rewrite Hsnoc, Hb. naive_solver.
  - rewrite Hb. naive_solver lia.
Qed.

Lemma segment_decided s b : s <> [] ->
  b ∈ bounds 0 (segment (Some s)) <-> (1 <= b < js_len s /\ word_starts s b) \/ b = js_len s.
Proof.
  intros Hs. assert (1 <= js_len s) as Hl by (destruct s; [done|]; rewrite js_len_cons; pose proof (js_len_nonneg s); lia).
  rewrite segment_run by done.
  assert (seg_inv s (3 + js_len s) (seg_run s (3 + js_len s)) /\ decided s (3 + js_len s) (seg_run s (3 + js_len s))) as [(Hc & _ & _) [_ Hb]].
  { unfold seg_run. apply (foldl_seqZ_inv (fun i st => seg_inv s i st /\ decided s i st)); [lia| |].
    - split; [apply (segment_run_inv s [] 4); lia|]. split; [done|]. intros b'. cbn. rewrite elem_of_nil. lia.
    - intros i st Hi [H1 H2]. split; [apply segment_step_inv; [lia|done]|apply segment_step_decided; [lia|done|done]]. }
  rewrite bounds_app, elem_of_app, Hb. replace (3 + js_len s - 3) with (js_len s) in * by lia. cbn [bounds]. rewrite list_elem_of_singleton.
  apply (f_equal js_len) in Hc. rewrite js_len_app, js_slice_len in Hc by lia.
  by replace (0 + js_len (concat (sg_result (seg_run s (3 + js_len s)))) + js_len (sg_word (seg_run s (3 + js_len s)))) with (js_len s) by lia.
Qed.

(** ** Results *)

(** C5: segmentation is a partition.  For every text, [segment] returns non-empty
    words whose concatenation is the text; [null], [undefined] and the empty
    string give no word, and any other text at least one. *)
Theorem segment_partitions (input : option jsstr) :
  concat (segment input) = default [] input /\
  Forall (fun t => t <> []) (segment input) /\
  (segment input = [] <-> default [] input = []).
Proof.
  destruct input as [s|]; [|done]. destruct (segment_partition s) as [Hc Hn].
  split; [done|]. split; [done|]. change (default [] (Some s)) with s. split; [|by intros ->].
  intros E. by rewrite E in Hc.
Qed.

(** Scores stay exact.  Whatever the features, the score and every partial sum
    on the way to it is below 2^53 in magnitude, so adding the weights in double
    precision is integer addition. *)
Theorem score_exact (k : nat) (p1 p2 p3 w1 w2 w3 w4 w5 w6 c1 c2 c3 c4 c5 c6 : jsstr) :
  Z.abs (foldl add_feature BIAS__
           (take k (features p1 p2 p3 w1 w2 w3 w4 w5 w6 c1 c2 c3 c4 c5 c6))) < 2 ^ 53 /\
  Z.abs (seg_score p1 p2 p3 w1 w2 w3 w4 w5 w6 c1 c2 c3 c4 c5 c6) <= 332 + 42 * weight_max.
Proof.
  set (fs := features _ _ _ _ _ _ _ _ _ _ _ _ _ _ _).
  pose proof (features_small p1 p2 p3 w1 w2 w3 w4 w5 w6 c1 c2 c3 c4 c5 c6) as Hf. fold fs in Hf.
  assert (js_len fs = 42) as Hl by reflexivity. split.
  - pose proof (foldl_small BIAS__ (take k fs) (Forall_take _ _ _ Hf)) as H.
    assert (js_len (take k fs) <= 42) by (unfold js_len in *; rewrite length_take; lia).
    unfold BIAS__, weight_max in *. lia.
  - pose proof (foldl_small BIAS__ fs Hf) as H. rewrite Hl in H. exact H.
Qed.

(** C7: [segment] is the linear classifier.  For every text, a word ends before the position
    [b] inside it exactly when the classifier's formula is positive there: the bias and the
    weights of the grams of characters, types and earlier decisions around [b], each found
    at its own offsets; and the last word ends with the text. *)
Theorem segment_classifies (s : jsstr) (b : Z) :
  b ∈ bounds 0 (segment (Some s)) <->
  s <> [] /\ ((1 <= b < js_len s /\ word_starts s b) \/ b = js_len s).
Proof.
  destruct s as [|c s]; [cbn; rewrite elem_of_nil; tauto|]. rewrite segment_decided by done. naive_solver.
Qed.

(** C6: bounded look-ahead.  Appending text never changes a boundary that lies at
    least three characters before the old end. *)
Theorem segment_lookahead (s t : jsstr) (b : Z) (Hb : b <= js_len s - 3) :
  b ∈ bounds 0 (segment (Some s)) <-> b ∈ bounds 0 (segment (Some (s ++ t))).
Proof.
  destruct (decide (b <= 0)) as [Hneg|Hpos].
  - assert (forall u, ~ b ∈ bounds 0 (segment (Some u))) as H; [|naive_solver].
    intros u Hin. destruct (segment_partition u) as [_ Hn].
    destruct (segment (Some u)) as [|x l]; [by apply not_elem_of_nil in Hin|].
    apply bounds_ge in Hin. apply Forall_cons in Hn as [Hx _].
    destruct x; [done|]. rewrite js_len_cons in Hin. pose proof (js_len_nonneg x). lia.
  - assert (s <> []) as Hs by (intros ->; unfold js_len in Hb; cbn in Hb; lia).
    rewrite (segment_bounds s (js_len s + 1)) by (done || lia).
    rewrite (segment_bounds (s ++ t) (js_len s + 1));
      [|by destruct s|rewrite js_len_app; pose proof (js_len_nonneg t); lia|lia].
    by rewrite <- (seg_run_app s t) by (done || lia).
Qed.

Lemma segment_lookahead_witness :
  3 ∈ bounds 0 (segment (Some (js "これは本です"))) <->
  3 ∈ bounds 0 (segment (Some (js "これは本です" ++ js "か"))).
Proof. apply segment_lookahead. vm_compute. discriminate. Defined.

Example segment_example :
  segment (Some (js "私の名前は中野です")) = map js ["私"; "の"; "名前"; "は"; "中野"; "です"]%string.
Proof. vm_compute. reflexivity. Qed.
