(* ===== verification/Events.v ===== *)
(** * Event emitters

    Module 14 (events) of docs/generated_site/assets/javascripts/lunr/wordcut.js.
    Listeners are client code: [body] gives, for a client function and its
    arguments, the emitter calls it makes, so listeners may add, remove, emit and
    throw while an event is being delivered.  The results: the table of handlers
    implements a list of listeners per event type, delivery goes to exactly the
    listeners registered when it starts, in order, and a listener added with
    [once] is never run twice. *)
From S2P Require Import Prelude JsState.

(** ** Values, functions and the emitter object *)
Inductive jsval : Type :=
| VStr (s : string)
| VNum (n : Z)
| VErr (e : js_error)
| VFn (f : nat)
| VOther.

(** A function object: client code, or the closure [g] of [once] with its
    variables. *)
Inductive fobj : Type :=
| FUser (n : nat)
| FOnce (type : string) (listener : nat) (fired : bool).

(** [_events[type]]: a function, or an array of functions. *)
Inductive handler : Type := HFn (f : nat) | HArr (loc : nat).

(** What can be observed: a listener called by an emission at nesting depth [d],
    the client function of a [once] closure run, a leak warning. *)
Inductive log_entry : Type :=
| LCall (d : nat) (f : nat) (args : list jsval)
| LOnce (g : nat)
| LWarn (type : string) (n : Z).

Record emitter : Type := Emitter {
  events : option (list (string * handler));   (* _events, in insertion order *)
  arrays : list (list nat * bool);             (* listener arrays and their warned mark *)
  fns : list fobj;
  maxListeners : option Z;
  elog : list log_entry
}.

Definition defaultMaxListeners : Z := 10.

Definition set_events e (s : emitter) := Emitter e (arrays s) (fns s) (maxListeners s) (elog s).
Definition set_arrays a (s : emitter) := Emitter (events s) a (fns s) (maxListeners s) (elog s).
Definition set_fns f (s : emitter) := Emitter (events s) (arrays s) f (maxListeners s) (elog s).
Definition set_max m (s : emitter) := Emitter (events s) (arrays s) (fns s) m (elog s).
Definition add_log x (s : emitter) :=
  Emitter (events s) (arrays s) (fns s) (maxListeners s) (elog s ++ [x]).

(** [EventEmitter()] on an object whose fields are those of [s]. *)
Definition EventEmitter (s : emitter) : emitter :=
  set_events (Some (default [] (events s))) s.

Definition empty_emitter : emitter := EventEmitter (Emitter None [] [] None []).

(** ** The table *)
Fixpoint ev_get (l : list (string * handler)) (k : string) : option handler :=
  match l with
  | [] => None
  | (k', h) :: r => if decide (k = k') then Some h else ev_get r k
  end.

Fixpoint ev_set (l : list (string * handler)) (k : string) (h : handler) : list (string * handler) :=
  match l with
  | [] => [(k, h)]
  | (k', h') :: r => if decide (k = k') then (k, h) :: r else (k', h') :: ev_set r k h
  end.

Definition ev_del (l : list (string * handler)) (k : string) : list (string * handler) :=
  List.filter (fun p => negb (bool_decide (p.1 = k))) l.

(** [this._events[k]] *)
Definition lookup_ev (s : emitter) (k : string) : option handler := ev_get (default [] (events s)) k.

Definition array_at (s : emitter) (loc : nat) : list nat * bool := default ([], false) (arrays s !! loc).

Definition update_array (loc : nat) (a : list nat * bool) (s : emitter) : emitter :=
  set_arrays (<[loc := a]> (arrays s)) s.

Definition put_ev (k : string) (h : handler) (s : emitter) : emitter :=
  set_events (Some (ev_set (default [] (events s)) k h)) s.

Definition del_ev (k : string) (s : emitter) : emitter :=
  set_events (Some (ev_del (default [] (events s)) k)) s.

Definition ensure_events (s : emitter) : emitter := set_events (Some (default [] (events s))) s.

(** [f.listener], the client function behind a [once] closure. *)
Definition inner_listener (s : emitter) (f : nat) : option nat :=
  match fns s !! f with Some (FOnce _ l _) => Some l | _ => None end.

(** [list[i] === listener || list[i].listener === listener] *)
Definition same_listener (s : emitter) (listener f : nat) : bool :=
  bool_decide (f = listener) || bool_decide (inner_listener s f = Some listener).

(** Last position at which [p] holds, scanning from the end; -1 if none. *)
Fixpoint last_position (p : nat -> bool) (l : list nat) (i : Z) : Z :=
  match l with
  | [] => -1
  | x :: r => let k := last_position p r (i + 1) in
              if 0 <=? k then k else if p x then i else -1
  end.

(** [EventEmitter.prototype.listeners] and [EventEmitter.listenerCount] *)
Definition listeners (s : emitter) (type : string) : list nat :=
  match lookup_ev s type with
  | None => []
  | Some (HFn f) => [f]
  | Some (HArr loc) => (array_at s loc).1
  end.

Definition listenerCount (s : emitter) (type : string) : Z :=
  match lookup_ev s type with
  | None => 0
  | Some (HFn _) => 1
  | Some (HArr loc) => js_len (array_at s loc).1
  end.

(** [setMaxListeners]: [None] is anything but a number. *)
Definition setMaxListeners (n : option Z) : stM emitter unit :=
  match n with
  | Some n => if n <? 0 then throw_st (TypeError "n must be a positive number")
              else modify_st (set_max (Some n))
  | None => throw_st (TypeError "n must be a positive number")
  end.

(** ** Methods that run client code *)

(** Emitter calls a listener makes.  A function argument is [None] when it is no
    function. *)
Inductive cmd : Type :=
| CEmit (type : string) (args : list jsval)
| COn (type : string) (f : option nat)
| COnce (type : string) (f : option nat)
| CRemove (type : string) (f : option nat)
| CRemoveAll (type : option string)
| CSetMax (n : option Z)
| CThrow (e : js_error).

(** The storing half of [addListener]. *)
Definition store_listener (type : string) (f : nat) (s : emitter) : emitter :=
  match lookup_ev s type with
  | None => put_ev type (HFn f) s
  | Some (HArr loc) => let a := array_at s loc in update_array loc (a.1 ++ [f], a.2) s
  | Some (HFn f0) =>
      let loc := length (arrays s) in
      put_ev type (HArr loc) (set_arrays (arrays s ++ [([f0; f], false)]) s)
  end.

(** The leak check of [addListener]. *)
Definition check_leak (type : string) (s : emitter) : emitter :=
  match lookup_ev s type with
  | Some (HArr loc) =>
      let a := array_at s loc in
      if a.2 then s else
      let m := default defaultMaxListeners (maxListeners s) in
      if negb (m =? 0) && (0 <? m) && (m <? js_len a.1)
      then add_log (LWarn type (js_len a.1)) (update_array loc (a.1, true) s)
      else s
  | _ => s
  end.

(** The unlinking half of [removeListener]: the new object and whether the
    listener was found. *)
Definition unlink_listener (type : string) (listener : nat) (s : emitter) : emitter * bool :=
  match lookup_ev s type with
  | None => (s, false)
  | Some (HFn f) => if same_listener s listener f then (del_ev type s, true) else (s, false)
  | Some (HArr loc) =>
      let a := array_at s loc in
      let position := last_position (same_listener s listener) a.1 0 in
      if position <? 0 then (s, false)
      else if js_len a.1 =? 1 then (del_ev type (update_array loc ([], a.2) s), true)
      else (update_array loc (take (Z.to_nat position) a.1 ++ drop (S (Z.to_nat position)) a.1, a.2) s, true)
  end.

(** [fired = true] in closure [g], with its run recorded. *)
Definition fire (g : nat) (s : emitter) : emitter :=
  add_log (LOnce g)
    (match fns s !! g with
     | Some (FOnce t l _) => set_fns (<[g := FOnce t l true]> (fns s)) s
     | _ => s
     end).

Definition is_fired (s : emitter) (g : nat) : bool :=
  match fns s !! g with Some (FOnce _ _ b) => b | _ => true end.

Definition new_fn (o : fobj) (s : emitter) : emitter := set_fns (fns s ++ [o]) s.

Section client.
Context (body : nat -> list jsval -> list cmd).

(** [d] is the nesting depth of deliveries. *)
Fixpoint emit (fuel d : nat) (type : string) (args : list jsval) : stM emitter bool :=
  match fuel with
  | O => no_fuel
  | S fuel =>
      modify_st ensure_events ;;
      s ← get_st;
      if bool_decide (type = "error"%string) && bool_decide (listeners s "error" = [])
      then match args with
           | VErr e :: _ => throw_st e
           | _ => throw_st (TypeError "Uncaught, unspecified error event.")
           end
      else
        match lookup_ev s type with
        | None => mret false
        | Some (HFn f) => call_fn fuel d f args ;; mret true
        | Some (HArr loc) => iterM (fun f => call_fn fuel d f args) (array_at s loc).1 ;; mret true
        end
  end
(** [f.apply(this, args)] made by a delivery at depth [d]. *)
with call_fn (fuel d : nat) (f : nat) (args : list jsval) : stM emitter unit :=
  match fuel with
  | O => no_fuel
  | S fuel =>
      modify_st (add_log (LCall d f args)) ;;
      s ← get_st;
      match fns s !! f with
      | Some (FUser n) => run_cmds fuel (S d) (body n args)
      | Some (FOnce type l _) =>
          removeListener fuel (S d) type (Some f) ;;
          s ← get_st;
          if is_fired s f then mret tt
          else modify_st (fire f) ;; call_fn fuel (S d) l args
      | None => mret tt
      end
  end
with run_cmds (fuel d : nat) (cs : list cmd) : stM emitter unit :=
  match fuel with
  | O => no_fuel
  | S fuel =>
      match cs with
      | [] => mret tt
      | c :: r => run_cmd fuel d c ;; run_cmds fuel d r
      end
  end
with run_cmd (fuel d : nat) (c : cmd) : stM emitter unit :=
  match fuel with
  | O => no_fuel
  | S fuel =>
      match c with
      | CEmit type args => emit fuel d type args ;; mret tt
      | COn type f => addListener fuel d type f
      | COnce type f => once fuel d type f
      | CRemove type f => removeListener fuel d type f
      | CRemoveAll type => removeAllListeners fuel d type
      | CSetMax n => setMaxListeners n
      | CThrow e => throw_st e
      end
  end
with addListener (fuel d : nat) (type : string) (listener : option nat) : stM emitter unit :=
  match fuel with
  | O => no_fuel
  | S fuel =>
      match listener with
      | None => throw_st (TypeError "listener must be a function")
      | Some f =>
          modify_st ensure_events ;;
          s ← get_st;
          match lookup_ev s "newListener" with
          | Some _ =>
              emit fuel d "newListener" [VStr type; VFn (default f (inner_listener s f))] ;; mret tt
          | None => mret tt
          end ;;
          modify_st (store_listener type f) ;;
          modify_st (check_leak type)
      end
  end
with once (fuel d : nat) (type : string) (listener : option nat) : stM emitter unit :=
  match fuel with
  | O => no_fuel
  | S fuel =>
      match listener with
      | None => throw_st (TypeError "listener must be a function")
      | Some l =>
          s ← get_st;
          let g := length (fns s) in
          modify_st (new_fn (FOnce type l false)) ;;
          addListener fuel d type (Some g)
      end
  end
with removeListener (fuel d : nat) (type : string) (listener : option nat) : stM emitter unit :=
  match fuel with
  | O => no_fuel
  | S fuel =>
      match listener with
      | None => throw_st (TypeError "listener must be a function")
      | Some f =>
          s ← get_st;
          let '(s', found) := unlink_listener type f s in
          modify_st (fun _ => s') ;;
          match found, lookup_ev s' "removeListener" with
          | true, Some _ => emit fuel d "removeListener" [VStr type; VFn f] ;; mret tt
          | _, _ => mret tt
          end
      end
  end
with removeAllListeners (fuel d : nat) (type : option string) : stM emitter unit :=
  match fuel with
  | O => no_fuel
  | S fuel =>
      s ← get_st;
      match events s with
      | None => mret tt
      | Some evs =>
          match lookup_ev s "removeListener", type with
          | None, None => modify_st (set_events (Some []))
          | None, Some t => modify_st (del_ev t)
          | Some _, None =>
              iterM (fun key =>
                s ← get_st;
                if bool_decide (key = "removeListener"%string) || negb (bool_decide (is_Some (lookup_ev s key)))
                then mret tt
                else removeAllListeners fuel d (Some key)) evs.*1 ;;
              removeAllListeners fuel d (Some "removeListener"%string) ;;
              modify_st (set_events (Some []))
          | Some _, Some t =>
              match lookup_ev s t with
              | None => throw_st (TypeError "Cannot read property length of undefined")
              | Some (HFn f) => removeListener fuel d t (Some f)
              | Some (HArr loc) => remove_lifo fuel d t loc
              end ;;
              modify_st (del_ev t)
          end
      end
  end
(** [while (listeners.length) this.removeListener(type, last)] on the array
    itself, which [removeListener] shortens in place. *)
with remove_lifo (fuel d : nat) (type : string) (loc : nat) : stM emitter unit :=
  match fuel with
  | O => no_fuel
  | S fuel =>
      s ← get_st;
      match last (array_at s loc).1 with
      | None => mret tt
      | Some f => removeListener fuel d type (Some f) ;; remove_lifo fuel d type loc
      end
  end.
End client.

(** ** What every method preserves

    [R d] relates the object before and after any method run at depth [d].  It is
    enough to check the primitive updates. *)
Section preserved.
Context (body : nat -> list jsval -> list cmd).
Context (R : nat -> relation emitter) `{!forall d, PreOrder (R d)}.
Hypothesis R_deeper : forall d s s', R (S d) s s' -> R d s s'.
Hypothesis R_ensure : forall d s, R d s (ensure_events s).
Hypothesis R_store : forall d s t f, R d s (store_listener t f s).
Hypothesis R_leak : forall d s t, R d s (check_leak t s).
Hypothesis R_unlink : forall d s t f, R d s (unlink_listener t f s).1.
Hypothesis R_del : forall d s t, R d s (del_ev t s).
Hypothesis R_clear : forall d s, R d s (set_events (Some []) s).
Hypothesis R_max : forall d s m, R d s (set_max m s).
Hypothesis R_call : forall d s f args, R d s (add_log (LCall d f args) s).
Hypothesis R_fire : forall d s g, is_fired s g = false -> R d s (fire g s).
Hypothesis R_new : forall d s t l, R d s (new_fn (FOnce t l false) s).

Definition all_keep (fuel : nat) : Prop := forall d,
  (forall type args, keeps (R d) (emit body fuel d type args)) /\
  (forall f args, keeps (R d) (call_fn body fuel d f args)) /\
  (forall cs, keeps (R d) (run_cmds body fuel d cs)) /\
  (forall c, keeps (R d) (run_cmd body fuel d c)) /\
  (forall type f, keeps (R d) (addListener body fuel d type f)) /\
  (forall type f, keeps (R d) (once body fuel d type f)) /\
  (forall type f, keeps (R d) (removeListener body fuel d type f)) /\
  (forall type, keeps (R d) (removeAllListeners body fuel d type)) /\
  (forall type loc, keeps (R d) (remove_lifo body fuel d type loc)).

Lemma keeps_deeper {A} d (m : stM emitter A) : keeps (R (S d)) m -> keeps (R d) m.
Proof. intros Hm s. apply R_deeper, Hm. Qed.

Ltac keep :=
  repeat match goal with
  | |- keeps _ (mbind _ get_st) => apply keeps_bind; [apply _|apply keeps_get; apply _|intros ?]
  | |- keeps _ (mbind _ _) => apply keeps_bind; [apply _| |intros ?]
  | |- keeps _ (modify_st _) => apply keeps_modify; intros ?; auto
  | |- keeps _ (mret _) => apply keeps_ret; apply _
  | |- keeps _ (throw_st _) => apply keeps_throw; apply _
  | |- keeps _ get_st => apply keeps_get; apply _
  | |- keeps _ no_fuel => apply keeps_no_fuel; apply _
  | |- keeps _ (match ?x with _ => _ end) => destruct x
  | |- keeps _ (iterM _ _) => apply keeps_iter; [apply _|intros ?]
  end; auto.

Lemma all_keep_fuel fuel : all_keep fuel.
Proof.
  induction fuel as [|fuel IH]; intros d.
  { repeat apply conj; intros; apply keeps_no_fuel; apply _. }
  destruct (IH d) as (He & Hc & Hcs & Hcmd & Ha & Ho & Hr & Hra & Hl).
  destruct (IH (S d)) as (_ & Hc' & Hcs' & _ & _ & _ & Hr' & _).
  repeat apply conj.
  - intros type args. cbn [emit]. keep.
  - intros f args. cbn [call_fn].
    assert (forall l, keeps (R d) (s ← get_st; if is_fired s f then mret tt
      else modify_st (fire f) ;; call_fn body fuel (S d) l args)) as Hfire.
    { intros l s0. unfold mbind, stM_bind, get_st at 1. destruct (is_fired s0 f) eqn:E; [by cbn|].
      unfold modify_st. etrans; [by apply R_fire|]. apply keeps_deeper, Hc'. }
    apply keeps_bind; [apply _|keep|intros _]. apply keeps_bind; [apply _|keep|intros s].
    destruct (fns s !! f) as [[n|type l fired]|]; [by apply keeps_deeper| |keep].
    apply keeps_bind; [apply _|by apply keeps_deeper|intros _]. apply Hfire.
  - intros cs. cbn [run_cmds]. keep.
  - intros c. cbn [run_cmd]. keep. unfold setMaxListeners. keep.
  - intros type f. cbn [addListener]. keep.
  - intros type f. cbn [once]. keep.
  - intros type f. cbn [removeListener]. destruct f as [f|]; [|keep].
    intros s. unfold mbind, stM_bind, get_st. pose proof (R_unlink d s type f) as Hu.
    destruct (unlink_listener type f s) as [s' found]. cbn [modify_st].
    etrans; [exact Hu|]. unfold modify_st. destruct found; [|by cbn].
    destruct (lookup_ev s' "removeListener"); [|by cbn].
    assert (keeps (R d) (emit body fuel d "removeListener" [VStr type; VFn f] ;; mret tt)) as Hem by keep.
    apply Hem.
  - intros type. cbn [removeAllListeners]. keep.
  - intros type loc. cbn [remove_lifo]. keep.
Qed.
End preserved.

(** ** Order of delivery *)
Definition shallower (d : nat) (x : log_entry) : bool :=
  match x with LCall d' _ _ => (d' <? d)%nat | _ => false end.

(** The calls made by deliveries at depth below [d]. *)
Definition calls_below (d : nat) (s : emitter) : list log_entry := List.filter (shallower d) (elog s).

Definition same_calls (d : nat) (s s' : emitter) : Prop := calls_below d s' = calls_below d s.

#[export] Instance same_calls_preorder d : PreOrder (same_calls d).
Proof. split; [done|]. intros s1 s2 s3. unfold same_calls. congruence. Qed.

Lemma calls_below_deeper d s : calls_below d s = List.filter (shallower d) (calls_below (S d) s).
Proof.
  unfold calls_below. induction (elog s) as [|x l IH]; [done|]. cbn [List.filter].
  destruct x as [d' f args|g|t n]; cbn [shallower]; [|exact IH|exact IH].
  destruct (d' <? d)%nat eqn:E.
  - apply Nat.ltb_lt in E. rewrite (proj2 (Nat.ltb_lt d' (S d))) by lia. cbn [List.filter shallower].
    rewrite (proj2 (Nat.ltb_lt d' d)) by lia. by rewrite IH.
  - destruct (d' <? S d)%nat; [|exact IH]. cbn [List.filter shallower]. by rewrite E.
Qed.

Lemma calls_below_add d s x :
  calls_below d (add_log x s) = calls_below d s ++ (if shallower d x then [x] else []).
Proof. unfold calls_below. cbn. rewrite List.filter_app. cbn. by destruct (shallower d x). Qed.

Lemma elog_store t f s : elog (store_listener t f s) = elog s.
Proof. unfold store_listener. by destruct (lookup_ev s t) as [[]|]. Qed.

Lemma elog_unlink t f s : elog (unlink_listener t f s).1 = elog s.
Proof.
  unfold unlink_listener. destruct (lookup_ev s t) as [[]|]; [by case_match| |done].
  by repeat case_match.
Qed.

Lemma calls_leak d t s : calls_below d (check_leak t s) = calls_below d s.
Proof.
  unfold check_leak. destruct (lookup_ev s t) as [[]|]; [done| |done]. repeat case_match; try done.
  rewrite calls_below_add. cbn [shallower]. by rewrite app_nil_r.
Qed.

Lemma calls_fire d g s : calls_below d (fire g s) = calls_below d s.
Proof.
  unfold fire. rewrite calls_below_add. cbn [shallower]. rewrite app_nil_r.
  by destruct (fns s !! g) as [[]|].
Qed.

(** Nothing run at depth [d] makes a call at a smaller depth. *)
Lemma methods_same_calls body fuel : all_keep body same_calls fuel.
Proof.
  apply all_keep_fuel; unfold same_calls; try done.
  - apply _.
  - intros d s s' H. by rewrite (calls_below_deeper d s), (calls_below_deeper d s'), H.
  - intros d s t f. unfold calls_below. by rewrite elog_store.
  - intros. apply calls_leak.
  - intros d s t f. unfold calls_below. by rewrite elog_unlink.
  - intros d s f args. rewrite calls_below_add. cbn [shallower]. by rewrite Nat.ltb_irrefl, app_nil_r.
  - intros. apply calls_fire.
Qed.

Lemma call_fn_calls body fuel d f args s :
  exists k, calls_below (S d) (call_fn body fuel d f args s).1 =
    calls_below (S d) s ++ take k [LCall d f args] /\
  (forall u, (call_fn body fuel d f args s).2 = Ret u -> k = 1%nat).
Proof.
  destruct fuel as [|fuel]; [exists 0%nat; split; [by rewrite app_nil_r|done]|].
  exists 1%nat. split; [|done]. cbn [call_fn]. unfold mbind, stM_bind, modify_st at 1, get_st at 1.
  set (s1 := add_log (LCall d f args) s). transitivity (calls_below (S d) s1).
  2: { unfold s1. rewrite calls_below_add. cbn [shallower]. by rewrite (proj2 (Nat.ltb_lt d (S d))) by lia. }
  destruct (methods_same_calls body fuel (S d)) as (_ & Hc & Hcs & _ & _ & _ & Hr & _).
  destruct (fns s1 !! f) as [[n|type l fired]|]; [apply Hcs| |done].
  specialize (Hr type (Some f) s1). destruct (removeListener body fuel (S d) type (Some f) s1) as [s2 [u|e|]];
    cbn in *; [|exact Hr|exact Hr].
  case_match; cbn; [exact Hr|]. unfold modify_st. cbn.
  etrans; [apply Hc|]. rewrite calls_fire. exact Hr.
Qed.

Lemma deliver_calls body fuel d args l s :
  exists k, calls_below (S d) (iterM (fun f => call_fn body fuel d f args) l s).1 =
    calls_below (S d) s ++ take k (map (fun f => LCall d f args) l) /\
  (forall u, (iterM (fun f => call_fn body fuel d f args) l s).2 = Ret u -> k = length l).
Proof.
  revert s; induction l as [|f l IH]; intros s; cbn [iterM map].
  { exists 0%nat. split; [by rewrite app_nil_r|done]. }
  destruct (call_fn_calls body fuel d f args s) as (k & Hk & Hk1). unfold mbind, stM_bind.
  destruct (call_fn body fuel d f args s) as [s1 [[]|e|]]; cbn [fst snd] in *.
  - specialize (Hk1 _ eq_refl) as ->. destruct (IH s1) as (k2 & H2 & H3). exists (S k2). split.
    + rewrite H2, Hk. cbn [take]. by rewrite <- app_assoc.
    + intros u Hu. cbn. by rewrite (H3 u Hu).
  - exists (Nat.min k 1). rewrite Hk. split; [|done]. by destruct k as [|[|k]].
  - exists (Nat.min k 1). rewrite Hk. split; [|done]. by destruct k as [|[|k]].
Qed.

(** ** Closures of once *)
Definition runs_of (g : nat) (s : emitter) : nat :=
  length (List.filter (fun x => match x with LOnce g' => (g' =? g)%nat | _ => false end) (elog s)).

(** A closure has run its client function exactly as often as its flag says. *)
Definition once_inv (s : emitter) : Prop := forall g,
  runs_of g s = match fns s !! g with Some (FOnce _ _ true) => 1%nat | _ => 0%nat end.

Definition keeps_once (d : nat) (s s' : emitter) : Prop := once_inv s -> once_inv s'.

#[export] Instance keeps_once_preorder d : PreOrder (keeps_once d).
Proof. split; [by intros s H|]. intros s1 s2 s3 H1 H2 H. by apply H2, H1. Qed.

Lemma once_inv_same s s' : fns s' = fns s -> (forall g, runs_of g s' = runs_of g s) -> once_inv s -> once_inv s'.
Proof. intros Hf Hr H g. by rewrite Hr, Hf. Qed.

Lemma runs_add g x s :
  runs_of g (add_log x s) = (runs_of g s + match x with LOnce g' => if (g' =? g)%nat then 1 else 0 | _ => 0 end)%nat.
Proof.
  unfold runs_of. cbn. rewrite List.filter_app, length_app. cbn. destruct x as [| |]; [done| |done].
  by destruct (_ =? _)%nat.
Qed.

Lemma once_inv_fire g s : is_fired s g = false -> once_inv s -> once_inv (fire g s).
Proof.
  unfold is_fired, fire. intros Hf H g'.
  destruct (fns s !! g) as [[n|t l []]|] eqn:E; try done. rewrite runs_add.
  change (runs_of g' (set_fns _ s)) with (runs_of g' s). cbn [add_log set_fns fns].
  rewrite (H g'), list_lookup_insert. destruct (g =? g')%nat eqn:Eg.
  - apply Nat.eqb_eq in Eg as <-. rewrite E, decide_True; [done|]. split; [done|].
    by eapply lookup_lt_Some.
  - apply Nat.eqb_neq in Eg. rewrite decide_False; [lia|]. by intros [? _].
Qed.

Lemma once_inv_new t l s : once_inv s -> once_inv (new_fn (FOnce t l false) s).
Proof.
  intros H g. change (runs_of g (new_fn _ s)) with (runs_of g s). rewrite (H g). cbn [new_fn set_fns fns].
  destruct (decide (g < length (fns s))%nat).
  - by rewrite lookup_app_l.
  - rewrite lookup_ge_None_2 by lia. rewrite lookup_app_r by lia.
    by destruct (g - length (fns s))%nat as [|[|]].
Qed.

Lemma fns_store t f s : fns (store_listener t f s) = fns s.
Proof. unfold store_listener. by destruct (lookup_ev s t) as [[]|]. Qed.

Lemma fns_unlink t f s : fns (unlink_listener t f s).1 = fns s.
Proof.
  unfold unlink_listener. destruct (lookup_ev s t) as [[]|]; [by case_match| |done].
  by repeat case_match.
Qed.

Lemma methods_keep_once body fuel : all_keep body keeps_once fuel.
Proof.
  apply all_keep_fuel; unfold keeps_once; try done.
  - apply _.
  - intros d s t f. apply once_inv_same; [apply fns_store|]. intros g. unfold runs_of. by rewrite elog_store.
  - intros d s t. unfold check_leak. destruct (lookup_ev s t) as [[]|]; [done| |done].
    repeat case_match; try done. apply once_inv_same; [done|]. intros g. rewrite runs_add. apply Nat.add_0_r.
  - intros d s t f. apply once_inv_same; [apply fns_unlink|]. intros g. unfold runs_of. by rewrite elog_unlink.
  - intros d s f args. apply once_inv_same; [done|]. intros g. rewrite runs_add. apply Nat.add_0_r.
  - intros d s g. apply once_inv_fire.
  - intros d s t l. apply once_inv_new.
Qed.

(** ** The table as lists of listeners *)
Lemma ev_get_set l k h k' : ev_get (ev_set l k h) k' = if decide (k' = k) then Some h else ev_get l k'.
Proof.
  induction l as [|[k1 h1] l IH]; cbn [ev_set ev_get]; [done|].
  repeat case_decide; subst; cbn [ev_get]; repeat case_decide; subst; try done.
Qed.

Lemma ev_get_del l k k' : ev_get (ev_del l k) k' = if decide (k' = k) then None else ev_get l k'.
Proof.
  unfold ev_del. induction l as [|[k1 h1] l IH]; cbn [List.filter ev_get fst].
  - by case_decide.
  - case_bool_decide as E; cbn [negb ev_get]; rewrite IH; repeat case_decide; subst; done.
Qed.

Lemma lookup_put s k h k' : lookup_ev (put_ev k h s) k' = if decide (k' = k) then Some h else lookup_ev s k'.
Proof. apply ev_get_set. Qed.

Lemma lookup_del s k k' : lookup_ev (del_ev k s) k' = if decide (k' = k) then None else lookup_ev s k'.
Proof. apply ev_get_del. Qed.

Lemma array_update s loc a loc' :
  (loc < length (arrays s))%nat ->
  array_at (update_array loc a s) loc' = if decide (loc' = loc) then a else array_at s loc'.
Proof.
  intros H. unfold array_at, update_array. cbn. rewrite list_lookup_insert. repeat case_decide; subst; try done; lia.
Qed.

(** Arrays in use are allocated, not empty, and belong to one event type. *)
Record ev_wf (s : emitter) : Prop := {
  wf_array k loc : lookup_ev s k = Some (HArr loc) ->
    (loc < length (arrays s))%nat /\ (array_at s loc).1 <> [];
  wf_owner k1 k2 loc : lookup_ev s k1 = Some (HArr loc) -> lookup_ev s k2 = Some (HArr loc) -> k1 = k2
}.

Lemma wf_same s s' : ev_wf s -> (forall k, lookup_ev s' k = lookup_ev s k) -> arrays s' = arrays s -> ev_wf s'.
Proof.
  intros [H1 H2] Hl Ha. split; intros *; rewrite ?Hl; [|apply H2].
  unfold array_at. rewrite Ha. apply H1.
Qed.

Lemma wf_del s k : ev_wf s -> ev_wf (del_ev k s).
Proof.
  intros [H1 H2]. split; intros *; rewrite ?lookup_del; repeat case_decide; try done; [apply H1|apply H2].
Qed.

Lemma wf_update s k loc a :
  ev_wf s -> lookup_ev s k = Some (HArr loc) -> a.1 <> [] -> ev_wf (update_array loc a s).
Proof.
  intros Hs Hk Ha. destruct (wf_array s Hs _ _ Hk) as [Hlen _]. split.
  - intros k' loc' Hk'. change (lookup_ev (update_array loc a s) k') with (lookup_ev s k') in Hk'.
    rewrite array_update by done. unfold update_array. cbn. rewrite length_insert.
    destruct (wf_array s Hs _ _ Hk'). case_decide; subst; done.
  - apply (wf_owner s Hs).
Qed.

Lemma wf_store s t f : ev_wf s -> ev_wf (store_listener t f s).
Proof.
  intros Hs. unfold store_listener. destruct (lookup_ev s t) as [[f0|loc]|] eqn:E.
  - set (s1 := set_arrays _ s). assert (forall k, lookup_ev s1 k = lookup_ev s k) as Hl by done. split.
    + intros k loc. rewrite lookup_put, Hl. unfold array_at. cbn. rewrite length_app. cbn.
      case_decide; intros Hk; simplify_eq.
      * split; [lia|]. by rewrite lookup_app_r, Nat.sub_diag by lia.
      * destruct (wf_array s Hs _ _ Hk). split; [lia|]. by rewrite lookup_app_l.
    + intros k1 k2 loc. rewrite !lookup_put, !Hl. repeat case_decide; intros H1 H2; simplify_eq; try done.
      * destruct (wf_array s Hs _ _ H2). lia.
      * destruct (wf_array s Hs _ _ H1). lia.
      * by eapply (wf_owner s Hs).
  - eapply wf_update; [done|exact E|]. cbn. by destruct (array_at s loc).1.
  - split; intros *; rewrite ?lookup_put; repeat case_decide; try done; [apply (wf_array s Hs)|apply (wf_owner s Hs)].
Qed.

Lemma wf_leak s t : ev_wf s -> ev_wf (check_leak t s).
Proof.
  intros Hs. unfold check_leak. destruct (lookup_ev s t) as [[|loc]|] eqn:E; [done| |done].
  repeat case_match; try done. apply (wf_same (update_array loc ((array_at s loc).1, true) s)); [|done|done].
  eapply wf_update; [done|exact E|]. by apply (wf_array s Hs t).
Qed.

Lemma last_position_spec p l i : 0 <= i ->
  (last_position p l i = -1 /\ Forall (fun x => p x = false) l) \/
  (exists a x b, l = a ++ x :: b /\ p x = true /\ Forall (fun x => p x = false) b /\
     last_position p l i = i + js_len a).
Proof.
  revert i; induction l as [|x l IH]; intros i Hi; cbn [last_position]; [left; split; [done|constructor]|].
  destruct (IH (i + 1)) as [[-> Hn]|(a & y & b & -> & Hy & Hb & ->)]; [lia| |].
  - cbn [Z.leb Z.compare]. destruct (p x) eqn:E; [|left; by repeat constructor].
    right. exists [], x, l. change (js_len []) with 0. split; [done|]. split; [done|]. split; [done|lia].
  - right. exists (x :: a), y, b. pose proof (js_len_nonneg a).
    rewrite (proj2 (Z.leb_le 0 _)) by lia. rewrite js_len_cons.
    split; [done|]. split; [done|]. split; [done|lia].
Qed.

(** Without the last element that satisfies [p]. *)
Fixpoint remove_first (p : nat -> bool) (l : list nat) : list nat :=
  match l with
  | [] => []
  | x :: r => if p x then r else x :: remove_first p r
  end.

Definition remove_last (p : nat -> bool) (l : list nat) : list nat := reverse (remove_first p (reverse l)).

Lemma remove_first_none p l : Forall (fun x => p x = false) l -> remove_first p l = l.
Proof. intros H. induction H as [|x l Hx H IH]; cbn; [done|]. by rewrite Hx, IH. Qed.

Lemma remove_first_at p a x b :
  Forall (fun x => p x = false) a -> p x = true -> remove_first p (a ++ x :: b) = a ++ b.
Proof. intros H Hx. induction H as [|y a Hy H IH]; cbn; [by rewrite Hx|]. by rewrite Hy, IH. Qed.

Lemma remove_last_none p l : Forall (fun x => p x = false) l -> remove_last p l = l.
Proof. intros H. unfold remove_last. rewrite remove_first_none by by apply Forall_reverse. apply reverse_involutive. Qed.

Lemma remove_last_at p a x b :
  Forall (fun x => p x = false) b -> p x = true -> remove_last p (a ++ x :: b) = a ++ b.
Proof.
  intros H Hx. unfold remove_last. rewrite reverse_app, reverse_cons, <- app_assoc. cbn [app].
  rewrite remove_first_at; [|by apply Forall_reverse|done]. by rewrite reverse_app, !reverse_involutive.
Qed.

Lemma take_drop_mid {A} (a b : list A) x : take (length a) (a ++ x :: b) ++ drop (S (length a)) (a ++ x :: b) = a ++ b.
Proof.
  rewrite take_app_length. f_equal. rewrite cons_middle, app_assoc.
  replace (S (length a)) with (length (a ++ [x])) by (rewrite length_app; cbn; lia). apply drop_app_length.
Qed.

(** [listeners] after the primitive updates. *)
Lemma listeners_del s t k : listeners (del_ev t s) k = if decide (k = t) then [] else listeners s k.
Proof. unfold listeners. rewrite lookup_del. by case_decide. Qed.

Lemma listeners_update s t loc a k : ev_wf s -> lookup_ev s t = Some (HArr loc) ->
  listeners (update_array loc a s) k = if decide (k = t) then a.1 else listeners s k.
Proof.
  intros Hs E. destruct (wf_array s Hs _ _ E) as [Hlen _]. unfold listeners.
  change (lookup_ev (update_array loc a s) k) with (lookup_ev s k). case_decide as Hk; [subst k|].
  - by rewrite E, array_update, decide_True.
  - destruct (lookup_ev s k) as [[|loc']|] eqn:Ek; [done| |done]. rewrite array_update by done.
    rewrite decide_False; [done|]. intros ->. destruct Hk. by eapply (wf_owner s Hs).
Qed.

Lemma listeners_array s t loc : lookup_ev s t = Some (HArr loc) -> listeners s t = (array_at s loc).1.
Proof. unfold listeners. by intros ->. Qed.

(** Emptying an array and dropping its event type. *)
Lemma wf_clear s t loc w : ev_wf s -> lookup_ev s t = Some (HArr loc) ->
  ev_wf (del_ev t (update_array loc ([], w) s)).
Proof.
  intros Hs E. destruct (wf_array s Hs _ _ E) as [Hlen _].
  split; intros *; rewrite ?lookup_del; repeat case_decide; try done;
    change (lookup_ev (update_array _ _ s)) with (lookup_ev s); [|apply (wf_owner s Hs)].
  intros Hk. destruct (wf_array s Hs _ _ Hk). cbn. rewrite length_insert. split; [done|].
  change (array_at (del_ev t ?s1)) with (array_at s1). rewrite array_update by done.
  rewrite decide_False; [done|]. intros ->. by destruct (wf_owner s Hs _ _ _ Hk E).
Qed.

Lemma listeners_store s t f k : ev_wf s ->
  listeners (store_listener t f s) k = if decide (k = t) then listeners s t ++ [f] else listeners s k.
Proof.
  intros Hs. unfold store_listener. destruct (lookup_ev s t) as [[f0|loc]|] eqn:E.
  - unfold listeners at 2. rewrite E. unfold listeners. set (s1 := set_arrays _ s).
    assert (forall k, lookup_ev s1 k = lookup_ev s k) as Hl by done.
    rewrite lookup_put, Hl. case_decide; subst.
    + unfold array_at. cbn. by rewrite lookup_app_r, Nat.sub_diag by lia.
    + destruct (lookup_ev s k) as [[|loc]|] eqn:Ek; [done| |done]. destruct (wf_array s Hs _ _ Ek).
      unfold array_at. cbn. by rewrite lookup_app_l.
  - rewrite (listeners_update s t) by done. by rewrite (listeners_array s t loc).
  - unfold listeners. rewrite lookup_put, E. by case_decide.
Qed.

Lemma listeners_leak s t k : ev_wf s -> listeners (check_leak t s) k = listeners s k.
Proof.
  intros Hs. unfold check_leak. destruct (lookup_ev s t) as [[|loc]|] eqn:E; [done| |done].
  repeat case_match; try done.
  change (listeners (add_log _ ?s1) k) with (listeners s1 k). rewrite (listeners_update s t) by done.
  case_decide; [subst k|done]. by rewrite (listeners_array s t loc).
Qed.

Lemma unlink_array s t f loc : ev_wf s -> lookup_ev s t = Some (HArr loc) ->
  ev_wf (unlink_listener t f s).1 /\
  (forall k, listeners (unlink_listener t f s).1 k =
     if decide (k = t) then remove_last (same_listener s f) (listeners s t) else listeners s k).
Proof.
  intros Hs E. unfold unlink_listener. rewrite E. set (p := same_listener s f).
  rewrite (listeners_array s t loc E). destruct (wf_array s Hs _ _ E) as [Hlen Hne].
  destruct (array_at s loc) as [l w] eqn:Ea. cbn [fst snd] in *.
  destruct (last_position_spec p l 0) as [[-> Hn]|(a & x & b & -> & Hx & Hb & ->)]; [lia| |].
  - cbn. split; [done|]. intros k. case_decide; [subst k|done].
    rewrite (listeners_array s t loc E), Ea. by rewrite remove_last_none.
  - pose proof (js_len_nonneg a). rewrite (proj2 (Z.ltb_ge _ 0)) by lia.
    rewrite remove_last_at by done. rewrite Z.add_0_l.
    assert (Z.to_nat (js_len a) = length a) as -> by (unfold js_len; lia).
    rewrite take_drop_mid. destruct (js_len (a ++ x :: b) =? 1) eqn:El; bool_props; cbn [fst].
    + assert (a ++ b = []) as ->.
      { apply length_zero_iff_nil. rewrite js_len_app, js_len_cons in El. rewrite length_app.
        unfold js_len in El. lia. }
      split; [by apply wf_clear|]. intros k. rewrite listeners_del. case_decide; [done|].
      rewrite (listeners_update s t) by done. by rewrite decide_False.
    + split; [|intros k; by apply listeners_update].
      eapply wf_update; [done|exact E|]. cbn. intros Hnil. apply app_eq_nil in Hnil as [-> ->]. done.
Qed.

Lemma unlink_spec s t f : ev_wf s ->
  ev_wf (unlink_listener t f s).1 /\
  (forall k, listeners (unlink_listener t f s).1 k =
     if decide (k = t) then remove_last (same_listener s f) (listeners s t) else listeners s k).
Proof.
  intros Hs. destruct (lookup_ev s t) as [[f0|loc]|] eqn:E; [|by eapply unlink_array|].
  - assert (listeners s t = [f0]) as Hl by (unfold listeners; by rewrite E).
    unfold unlink_listener. rewrite E, Hl. unfold remove_last. cbn [reverse rev_append remove_first].
    destruct (same_listener s f f0); cbn [fst].
    + split; [by apply wf_del|]. intros k. apply listeners_del.
    + split; [done|]. intros k. case_decide; [by subst|done].
  - assert (listeners s t = []) as Hl by (unfold listeners; by rewrite E).
    unfold unlink_listener. rewrite E, Hl. split; [done|]. intros k. case_decide; [by subst|done].
Qed.

Definition keeps_wf (d : nat) (s s' : emitter) : Prop := ev_wf s -> ev_wf s'.

#[export] Instance keeps_wf_preorder d : PreOrder (keeps_wf d).
Proof. split; [by intros s H|]. intros s1 s2 s3 H1 H2 H. by apply H2, H1. Qed.

Lemma methods_keep_wf body fuel : all_keep body keeps_wf fuel.
Proof.
  apply all_keep_fuel; unfold keeps_wf; try done.
  - apply _.
  - intros d s Hs. by apply (wf_same s).
  - intros d s t f. apply wf_store.
  - intros d s t. apply wf_leak.
  - intros d s t f Hs. by apply unlink_spec.
  - intros d s t. apply wf_del.
  - intros d s m Hs. by apply (wf_same s).
  - intros d s f args Hs. by apply (wf_same s).
  - intros d s g _ Hs. apply (wf_same s); [done| |]; intros; unfold fire; by destruct (fns s !! g) as [[]|].
  - intros d s t l Hs. by apply (wf_same s).
Qed.

(** ** Results *)

(** A fresh emitter for client functions [0 .. n-1]. *)
Definition client_emitter (n : nat) : emitter :=
  EventEmitter (Emitter None [] (map FUser (seq 0 n)) None []).

Lemma client_once_inv n : once_inv (client_emitter n).
Proof.
  intros g. change (runs_of g (client_emitter n)) with 0%nat. cbn.
  destruct (map FUser (seq 0 n) !! g) as [[m|t l b]|] eqn:E; [done| |done].
  apply list_elem_of_lookup_2, list_elem_of_In, in_map_iff in E as (m & ? & _). done.
Qed.

(** C32: delivery goes to the listeners present when it starts.  Whatever the
    listeners do meanwhile (add, remove, emit again), [emit] calls the listeners
    registered for the type when it was called, in registration order and with its
    arguments; it calls a prefix of them if one throws, and all of them if it
    returns; it returns [false] only when there are none. *)
Theorem emit_snapshot (body : nat -> list jsval -> list cmd) (fuel d : nat) (type : string)
    (args : list jsval) (s : emitter) :
  let r := emit body fuel d type args s in
  exists k, calls_below (S d) r.1 =
    calls_below (S d) s ++ take k (map (fun f => LCall d f args) (listeners s type)) /\
  (forall b, r.2 = Ret b ->
     (length (listeners s type) <= k)%nat /\ (b = false -> listeners s type = [])).
Proof.
  destruct fuel as [|fuel]; [exists 0%nat; split; [by rewrite app_nil_r|done]|].
  cbv zeta. cbn [emit]. unfold mbind, stM_bind, modify_st, get_st. set (s1 := ensure_events s).
  change (calls_below (S d) s) with (calls_below (S d) s1).
  change (listeners s type) with (listeners s1 type).
  destruct (_ && _); [exists 0%nat; destruct args as [|[]]; (split; [by rewrite app_nil_r|done])|].
  unfold listeners. destruct (lookup_ev s1 type) as [[f|loc]|].
  - destruct (call_fn_calls body fuel d f args s1) as (k & Hk & Hr). exists k. cbn [map].
    destruct (call_fn body fuel d f args s1) as [s2 [u|e|]]; cbn in *; (split; [done|]); [|done..].
    intros b [= <-]. rewrite (Hr u eq_refl). done.
  - destruct (deliver_calls body fuel d args (array_at s1 loc).1 s1) as (k & Hk & Hr). exists k.
    destruct (iterM _ _ s1) as [s2 [u|e|]]; cbn in *; (split; [done|]); [|done..].
    intros b [= <-]. rewrite (Hr u eq_refl). done.
  - exists 0%nat. split; [by rewrite app_nil_r|]. intros b [= <-]. done.
Qed.

Lemma deliver_quiet body fuel d args l s :
  (forall n a, body n a = []) -> Forall (fun f => exists n, fns s !! f = Some (FUser n)) l ->
  exists s', iterM (fun f => call_fn body (S (S fuel)) d f args) l s = (s', Ret tt) /\
    events s' = events s /\ elog s' = elog s ++ map (fun f => LCall d f args) l.
Proof.
  intros Hb Hl. revert s Hl. induction l as [|f l IH]; intros s Hl.
  - exists s. split; [done|]. split; [done|]. by rewrite app_nil_r.
  - apply Forall_cons in Hl as [[n Hn] Hl]. destruct (IH (add_log (LCall d f args) s) Hl) as (s' & Hs & He & Hg).
    exists s'. split; [|split; [done|by rewrite Hg; cbn; rewrite <- app_assoc]].
    cbn [iterM]. unfold mbind at 1, stM_bind at 1. cbn [call_fn]. unfold mbind at 1 2, stM_bind at 1 2, modify_st, get_st.
    change (fns (add_log (LCall d f args) s)) with (fns s). rewrite Hn, Hb. cbn [run_cmds]. exact Hs.
Qed.

(** Delivery completes.  Listeners that do not touch the emitter cannot stop a
    delivery: [emit] returns, having called all of them in order, and leaves the
    table as it was (an [error] event needs at least one listener). *)
Theorem emit_delivers (body : nat -> list jsval -> list cmd) (fuel d : nat) (type : string)
    (args : list jsval) (s : emitter)
    (Hb : forall n a, body n a = [])
    (Hu : Forall (fun f => exists n, fns s !! f = Some (FUser n)) (listeners s type))
    (He : type = "error"%string -> listeners s type <> []) :
  exists s' b, emit body (S (S (S fuel))) d type args s = (s', Ret b) /\
    default [] (events s') = default [] (events s) /\
    elog s' = elog s ++ map (fun f => LCall d f args) (listeners s type).
Proof.
  destruct (deliver_quiet body fuel d args (listeners s type) (ensure_events s) Hb Hu) as (s' & Hi & Hev & Hlog).
  assert (bool_decide (type = "error"%string) && bool_decide (listeners (ensure_events s) "error" = []) = false) as Hg.
  { case_bool_decide as Ht; [|done]. subst type. cbn [andb]. apply bool_decide_false. by apply He. }
  revert Hi Hlog. unfold listeners at 1 2. change (lookup_ev s type) with (lookup_ev (ensure_events s) type).
  change (array_at s) with (array_at (ensure_events s)).
  cbn [emit]. unfold mbind at 1 2, stM_bind at 1 2, modify_st at 1, get_st at 1. rewrite Hg.
  unfold listeners. change (lookup_ev s type) with (lookup_ev (ensure_events s) type).
  change (array_at s) with (array_at (ensure_events s)).
  destruct (lookup_ev (ensure_events s) type) as [[f|loc]|]; intros Hi Hlog.
  - exists s', true. split; [|by rewrite Hev]. cbn [iterM] in Hi. unfold mbind, stM_bind in *.
    destruct (call_fn body (S (S fuel)) d f args (ensure_events s)) as [s2 [u|e|]]; [|done..].
    by injection Hi as ->.
  - exists s', true. split; [|by rewrite Hev]. unfold mbind, stM_bind. by rewrite Hi.
  - exists (ensure_events s), false. split; [done|]. split; [done|]. by rewrite app_nil_r.
Qed.

Lemma emit_delivers_witness :
  exists s' b, emit (fun _ _ => []) 3 0 "x" [VNum 7]
      (addListener (fun _ _ => []) 3 0 "x" (Some 1%nat)
        (addListener (fun _ _ => []) 3 0 "x" (Some 0%nat) (client_emitter 2)).1).1 = (s', Ret b) /\
    elog s' = [LCall 0 0 [VNum 7]; LCall 0 1 [VNum 7]].
Proof.
  destruct (emit_delivers (fun _ _ => []) 0 0 "x" [VNum 7]
    (addListener (fun _ _ => []) 3 0 "x" (Some 1%nat)
      (addListener (fun _ _ => []) 3 0 "x" (Some 0%nat) (client_emitter 2)).1).1) as (s' & b & H1 & _ & H2).
  - reflexivity.
  - vm_compute. repeat constructor; eauto.
  - discriminate.
  - exists s', b. split; [exact H1|]. rewrite H2. reflexivity.
Defined.

(** C33: a listener added with [once] runs at most once.  In any run of any client
    program from a fresh emitter, with listeners that re-enter the emitter or
    throw, the client function of each [once] closure has been run exactly as
    often as its flag says, hence never twice. *)
Theorem once_at_most_once (body : nat -> list jsval -> list cmd) (n fuel : nat) (program : list cmd) (g : nat) :
  let s := (run_cmds body fuel 0 program (client_emitter n)).1 in
  runs_of g s = (match fns s !! g with Some (FOnce _ _ true) => 1 | _ => 0 end)%nat /\
  (runs_of g s <= 1)%nat.
Proof.
  cbv zeta. destruct (methods_keep_once body fuel 0%nat) as (_ & _ & H & _).
  specialize (H program (client_emitter n) (client_once_inv n) g). rewrite H.
  split; [done|]. repeat case_match; lia.
Qed.

(** The listener arrays stay well formed.  After any run of any client program
    from a fresh emitter, every array in the table is allocated, not empty and
    belongs to one event type, and [listenerCount] is the number of [listeners]. *)
Theorem emitter_well_formed (body : nat -> list jsval -> list cmd) (n fuel : nat) (program : list cmd) :
  let s := (run_cmds body fuel 0 program (client_emitter n)).1 in
  ev_wf s /\ forall type, listenerCount s type = js_len (listeners s type).
Proof.
  cbv zeta. split.
  - destruct (methods_keep_wf body fuel 0%nat) as (_ & _ & H & _). apply (H program). by split; intros *.
  - intros type. unfold listenerCount, listeners. by destruct (lookup_ev _ type) as [[]|].
Qed.

(** C34: the table refines lists of listeners.  With nobody listening for the
    emitter's own events, adding appends the listener to the list of its type,
    removing drops the last entry that is the listener or wraps it, and no other
    type is touched. *)
Theorem add_remove_refine (body : nat -> list jsval -> list cmd) (fuel d : nat) (type : string) (f : nat)
    (s : emitter) (Hs : ev_wf s)
    (Hn : listeners s "newListener" = []) (Hr : listeners s "removeListener" = []) :
  (exists s', addListener body (S fuel) d type (Some f) s = (s', Ret tt) /\ ev_wf s' /\
     forall k, listeners s' k = if decide (k = type) then listeners s type ++ [f] else listeners s k) /\
  (exists s', removeListener body (S fuel) d type (Some f) s = (s', Ret tt) /\ ev_wf s' /\
     forall k, listeners s' k =
       if decide (k = type) then remove_last (same_listener s f) (listeners s type) else listeners s k).
Proof.
  assert (forall k, listeners s k = [] -> lookup_ev s k = None) as Hnone.
  { intros k. unfold listeners. destruct (lookup_ev s k) as [[|loc]|] eqn:E; [done| |done].
    intros H. by destruct (wf_array s Hs _ _ E). }
  split.
  - exists (check_leak type (store_listener type f (ensure_events s))). split.
    + cbn [addListener]. unfold mbind, stM_bind, modify_st, get_st.
      change (lookup_ev (ensure_events s) "newListener") with (lookup_ev s "newListener").
      by rewrite (Hnone _ Hn).
    + assert (ev_wf (ensure_events s)) as Hs' by by apply (wf_same s).
      split; [by apply wf_leak, wf_store|]. intros k.
      rewrite listeners_leak, listeners_store by (done || by apply wf_store). done.
  - exists (unlink_listener type f s).1. destruct (unlink_spec s type f Hs) as [Hw Hl].
    split; [|done]. cbn [removeListener]. unfold mbind, stM_bind, modify_st, get_st.
    pose proof (Hl "removeListener"%string) as Hrl. destruct (unlink_listener type f s) as [s' found].
    cbn [fst] in *. assert (lookup_ev s' "removeListener" = None) as ->.
    { assert (listeners s' "removeListener" = []) as Hnil.
      { rewrite Hrl. case_decide as Et; [|done]. by rewrite <- Et, Hr. }
      unfold listeners in Hnil. destruct (lookup_ev s' "removeListener") as [[|loc]|] eqn:E; [done| |done].
      by destruct (wf_array s' Hw _ _ E). }
    by destruct found.
Qed.

Lemma add_remove_refine_witness :
  (exists s', addListener (fun _ _ => []) 1 0 "x" (Some 0%nat) (client_emitter 1) = (s', Ret tt) /\ ev_wf s' /\
     forall k, listeners s' k = if decide (k = "x"%string) then [0%nat] else []) /\
  listeners (client_emitter 1) "newListener" = [].
Proof.
  split; [|reflexivity].
  destruct (add_remove_refine (fun _ _ => []) 0 0 "x" 0 (client_emitter 1)) as [H _];
    [by split; intros *|reflexivity|reflexivity|].
  exact H.
Defined.

(** [removeAllListeners(type)] throws for a type nobody listens to as soon as
    somebody listens for [removeListener] events: the table entry is read without
    the check the other branch has. *)
Theorem removeAll_unknown_type_throws (body : nat -> list jsval -> list cmd) (fuel d : nat)
    (s : emitter) (type : string) :
  lookup_ev s "removeListener" <> None -> lookup_ev s type = None ->
  (removeAllListeners body (S fuel) d (Some type) s).2 =
  Throw (TypeError "Cannot read property length of undefined").
Proof.
  intros Hr Ht. cbn [removeAllListeners]. unfold mbind, stM_bind, get_st.
  destruct (events s) as [evs|] eqn:E; [|by unfold lookup_ev in Hr; rewrite E in Hr].
  destruct (lookup_ev s "removeListener"); [|done]. by rewrite Ht.
Qed.

Lemma removeAll_unknown_type_throws_witness :
  (removeAllListeners (fun _ _ => []) 5 0 (Some "data"%string)
     (addListener (fun _ _ => []) 5 0 "removeListener" (Some 0%nat) (client_emitter 1)).1).2 =
  Throw (TypeError "Cannot read property length of undefined").
Proof. apply removeAll_unknown_type_throws; [done|reflexivity]. Defined.
