(* ===== verification/Process.v ===== *)
(** * The tick queue

    Module 24 (process) of docs/generated_site/assets/javascripts/lunr/wordcut.js:
    [process.nextTick] on top of [setTimeout].  Callbacks are client code:
    [behave] gives the ticks a callback schedules before it returns or throws.
    An uncaught exception abandons [drainQueue] in the middle; the clean-up timer
    picks the queue up again.  The results: in every reachable state the callbacks
    that ran, followed by those that are waiting, are the ones scheduled, in
    order; a timer is pending whenever something waits; and firing timers runs
    everything, also what callbacks schedule. *)
From S2P Require Import Prelude JsState.

Inductive timer : Type := Drain | CleanUp.

Section process.
Context {Arg : Type}.

(** [Item(fun, array)] *)
Record Item : Type := MkItem { item_fun : nat; item_array : list Arg }.

(** The module's variables, the pending timers with their identifiers, and two
    observations: the items pushed and the items run so far. *)
Record proc : Type := Proc {
  queue : list Item;
  draining : bool;
  currentQueue : option (list Item);
  queueIndex : Z;
  timers : list (nat * timer);
  next_timer : nat;
  pushed : list Item;
  ran : list Item
}.

Definition proc_init : proc := Proc [] false None (-1) [] 0 [] [].

Definition set_queue q (p : proc) :=
  Proc q (draining p) (currentQueue p) (queueIndex p) (timers p) (next_timer p) (pushed p) (ran p).
Definition set_draining b (p : proc) :=
  Proc (queue p) b (currentQueue p) (queueIndex p) (timers p) (next_timer p) (pushed p) (ran p).
Definition set_current c (p : proc) :=
  Proc (queue p) (draining p) c (queueIndex p) (timers p) (next_timer p) (pushed p) (ran p).
Definition set_index i (p : proc) :=
  Proc (queue p) (draining p) (currentQueue p) i (timers p) (next_timer p) (pushed p) (ran p).
Definition set_timers t (p : proc) :=
  Proc (queue p) (draining p) (currentQueue p) (queueIndex p) t (next_timer p) (pushed p) (ran p).
Definition log_ran x (p : proc) :=
  Proc (queue p) (draining p) (currentQueue p) (queueIndex p) (timers p) (next_timer p) (pushed p) (ran p ++ [x]).

(** [runTimeout(fun)] where the timer functions are the ones found at load time. *)
Definition runTimeout (t : timer) (p : proc) : proc * nat :=
  (Proc (queue p) (draining p) (currentQueue p) (queueIndex p)
     (timers p ++ [(next_timer p, t)]) (S (next_timer p)) (pushed p) (ran p), next_timer p).

Definition runClearTimeout (marker : nat) (p : proc) : proc :=
  set_timers (List.filter (fun x => negb (x.1 =? marker)%nat) (timers p)) p.

(** [process.nextTick(fun, ...args)] *)
Definition nextTick (x : Item) (p : proc) : proc :=
  let p1 := Proc (queue p ++ [x]) (draining p) (currentQueue p) (queueIndex p)
              (timers p) (next_timer p) (pushed p ++ [x]) (ran p) in
  if (js_len (queue p1) =? 1) && negb (draining p1) then (runTimeout Drain p1).1 else p1.

Section client.
Context (behave : nat -> list Arg -> list Item * option js_error).

(** [Item.prototype.run]: the callback's ticks, then its exception if any. *)
Definition item_run (x : Item) : stM proc unit :=
  let '(ticks, exn) := behave (item_fun x) (item_array x) in
  modify_st (log_ran x) ;;
  modify_st (fun p => foldl (fun p y => nextTick y p) p ticks) ;;
  match exn with
  | Some e => throw_st e
  | None => mret tt
  end.

(** [while (++queueIndex < len) { if (currentQueue) currentQueue[queueIndex].run(); }] *)
Fixpoint drain_inner (fuel : nat) (len : Z) : stM proc unit :=
  match fuel with
  | O => no_fuel
  | S fuel =>
      modify_st (fun p => set_index (queueIndex p + 1) p) ;;
      p ← get_st;
      if queueIndex p <? len then
        match currentQueue p with
        | Some cq =>
            match js_get cq (queueIndex p) with
            | Some x => item_run x
            | None => throw_st (TypeError "Cannot read property run of undefined")
            end
        | None => mret tt
        end ;;
        drain_inner fuel len
      else mret tt
  end.

(** [while (len) { ... }] *)
Fixpoint drain_outer (fuel : nat) (len : Z) : stM proc unit :=
  match fuel with
  | O => no_fuel
  | S fuel =>
      if len =? 0 then mret tt else
      modify_st (fun p => set_queue [] (set_current (Some (queue p)) p)) ;;
      drain_inner (S fuel) len ;;
      modify_st (set_index (-1)) ;;
      p ← get_st;
      drain_outer fuel (js_len (queue p))
  end.

Definition drainQueue (fuel : nat) : stM proc unit :=
  p ← get_st;
  if draining p then mret tt else
  let '(p1, timeout) := runTimeout CleanUp p in
  modify_st (fun _ => set_draining true p1) ;;
  p ← get_st;
  drain_outer fuel (js_len (queue p)) ;;
  modify_st (fun p => runClearTimeout timeout (set_draining false (set_current None p))).

Definition cleanUpNextTick (fuel : nat) : stM proc unit :=
  p ← get_st;
  match draining p, currentQueue p with
  | true, Some cq =>
      modify_st (set_draining false) ;;
      match cq with
      | [] => modify_st (set_index (-1))
      | _ => modify_st (fun p => set_queue (cq ++ queue p) p)
      end ;;
      p ← get_st;
      if js_len (queue p) =? 0 then mret tt else drainQueue fuel
  | _, _ => mret tt
  end.

(** The event loop fires a pending timer. *)
Definition fire_timer (fuel : nat) (id : nat) (t : timer) : stM proc unit :=
  modify_st (runClearTimeout id) ;;
  match t with Drain => drainQueue fuel | CleanUp => cleanUpNextTick fuel end.

(** One turn: code outside schedules a tick, or a timer fires and its handler
    comes to an end, by returning or by an uncaught exception. *)
Inductive turn : proc -> proc -> Prop :=
| turn_tick x p : turn p (nextTick x p)
| turn_fire fuel id t p p' r :
    (id, t) ∈ timers p -> fire_timer fuel id t p = (p', r) -> r <> OutOfFuel -> turn p p'.

Inductive reachable : proc -> Prop :=
| reach_init : reachable proc_init
| reach_turn p p' : reachable p -> turn p p' -> reachable p'.
End client.

(** ** What is waiting *)
Definition waiting (p : proc) : list Item :=
  match draining p, currentQueue p with
  | true, Some cq => drop (Z.to_nat (queueIndex p + 1)) cq ++ queue p
  | _, _ => queue p
  end.

(** Between turns: idle, or abandoned in the middle of a drain. *)
Definition idle (p : proc) : Prop :=
  draining p = false /\ queueIndex p = -1 /\
  ((queue p = [] /\ timers p = []) \/ (queue p <> [] /\ exists id, timers p = [(id, Drain)])).

Definition abandoned (p : proc) : Prop :=
  draining p = true /\ (exists cq, currentQueue p = Some cq /\ 0 <= queueIndex p < js_len cq) /\
  exists id, timers p = [(id, CleanUp)].

Definition fifo (p : proc) : Prop := ran p ++ waiting p = pushed p.

Definition proc_inv (p : proc) : Prop := (idle p \/ abandoned p) /\ fifo p.

(** ** Inside a drain *)

(** The state of a running drain: [cq] is being worked through. *)
Record busy (id : nat) (cq : list Item) (p : proc) : Prop := {
  busy_draining : draining p = true;
  busy_timers : timers p = [(id, CleanUp)];
  busy_current : currentQueue p = Some cq;
  busy_fifo : ran p ++ drop (Z.to_nat (queueIndex p + 1)) cq ++ queue p = pushed p
}.

Lemma nextTick_draining x p : draining p = true ->
  nextTick x p = Proc (queue p ++ [x]) true (currentQueue p) (queueIndex p)
    (timers p) (next_timer p) (pushed p ++ [x]) (ran p).
Proof. intros H. unfold nextTick. cbn. rewrite H. by rewrite andb_false_r. Qed.

Lemma ticks_draining ticks p : draining p = true ->
  foldl (fun p y => nextTick y p) p ticks =
  Proc (queue p ++ ticks) true (currentQueue p) (queueIndex p)
    (timers p) (next_timer p) (pushed p ++ ticks) (ran p).
Proof.
  revert p; induction ticks as [|x ticks IH]; intros p H; cbn [foldl].
  - destruct p. cbn in *. subst. by rewrite !app_nil_r.
  - rewrite nextTick_draining, IH by done. cbn. by rewrite <- !app_assoc.
Qed.

Lemma nextTick_inv x p : proc_inv p -> proc_inv (nextTick x p).
Proof.
  unfold proc_inv, fifo. intros [[(Hd & Hi & Ht)|(Hd & (cq & Hc & Hr) & id & Ht)] Hf].
  - unfold waiting in Hf. rewrite Hd in Hf. unfold nextTick. cbn [queue draining]. rewrite Hd.
    destruct Ht as [[Hq Ht]|(Hq & id & Ht)].
    + rewrite Hq. cbn. split.
      * left. split; [done|]. split; [done|]. right. split; [done|]. rewrite Ht. by eexists.
      * rewrite Hq, app_nil_r in Hf. unfold waiting. cbn. by rewrite Hf.
    + assert ((js_len (queue p ++ [x]) =? 1) = false) as ->.
      { apply Z.eqb_neq. rewrite js_len_app. destruct (queue p); [done|]. rewrite js_len_cons.
        change (js_len [x]) with 1. pose proof (js_len_nonneg l). lia. }
      cbn. split.
      * left. split; [done|]. split; [done|]. right. split; [by destruct (queue p)|]. by eexists.
      * unfold waiting. cbn. by rewrite app_assoc, Hf.
  - rewrite nextTick_draining by done. unfold waiting in *. rewrite Hd, Hc in Hf. split.
    + right. split; [done|]. split; [by exists cq|by exists id].
    + cbn. rewrite Hc. by rewrite <- Hf, <- !app_assoc.
Qed.

Section client2.
Context (behave : nat -> list Arg -> list Item * option js_error).

Definition ticks_of (x : Item) : list Item := (behave (item_fun x) (item_array x)).1.

Lemma item_run_draining x p : draining p = true ->
  exists r, item_run behave x p =
    (Proc (queue p ++ ticks_of x) true (currentQueue p) (queueIndex p) (timers p) (next_timer p)
       (pushed p ++ ticks_of x) (ran p ++ [x]), r) /\ r <> OutOfFuel.
Proof.
  intros H. unfold item_run, ticks_of. destruct (behave _ _) as [ticks exn]. unfold mbind, stM_bind, modify_st.
  rewrite ticks_draining by done. cbn. destruct exn; eexists; (split; [reflexivity|done]).
Qed.

Lemma drop_get {A} (l : list A) i x : -1 <= i -> js_get l (i + 1) = Some x ->
  drop (Z.to_nat (i + 1)) l = x :: drop (Z.to_nat (i + 1 + 1)) l.
Proof.
  intros Hi Hx. unfold js_get in Hx. case_match; [done|]. rewrite (drop_S _ _ _ Hx).
  do 2 f_equal. lia.
Qed.

Definition inner_post (id : nat) (cq : list Item) (p : proc) (r : proc * outcome unit) : Prop :=
  ran p `prefix_of` ran r.1 /\
  match r.2 with
  | Ret _ => busy id cq r.1 /\ queueIndex r.1 = js_len cq
  | Throw _ => busy id cq r.1 /\ 0 <= queueIndex r.1 < js_len cq
  | OutOfFuel => True
  end.

(** One round of the inner loop at an index inside the queue. *)
Lemma drain_inner_step fuel id cq p x :
  busy id cq p -> -1 <= queueIndex p -> js_get cq (queueIndex p + 1) = Some x ->
  exists p1 (r : outcome unit), busy id cq p1 /\ queueIndex p1 = queueIndex p + 1 /\ ran p1 = ran p ++ [x] /\
    queue p1 = queue p ++ ticks_of x /\ pushed p1 = pushed p ++ ticks_of x /\ r <> OutOfFuel /\
    drain_inner behave (S fuel) (js_len cq) p =
      match r with
      | Ret _ => drain_inner behave fuel (js_len cq) p1
      | Throw e => (p1, Throw e)
      | OutOfFuel => (p1, OutOfFuel)
      end.
Proof.
  intros [Hd Ht Hc Hf] Hi Hx. pose proof (js_get_Some_range _ _ _ Hx) as Hr.
  destruct (item_run_draining x (set_index (queueIndex p + 1) p) Hd) as (r & Hrun & Hr1).
  eexists _, r. refine (conj _ (conj _ (conj _ (conj _ (conj _ (conj Hr1 _)))))).
  6: { cbn [drain_inner]. unfold mbind at 1 2, stM_bind at 1 2, modify_st, get_st. cbn [queueIndex set_index currentQueue].
       rewrite (proj2 (Z.ltb_lt _ _)) by lia. rewrite Hc, Hx. unfold mbind, stM_bind. rewrite Hrun.
       by destruct r. }
  - split; cbn; [done|done|done|].
    rewrite <- Hf, (drop_get cq (queueIndex p) x) by done. by rewrite <- !app_assoc.
  - done.
  - done.
  - done.
  - done.
Qed.

Lemma drain_inner_spec fuel id cq p :
  busy id cq p -> -1 <= queueIndex p < js_len cq ->
  inner_post id cq p (drain_inner behave fuel (js_len cq) p).
Proof.
  revert p; induction fuel as [|fuel IH]; intros p Hb Hi; [by split|].
  destruct (js_get cq (queueIndex p + 1)) as [x|] eqn:Hx.
  - destruct (drain_inner_step fuel id cq p x Hb) as (p1 & r & Hb1 & Hi1 & Hr1 & _ & _ & Hrf & ->); [lia|done|].
    pose proof (js_get_Some_range _ _ _ Hx).
    assert (ran p `prefix_of` ran p1) as Hp1 by (rewrite Hr1; by exists [x]).
    destruct r as [u|e|]; [|split; [done|]; split; [done|cbn; lia]|done].
    destruct (IH p1 Hb1) as [Hp2 Hpost]; [lia|]. split; [by etrans|done].
  - apply js_get_None_range in Hx. assert (queueIndex p = js_len cq - 1) as Hq by lia.
    cbn [drain_inner]. unfold mbind, stM_bind, modify_st, get_st. cbn [queueIndex set_index].
    rewrite (proj2 (Z.ltb_ge _ _)) by lia. split; [done|]. cbn. split; [|lia].
    destruct Hb as [Hd Ht Hc Hf]. split; cbn; [done|done|done|]. rewrite <- Hf.
    rewrite !drop_ge by (unfold js_len in *; lia). done.
Qed.

Definition drain_post (p : proc) (id : nat) (r : proc * outcome unit) : Prop :=
  ran p `prefix_of` ran r.1 /\
  match r.2 with
  | Ret _ => draining r.1 = true /\ timers r.1 = [(id, CleanUp)] /\ queueIndex r.1 = -1 /\
             queue r.1 = [] /\ ran r.1 = pushed r.1
  | Throw _ => abandoned r.1 /\ fifo r.1
  | OutOfFuel => True
  end.

Lemma busy_abandoned id cq p : busy id cq p -> 0 <= queueIndex p < js_len cq -> abandoned p /\ fifo p.
Proof.
  intros [Hd Ht Hc Hf] Hi. split.
  - split; [done|]. split; [by exists cq|by exists id].
  - unfold fifo, waiting. by rewrite Hd, Hc.
Qed.

Lemma drain_outer_spec fuel id p :
  draining p = true -> timers p = [(id, CleanUp)] -> -1 <= queueIndex p ->
  (queueIndex p < js_len (queue p)) ->
  ran p ++ drop (Z.to_nat (queueIndex p + 1)) (queue p) = pushed p ->
  drain_post p id (drain_outer behave fuel (js_len (queue p)) p).
Proof.
  revert p; induction fuel as [|fuel IH]; intros p Hd Ht Hi1 Hi2 Hf; cbn [drain_outer]; [by split|].
  destruct (js_len (queue p) =? 0) eqn:E; bool_props.
  - assert (queue p = []) as Hq by (destruct (queue p); [done|rewrite js_len_cons in E; pose proof (js_len_nonneg l); lia]).
    split; [done|]. cbn. rewrite Hq, drop_nil, app_nil_r in Hf. rewrite E in Hi2.
    split; [done|]. split; [done|]. split; [lia|done].
  - unfold mbind at 1, stM_bind at 1, modify_st at 1.
    set (p1 := set_queue [] (set_current (Some (queue p)) p)).
    assert (busy id (queue p) p1) as Hb by (split; cbn; [done|done|done|by rewrite app_nil_r]).
    destruct (drain_inner_spec (S fuel) id (queue p) p1 Hb) as [Hpre Hpost]; [cbn; lia|].
    unfold mbind at 1, stM_bind at 1.
    destruct (drain_inner behave (S fuel) (js_len (queue p)) p1) as [p2 [u|e|]]; cbn [fst snd] in *.
    + destruct Hpost as [[Hd2 Ht2 Hc2 Hf2] Hi]. unfold mbind, stM_bind, modify_st, get_st.
      rewrite drop_ge in Hf2 by (unfold js_len in *; lia).
      destruct (IH (set_index (-1) p2)) as [Hp3 Hpost3]; cbn; [done|done|lia| |done|].
      { pose proof (js_len_nonneg (queue p2)). lia. }
      split; [by etrans|done].
    + destruct Hpost as [Hb2 Hi]. split; [done|]. by apply (busy_abandoned id (queue p)).
    + done.
Qed.

(** What a timer handler leaves behind: everything run, or an abandoned drain. *)
Definition handler_post (p : proc) (r : proc * outcome unit) : Prop :=
  ran p `prefix_of` ran r.1 /\
  match r.2 with
  | Ret _ => idle r.1 /\ fifo r.1 /\ queue r.1 = []
  | Throw _ => abandoned r.1 /\ fifo r.1
  | OutOfFuel => True
  end.

Lemma drainQueue_spec fuel p :
  draining p = false -> timers p = [] -> -1 <= queueIndex p < js_len (queue p) ->
  ran p ++ drop (Z.to_nat (queueIndex p + 1)) (queue p) = pushed p ->
  handler_post p (drainQueue behave fuel p).
Proof.
  intros Hd Ht Hi Hf. unfold drainQueue, mbind at 1, stM_bind at 1, get_st at 1. rewrite Hd.
  cbn [runTimeout]. unfold mbind at 1 2, stM_bind at 1 2, modify_st at 1, get_st. set (p1 := set_draining true _).
  destruct (drain_outer_spec fuel (next_timer p) p1) as [Hpre Hpost]; cbn; [done|by rewrite Ht|lia|lia|done|].
  unfold mbind, stM_bind. destruct (drain_outer behave fuel _ p1) as [p2 [u|e|]]; cbn [fst snd] in *; [|done|done].
  destruct Hpost as (Hd2 & Ht2 & Hi2 & Hq2 & Hf2). unfold modify_st. split; [done|]. cbn [snd fst].
  split; [|split; [|done]].
  - split; [done|]. split; [done|]. left. split; [done|]. cbn. rewrite Ht2. cbn. by rewrite Nat.eqb_refl.
  - unfold fifo, waiting. cbn. by rewrite Hq2, app_nil_r.
Qed.

Lemma clear_only id t p : timers p = [(id, t)] -> timers (runClearTimeout id p) = [].
Proof. intros H. cbn. rewrite H. cbn. by rewrite Nat.eqb_refl. Qed.

Lemma fire_spec fuel id t p :
  proc_inv p -> timers p = [(id, t)] -> handler_post p (fire_timer behave fuel id t p).
Proof.
  intros [Hs Hf] Ht. pose proof (clear_only id t p Ht) as Hc. unfold fire_timer, mbind at 1, stM_bind at 1, modify_st at 1.
  set (p1 := runClearTimeout id p) in *. destruct Hs as [(Hd & Hi & Hq)|(Hd & (cq & Hcq & Hi) & id' & Ht')].
  - destruct Hq as [[_ Hn]|(Hq & id' & Hn)]; [congruence|]. rewrite Ht in Hn. injection Hn as -> ->.
    apply (drainQueue_spec fuel p1); [done|done|cbn|cbn].
    + rewrite Hi. destruct (queue p) as [|y q]; [done|]. rewrite js_len_cons. pose proof (js_len_nonneg q). lia.
    + rewrite Hi. cbn. unfold fifo, waiting in Hf. by rewrite Hd in Hf.
  - rewrite Ht in Ht'. injection Ht' as -> ->. unfold fifo, waiting in Hf. rewrite Hd, Hcq in Hf.
    unfold cleanUpNextTick, mbind at 1, stM_bind at 1, get_st at 1.
    change (draining p1) with (draining p). change (currentQueue p1) with (currentQueue p). rewrite Hd, Hcq.
    destruct cq as [|y cq]; [unfold js_len in Hi; cbn in Hi; lia|].
    unfold mbind, stM_bind, modify_st, get_st. set (p2 := set_queue _ _).
    assert (js_len (queue p2) = js_len (y :: cq) + js_len (queue p)) as Hl by apply js_len_app.
    pose proof (js_len_nonneg (queue p)). rewrite (proj2 (Z.eqb_neq _ 0)) by lia.
    apply (drainQueue_spec fuel p2); [done|done| |].
    + change (queueIndex p2) with (queueIndex p). lia.
    + change (queueIndex p2) with (queueIndex p). change (queue p2) with ((y :: cq) ++ queue p).
      rewrite drop_app_le by (unfold js_len in Hi; lia). exact Hf.
Qed.

Lemma handler_post_inv p r : handler_post p r -> r.2 <> OutOfFuel -> proc_inv r.1.
Proof.
  destruct r as [p' [u|e|]]; intros [_ H] Hr; cbn in *; [|by split; [right|]; destruct H|done].
  destruct H as (H1 & H2 & _). split; [by left|done].
Qed.

Lemma inv_one_timer p id t : proc_inv p -> (id, t) ∈ timers p -> timers p = [(id, t)].
Proof.
  intros [[(_ & _ & [[_ Ht]|(_ & i & Ht)])|(_ & _ & i & Ht)] _]; rewrite Ht; intros Hin.
  - by apply not_elem_of_nil in Hin.
  - by apply list_elem_of_singleton in Hin as ->.
  - by apply list_elem_of_singleton in Hin as ->.
Qed.

Lemma reachable_inv p : reachable behave p -> proc_inv p.
Proof.
  induction 1 as [|p p' _ IH Ht].
  - split; [left|done]. split; [done|]. split; [done|]. by left.
  - destruct Ht as [x p|fuel id t p p' r Hin Hfire Hr]; [by apply nextTick_inv|].
    pose proof (fire_spec fuel id t p IH (inv_one_timer p id t IH Hin)) as Hpost. rewrite Hfire in Hpost.
    by apply (handler_post_inv _ _ Hpost).
Qed.

(** ** Results *)

(** C29: ticks run exactly once, in order.  In every reachable state the callbacks
    that have run, followed by the ones waiting, are exactly the scheduled ones in
    the order of their [nextTick] calls, also after uncaught exceptions. *)
Theorem ticks_fifo (p : proc) (Hp : reachable behave p) : ran p ++ waiting p = pushed p.
Proof. by apply reachable_inv in Hp as [_ ?]. Qed.

(** No tick is forgotten.  Whenever a callback is waiting between turns, a
    timer is pending that will run it. *)
Theorem ticks_scheduled (p : proc) (Hp : reachable behave p) (Hw : waiting p <> []) :
  exists id t, timers p = [(id, t)].
Proof.
  apply reachable_inv in Hp as [[(Hd & _ & [[Hq Ht]|(_ & i & Ht)])|(_ & _ & i & Ht)] _]; [|eauto..].
  unfold waiting in Hw. by rewrite Hd, Hq in Hw.
Qed.

(** ** All ticks run *)

(** A round of the outer loop, and the clean-up of [drainQueue]. *)
Lemma drain_outer_round fuel len p : len <> 0 ->
  drain_outer behave (S fuel) len p =
  match drain_inner behave (S fuel) len (set_queue [] (set_current (Some (queue p)) p)) with
  | (p2, Ret _) => drain_outer behave fuel (js_len (queue p2)) (set_index (-1) p2)
  | (p2, Throw e) => (p2, Throw e)
  | (p2, OutOfFuel) => (p2, OutOfFuel)
  end.
Proof. intros H. cbn [drain_outer]. by rewrite (proj2 (Z.eqb_neq len 0) H). Qed.

Lemma drainQueue_round fuel p : draining p = false ->
  drainQueue behave fuel p =
  match drain_outer behave fuel (js_len (queue p)) (set_draining true (runTimeout CleanUp p).1) with
  | (p2, Ret _) => (runClearTimeout (next_timer p) (set_draining false (set_current None p2)), Ret tt)
  | (p2, Throw e) => (p2, Throw e)
  | (p2, OutOfFuel) => (p2, OutOfFuel)
  end.
Proof. intros H. unfold drainQueue, mbind, stM_bind, get_st. by rewrite H. Qed.

(** The callbacks of [P] schedule callbacks of [P], and [cost] bounds how many callbacks
    one gives rise to, itself included. *)
Section bounded.
Context (P : Item -> Prop) (cost : Item -> nat).
Hypothesis spawn_P : forall x y, P x -> y ∈ ticks_of x -> P y.
Hypothesis spawn_cost : forall x, P x -> (S (sum_list_with cost (ticks_of x)) <= cost x)%nat.

Definition weight (l : list Item) : nat := sum_list_with cost l.

Lemma weight_app l1 l2 : weight (l1 ++ l2) = (weight l1 + weight l2)%nat.
Proof. unfold weight. induction l1 as [|x l1 IH]; [done|]. cbn. rewrite IH. lia. Qed.

Lemma weight_length l : Forall P l -> (length l <= weight l)%nat.
Proof. induction 1 as [|x l Hx _ IH]; [done|]. pose proof (spawn_cost x Hx). unfold weight in *. cbn. lia. Qed.

Lemma spawn_all x : P x -> Forall P (ticks_of x).
Proof. intros Hx. apply Forall_forall. intros y. by apply spawn_P. Qed.

(** What a running drain has before it. *)
Definition ahead (cq : list Item) (p : proc) : list Item := drop (Z.to_nat (queueIndex p + 1)) cq ++ queue p.

Lemma ahead_waiting id cq p : busy id cq p -> waiting p = ahead cq p.
Proof. intros [Hd _ Hc _]. unfold waiting. by rewrite Hd, Hc. Qed.

(** The loops end, and an exception leaves less to do than there was. *)
Definition ends (m : nat) (r : proc * outcome unit) : Prop :=
  match r.2 with
  | Ret _ => True
  | Throw _ => Forall P (waiting r.1) /\ (weight (waiting r.1) < m)%nat
  | OutOfFuel => False
  end.

Lemma drain_inner_ends fuel id cq p :
  busy id cq p -> -1 <= queueIndex p < js_len cq -> (js_len cq - queueIndex p <= Z.of_nat fuel) -> Forall P (ahead cq p) ->
  let r := drain_inner behave fuel (js_len cq) p in
  ends (weight (ahead cq p)) r /\
  (r.2 = Ret tt -> Forall P (queue r.1) /\ (weight (queue r.1) <= weight (ahead cq p))%nat /\
    (queueIndex p + 1 < js_len cq -> (weight (queue r.1) < weight (ahead cq p))%nat)).
Proof.
  revert p; induction fuel as [|fuel IH]; intros p Hb Hi Hfuel HP; [lia|].
  destruct (js_get cq (queueIndex p + 1)) as [x|] eqn:Hx.
  - destruct (drain_inner_step fuel id cq p x Hb) as (p1 & r & Hb1 & Hi1 & Hr1 & Hq1 & Hu1 & Hrf & ->); [lia|done|].
    pose proof (js_get_Some_range _ _ _ Hx). unfold ahead in HP |- *. rewrite (drop_get cq (queueIndex p) x) in HP |- * by (done || lia).
    apply Forall_cons in HP as [Px HP]. pose proof (spawn_cost x Px) as Hc. fold (weight (ticks_of x)) in Hc.
    assert (Forall P (ahead cq p1)) as HP1.
    { unfold ahead. rewrite Hi1, Hq1, app_assoc. apply Forall_app. split; [done|by apply spawn_all]. }
    assert (weight (ahead cq p1) < weight ((x :: drop (Z.to_nat (queueIndex p + 1 + 1)) cq) ++ queue p))%nat as Hlt.
    { unfold ahead. rewrite Hi1, Hq1. rewrite !weight_app. change (weight (x :: ?l)) with (cost x + weight l)%nat. lia. }
    destruct r as [u|e|]; [|split; [|done]|done].
    + cbv zeta. destruct (IH p1 Hb1) as [He Hret]; [lia|lia|done|]. split.
      * unfold ends in *. destruct (drain_inner _ _ _ _) as [p2 [v|e|]]; cbn in *; [done| |done]. split; [apply He|]. lia.
      * intros HR. destruct (Hret HR) as (H1 & H2 & _). split_and!; [done|lia|intros _; lia].
    + unfold ends. cbn. by rewrite (ahead_waiting id cq).
  - apply js_get_None_range in Hx. cbn [drain_inner]. unfold mbind, stM_bind, modify_st, get_st.
    cbn [queueIndex set_index]. rewrite (proj2 (Z.ltb_ge _ _)) by lia. unfold ends. cbn -[weight]. split; [done|]. intros _.
    unfold ahead in *. apply Forall_app in HP as [_ HP]. rewrite weight_app. split_and!; [done|lia|intros; lia].
Qed.

Lemma drain_outer_ends fuel id p :
  draining p = true -> timers p = [(id, CleanUp)] -> -1 <= queueIndex p < js_len (queue p) ->
  ran p ++ drop (Z.to_nat (queueIndex p + 1)) (queue p) = pushed p ->
  let todo := drop (Z.to_nat (queueIndex p + 1)) (queue p) in
  Forall P todo -> (weight todo + (if decide (queueIndex p = -1)%Z then 1 else 2) <= fuel)%nat ->
  ends (weight todo) (drain_outer behave fuel (js_len (queue p)) p).
Proof.
  revert p; induction fuel as [|fuel IH]; intros p Hd Ht Hi Hf todo HP Hfuel; [case_decide; lia|].
  destruct (js_len (queue p) =? 0) eqn:E; bool_props; [by rewrite E|].
  rewrite drain_outer_round by done. set (p1 := set_queue [] (set_current (Some (queue p)) p)).
  assert (busy id (queue p) p1) as Hb by (split; cbn; [done|done|done|by rewrite app_nil_r]).
  assert (ahead (queue p) p1 = todo) as Ha by apply app_nil_r.
  pose proof (weight_length _ HP) as Hlen. unfold todo in Hlen. rewrite length_drop in Hlen. fold todo in Hlen.
  destruct (drain_inner_ends (S fuel) id (queue p) p1 Hb) as [He Hret].
  { done. }
  { change (queueIndex p1) with (queueIndex p). unfold js_len in *. case_decide; lia. }
  { by rewrite Ha. }
  destruct (drain_inner_spec (S fuel) id (queue p) p1 Hb) as [_ Hpost]; [done|]. rewrite Ha in He, Hret.
  destruct (drain_inner behave (S fuel) (js_len (queue p)) p1) as [p2 [[]|e|]]; cbn [fst snd] in *; [|done|done].
  destruct Hpost as [[Hd2 Ht2 Hc2 Hf2] Hi2]. destruct Hret as (HP2 & Hle & Hlt); [done|].
  rewrite drop_ge in Hf2 by (unfold js_len in *; lia).
  assert (ends (weight (queue p2)) (drain_outer behave fuel (js_len (queue p2)) (set_index (-1) p2))) as H2.
  { apply (IH (set_index (-1) p2)); [done|done|cbn; pose proof (js_len_nonneg (queue p2)); lia|done|done|].
    rewrite decide_True by done. change (weight (drop _ _)) with (weight (queue p2)). change (queueIndex p1) with (queueIndex p) in Hlt.
    destruct (decide (queueIndex p = -1)) as [Hq|_]; [|lia]. specialize (Hlt ltac:(pose proof (js_len_nonneg (queue p)); lia)). lia. }
  unfold ends in *. destruct (drain_outer _ _ _ _) as [p3 [v|e|]]; cbn [fst snd] in *; [done| |done]. split; [apply H2|]. lia.
Qed.

Lemma drainQueue_ends fuel p :
  draining p = false -> timers p = [] -> -1 <= queueIndex p < js_len (queue p) ->
  let todo := drop (Z.to_nat (queueIndex p + 1)) (queue p) in
  ran p ++ todo = pushed p -> Forall P todo -> (weight todo + 2 <= fuel)%nat ->
  ends (weight todo) (drainQueue behave fuel p).
Proof.
  intros Hd Ht Hi todo Hf HP Hfuel. rewrite drainQueue_round by done. set (p1 := set_draining true _).
  assert (ends (weight todo) (drain_outer behave fuel (js_len (queue p1)) p1)) as He.
  { apply (drain_outer_ends fuel (next_timer p) p1); [done|cbn; by rewrite Ht|done|done|done|]. change (weight (drop _ _)) with (weight todo). case_decide; lia. }
  change (js_len (queue p1)) with (js_len (queue p)) in He.
  unfold ends in *. by destruct (drain_outer behave fuel (js_len (queue p)) p1) as [p2 [u|e|]].
Qed.

(** Firing the pending timer, with fuel for what is waiting. *)
Lemma fire_ends fuel id t p :
  proc_inv p -> timers p = [(id, t)] -> Forall P (waiting p) -> (weight (waiting p) + 2 <= fuel)%nat ->
  ends (weight (waiting p)) (fire_timer behave fuel id t p).
Proof.
  intros [Hs Hf] Ht HP Hfuel. pose proof (clear_only id t p Ht) as Hc.
  set (p1 := runClearTimeout id p) in *.
  assert (fire_timer behave fuel id t p =
    match t with Drain => drainQueue behave fuel | CleanUp => cleanUpNextTick behave fuel end p1) as -> by done.
  destruct Hs as [(Hd & Hi & Hq)|(Hd & (cq & Hcq & Hi) & id' & Ht')]; unfold fifo, waiting in *.
  - rewrite Hd in *. destruct Hq as [[_ Hn]|(Hq & id' & Hn)]; [congruence|]. rewrite Ht in Hn. injection Hn as -> ->.
    assert (drop (Z.to_nat (queueIndex p1 + 1)) (queue p1) = queue p) as E by (change (queueIndex p1) with (queueIndex p); by rewrite Hi).
    rewrite <- E in Hf, HP, Hfuel |- *. apply drainQueue_ends; [done|done| |done|done|done].
    cbn. rewrite Hi. destruct (queue p) as [|y q]; [done|]. rewrite js_len_cons. pose proof (js_len_nonneg q). lia.
  - rewrite Ht in Ht'. injection Ht' as -> ->. rewrite Hd, Hcq in *.
    set (p2 := set_queue (cq ++ queue p) (set_draining false p1)).
    assert (js_len (queue p2) = js_len cq + js_len (queue p)) as Hl by apply js_len_app. pose proof (js_len_nonneg (queue p)).
    assert (cleanUpNextTick behave fuel p1 = drainQueue behave fuel p2) as ->.
    { unfold cleanUpNextTick, mbind, stM_bind, get_st, modify_st.
      change (draining p1) with (draining p). change (currentQueue p1) with (currentQueue p). rewrite Hd, Hcq.
      destruct cq as [|y cq]; [unfold js_len in Hi; cbn in Hi; lia|].
      change (queue (set_draining false p1)) with (queue p). fold p2.
      by rewrite (proj2 (Z.eqb_neq (js_len (queue p2)) 0)) by lia. }
    assert (drop (Z.to_nat (queueIndex p2 + 1)) (queue p2) = drop (Z.to_nat (queueIndex p + 1)) cq ++ queue p) as E.
    { change (queueIndex p2) with (queueIndex p). change (queue p2) with (cq ++ queue p). apply drop_app_le. unfold js_len in Hi. lia. }
    rewrite <- E in Hf, HP, Hfuel |- *. apply drainQueue_ends; [done|done| |done|done|done].
    change (queueIndex p2) with (queueIndex p). lia.
Qed.
End bounded.

(** Fires pending timers, at most [n] of them. *)
Fixpoint settle (n fuel : nat) (p : proc) : proc :=
  match n with
  | O => p
  | S n => match timers p with
           | [] => p
           | (id, t) :: _ => settle n fuel (fire_timer behave fuel id t p).1
           end
  end.

(** At rest: no timer is pending, and all that was scheduled has run, in order. *)
Definition at_rest (p : proc) : Prop := timers p = [] /\ waiting p = [] /\ ran p = pushed p.

Lemma inv_at_rest p : proc_inv p -> timers p = [] -> at_rest p.
Proof.
  intros [Hs Hf] Ht. destruct Hs as [(Hd & _ & [[Hq _]|(_ & i & H)])|(_ & _ & i & H)]; [|congruence..].
  assert (waiting p = []) as Hw by (unfold waiting; by rewrite Hd, Hq). unfold fifo in Hf. rewrite Hw, app_nil_r in Hf. done.
Qed.

Lemma settle_rests P cost n fuel p :
  (forall x y, P x -> y ∈ ticks_of x -> P y) -> (forall x, P x -> (S (sum_list_with cost (ticks_of x)) <= cost x)%nat) ->
  proc_inv p -> Forall P (waiting p) -> (weight cost (waiting p) < n)%nat -> (weight cost (waiting p) + 2 <= fuel)%nat ->
  at_rest (settle n fuel p).
Proof.
  intros HP Hc. revert p; induction n as [|n IH]; intros p Hp Hw Hn Hfuel; [lia|]. cbn [settle].
  destruct (timers p) as [|[id t] l] eqn:Et; [by apply inv_at_rest|].
  assert (timers p = [(id, t)]) as Ht by (apply (inv_one_timer p id t Hp); rewrite Et; by left).
  pose proof (fire_ends P cost HP Hc fuel id t p Hp Ht Hw Hfuel) as He. pose proof (fire_spec fuel id t p Hp Ht) as Hpost.
  assert (proc_inv (fire_timer behave fuel id t p).1) as Hp'.
  { apply (handler_post_inv _ _ Hpost). intros E. unfold ends in He. by rewrite E in He. }
  unfold ends in He. destruct (fire_timer behave fuel id t p) as [p' [u|e|]]; cbn [fst snd] in *; [|apply IH; [done|apply He|lia|lia]|done].
  destruct Hpost as [_ [(_ & _ & [[_ Ht']|[Hq _]]) [_ Hq']]]; [|done]. 
  assert (settle n fuel p' = p') as ->; [|by apply inv_at_rest]. cbn in Ht'. destruct n; cbn [settle]; [done|by rewrite Ht'].
Qed.

(** ** Callbacks that give rise to finitely many others *)

(** [y] is scheduled by the callback [x]. *)
Definition spawns (y x : Item) : Prop := y ∈ ticks_of x.

Fixpoint shallow (d : nat) (x : Item) : Prop :=
  match d with O => False | S d => Forall (shallow d) (ticks_of x) end.

Fixpoint offspring (d : nat) (x : Item) : nat :=
  match d with O => O | S d => S (sum_list_with (offspring d) (ticks_of x)) end.

Lemma shallow_le d e x : (d <= e)%nat -> shallow d x -> shallow e x.
Proof.
  revert e x. induction d as [|d IH]; intros [|e] x Hde; cbn [shallow]; [done|done|lia|].
  intros Hx. apply (Forall_impl _ _ _ Hx). intros y. apply IH. lia.
Qed.

Lemma offspring_le d e x : (d <= e)%nat -> shallow d x -> offspring e x = offspring d x.
Proof.
  revert e x. induction d as [|d IH]; intros [|e] x Hde; cbn [shallow offspring]; [done|done|lia|]. intros Hx. f_equal.
  induction Hx as [|y l Hy _ IHl]; [done|]. cbn. rewrite IHl, (IH e) by (done || lia). done.
Qed.

Lemma shallow_all l : Forall (fun x => exists d, shallow d x) l -> exists d, Forall (shallow d) l.
Proof.
  induction 1 as [|x l [d Hd] _ [e He]]; [by exists O|]. exists (d + e)%nat. constructor; [by apply (shallow_le d); [lia|]|].
  apply (Forall_impl _ _ _ He). intros y. apply shallow_le. lia.
Qed.

Lemma finite_shallow x : Acc spawns x -> exists d, shallow d x.
Proof.
  induction 1 as [x _ IH]. destruct (shallow_all (ticks_of x)) as [d Hd]; [|by exists (S d)]. apply Forall_forall. exact IH.
Qed.

Lemma finite_rests p : proc_inv p -> Forall (Acc spawns) (waiting p) ->
  exists enough, forall n fuel, (enough <= n)%nat -> (enough <= fuel)%nat -> at_rest (settle n fuel p).
Proof.
  intros Hp Hw. destruct (shallow_all (waiting p)) as [d Hd].
  { apply (Forall_impl _ _ _ Hw). exact finite_shallow. }
  exists (weight (offspring d) (waiting p) + 2)%nat. intros n fuel Hn Hf.
  apply (settle_rests (shallow d) (offspring d)); [| |done|done|lia|done].
  - intros x y Hx Hy. destruct d as [|d]; [done|]. apply (shallow_le d); [lia|]. by apply (proj1 (Forall_forall _ _) Hx).
  - intros x Hx. destruct d as [|d]; [done|]. cbn [shallow] in Hx. change (offspring (S d) x) with (S (sum_list_with (offspring d) (ticks_of x))). apply le_n_S, Nat.eq_le_incl.
    induction Hx as [|y l Hy _ IH]; [done|]. cbn -[offspring]. by rewrite IH, (offspring_le d (S d)) by (done || lia).
Qed.
End client2.
End process.

(** C30: everything scheduled is run, also what callbacks schedule while they run.  When
    each waiting callback gives rise to finitely many others, firing the pending timers
    comes to rest whichever callbacks throw: no timer is left, and all callbacks that were
    scheduled before or meanwhile have run, in order. *)
Theorem ticks_all_run {Arg} (behave : nat -> list Arg -> list (Item (Arg := Arg)) * option js_error)
    (p : proc) (Hp : reachable behave p) (Hfin : Forall (Acc (spawns behave)) (waiting p)) :
  exists enough, forall n fuel, (enough <= n)%nat -> (enough <= fuel)%nat ->
    let p' := settle behave n fuel p in timers p' = [] /\ waiting p' = [] /\ ran p' = pushed p'.
Proof. apply finite_rests; [by apply reachable_inv in Hp|done]. Qed.

(** A client whose callback 1 schedules callback 0 and throws. *)
Definition demo_behave (f : nat) (a : list Z) : list (Item (Arg := Z)) * option js_error :=
  if (f =? 1)%nat then ([MkItem 0 [7]], Some (PlainError "boom")) else ([], None).

Definition demo_queue : proc (Arg := Z) :=
  nextTick (MkItem 2 []) (nextTick (MkItem 1 []) (nextTick (MkItem 0 []) proc_init)).

Lemma demo_reachable : reachable demo_behave demo_queue.
Proof. repeat (eapply reach_turn; [|apply turn_tick]). apply reach_init. Qed.

Lemma demo_leaf f a : (f =? 1)%nat = false -> Acc (spawns demo_behave) (MkItem f a).
Proof. intros Hf. constructor. intros y Hy. unfold spawns, ticks_of, demo_behave in Hy. cbn in Hy. rewrite Hf in Hy. by apply not_elem_of_nil in Hy. Qed.

Lemma demo_finite f a : Acc (spawns demo_behave) (MkItem f a).
Proof.
  destruct (f =? 1)%nat eqn:Hf; [|by apply demo_leaf]. constructor. intros y Hy. unfold spawns, ticks_of, demo_behave in Hy. cbn in Hy.
  rewrite Hf in Hy. apply list_elem_of_singleton in Hy as ->. by apply demo_leaf.
Qed.

Lemma ticks_all_run_witness :
  (exists enough, forall n fuel, (enough <= n)%nat -> (enough <= fuel)%nat ->
    let p' := settle demo_behave n fuel demo_queue in timers p' = [] /\ waiting p' = [] /\ ran p' = pushed p') /\
  ran (settle demo_behave 4 8 demo_queue) = [MkItem 0 []; MkItem 1 []; MkItem 2 []; MkItem 0 [7]].
Proof.
  split; [|by vm_compute].
  exact (ticks_all_run demo_behave demo_queue demo_reachable (proj2 (Forall_forall _ _) (fun '(MkItem f a) _ => demo_finite f a))).
Defined.

Lemma ticks_fifo_witness : ran demo_queue ++ waiting demo_queue = [MkItem 0 []; MkItem 1 []; MkItem 2 []].
Proof. exact (ticks_fifo demo_behave demo_queue demo_reachable). Defined.

Lemma ticks_scheduled_witness : exists id t, timers demo_queue = [(id, t)].
Proof. apply (ticks_scheduled demo_behave demo_queue demo_reachable). discriminate. Defined.
