(* ===== verification/ProcessTimers.v ===== *)
(** * The timer functions of the process module

    Module 24 of wordcut.js keeps the timer functions it found when it was loaded, so that
    a page that replaces them later does not break it.  Process.v takes that for granted;
    here the code that finds and calls them is modelled, for [setTimeout] and
    [clearTimeout] alike, with globals that may be missing, change or appear, and host
    functions that may refuse a call by its [this]. *)
From stdpp Require Import list.
From S2P Require Import Prelude.

(** ** Values *)

(** A host function, the module's function that always throws, or another value. *)
Inductive timer_value : Type := Host (f : nat) | NotDefined | Other (truthy : bool).

#[export] Instance timer_value_eq_dec : EqDecision timer_value.
Proof. solve_decision. Defined.

(** A global that is not declared at all cannot be read. *)
Inductive global : Type := Undeclared | Declared (v : timer_value).

(** How a function is called: by its name, with null, with the [this] of the caller. *)
Inductive mode : Type := Plain | WithNull | WithThis.

(** The end of a call: the host function that ran, or the message of what was thrown. *)
Inductive ending : Type := Called (f : nat) | Threw (message : string).

Section timers.

(** Whether a host function accepts a call. *)
Context (accepts : nat -> mode -> bool).

Definition is_truthy (v : timer_value) : bool := match v with Other t => t | _ => true end.

(** Calling a value; [name] is the function's name in the messages. *)
Definition call_value (name : string) (v : timer_value) (m : mode) : ending :=
  match v with
  | Host f => if accepts f m then Called f else Threw "Illegal invocation"
  | NotDefined => Threw (name ++ " has not been defined")
  | Other _ => Threw "not a function"
  end.

(** The value that is kept when the module is loaded. *)
Definition found_at_load (g : global) : timer_value :=
  match g with Declared (Host f) => Host f | _ => NotDefined end.

(** [runTimeout] and [runClearTimeout]: the value kept afterwards and the end. *)
Definition run_cached (name : string) (g : global) (cached : timer_value) : timer_value * ending :=
  match g with
  | Undeclared => (cached, Threw (name ++ " is not defined"))
  | Declared v =>
      if bool_decide (cached = v) then (cached, call_value name v Plain) else
      if (bool_decide (cached = NotDefined) || negb (is_truthy cached)) && is_truthy v then (v, call_value name v Plain) else
      match call_value name cached Plain with
      | Called f => (cached, Called f)
      | Threw _ =>
          match call_value name cached WithNull with
          | Called f => (cached, Called f)
          | Threw _ => (cached, call_value name cached WithThis)
          end
      end
  end.

(** ** A page that loads the module and calls it while its globals change *)
Fixpoint run_page (name : string) (cached : timer_value) (globals : list global) : list ending :=
  match globals with
  | [] => []
  | g :: globals => let '(cached, e) := run_cached name g cached in e :: run_page name cached globals
  end.

Definition load_page (name : string) (first : global) (globals : list global) : list ending :=
  run_page name (found_at_load first) globals.

(** ** What the module promises *)

(** The function that was kept answers in each call, as long as it accepts plain calls. *)
Lemma run_cached_host name f g : accepts f Plain = true ->
  run_cached name g (Host f) = (Host f, match g with Undeclared => Threw (name ++ " is not defined") | Declared _ => Called f end).
Proof.
  intros Hf. destruct g as [|v]; [done|]. unfold run_cached. case_bool_decide as E; [subst v; cbn; by rewrite Hf|].
  cbn. by rewrite Hf.
Qed.

Lemma run_page_host name f globals : accepts f Plain = true ->
  run_page name (Host f) globals = map (fun g => match g with Undeclared => Threw (name ++ " is not defined") | Declared _ => Called f end) globals.
Proof.
  intros Hf. induction globals as [|g globals IH]; [done|]. cbn [run_page map]. by rewrite run_cached_host, IH.
Qed.

(** The function found at load time is called whatever the global is replaced by; and where
    none was found, the first function that appears is, in every call from then on, and
    each call before says that there is none. *)
Theorem timers_kept (name : string) (f : nat) (Hf : accepts f Plain = true) (later : list global) :
  (Forall (fun g => g <> Undeclared) later -> load_page name (Declared (Host f)) later = map (fun _ => Called f) later) /\
  forall n, load_page name (Declared (Other false)) (replicate n (Declared (Other false)) ++ Declared (Host f) :: later) =
    replicate n (Threw (name ++ " has not been defined")) ++ Called f ::
    map (fun g => match g with Undeclared => Threw (name ++ " is not defined") | Declared _ => Called f end) later.
Proof.
  split.
  - intros Hl. unfold load_page. cbn [found_at_load]. rewrite run_page_host by done. induction Hl as [|g later Hg Hl IH]; [done|].
    cbn [map]. rewrite IH. by destruct g.
  - unfold load_page. cbn [found_at_load]. induction n as [|n IH]; cbn [replicate app run_page].
    + assert (run_cached name (Declared (Host f)) NotDefined = (Host f, Called f)) as -> by (unfold run_cached; cbn; by rewrite Hf).
      by rewrite run_page_host.
    + change (run_cached name (Declared (Other false)) NotDefined) with (NotDefined, Threw (name ++ " has not been defined")). cbv iota beta. by rewrite IH.
Qed.

(** A global that was never declared cannot be compared with: the call throws the error of
    the language in place of the module's own. *)
Lemma undeclared_throws name cached : run_cached name Undeclared cached = (cached, Threw (name ++ " is not defined")).
Proof. done. Qed.
End timers.

(** A value that is no function is kept when it appears first, and used from then on, also
    after a function has appeared. *)
Lemma wrong_value_kept :
  load_page (fun _ _ => true) "setTimeout" (Declared (Other false)) [Declared (Other true); Declared (Host 0)] =
    [Threw "not a function"; Threw "not a function"].
Proof. by vm_compute. Qed.
