(* ===== verification/Callbacks.v ===== *)
(** * Callback wrappers and request coalescing

    Modules 18 (inflight), 21 (once) and 29 (wrappy) of
    docs/generated_site/assets/javascripts/lunr/wordcut.js.  [inflight] keeps one
    list of callbacks per key and answers them together; callbacks that register
    during the answer are answered by a later tick.  It uses the tick queue only
    through the interface [TickQueue], which the process module implements.  The
    results: a wrapped function is applied at most once; an answer reaches every
    registered callback exactly once, in order; no key is left without either an
    open request or a scheduled answer, whatever throws. *)
From stdpp Require Import gmap.
From S2P Require Import Prelude JsState Process.

(** ** What a scheduler promises *)
Class TickQueue (Q Job : Type) := {
  tq_push : Job -> Q -> Q;
  tq_waiting : Q -> list Job;
  tq_push_waiting : forall j q, tq_waiting (tq_push j q) = tq_waiting q ++ [j]
}.

Lemma waiting_nextTick {Arg} (x : Item (Arg := Arg)) p : waiting (nextTick x p) = waiting p ++ [x].
Proof.
  unfold nextTick. set (p1 := Proc _ _ _ _ _ _ _ _).
  transitivity (waiting p1).
  - by case_match.
  - unfold waiting. cbn. destruct (draining p), (currentQueue p); by rewrite <- ?app_assoc.
Qed.

#[export] Instance process_queue {Arg} : TickQueue (proc (Arg := Arg)) (Item (Arg := Arg)) := {
  tq_push := nextTick;
  tq_waiting := waiting;
  tq_push_waiting := waiting_nextTick
}.

(** ** once *)
Section once.
Context {T V Arg : Type}.

(** The wrapper's own properties. *)
Record once_f : Type := OnceF { called : bool; value : option V }.
Definition fresh_once : once_f := OnceF false None.

(** The wrapped function: it may call the wrapper again, which then answers with
    the wrapper's current [value]. *)
Context (fn : option V -> list Arg -> stM T V).

(** [f(...args)] for [f = once(fn)]. *)
Definition once_call (args : list Arg) : stM (once_f * T) (option V) :=
  fun '(f, t) =>
    if called f then ((f, t), Ret (value f)) else
    let f1 := OnceF true (value f) in
    match fn (value f1) args t with
    | (t', Ret v) => ((OnceF true (Some v), t'), Ret (Some v))
    | (t', Throw e) => ((f1, t'), Throw e)
    | (t', OutOfFuel) => ((f1, t'), OutOfFuel)
    end.

(** [f(...args)] for [f = onceStrict(fn)]. *)
Definition onceStrict_call (onceError : string) (args : list Arg) : stM (once_f * T) (option V) :=
  fun '(f, t) => if called f then ((f, t), Throw (PlainError onceError)) else once_call args (f, t).

Fixpoint once_calls (l : list (list Arg)) (st : once_f * T) : (once_f * T) * list (outcome (option V)) :=
  match l with
  | [] => (st, [])
  | args :: r => let '(st1, o) := once_call args st in
                 let '(st2, os) := once_calls r st1 in (st2, o :: os)
  end.

Lemma once_calls_called l f t :
  called f = true -> once_calls l (f, t) = ((f, t), replicate (length l) (Ret (value f))).
Proof.
  intros Hf. induction l as [|args l IH]; [done|]. cbn [once_calls once_call length replicate].
  by rewrite Hf, IH.
Qed.

(** [once] applies its function at most once.  After the first call, however it
    ended, further calls leave everything as it is and answer with the stored
    value, the result of the first call or [undefined] if that threw. *)
Theorem once_applies_once (args : list Arg) (rest : list (list Arg)) (t : T) :
  let '((f1, t1), o) := once_call args (fresh_once, t) in
  once_calls (args :: rest) (fresh_once, t) = ((f1, t1), o :: replicate (length rest) (Ret (value f1))) /\
  t1 = (fn None args t).1 /\
  (forall v, o = Ret v -> value f1 = v) /\ (forall e, o = Throw e -> value f1 = None) /\
  forall err args', onceStrict_call err args' (f1, t1) = ((f1, t1), Throw (PlainError err)).
Proof.
  unfold once_call at 1. cbn [fresh_once called value]. destruct (fn None args t) as [t1 [v|e|]] eqn:E;
    cbn [once_calls]; unfold once_call at 1; cbn [fresh_once called value]; rewrite E;
    rewrite once_calls_called by done;
    (split; [done|]); (split; [done|]); (split; [naive_solver|]); (split; [naive_solver|]); done.
Qed.
End once.

(** ** wrappy *)
Section wrappy.

(** Own properties of function objects, by object. *)
Abbreviation fn_store := (gmap nat (gmap string Z)).

(** A value: a function object, another object or a primitive. *)
Inductive wval : Type := WFn (id : nat) | WObj (id : nat) | WPrim.

#[export] Instance wval_eq_dec : EqDecision wval.
Proof. solve_decision. Defined.

Definition props_of (st : fn_store) (id : nat) : gmap string Z := default ∅ (st !! id).

(** [Object.keys(src).forEach(function (k) { dst[k] = src[k] })] *)
Definition copy_props (src dst : nat) (st : fn_store) : fn_store :=
  <[dst := props_of st src ∪ props_of st dst]> st.

Lemma props_copy src dst st : props_of (copy_props src dst st) dst = props_of st src ∪ props_of st dst.
Proof. unfold copy_props, props_of. by rewrite lookup_insert_eq. Qed.

Context (apply : nat -> list wval -> stM fn_store wval).

(** The inner function [wrapper] around [fn]. *)
Definition wrapper_call (fn : nat) (args : list wval) : stM fn_store wval :=
  ret ← apply fn args;
  match ret with
  | WFn r =>
      if decide (last args = Some ret) then mret ret else
      match last args with
      | Some (WFn c) | Some (WObj c) => modify_st (copy_props c r) ;; mret ret
      | _ => throw_st (TypeError "Object.keys called on non-object")
      end
  | _ => mret ret
  end.

(** [wrappy(fn)]: [wrapper] is a new function object with the properties of
    [fn]. *)
Definition wrappy (fn : wval) (wrapper : nat) : stM fn_store wval :=
  match fn with
  | WFn f => modify_st (copy_props f wrapper) ;; mret (WFn wrapper)
  | _ => throw_st (TypeError "need wrapper function")
  end.

(** [wrappy(fn, cb)] *)
Definition wrappy2 (fn cb : wval) (wrapper : nat) : stM fn_store wval :=
  match fn, cb with
  | WFn f, WFn _ | WFn f, WObj _ => wrappy fn wrapper ;; wrapper_call f [cb]
  | _, _ => wrappy fn wrapper
  end.

(** Decorations survive wrapping.  When the wrapped function returns another
    function than its callback (its last argument), the returned function has
    every own property of the callback, with the callback's value, keeps its other
    properties, and no other function changes. *)
Theorem wrapper_keeps_decorations (fn c r : nat) (args : list wval) (st st1 : fn_store)
    (Hret : apply fn args st = (st1, Ret (WFn r))) (Hlast : last args = Some (WFn c)) (Hne : r <> c) :
  exists st2, wrapper_call fn args st = (st2, Ret (WFn r)) /\
    (forall k, props_of st2 r !! k =
       match props_of st1 c !! k with Some v => Some v | None => props_of st1 r !! k end) /\
    (forall f, f <> r -> st2 !! f = st1 !! f).
Proof.
  exists (copy_props c r st1). split.
  - unfold wrapper_call, mbind, stM_bind. rewrite Hret, Hlast.
    rewrite decide_False by (intros [= ->]; done). reflexivity.
  - split.
    + intros k. rewrite props_copy, lookup_union.
      destruct (props_of st1 c !! k) as [v|], (props_of st1 r !! k); reflexivity.
    + intros f Hf. unfold copy_props. by rewrite lookup_insert_ne.
Qed.
End wrappy.

Lemma wrapper_keeps_decorations_witness :
  exists st2, wrapper_call (fun _ _ => mret (WFn 7)) 0 [WFn 3] {[3%nat := {["x"%string := 1]}]} = (st2, Ret (WFn 7)) /\
    props_of st2 7 !! "x"%string = Some 1.
Proof.
  destruct (wrapper_keeps_decorations (fun _ _ => mret (WFn 7)) 0 3 7 [WFn 3]
    {[3%nat := {["x"%string := 1]}]} _ eq_refl eq_refl ltac:(discriminate)) as (st2 & H1 & H2 & _).
  exists st2. split; [exact H1|]. exact (H2 "x"%string).
Defined.

(** ** inflight *)
Section inflight.
Context {Q Job Arg : Type} `{TickQueue Q Job}.

(** The closure a tick runs: [RES.apply(null, args)] for a key. *)
Context (res_job : string -> list Arg -> Job).

(** [reqs], the tick queue, and the calls made to callbacks. *)
Record inflight_st : Type := Inflight {
  reqs : gmap string (list nat);
  ticks : Q;
  cb_log : list (nat * list Arg)
}.

(** [inflight(key, cb)]: true when the caller gets the function that answers. *)
Definition inflight (key : string) (cb : nat) (st : inflight_st) : inflight_st * bool :=
  match reqs st !! key with
  | Some cbs => (Inflight (<[key := cbs ++ [cb]]> (reqs st)) (ticks st) (cb_log st), false)
  | None => (Inflight (<[key := [cb]]> (reqs st)) (ticks st) (cb_log st), true)
  end.

(** Client code: the registrations a callback makes before it returns or throws. *)
Context (behave : nat -> list Arg -> list (string * nat) * option js_error).

Definition call_cb (cb : nat) (args : list Arg) : stM inflight_st unit :=
  let '(regs, exn) := behave cb args in
  modify_st (fun st => Inflight (reqs st) (ticks st) (cb_log st ++ [(cb, args)])) ;;
  modify_st (fun st => foldl (fun st '(k, c) => (inflight k c st).1) st regs) ;;
  match exn with
  | Some e => throw_st e
  | None => mret tt
  end.

(** The [finally] block. *)
Definition finish (key : string) (len : nat) (args : list Arg) (st : inflight_st) : inflight_st :=
  match reqs st !! key with
  | Some cbs =>
      if (len <? length cbs)%nat
      then Inflight (<[key := drop len cbs]> (reqs st)) (tq_push (res_job key args) (ticks st)) (cb_log st)
      else Inflight (delete key (reqs st)) (ticks st) (cb_log st)
  | None => st
  end.

(** [RES(...args)] for a key; the callbacks of this pass are the first [len]. *)
Definition RES (key : string) (args : list Arg) : stM inflight_st unit :=
  fun st =>
    match reqs st !! key with
    | None => (st, Throw (TypeError "Cannot read property length of undefined"))
    | Some cbs =>
        let '(st1, o) := iterM (fun cb => call_cb cb args) cbs st in
        (finish key (length cbs) args st1, o)
    end.

(** ** Registrations made meanwhile *)
Definition regs_for (key : string) (regs : list (string * nat)) : list nat :=
  List.map snd (List.filter (fun p => bool_decide (p.1 = key)) regs).

Lemma regs_for_cons key k c regs :
  regs_for key ((k, c) :: regs) = (if decide (k = key) then [c] else []) ++ regs_for key regs.
Proof.
  unfold regs_for. cbn [List.filter fst]. destruct (decide (k = key)) as [Hk|Hk].
  - by rewrite bool_decide_true.
  - by rewrite bool_decide_false.
Qed.

Lemma inflight_registers regs st key cbs :
  reqs st !! key = Some cbs ->
  let st' := foldl (fun st '(k, c) => (inflight k c st).1) st regs in
  reqs st' !! key = Some (cbs ++ regs_for key regs) /\ ticks st' = ticks st /\ cb_log st' = cb_log st.
Proof.
  cbv zeta. revert st cbs; induction regs as [|[k c] regs IH]; intros st cbs Hk; cbn [foldl].
  - by rewrite app_nil_r.
  - rewrite regs_for_cons.
    assert (reqs (inflight k c st).1 !! key = Some (cbs ++ if decide (k = key) then [c] else []) /\
            ticks (inflight k c st).1 = ticks st /\ cb_log (inflight k c st).1 = cb_log st) as (H1 & H2 & H3).
    { unfold inflight. destruct (decide (k = key)) as [->|Hne].
      - rewrite Hk. cbn. by rewrite lookup_insert_eq.
      - destruct (reqs st !! k); cbn; rewrite lookup_insert_ne by done; by rewrite app_nil_r. }
    destruct (IH _ _ H1) as (H4 & H5 & H6). by rewrite H4, H5, H6, H2, H3, <- app_assoc.
Qed.

Definition registered (key : string) (args : list Arg) (cbs : list nat) : list nat :=
  concat (map (fun cb => regs_for key (behave cb args).1) cbs).

(** A pass over callbacks: the ones called are a prefix, all of them if nothing is
    thrown, and what they register is appended. *)
Lemma pass_spec key args l st cbs :
  reqs st !! key = Some cbs ->
  exists k st' o, iterM (fun cb => call_cb cb args) l st = (st', o) /\ (k <= length l)%nat /\
    reqs st' !! key = Some (cbs ++ registered key args (take k l)) /\ ticks st' = ticks st /\
    cb_log st' = cb_log st ++ map (fun cb => (cb, args)) (take k l) /\
    (Forall (fun cb => (behave cb args).2 = None) l -> o = Ret tt /\ k = length l).
Proof.
  revert st cbs; induction l as [|cb l IH]; intros st cbs Hk.
  - exists 0%nat, st, (Ret tt). cbn. rewrite !app_nil_r. split; [done|]. split; [lia|]. naive_solver.
  - cbn [iterM]. unfold mbind at 1, stM_bind at 1, call_cb.
    destruct (behave cb args) as [regs exn] eqn:Eb.
    set (st1 := Inflight (reqs st) (ticks st) (cb_log st ++ [(cb, args)])).
    destruct (inflight_registers regs st1 key cbs Hk) as (H1 & H2 & H3).
    unfold mbind at 1 2, stM_bind at 1 2, modify_st.
    set (st2 := foldl _ _ regs) in *. destruct exn as [e|].
    + exists 1%nat, st2, (Throw e). cbn [take map length]. unfold registered. cbn. rewrite Eb, app_nil_r.
      split; [done|]. split; [lia|]. split; [done|]. split; [done|]. split; [done|].
      intros HF. apply Forall_cons in HF as [HF _]. by rewrite Eb in HF.
    + destruct (IH st2 _ H1) as (k & st' & o & Hi & Hle & Hr & Ht & Hl & Hn).
      exists (S k), st', o. split; [exact Hi|]. cbn [take map length]. split; [lia|].
      unfold registered in *. cbn [map concat]. rewrite Eb. cbn [fst]. rewrite Hr, Ht, Hl, H2, H3.
      split; [by rewrite <- app_assoc|]. split; [done|].
      split; [cbn; by rewrite <- app_assoc|].
      intros HF. apply Forall_cons in HF as [_ HF]. destruct (Hn HF) as [-> ->]. done.
Qed.

(** An answer reaches every callback exactly once.  If no callback throws,
    [RES] calls the callbacks registered for the key in order, each once, with the
    given arguments; the key is then free again, unless callbacks registered more
    for it: those are kept and one further answer is scheduled for them. *)
Theorem inflight_answers (key : string) (args : list Arg) (cbs : list nat) (st : inflight_st)
    (Hk : reqs st !! key = Some cbs) (Hq : Forall (fun cb => (behave cb args).2 = None) cbs) :
  let new := registered key args cbs in
  exists st', RES key args st = (st', Ret tt) /\
    cb_log st' = cb_log st ++ map (fun cb => (cb, args)) cbs /\
    reqs st' !! key = (if decide (new = []) then None else Some new) /\
    tq_waiting (ticks st') = tq_waiting (ticks st) ++ (if decide (new = []) then [] else [res_job key args]).
Proof.
  cbv zeta. destruct (pass_spec key args cbs st cbs Hk) as (k & st1 & o & Hi & Hle & Hr & Ht & Hl & Hn).
  destruct (Hn Hq) as [-> ->]. rewrite firstn_all in *. unfold RES. rewrite Hk, Hi.
  eexists. split; [reflexivity|]. unfold finish. rewrite Hr, length_app.
  destruct (registered key args cbs) as [|n new] eqn:E.
  - rewrite Nat.add_0_r, Nat.ltb_irrefl. cbn. rewrite lookup_delete_eq, Ht, app_nil_r. done.
  - rewrite (proj2 (Nat.ltb_lt _ _)) by (cbn; lia). cbn.
    rewrite lookup_insert_eq, drop_app_length, tq_push_waiting, Ht. done.
Qed.

(** C31: no key is left hanging.  However a pass ends, thrown exceptions included,
    afterwards the key is free, or the callbacks registered during the pass are
    waiting and an answer for them is scheduled; no old callback is kept. *)
Theorem inflight_never_hangs (key : string) (args : list Arg) (cbs : list nat) (st : inflight_st)
    (Hk : reqs st !! key = Some cbs) :
  exists k, let st' := (RES key args st).1 in
    cb_log st' = cb_log st ++ map (fun cb => (cb, args)) (take k cbs) /\
    let new := registered key args (take k cbs) in
    (new = [] /\ reqs st' !! key = None \/
     new <> [] /\ reqs st' !! key = Some new /\
     tq_waiting (ticks st') = tq_waiting (ticks st) ++ [res_job key args]).
Proof.
  destruct (pass_spec key args cbs st cbs Hk) as (k & st1 & o & Hi & Hle & Hr & Ht & Hl & _).
  exists k. cbv zeta. unfold RES. rewrite Hk, Hi. cbn [fst]. unfold finish. rewrite Hr, length_app.
  destruct (registered key args (take k cbs)) as [|n new] eqn:E.
  - rewrite Nat.add_0_r, Nat.ltb_irrefl. cbn. rewrite lookup_delete_eq. split; [done|]. by left.
  - rewrite (proj2 (Nat.ltb_lt _ _)) by (cbn; lia). cbn.
    rewrite lookup_insert_eq, drop_app_length, tq_push_waiting, Ht. split; [done|]. by right.
Qed.
End inflight.

(** A client with the process queue: callback 0 registers callback 2 under the
    same key while it is answered. *)
Definition demo_job (key : string) (args : list Z) : Item (Arg := Z) := MkItem 9 args.

Definition demo_client (cb : nat) (args : list Z) : list (string * nat) * option js_error :=
  (if (cb =? 0)%nat then [("stat"%string, 2%nat)] else [], None).

Definition demo_inflight : inflight_st (Q := proc (Arg := Z)) (Arg := Z) :=
  Inflight {["stat"%string := [0%nat; 1%nat]]} proc_init [].

Lemma inflight_answers_witness :
  exists st', RES demo_job demo_client "stat" [5] demo_inflight = (st', Ret tt) /\
    cb_log st' = [(0%nat, [5]); (1%nat, [5])] /\ reqs st' !! "stat"%string = Some [2%nat] /\
    waiting (ticks st') = [MkItem 9 [5]].
Proof.
  exact (inflight_answers demo_job demo_client "stat" [5] [0%nat; 1%nat] demo_inflight eq_refl
    ltac:(repeat constructor)).
Defined.

Lemma inflight_never_hangs_witness :
  exists k, let st' := (RES demo_job demo_client "stat" [5] demo_inflight).1 in
    cb_log st' = map (fun cb => (cb, [5])) (take k [0%nat; 1%nat]) /\
    let new := registered demo_client "stat" [5] (take k [0%nat; 1%nat]) in
    (new = [] /\ reqs st' !! "stat"%string = None \/
     new <> [] /\ reqs st' !! "stat"%string = Some new /\ waiting (ticks st') = [MkItem 9 [5]]).
Proof. exact (inflight_never_hangs demo_job demo_client "stat" [5] [0%nat; 1%nat] demo_inflight eq_refl). Defined.
