(* ===== verification/BraceExpansion.v ===== *)
(** * Balanced matches and brace expansion

    Modules 10 (balanced-match), 11 (brace-expansion) and 13 (concat-map) of
    docs/generated_site/assets/javascripts/lunr/wordcut.js, the first step of every
    glob pattern.  The results: a balanced match cuts the text into five parts that
    make it up again, with a balanced body; splitting at top-level commas is undone
    by joining; on the text of a brace tree [expand] returns exactly the words of the
    tree; and [expand] returns on every text, unless it meets a sequence whose counter,
    a double, comes to a value that its step does not change (a step of zero, or a
    step of one from 2^53 on). *)
From S2P Require Import Prelude JsString JsArray JsDouble JsRegex.

(** ** balanced-match *)

(** [i = ai < bi && ai >= 0 ? ai : bi] *)
Definition next_event (ai bi : Z) : Z := if (ai <? bi) && (0 <=? ai) then ai else bi.

(** The loop of [range]; [begs] has its top first.  The result is the pair
    [left, right] of the code, whose second half may still be undefined. *)
Fixpoint range_loop (fuel : nat) (str a b : jsstr) (i ai bi : Z) (begs : list Z)
    (left : Z) (right : option Z) : outcome (option (Z * option Z)) :=
  match fuel with
  | O => OutOfFuel
  | S fuel =>
      if i <? 0 then Ret (match begs with [] => None | _ => Some (left, right) end)
      else if i =? ai then
        let ai' := indexOf str a (i + 1) in
        range_loop fuel str a b (next_event ai' bi) ai' bi (i :: begs) left right
      else match begs with
           | [beg] => Ret (Some (beg, Some bi))
           | [] => let bi' := indexOf str b (i + 1) in
                   range_loop fuel str a b (next_event ai bi') ai bi' [] left right
           | beg :: begs' =>
               let bi' := indexOf str b (i + 1) in
               let left' := if beg <? left then beg else left in
               let right' := if beg <? left then Some bi else right in
               range_loop fuel str a b (next_event ai bi') ai bi' begs' left' right'
           end
  end.

(** Every round passes one more occurrence, so the length of the text bounds the
    rounds. *)
Definition range (a b str : jsstr) : outcome (option (Z * option Z)) :=
  let ai := indexOf str a 0 in
  let bi := indexOf str b (ai + 1) in
  if (0 <=? ai) && (0 <? bi)
  then range_loop (length str + 2) str a b ai ai bi [] (js_len str) None
  else Ret None.

Inductive delim : Type := DStr (s : jsstr) | DRe (r : regex).

Definition maybeMatch (reg : regex) (str : jsstr) : option jsstr := m_text <$> regex_exec reg str.

(** [null] searches like the text it prints as, and has no length. *)
Definition delim_text (d : delim) (str : jsstr) : option jsstr :=
  match d with DStr s => Some s | DRe r => maybeMatch r str end.

Record bmatch : Type := BMatch {
  bm_start : Z; bm_end : option Z; bm_pre : jsstr; bm_body : jsstr; bm_post : jsstr
}.

Definition balanced (a b : delim) (str : jsstr) : outcome (option bmatch) :=
  let a' := delim_text a str in
  let b' := delim_text b str in
  r ← range (default (js "null") a') (default (js "null") b') str;
  match r with
  | None => Ret None
  | Some (s, e) =>
      match a', b' with
      | Some ta, Some tb =>
          Ret (Some (BMatch s e (js_slice str 0 s)
            (match e with
             | Some e => js_slice str (s + js_len ta) e
             | None => js_slice_from str (s + js_len ta)
             end)
            (match e with
             | Some e => js_slice_from str (e + js_len tb)
             | None => str
             end)))
      | _, _ => Throw (TypeError "Cannot read property length of null")
      end
  end.

Definition open_brace : Z := 123.
Definition close_brace : Z := 125.
Definition comma : Z := 44.

(** [balanced('{', '}', str)] *)
Definition braces (str : jsstr) : outcome (option bmatch) :=
  balanced (DStr [open_brace]) (DStr [close_brace]) str.

(** ** concat-map *)
Fixpoint concatMap {A B} (xs : list A) (fn : A -> outcome (list B)) : outcome (list B) :=
  match xs with
  | [] => Ret []
  | x :: r => l ← fn x; l' ← concatMap r fn; Ret (l ++ l')
  end.

(** ** brace-expansion *)

(** The five escape texts, for the five numerals drawn by [Math.random()]. *)
Record esc_texts : Type := EscTexts {
  escSlash : jsstr; escOpen : jsstr; escClose : jsstr; escComma : jsstr; escPeriod : jsstr
}.

Definition esc_text (name rnd : jsstr) : jsstr := [0] ++ name ++ rnd ++ [0].

Definition make_escs (r1 r2 r3 r4 r5 : jsstr) : esc_texts :=
  EscTexts (esc_text (js "SLASH") r1) (esc_text (js "OPEN") r2) (esc_text (js "CLOSE") r3)
    (esc_text (js "COMMA") r4) (esc_text (js "PERIOD") r5).

Definition numeralRe : regex := Eval vm_compute in regex_lit "^-?\d+$".

(** [numeric(str)] for a decimal numeral or a text that is none. *)
Definition numeric (str : jsstr) : Z :=
  if regex_test numeralRe str then
    round_double
      match str with
      | c :: r => if c =? chr "-" then - digits_val 0 r else digits_val 0 str
      | [] => 0
      end
  else default 0 (head str).

Definition split_at (sep by_ : jsstr) (str : jsstr) : jsstr := js_join by_ (js_split str sep).

Definition escapeBraces (e : esc_texts) (str : jsstr) : jsstr :=
  split_at (js "\.") (escPeriod e) (split_at (js "\,") (escComma e) (split_at (js "\}") (escClose e)
    (split_at (js "\{") (escOpen e) (split_at (js "\\") (escSlash e) str)))).

Definition unescapeBraces (e : esc_texts) (str : jsstr) : jsstr :=
  split_at (escPeriod e) (js ".") (split_at (escComma e) (js ",") (split_at (escClose e) (js "}")
    (split_at (escOpen e) (js "{") (split_at (escSlash e) (js "\") str)))).

(** [p[p.length-1] += suffix] *)
Definition add_to_last (p : list jsstr) (suffix : jsstr) : list jsstr :=
  match reverse p with
  | [] => []
  | x :: r => reverse r ++ [x ++ suffix]
  end.

Fixpoint parseCommaParts_fuel (fuel : nat) (str : jsstr) : outcome (list jsstr) :=
  match fuel with
  | O => OutOfFuel
  | S fuel =>
      match str with
      | [] => Ret [[]]
      | _ =>
          m ← braces str;
          match m with
          | None => Ret (js_split str [comma])
          | Some m =>
              let p := add_to_last (js_split (bm_pre m) [comma]) ([open_brace] ++ bm_body m ++ [close_brace]) in
              postParts ← parseCommaParts_fuel fuel (bm_post m);
              match bm_post m with
              | [] => Ret p
              | _ => Ret (add_to_last p (default [] (head postParts)) ++ drop 1 postParts)
              end
          end
      end
  end.

Definition parseCommaParts (str : jsstr) : outcome (list jsstr) :=
  parseCommaParts_fuel (S (length str)) str.

Definition embrace (str : jsstr) : jsstr := [open_brace] ++ str ++ [close_brace].

Definition paddedRe : regex := Eval vm_compute in regex_lit "^-?0\d".
Definition isPadded (el : jsstr) : bool := regex_test paddedRe el.

Definition lte (i y : Z) : bool := i <=? y.
Definition gte (i y : Z) : bool := y <=? i.

(** One element of a sequence. *)
Definition seq_item (isAlphaSequence pad : bool) (width : Z) (i : Z) : jsstr :=
  if isAlphaSequence then (if i =? chr "\" then [] else [i])
  else
    let c := double_text i in
    if pad then
      let need := width - js_len c in
      if 0 <? need then
        let z := replicate (Z.to_nat need) (chr "0") in
        if i <? 0 then [chr "-"] ++ z ++ js_slice_from c 1 else z ++ c
      else c
    else c.

(** [for (var i = x; test(i, y); i += incr)]; NaN passes no test. *)
Fixpoint seq_loop (fuel : nat) (test : Z -> Z -> bool) (i y incr : Z) (item : Z -> jsstr) : outcome (list jsstr) :=
  match fuel with
  | O => OutOfFuel
  | S fuel =>
      if test i y then
        l ← match double_add i incr with Some i' => seq_loop fuel test i' y incr item | None => Ret [] end;
        Ret (item i :: l)
      else Ret []
  end.

(** The sequence branch of [expand], with the rounds its loop may take. *)
Definition seq_rounds (rounds : nat) (n : list jsstr) (isAlphaSequence : bool) : outcome (list jsstr) :=
  match n with
  | n0 :: n1 :: rest =>
      let x := numeric n0 in
      let y := numeric n1 in
      let width := Z.max (js_len n0) (js_len n1) in
      let incr := match rest with [n2] => Z.abs (numeric n2) | _ => 1 end in
      let reverse := y <? x in
      let incr' := if reverse then incr * -1 else incr in
      let test := if reverse then gte else lte in
      let pad := existsb isPadded n in
      seq_loop rounds test x y incr' (seq_item isAlphaSequence pad width)
  | _ => Throw (TypeError "Cannot read property length of undefined")
  end.

(** Each round moves by one at least, or the loop never ends. *)
Definition seq_expand (n : list jsstr) (isAlphaSequence : bool) : outcome (list jsstr) :=
  match n with
  | n0 :: n1 :: _ => seq_rounds (Z.to_nat (Z.abs (numeric n1 - numeric n0)) + 2) n isAlphaSequence
  | _ => seq_rounds 0 n isAlphaSequence
  end.

Definition dollarRe : regex := Eval vm_compute in regex_lit "\$$".
Definition numericSequenceRe : regex := Eval vm_compute in regex_lit "^-?\d+\.\.-?\d+(?:\.\.-?\d+)?$".
Definition alphaSequenceRe : regex := Eval vm_compute in regex_lit "^[a-zA-Z]\.\.[a-zA-Z](?:\.\.-?\d+)?$".
Definition commaCloseRe : regex := Eval vm_compute in regex_lit ",.*\}".

(** [pre + N[j] + post[k]] for all [j] and [k]; empty results of a comma set are
    dropped at the top level. *)
Definition combine (isTop isSequence : bool) (pre : jsstr) (N post : list jsstr) : list jsstr :=
  List.filter (fun x => negb isTop || isSequence || match x with [] => false | _ => true end)
    (concat (map (fun nj => map (fun pk => pre ++ nj ++ pk) post) N)).

Section expand.
Context (escCl : jsstr) (sequence : list jsstr -> bool -> outcome (list jsstr)).

Fixpoint expand (fuel : nat) (str : jsstr) (isTop : bool) : outcome (list jsstr) :=
  match fuel with
  | O => OutOfFuel
  | S fuel =>
      om ← braces str;
      match om with
      | None => Ret [str]
      | Some m =>
          if regex_test dollarRe (bm_pre m) then Ret [str] else
          let isNumericSequence := regex_test numericSequenceRe (bm_body m) in
          let isAlphaSequence := regex_test alphaSequenceRe (bm_body m) in
          let isSequence := isNumericSequence || isAlphaSequence in
          let isOptions := 0 <=? indexOf (bm_body m) [comma] 0 in
          if negb isSequence && negb isOptions then
            if regex_test commaCloseRe (bm_post m)
            then expand fuel (bm_pre m ++ [open_brace] ++ bm_body m ++ escCl ++ bm_post m) false
            else Ret [str]
          else
            let expand_post := match bm_post m with [] => Ret [[]] | _ => expand fuel (bm_post m) false end in
            if isSequence then
              post ← expand_post;
              N ← sequence (js_split (bm_body m) (js "..")) isAlphaSequence;
              Ret (combine isTop true (bm_pre m) N post)
            else
              n ← parseCommaParts (bm_body m);
              match n with
              | [n0] =>
                  n' ← expand fuel n0 false;
                  let n' := map embrace n' in
                  match n' with
                  | [n0'] => post ← expand_post; Ret (map (fun p => bm_pre m ++ n0' ++ p) post)
                  | _ =>
                      post ← expand_post;
                      N ← concatMap n' (fun el => expand fuel el false);
                      Ret (combine isTop false (bm_pre m) N post)
                  end
              | _ =>
                  post ← expand_post;
                  N ← concatMap n (fun el => expand fuel el false);
                  Ret (combine isTop false (bm_pre m) N post)
              end
      end
  end.
End expand.

(** Number of closing braces: it bounds the depth of the recursion, up to the
    braces put back around the words of a single member. *)
Definition count_unit (c : Z) (s : jsstr) : nat := length (List.filter (Z.eqb c) s).

Definition expandTop (e : esc_texts) (fuel : nat) (str : jsstr) : outcome (list jsstr) :=
  match str with
  | [] => Ret []
  | _ =>
      let str1 := if decide (js_substr str 0 2 = js "{}") then js "\{\}" ++ js_slice_from str 2 else str in
      l ← expand (escClose e) seq_expand fuel (escapeBraces e str1) true;
      Ret (map (unescapeBraces e) l)
  end.

(** ** Balanced texts *)
Section scan.
Context (a b : Z) (Hab : a <> b).

(** Depth after reading [s] from depth [k]; [None] when it would go below zero. *)
Fixpoint depth (k : nat) (s : jsstr) : option nat :=
  match s with
  | [] => Some k
  | c :: r => if c =? a then depth (S k) r
              else if c =? b then match k with O => None | S k' => depth k' r end
              else depth k r
  end.

Definition balanced_text (s : jsstr) : Prop := depth 0 s = Some 0%nat.

Lemma depth_app k s t : depth k (s ++ t) = match depth k s with Some k' => depth k' t | None => None end.
Proof.
  revert k; induction s as [|c s IH]; intros k; cbn [app depth]; [done|].
  destruct (c =? a); [apply IH|]. destruct (c =? b); [|apply IH]. destruct k; [done|apply IH].
Qed.

Lemma depth_more k s k' n : depth k s = Some k' -> depth (n + k) s = Some (n + k')%nat.
Proof.
  revert k; induction s as [|c s IH]; intros k; cbn [depth].
  - by intros [= ->].
  - destruct (c =? a); [intros H; specialize (IH _ H); by rewrite Nat.add_succ_r in IH|].
    destruct (c =? b); [|apply IH]. destruct k as [|k]; [done|]. rewrite Nat.add_succ_r. apply IH.
Qed.

Lemma balanced_app s t : balanced_text s -> balanced_text t -> balanced_text (s ++ t).
Proof. unfold balanced_text. intros Hs Ht. by rewrite depth_app, Hs. Qed.

Lemma balanced_wrap s : balanced_text s -> balanced_text (a :: s ++ [b]).
Proof.
  unfold balanced_text. intros Hs. cbn [depth]. rewrite Z.eqb_refl, depth_app.
  pose proof (depth_more 0 s 0 1 Hs) as H1. cbn [plus] in H1. rewrite H1. cbn [depth]. rewrite (proj2 (Z.eqb_neq b a)) by done. by rewrite Z.eqb_refl.
Qed.

Lemma balanced_free s : (a ∉ s) -> (b ∉ s) -> balanced_text s.
Proof.
  unfold balanced_text. induction s as [|c s IH]; intros Ha Hb; [done|].
  apply not_elem_of_cons in Ha as [Ha Ha'], Hb as [Hb Hb']. cbn [depth].
  rewrite (proj2 (Z.eqb_neq c a)), (proj2 (Z.eqb_neq c b)) by done. auto.
Qed.

(** ** The loop of range as a scan of the text *)
Fixpoint scan (s : jsstr) (pos : Z) (begs : list Z) (left : Z) (right : option Z) : option (Z * option Z) :=
  match s with
  | [] => match begs with [] => None | _ => Some (left, right) end
  | c :: r =>
      if c =? a then scan r (pos + 1) (pos :: begs) left right
      else if c =? b then
        match begs with
        | [] => scan r (pos + 1) [] left right
        | [beg] => Some (beg, Some pos)
        | beg :: begs' =>
            scan r (pos + 1) begs' (if beg <? left then beg else left) (if beg <? left then Some pos else right)
        end
      else scan r (pos + 1) begs left right
  end.

Lemma find_unit_cons c x s i : find_from [c] (x :: s) i = if c =? x then i else find_from [c] s (i + 1).
Proof. cbn. by rewrite andb_true_r. Qed.

Lemma find_unit_range c s i : 0 <= i -> find_from [c] s i = -1 \/ i <= find_from [c] s i.
Proof.
  intros Hi. destruct (find_from_spec [c] s i) as [[-> _]|(k & _ & -> & _)]; [by left|right; lia].
Qed.

Lemma find_unit_none c s i : 0 <= i -> find_from [c] s i = -1 <-> c ∉ s.
Proof.
  intros Hi. revert i Hi; induction s as [|x s IH]; intros i Hi.
  - cbn. split; [intros _; apply not_elem_of_nil|done].
  - rewrite find_unit_cons, not_elem_of_cons. destruct (c =? x) eqn:E; bool_props.
    + split; [lia|]. by intros [? _].
    + rewrite IH by lia. naive_solver.
Qed.

Lemma indexOf_unit str c s pos : 0 <= pos -> drop (Z.to_nat pos) str = s -> pos <= js_len str ->
  indexOf str [c] pos = find_from [c] s pos.
Proof. intros Hp Hs Hl. unfold indexOf. by rewrite Z.max_l, Z.min_l, Hs by lia. Qed.

Lemma scan_no_close s pos begs left right : begs <> [] -> (b ∉ s) -> scan s pos begs left right = Some (left, right).
Proof.
  revert pos begs; induction s as [|c s IH]; intros pos begs Hb Hs; cbn [scan]; [by destruct begs|].
  apply not_elem_of_cons in Hs as [Hc Hs]. rewrite (proj2 (Z.eqb_neq c b)) by done.
  destruct (c =? a); by apply IH.
Qed.

Lemma range_loop_scan fuel str s pos begs left right :
  begs <> [] -> 0 <= pos -> drop (Z.to_nat pos) str = s -> pos + js_len s = js_len str ->
  (length s < fuel)%nat ->
  let ai := find_from [a] s pos in let bi := find_from [b] s pos in
  range_loop fuel str [a] [b] (next_event ai bi) ai bi begs left right = Ret (scan s pos begs left right).
Proof.
  revert fuel pos begs left right; induction s as [|c s IH]; intros fuel pos begs left right Hb Hp Hs Hl Hf; cbv zeta.
  { destruct fuel as [|fuel]; [cbn in Hf; lia|]. cbn. by destruct begs. }
  assert (drop (Z.to_nat (pos + 1)) str = s) as Hs'.
  { replace (Z.to_nat (pos + 1)) with (Z.to_nat pos + 1)%nat by lia. by rewrite <- drop_drop, Hs. }
  rewrite js_len_cons in Hl. pose proof (js_len_nonneg s). cbn [length] in Hf.
  rewrite !find_unit_cons. cbn [scan]. rewrite (Z.eqb_sym a c), (Z.eqb_sym b c).
  destruct (c =? a) eqn:Ea; bool_props.
  - subst c. rewrite (proj2 (Z.eqb_neq a b)) by done.
    destruct (find_unit_range b s (pos + 1)) as [Hn|Hge]; [lia| |].
    + rewrite Hn. unfold next_event. rewrite (proj2 (Z.ltb_ge pos (-1))) by lia. cbn [andb].
      destruct fuel as [|fuel]; [lia|]. cbn [range_loop Z.ltb Z.compare].
      rewrite scan_no_close by (done || by apply (find_unit_none b s (pos + 1)); [lia|]). by destruct begs.
    + unfold next_event at 1. rewrite (proj2 (Z.ltb_lt _ _)), (proj2 (Z.leb_le 0 pos)) by lia. cbn [andb].
      destruct fuel as [|fuel]; [lia|]. cbn [range_loop]. rewrite (proj2 (Z.ltb_ge pos 0)) by lia.
      rewrite Z.eqb_refl, (indexOf_unit str a s) by (done || lia).
      apply IH; [done|lia|done|lia|lia].
  - destruct (c =? b) eqn:Eb; bool_props.
    + assert (next_event (find_from [a] s (pos + 1)) pos = pos) as ->.
      { unfold next_event. destruct (find_unit_range a s (pos + 1)) as [->|Hge]; [lia| |].
        - rewrite andb_false_r. done.
        - rewrite (proj2 (Z.ltb_ge _ _)) by lia. done. }
      destruct fuel as [|fuel]; [lia|]. cbn [range_loop]. rewrite (proj2 (Z.ltb_ge pos 0)) by lia.
      rewrite (proj2 (Z.eqb_neq pos _))
        by (destruct (find_unit_range a s (pos + 1)) as [->|Hge]; lia).
      destruct begs as [|beg [|beg2 begs]]; [done|done|].
      rewrite (indexOf_unit str b s) by (done || lia). apply IH; [done|lia|done|lia|lia].
    + apply IH; [done|lia|done|lia|lia].
Qed.

(** A balanced stretch leaves the stack as it was. *)
Lemma scan_depth body t k k' pos ext begs left right :
  depth k body = Some k' -> length ext = k -> begs <> [] ->
  exists ext' left' right', length ext' = k' /\
    scan (body ++ t) pos (ext ++ begs) left right = scan t (pos + js_len body) (ext' ++ begs) left' right'.
Proof.
  revert k pos ext left right; induction body as [|c body IH]; intros k pos ext left right Hd Hl Hb; cbn [depth app] in *.
  - injection Hd as <-. exists ext, left, right. change (js_len []) with 0. by rewrite Z.add_0_r.
  - rewrite js_len_cons. replace (pos + (1 + js_len body)) with (pos + 1 + js_len body) by lia. cbn [scan].
    destruct (c =? a); [apply (IH _ (pos + 1) (pos :: ext) left right Hd); [cbn; lia|done]|].
    destruct (c =? b); [|by apply (IH k (pos + 1) ext left right)].
    destruct k as [|k]; [done|]. destruct ext as [|beg ext]; [done|]. injection Hl as Hl. cbn [app].
    destruct (ext ++ begs) as [|x l] eqn:E; [by apply app_eq_nil in E as [_ ?]|]. rewrite <- E.
    by apply (IH k).
Qed.

Lemma find_unit_app c p s i : (c ∉ p) -> find_from [c] (p ++ s) i = find_from [c] s (i + js_len p).
Proof.
  revert i; induction p as [|x p IH]; intros i Hc; cbn [app].
  - change (js_len []) with 0. by rewrite Z.add_0_r.
  - apply not_elem_of_cons in Hc as [Hx Hc]. rewrite find_unit_cons, (proj2 (Z.eqb_neq c x)) by done.
    rewrite IH, js_len_cons by done. f_equal. lia.
Qed.

(** [range] once the first opening delimiter is found. *)
Lemma range_scan pre s : (a ∉ pre) ->
  range [a] [b] (pre ++ a :: s) =
  if bool_decide (b ∈ s) then Ret (scan s (js_len pre + 1) [js_len pre] (js_len (pre ++ a :: s)) None) else Ret None.
Proof.
  intros Ha. set (str := pre ++ a :: s). pose proof (js_len_nonneg pre). pose proof (js_len_nonneg s).
  assert (js_len str = js_len pre + 1 + js_len s) as Hl by (unfold str; rewrite js_len_app, js_len_cons; lia).
  assert (drop (Z.to_nat (js_len pre + 1)) str = s) as Hd.
  { unfold str. rewrite cons_middle, app_assoc. apply drop_app_length'. rewrite length_app. unfold js_len. cbn. lia. }
  assert (indexOf str [a] 0 = js_len pre) as Hai.
  { rewrite (indexOf_unit str a str) by (done || lia). unfold str. rewrite find_unit_app by done.
    rewrite find_unit_cons, Z.eqb_refl. lia. }
  unfold range. rewrite Hai, (indexOf_unit str b s) by (done || lia).
  rewrite (proj2 (Z.leb_le 0 (js_len pre))) by lia. cbn [andb]. case_bool_decide as Hb.
  - assert (0 < find_from [b] s (js_len pre + 1)) as Hpos.
    { destruct (find_unit_range b s (js_len pre + 1)) as [Hn|Hge]; [lia| |lia].
      apply find_unit_none in Hn; [done|lia]. }
    rewrite (proj2 (Z.ltb_lt _ _)) by done.
    replace (length str + 2)%nat with (S (length str + 1)) by lia. cbn [range_loop].
    rewrite (proj2 (Z.ltb_ge (js_len pre) 0)) by lia. rewrite Z.eqb_refl, (indexOf_unit str a s) by (done || lia).
    rewrite range_loop_scan; [done|done|lia|done|lia|]. unfold str. rewrite length_app. cbn. lia.
  - rewrite (proj2 (find_unit_none b s (js_len pre + 1) ltac:(lia)) Hb). done.
Qed.

(** The first delimiter pair around a balanced body. *)
Lemma range_at pre body post : (a ∉ pre) -> balanced_text body ->
  range [a] [b] (pre ++ a :: body ++ b :: post) = Ret (Some (js_len pre, Some (js_len pre + 1 + js_len body))).
Proof.
  intros Ha Hbal. rewrite range_scan, bool_decide_true by (done || (apply elem_of_app; right; apply elem_of_cons; by left)).
  destruct (scan_depth body (b :: post) 0 0 (js_len pre + 1) [] [js_len pre] (js_len (pre ++ a :: body ++ b :: post)) None
    Hbal eq_refl) as (ext & l & r & Hext & E); [done|].
  cbn [app] in E. rewrite E. destruct ext; [|done]. cbn. rewrite (proj2 (Z.eqb_neq b a)) by done. by rewrite Z.eqb_refl.
Qed.

(** ** What a successful scan found *)

(** [(l, r)] are the positions of a pair with a balanced body in [P]. *)
Definition pair_in (P : jsstr) (l r : Z) : Prop :=
  exists P0 B Q, P = P0 ++ a :: B ++ b :: Q /\ js_len P0 = l /\ r = l + 1 + js_len B /\ balanced_text B.

(** The stack after reading [P]: each entry opens a text that is balanced so far. *)
Fixpoint stack_ok (P : jsstr) (begs : list Z) : Prop :=
  match begs with
  | [] => True
  | beg :: rest => exists P0 B, P = P0 ++ a :: B /\ js_len P0 = beg /\ balanced_text B /\ stack_ok P0 rest
  end.

Lemma stack_ok_skip P begs t : balanced_text t -> stack_ok P begs -> stack_ok (P ++ t) begs.
Proof.
  intros Ht. destruct begs as [|beg rest]; [done|]. intros (P0 & B & -> & Hl & HB & Hr). exists P0, (B ++ t).
  split; [by rewrite <- app_assoc|]. split; [done|]. split; [by apply balanced_app|done].
Qed.

Lemma pair_in_app P t l r : pair_in P l r -> pair_in (P ++ t) l r.
Proof.
  intros (P0 & B & Q & -> & H). exists P0, B, (Q ++ t). split; [|done]. rewrite <- app_assoc. cbn. by rewrite <- app_assoc.
Qed.

(** Popping the entry [beg] at a closing delimiter. *)
Lemma stack_ok_pop P beg rest : stack_ok P (beg :: rest) ->
  pair_in (P ++ [b]) beg (js_len P) /\ stack_ok (P ++ [b]) rest /\ beg < js_len P.
Proof.
  intros (P0 & B & -> & Hl & HB & Hr).
  assert ((P0 ++ a :: B) ++ [b] = P0 ++ (a :: B ++ [b])) as E by (rewrite <- app_assoc; done).
  assert (js_len (P0 ++ a :: B) = beg + 1 + js_len B) as El by (rewrite js_len_app, js_len_cons; lia).
  split; [|split; [rewrite E; apply stack_ok_skip; [by apply balanced_wrap|done]|]].
  - exists P0, B, []. split; [exact E|]. split; [done|]. split; [lia|done].
  - pose proof (js_len_nonneg B). lia.
Qed.

(** While no pair has been recorded, no closing delimiter has been read since the
    first opening one. *)
Lemma scan_sound P s begs left right l r :
  scan s (js_len P) begs left right = Some (l, r) -> begs <> [] -> stack_ok P begs ->
  (forall x, right = Some x -> pair_in P left x) ->
  (right = None -> js_len (P ++ s) <= left) ->
  (exists x, r = Some x /\ pair_in (P ++ s) l x) \/ (right = None /\ b ∉ s).
Proof.
  revert P begs left right; induction s as [|c s IH]; intros P begs left right E Hne Hst Hpair Hnone; cbn [scan] in E.
  { destruct begs; [done|]. injection E as <- <-. rewrite app_nil_r. destruct right as [x|]; [left; eauto|].
    right. split; [done|apply not_elem_of_nil]. }
  assert (js_len P + 1 = js_len (P ++ [c])) as El by (rewrite js_len_app; done).
  assert (P ++ c :: s = (P ++ [c]) ++ s) as Es by (rewrite <- app_assoc; done).
  rewrite El in E. rewrite Es in *. destruct (c =? a) eqn:Ea; bool_props; [subst c|].
  { destruct (IH _ _ _ _ E) as [H|[-> Hs]]; [done| | |done|by left|].
    - exists P, []. split; [done|]. split; [done|]. split; [done|done].
    - intros x Hx. apply pair_in_app. auto.
    - right. split; [done|]. apply not_elem_of_cons. split; [congruence|done]. }
  destruct (c =? b) eqn:Eb; bool_props; [subst c|].
  - destruct begs as [|beg rest]; [done|]. destruct (stack_ok_pop P beg rest Hst) as (Hp & Hst' & Hlt).
    left. destruct rest as [|beg2 rest].
    { injection E as <- <-. exists (js_len P). split; [done|]. by apply pair_in_app. }
    destruct (beg <? left) eqn:Elt; bool_props.
    + destruct (IH _ _ _ _ E) as [H|[? _]]; [done|done| |done|done|done]. intros x [= <-]. done.
    + destruct right as [x|]; [|rewrite js_len_app, <- El in Hnone; pose proof (js_len_nonneg s);
        specialize (Hnone eq_refl); lia].
      destruct (IH _ _ _ _ E) as [H|[? _]]; [done|done| |done|done|done].
      intros y [= <-]. apply pair_in_app. auto.
  - assert (balanced_text [c]) as Hc
      by (apply balanced_free; (apply not_elem_of_cons; split; [congruence|apply not_elem_of_nil])).
    destruct (IH _ _ _ _ E) as [H|[-> Hs]]; [done|by apply stack_ok_skip| |done|by left|].
    + intros x Hx. apply pair_in_app. auto.
    + right. split; [done|]. apply not_elem_of_cons. split; [congruence|done].
Qed.

Lemma scan_some s pos begs left right : begs <> [] -> exists lr, scan s pos begs left right = Some lr.
Proof.
  revert pos begs left right; induction s as [|c s IH]; intros pos begs left right Hne; cbn [scan].
  - destruct begs; [done|]. eauto.
  - destruct (c =? a); [by apply IH|]. destruct (c =? b); [|by apply IH].
    destruct begs as [|beg [|beg2 rest]]; [done|eauto|by apply IH].
Qed.

Lemma split_first (c : Z) s : c ∈ s -> exists pre post, s = pre ++ c :: post /\ c ∉ pre.
Proof.
  induction s as [|x s IH]; [by intros ?%not_elem_of_nil|]. destruct (decide (x = c)) as [->|Hx].
  - intros _. exists [], s. split; [done|apply not_elem_of_nil].
  - intros [->|H]%elem_of_cons; [done|]. destruct (IH H) as (pre & post & -> & Hn).
    exists (x :: pre), post. split; [done|]. apply not_elem_of_cons. split; [congruence|done].
Qed.

(** [range] always returns: a pair with a balanced body, or nothing when no
    opening delimiter is followed by a closing one. *)
Lemma range_sound str :
  (exists l r, range [a] [b] str = Ret (Some (l, Some r)) /\ pair_in str l r) \/
  (range [a] [b] str = Ret None /\ forall pre s, str = pre ++ a :: s -> b ∉ s).
Proof.
  destruct (decide (a ∈ str)) as [Ha|Ha].
  - destruct (split_first a str Ha) as (pre & s & -> & Hn). rewrite range_scan by done. case_bool_decide as Hb.
    + left. destruct (scan_some s (js_len pre + 1) [js_len pre] (js_len (pre ++ a :: s)) None) as [[l r] E]; [done|].
      rewrite E. replace (js_len pre + 1) with (js_len (pre ++ [a])) in E by (rewrite js_len_app; done).
      destruct (scan_sound _ _ _ _ _ _ _ E) as [(x & -> & Hp)|[_ ?]]; [done| |done| |eauto|done].
      * exists pre, []. done.
      * intros _. rewrite <- app_assoc. done.
      * rewrite <- app_assoc in Hp. eauto.
    + right. split; [done|]. intros pre' s' E Hb'. apply Hb.
      revert pre' E. clear Hb. revert s' Hb'. induction pre as [|x pre IH]; intros s' Hb' pre' E.
      * destruct pre' as [|y pre']; [by injection E as ->|]. injection E as -> ->.
        apply elem_of_app. right. apply elem_of_cons. by right.
      * apply not_elem_of_cons in Hn as [Hx Hn]. destruct pre' as [|y pre']; [by injection E as -> _|].
        injection E as _ E. eapply IH; [|done|exact Hb'|exact E]. apply elem_of_app. right. apply elem_of_cons. by left.
  - right. split.
    + unfold range. rewrite (indexOf_unit str a str 0) by (done || apply js_len_nonneg).
      by rewrite (proj2 (find_unit_none a str 0 ltac:(lia)) Ha).
    + intros pre s ->. destruct Ha. apply elem_of_app. right. apply elem_of_cons. by left.
Qed.
End scan.

(** ** Cutting at the first braces *)
Lemma slice_mid {A} (p m q : list A) : js_slice (p ++ m ++ q) (js_len p) (js_len p + js_len m) = m.
Proof.
  pose proof (js_len_nonneg p). pose proof (js_len_nonneg m). pose proof (js_len_nonneg q).
  rewrite js_slice_in; [|lia|rewrite !js_len_app; lia].
  rewrite drop_app_length' by (unfold js_len; lia). apply take_app_length'. unfold js_len. lia.
Qed.

Lemma braces_cut_at pre body post :
  range [open_brace] [close_brace] (pre ++ open_brace :: body ++ close_brace :: post) =
    Ret (Some (js_len pre, Some (js_len pre + 1 + js_len body))) ->
  braces (pre ++ open_brace :: body ++ close_brace :: post) =
    Ret (Some (BMatch (js_len pre) (Some (js_len pre + 1 + js_len body)) pre body post)).
Proof.
  intros E. unfold braces, balanced. cbn [delim_text default from_option id]. rewrite E. cbn [mbind outcome_bind].
  change (js_len [open_brace]) with 1. change (js_len [close_brace]) with 1. do 3 f_equal.
  - exact (slice_mid [] pre (open_brace :: body ++ close_brace :: post)).
  - pose proof (slice_mid (pre ++ [open_brace]) body (close_brace :: post)) as H.
    rewrite js_len_app in H. change (js_len [open_brace]) with 1 in H. by rewrite <- app_assoc in H.
  - pose proof (slice_mid (pre ++ open_brace :: body ++ [close_brace]) post []) as H.
    rewrite app_nil_r, <- app_assoc in H. cbn [app] in H. rewrite <- app_assoc in H. cbn [app] in H.
    unfold js_slice_from. etrans; [|exact H]. unfold js_len. rewrite ?length_app, ?length_cons, ?length_app.
    cbn [length]. f_equal; lia.
Qed.

Lemma brace_neq : open_brace <> close_brace.
Proof. done. Qed.

Definition brace_balanced : jsstr -> Prop := balanced_text open_brace close_brace.

Lemma braces_at pre body post : (open_brace ∉ pre) -> brace_balanced body ->
  braces (pre ++ open_brace :: body ++ close_brace :: post) =
    Ret (Some (BMatch (js_len pre) (Some (js_len pre + 1 + js_len body)) pre body post)).
Proof. intros Hp Hb. apply braces_cut_at, range_at; [apply brace_neq|done|done]. Qed.

Lemma braces_spec str :
  (exists pre body post, str = pre ++ open_brace :: body ++ close_brace :: post /\ brace_balanced body /\
     braces str = Ret (Some (BMatch (js_len pre) (Some (js_len pre + 1 + js_len body)) pre body post))) \/
  (braces str = Ret None /\ forall pre s, str = pre ++ open_brace :: s -> close_brace ∉ s).
Proof.
  destruct (range_sound _ _ brace_neq str) as [(l & r & E & pre & body & post & -> & <- & -> & Hb)|[E Hn]].
  - left. exists pre, body, post. split; [done|]. split; [done|]. by apply braces_cut_at.
  - right. split; [|done]. unfold braces, balanced. cbn [delim_text default from_option id]. by rewrite E.
Qed.

(** ** Splitting at top-level commas *)
Lemma js_join_app sep l k : l <> [] -> k <> [] -> js_join sep (l ++ k) = js_join sep l ++ sep ++ js_join sep k.
Proof.
  intros Hl Hk. induction l as [|x l IH]; [done|]. destruct l as [|y l].
  - cbn [app]. by rewrite js_join_cons.
  - cbn [app] in *. rewrite js_join_cons by done. rewrite IH by done. rewrite (js_join_cons sep x (y :: l)) by done.
    by rewrite <- !app_assoc.
Qed.

Lemma add_to_last_snoc p x y : add_to_last (p ++ [x]) y = p ++ [x ++ y].
Proof. unfold add_to_last. by rewrite reverse_snoc, reverse_involutive. Qed.

Lemma join_add_to_last sep p y : p <> [] -> js_join sep (add_to_last p y) = js_join sep p ++ y.
Proof.
  intros Hp. destruct p as [|x p _] using rev_ind; [done|]. rewrite add_to_last_snoc.
  destruct p as [|z p]; [done|]. rewrite !js_join_app by done. cbn [js_join]. by rewrite <- !app_assoc.
Qed.

Lemma parse_commas_join fuel str : (length str < fuel)%nat ->
  exists l, parseCommaParts_fuel fuel str = Ret l /\ l <> [] /\ js_join [comma] l = str.
Proof.
  revert str; induction fuel as [|fuel IH]; intros str Hf; [lia|]. cbn [parseCommaParts_fuel].
  destruct str as [|c0 str0] eqn:Estr; [by exists [[]]|]. rewrite <- Estr in *. clear Estr c0 str0.
  destruct (braces_spec str) as [(pre & body & post & -> & Hb & ->)|[-> Hn]]; cbn [mbind outcome_bind bm_pre bm_body bm_post].
  2: { exists (js_split str [comma]). split; [done|]. split; [apply split_loop_nonempty|by apply split_join]. }
  set (p := add_to_last _ _).
  assert (p <> []) as Hp.
  { unfold p. pose proof (split_loop_nonempty [comma] 0 [] pre) as Hne. fold (js_split pre [comma]) in Hne.
    destruct (js_split pre [comma]) as [|x l _] using rev_ind; [done|]. rewrite add_to_last_snoc. by destruct l. }
  assert (js_join [comma] p = pre ++ [open_brace] ++ body ++ [close_brace]) as Hj.
  { unfold p. by rewrite join_add_to_last, split_join by (done || apply split_loop_nonempty). }
  destruct (IH post) as (l & -> & Hl & Hlj); [rewrite !length_app in Hf; cbn in Hf; rewrite length_app in Hf; cbn in Hf; lia|].
  cbn [mbind outcome_bind]. assert (js_join [comma] p ++ post = pre ++ open_brace :: body ++ close_brace :: post) as Ho
    by (rewrite Hj; by rewrite <- !app_assoc).
  destruct post as [|c post].
  - exists p. split; [done|]. split; [done|]. by rewrite app_nil_r in Ho.
  - destruct l as [|h l]; [done|]. cbn [head default from_option id drop].
    eexists. split; [reflexivity|]. split.
    + intros H. apply app_eq_nil in H as [H _]. destruct p as [|x q _] using rev_ind; [done|].
      rewrite add_to_last_snoc in H. by destruct q.
    + rewrite <- Ho, <- Hlj. destruct l as [|h2 l]; [by rewrite app_nil_r, join_add_to_last|].
      rewrite js_join_app, join_add_to_last; [|done| |done].
      * rewrite (js_join_cons [comma] h) by done. by rewrite <- !app_assoc.
      * destruct p as [|x q _] using rev_ind; [done|]. rewrite add_to_last_snoc. by destruct q.
Qed.

(** ** Brace trees

    A pattern is a sequence of literal code units and brace sets; a set has at
    least two alternatives. *)
Inductive pat : Type :=
| PNil
| PLit (c : Z) (rest : pat)
| PSet (first : pat) (others : alts) (rest : pat)
with alts : Type :=
| AOne (p : pat)
| ACons (p : pat) (r : alts).

Scheme pat_mind := Induction for pat Sort Prop
with alts_mind := Induction for alts Sort Prop.
Combined Scheme pat_alts_ind from pat_mind, alts_mind.

(** The text of a tree. *)
Fixpoint text (p : pat) : jsstr :=
  match p with
  | PNil => []
  | PLit c r => c :: text r
  | PSet p1 l r => [open_brace] ++ (text p1 ++ [comma] ++ texts l) ++ [close_brace] ++ text r
  end
with texts (l : alts) : jsstr :=
  match l with
  | AOne p => text p
  | ACons p r => text p ++ [comma] ++ texts r
  end.

Definition product (N post : list jsstr) : list jsstr := concat (map (fun n => map (fun p => n ++ p) post) N).

(** The words of a tree: literals followed by the words of one alternative of
    each set, in the order of the alternatives. *)
Fixpoint words (p : pat) : list jsstr :=
  match p with
  | PNil => [[]]
  | PLit c r => map (fun w => c :: w) (words r)
  | PSet p1 l r => product (words p1 ++ words_alts l) (words r)
  end
with words_alts (l : alts) : list jsstr :=
  match l with
  | AOne p => words p
  | ACons p r => words p ++ words_alts r
  end.

(** Literals are not special to brace expansion; 0 delimits the escape texts. *)
Definition plain_unit (c : Z) : Prop :=
  c <> open_brace /\ c <> close_brace /\ c <> comma /\ c <> 36 /\ c <> 92 /\ c <> 0.

Fixpoint plain_pat (p : pat) : Prop :=
  match p with
  | PNil => True
  | PLit c r => plain_unit c /\ plain_pat r
  | PSet p1 l r => plain_pat p1 /\ plain_alts l /\ plain_pat r
  end
with plain_alts (l : alts) : Prop :=
  match l with
  | AOne p => plain_pat p
  | ACons p r => plain_pat p /\ plain_alts r
  end.

(** Number of sets. *)
Fixpoint sets (p : pat) : nat :=
  match p with
  | PNil => 0
  | PLit _ r => sets r
  | PSet p1 l r => S (sets p1 + sets_alts l + sets r)
  end
with sets_alts (l : alts) : nat :=
  match l with
  | AOne p => sets p
  | ACons p r => sets p + sets_alts r
  end.

Fixpoint alts_list (l : alts) : list pat :=
  match l with
  | AOne p => [p]
  | ACons p r => p :: alts_list r
  end.

Lemma texts_join l : texts l = js_join [comma] (map text (alts_list l)).
Proof.
  induction l as [p|p r IH]; [done|]. cbn [alts_list map texts].
  rewrite js_join_cons by by destruct r. by rewrite IH.
Qed.

Lemma balanced_plain_cons c s : plain_unit c -> brace_balanced s -> brace_balanced (c :: s).
Proof.
  intros (H1 & H2 & _) Hs. apply (balanced_app _ _ [c] s); [|done].
  apply balanced_free; (apply not_elem_of_cons; split; [congruence|apply not_elem_of_nil]).
Qed.

Lemma balanced_comma s t : brace_balanced s -> brace_balanced t -> brace_balanced (s ++ [comma] ++ t).
Proof.
  intros Hs Ht. apply balanced_app; [done|]. apply balanced_app; [|done]. reflexivity.
Qed.

Lemma text_balanced :
  (forall p, plain_pat p -> brace_balanced (text p)) /\ (forall l, plain_alts l -> brace_balanced (texts l)).
Proof.
  apply pat_alts_ind; cbn [plain_pat plain_alts text texts].
  - done.
  - intros c r IH [Hc Hr]. by apply balanced_plain_cons, IH.
  - intros p1 IH1 l IHl r IHr (H1 & Hl & Hr).
    change (brace_balanced (((open_brace :: (text p1 ++ [comma] ++ texts l) ++ [close_brace] ++ text r)))).
    rewrite app_assoc. apply (balanced_app _ _ (open_brace :: _ ++ [close_brace])); [|exact (IHr Hr)].
    apply balanced_wrap; [apply brace_neq|]. apply balanced_comma; auto.
  - auto.
  - intros p IHp r IHr [Hp Hr]. apply balanced_comma; auto.
Qed.

Definition free_of_braces (s : jsstr) : Prop := Forall plain_unit s.

Lemma plain_not_elem c s : (c = open_brace \/ c = close_brace \/ c = comma \/ c = 36 \/ c = 92 \/ c = 0) ->
  free_of_braces s -> c ∉ s.
Proof.
  intros Hc Hs Hin. unfold free_of_braces in Hs. rewrite Forall_forall in Hs.
  destruct (Hs c Hin) as (?&?&?&?&?&?). intuition congruence.
Qed.

Lemma product_cons_map (pre : jsstr) N post : map (fun w => pre ++ w) (product N post) = 
  concat (map (fun n => map (fun p => pre ++ n ++ p) post) N).
Proof.
  unfold product. induction N as [|n N IH]; [done|]. cbn [map concat]. rewrite map_app, map_map, IH. done.
Qed.

(** A tree is literals only, or literals up to its first set. *)
Lemma pat_split p : plain_pat p ->
  (sets p = 0%nat /\ free_of_braces (text p) /\ words p = [text p]) \/
  (exists pre p1 l r, text p = pre ++ open_brace :: (text p1 ++ [comma] ++ texts l) ++ close_brace :: text r /\
     free_of_braces pre /\ plain_pat p1 /\ plain_alts l /\ plain_pat r /\
     words p = map (fun w => pre ++ w) (product (words p1 ++ words_alts l) (words r)) /\
     sets p = S (sets p1 + sets_alts l + sets r)).
Proof.
  induction p as [|c p IH|p1 _ l r _]; cbn [plain_pat text words sets].
  - intros _. left. split; [done|]. split; [constructor|done].
  - intros [Hc Hp]. destruct (IH Hp) as [(Hs & Hf & ->)|(pre & p1 & l & r & Ht & Hpre & H1 & Hl & Hr & Hw & Hs)].
    + left. split; [done|]. split; [by constructor|done].
    + right. exists (c :: pre), p1, l, r. rewrite Ht, Hw, map_map. split; [done|]. split; [by constructor|]. done.
  - intros (H1 & Hl & Hr). right. exists [], p1, l, r. split; [done|]. split; [constructor|].
    split; [done|]. split; [done|]. split; [done|]. split; [|done]. symmetry. apply map_id.
Qed.

(** ** Splitting the alternatives of a set *)
Lemma split_comma_plain s : free_of_braces s -> js_split s [comma] = [s].
Proof. intros Hs. apply split_unit_none, plain_not_elem; [auto 10|done]. Qed.

(** A comma list of trees is brace-free, or cut at the first set of its first
    alternative that has one. *)
Lemma alts_split l : plain_alts l ->
  ((open_brace ∉ texts l) /\ js_split (texts l) [comma] = map text (alts_list l)) \/
  (exists done_ x p1 l1 l', texts l = js_join [comma] (done_ ++ [x]) ++
       open_brace :: (text p1 ++ [comma] ++ texts l1) ++ close_brace :: texts l' /\
     (open_brace ∉ js_join [comma] (done_ ++ [x])) /\ Forall (fun y => comma ∉ y) (done_ ++ [x]) /\
     plain_pat p1 /\ plain_alts l1 /\ plain_alts l' /\
     exists h tl, map text (alts_list l') = h :: tl /\
       map text (alts_list l) = done_ ++ (x ++ [open_brace] ++ (text p1 ++ [comma] ++ texts l1) ++ [close_brace] ++ h) :: tl).
Proof.
  assert (forall p rest, plain_pat p -> (sets p = 0%nat /\ free_of_braces (text p)) \/
    (exists x p1 l1 r, text p = x ++ open_brace :: (text p1 ++ [comma] ++ texts l1) ++ close_brace :: text r /\
       free_of_braces x /\ plain_pat p1 /\ plain_alts l1 /\ plain_pat r /\
       text p ++ rest = x ++ open_brace :: (text p1 ++ [comma] ++ texts l1) ++ close_brace :: text r ++ rest)) as Hp.
  { intros p rest Hp. destruct (pat_split p Hp) as [(Hs & Hf & _)|(x & p1 & l1 & r & Ht & Hx & H1 & Hl1 & Hr & _)]; [by left|].
    right. exists x, p1, l1, r. rewrite Ht. set (body := text p1 ++ [comma] ++ texts l1).
    split; [done|]. split; [done|]. split; [done|]. split; [done|]. split; [done|].
    rewrite <- app_assoc. cbn [app]. by rewrite <- (app_assoc body). }
  induction l as [p|p r IH]; cbn [plain_alts texts alts_list map].
  - intros Hpp. destruct (Hp p [] Hpp) as [[_ Hf]|(x & p1 & l1 & r & Ht & Hx & H1 & Hl1 & Hr & _)].
    + left. split; [apply plain_not_elem; [auto 10|done]|by apply split_comma_plain].
    + right. exists [], x, p1, l1, (AOne r). cbn [app js_join texts plain_alts alts_list map].
      split; [exact Ht|]. split; [apply plain_not_elem; [auto 10|done]|].
      split; [constructor; [apply plain_not_elem; [auto 10|done]|constructor]|].
      split; [done|]. split; [done|]. split; [done|]. exists (text r), []. split; [done|]. by rewrite Ht.
  - intros [Hpp Hr]. destruct (Hp p ([comma] ++ texts r) Hpp)
      as [[_ Hf]|(x & p1 & l1 & rr & Ht & Hx & H1 & Hl1 & Hrr & Ht2)].
    + destruct (IH Hr) as [[Hn Hs]|(dn & x & p1 & l1 & l' & Ht & Hx & Hc & H1 & Hl1 & Hl' & h & tl & Hh & Hm)].
      * left. split.
        -- rewrite !not_elem_of_app. split; [apply plain_not_elem; [auto 10|done]|]. split; [|done].
           by apply not_elem_of_cons; split; [|apply not_elem_of_nil].
        -- cbn [app]. rewrite split_unit_app, Hs, split_comma_plain by done. done.
      * right. exists (text p :: dn), x, p1, l1, l'. cbn [app].
        rewrite js_join_cons by by destruct dn. split; [rewrite Ht; by rewrite <- !app_assoc|]. split.
        -- rewrite !not_elem_of_app. split; [apply plain_not_elem; [auto 10|done]|]. split; [|done].
           by apply not_elem_of_cons; split; [|apply not_elem_of_nil].
        -- split; [constructor; [apply plain_not_elem; [auto 10|done]|done]|].
           split; [done|]. split; [done|]. split; [done|]. exists h, tl. split; [done|]. by rewrite Hm.
    + right. exists [], x, p1, l1, (ACons rr r). cbn [app js_join texts plain_alts alts_list map].
      split; [exact Ht2|]. split; [apply plain_not_elem; [auto 10|done]|].
      split; [constructor; [apply plain_not_elem; [auto 10|done]|constructor]|].
      split; [done|]. split; [done|]. split; [done|]. exists (text rr), (map text (alts_list r)). split; [done|].
      by rewrite Ht.
Qed.

Lemma parse_commas_alts fuel l : plain_alts l -> (length (texts l) < fuel)%nat ->
  parseCommaParts_fuel fuel (texts l) = Ret (map text (alts_list l)).
Proof.
  revert l; induction fuel as [|fuel IH]; intros l Hl Hf; [lia|].
  destruct (alts_split l Hl) as [[Hn Hs]|(dn & x & p1 & l1 & l' & Ht & Hx & Hc & H1 & Hl1 & Hl' & h & tl & Hh & Hm)].
  - cbn [parseCommaParts_fuel]. destruct (texts l) as [|c s] eqn:E; [by rewrite <- Hs|]. rewrite <- E in *.
    destruct (braces_spec (texts l)) as [(pre & body & post & Hb & _)|[-> _]]; [|cbn; by rewrite Hs].
    destruct Hn. rewrite Hb. apply elem_of_app. right. apply elem_of_cons. by left.
  - assert (brace_balanced (text p1 ++ [comma] ++ texts l1)) as Hbal
      by (apply balanced_comma; by apply text_balanced).
    cbn [parseCommaParts_fuel]. destruct (texts l) as [|c s] eqn:E; [by destruct (js_join [comma] (dn ++ [x]))|].
    rewrite Ht, braces_at by done. cbn [mbind outcome_bind bm_pre bm_body bm_post].
    rewrite join_split_unit by (done || by destruct dn). rewrite add_to_last_snoc.
    rewrite IH; [|done|].
    2: { apply (f_equal length) in Ht. rewrite !length_app in Ht. cbn in Ht. rewrite !length_app in Ht. cbn in *. lia. }
    cbn [mbind outcome_bind]. rewrite Hm, Hh. destruct (texts l') as [|y t] eqn:El.
    + assert (h = [] /\ tl = []) as [-> ->].
      { destruct l' as [q|q r']; cbn [texts alts_list map] in *; injection Hh as <- <-; [done|by destruct (text q)]. }
      by rewrite (app_nil_r [close_brace]).
    + cbn [head default from_option id drop]. rewrite add_to_last_snoc. f_equal.
      rewrite <- app_assoc. cbn [app]. do 2 f_equal. by rewrite <- app_assoc; cbn [app]; rewrite <- (app_assoc (_ ++ _)).
Qed.

(** ** The patterns of expand on the text of a set *)
Lemma dollar_plain s : free_of_braces s -> regex_test dollarRe s = false.
Proof.
  intros Hs. apply not_true_iff_false. intros H.
  apply regex_test_spec in H as (n & c' & s' & c1 & s1 & [-> Hd] & _).
  apply (plain_not_elem 36 s); [auto 10|done|]. rewrite <- (take_drop n s), Hd. apply elem_of_app. right.
  apply elem_of_cons. by left.
Qed.

Lemma class_items_neq neg items (c : Z) : class_ok neg items c = false ->
  forall y, class_ok neg items y = true -> y <> c.
Proof. intros Hc y Hy ->. congruence. Qed.

Lemma numeric_no_comma s : comma ∈ s -> regex_test numericSequenceRe s = false.
Proof.
  intros Hs. apply not_true_iff_false. intros H. unfold numericSequenceRe in H.
  apply (test_anchored_reads (fun y => y <> comma)) in H; [|done|].
  - rewrite Forall_forall in H. by apply H in Hs.
  - cbn [reads_only]. repeat split; try done; apply class_items_neq; reflexivity.
Qed.

Lemma alpha_no_comma s : comma ∈ s -> regex_test alphaSequenceRe s = false.
Proof.
  intros Hs. apply not_true_iff_false. intros H. unfold alphaSequenceRe in H.
  apply (test_anchored_reads (fun y => y <> comma)) in H; [|done|].
  - rewrite Forall_forall in H. by apply H in Hs.
  - cbn [reads_only]. repeat split; try done; apply class_items_neq; reflexivity.
Qed.

Lemma options_comma s : comma ∈ s -> (0 <=? indexOf s [comma] 0) = true.
Proof.
  intros Hs. rewrite (indexOf_unit s comma s 0) by (done || apply js_len_nonneg).
  destruct (find_unit_range comma s 0) as [Hn|Hge]; [lia| |by apply Z.leb_le].
  apply find_unit_none in Hn; [done|lia].
Qed.

Lemma concatMap_ret {A B C} (f : C -> A) (xs : list C) (fn : A -> outcome (list B)) (g : C -> list B) :
  Forall (fun x => fn (f x) = Ret (g x)) xs -> concatMap (map f xs) fn = Ret (concat (map g xs)).
Proof.
  intros H. induction H as [|x xs Hx H IH]; [done|]. cbn [concatMap map concat]. rewrite Hx. cbn.
  by rewrite IH.
Qed.

Lemma sets_alts_list l : Forall (fun p => (sets p <= sets_alts l)%nat) (alts_list l).
Proof.
  induction l as [p|p r IH]; cbn [alts_list sets_alts]; [by repeat constructor|].
  constructor; [lia|]. eapply Forall_impl; [exact IH|]. intros q Hq. cbn in Hq. lia.
Qed.

Lemma plain_alts_list l : plain_alts l -> Forall plain_pat (alts_list l).
Proof. induction l as [p|p r IH]; cbn; [by repeat constructor|]. intros [? ?]. constructor; auto. Qed.

Lemma words_alts_list l : concat (map words (alts_list l)) = words_alts l.
Proof. induction l as [p|p r IH]; cbn; [apply app_nil_r|]. by rewrite IH. Qed.

Lemma filter_all {A} (l : list A) : List.filter (fun _ => true) l = l.
Proof. induction l as [|x l IH]; cbn; [done|by rewrite IH]. Qed.

Definition not_empty (s : jsstr) : bool := match s with [] => false | _ => true end.

(** [expand] on the text of a tree. *)
Lemma expand_text escCl sequence fuel p isTop :
  plain_pat p -> (sets p < fuel)%nat ->
  expand escCl sequence fuel (text p) isTop =
  Ret (if isTop && (0 <? sets p)%nat then List.filter not_empty (words p) else words p).
Proof.
  revert p isTop; induction fuel as [|fuel IH]; intros p isTop Hp Hf; [lia|]. cbn [expand].
  destruct (pat_split p Hp) as [(Hs & Hfr & Hw)|(pre & p1 & l & r & Ht & Hpre & H1 & Hl & Hr & Hw & Hs)].
  - rewrite Hs, Hw. rewrite andb_false_r.
    destruct (braces_spec (text p)) as [(x & y & z & Hb & _)|[-> _]]; [|done].
    destruct (plain_not_elem open_brace (text p)); [auto|done|]. rewrite Hb. apply elem_of_app. right.
    apply elem_of_cons. by left.
  - assert (brace_balanced (text p1 ++ [comma] ++ texts l)) as Hbal
      by (apply balanced_comma; by apply text_balanced).
    assert (comma ∈ text p1 ++ [comma] ++ texts l) as Hc
      by (apply elem_of_app; right; apply elem_of_app; left; by apply list_elem_of_singleton).
    rewrite Ht, braces_at by (done || (apply plain_not_elem; [auto|done])).
    cbn [mbind outcome_bind bm_pre bm_body bm_post]. rewrite dollar_plain by done.
    rewrite numeric_no_comma, alpha_no_comma, options_comma by done. cbn [orb andb negb].
    pose proof (parse_commas_alts (S (length (texts (ACons p1 l)))) (ACons p1 l) (conj H1 Hl) ltac:(lia)) as Hpc.
    cbn [texts alts_list map] in Hpc. unfold parseCommaParts. rewrite Hpc. cbn [mbind outcome_bind].
    assert (match text r with [] => Ret [[]] | _ :: _ => expand escCl sequence fuel (text r) false end = Ret (words r)) as ->.
    { pose proof (IH r false Hr ltac:(lia)) as Hx. destruct (text r) eqn:Er; [|exact Hx].
      destruct (pat_split r Hr) as [(_ & _ & ->)|(x & ? & ? & ? & E & _)]; [by rewrite Er|].
      rewrite Er in E. by destruct x. }
    destruct (map text (alts_list l)) as [|t2 ts] eqn:El; [by destruct l|]. rewrite <- El.
    cbn [mbind outcome_bind]. change (text p1 :: map text (alts_list l)) with (map text (p1 :: alts_list l)).
    rewrite (concatMap_ret text (p1 :: alts_list l) _ words).
    2: { apply Forall_forall. intros q Hq. rewrite IH; [done| |].
         - assert (Forall plain_pat (p1 :: alts_list l)) as HF by (constructor; [done|by apply plain_alts_list]).
           rewrite Forall_forall in HF. by apply HF.
         - pose proof (sets_alts_list l) as HF. rewrite Forall_forall in HF.
           apply elem_of_cons in Hq as [->|Hq]; [lia|]. apply HF in Hq. lia. }
    cbn [map concat mbind outcome_bind]. rewrite words_alts_list. f_equal. unfold combine.
    rewrite <- product_cons_map, <- Hw, Hs. destruct isTop; cbn [negb orb andb Nat.ltb Nat.leb]; [done|].
    apply filter_all.
Qed.

(** ** expandTop on the text of a tree *)
Lemma split_absent x sep s : (x ∉ s) -> js_split s (x :: sep) = [s].
Proof.
  unfold js_split. intros H. enough (forall cur, split_loop (x :: sep) 0 cur s = [cur ++ s]) as E by apply E.
  induction s as [|y s IH]; intros cur; cbn [split_loop]; [by rewrite app_nil_r|].
  apply not_elem_of_cons in H as [Hy H]. cbn [starts_with]. rewrite (proj2 (Z.eqb_neq x y)) by done. cbn [andb].
  rewrite IH by done. by rewrite <- app_assoc.
Qed.

Lemma split_at_absent x sep by_ s : head sep = Some x -> (x ∉ s) -> split_at sep by_ s = s.
Proof. destruct sep as [|y sep]; [done|]. intros [= ->] H. unfold split_at. by rewrite split_absent. Qed.

Lemma escape_plain e s : (92 ∉ s) -> escapeBraces e s = s.
Proof. intros H. unfold escapeBraces. by rewrite !(split_at_absent 92 _ _ s) by done. Qed.

Lemma unescape_plain r1 r2 r3 r4 r5 s : (0 ∉ s) -> unescapeBraces (make_escs r1 r2 r3 r4 r5) s = s.
Proof.
  intros H. unfold unescapeBraces, make_escs. cbn [escSlash escOpen escClose escComma escPeriod].
  by rewrite !(split_at_absent 0 _ _ s) by done.
Qed.

Lemma elem_of_product w N post : w ∈ product N post -> exists n p, w = n ++ p /\ n ∈ N /\ p ∈ post.
Proof.
  unfold product. induction N as [|n N IH]; cbn [map concat]; [by intros ?%not_elem_of_nil|].
  intros [H|H]%elem_of_app.
  - apply list_elem_of_In, in_map_iff in H as (p & <- & Hp%list_elem_of_In). exists n, p.
    split; [done|]. split; [apply elem_of_cons; by left|done].
  - destruct (IH H) as (m & p & -> & Hm & Hp). exists m, p. split; [done|]. split; [apply elem_of_cons; by right|done].
Qed.

Lemma words_plain :
  (forall p, plain_pat p -> Forall free_of_braces (words p)) /\
  (forall l, plain_alts l -> Forall free_of_braces (words_alts l)).
Proof.
  apply pat_alts_ind; cbn [plain_pat plain_alts words words_alts].
  - intros _. by repeat constructor.
  - intros c r IH [Hc Hr]. apply Forall_map. eapply Forall_impl; [by apply IH|]. intros w Hw. by constructor.
  - intros p1 IH1 l IHl r IHr (H1 & Hl & Hr). apply Forall_forall. intros w (n & p & -> & Hn & Hp)%elem_of_product.
    assert (Forall free_of_braces (words p1 ++ words_alts l)) as HN by (apply Forall_app; auto).
    rewrite Forall_forall in HN. specialize (IHr Hr). rewrite Forall_forall in IHr.
    apply Forall_app. split; [by apply HN|by apply IHr].
  - auto.
  - intros p IHp r IHr [Hp Hr]. apply Forall_app. auto.
Qed.

Definition no_special (c : Z) (s : jsstr) : Prop := c ∉ s.

(** A code unit that is neither a literal nor syntax does not occur in the text. *)
Lemma text_absent c : c = 92 \/ c = 0 ->
  (forall p, plain_pat p -> no_special c (text p)) /\ (forall l, plain_alts l -> no_special c (texts l)).
Proof.
  unfold no_special. intros Hc. apply pat_alts_ind; cbn [plain_pat plain_alts text texts].
  - intros _. apply not_elem_of_nil.
  - intros x r IH [Hx Hr]. apply not_elem_of_cons. split; [|auto]. destruct Hx as (_&_&_&_&?&?). intuition congruence.
  - intros p1 IH1 l IHl r IHr (H1 & Hl & Hr). unfold open_brace, close_brace, comma.
    rewrite !not_elem_of_app, !not_elem_of_cons. repeat split; auto; try apply not_elem_of_nil; lia.
  - auto.
  - intros p IHp r IHr [Hp Hr]. unfold comma. rewrite !not_elem_of_app, !not_elem_of_cons.
    repeat split; auto; try apply not_elem_of_nil; lia.
Qed.

Lemma text_not_empty_set p : plain_pat p -> js_substr (text p) 0 2 <> js "{}".
Proof.
  change (js "{}") with [open_brace; close_brace]. intros Hp H.
  assert (exists t, text p = open_brace :: close_brace :: t) as [t Ht].
  { unfold js_substr, slice_pos in H. cbn [Z.ltb Z.compare] in H.
    rewrite Z.min_l in H by apply js_len_nonneg. cbn [Z.to_nat drop Pos.to_nat Pos.iter_op Nat.add] in H.
    destruct (text p) as [|x [|y t]]; [done|done|]. injection H as -> ->. by exists t. }
  destruct p as [|c p|p1 l r]; cbn [text plain_pat] in *; [done| |].
  - injection Ht as -> _. destruct Hp as [(?&_) _]. done.
  - injection Ht as Ht. destruct Hp as (H1 & _). destruct p1 as [|c p1|p2 l2 r2]; cbn [text plain_pat] in *.
    + injection Ht as E _. done.
    + injection Ht as -> _. destruct H1 as [(_&?&_) _]. done.
    + injection Ht as E _. done.
Qed.

Lemma filter_not_empty_id l : Forall (fun s => s <> []) l -> List.filter not_empty l = l.
Proof.
  intros H. induction H as [|x l Hx H IH]; [done|]. cbn [List.filter]. destruct x; [done|]. cbn. by rewrite IH.
Qed.

Lemma expandTop_text r1 r2 r3 r4 r5 fuel p : plain_pat p -> (sets p < fuel)%nat ->
  expandTop (make_escs r1 r2 r3 r4 r5) fuel (text p) = Ret (List.filter not_empty (words p)).
Proof.
  intros Hp Hf. destruct (text p) as [|c s] eqn:E.
  - destruct (pat_split p Hp) as [(_ & _ & ->)|(x & ? & ? & ? & Ht & _)]; [by rewrite E|].
    rewrite E in Ht. by destruct x.
  - unfold expandTop. rewrite <- E. rewrite decide_False by by apply text_not_empty_set.
    rewrite escape_plain by (apply (text_absent 92); [by left|done]). rewrite expand_text by done.
    assert ((if true && (0 <? sets p)%nat then List.filter not_empty (words p) else words p)
      = List.filter not_empty (words p)) as ->.
    { destruct (pat_split p Hp) as [(-> & _ & ->)|(? & ? & ? & ? & _ & _ & _ & _ & _ & _ & ->)]; [|done].
      cbn. by rewrite E. }
    cbn [mbind outcome_bind]. f_equal. rewrite <- (map_id (List.filter not_empty (words p))) at 2.
    apply map_ext_in. intros w Hw. apply filter_In in Hw as [Hw%list_elem_of_In _]. apply unescape_plain.
    pose proof (proj1 words_plain p Hp) as HF. rewrite Forall_forall in HF.
    apply plain_not_elem; [auto 10|]. by apply HF.
Qed.

(** ** Sequences *)
Definition safe : Z := 2 ^ 53.

Lemma seq_loop_up fuel x y k item : 0 < k -> Z.abs x + k <= safe -> Z.abs y + k <= safe ->
  (x <= y -> (y - x) / k + 1 < Z.of_nat fuel) -> (0 < fuel)%nat ->
  seq_loop fuel lte x y k item =
  Ret (map (fun j => item (x + j * k)) (if x <=? y then seqZ 0 ((y - x) / k + 1) else [])).
Proof.
  intros Hk Hx Hy. assert (- safe + k <= x) as Hlow by lia. clear Hx. revert x Hlow. induction fuel as [|fuel IH]; intros x Hx Hf Hp; [lia|]. cbn [seq_loop]. unfold lte at 1.
  destruct (x <=? y) eqn:E; bool_props; [|done]. specialize (Hf E).
  rewrite double_add_small by (unfold safe in *; lia).
  assert (0 <= (y - x) / k) by (apply Z.div_pos; lia).
  rewrite seqZ_cons by lia. cbn [map]. rewrite Z.mul_0_l, Z.add_0_r.
  assert ((y - (x + k)) / k = (y - x) / k - 1) as Hd.
  { replace (y - (x + k)) with (y - x + (-1) * k) by lia. rewrite Z.div_add by lia. lia. }
  rewrite IH; [|lia|rewrite Hd; lia|lia]. cbn [mbind outcome_bind]. do 2 f_equal.
  destruct (x + k <=? y) eqn:E2; bool_props.
  - rewrite Hd. replace ((y - x) / k - 1 + 1) with ((y - x) / k) by lia.
    replace (Z.pred ((y - x) / k + 1)) with ((y - x) / k) by lia.
    rewrite <- (fmap_add_seqZ 1 0). change (fmap (M := list)) with (@map Z Z). rewrite map_map. apply map_ext. intros j. f_equal. lia.
  - assert ((y - x) / k = 0) as -> by (apply Z.div_small; lia). done.
Qed.

Lemma seq_loop_down fuel x y k item :
  seq_loop fuel gte x y (k * -1) item = seq_loop fuel lte (- x) (- y) k (fun i => item (- i)).
Proof.
  revert x; induction fuel as [|fuel IH]; intros x; cbn [seq_loop]; [done|]. unfold gte at 1, lte at 1.
  replace (- x <=? - y) with (y <=? x) by (destruct (y <=? x) eqn:E1, (- x <=? - y) eqn:E2; bool_props; try done; lia).
  destruct (y <=? x); [|done]. rewrite <- (Z.opp_involutive x) at 1. replace (k * -1) with (- k) by lia. rewrite double_add_opp.
  rewrite Z.opp_involutive. destruct (double_add (- x) k) as [i|]; cbn [fmap option_fmap option_map]; [|done].
  replace (- k) with (k * -1) by lia. by rewrite IH, Z.opp_involutive.
Qed.

Definition seq_step (rest : list jsstr) : Z := match rest with [n2] => Z.abs (numeric n2) | _ => 1 end.

(** The value of a sequence with a step: from [x] towards [y], inclusive. *)
Lemma seq_expand_spec n0 n1 rest al : 0 < seq_step rest ->
  let x := numeric n0 in let y := numeric n1 in let k := seq_step rest in
  Z.abs x + k <= safe -> Z.abs y + k <= safe ->
  seq_expand (n0 :: n1 :: rest) al =
  Ret (map (fun j => seq_item al (existsb isPadded (n0 :: n1 :: rest)) (Z.max (js_len n0) (js_len n1))
              (if y <? x then x - j * k else x + j * k))
           (seqZ 0 (Z.abs (y - x) / k + 1))).
Proof.
  intros Hk. cbv zeta. intros Hx Hy. unfold seq_expand, seq_rounds. fold (seq_step rest). set (k := seq_step rest) in *.
  set (x := numeric n0) in *. set (y := numeric n1) in *. set (item := seq_item _ _ _).
  assert (Z.abs (y - x) / k <= Z.abs (y - x)) by (apply Z.div_le_upper_bound; nia).
  destruct (y <? x) eqn:E; bool_props.
  - rewrite seq_loop_down, seq_loop_up; [|done|lia|lia|intros _; replace (- y - - x) with (Z.abs (y - x)) by lia; lia|lia].
    rewrite (proj2 (Z.leb_le _ _)) by lia. replace (- y - - x) with (Z.abs (y - x)) by lia.
    f_equal. apply map_ext. intros j. f_equal. lia.
  - rewrite seq_loop_up; [|done|lia|lia|rewrite (Z.abs_eq (y - x)) in * by lia; lia|lia].
    rewrite (Z.abs_eq (y - x)) by lia. by rewrite (proj2 (Z.leb_le x y)) by lia.
Qed.

(** ** Termination of the recursion *)
Lemma count_app c s t : count_unit c (s ++ t) = (count_unit c s + count_unit c t)%nat.
Proof. unfold count_unit. by rewrite List.filter_app, length_app. Qed.

Lemma count_absent c s : (c ∉ s) -> count_unit c s = 0%nat.
Proof.
  unfold count_unit. induction s as [|x s IH]; intros H; [done|]. apply not_elem_of_cons in H as [Hx H].
  cbn [List.filter]. rewrite (proj2 (Z.eqb_neq c x)) by done. auto.
Qed.

Lemma count_join c sep l x : x ∈ l -> (count_unit c x <= count_unit c (js_join sep l))%nat.
Proof.
  induction l as [|y l IH]; [by intros ?%not_elem_of_nil|]. intros Hx. destruct l as [|z l].
  - apply list_elem_of_singleton in Hx as ->. apply Nat.le_refl.
  - rewrite js_join_cons, !count_app by done. apply elem_of_cons in Hx as [->|Hx]; [lia|]. specialize (IH Hx). lia.
Qed.

Abbreviation closes := (count_unit close_brace).

Lemma closes_embrace s : closes (embrace s) = S (closes s).
Proof.
  unfold embrace. rewrite (count_app _ [open_brace]), (count_app _ s).
  change (closes [open_brace]) with 0%nat. change (closes [close_brace]) with 1%nat. lia.
Qed.

Lemma combine_count n isTop isSequence pre N post :
  (forall nj pk, nj ∈ N -> pk ∈ post -> (closes pre + closes nj + closes pk < n)%nat) ->
  Forall (fun w => (closes w < n)%nat) (combine isTop isSequence pre N post).
Proof.
  intros H. apply Forall_forall. intros w Hw. apply list_elem_of_In, filter_In in Hw as [Hw _].
  apply in_concat in Hw as (l & Hl & Hw). apply in_map_iff in Hl as (nj & <- & Hn).
  apply in_map_iff in Hw as (pk & <- & Hp). rewrite !count_app.
  specialize (H nj pk). rewrite !list_elem_of_In in H. specialize (H Hn Hp). lia.
Qed.

Lemma concatMap_spec {A B} (P : A -> Prop) (Q : B -> Prop) (fn : A -> outcome (list B)) xs :
  Forall P xs -> (forall x, P x -> fn x <> OutOfFuel /\ forall l, fn x = Ret l -> Forall Q l) ->
  concatMap xs fn <> OutOfFuel /\ forall l, concatMap xs fn = Ret l -> Forall Q l.
Proof.
  intros HP Hf. induction HP as [|x xs Hx HP [IH1 IH2]]; cbn [concatMap].
  - split; [done|]. intros l [= <-]. constructor.
  - destruct (Hf x Hx) as [Hf1 Hf2]. destruct (fn x) as [l1|e|]; cbn; [|done..].
    destruct (concatMap xs fn) as [l2|e|]; cbn; [|done..]. split; [done|]. intros l [= <-].
    apply Forall_app. split; [by apply Hf2|by apply IH2].
Qed.

Section terminates.
Context (escCl : jsstr) (sequence : list jsstr -> bool -> outcome (list jsstr)).
Hypothesis escCl_plain : close_brace ∉ escCl.

Definition is_sequence (body : jsstr) (al : bool) : Prop :=
  if al then regex_test alphaSequenceRe body = true else regex_test numericSequenceRe body = true.

Hypothesis sequence_plain : forall body al l,
  is_sequence body al -> sequence (js_split body (js "..")) al = Ret l -> Forall (fun s => closes s = 0%nat) l.

(** Some sequence of the text, or of a text it expands to, does not end. *)
Definition endless : Prop := exists body al, is_sequence body al /\ sequence (js_split body (js "..")) al = OutOfFuel.

(** What a call owes its caller: it ends, unless a sequence does not; its words
    have no more closing braces than the text, and fewer if there is not exactly
    one. *)
Definition expand_ok (n : nat) (o : outcome (list jsstr)) : Prop :=
  (o = OutOfFuel -> endless) /\
  forall l, o = Ret l -> Forall (fun w => (closes w <= n)%nat) l /\
    (length l <> 1%nat -> Forall (fun w => (closes w < n)%nat) l).

Lemma expand_ok_less n o : (o = OutOfFuel -> endless) ->
  (forall l, o = Ret l -> Forall (fun w => (closes w < n)%nat) l) -> expand_ok n o.
Proof.
  intros H1 H2. split; [done|]. intros l Hl. specialize (H2 l Hl). split; [|done].
  eapply Forall_impl; [exact H2|]. intros w Hw. cbn in Hw. lia.
Qed.

Lemma expand_ok_self n s : (closes s <= n)%nat -> expand_ok n (Ret [s]).
Proof. intros H. split; [done|]. intros l [= <-]. split; [by repeat constructor|done]. Qed.

Lemma expand_ok_mono n m o : expand_ok n o -> (n < m)%nat -> expand_ok m o.
Proof.
  intros [H1 H2] Hnm. apply expand_ok_less; [done|]. intros l Hl. destruct (H2 l Hl) as [H _].
  eapply Forall_impl; [exact H|]. intros w Hw. cbn in Hw. lia.
Qed.

(** The words of the text after the braces. *)
Lemma post_ok fuel post n :
  (forall str isTop, (closes str < fuel)%nat -> expand_ok (closes str) (expand escCl sequence fuel str isTop)) ->
  (closes post < fuel)%nat -> (closes post <= n)%nat ->
  expand_ok (closes post) (match post with [] => Ret [[]] | _ => expand escCl sequence fuel post false end).
Proof. intros IH Hf Hn. destruct post as [|c post]; [by apply expand_ok_self|by apply IH]. Qed.

(** The branch that combines prefix, members and rest. *)
Lemma combine_ok n nN pre postO NO isTop isSequence :
  expand_ok nN postO -> (NO = OutOfFuel -> endless) -> 
  (forall N, NO = Ret N -> Forall (fun w => (closes pre + closes w + nN < n)%nat) N) ->
  expand_ok n (post ← postO; N ← NO; Ret (combine isTop isSequence pre N post)).
Proof.
  intros [HpF Hp] HF HN. apply expand_ok_less.
  - destruct postO as [post|e|]; cbn; [|done|auto]. destruct NO; cbn; [done|done|auto].
  - intros l Hl. apply bind_Ret in Hl as (post & -> & Hl). apply bind_Ret in Hl as (N & -> & [= <-]).
    apply combine_count. intros nj pk Hnj Hpk. destruct (Hp post eq_refl) as [Hpost _].
    specialize (HN N eq_refl). rewrite Forall_forall in HN, Hpost. specialize (HN _ Hnj). specialize (Hpost _ Hpk).
    cbn in HN, Hpost. lia.
Qed.

(** Members of a set, each with fewer braces than the text. *)
Lemma members_ok fuel n els :
  (forall str isTop, (closes str < fuel)%nat -> expand_ok (closes str) (expand escCl sequence fuel str isTop)) ->
  (n < fuel)%nat -> Forall (fun el => (closes el <= n)%nat) els ->
  (concatMap els (fun el => expand escCl sequence fuel el false) = OutOfFuel -> endless) /\
  (forall N, concatMap els (fun el => expand escCl sequence fuel el false) = Ret N ->
     Forall (fun w => (closes w <= n)%nat) N).
Proof.
  intros IH Hn Hels. induction Hels as [|el els Hel _ [IH1 IH2]]; cbn [concatMap].
  - split; [done|]. intros N [= <-]. constructor.
  - destruct (IH el false) as [H1 H2]; [lia|].
    destruct (expand escCl sequence fuel el false) as [l|e|]; cbn; [|done|split; [auto|done]].
    destruct (concatMap els _) as [l'|e|]; cbn; [|done|split; [auto|done]].
    split; [done|]. intros N [= <-]. apply Forall_app. split; [|by apply IH2].
    destruct (H2 l eq_refl) as [Hl _]. eapply Forall_impl; [exact Hl|]. intros w Hw. cbn in Hw. lia.
Qed.

(** A single member: its words are put in braces and expanded again. *)
Lemma single_ok fuel n pre body postO isTop :
  (forall str isTop, (closes str < fuel)%nat -> expand_ok (closes str) (expand escCl sequence fuel str isTop)) ->
  forall m, expand_ok m postO -> (closes body < fuel)%nat -> (closes pre + closes body + m < n)%nat ->
  expand_ok n (n' ← expand escCl sequence fuel body false;
    match map embrace n' with
    | [n0'] => post ← postO; Ret (map (fun p => pre ++ n0' ++ p) post)
    | _ => post ← postO; N ← concatMap (map embrace n') (fun el => expand escCl sequence fuel el false);
           Ret (combine isTop false pre N post)
    end).
Proof.
  intros IH m Hpost Hf Hn. destruct (IH body false Hf) as [HF Hw].
  destruct (expand escCl sequence fuel body false) as [n'|e|]; cbn [mbind outcome_bind]; [|done|split; [auto|done]].
  destruct (Hw n' eq_refl) as [Hle Hlt].
  destruct n' as [|w [|w2 n']]; cbn [map].
  - apply (combine_ok _ m); [done|done|]. intros N [= <-]. constructor.
  - pose proof (closes_embrace w) as Hem. remember (embrace w) as em eqn:E. clear E.
    apply Forall_cons in Hle as [Hle _]. destruct Hpost as [HpF Hp]. split.
    + destruct postO; cbn; [done|done|auto].
    + intros l Hl. apply bind_Ret in Hl as (post & -> & [= <-]). destruct (Hp post eq_refl) as [Hp1 Hp2].
      rewrite length_map. split.
      * apply Forall_map. eapply Forall_impl; [exact Hp1|]. intros p Hp'. cbn in Hp'.
        rewrite (count_app _ pre), (count_app _ em). lia.
      * intros Hne. apply Forall_map. eapply Forall_impl; [by apply Hp2|]. intros p Hp'. cbn in Hp'.
        rewrite (count_app _ pre), (count_app _ em). lia.
  - destruct (members_ok fuel (closes body) (map embrace (w :: w2 :: n')) IH Hf) as [H1 H2].
    { apply Forall_map. eapply Forall_impl; [apply Hlt; done|]. intros x Hx. cbn in Hx. rewrite closes_embrace. lia. }
    apply (combine_ok _ m); [done|exact H1|]. intros N HN. eapply Forall_impl; [by apply H2|]. intros x Hx. cbn in *. lia.
Qed.

Lemma expand_ends fuel str isTop : (closes str < fuel)%nat ->
  expand_ok (closes str) (expand escCl sequence fuel str isTop).
Proof.
  revert str isTop; induction fuel as [|fuel IH]; intros str isTop Hf; [lia|]. cbn [expand].
  destruct (braces_spec str) as [(pre & body & post & -> & Hb & ->)|[-> _]];
    cbn [mbind outcome_bind bm_pre bm_body bm_post]; [|by apply expand_ok_self].
  set (str := pre ++ _) in *.
  assert (closes str = S (closes pre + closes body + closes post)) as Hc.
  { unfold str. rewrite count_app. assert (open_brace :: body ++ close_brace :: post = embrace body ++ post) as ->
      by (unfold embrace; by rewrite <- !app_assoc).
    rewrite count_app, closes_embrace. lia. }
  destruct (regex_test dollarRe pre); [by apply expand_ok_self|].
  pose proof (post_ok fuel post (closes post) IH ltac:(lia) ltac:(lia)) as Hpost.
  destruct (negb _ && negb _).
  { destruct (regex_test commaCloseRe post); [|by apply expand_ok_self].
    assert (closes (pre ++ [open_brace] ++ body ++ escCl ++ post) = closes pre + closes body + closes post)%nat as Hc2
      by (rewrite (count_app _ pre), (count_app _ [open_brace]), (count_app _ body), (count_app _ escCl),
            (count_absent _ escCl escCl_plain); change (closes [open_brace]) with 0%nat; lia).
    eapply expand_ok_mono; [apply IH|]; lia. }
  destruct (regex_test numericSequenceRe body || regex_test alphaSequenceRe body) eqn:Eseq.
  - set (al := regex_test alphaSequenceRe body) in *.
    assert (is_sequence body al) as Hs.
    { unfold is_sequence. destruct al eqn:Eal; [exact Eal|]. by rewrite orb_false_r in Eseq. }
    apply (combine_ok _ (closes post)); [done| |].
    + intros HF. by exists body, al.
    + intros N HN. eapply Forall_impl; [by apply (sequence_plain body al)|]. intros w Hw. cbn in *. lia.
  - destruct (parse_commas_join (S (length body)) body ltac:(lia)) as (n & Hn & Hne & Hj).
    unfold parseCommaParts. rewrite Hn. cbn [mbind outcome_bind].
    assert (Forall (fun el => (closes el <= closes body)%nat) n) as Hels.
    { apply Forall_forall. intros x Hx. rewrite <- Hj. by apply count_join. }
    destruct n as [|n0 [|n1 n]]; [done| |].
    + cbn [js_join] in Hj. subst n0. apply (single_ok fuel _ _ _ _ isTop IH (closes post)); [done|lia|lia].
    + destruct (members_ok fuel (closes body) (n0 :: n1 :: n) IH) as [H1 H2]; [lia|done|].
      apply (combine_ok _ (closes post)); [done|exact H1|]. intros N HN. eapply Forall_impl; [by apply H2|].
      intros w Hw. cbn in *. lia.
Qed.
End terminates.

(** ** The sequences of expand *)
Lemma dec_digits_range fuel n acc : 0 <= n -> Forall (fun c => c <= 57) acc -> Forall (fun c => c <= 57) (dec_digits fuel n acc).
Proof.
  revert n acc; induction fuel as [|fuel IH]; intros n acc Hn Ha; cbn [dec_digits]; [done|].
  destruct (n <? 10) eqn:E; bool_props; [constructor; [lia|done]|].
  apply IH; [apply Z.div_pos; lia|]. constructor; [|done]. pose proof (Z.mod_pos_bound n 10). lia.
Qed.

Lemma dec_range i : Forall (fun c => c <= 57) (dec i).
Proof.
  unfold dec. assert (Forall (fun c => c <= 57) (dec_digits (Z.to_nat (Z.log2 (Z.abs i)) + 1) (Z.abs i) [])) as H
    by (apply dec_digits_range; [lia|constructor]).
  destruct (i <? 0); [constructor; [vm_compute; discriminate|done]|done].
Qed.

(** The text of a number has no brace in it. *)
Lemma positional_range s k n : Forall (fun c => c <= 121) (positional s k n).
Proof.
  assert (forall i, Forall (fun c => c <= 121) (dec i)) as Hd by (intros i; eapply Forall_impl; [apply dec_range|]; cbn; lia).
  unfold positional. destruct (n <=? 21); [apply Forall_app; split; [done|by apply Forall_replicate]|].
  pose proof (Hd s) as Hs. destruct (dec s) as [|c ds]; [constructor|]. apply Forall_cons in Hs as [Hc Hds].
  constructor; [done|]. apply Forall_app. split.
  - destruct ds; [constructor|]. apply Forall_app. split; [by apply (bool_decide_unpack _)|done].
  - apply Forall_app. split; [by apply (bool_decide_unpack _)|done].
Qed.

Lemma double_text_range z : Forall (fun c => c <= 121) (double_text z).
Proof.
  unfold double_text. destruct (Z.abs z <? 2 ^ 53); [eapply Forall_impl; [apply dec_range|]; cbn; lia|].
  assert (Forall (fun c => c <= 121) (if Z.abs z =? infinity then js "Infinity" else large_text (Z.abs z))) as Ht.
  { destruct (Z.abs z =? infinity); [by apply (bool_decide_unpack _)|]. unfold large_text. destruct (shortest _ _ _ _) as [s k].
    case_match; apply positional_range. }
  destruct (z <? 0); [|exact Ht]. apply Forall_app. split; [by apply (bool_decide_unpack _)|exact Ht].
Qed.

Lemma low_no_close s : Forall (fun c => c <= 121) s -> closes s = 0%nat.
Proof.
  intros H. apply count_absent. rewrite Forall_forall in H. intros Hin. apply H in Hin.
  unfold close_brace in Hin. lia.
Qed.

Lemma numeric_item_range pad width i : Forall (fun c => c <= 121) (seq_item false pad width i).
Proof.
  unfold seq_item. pose proof (double_text_range i) as Hd. destruct pad; [|done]. destruct (0 <? _); [|done].
  assert (forall n, Forall (fun c => c <= 121) (replicate n (chr "0"))) as Hz
    by (intros n; apply Forall_replicate; vm_compute; discriminate).
  destruct (i <? 0).
  - apply Forall_app. split; [constructor; [vm_compute; discriminate|constructor]|].
    apply Forall_app. split; [apply Hz|]. unfold js_slice_from, js_slice. by apply Forall_take, Forall_drop.
  - apply Forall_app. split; [apply Hz|done].
Qed.

Definition letter (c : Z) : Prop := 65 <= c <= 90 \/ 97 <= c <= 122.

Lemma class_letter y : class_ok false [CRange 97 122; CRange 65 90] y = true <-> letter y.
Proof.
  unfold class_ok, letter. cbn [existsb item_match]. unfold in_range. rewrite xorb_false_l, orb_false_r, orb_true_iff, !andb_true_iff, !Z.leb_le. lia.
Qed.

Lemma numeric_letter c : letter c -> numeric [c] = c.
Proof.
  intros Hc. unfold numeric. destruct (regex_test numeralRe [c]) eqn:E; [|done]. exfalso.
  unfold numeralRe in E. apply (test_anchored_reads (fun y => y <= 57)) in E; [|done|].
  - apply Forall_cons in E as [E _]. unfold letter in Hc. lia.
  - cbn [reads_only]. repeat split; try done; try lia. intros y Hy. unfold class_ok in Hy. cbn in Hy.
    unfold is_digit, in_range in Hy. rewrite orb_false_r in Hy. bool_props.
    destruct ((48 <=? y) && (y <=? 57)) eqn:E1; [|done]. bool_props. lia.
Qed.

Lemma alpha_shape body : regex_test alphaSequenceRe body = true ->
  exists c1 c2 rest, letter c1 /\ letter c2 /\ js_split body (js "..") = [c1] :: [c2] :: rest.
Proof.
  intros H. apply regex_test_spec in H as (n & c' & s' & H). unfold alphaSequenceRe in H.
  destruct H as (x0 & b0 & (-> & -> & Hn) & x1 & b1 & (-> & c1 & E1 & Hc1) & x2 & b2 & [-> E2] & x3 & b3 & [-> E3]
    & x4 & b4 & (-> & c2 & E4 & Hc2) & x5 & t & Ht & x6 & t2 & (-> & -> & Et) & -> & ->).
  apply class_letter in Hc1, Hc2. rewrite length_drop in Hn.
  assert (drop n body = body) as Hb by (destruct n; [done|destruct body; [done|cbn in Hn; lia]]).
  rewrite Hb in E1. subst body b1 b2 b3 t. exists c1, c2.
  change (js "..") with [46; 46]. unfold js_split. cbn [split_loop starts_with length Nat.sub].
  assert ((46 =? c1) = false) as -> by (apply Z.eqb_neq; unfold letter in Hc1; lia).
  assert ((46 =? c2) = false) as -> by (apply Z.eqb_neq; unfold letter in Hc2; lia). cbn [andb app].
  inversion Ht as [mn mx cc ss _|mn mx cc ss c1' s1 c2' s2 _ Hr _ _]; subst.
  - cbn. eauto.
  - destruct Hr as (y1 & u1 & [-> ->] & y2 & u2 & [-> ->] & _). cbn [split_loop starts_with length Nat.sub].
    cbn. eauto.
Qed.

(** *** What the numbers of a sequence are *)
Lemma class_between lo hi y : class_ok false [CRange lo hi] y = true -> lo <= y <= hi.
Proof. unfold class_ok. cbn [existsb item_match]. unfold in_range. rewrite xorb_false_l, orb_false_r, andb_true_iff, !Z.leb_le. done. Qed.

Lemma class_digit y : class_ok false [CDigit true] y = true -> 48 <= y <= 57.
Proof.
  unfold class_ok. cbn [existsb item_match]. unfold is_digit, in_range. rewrite xorb_false_l, orb_false_r. intros H. revert H.
  destruct ((48 <=? y) && (y <=? 57)) eqn:E; cbn; [intros _; bool_props; lia|done].
Qed.

Lemma sequence_chars body al : is_sequence body al -> Forall (fun y => 0 <= y <= 122) body.
Proof.
  destruct al; intros H; cbn [is_sequence] in H; [unfold alphaSequenceRe in H|unfold numericSequenceRe in H];
    apply (test_anchored_reads (fun y => 0 <= y <= 122)) in H; try done; cbn [reads_only]; repeat split; try done;
    intros; repeat match goal with
    | H : class_ok false [CDigit true] _ = true |- _ => apply class_digit in H
    | H : class_ok false [CRange 97 122; CRange 65 90] _ = true |- _ => apply class_letter in H; unfold letter in H
    end; lia.
Qed.

Lemma join_elem (sep : jsstr) l (x : jsstr) c : x ∈ l -> c ∈ x -> c ∈ js_join sep l.
Proof.
  induction l as [|y l IH]; [by intros ?%not_elem_of_nil|]. intros Hx Hc. destruct l as [|z l].
  - by apply list_elem_of_singleton in Hx as ->.
  - rewrite js_join_cons by done. rewrite !elem_of_app. apply elem_of_cons in Hx as [->|Hx]; [by left|right; right; by apply IH].
Qed.

(** Every part of a sequence is a double. *)
Lemma sequence_doubles body al n : is_sequence body al -> n ∈ js_split body (js "..") -> is_double (numeric n).
Proof.
  intros Hs Hn. unfold numeric. destruct (regex_test numeralRe n); [apply round_is_double|].
  apply small_double. destruct n as [|c n]; cbn; [lia|]. pose proof (sequence_chars body al Hs) as Hc. rewrite Forall_forall in Hc.
  assert (c ∈ body) as Hin; [|specialize (Hc c Hin); lia].
  rewrite <- (split_join body (js "..")) by done. eapply join_elem; [exact Hn|by left].
Qed.

Lemma seq_step_double rest : (forall n, n ∈ rest -> is_double (numeric n)) -> is_double (seq_step rest) /\ 0 <= seq_step rest.
Proof.
  intros H. unfold seq_step. assert (is_double 1) by (by apply small_double). destruct rest as [|n2 []]; [done| |done]. split; [|lia].
  specialize (H n2 ltac:(by left)). destruct (Z.abs_eq_or_opp (numeric n2)) as [-> | ->]; [done|by apply double_opp].
Qed.

Lemma seq_loop_bounds fuel x y k item l :
  seq_loop fuel lte x y k item = Ret l -> is_double x -> is_double k -> 0 <= k -> Forall (fun w => exists i, x <= i <= y /\ w = item i) l.
Proof.
  intros H Hx Hkd Hk. revert x l Hx H; induction fuel as [|fuel IH]; intros x l Hx H; cbn [seq_loop] in H; [done|].
  unfold lte at 1 in H. destruct (x <=? y) eqn:E; bool_props; [|injection H as <-; constructor].
  apply bind_Ret in H as (l' & Hl & [= <-]). constructor; [exists x; split; [lia|done]|].
  destruct (double_add x k) as [x'|] eqn:Ea; [|injection Hl as <-; constructor].
  pose proof (double_add_le x k x' Hx Hkd Hk Ea). eapply Forall_impl; [eapply IH; [by eapply (double_add_double x k)|exact Hl]|].
  intros w (i & Hi & ->). exists i. split; [lia|done].
Qed.

Lemma seq_rounds_plain rounds body al l :
  is_sequence body al -> seq_rounds rounds (js_split body (js "..")) al = Ret l -> Forall (fun s => closes s = 0%nat) l.
Proof.
  intros Hs H. pose proof (sequence_doubles body al) as Hd. destruct al; cbn [is_sequence] in Hs.
  - destruct (alpha_shape body Hs) as (c1 & c2 & rest & H1 & H2 & E). rewrite E in H, Hd. unfold seq_rounds in H.
    destruct (seq_step_double rest) as [Hkd Hk]; [intros n Hn; apply Hd; [done|by do 2 right]|].
    pose proof (Hd [c1] Hs ltac:(by left)) as D1. rewrite !numeric_letter in * by done. fold (seq_step rest) in H.
    destruct (c2 <? c1); [rewrite seq_loop_down in H|];
      (eapply Forall_impl; [eapply seq_loop_bounds; [exact H|by try apply double_opp|done|done]|]);
      intros w (i & Hi & ->); cbn; (case_match; [done|]); apply count_absent, not_elem_of_cons;
      (split; [unfold letter, close_brace in *; lia|apply not_elem_of_nil]).
  - assert (forall fuel test x y k pad width l, seq_loop fuel test x y k (seq_item false pad width) = Ret l ->
      Forall (fun s => closes s = 0%nat) l) as Hl.
    { intros fuel test x y k pad width. revert x. induction fuel as [|fuel IH]; intros x l' Hl; cbn [seq_loop] in Hl; [done|].
      destruct (test x y); [|injection Hl as <-; constructor]. apply bind_Ret in Hl as (l2 & Hl2 & [= <-]).
      constructor; [apply low_no_close, numeric_item_range|]. destruct (double_add x k); [by eapply IH|by injection Hl2 as <-]. }
    destruct (js_split body (js "..")) as [|n0 [|n1 rest]]; [done|done|]. by eapply Hl.
Qed.

Lemma seq_expand_plain body al l :
  is_sequence body al -> seq_expand (js_split body (js "..")) al = Ret l -> Forall (fun s => closes s = 0%nat) l.
Proof.
  intros Hs H. unfold seq_expand in H. destruct (js_split body (js "..")) as [|n0 [|n1 rest]] eqn:E; [done|done|].
  rewrite <- E in H. by eapply seq_rounds_plain.
Qed.

(** *** Loops that never end *)

(** The values of the counter from [x] on. *)
Inductive counts (test : Z -> bool) (incr : Z) : Z -> Z -> Prop :=
| counts_here x : counts test incr x x
| counts_on x x' i : test x = true -> double_add x incr = Some x' -> counts test incr x' i -> counts test incr x i.

(** The counter passes the test and does not move. *)
Definition stuck (test : Z -> bool) (incr x : Z) : Prop :=
  exists i, counts test incr x i /\ test i = true /\ double_add i incr = Some i.

Lemma stuck_forever fuel test x y incr item : stuck (fun i => test i y) incr x -> seq_loop fuel test x y incr item = OutOfFuel.
Proof.
  revert x. induction fuel as [|fuel IH]; intros x (i & Hc & Ht & Ha); [done|]. cbn [seq_loop].
  inversion Hc as [x0|x0 x' i0 Hx Hn Hc']; subst.
  - rewrite Ht, Ha. rewrite IH; [done|]. exists i. by split; [constructor|].
  - rewrite Hx, Hn. rewrite IH; [done|]. by exists i.
Qed.

Lemma loop_stuck fuel x y k item : is_double x -> is_double k -> 0 <= k ->
  ((if (x <=? y)%Z then Z.to_nat (y - x) + 2 else 1) <= fuel)%nat -> seq_loop fuel lte x y k item = OutOfFuel -> stuck (fun i => lte i y) k x.
Proof.
  intros Hx Hkd Hk. revert x Hx. induction fuel as [|fuel IH]; intros x Hx Hf H; [destruct (x <=? y); lia|]. cbn [seq_loop] in H.
  unfold lte at 1 in H. destruct (x <=? y) eqn:E; [|done]. destruct (double_add x k) as [x'|] eqn:Ea; [|done].
  destruct (Z.eq_dec x' x) as [->|Hne]; [exists x; by split; [constructor|]|].
  pose proof (double_add_le x k x' Hx Hkd Hk Ea). bool_props.
  destruct (IH x') as (i & Hc & Hi).
  - by eapply (double_add_double x k).
  - destruct (x' <=? y) eqn:E'; bool_props; lia.
  - by destruct (seq_loop fuel lte x' y k item).
  - exists i. split; [|done]. eapply counts_on; [|exact Ea|exact Hc]. unfold lte. by apply Z.leb_le.
Qed.

Lemma counts_opp y k x i : counts (fun i => lte i (- y)) k x i -> counts (fun i => gte i y) (k * -1) (- x) (- i).
Proof.
  induction 1 as [x|x x' i Hx Ha Hc IH]; [constructor|]. eapply counts_on; [| |exact IH].
  - unfold lte, gte in *. bool_props. apply Z.leb_le. lia.
  - replace (k * -1) with (- k) by lia. by rewrite double_add_opp, Ha.
Qed.

(** The counter of a sequence does not move: the step is zero, or too small where the
    counter has come to. *)
Definition stuck_sequence (n0 n1 : jsstr) (rest : list jsstr) : Prop :=
  let x := numeric n0 in let y := numeric n1 in
  if y <? x then stuck (fun i => gte i y) (seq_step rest * -1) x else stuck (fun i => lte i y) (seq_step rest) x.

Lemma seq_rounds_stuck rounds n0 n1 rest al : stuck_sequence n0 n1 rest -> seq_rounds rounds (n0 :: n1 :: rest) al = OutOfFuel.
Proof.
  unfold stuck_sequence, seq_rounds. fold (seq_step rest). destruct (numeric n1 <? numeric n0); apply stuck_forever.
Qed.

Lemma seq_expand_stuck n0 n1 rest al : (forall n, n ∈ n0 :: n1 :: rest -> is_double (numeric n)) ->
  seq_expand (n0 :: n1 :: rest) al = OutOfFuel -> stuck_sequence n0 n1 rest.
Proof.
  intros Hd. destruct (seq_step_double rest) as [Hkd Hk]; [intros n Hn; apply Hd; by do 2 right|].
  pose proof (Hd n0 ltac:(by left)) as Hx. unfold seq_expand, seq_rounds, stuck_sequence. fold (seq_step rest).
  set (x := numeric n0) in *. set (y := numeric n1). destruct (Z.ltb_spec y x) as [E|E].
  - rewrite seq_loop_down. intros H. apply loop_stuck in H; [|by apply double_opp|done|done|case_match; lia].
    destruct H as (i & Hc & Ht & Ha). exists (- i). apply counts_opp in Hc. rewrite Z.opp_involutive in Hc. split; [done|]. split.
    + unfold lte, gte in *. bool_props. apply Z.leb_le. lia.
    + replace (seq_step rest * -1) with (- seq_step rest) by lia. by rewrite double_add_opp, Ha.
  - intros H. apply loop_stuck in H; [done..|]. case_match; lia.
Qed.

(** *** Runs that are watched

    [watched] is [seq_expand] that throws where its loop would never end. *)
Definition stuck_error : js_error := PlainError "stuck".
Definition watched (n : list jsstr) (al : bool) : outcome (list jsstr) :=
  match seq_expand n al with OutOfFuel => Throw stuck_error | r => r end.

Lemma sequence_kind body : regex_test numericSequenceRe body || regex_test alphaSequenceRe body = true ->
  is_sequence body (regex_test alphaSequenceRe body).
Proof. intros H. unfold is_sequence. destruct (regex_test alphaSequenceRe body) eqn:E; [done|]. by rewrite orb_false_r in H. Qed.

(** A computation that only differs where it runs out of fuel. *)
Definition sofar {A} (fails : outcome A -> Prop) (o o' : outcome A) : Prop := o = o' \/ (o = OutOfFuel /\ fails o').

Section follows.
Context (fails : forall A, outcome A -> Prop).
Hypothesis fails_bind : forall A B (o : outcome A) (f : A -> outcome B), fails A o -> fails B (o ≫= f).

Lemma sofar_bind {A B} (o o' : outcome A) (f f' : A -> outcome B) : sofar (fails A) o o' ->
  (forall a, sofar (fails B) (f a) (f' a)) -> sofar (fails B) (o ≫= f) (o' ≫= f').
Proof.
  intros [->|[-> Hf]] H; [|right; split; [done|by apply fails_bind]]. destruct o' as [a|e|]; cbn; [apply H|by left..].
Qed.

Lemma sofar_concatMap {A B} (f f' : A -> outcome (list B)) xs : (forall x, sofar (fails _) (f x) (f' x)) ->
  sofar (fails _) (concatMap xs f) (concatMap xs f').
Proof.
  intros H. induction xs as [|x xs IH]; cbn [concatMap]; [by left|]. apply sofar_bind; [done|]. intros l.
  apply sofar_bind; [done|]. intros l'. by left.
Qed.

Lemma expand_sofar escCl (s s' : list jsstr -> bool -> outcome (list jsstr)) :
  (forall body al, is_sequence body al -> sofar (fails _) (s (js_split body (js "..")) al) (s' (js_split body (js "..")) al)) ->
  forall fuel fuel', (fuel = fuel' \/ ((fuel <= fuel')%nat /\ forall o, fails (list jsstr) o)) ->
  forall str isTop, sofar (fails _) (expand escCl s fuel str isTop) (expand escCl s' fuel' str isTop).
Proof.
  intros Hs. induction fuel as [|fuel IH]; intros fuel' Hf str isTop.
  { destruct Hf as [<-|[_ H]]; [by left|right; split; [done|apply H]]. }
  destruct fuel' as [|fuel']; [destruct Hf; lia|]. cbn [expand].
  assert (forall str isTop, sofar (fails _) (expand escCl s fuel str isTop) (expand escCl s' fuel' str isTop)) as IH'.
  { apply IH. destruct Hf as [Hf|[Hf H]]; [left; lia|right; split; [lia|done]]. }
  apply sofar_bind; [by left|]. intros [m|]; [|by left]. destruct (regex_test dollarRe (bm_pre m)); [by left|].
  destruct (negb _ && negb _); [destruct (regex_test commaCloseRe (bm_post m)); [apply IH'|by left]|].
  assert (sofar (fails _) (match bm_post m with [] => Ret [[]] | _ => expand escCl s fuel (bm_post m) false end)
    (match bm_post m with [] => Ret [[]] | _ => expand escCl s' fuel' (bm_post m) false end)) as Hpost.
  { destruct (bm_post m); [by left|apply IH']. }
  assert (forall els : list jsstr, sofar (fails _) (concatMap els (fun el => expand escCl s fuel el false))
    (concatMap els (fun el => expand escCl s' fuel' el false))) as Hels.
  { intros els. apply sofar_concatMap. intros x. apply IH'. }
  destruct (regex_test numericSequenceRe (bm_body m) || regex_test alphaSequenceRe (bm_body m)) eqn:Eseq.
  { apply sofar_bind; [done|]. intros post. apply sofar_bind; [|intros N; by left]. apply Hs. by apply sequence_kind. }
  apply sofar_bind; [by left|]. intros n.
  assert (forall els, sofar (fails _)
    (post ← match bm_post m with [] => Ret [[]] | _ => expand escCl s fuel (bm_post m) false end;
     N ← concatMap els (fun el => expand escCl s fuel el false); Ret (combine isTop false (bm_pre m) N post))
    (post ← match bm_post m with [] => Ret [[]] | _ => expand escCl s' fuel' (bm_post m) false end;
     N ← concatMap els (fun el => expand escCl s' fuel' el false); Ret (combine isTop false (bm_pre m) N post))) as Hset.
  { intros els. apply sofar_bind; [done|]. intros post. apply sofar_bind; [done|]. intros N. by left. }
  destruct n as [|n0 [|n1 n]]; [apply Hset| |apply Hset].
  apply sofar_bind; [apply IH'|]. intros n'. destruct (map embrace n') as [|w [|w2 ws]]; [apply Hset| |apply Hset].
  apply sofar_bind; [done|]. intros post. by left.
Qed.
End follows.

(** More fuel, and more rounds, change nothing but a run that was cut short. *)
Lemma expand_more escCl s s' fuel fuel' str isTop : (fuel <= fuel')%nat ->
  (forall body al, is_sequence body al ->
    s (js_split body (js "..")) al = OutOfFuel \/ s (js_split body (js "..")) al = s' (js_split body (js "..")) al) ->
  expand escCl s fuel str isTop = OutOfFuel \/ expand escCl s fuel str isTop = expand escCl s' fuel' str isTop.
Proof.
  intros Hf Hs. destruct (expand_sofar (fun _ _ => True) ltac:(done) escCl s s') with (fuel := fuel) (fuel' := fuel') (str := str) (isTop := isTop)
    as [E|[E _]]; [|by right; split| by right| by left].
  intros body al Hb. destruct (Hs body al Hb) as [E|E]; [by right|by left].
Qed.

(** A run that is watched is the run itself, up to a loop that would never end. *)
Lemma expand_watched escCl fuel str isTop :
  expand escCl seq_expand fuel str isTop = expand escCl watched fuel str isTop \/
  (expand escCl seq_expand fuel str isTop = OutOfFuel /\ expand escCl watched fuel str isTop = Throw stuck_error).
Proof.
  apply (expand_sofar (fun A o => o = Throw stuck_error)); [by intros A B o f ->| |by left].
  intros body al _. unfold watched, sofar. destruct (seq_expand _ al); [by left..|by right].
Qed.

(** Nothing else throws. *)
Definition quiet {A} (o : outcome A) : Prop := forall e, o <> Throw e.

Lemma quiet_bind {A B} (o : outcome A) (f : A -> outcome B) : quiet o -> (forall a, quiet (f a)) -> quiet (o ≫= f).
Proof. intros Ho Hf e. destruct o as [a|e'|]; cbn; [apply Hf|by destruct (Ho e')|done]. Qed.

Lemma quiet_concatMap {A B} (f : A -> outcome (list B)) xs : (forall x, quiet (f x)) -> quiet (concatMap xs f).
Proof.
  intros Hf. induction xs as [|x xs IH]; [done|]. cbn [concatMap]. apply quiet_bind; [apply Hf|]. intros l. by apply quiet_bind.
Qed.

Lemma expand_quiet escCl s fuel str isTop : (forall body al, is_sequence body al -> quiet (s (js_split body (js "..")) al)) ->
  quiet (expand escCl s fuel str isTop).
Proof.
  intros Hs. revert str isTop. induction fuel as [|fuel IH]; intros str isTop; [done|]. cbn [expand].
  destruct (braces_spec str) as [(pre & body & post & _ & _ & ->)|[-> _]]; cbn [mbind outcome_bind bm_pre bm_body bm_post]; [|done].
  destruct (regex_test dollarRe pre); [done|]. destruct (negb _ && negb _); [destruct (regex_test commaCloseRe post); [apply IH|done]|].
  assert (quiet (match post with [] => Ret [[]] | _ => expand escCl s fuel post false end)) as Hpost by (destruct post; [done|apply IH]).
  assert (forall els : list jsstr, quiet (post ← match post with [] => Ret [[]] | _ => expand escCl s fuel post false end;
    N ← concatMap els (fun el => expand escCl s fuel el false); Ret (combine isTop false pre N post))) as Hset.
  { intros els. apply quiet_bind; [done|]. intros p. apply quiet_bind; [by apply quiet_concatMap|done]. }
  destruct (regex_test numericSequenceRe body || regex_test alphaSequenceRe body) eqn:Eseq.
  { apply quiet_bind; [done|]. intros p. apply quiet_bind; [|done]. apply Hs. by apply sequence_kind. }
  destruct (parse_commas_join (S (length body)) body ltac:(lia)) as (n & Hn & _ & _). unfold parseCommaParts. rewrite Hn. cbn [mbind outcome_bind].
  destruct n as [|n0 [|n1 n]]; [apply Hset| |apply Hset].
  apply quiet_bind; [apply IH|]. intros n'. destruct (map embrace n') as [|w [|w2 ws]]; [apply Hset| |apply Hset]. by apply quiet_bind.
Qed.

(** ** Results *)

(** A balanced match is a cut.  [balanced] on braces always returns: either
    prefix, body and rest of a brace pair, which with the two braces make up the
    text, the body being balanced; or nothing, when no closing brace follows an
    opening one. *)
Theorem braces_cut (str : jsstr) :
  (exists m, braces str = Ret (Some m) /\
     str = bm_pre m ++ [open_brace] ++ bm_body m ++ [close_brace] ++ bm_post m /\
     brace_balanced (bm_body m) /\ bm_start m = js_len (bm_pre m)) \/
  (braces str = Ret None /\ forall pre s, str = pre ++ open_brace :: s -> close_brace ∉ s).
Proof.
  destruct (braces_spec str) as [(pre & body & post & -> & Hb & E)|H]; [left|by right].
  eexists. split; [exact E|]. done.
Qed.

(** Splitting at top-level commas loses nothing.  For every text,
    [parseCommaParts] returns at least one part, and the parts joined by commas are
    the text. *)
Theorem comma_parts_join (str : jsstr) :
  exists parts, parseCommaParts str = Ret parts /\ parts <> [] /\ js_join [comma] parts = str.
Proof. apply parse_commas_join. lia. Qed.

(** C27: brace expansion is correct.  On the text of any tree of literals and nested
    brace sets, [expandTop] returns exactly the words of the tree in the order of
    the alternatives, without the empty word; fuel beyond the number of sets is
    enough. *)
Theorem expandTop_words (r1 r2 r3 r4 r5 : jsstr) (p : pat) (fuel : nat)
    (Hp : plain_pat p) (Hf : (sets p < fuel)%nat) :
  expandTop (make_escs r1 r2 r3 r4 r5) fuel (text p) = Ret (List.filter not_empty (words p)).
Proof. by apply expandTop_text. Qed.

(** The tree of a{b,c{d,e}}. *)
Definition demo_tree : pat :=
  PLit 97 (PSet (PLit 98 PNil) (AOne (PLit 99 (PSet (PLit 100 PNil) (AOne (PLit 101 PNil)) PNil))) PNil).

Lemma expandTop_words_witness :
  text demo_tree = js "a{b,c{d,e}}" /\
  expandTop (make_escs (js "0.1") (js "0.2") (js "0.3") (js "0.4") (js "0.5")) 3 (text demo_tree) =
  Ret (map js ["ab"; "acd"; "ace"]%string).
Proof.
  split; [reflexivity|].
  apply (expandTop_words (js "0.1") (js "0.2") (js "0.3") (js "0.4") (js "0.5") demo_tree 3); vm_compute;
    [repeat split; discriminate|lia].
Defined.

(** Sequences are exact.  With a non-zero step the sequence [n0..n1..step]
    (step 1 when left out) is the arithmetic progression from [n0] towards [n1],
    up to and including the last value that does not pass [n1], and the loop ends, as long
    as the numbers and the step stay within 2^53. *)
Theorem sequence_exact (n0 n1 : jsstr) (rest : list jsstr) (al : bool) (Hk : 0 < seq_step rest)
    (Hx : Z.abs (numeric n0) + seq_step rest <= 2 ^ 53) (Hy : Z.abs (numeric n1) + seq_step rest <= 2 ^ 53) :
  let x := numeric n0 in let y := numeric n1 in let k := seq_step rest in
  seq_expand (n0 :: n1 :: rest) al =
  Ret (map (fun j => seq_item al (existsb isPadded (n0 :: n1 :: rest)) (Z.max (js_len n0) (js_len n1))
              (if y <? x then x - j * k else x + j * k))
           (seqZ 0 (Z.abs (y - x) / k + 1))).
Proof. by apply seq_expand_spec. Qed.

Lemma sequence_exact_witness :
  seq_expand [js "01"; js "10"; js "3"] false = Ret (map js ["01"; "04"; "07"; "10"]%string).
Proof.
  exact (sequence_exact (js "01") (js "10") [js "3"] false ltac:(vm_compute; reflexivity) ltac:(vm_compute; discriminate) ltac:(vm_compute; discriminate)).
Defined.

(** A step of zero never ends: whatever the number of rounds allowed, the loop
    is still running, in either direction. *)
Theorem zero_step_never_ends (fuel : nat) (x y : Z) (item : Z -> jsstr) (Hx : is_double x) :
  (x <= y -> seq_loop fuel lte x y 0 item = OutOfFuel) /\
  (y <= x -> seq_loop fuel gte x y (0 * -1) item = OutOfFuel).
Proof.
  assert (double_add x 0 = Some x) as Ha.
  { destruct Hx as [Hx _]. unfold double_add. case_match; [done|]. cbn. by rewrite Z.add_0_r, Hx. }
  split; intros H; apply stuck_forever; exists x; (split; [constructor|]); (split; [|exact Ha]); by apply Z.leb_le.
Qed.

Lemma zero_step_never_ends_witness : seq_loop 1000 lte (numeric (js "1")) (numeric (js "2")) 0 dec = OutOfFuel.
Proof.
  apply (zero_step_never_ends 1000 (numeric (js "1")) (numeric (js "2")) dec); [|vm_compute; discriminate].
  apply small_double. vm_compute. discriminate.
Defined.

(** At 2^53 adding one changes nothing: the loop of the two neighbours never ends. *)
Lemma large_sequence_never_ends rounds :
  seq_rounds rounds [js "9007199254740992"; js "9007199254740993"] false = OutOfFuel.
Proof.
  apply seq_rounds_stuck. unfold stuck_sequence.
  assert (numeric (js "9007199254740992") = 2 ^ 53) as -> by (vm_compute; reflexivity).
  assert (numeric (js "9007199254740993") = 2 ^ 53) as -> by (vm_compute; reflexivity).
  exists (2 ^ 53). split; [apply counts_here|]. split; vm_compute; reflexivity.
Qed.

(** The sequences of [expand] do not throw, and return unless they are stuck. *)
Lemma split_two sep a b : sep <> [] -> exists x y l, js_split (a ++ sep ++ b) sep = x :: y :: l.
Proof.
  intros Hs. unfold js_split. generalize (@nil Z) as cur. induction a as [|c a IH]; intros cur.
  - destruct sep as [|c sep]; [done|]. cbn [app split_loop]. assert (starts_with (c :: sep) (c :: sep ++ b) = true) as -> by apply (starts_self (c :: sep)).
    destruct (split_loop (c :: sep) (length (c :: sep) - 1) [] (sep ++ b)) as [|y l] eqn:E; [by apply split_loop_nonempty in E|by do 3 eexists].
  - cbn [app split_loop]. destruct (starts_with sep (c :: a ++ sep ++ b)); [|apply IH].
    destruct (split_loop sep (length sep - 1) [] (a ++ sep ++ b)) as [|y l] eqn:E; [by apply split_loop_nonempty in E|by do 3 eexists].
Qed.

Lemma sequence_parts body al : is_sequence body al -> exists n0 n1 rest, js_split body (js "..") = n0 :: n1 :: rest.
Proof.
  destruct al; intros H; cbn [is_sequence] in H.
  - destruct (alpha_shape body H) as (c1 & c2 & rest & _ & _ & ->). by do 3 eexists.
  - apply regex_test_spec in H as (n & c' & s' & H). unfold numericSequenceRe in H.
    destruct H as (x0 & b0 & (-> & -> & Hn) & x1 & b1 & H1 & x2 & b2 & H2 & x3 & b3 & [_ E3] & x4 & b4 & [_ E4] & _).
    apply (den_reads (fun _ => True)) in H1 as (p1 & E1 & _); [|by cbn].
    apply (den_reads (fun _ => True)) in H2 as (p2 & E2 & _); [|by cbn].
    subst b1 b2 b3. assert (body = (take n body ++ p1 ++ p2) ++ js ".." ++ b4) as ->; [|by apply split_two].
    rewrite <- (take_drop n body) at 1. by rewrite E1, <- !app_assoc.
Qed.

Lemma seq_loop_quiet fuel test x y k item : quiet (seq_loop fuel test x y k item).
Proof.
  revert x. induction fuel as [|fuel IH]; intros x; [done|]. cbn [seq_loop]. destruct (test x y); [|done].
  apply quiet_bind; [by destruct (double_add x k)|done].
Qed.

Lemma seq_expand_quiet body al : is_sequence body al -> quiet (seq_expand (js_split body (js "..")) al).
Proof. intros (n0 & n1 & rest & ->)%sequence_parts. apply seq_loop_quiet. Qed.

Lemma seq_loop_more fuel fuel' test x y k item : (fuel <= fuel')%nat ->
  seq_loop fuel test x y k item = OutOfFuel \/ seq_loop fuel test x y k item = seq_loop fuel' test x y k item.
Proof.
  revert fuel' x. induction fuel as [|fuel IH]; intros fuel' x Hf; [by left|]. destruct fuel' as [|fuel']; [lia|]. cbn [seq_loop].
  destruct (test x y); [|by right]. destruct (double_add x k) as [x'|]; [|by right].
  destruct (IH fuel' x') as [-> | ->]; [lia|by left|by right].
Qed.

(** However many rounds are allowed, a sequence does what it does, or is still running. *)
Lemma seq_rounds_sofar rounds body al : is_sequence body al ->
  seq_rounds rounds (js_split body (js "..")) al = OutOfFuel \/
  seq_rounds rounds (js_split body (js "..")) al = seq_expand (js_split body (js "..")) al.
Proof.
  intros Hs. destruct (sequence_parts body al Hs) as (n0 & n1 & rest & E). pose proof (sequence_doubles body al) as Hd. rewrite E in *.
  destruct (decide (rounds <= Z.to_nat (Z.abs (numeric n1 - numeric n0)) + 2)%nat) as [Hr|Hr].
  - destruct (seq_loop_more rounds _ (if numeric n1 <? numeric n0 then gte else lte) (numeric n0) (numeric n1)
      (if numeric n1 <? numeric n0 then seq_step rest * -1 else seq_step rest)
      (seq_item al (existsb isPadded (n0 :: n1 :: rest)) (Z.max (js_len n0) (js_len n1))) Hr) as [H|H]; [by left|by right].
  - destruct (seq_expand (n0 :: n1 :: rest) al) eqn:Ex; [| |left; apply seq_rounds_stuck, (seq_expand_stuck _ _ _ al); [intros n Hn; by apply Hd|done]].
    all: right; rewrite <- Ex; symmetry.
    all: destruct (seq_loop_more (Z.to_nat (Z.abs (numeric n1 - numeric n0)) + 2) rounds (if numeric n1 <? numeric n0 then gte else lte) (numeric n0) (numeric n1)
      (if numeric n1 <? numeric n0 then seq_step rest * -1 else seq_step rest)
      (seq_item al (existsb isPadded (n0 :: n1 :: rest)) (Z.max (js_len n0) (js_len n1))) ltac:(lia)) as [H|H]; [|exact H].
    all: unfold seq_expand, seq_rounds in Ex; fold (seq_step rest) in Ex; by rewrite H in Ex.
Qed.

Lemma watched_ends (r1 r2 r3 r4 r5 : jsstr) fuel str isTop : close_brace ∉ r3 -> (count_unit close_brace str < fuel)%nat ->
  expand (escClose (make_escs r1 r2 r3 r4 r5)) watched fuel str isTop <> OutOfFuel.
Proof.
  intros Hr Hf Hx. assert (close_brace ∉ escClose (make_escs r1 r2 r3 r4 r5)) as He.
  { cbn [make_escs escClose]. unfold esc_text. rewrite !not_elem_of_app. split; [|split; [|split; [done|]]];
      (apply (bool_decide_unpack _); vm_compute; exact I). }
  assert (forall body al l, is_sequence body al -> watched (js_split body (js "..")) al = Ret l -> Forall (fun s => closes s = 0%nat) l) as Hp.
  { intros body al l Hs Hw. apply (seq_expand_plain body al l Hs). unfold watched in Hw. by destruct (seq_expand _ al). }
  destruct (expand_ends _ watched He Hp fuel str isTop Hf) as [HF _]. destruct (HF Hx) as (body & al & _ & HO).
  unfold watched in HO. by destruct (seq_expand _ al).
Qed.

(** C28: [expand] terminates on every text, but for loops that cannot end.  Its recursion is no
    deeper than the number of closing braces (unbalanced texts and re-expanded members
    included).  [watched] throws where the loop of a sequence would never end: if the watched
    run returns, [expand] returns the same with any fuel that is not less; if it throws,
    [expand] never returns, whatever the fuel and the rounds allowed.  A loop never ends exactly where
    the counter comes to a value that the step does not change; with a step that is not zero
    and numbers within 2^53 there is none. *)
Theorem expand_terminates (r1 r2 r3 r4 r5 : jsstr) (fuel : nat) (str : jsstr) (isTop : bool)
    (Hr : close_brace ∉ r3) (Hf : (count_unit close_brace str < fuel)%nat) :
  let e := escClose (make_escs r1 r2 r3 r4 r5) in
  match expand e watched fuel str isTop with
  | Ret l => forall fuel', (fuel <= fuel')%nat -> expand e seq_expand fuel' str isTop = Ret l
  | Throw err => err = stuck_error /\ forall rounds fuel', expand e (seq_rounds rounds) fuel' str isTop = OutOfFuel
  | OutOfFuel => False
  end /\
  forall body al n0 n1 rest, is_sequence body al -> js_split body (js "..") = n0 :: n1 :: rest ->
    (watched (n0 :: n1 :: rest) al = Throw stuck_error <-> stuck_sequence n0 n1 rest) /\
    (0 < seq_step rest -> Z.abs (numeric n0) + seq_step rest <= 2 ^ 53 -> Z.abs (numeric n1) + seq_step rest <= 2 ^ 53 ->
      ~ stuck_sequence n0 n1 rest).
Proof.
  intros e. split.
  - destruct (expand_watched e fuel str isTop) as [E|[E1 Ew]].
    + destruct (expand e watched fuel str isTop) as [l|err|] eqn:Ew.
      * intros fuel' Hf'. destruct (expand_more e seq_expand seq_expand fuel fuel' str isTop Hf') as [H|H]; [by right|congruence|congruence].
      * exfalso. by apply (expand_quiet e seq_expand fuel str isTop) in E; [|apply seq_expand_quiet].
      * by apply (watched_ends r1 r2 r3 r4 r5 fuel str isTop).
    + rewrite Ew. split; [done|]. intros rounds fuel'.
      destruct (expand_more e (seq_rounds rounds) seq_expand fuel' (fuel + fuel') str isTop) as [H|H]; [lia|by apply seq_rounds_sofar|done|].
      rewrite H. destruct (expand_more e watched watched fuel (fuel + fuel') str isTop) as [Hw|Hw]; [lia|by right|congruence|].
      destruct (expand_watched e (fuel + fuel') str isTop) as [E|[E _]]; [|done]. rewrite <- Hw, Ew in E.
      by apply (expand_quiet e seq_expand _ str isTop) in E; [|apply seq_expand_quiet].
  - intros body al n0 n1 rest Hs E. pose proof (sequence_doubles body al) as Hd. pose proof (seq_expand_quiet body al Hs) as Hq. rewrite E in *.
    assert (seq_expand (n0 :: n1 :: rest) al = OutOfFuel <-> stuck_sequence n0 n1 rest) as Hstuck.
    { split; [apply seq_expand_stuck; intros n Hn; by apply Hd|by apply seq_rounds_stuck]. }
    split.
    + rewrite <- Hstuck. unfold watched. destruct (seq_expand _ al) as [l|err|]; [done| |done]. split; [intros [= ->]; by destruct (Hq stuck_error)|done].
    + intros Hk Hx Hy Hst. apply Hstuck in Hst. by rewrite seq_expand_spec in Hst.
Qed.

(** The watched run of a sequence with a step of two returns, and so does the run; with a
    step of zero it throws, and the run never returns. *)
Lemma expand_terminates_witness :
  expand (escClose (make_escs [] [] (js "0.5") [] [])) seq_expand 9 (js "{1..5..2}") false = Ret (map js ["1"; "3"; "5"]%string) /\
  forall rounds fuel', expand (escClose (make_escs [] [] (js "0.5") [] [])) (seq_rounds rounds) fuel' (js "{1..2..0}") false = OutOfFuel.
Proof.
  assert (forall str, str = js "{1..5..2}" \/ str = js "{1..2..0}" -> (count_unit close_brace str < 2)%nat) as Hc by (intros str [-> | ->]; vm_compute; lia).
  assert (close_brace ∉ js "0.5") as Hr by (apply (bool_decide_unpack _); vm_compute; exact I).
  pose proof (expand_terminates [] [] (js "0.5") [] [] 2 (js "{1..5..2}") false Hr (Hc _ (or_introl eq_refl))) as [H1 _].
  pose proof (expand_terminates [] [] (js "0.5") [] [] 2 (js "{1..2..0}") false Hr (Hc _ (or_intror eq_refl))) as [H2 _].
  revert H1 H2. cbv zeta.
  replace (expand (escClose (make_escs [] [] (js "0.5") [] [])) watched 2 (js "{1..5..2}") false) with (@Ret (list jsstr) (map js ["1"; "3"; "5"]%string)) by (vm_compute; reflexivity).
  replace (expand (escClose (make_escs [] [] (js "0.5") [] [])) watched 2 (js "{1..2..0}") false) with (@Throw (list jsstr) stuck_error) by (vm_compute; reflexivity).
  intros H1 [_ H2]. split; [apply H1; lia|apply H2].
Defined.
