(* ===== verification/MinimatchParse.v ===== *)
(** * minimatch: the pattern compiler

    [parse] of the minimatch module of lunr/wordcut.js: it reads one path segment
    of a glob and writes the text of a regular expression, which the language then
    compiles ([regex_parse]).  The machine is the one of the source: the pending
    state character, the escape flag, the open bracket with the place where its
    text starts, the stack of open extended-glob lists and the closed negated
    lists whose look-aheads are completed at the end.

    The theorems: escaping a name gives a pattern that stands for that name and
    nothing else, and a segment of literals, [?] and [*] accepts exactly the names
    of its textbook reading, with the rules for names that start with a dot. *)
From stdpp Require Import gmap.
From S2P Require Import Prelude JsString JsRegex.

(** ** Options

    An options object is read through the truth of its fields only. *)
Abbreviation options := (gmap string bool).
Definition opt (o : options) (k : string) : bool := default false (o !! k).

(** ** Results of [parse] *)
Inductive part : Type :=
| GLOBSTAR
| Lit (s : jsstr)
| Re (r : regex) (src glob : option jsstr)
| Bad.

Inductive parsed : Type :=
| PPart (p : part)
| PSub (re : jsstr) (hasMagic : bool).

(** [sp[0]] and [sp[1]]: only an array has these elements, and a missing first
    one is appended to the text as the word undefined. *)
Definition sp_re (sp : parsed) : jsstr :=
  match sp with PSub re _ => re | PPart _ => js "undefined" end.
Definition sp_magic (sp : parsed) : bool :=
  match sp with PSub _ m => m | PPart _ => false end.

(** ** Texts *)
Definition plType_open (t : Z) : jsstr :=
  if t =? chr "!" then js "(?:(?!(?:" else js "(?:".
Definition plType_close (t : Z) : jsstr :=
  if t =? chr "!" then js "))[^/]*?)"
  else if t =? chr "?" then js ")?"
  else if t =? chr "+" then js ")+"
  else if t =? chr "*" then js ")*"
  else js ")".

Definition qmark : jsstr := Eval vm_compute in js "[^/]".
Definition star : jsstr := qmark ++ js "*?".
Definition twoStarDot : jsstr := Eval vm_compute in js "(?:(?!(?:\/|^)(?:\.{1,2})($|\/)).)*?".
Definition twoStarNoDot : jsstr := Eval vm_compute in js "(?:(?!(?:\/|^)\.).)*?".

Definition charSet (s : jsstr) (c : Z) : bool := bool_decide (c ∈ s).
Definition special_units : jsstr := Eval vm_compute in js "().*{}+?[]^$\!".
Definition reSpecials : Z -> bool := charSet special_units.

Definition globUnescapeRe : regex := Eval vm_compute in regex_lit "\\(.)".
Definition globUnescape (s : jsstr) : jsstr :=
  replace_global globUnescapeRe (fun m => default [] (cap_get (m_caps m) 1)) s.

Definition regExpEscapeRe : regex := Eval vm_compute in regex_lit "[-[\]{}()*+?.,\\^$|#\s]".
Definition regExpEscape (s : jsstr) : jsstr :=
  replace_global regExpEscapeRe (fun m => js "\" ++ m_text m) s.

(** The bars of an unclosed list: [$1 + $1 + $2 + '|'] with an escape for a bar
    that has none. *)
Definition tailRe : regex := Eval vm_compute in regex_lit "((?:\\{2}){0,64})(\\?)\|".
Definition escape_bars (tail : jsstr) : jsstr :=
  replace_global tailRe (fun m =>
    let g1 := default [] (cap_get (m_caps m) 1) in
    let g2 := default [] (cap_get (m_caps m) 2) in
    g1 ++ g1 ++ (match g2 with [] => js "\" | _ => g2 end) ++ js "|") tail.

Definition cleanRe : regex := Eval vm_compute in regex_lit "\)[+*?]?".
Definition neverRe : regex := Eval vm_compute in regex_lit "$.".

(** ** The machine *)
Record plist : Type := PL { pl_type : Z; pl_reStart : Z; pl_reEnd : option Z }.

Record pstate : Type := PState {
  ps_re : jsstr;
  ps_hasMagic : bool;
  ps_escaping : bool;
  ps_stack : list plist;
  ps_negativeLists : list plist;
  ps_stateChar : option Z;
  ps_inClass : bool;
  ps_reClassStart : Z;
  ps_classStart : Z }.

Definition init_state (nocase : bool) : pstate := PState [] nocase false [] [] None false (-1) (-1).

(** Field updates. *)
Definition set_re (st : pstate) (re : jsstr) : pstate :=
  PState re (ps_hasMagic st) (ps_escaping st) (ps_stack st) (ps_negativeLists st)
    (ps_stateChar st) (ps_inClass st) (ps_reClassStart st) (ps_classStart st).
Definition set_magic (st : pstate) (m : bool) : pstate :=
  PState (ps_re st) m (ps_escaping st) (ps_stack st) (ps_negativeLists st)
    (ps_stateChar st) (ps_inClass st) (ps_reClassStart st) (ps_classStart st).
Definition set_escaping (st : pstate) (e : bool) : pstate :=
  PState (ps_re st) (ps_hasMagic st) e (ps_stack st) (ps_negativeLists st)
    (ps_stateChar st) (ps_inClass st) (ps_reClassStart st) (ps_classStart st).
Definition set_lists (st : pstate) (stack negs : list plist) : pstate :=
  PState (ps_re st) (ps_hasMagic st) (ps_escaping st) stack negs
    (ps_stateChar st) (ps_inClass st) (ps_reClassStart st) (ps_classStart st).
Definition set_stateChar (st : pstate) (c : option Z) : pstate :=
  PState (ps_re st) (ps_hasMagic st) (ps_escaping st) (ps_stack st) (ps_negativeLists st)
    c (ps_inClass st) (ps_reClassStart st) (ps_classStart st).
Definition set_inClass (st : pstate) (b : bool) : pstate :=
  PState (ps_re st) (ps_hasMagic st) (ps_escaping st) (ps_stack st) (ps_negativeLists st)
    (ps_stateChar st) b (ps_reClassStart st) (ps_classStart st).
Definition open_class (st : pstate) (i : Z) : pstate :=
  PState (ps_re st) (ps_hasMagic st) (ps_escaping st) (ps_stack st) (ps_negativeLists st)
    (ps_stateChar st) true (js_len (ps_re st)) i.

(** [re += text] *)
Definition append_re (st : pstate) (text : jsstr) : pstate := set_re st (ps_re st ++ text).

Definition clearStateChar (st : pstate) : pstate :=
  match ps_stateChar st with
  | None => st
  | Some sc =>
      set_stateChar
        (if sc =? chr "*" then set_magic (append_re st star) true
         else if sc =? chr "?" then set_magic (append_re st qmark) true
         else append_re st (js "\" ++ [sc])) None
  end.

(** The labels of the switch. *)
Inductive glob_char : Type :=
| GSlash | GBackslash | GState | GOpenParen | GCloseParen | GBar | GOpenBracket | GCloseBracket | GOther.

Definition state_units : jsstr := Eval vm_compute in js "?*+@!".

Definition switch_label (c : Z) : glob_char :=
  if c =? chr "/" then GSlash
  else if c =? chr "\" then GBackslash
  else if charSet state_units c then GState
  else if c =? chr "(" then GOpenParen
  else if c =? chr ")" then GCloseParen
  else if c =? chr "|" then GBar
  else if c =? chr "[" then GOpenBracket
  else if c =? chr "]" then GCloseBracket
  else GOther.

Definition is_valid_regex (text : jsstr) : bool :=
  match regex_parse text with Some _ => true | None => false end.

(** One round of the loop: [None] is [return false].  [sub] is the recursive call
    [this.parse(cs, SUBPARSE)] on the text of a bracket. *)
Definition end_class (sub : jsstr -> outcome parsed) (pattern : jsstr) (i : Z) (st : pstate)
    : outcome pstate :=
  let cs := js_substring pattern (ps_classStart st + 1) i in
  if is_valid_regex (js "[" ++ cs ++ js "]") then
    Ret (append_re (set_inClass (set_magic st true) false) (js "]"))
  else
    sp ← sub cs;
    Ret (set_inClass
           (set_magic (set_re st (js_substr (ps_re st) 0 (ps_reClassStart st)
                                    ++ js "\[" ++ sp_re sp ++ js "\]"))
              (ps_hasMagic st || sp_magic sp)) false).

Definition close_list (st : pstate) : pstate :=
  let st := set_magic (clearStateChar st) true in
  match ps_stack st with
  | [] => st
  | pl :: stack =>
      let st := append_re st (plType_close (pl_type pl)) in
      let pl := PL (pl_type pl) (pl_reStart pl) (Some (js_len (ps_re st))) in
      set_lists st stack
        (if pl_type pl =? chr "!" then ps_negativeLists st ++ [pl] else ps_negativeLists st)
  end.

Definition parse_char (noext : bool) (sub : jsstr -> outcome parsed) (pattern : jsstr)
    (i c : Z) (st : pstate) : outcome (option pstate) :=
  if ps_escaping st && reSpecials c
  then Ret (Some (set_escaping (append_re st (js "\" ++ [c])) false))
  else match switch_label c with
  | GSlash => Ret None
  | GBackslash => Ret (Some (set_escaping (clearStateChar st) true))
  | GState =>
      if ps_inClass st then
        Ret (Some (append_re st (if (c =? chr "!") && (i =? ps_classStart st + 1) then js "^" else [c])))
      else
        let st := set_stateChar (clearStateChar st) (Some c) in
        Ret (Some (if noext then clearStateChar st else st))
  | GOpenParen =>
      if ps_inClass st then Ret (Some (append_re st (js "("))) else
      match ps_stateChar st with
      | None => Ret (Some (append_re st (js "\(")))
      | Some sc =>
          let pl := PL sc (js_len (ps_re st)) None in
          Ret (Some (set_stateChar
            (append_re (set_lists st (pl :: ps_stack st) (ps_negativeLists st)) (plType_open sc)) None))
      end
  | GCloseParen =>
      if ps_inClass st || bool_decide (ps_stack st = []) then Ret (Some (append_re st (js "\)")))
      else Ret (Some (close_list st))
  | GBar =>
      if ps_inClass st || bool_decide (ps_stack st = []) || ps_escaping st
      then Ret (Some (set_escaping (append_re st (js "\|")) false))
      else Ret (Some (append_re (clearStateChar st) (js "|")))
  | GOpenBracket =>
      let st := clearStateChar st in
      if ps_inClass st then Ret (Some (append_re st (js "\["))) else
      Ret (Some (append_re (open_class st i) (js "[")))
  | GCloseBracket =>
      if (i =? ps_classStart st + 1) || negb (ps_inClass st)
      then Ret (Some (set_escaping (append_re st (js "\]")) false))
      else Some <$> end_class sub pattern i st
  | GOther =>
      let st := clearStateChar st in
      let esc := reSpecials c && negb ((c =? chr "^") && ps_inClass st) in
      Ret (Some (set_escaping
        (append_re st (if negb (ps_escaping st) && esc then js "\" ++ [c] else [c])) false))
  end.

Fixpoint parse_chars (noext : bool) (sub : jsstr -> outcome parsed) (pattern : jsstr)
    (rest : jsstr) (i : Z) (st : pstate) : outcome (option pstate) :=
  match rest with
  | [] => Ret (Some st)
  | c :: rest =>
      r ← parse_char noext sub pattern i c st;
      match r with
      | None => Ret None
      | Some st => parse_chars noext sub pattern rest (i + 1) st
      end
  end.

(** The bracket left open, as in [[abc]. *)
Definition open_bracket (sub : jsstr -> outcome parsed) (pattern : jsstr) (st : pstate)
    : outcome pstate :=
  if ps_inClass st then
    let cs := js_slice_from pattern (ps_classStart st + 1) in
    sp ← sub cs;
    Ret (set_magic (set_re st (js_substr (ps_re st) 0 (ps_reClassStart st) ++ js "\[" ++ sp_re sp))
           (ps_hasMagic st || sp_magic sp))
  else Ret st.

(** The extended-glob lists left open, the innermost first. *)
Definition open_list (st : pstate) (pl : plist) : pstate :=
  let tail := escape_bars (js_slice_from (ps_re st) (pl_reStart pl + js_len (plType_open (pl_type pl)))) in
  let t := if pl_type pl =? chr "*" then star
           else if pl_type pl =? chr "?" then qmark
           else js "\" ++ [pl_type pl] in
  set_re (set_magic st true) (js_slice (ps_re st) 0 (pl_reStart pl) ++ t ++ js "\(" ++ tail).

Definition open_lists (st : pstate) : pstate :=
  set_lists (foldl open_list st (ps_stack st)) [] (ps_negativeLists st).

(** The look-ahead of a negated list goes on to the end of the pattern. *)
Definition complete_negative (isSub : bool) (re : jsstr) (nl : plist) : jsstr :=
  let reEnd := default 0 (pl_reEnd nl) in
  let nlBefore := js_slice re 0 (pl_reStart nl) in
  let nlFirst := js_slice re (pl_reStart nl) (reEnd - 8) in
  let nlAfter := js_slice_from re reEnd in
  let nlLast := js_slice re (reEnd - 8) reEnd ++ nlAfter in
  let openParensBefore := (length (js_split nlBefore (js "(")) - 1)%nat in
  let cleanAfter := Nat.iter openParensBefore (replace_first cleanRe (fun _ => [])) nlAfter in
  let dollar := if bool_decide (cleanAfter = []) && negb isSub then js "$" else [] in
  nlBefore ++ nlFirst ++ cleanAfter ++ dollar ++ nlLast.

Definition text_dot (dot : bool) : jsstr := Eval vm_compute in
  if dot then js "(?!(?:^|\/)\.{1,2}(?:$|\/))" else js "(?!\.)".

Definition patternStart (dot : bool) (pattern : jsstr) : jsstr :=
  if bool_decide (charAt pattern 0 = js ".") then []
  else text_dot dot.

Definition addPatternStart (re : jsstr) : bool :=
  charSet (js ".[(") (default 0 (head re)).

(** Everything after the loop over the characters. *)
Definition finish_re (dot isSub : bool) (pattern : jsstr) (st : pstate) : jsstr :=
  let st := clearStateChar (open_lists st) in
  let re := ps_re st ++ (if ps_escaping st then js "\\" else []) in
  let add := addPatternStart re in
  let re := foldl (complete_negative isSub) re (reverse (ps_negativeLists st)) in
  let re := if negb (bool_decide (re = [])) && ps_hasMagic st then js "(?=.)" ++ re else re in
  if add then patternStart dot pattern ++ re else re.

Definition finish_magic (st : pstate) : bool := ps_hasMagic (clearStateChar (open_lists st)).

(** The whole run over a segment: [None] at a slash. *)
Definition run_machine (noext nocase : bool) (sub : jsstr -> outcome parsed) (pattern : jsstr)
    : outcome (option pstate) :=
  r ← parse_chars noext sub pattern pattern 0 (init_state nocase);
  match r with
  | None => Ret None
  | Some st => Some <$> open_bracket sub pattern st
  end.

Section case.
(** The case mapping that the ignore-case flag of a regular expression uses. *)
Context (canon : Z -> Z).

(** [new RegExp(text, flags)]: a text whose syntax the matcher does not cover is
    outside the model. *)
Definition new_RegExp (nocase : bool) (text : jsstr) : outcome (option regex) :=
  match regex_parse text with
  | None => Ret None
  | Some r => if supported r then Ret (Some (if nocase then fold_case canon r else r)) else OutOfFuel
  end.

Definition finish_parse (o : options) (isSub : bool) (pattern : jsstr) (st : pstate) : outcome parsed :=
  let re := finish_re (opt o "dot") isSub pattern st in
  if isSub then Ret (PSub re (finish_magic st)) else
  if negb (finish_magic st) then Ret (PPart (Lit (globUnescape pattern))) else
  r ← new_RegExp (opt o "nocase") (js "^" ++ re ++ js "$");
  Ret (PPart (match r with Some r => Re r (Some re) (Some pattern) | None => Re neverRe None None end)).

(** The text of a bracket is shorter than the pattern, so [length pattern + 1]
    levels are enough. *)
Fixpoint parse_fuel (fuel : nat) (o : options) (pattern : jsstr) (isSub : bool) : outcome parsed :=
  match fuel with
  | O => OutOfFuel
  | S fuel =>
      if 1024 * 64 <? js_len pattern then Throw (TypeError "pattern is too long") else
      if negb (opt o "noglobstar") && bool_decide (pattern = js "**") then Ret (PPart GLOBSTAR) else
      if bool_decide (pattern = []) then Ret (PPart (Lit [])) else
      r ← run_machine (opt o "noext") (opt o "nocase") (fun cs => parse_fuel fuel o cs true) pattern;
      match r with
      | None => Ret (PPart Bad)
      | Some st => finish_parse o isSub pattern st
      end
  end.

Definition parse (o : options) (pattern : jsstr) : outcome part :=
  r ← parse_fuel (S (length pattern)) o pattern false;
  Ret (match r with PPart p => p | PSub _ _ => Bad end).
End case.

Definition src_of (r : outcome part) : option jsstr :=
  match r with Ret (Re _ src _) => src | Ret (Lit s) => Some s | _ => None end.

(** ** A textbook reading of a segment

    Literals, [?], [*] and bracket expressions of single characters. *)
Inductive wild : Type :=
| WLit (c : Z)
| WOne
| WStar
| WSet (neg : bool) (cs : jsstr).

(** A code unit that stands for itself inside brackets. *)
Definition plain_member (c : Z) : bool :=
  match switch_label c with GOther => negb (reSpecials c) && negb (c =? chr "-") | _ => false end.

Definition wild_ok (w : wild) : Prop :=
  match w with
  | WLit c => c <> chr "/"
  | WSet neg cs => cs <> [] /\ Forall (fun c => plain_member c = true) cs
  | _ => True
  end.

Definition is_wild (w : wild) : bool := match w with WLit _ => false | _ => true end.

(** Literals that are written with a backslash: those that would open a list, a
    class or a wildcard; the others are written as they are. *)
Definition written_raw (c : Z) : bool :=
  match switch_label c with GOther => true | _ => c =? chr "@" end.

(** The glob text of an item. *)
Definition glob_text (w : wild) : jsstr :=
  match w with
  | WLit c => if written_raw c then [c] else js "\" ++ [c]
  | WOne => js "?"
  | WStar => js "*"
  | WSet neg cs => js "[" ++ (if neg then js "!" else []) ++ cs ++ js "]"
  end.
Definition glob (ws : list wild) : jsstr := concat (map glob_text ws).

(** The names an item list stands for. *)
Fixpoint wild_match (ws : list wild) (f : jsstr) : Prop :=
  match ws with
  | [] => f = []
  | WLit c :: ws => exists f', f = c :: f' /\ wild_match ws f'
  | WOne :: ws => exists c f', f = c :: f' /\ wild_match ws f'
  | WStar :: ws => exists p f', f = p ++ f' /\ wild_match ws f'
  | WSet neg cs :: ws =>
      exists c f', f = c :: f' /\ (if neg then c ∉ cs else c ∈ cs) /\ wild_match ws f'
  end.

(** A wildcard at the start does not stand for a leading dot; with the [dot]
    option it stands for all names but the two directory links. *)
Definition visible (dot : bool) (ws : list wild) (f : jsstr) : Prop :=
  match ws with
  | w :: _ => is_wild w = true ->
              if dot then f <> js "." /\ f <> js ".." else head f <> Some (chr ".")
  | [] => True
  end.

(** ** Scanning an item list *)

(** The machine between two items, once the pending character is written out. *)
Definition clean (re : jsstr) (magic : bool) (cls : Z * Z) : pstate :=
  PState re magic false [] [] None false cls.1 cls.2.

Definition re_text (w : wild) : jsstr :=
  match w with
  | WLit c => if reSpecials c || (c =? chr "@") || (c =? chr "|") then js "\" ++ [c] else [c]
  | WOne => qmark
  | WStar => star
  | WSet neg cs => js "[" ++ (if neg then js "^" else []) ++ cs ++ js "]"
  end.
Definition re_of (ws : list wild) : jsstr := concat (map re_text ws).

(** States that are clean up to a pending character. *)
Definition between (re : jsstr) (magic : bool) (st : pstate) : Prop :=
  ps_escaping st = false /\ ps_inClass st = false /\ ps_stack st = [] /\ ps_negativeLists st = [] /\
  exists cls, clearStateChar st = clean re magic cls.

Lemma between_clean re magic cls : between re magic (clean re magic cls).
Proof. repeat split. by exists cls. Qed.

Lemma label_inv c :
  match switch_label c with
  | GSlash => c = chr "/" | GBackslash => c = chr "\" | GState => c ∈ state_units
  | GOpenParen => c = chr "(" | GCloseParen => c = chr ")" | GBar => c = chr "|"
  | GOpenBracket => c = chr "[" | GCloseBracket => c = chr "]"
  | GOther => c ∉ js "/\?*+@!()|[]"
  end.
Proof.
  unfold switch_label, charSet.
  repeat match goal with
  | |- context [if ?b then _ else _] => let E := fresh in destruct b eqn:E; [bool_props; first [done|by apply bool_decide_eq_true in E]|]
  end.
  bool_props. apply bool_decide_eq_false in H1.
  change (js "/\?*+@!()|[]") with ([chr "/"; chr "\"] ++ [chr "?"; chr "*"; chr "+"; chr "@"; chr "!"] ++ [chr "("; chr ")"; chr "|"; chr "["; chr "]"]).
  change state_units with [chr "?"; chr "*"; chr "+"; chr "@"; chr "!"] in *.
  rewrite !elem_of_app, !elem_of_cons, !elem_of_nil. rewrite !elem_of_cons, elem_of_nil in H1. naive_solver.
Qed.

Lemma special_inv c : reSpecials c = true <-> c ∈ special_units.
Proof. apply bool_decide_eq_true. Qed.

Lemma plain_member_inv c : plain_member c = true ->
  switch_label c = GOther /\ reSpecials c = false /\ c <> chr "-" /\ c <> chr "]" /\ c <> chr "\" /\ c <> chr "^" /\ c <> chr "!".
Proof.
  unfold plain_member. destruct (switch_label c) eqn:E; try done. intros H. bool_props.
  split; [done|]. split; [done|]. split; [done|].
  repeat split; intros ->; revert E H; vm_compute; congruence.
Qed.

(** What the parser of regular expressions needs of a member. *)
Definition class_plain (c : Z) : Prop := c <> chr "-" /\ c <> chr "]" /\ c <> chr "\".

Lemma plain_members cs : Forall (fun c => plain_member c = true) cs -> Forall class_plain cs.
Proof. intros H. eapply Forall_impl; [exact H|]. intros c Hc%plain_member_inv. unfold class_plain. tauto. Qed.

(** Reading a bracket expression of plain members back. *)
Lemma parse_class_plain fuel cs rest : Forall class_plain cs -> (length cs < fuel)%nat ->
  parse_class fuel (cs ++ js "]" ++ rest) = Some (map (fun c => CRange c c) cs, rest).
Proof.
  intros Hcs. revert fuel. induction Hcs as [|c cs (_ & H1 & H2) Hcs IH]; intros [|fuel] Hf; cbn in Hf; [lia|done|lia|].
  cbn [parse_class app]. destruct (c =? chr "]") eqn:E; [bool_props; done|].
  unfold class_atom. destruct (c =? chr "\") eqn:E2; [bool_props; done|].
  specialize (IH fuel ltac:(lia)).
  destruct Hcs as [|d cs (H3 & _) Hcs].
  - change ([] ++ js "]" ++ rest) with (chr "]" :: rest) in *.
    destruct rest as [|e rest]; [by rewrite IH|].
    change (chr "]" =? chr "-") with false. cbn [andb]. by rewrite IH.
  - assert (exists e t, cs ++ js "]" ++ rest = e :: t) as (e & t & He) by (destruct cs; cbn; eauto).
    change ((d :: cs) ++ js "]" ++ rest) with (d :: (cs ++ js "]" ++ rest)) in *. rewrite He in *.
    destruct (d =? chr "-") eqn:E3; [bool_props; done|]. cbn [andb]. by rewrite IH.
Qed.

Section scan.
Context (noext : bool) (sub : jsstr -> outcome parsed) (pattern : jsstr).

Lemma scan_members cs rest i re magic rcs ccs : Forall (fun c => plain_member c = true) cs ->
  parse_chars noext sub pattern (cs ++ rest) i (PState re magic false [] [] None true rcs ccs) =
  parse_chars noext sub pattern rest (i + js_len cs) (PState (re ++ cs) magic false [] [] None true rcs ccs).
Proof.
  intros Hcs. revert re i. induction Hcs as [|c cs Hc Hcs IH]; intros re i.
  - by rewrite app_nil_r, Z.add_0_r.
  - destruct (plain_member_inv c Hc) as (H1 & H2 & _). cbn [app parse_chars].
    unfold parse_char. cbn [ps_escaping andb]. rewrite H1, H2. cbn.
    specialize (IH (re ++ [c]) (i + 1)). cbn in IH. unfold append_re, set_re, set_escaping. cbn.
    rewrite IH, <- app_assoc. autorewrite with js. by replace (i + 1 + js_len cs) with (i + (1 + js_len cs)) by lia.
Qed.

End scan.

(** ** Parsing the text the machine wrote *)
(** The syntax tree of an item. *)
Definition re_ast (w : wild) : regex :=
  match w with
  | WLit c => RChar c
  | WOne => RClass true [CRange 47 47]
  | WStar => RRepeat 0 None false 1 1 (RClass true [CRange 47 47])
  | WSet neg cs => RClass neg (map (fun c => CRange c c) cs)
  end.

Lemma term_set fuel neg cs rest : cs <> [] -> Forall (fun c => plain_member c = true) cs -> quant_free rest ->
  parse_term (S fuel) 1 (re_text (WSet neg cs) ++ rest) = Some (re_ast (WSet neg cs), 1%nat, rest).
Proof.
  intros Hne Hcs Hq. destruct cs as [|c cs]; [done|]. clear Hne.
  assert (Hc := Forall_inv Hcs). apply plain_member_inv in Hc as (_ & _ & _ & _ & _ & Hc & _).
  cbn [re_text]. rewrite <- !app_assoc. change (js "[") with [chr "["]. cbn [app].
  assert (forall t, starts_with [chr "^"] (c :: t) = false) as Hs.
  { intros t. cbn [starts_with]. destruct (Z.eqb_spec (chr "^") c); [congruence|done]. }
  set (u := (if neg then js "^" else []) ++ (c :: cs) ++ js "]" ++ rest).
  assert ((if starts_with [chr "^"] u then drop 1 u else u) = (c :: cs) ++ js "]" ++ rest /\
          starts_with [chr "^"] u = neg) as [E1 E2].
  { subst u. destruct neg; [done|]. change ([] ++ (c :: cs) ++ js "]" ++ rest) with (c :: (cs ++ js "]" ++ rest)).
    by rewrite Hs. }
  assert (parse_class (S (length u)) (if starts_with [chr "^"] u then drop 1 u else u)
          = Some (map (fun c => CRange c c) (c :: cs), rest)) as E3.
  { rewrite E1. apply parse_class_plain; [by apply plain_members|]. subst u. rewrite !length_app. cbn [length]. lia. }
  change (parse_term (S fuel) 1 (chr "[" :: u) = Some (re_ast (WSet neg (c :: cs)), 1%nat, rest)).
  rewrite parse_term_bracket, E3, E2. by apply quant_none.
Qed.

Lemma term_item fuel w rest : wild_ok w -> quant_free rest ->
  parse_term (S fuel) 1 (re_text w ++ rest) = Some (re_ast w, 1%nat, rest).
Proof.
  intros Hw Hq. destruct w as [c| | |neg cs].
  - cbn [re_text re_ast]. case_match eqn:E.
    + change (js "\" ++ [c]) with [chr "\"; c]. cbn [app]. rewrite parse_term_escape; [by apply quant_none|].
      assert (c ∈ special_units ++ [chr "@"; chr "|"]) as Hc.
      { apply orb_true_iff in E as [E|E]; [apply orb_true_iff in E as [E|E]|].
        - apply elem_of_app. left. by apply special_inv.
        - bool_props. subst. apply elem_of_app. right. rewrite !elem_of_cons. auto.
        - bool_props. subst. apply elem_of_app. right. rewrite !elem_of_cons. auto. }
      revert Hc. change (special_units ++ _) with (js "().*{}+?[]^$\!@|"). clear.
      intros Hc. assert (Forall (fun c => is_word_char c = false) (js "().*{}+?[]^$\!@|")) as HF
        by (repeat constructor). by eapply Forall_forall in HF.
    + bool_props. cbn [app]. rewrite parse_term_plain; [by apply quant_none|].
      intros Hc. assert (Forall (fun c => reSpecials c = true) (js "^$(*+?{.[\")) as HF by (repeat constructor).
      eapply Forall_forall in HF; [|exact Hc]. congruence.
  - change (re_text WOne ++ rest) with (chr "[" :: js "^/]" ++ rest).
    rewrite parse_term_bracket. destruct rest; exact (quant_none 1 1 (re_ast WOne) _ Hq).
  - change (re_text WStar ++ rest) with (chr "[" :: js "^/]*?" ++ rest).
    rewrite parse_term_bracket. reflexivity.
  - destruct Hw. by apply term_set.
Qed.

(** The heads of the texts of items and of the end of the pattern. *)
Lemma re_text_head w rest : wild_ok w ->
  exists c t, re_text w ++ rest = c :: t /\ not_quant c /\ c <> chr "|" /\ c <> chr ")".
Proof.
  intros Hw. destruct w as [c| | |neg cs]; cbn [re_text]; [|by repeat econstructor..].
  case_match eqn:E; [by repeat econstructor|]. bool_props.
  exists c, rest. split; [done|].
  assert (forall d, reSpecials d = true -> c <> d) as Hd by (intros d Hd ->; congruence).
  unfold not_quant. repeat split; first [done | by apply Hd].
Qed.

Lemma re_of_head ws rest c t : Forall wild_ok ws -> rest = c :: t -> not_quant c ->
  quant_free (re_of ws ++ rest).
Proof.
  intros Hws -> Hc. destruct Hws as [|w ws Hw Hws].
  - destruct Hc as (?&?&?&?). by apply quant_free_cons.
  - unfold re_of. cbn [map concat]. rewrite <- app_assoc.
    destruct (re_text_head w (concat (map re_text ws) ++ c :: t) Hw) as (d & u & -> & (?&?&?&?) & _).
    by apply quant_free_cons.
Qed.

Fixpoint ast_of (ws : list wild) : regex :=
  match ws with
  | [] => RSeq REol REmpty
  | w :: ws => RSeq (re_ast w) (ast_of ws)
  end.

Lemma seq_items fuel ws : Forall wild_ok ws -> (length ws + 3 <= fuel)%nat ->
  parse_seq fuel 1 (re_of ws ++ js "$") = Some (ast_of ws, 1%nat, []).
Proof.
  intros Hws. revert fuel. induction Hws as [|w ws Hw Hws IH]; intros fuel Hf; cbn [length] in Hf.
  - destruct fuel as [|[|[|fuel]]]; [lia..|]. reflexivity.
  - destruct fuel as [|fuel]; [lia|]. unfold re_of. cbn [map concat]. rewrite <- app_assoc. fold (re_of ws).
    destruct (re_text_head w (re_of ws ++ js "$") Hw) as (c & t & E & _ & Hc1 & Hc2).
    rewrite E. cbn [parse_seq ast_of]. rewrite <- E.
    destruct (Z.eqb_spec c (chr "|")); [done|]. destruct (Z.eqb_spec c (chr ")")); [done|]. cbn [orb].
    destruct fuel as [|fuel]; [lia|]. rewrite term_item; [|done|]. 2: { eapply re_of_head; [done|reflexivity|]. repeat split; done. }
    rewrite IH by lia. done.
Qed.

(** ** The prefixes: no empty name, no leading dot *)
Definition dots_re : regex :=
  RSeq (RAlt (RSeq RBol REmpty) (RSeq (RChar 47) REmpty))
    (RSeq (RRepeat 1 (Some 2%nat) true 1 1 (RChar 46))
      (RSeq (RAlt (RSeq REol REmpty) (RSeq (RChar 47) REmpty)) REmpty)).

Definition look_dot (dot : bool) : regex :=
  if dot then
    RLook false dots_re
  else RLook false (RSeq (RChar 46) REmpty).
Definition look_any : regex := RLook true (RSeq (RClass true dot_items) REmpty).

Lemma term_dot fuel dot rest : quant_free rest ->
  parse_term (10 + fuel) 1 (text_dot dot ++ rest) = Some (look_dot dot, 1%nat, rest).
Proof.
  intros Hq. destruct dot; (etransitivity; [|apply (quant_none 1 1 _ rest Hq)]); reflexivity.
Qed.

Lemma term_any fuel rest : quant_free rest ->
  parse_term (6 + fuel) 1 (js "(?=.)" ++ rest) = Some (look_any, 1%nat, rest).
Proof. intros Hq. etransitivity; [|apply (quant_none 1 1 _ rest Hq)]. reflexivity. Qed.

(** The whole pattern. *)
Lemma parse_pattern (add dot : bool) ws : Forall wild_ok ws ->
  regex_parse (js "^" ++ ((if add then text_dot dot else []) ++ js "(?=.)" ++ re_of ws) ++ js "$") =
  Some (RSeq RBol (if add then RSeq (look_dot dot) (RSeq look_any (ast_of ws)) else RSeq look_any (ast_of ws))).
Proof.
  intros Hws. unfold regex_parse.
  assert (length ws <= length (re_of ws))%nat as Hlen.
  { clear - Hws. induction Hws as [|w ws Hw Hws IH]; [done|]. unfold re_of. cbn [map concat length].
    rewrite length_app. fold (re_of ws). destruct (re_text_head w [] Hw) as (c & t & E & _).
    rewrite app_nil_r in E. rewrite E. cbn [length]. lia. }
  assert (chr "^" <> chr "|") as N3 by done. assert (chr "^" <> chr ")") as N4 by done.
  assert (chr "(" <> chr "|") as N1 by done. assert (chr "(" <> chr ")") as N2 by done.
  assert (forall fuel, (length ws + 12 <= fuel)%nat ->
    parse_seq fuel 1 (js "(?=.)" ++ re_of ws ++ js "$") = Some (RSeq look_any (ast_of ws), 1%nat, [])) as H1.
  { intros fuel Hf. replace fuel with (S (6 + (fuel - 7))) by lia.
    assert (exists t, js "(?=.)" ++ re_of ws ++ js "$" = chr "(" :: t) as [t Et] by by eexists.
    assert (parse_term (6 + (fuel - 7)) 1 (chr "(" :: t) = Some (look_any, 1%nat, re_of ws ++ js "$")) as E.
    { rewrite <- Et. apply term_any. eapply re_of_head; [done|reflexivity|repeat split; done]. }
    rewrite Et, (parse_seq_cons _ _ _ _ _ _ _ N1 N2 E), seq_items by (done || lia). done. }
  assert (forall fuel, (length ws + (if add then 24 else 12) <= fuel)%nat ->
    parse_seq fuel 1 ((if add then text_dot dot else []) ++ js "(?=.)" ++ re_of ws ++ js "$") =
    Some (if add then RSeq (look_dot dot) (RSeq look_any (ast_of ws)) else RSeq look_any (ast_of ws), 1%nat, [])) as H2.
  { intros fuel Hf. destruct add; [|apply H1; lia]. replace fuel with (S (10 + (fuel - 11))) by lia.
    assert (exists t, text_dot dot ++ js "(?=.)" ++ re_of ws ++ js "$" = chr "(" :: t) as [t Et]
      by (destruct dot; eexists; vm_compute; reflexivity).
    assert (parse_term (10 + (fuel - 11)) 1 (chr "(" :: t) =
            Some (look_dot dot, 1%nat, js "(?=.)" ++ re_of ws ++ js "$")) as E.
    { rewrite <- Et. apply term_dot. by apply quant_free_cons. }
    rewrite Et, (parse_seq_cons _ _ _ _ _ _ _ N1 N2 E), H1 by lia. done. }
  rewrite <- !app_assoc. set (body := (if add then text_dot dot else []) ++ _) in *.
  assert (length ws + 7 + (if add then 6 else 0) <= length (js "^" ++ body))%nat as Hl.
  { subst body. rewrite !length_app. change (length (js "(?=.)")) with 5%nat.
    change (length (js "^")) with 1%nat. change (length (js "$")) with 1%nat.
    destruct add; [|lia]. assert (6 <= length (text_dot dot))%nat by (destruct dot; vm_compute; lia). lia. }
  clearbody body. remember (3 * length (js "^" ++ body) + 3)%nat as fuel eqn:Ef.
  destruct fuel as [|[|[|fuel]]]; [lia..|].
  assert (parse_term (S fuel) 1 (chr "^" :: body) = Some (RBol, 1%nat, body)) as E by done.
  assert (parse_seq (S (S fuel)) 1 (chr "^" :: body) = Some (RSeq RBol
    (if add then RSeq (look_dot dot) (RSeq look_any (ast_of ws)) else RSeq look_any (ast_of ws)), 1%nat, [])) as E2.
  { rewrite (parse_seq_cons _ _ _ _ _ _ _ N3 N4 E), H2; [done|]. destruct add; lia. }
  change (js "^" ++ body) with (chr "^" :: body). cbn [parse_alt]. by rewrite E2.
Qed.

(** ** What the written pattern accepts *)
Lemma den_items total ws c s c' s' : Forall wild_ok ws -> (47 ∉ s) ->
  den total (ast_of ws) c s c' s' <-> c' = c /\ s' = [] /\ wild_match ws s.
Proof.
  intros Hws. revert s. induction Hws as [|w ws Hw Hws IH]; intros s Hs.
  - cbn. split; [intros (c1 & s1 & (-> & -> & ->) & -> & ->); done|]. intros (-> & -> & ->). eauto 10.
  - cbn [ast_of den]. destruct w as [x| | |neg cs]; cbn [re_ast wild_match].
    + cbn [den]. split.
      * intros (c1 & s1 & (-> & ->) & H). apply IH in H as (-> & -> & H); [eauto 10|]. set_solver.
      * intros (-> & -> & f' & -> & H). exists c, f'. split; [done|]. apply IH; [set_solver|done].
    + cbn [den]. split.
      * intros (c1 & s1 & (-> & y & -> & Hy) & H). apply IH in H as (-> & -> & H); [eauto 10|]. set_solver.
      * intros (-> & -> & y & f' & -> & H). exists c, f'. split; [|apply IH; [set_solver|done]].
        split; [done|]. exists y. split; [done|]. apply class_not. set_solver.
    + cbn [den]. assert (forall c1 s1, rep_rel (den total (RClass true [CRange 47 47])) (cap_reset 1 1) 0 None c s c1 s1 <->
        c1 = c /\ exists p, s = p ++ s1) as Hr.
      { intros c1 s1. rewrite (rep_single _ (fun y => y <> 47)); [|intros ????; cbn [den]; by setoid_rewrite class_not|done].
        split; [naive_solver|]. intros (-> & p & ->). split; [done|]. exists p. split; [done|]. split.
        - apply Forall_forall. intros y Hy ->. set_solver.
        - split; [lia|done]. }
      split.
      * intros (c1 & s1 & (-> & p & ->)%Hr & H). apply IH in H as (-> & -> & H); [eauto 10|]. set_solver.
      * intros (-> & -> & p & f' & -> & H). exists c, f'. split; [apply Hr; eauto|]. apply IH; [set_solver|done].
    + cbn [den]. split.
      * intros (c1 & s1 & (-> & y & -> & Hy%class_members) & H). apply IH in H as (-> & -> & H); [|set_solver].
        split; [done|]. split; [done|]. eauto 10.
      * intros (-> & -> & y & f' & -> & Hy & H). exists c, f'. split; [|apply IH; [set_solver|done]].
        split; [done|]. exists y. split; [done|]. by apply class_members.
Qed.

(** The first code unit of a name is no line terminator. *)
Definition first_ok (f : jsstr) : bool :=
  match f with y :: _ => class_ok true dot_items y | [] => false end.

Lemma den_look_any total c s c' s' : den total look_any c s c' s' <-> c' = c /\ s' = s /\ first_ok s = true.
Proof.
  unfold look_any. cbn [den]. split.
  - intros (-> & s1 & c1 & s2 & (-> & y & -> & Hy) & -> & _). done.
  - intros (-> & -> & H). destruct s as [|y s]; [done|]. split; [done|]. eauto 10.
Qed.

(** At the start of a name without slashes. *)
Lemma den_dots c s : (47 ∉ s) ->
  (exists c1 s1, den (length s) dots_re c s c1 s1) <-> s = js "." \/ s = js "..".
Proof.
  intros Hs.
  cbn [den]. assert (single (den (length s) (RChar 46)) (fun y => y = 46)) as Hd by apply single_char.
  split.
  + intros (c1 & s1 & c2 & s2 & Ha & c3 & s3 & Hr & c4 & s4 & Hb & _).
    assert (c2 = c /\ s2 = s) as [-> ->].
    { destruct Ha as [(c5 & s5 & (-> & -> & _) & -> & ->)|(c5 & s5 & (_ & ->) & _)]; [done|]. set_solver. }
    apply (rep_single _ (fun y => y = 46)) in Hr as (-> & p & -> & Hp & Hl & Hm); [|done|intros ? [= <-]; lia].
    specialize (Hm _ eq_refl).
    assert (s3 = []) as ->.
    { destruct Hb as [(c5 & s5 & (_ & _ & ->) & _)|(c5 & s5 & (_ & ->) & _)]; [done|]. set_solver. }
    rewrite app_nil_r. destruct p as [|x [|y [|z p]]]; cbn in *; [lia| | |lia].
    * left. apply Forall_inv in Hp as ->. done.
    * right. apply Forall_cons in Hp as [-> Hp%Forall_inv]. subst. done.
  + intros Hc. exists c, [], c, s. split; [left; exists c, s; done|].
    exists c, []. split.
    * apply (rep_single _ (fun y => y = 46)); [done|intros ? [= <-]; lia|]. split; [done|]. exists s.
      rewrite app_nil_r. split; [done|].
      destruct Hc as [->| ->]; (split; [apply (bool_decide_unpack _); vm_compute; exact I|]); (split; [apply (bool_decide_unpack _); vm_compute; exact I|]); intros ? [= <-]; apply (bool_decide_unpack _); vm_compute; exact I.
    * exists c, []. split; [left; by exists c, []|done].
Qed.

Lemma den_look_dot (dot : bool) c s c' s' : (47 ∉ s) ->
  den (length s) (look_dot dot) c s c' s' <->
  c' = c /\ s' = s /\ if dot then s <> js "." /\ s <> js ".." else head s <> Some (chr ".").
Proof.
  intros Hs. destruct dot; cbn [look_dot].
  - pose proof (den_dots c s Hs) as He.
    change (den (length s) (RLook false dots_re) c s c' s') with
      (c' = c /\ s' = s /\ forall c1 s1, ~ den (length s) dots_re c s c1 s1).
    split; intros (-> & -> & H); (split; [done|]); (split; [done|]).
    + split; intros Hf; (destruct (proj2 He) as (c1 & s1 & Hd); [tauto|]); by apply (H c1 s1).
    + intros c1 s1 Hd. destruct H as [H1 H2]. destruct (proj1 He); [eauto|done|done].
  - cbn [den]. split.
    + intros (-> & -> & H). split; [done|]. split; [done|]. intros Hh. destruct s as [|y s]; [done|].
      injection Hh as ->. destruct (H c s). exists c, s. done.
    + intros (-> & -> & Hh). split; [done|]. split; [done|]. intros c1 s1 (c2 & s2 & (_ & ->) & _). by apply Hh.
Qed.

(** The test of a bracket's own text succeeds. *)
Lemma valid_class cs : Forall class_plain cs -> head cs <> Some (chr "^") ->
  is_valid_regex (js "[" ++ cs ++ js "]") = true.
Proof.
  intros Hcs Hh. unfold is_valid_regex, regex_parse.
  assert (starts_with [chr "^"] (cs ++ js "]") = false) as Hs.
  { destruct cs as [|c cs]; [done|]. cbn [starts_with app]. destruct (Z.eqb_spec (chr "^") c); [|done].
    subst. by destruct Hh. }
  change (js "[" ++ cs ++ js "]") with (chr "[" :: (cs ++ js "]")).
  remember (3 * length (chr "[" :: (cs ++ js "]")) + 3)%nat as fuel eqn:Ef.
  cbn [length] in Ef. do 4 (destruct fuel as [|fuel]; [lia|]).
  assert (parse_term (S (S fuel)) 1 (chr "[" :: (cs ++ js "]")) =
          Some (RClass false (map (fun c => CRange c c) cs), 1%nat, [])) as E.
  { rewrite parse_term_bracket, Hs. rewrite <- (app_nil_r (js "]")).
    rewrite parse_class_plain; [by apply quant_none|done|]. rewrite length_app. lia. }
  assert (chr "[" <> chr "|") as N1 by done. assert (chr "[" <> chr ")") as N2 by done.
  pose proof (parse_seq_cons _ _ _ _ _ _ _ N1 N2 E) as E2.
  change (parse_seq (S (S fuel)) 1 []) with (Some (REmpty, 1%nat, @nil Z)) in E2.
  cbn [parse_alt]. by rewrite E2.
Qed.

(** ** Scanning items *)
Section scan_items.
Context (noext : bool) (sub : jsstr -> outcome parsed) (pattern : jsstr).
Local Abbreviation chars := (parse_chars noext sub pattern).

Lemma parse_chars_app a b i st :
  chars (a ++ b) i st =
  (r ← chars a i st; match r with None => Ret None | Some st => chars b (i + js_len a) st end).
Proof.
  revert i st. induction a as [|c a IH]; intros i st.
  - cbn. by rewrite Z.add_0_r.
  - cbn [app parse_chars]. destruct (parse_char noext sub pattern i c st) as [[st1|]| |]; [|done..].
    cbn [mbind outcome_bind]. rewrite IH, js_len_cons. by replace (i + (1 + js_len a)) with (i + 1 + js_len a) by lia.
Qed.

(** A state character: it becomes the pending one. *)
Lemma scan_state c i re magic st : between re magic st -> c ∈ state_units -> 
  exists st', chars [c] i st = Ret (Some st') /\
    between (re ++ (if c =? chr "*" then star else if c =? chr "?" then qmark else js "\" ++ [c]))
            (magic || (c =? chr "*") || (c =? chr "?")) st'.
Proof.
  intros (He & Hi & Hs & Hn & cls & Hc) Hl.
  assert (switch_label c = GState) as El.
  { change state_units with [chr "?"; chr "*"; chr "+"; chr "@"; chr "!"] in Hl.
    rewrite !elem_of_cons, elem_of_nil in Hl. destruct Hl as [->|[->|[->|[->|[->|[]]]]]]; done. }
  cbn [parse_chars]. unfold parse_char. rewrite He, El, Hi, Hc. cbn [andb mbind outcome_bind].
  set (st1 := set_stateChar (clean re magic cls) (Some c)).
  assert (clearStateChar st1 = clean (re ++ (if c =? chr "*" then star else if c =? chr "?" then qmark else js "\" ++ [c]))
            (magic || (c =? chr "*") || (c =? chr "?")) cls) as E1.
  { subst st1. unfold clearStateChar. cbn [ps_stateChar set_stateChar clean].
    destruct (c =? chr "*"); [by rewrite orb_true_r|]. destruct (c =? chr "?"); [by rewrite orb_true_r|].
    by rewrite !orb_false_r. }
  destruct noext; eexists; (split; [reflexivity|]).
  - rewrite E1. apply between_clean.
  - repeat split. by exists cls.
Qed.

(** A backslash and the literal it protects. *)
Lemma scan_escaped c i re magic st : between re magic st -> reSpecials c = true \/ c = chr "|" ->
  exists st', chars (js "\" ++ [c]) i st = Ret (Some st') /\ between (re ++ js "\" ++ [c]) magic st'.
Proof.
  intros (He & Hi & Hs & Hn & cls & Hc) Hsp.
  assert (parse_char noext sub pattern i (chr "\") st = Ret (Some (set_escaping (clean re magic cls) true))) as E1.
  { unfold parse_char. rewrite He. cbn [andb]. change (switch_label (chr "\")) with GBackslash. by rewrite Hc. }
  change (js "\" ++ [c]) with [chr "\"; c]. cbn [parse_chars]. rewrite E1. cbn [mbind outcome_bind].
  exists (clean (re ++ [chr "\"; c]) magic cls). split; [|apply between_clean].
  unfold parse_char. cbn [ps_escaping set_escaping andb]. destruct (reSpecials c) eqn:E; [done|].
  destruct Hsp as [?| ->]; [done|]. reflexivity.
Qed.

Lemma written_cases c : c <> chr "/" ->
  if written_raw c then c = chr "@" \/ switch_label c = GOther
  else reSpecials c = true \/ c = chr "|".
Proof.
  intros Hsl. pose proof (label_inv c) as Hl. unfold written_raw.
  destruct (switch_label c) eqn:El; try (destruct (Z.eqb_spec c (chr "@")); [by left|]); subst; auto; try done.
  left. change state_units with [chr "?"; chr "*"; chr "+"; chr "@"; chr "!"] in Hl.
  rewrite !elem_of_cons, elem_of_nil in Hl. destruct Hl as [->|[->|[->|[->|[->|[]]]]]]; done.
Qed.

Lemma scan_lit c i re magic st : between re magic st -> c <> chr "/" ->
  exists st', chars (glob_text (WLit c)) i st = Ret (Some st') /\
    between (re ++ re_text (WLit c)) magic st'.
Proof.
  intros Hb Hsl. pose proof (written_cases c Hsl) as Hw. cbn [glob_text re_text].
  destruct (written_raw c).
  - destruct Hw as [->|El].
    + destruct (scan_state (chr "@") i re magic st Hb) as (st' & E & Hb');
        [apply (bool_decide_unpack _); vm_compute; exact I|].
      exists st'. split; [exact E|]. cbn in Hb'. by rewrite !orb_false_r in Hb'.
    + destruct Hb as (He & Hi & Hs & Hn & cls & Hc). pose proof (label_inv c) as Hl. rewrite El in Hl.
      assert ((c =? chr "@") = false /\ (c =? chr "|") = false) as [-> ->].
      { split; apply Z.eqb_neq; intros ->; done. }
      rewrite !orb_false_r. cbn [parse_chars]. unfold parse_char. rewrite He, El, Hc. cbn [andb negb].
      cbn [ps_inClass clean ps_escaping]. rewrite andb_false_r. cbn [negb andb]. rewrite andb_true_r.
      eexists. split; [reflexivity|]. destruct (reSpecials c); apply (between_clean _ _ cls).
  - assert (reSpecials c || (c =? chr "@") || (c =? chr "|") = true) as ->.
    { destruct Hw as [->| ->]; [done|]. by rewrite Z.eqb_refl, orb_true_r. }
    by apply scan_escaped.
Qed.

(** A bracket that closes a set of members: the set is a valid class. *)
Lemma scan_close (neg : bool) (cs done_ rest re : jsstr) (magic : bool) :
  let bang : jsstr := if neg then js "!" else [] in
  let caret : jsstr := if neg then js "^" else [] in
  let j := js_len done_ + 1 + js_len bang in
  cs <> [] -> Forall (fun c => plain_member c = true) cs -> pattern = done_ ++ glob_text (WSet neg cs) ++ rest ->
  chars (js "]") (j + js_len cs) (PState (re ++ js "[" ++ caret ++ cs) magic false [] [] None true (js_len re) (js_len done_)) =
  Ret (Some (PState (re ++ re_text (WSet neg cs)) true false [] [] None false (js_len re) (js_len done_))).
Proof.
  intros bang caret j Hne Hcs Hp. change (js "]") with [chr "]"]. cbn [parse_chars]. unfold parse_char. cbn [ps_escaping andb].
  change (switch_label (chr "]")) with GCloseBracket. cbn [ps_classStart ps_inClass negb].
  assert (0 < js_len cs) as Hpos by (destruct cs; [done|rewrite js_len_cons; pose proof (js_len_nonneg cs); lia]).
  pose proof (js_len_nonneg bang). pose proof (js_len_nonneg done_).
  destruct (Z.eqb_spec (j + js_len cs) (js_len done_ + 1)) as [?|_]; [lia|]. cbn [orb].
  unfold end_class. cbn [ps_classStart].
  assert (js_substring pattern (js_len done_ + 1) (j + js_len cs) = bang ++ cs) as ->.
  { assert (pattern = (done_ ++ js "[") ++ (bang ++ cs) ++ js "]" ++ rest) as Hp2.
    { rewrite Hp. cbn [glob_text]. fold bang. by rewrite <- !app_assoc. }
    clear Hp. subst pattern. rewrite js_substring_in; [|lia|rewrite !js_len_app;
      change (js_len (js "[")) with 1; pose proof (js_len_nonneg rest); pose proof (js_len_nonneg (js "]")); lia].
    replace (js_len done_ + 1) with (js_len (done_ ++ js "[")) by (rewrite js_len_app; done).
    replace (j + js_len cs) with (js_len (done_ ++ js "[") + js_len (bang ++ cs))
      by (subst j; rewrite !js_len_app; change (js_len (js "[")) with 1; lia).
    apply js_slice_mid. }
  rewrite valid_class.
  2: { apply Forall_app. split; [|by apply plain_members]. subst bang. destruct neg; by repeat constructor. }
  2: { subst bang. destruct neg; [done|]. destruct cs as [|c cs]; [done|].
       apply Forall_inv, plain_member_inv in Hcs as (_&_&_&_&_&Hcs&_). cbn. congruence. }
  cbn [mbind outcome_bind fmap outcome_fmap]. unfold append_re, set_inClass, set_magic, set_re. cbn [ps_re re_text].
  fold caret. by rewrite <- !app_assoc.
Qed.

Lemma scan_set neg cs i done_ rest re magic st : between re magic st ->
  cs <> [] -> Forall (fun c => plain_member c = true) cs ->
  pattern = done_ ++ glob_text (WSet neg cs) ++ rest -> i = js_len done_ ->
  exists st', chars (glob_text (WSet neg cs)) i st = Ret (Some st') /\
    between (re ++ re_text (WSet neg cs)) true st'.
Proof.
  intros (He & Hi & Hs & Hn & cls & Hc) Hne Hcs Hp ->.
  set (bang := if neg then js "!" else []) in *. set (caret := if neg then js "^" else []).
  set (st1 := PState (re ++ js "[") magic false [] [] None true (js_len re) (js_len done_)).
  assert (chars (js "[") (js_len done_) st = Ret (Some st1)) as E1.
  { change (js "[") with [chr "["]. cbn [parse_chars]. unfold parse_char. rewrite He. cbn [andb].
    change (switch_label (chr "[")) with GOpenBracket. by rewrite Hc. }
  set (st2 := PState (re ++ js "[" ++ caret) magic false [] [] None true (js_len re) (js_len done_)).
  assert (chars bang (js_len done_ + 1) st1 = Ret (Some st2)) as E2.
  { subst bang caret st1 st2. destruct neg; [|by rewrite app_nil_r]. change (js "!") with [chr "!"].
    cbn [parse_chars]. unfold parse_char. cbn [ps_escaping andb].
    change (switch_label (chr "!")) with GState. cbn [ps_inClass ps_classStart].
    rewrite !Z.eqb_refl. cbn [andb mbind outcome_bind]. unfold append_re, set_re. cbn. by rewrite <- app_assoc. }
  set (st3 := PState (re ++ js "[" ++ caret ++ cs) magic false [] [] None true (js_len re) (js_len done_)).
  set (j := js_len done_ + 1 + js_len bang).
  assert (chars cs j st2 = Ret (Some st3)) as E3.
  { pose proof (scan_members noext sub pattern cs [] j (re ++ js "[" ++ caret) magic (js_len re) (js_len done_) Hcs) as E.
    rewrite app_nil_r in E. subst st2 st3. rewrite E. cbn [parse_chars]. by rewrite <- !app_assoc. }
  assert (chars (js "]") (j + js_len cs) st3 =
          Ret (Some (PState (re ++ re_text (WSet neg cs)) true false [] [] None false (js_len re) (js_len done_)))) as E4.
  { by apply scan_close with (rest := rest). }
  eexists. split.
  - cbn [glob_text]. fold bang. rewrite parse_chars_app, E1. cbn [mbind outcome_bind].
    change (js_len (js "[")) with 1. rewrite parse_chars_app, E2. cbn [mbind outcome_bind]. fold j. rewrite parse_chars_app, E3.
    cbn [mbind outcome_bind]. rewrite E4. reflexivity.
  - apply (between_clean _ _ (js_len re, js_len done_)).
Qed.

Lemma scan_items ws done_ rest re magic st : Forall wild_ok ws -> between re magic st ->
  pattern = done_ ++ glob ws ++ rest ->
  exists st', chars (glob ws) (js_len done_) st = Ret (Some st') /\
    between (re ++ re_of ws) (magic || existsb is_wild ws) st'.
Proof.
  intros Hws. revert done_ re magic st. induction Hws as [|w ws Hw Hws IH]; intros done_ re magic st Hb Hp.
  - exists st. split; [done|]. unfold re_of. cbn. by rewrite app_nil_r, orb_false_r.
  - unfold glob, re_of in *. cbn [map concat existsb] in *. rewrite <- app_assoc in Hp.
    assert (exists st1, chars (glob_text w) (js_len done_) st = Ret (Some st1) /\
              between (re ++ re_text w) (magic || is_wild w) st1) as (st1 & E1 & Hb1).
    { destruct w as [c| | |neg cs]; cbn [is_wild]; rewrite ?orb_true_r, ?orb_false_r.
      - by apply scan_lit.
      - destruct (scan_state (chr "?") (js_len done_) re magic st Hb) as (st' & E & Hb');
          [apply (bool_decide_unpack _); vm_compute; exact I|].
        exists st'. split; [exact E|]. cbn in Hb'. by rewrite orb_true_r in Hb'.
      - destruct (scan_state (chr "*") (js_len done_) re magic st Hb) as (st' & E & Hb');
          [apply (bool_decide_unpack _); vm_compute; exact I|].
        exists st'. split; [exact E|]. cbn in Hb'. by rewrite orb_true_r, orb_true_l in Hb'.
      - destruct Hw as [Hne Hcs]. by eapply scan_set. }
    destruct (IH (done_ ++ glob_text w) (re ++ re_text w) (magic || is_wild w) st1 Hb1) as (st2 & E2 & Hb2).
    { by rewrite <- app_assoc. }
    exists st2. rewrite parse_chars_app, E1. cbn [mbind outcome_bind]. rewrite js_len_app in E2. split; [exact E2|].
    by rewrite app_assoc, orb_assoc.
Qed.
End scan_items.

(** ** Compiling item lists *)
Lemma open_lists_none st : ps_stack st = [] -> open_lists st = st.
Proof. destruct st. cbn. by intros ->. Qed.

Lemma finish_between dot isSub pattern re magic st : between re magic st -> re <> [] ->
  finish_magic st = magic /\
  finish_re dot isSub pattern st =
  (if addPatternStart re then patternStart dot pattern else []) ++ (if magic then js "(?=.)" else []) ++ re.
Proof.
  intros (He & Hi & Hs & Hn & cls & Hc) Hre.
  assert (clearStateChar (open_lists st) = clean re magic cls) as E.
  { by rewrite open_lists_none. }
  unfold finish_magic, finish_re. rewrite E. cbn [ps_hasMagic ps_re ps_escaping ps_negativeLists clean].
  split; [done|]. rewrite app_nil_r. cbn [reverse foldl rev_append].
  rewrite bool_decide_false by done. cbn [negb andb].
  by destruct (addPatternStart re), magic.
Qed.

Lemma re_of_nonempty ws : Forall wild_ok ws -> ws <> [] -> re_of ws <> [].
Proof.
  intros Hws Hne. destruct Hws as [|w ws Hw Hws]; [done|]. unfold re_of. cbn [map concat].
  destruct (re_text_head w (concat (map re_text ws)) Hw) as (c & t & -> & _). done.
Qed.

Lemma add_start ws w : Forall wild_ok (w :: ws) -> addPatternStart (re_of (w :: ws)) = is_wild w.
Proof.
  intros _. unfold re_of. cbn [map concat]. destruct w as [c| | |neg cs]; [|done..].
  cbn [re_text is_wild]. case_match eqn:E; [done|]. bool_props. unfold addPatternStart, charSet. cbn [app head default].
  apply bool_decide_eq_false. intros Hc.
  assert (Forall (fun c => reSpecials c = true) (js ".[(")) as HF by (repeat constructor).
  eapply Forall_forall in HF; [|exact Hc]. cbn in HF. congruence.
Qed.

Lemma glob_start ws w dot : Forall wild_ok (w :: ws) -> is_wild w = true ->
  patternStart dot (glob (w :: ws)) = text_dot dot.
Proof.
  intros _ Hw. unfold patternStart. rewrite bool_decide_false; [done|].
  unfold charAt, glob. cbn [map concat]. destruct w as [c| | |neg cs]; done.
Qed.

Lemma re_asts_supported ws : supported (ast_of ws) = true.
Proof. induction ws as [|w ws IH]; [done|]. cbn [ast_of supported]. by destruct w. Qed.

Lemma parse_scanned o canon ws : Forall wild_ok ws -> ws <> [] -> let pattern := glob ws in
  opt o "nocase" = false -> js_len pattern <= 65536 ->
  opt o "noglobstar" = true \/ pattern <> js "**" -> pattern <> [] ->
  exists st, between (re_of ws) (existsb is_wild ws) st /\
    parse_fuel canon (S (length pattern)) o pattern false = finish_parse canon o false pattern st.
Proof.
  intros Hws Hne pattern Hc Hl Hg Hp0. cbn [parse_fuel].
  destruct (1024 * 64 <? js_len pattern) eqn:E; [bool_props; lia|].
  assert (negb (opt o "noglobstar") && bool_decide (pattern = js "**") = false) as ->.
  { destruct Hg as [->|Hg]; [done|]. rewrite (bool_decide_false _ Hg). apply andb_false_r. }
  rewrite (bool_decide_false _ Hp0), Hc.
  destruct (scan_items (opt o "noext") (fun cs => parse_fuel canon (length pattern) o cs true) pattern
              ws [] [] [] false (init_state false)) as (st & E1 & Hb); [done| |by rewrite app_nil_r|].
  { apply (between_clean _ _ (-1, -1)). }
  change (js_len (@nil Z)) with 0 in E1. exists st. split; [exact Hb|].
  fold pattern in E1. unfold run_machine. rewrite E1. cbn [mbind outcome_bind]. unfold open_bracket.
  destruct Hb as (_ & -> & _). done.
Qed.

(** Unescaping what [glob] wrote for literals. *)
Lemma unescape_step total c s : c <> chr "\" -> match_at total globUnescapeRe (c :: s) = None.
Proof.
  intros Hc. unfold match_at, globUnescapeRe. cbn [rmatch].
  destruct (Z.eqb_spec 92 c); [|done]. by subst.
Qed.

Lemma unescape_pair total c s : class_ok true dot_items c = true ->
  match_at total globUnescapeRe (chr "\" :: c :: s) = Some ([(1%nat, [c])], s).
Proof.
  intros Hc. unfold match_at, globUnescapeRe. cbn [rmatch]. change (92 =? chr "\") with true. cbn [rmatch].
  unfold dot_items in Hc. rewrite Hc.
  change (consumed (c :: s) s) with (consumed ([c] ++ s) s). by rewrite consumed_app.
Qed.

Lemma unescape_lits total s i : Forall (fun c => c <> chr "/") s ->
  replace_loop total globUnescapeRe (fun m => default [] (cap_get (m_caps m) 1)) 0 (glob (map WLit s)) i = s.
Proof.
  intros Hs. revert i. induction Hs as [|c s Hc Hs IH]; intros i; [done|].
  unfold glob. cbn [map concat glob_text]. fold (glob (map WLit s)). pose proof (written_cases c Hc) as Hw.
  destruct (written_raw c).
  - cbn [app replace_loop]. rewrite unescape_step; [by rewrite IH|]. intros ->. destruct Hw as [?|?]; done.
  - change ((js "\" ++ [c]) ++ glob (map WLit s)) with (chr "\" :: c :: glob (map WLit s)).
    cbn [replace_loop]. rewrite unescape_pair.
    + change (chr "\" :: c :: glob (map WLit s)) with ([chr "\"; c] ++ glob (map WLit s)).
      rewrite consumed_app. cbn. by rewrite IH.
    + assert (Forall (fun c => class_ok true dot_items c = true) (special_units ++ js "|")) as HF by (repeat constructor).
      eapply Forall_forall in HF; [exact HF|]. apply elem_of_app.
      destruct Hw as [Hw%special_inv| ->]; [by left|right; apply (bool_decide_unpack _); vm_compute; exact I].
Qed.

Lemma lits_wild s : Forall (fun c => c <> chr "/") s -> Forall wild_ok (map WLit s).
Proof. intros Hs. by apply Forall_map. Qed.

Lemma lits_plain s : existsb is_wild (map WLit s) = false.
Proof. induction s; [done|]. done. Qed.

Lemma glob_nonempty ws : ws <> [] -> glob ws <> [].
Proof.
  destruct ws as [|w ws]; [done|]. intros _. unfold glob. cbn [map concat].
  destruct w as [c| | |neg cs]; try done. cbn [glob_text]. by case_match.
Qed.

Lemma lits_not_star s : Forall (fun c => c <> chr "/") s -> glob (map WLit s) <> js "**".
Proof.
  intros Hs Heq. destruct Hs as [|c s Hc Hs]; [done|]. unfold glob in Heq. cbn [map concat glob_text] in Heq.
  pose proof (written_cases c Hc) as Hw. destruct (written_raw c).
  - injection Heq as -> _. destruct Hw as [?|?]; done.
  - injection Heq as ? _. done.
Qed.

(** A segment the wildcard theorem is about. *)
Record wild_segment (o : options) (ws : list wild) : Prop := Segment {
  seg_ok : Forall wild_ok ws;
  seg_wild : existsb is_wild ws = true;
  seg_case : opt o "nocase" = false;
  seg_star : opt o "noglobstar" = true \/ glob ws <> js "**";
  seg_len : js_len (glob ws) <= 65536 }.

(** The two halves of a compiled segment: its look-aheads and its items. *)
Definition segment_re (dot : bool) (ws : list wild) : regex :=
  match ws with
  | w :: _ => if is_wild w then RSeq (look_dot dot) (RSeq look_any (ast_of ws)) else RSeq look_any (ast_of ws)
  | [] => RSeq look_any (ast_of ws)
  end.

Lemma segment_compiles canon o ws : wild_segment o ws ->
  exists src, parse canon o (glob ws) = Ret (Re (RSeq RBol (segment_re (opt o "dot") ws)) (Some src) (Some (glob ws))).
Proof.
  intros [Hok Hw Hc Hs Hl]. destruct ws as [|w ws]; [done|].
  destruct (parse_scanned o canon (w :: ws) Hok ltac:(done) Hc Hl Hs) as (st & Hb & E); [by apply glob_nonempty|].
  unfold parse. rewrite E. rewrite Hw in Hb.
  destruct (finish_between (opt o "dot") false (glob (w :: ws)) _ _ _ Hb) as [Em Er]; [by apply re_of_nonempty|].
  unfold finish_parse. rewrite Em, Er, add_start by done. cbn [negb]. rewrite Hc. unfold new_RegExp.
  assert ((if is_wild w then patternStart (opt o "dot") (glob (w :: ws)) else []) =
          (if is_wild w then text_dot (opt o "dot") else [])) as ->.
  { destruct (is_wild w) eqn:Ew; [by apply glob_start|done]. }
  rewrite parse_pattern by done. cbn [segment_re].
  assert (forall r, supported (RSeq RBol (if is_wild w then RSeq (look_dot (opt o "dot")) r else r)) = supported r) as Hsup.
  { intros r. by destruct (is_wild w), (opt o "dot"). }
  rewrite Hsup. change (supported (RSeq look_any (ast_of (w :: ws)))) with (supported (ast_of (w :: ws))).
  rewrite re_asts_supported. eexists. reflexivity.
Qed.

Lemma segment_re_test dot ws f : Forall wild_ok ws -> (47 ∉ f) ->
  regex_test (RSeq RBol (segment_re dot ws)) f = true <->
  wild_match ws f /\ first_ok f = true /\ visible dot ws f.
Proof.
  intros Hok Hf. rewrite test_anchored.
  assert (forall c c' s', den (length f) (RSeq look_any (ast_of ws)) c f c' s' <->
            c' = c /\ s' = [] /\ first_ok f = true /\ wild_match ws f) as Hb.
  { intros c c' s'. cbn [den]. split.
    - intros (c1 & s1 & H1%den_look_any & H2). destruct H1 as (-> & -> & H1).
      apply den_items in H2; [|done|done]. tauto.
    - intros (-> & -> & H1 & H2). exists c, f. rewrite den_look_any, den_items by done. done. }
  destruct ws as [|w ws]; cbn [segment_re visible].
  - setoid_rewrite Hb. naive_solver.
  - destruct (is_wild w).
    + split.
      * intros (c' & s' & c1 & s1 & H1 & H2). apply den_look_dot in H1 as (-> & -> & H1); [|done].
        apply Hb in H2 as (_ & _ & H2 & H3). auto.
      * intros (H1 & H2 & H3). exists [], [], [], f. rewrite den_look_dot by done. rewrite Hb. specialize (H3 eq_refl). auto 10.
    + setoid_rewrite Hb. naive_solver.
Qed.

(** ** The recursion on bracket texts ends *)

(** An open bracket starts before the current position. *)
Definition class_before (i : Z) (st : pstate) : Prop := ps_inClass st = true -> 0 <= ps_classStart st < i.

Lemma class_clear st : ps_inClass (clearStateChar st) = ps_inClass st /\ ps_classStart (clearStateChar st) = ps_classStart st.
Proof. unfold clearStateChar. destruct (ps_stateChar st); [|done]. by repeat case_match. Qed.

Lemma substring_length s a b : 0 <= a -> a <= b -> b <= js_len s ->
  (length (js_substring s a b) <= length s - Z.to_nat a)%nat.
Proof.
  intros Ha Hb Hl. rewrite js_substring_in by lia. rewrite js_slice_in by lia.
  rewrite length_take, length_drop. lia.
Qed.

Section ends.
Context (noext : bool) (sub : jsstr -> outcome parsed) (pattern : jsstr).
Hypothesis sub_returns : forall cs, (length cs < length pattern)%nat -> returns (sub cs).

Lemma end_class_returns i st : class_before i st -> ps_inClass st = true -> i < js_len pattern ->
  exists st', end_class sub pattern i st = Ret st' /\ class_before (i + 1) st'.
Proof.
  intros Hb Hi Hl. specialize (Hb Hi). unfold end_class. case_match; [by eexists|].
  destruct (sub_returns (js_substring pattern (ps_classStart st + 1) i)) as [sp ->]; [|by eexists].
  pose proof (substring_length pattern (ps_classStart st + 1) i). unfold js_len in *. lia.
Qed.

Lemma parse_char_returns i c st : class_before i st -> 0 <= i < js_len pattern ->
  exists r, parse_char noext sub pattern i c st = Ret r /\
    match r with Some st' => class_before (i + 1) st' | None => True end.
Proof.
  intros Hb Hl. assert (class_before (i + 1) st) as Hb1 by (intros H; specialize (Hb H); lia).
  assert (class_before (i + 1) (clearStateChar st)) as Hb2.
  { unfold class_before. destruct (class_clear st) as [-> ->]. exact Hb1. }
  unfold parse_char. destruct (ps_escaping st && reSpecials c); [by eexists|].
  destruct (switch_label c); try (by eexists).
  - destruct (ps_inClass st); [by eexists|]. eexists; split; [reflexivity|].
    destruct noext; [|exact Hb2]. unfold class_before.
    destruct (class_clear (set_stateChar (clearStateChar st) (Some c))) as [-> ->]. exact Hb2.
  - destruct (ps_inClass st); [by eexists|]. destruct (ps_stateChar st); eexists; by (split; [reflexivity|]).
  - destruct (ps_inClass st || _); [by eexists|]. eexists; split; [reflexivity|].
    unfold close_list. cbn [ps_stack set_magic]. destruct (ps_stack (clearStateChar st)); exact Hb2.
  - destruct (ps_inClass st || _ || _); by eexists.
  - destruct (ps_inClass (clearStateChar st)); [by eexists|]. eexists; split; [reflexivity|].
    intros _. cbn. lia.
  - destruct ((i =? ps_classStart st + 1) || negb (ps_inClass st)) eqn:E; [by eexists|]. bool_props.
    destruct (end_class_returns i st Hb) as (st' & -> & Hb'); [done|lia|]. by eexists.
Qed.

Lemma parse_chars_returns rest i st : class_before i st -> 0 <= i -> i + js_len rest <= js_len pattern ->
  exists r, parse_chars noext sub pattern rest i st = Ret r /\
    match r with Some st' => class_before (i + js_len rest) st' | None => True end.
Proof.
  revert i st. induction rest as [|c rest IH]; intros i st Hb Hi Hl.
  - eexists. split; [reflexivity|]. by rewrite Z.add_0_r.
  - rewrite js_len_cons in Hl. pose proof (js_len_nonneg rest). cbn [parse_chars].
    destruct (parse_char_returns i c st Hb) as (r & -> & Hr); [lia|]. cbn [mbind outcome_bind].
    destruct r as [st'|]; [|by eexists]. destruct (IH (i + 1) st' Hr) as (r & -> & Hr'); [lia|lia|].
    eexists. split; [reflexivity|]. rewrite js_len_cons. by replace (i + (1 + js_len rest)) with (i + 1 + js_len rest) by lia.
Qed.

Lemma open_bracket_returns st : class_before (js_len pattern) st -> returns (open_bracket sub pattern st).
Proof.
  intros Hb. unfold open_bracket. destruct (ps_inClass st) eqn:E; [|by eexists]. specialize (Hb E).
  destruct (sub_returns (js_slice_from pattern (ps_classStart st + 1))) as [sp ->]; [|by eexists].
  pose proof (js_slice_len pattern (ps_classStart st + 1) (js_len pattern)). unfold js_slice_from, js_len in *. lia.
Qed.
End ends.

Lemma init_before nocase : class_before 0 (init_state nocase).
Proof. done. Qed.

Lemma run_machine_returns noext nocase sub pattern :
  (forall cs, (length cs < length pattern)%nat -> returns (sub cs)) ->
  returns (run_machine noext nocase sub pattern).
Proof.
  intros Hsub. unfold run_machine.
  destruct (parse_chars_returns noext sub pattern Hsub pattern 0 (init_state nocase)) as (r & -> & Hr);
    [apply init_before|lia|lia|].
  cbn [mbind outcome_bind]. destruct r as [st|]; [|by eexists].
  destruct (open_bracket_returns sub pattern Hsub st Hr) as [st' ->]. by eexists.
Qed.

Lemma sub_parse_returns canon fuel o pattern : (length pattern < fuel)%nat -> js_len pattern <= 65536 ->
  returns (parse_fuel canon fuel o pattern true).
Proof.
  revert pattern. induction fuel as [|fuel IH]; intros pattern Hf Hl; [lia|].
  cbn [parse_fuel]. destruct (1024 * 64 <? js_len pattern) eqn:E; [bool_props; lia|].
  case_match; [by eexists|]. case_match; [by eexists|].
  destruct (run_machine_returns (opt o "noext") (opt o "nocase") (fun cs => parse_fuel canon fuel o cs true) pattern)
    as [r ->].
  { intros cs Hcs. apply IH; [lia|]. unfold js_len in *. lia. }
  cbn [mbind outcome_bind]. destruct r as [st|]; by eexists.
Qed.

(** Literals compile to themselves. *)
Lemma lits_compile canon o s : Forall (fun c => c <> chr "/") s -> opt o "nocase" = false ->
  js_len (glob (map WLit s)) <= 65536 -> parse canon o (glob (map WLit s)) = Ret (Lit s).
Proof.
  intros Hs Hc Hl.
  destruct (decide (s = [])) as [->|Hne].
  { unfold parse. cbn. by rewrite andb_false_r. }
  assert (map WLit s <> []) as Hne' by (by destruct s).
  destruct (parse_scanned o canon (map WLit s) (lits_wild s Hs) Hne' Hc Hl) as (st & Hb & E).
  { right. by apply lits_not_star. }
  { by apply glob_nonempty. }
  unfold parse. rewrite E. rewrite lits_plain in Hb.
  destruct (finish_between (opt o "dot") false (glob (map WLit s)) _ _ _ Hb) as [Em _].
  { apply re_of_nonempty; [by apply lits_wild|done]. }
  unfold finish_parse. rewrite Em. cbn [negb mbind outcome_bind]. unfold globUnescape, replace_global.
  by rewrite unescape_lits.
Qed.

(** ** The theorems *)

(** An escaped name is a pattern for that name.  Writing a backslash before
    every unit that would open a wildcard, a list or a bracket gives a segment that
    [parse] turns into the name itself, to be compared exactly, whatever the other
    options. *)
Theorem escaped_name_is_literal (canon : Z -> Z) (o : options) (s : jsstr)
    (Hs : Forall (fun c => c <> chr "/") s) (Hc : opt o "nocase" = false)
    (Hl : js_len (glob (map WLit s)) <= 65536) :
  parse canon o (glob (map WLit s)) = Ret (Lit s).
Proof. by apply lits_compile. Qed.

Lemma escaped_name_is_literal_witness :
  parse id ∅ (js "a\*.\[x@]") <> Ret (Lit []) /\ parse id ∅ (js "a\*.\[x@") = Ret (Lit (js "a*.[x@")).
Proof.
  split; [vm_compute; discriminate|].
  apply (escaped_name_is_literal id ∅ (js "a*.[x@")).
  - apply (bool_decide_unpack _). vm_compute. exact I.
  - reflexivity.
  - apply (bool_decide_unpack _). vm_compute. exact I.
Defined.



(** The scan of a segment ends, whatever brackets it nests or leaves open: the
    recursive calls on bracket texts all return and the machine reaches a final
    state or a slash. *)
Theorem parse_machine_ends (canon : Z -> Z) (o : options) (pattern : jsstr)
    (Hl : js_len pattern <= 65536) :
  returns (run_machine (opt o "noext") (opt o "nocase")
             (fun cs => parse_fuel canon (length pattern) o cs true) pattern).
Proof.
  apply run_machine_returns. intros cs Hcs. apply sub_parse_returns; [done|].
  unfold js_len in *. lia.
Qed.

Lemma parse_machine_ends_witness :
  let o : options := ∅ in let pattern := js "*[a[b" in
  js_len pattern <= 65536 /\
  returns (run_machine (opt o "noext") (opt o "nocase")
             (fun cs => parse_fuel id (length pattern) o cs true) pattern).
Proof.
  assert (js_len (js "*[a[b") <= 65536) as Hl by (apply (bool_decide_unpack _); vm_compute; exact I).
  split; [exact Hl|]. exact (parse_machine_ends id ∅ (js "*[a[b") Hl).
Defined.

(** Whether a compiled pattern accepts a name. *)
Definition accepts (p : outcome part) (f : jsstr) : option bool :=
  match p with
  | Ret (Re r _ _) => Some (regex_test r f)
  | Ret (Lit s) => Some (bool_decide (f = s))
  | _ => None
  end.

(** A closing parenthesis, a closing bracket or a bar after a wildcard is written
    in front of it: the pattern for names that end in the unit accepts the names
    that start with it instead. *)
Lemma unit_after_star_swapped :
  accepts (parse id ∅ (js "*)")) (js "a)") = Some false /\
  accepts (parse id ∅ (js "*)")) (js ")a") = Some true /\
  accepts (parse id ∅ (js "*]")) (js "a]") = Some false /\
  accepts (parse id ∅ (js "*]")) (js "]a") = Some true /\
  accepts (parse id ∅ (js "*|")) (js "a|") = Some false /\
  accepts (parse id ∅ (js "*|")) (js "|a") = Some true.
Proof. by vm_compute. Qed.

(** A bracket left open at the end of a pattern with a wildcard: the recursive
    call on the empty text returns a string, whose missing first element is added
    as a word. *)
Lemma open_bracket_undefined :
  accepts (parse id ∅ (js "*[")) (js "a[") = Some false /\
  accepts (parse id ∅ (js "*[")) (js "a[undefined") = Some true.
Proof. by vm_compute. Qed.
