(* ===== verification/Minimatch.v ===== *)
(** * minimatch: pattern objects and path matching

    The minimatch module of lunr/wordcut.js around its segment compiler
    ([MinimatchParse]): the [Minimatch] object and its [make] (comments, negation,
    brace expansion, splitting, compilation), [matchOne] with its globstar loop,
    [match], the list filter, [makeRe] and the wrappers that fix default options.

    [matchOne] is written with the indices and loops of the source and is shown to
    compute a declarative reading of a pattern against a path; [match] is then a
    statement about the words of the pattern. *)
From stdpp Require Import gmap.
From S2P Require Import Prelude JsString JsRegex PathModule BraceExpansion MinimatchParse.

(** ** The object *)
Inductive regexp_cache : Type :=
| RxNull
| RxFalse
| RxRe (r : regex).

Record minimatch_obj : Type := MM {
  mm_options : options;
  mm_set : list (list part);
  mm_pattern : jsstr;
  mm_regexp : regexp_cache;
  mm_negate : bool;
  mm_comment : bool;
  mm_empty : bool;
  mm_globSet : list jsstr;
  mm_globParts : list (list jsstr) }.

(** [ext(a, b)]: the fields of [b], then the fields of [a] over them. *)
Definition ext (a b : options) : options := a ∪ b.

Definition slashSplit : regex := Eval vm_compute in regex_lit "\/+".
Definition hasBracesRe : regex := Eval vm_compute in regex_lit "\{.*\}".

Definition is_bad (p : part) : bool := match p with Bad => true | _ => false end.

(** [path.sep !== '/'] never holds with the path module of the bundle. *)
Definition to_slashes (s : jsstr) : jsstr :=
  if negb (bool_decide (sep = slash)) then js_join slash (js_split s sep) else s.

(** A pattern that is not a string. *)
Definition need_string (pattern : option jsstr) : outcome jsstr :=
  match pattern with
  | Some p => Ret p
  | None => Throw (TypeError "glob pattern string required")
  end.

(** [braceExpand(pattern, options)] with [this] as given by the call. *)
Definition braceExpand (e : esc_texts) (fuel : nat) (this : option minimatch_obj)
    (pattern : option jsstr) (opts : option options) : outcome (list jsstr) :=
  let o := match opts, this with
           | Some o, _ => o
           | None, Some mm => mm_options mm
           | None, None => ∅
           end in
  match (match pattern with Some p => Some p | None => mm_pattern <$> this end) with
  | None => Throw (TypeError "undefined pattern")
  | Some p =>
      if opt o "nobrace" || negb (regex_test hasBracesRe p) then Ret [p] else expandTop e fuel p
  end.

(** The leading exclamation marks. *)
Fixpoint count_bangs (s : jsstr) : nat :=
  match s with
  | c :: r => if c =? chr "!" then S (count_bangs r) else 0%nat
  | [] => 0%nat
  end.

Definition parseNegate (mm : minimatch_obj) : minimatch_obj :=
  if opt (mm_options mm) "nonegate" then mm else
  let negateOffset := count_bangs (mm_pattern mm) in
  let pattern := if (negateOffset =? 0)%nat then mm_pattern mm
                 else js_substr (mm_pattern mm) (Z.of_nat negateOffset) (js_len (mm_pattern mm)) in
  MM (mm_options mm) (mm_set mm) pattern (mm_regexp mm) (Nat.odd negateOffset)
    (mm_comment mm) (mm_empty mm) (mm_globSet mm) (mm_globParts mm).

Definition starts_comment (o : options) (pattern : jsstr) : bool :=
  negb (opt o "nocomment") && bool_decide (charAt pattern 0 = js "#").

Section env.
(** The case mappings of the language, the random escape texts of brace-expansion
    and the step budget of its recursion. *)
Context (canon : Z -> Z) (toLowerCase : jsstr -> jsstr) (e : esc_texts) (fuel : nat).

Definition make (mm : minimatch_obj) : outcome minimatch_obj :=
  let o := mm_options mm in
  if starts_comment o (mm_pattern mm) then
    Ret (MM o (mm_set mm) (mm_pattern mm) (mm_regexp mm) (mm_negate mm) true (mm_empty mm)
           (mm_globSet mm) (mm_globParts mm))
  else if bool_decide (mm_pattern mm = []) then
    Ret (MM o (mm_set mm) (mm_pattern mm) (mm_regexp mm) (mm_negate mm) (mm_comment mm) true
           (mm_globSet mm) (mm_globParts mm))
  else
    let mm := parseNegate mm in
    globSet ← braceExpand e fuel (Some mm) None None;
    let globParts := map (regex_split slashSplit) globSet in
    set ← mapM (mapM (parse canon o)) globParts;
    Ret (MM o (List.filter (fun s => negb (existsb is_bad s)) set) (mm_pattern mm) (mm_regexp mm)
           (mm_negate mm) (mm_comment mm) (mm_empty mm) globSet globParts).

(** [new Minimatch(pattern, options)] *)
Definition Minimatch (pattern : option jsstr) (o : options) : outcome minimatch_obj :=
  p ← need_string pattern;
  make (MM o [] (to_slashes (js_trim p)) RxNull false false false [] []).

(** *** [matchOne] *)

(** A segment [**] may stand for. *)
Definition swallowable (o : options) (f : jsstr) : bool :=
  negb (bool_decide (f = js ".") || bool_decide (f = js "..") ||
        (negb (opt o "dot") && bool_decide (charAt f 0 = js "."))).

(** A part that is no globstar against one segment. *)
Definition part_hit (o : options) (p : part) (f : jsstr) : bool :=
  match p with
  | Lit s => if opt o "nocase" then bool_decide (toLowerCase f = toLowerCase s) else bool_decide (f = s)
  | Re r _ _ => regex_test r f
  | GLOBSTAR | Bad => false
  end.

(** The loop [while (fr < fl)] and what follows it.  [rec] is the recursive call
    on the two slices. *)
Fixpoint match_while (rec : list jsstr -> list part -> outcome bool) (o : options)
    (file : list jsstr) (pattern : list part) (partial : bool) (pr : Z) (rounds : nat) (fr : Z)
    : outcome bool :=
  match rounds with
  | O => OutOfFuel
  | S rounds =>
      let after := Ret (partial && (fr =? js_len file)) in
      if fr <? js_len file then
        swallowee ← js_at file fr;
        hit ← rec (js_slice_from file fr) (js_slice_from pattern pr);
        if (hit : bool) then Ret true
        else if negb (swallowable o swallowee) then after
        else match_while rec o file pattern partial pr rounds (fr + 1)
      else after
  end.

(** The loop [for (fi = 0, pi = 0; ...)] and the three cases after it. *)
Fixpoint match_for (rec : list jsstr -> list part -> outcome bool) (o : options)
    (file : list jsstr) (pattern : list part) (partial : bool) (rounds : nat) (fi pi : Z)
    : outcome bool :=
  match rounds with
  | O => OutOfFuel
  | S rounds =>
      let fl := js_len file in
      let pl := js_len pattern in
      if (fi <? fl) && (pi <? pl) then
        p ← js_at pattern pi;
        f ← js_at file fi;
        match p with
        | Bad => Ret false
        | GLOBSTAR =>
            if pi + 1 =? pl then Ret (forallb (swallowable o) (js_slice_from file fi))
            else match_while rec o file pattern partial (pi + 1) (S (length file)) fi
        | _ => if part_hit o p f then match_for rec o file pattern partial rounds (fi + 1) (pi + 1)
               else Ret false
        end
      else if (fi =? fl) && (pi =? pl) then Ret true
      else if fi =? fl then Ret partial
      else if pi =? pl then
        Ret ((fi =? fl - 1) && bool_decide (js_get file fi = Some []))
      else Throw (PlainError "wtf?")
  end.

(** Each recursive call drops a part of the pattern. *)
Fixpoint matchOne_fuel (depth : nat) (o : options) (file : list jsstr) (pattern : list part)
    (partial : bool) : outcome bool :=
  match depth with
  | O => OutOfFuel
  | S depth =>
      match_for (fun file pattern => matchOne_fuel depth o file pattern partial)
        o file pattern partial (S (length file)) 0 0
  end.

Definition matchOne (o : options) (file : list jsstr) (pattern : list part) (partial : bool) : outcome bool :=
  matchOne_fuel (S (length pattern)) o file pattern partial.

(** *** [match] *)

(** The last segment that is not empty, or the first one. *)
Fixpoint last_nonempty (f : list jsstr) : jsstr :=
  match f with
  | [] => []
  | [x] => x
  | x :: r => match last_nonempty r with [] => x | y => y end
  end.

Fixpoint match_set (o : options) (f : list jsstr) (partial : bool) (set : list (list part)) : outcome bool :=
  match set with
  | [] => Ret false
  | pattern :: set =>
      let file := if opt o "matchBase" && (js_len pattern =? 1) then [last_nonempty f] else f in
      hit ← matchOne o file pattern partial;
      if (hit : bool) then Ret true else match_set o f partial set
  end.

Definition match_ (mm : minimatch_obj) (f : jsstr) (partial : bool) : outcome bool :=
  if mm_comment mm then Ret false else
  if mm_empty mm then Ret (bool_decide (f = [])) else
  if bool_decide (f = js "/") && partial then Ret true else
  let o := mm_options mm in
  hit ← match_set o (regex_split slashSplit (to_slashes f)) partial (mm_set mm);
  Ret (if (hit : bool) then opt o "flipNegate" || negb (mm_negate mm)
       else negb (opt o "flipNegate") && mm_negate mm).

(** [minimatch(p, pattern, options)] *)
Definition minimatch (p : jsstr) (pattern : option jsstr) (o : options) : outcome bool :=
  s ← need_string pattern;
  if starts_comment o s then Ret false else
  if bool_decide (js_trim s = []) then Ret (bool_decide (p = [])) else
  mm ← Minimatch pattern o;
  match_ mm p false.

(** [minimatch.filter(pattern, options)] *)
Definition filter (pattern : option jsstr) (o : options) : jsstr -> outcome bool :=
  fun p => minimatch p pattern o.

(** [list.filter(f)] with a callback that may throw. *)
Fixpoint filterM {A} (f : A -> outcome bool) (l : list A) : outcome (list A) :=
  match l with
  | [] => Ret []
  | x :: l => b ← f x; r ← filterM f l; Ret (if (b : bool) then x :: r else r)
  end.

(** [minimatch.match(list, pattern, options)] *)
Definition match_list (list_ : list jsstr) (pattern : option jsstr) (o : options) : outcome (list jsstr) :=
  mm ← Minimatch pattern o;
  l ← filterM (fun f => match_ mm f false) list_;
  p ← need_string pattern;
  Ret (if opt (mm_options mm) "nonull" && bool_decide (l = []) then l ++ [p] else l).

(** The functions [minimatch.defaults(def)] returns.  The wrapper calls the method
    [minimatch] of the exported function, which has no such method. *)
Record minimatch_api : Type := Api {
  api_call : jsstr -> option jsstr -> options -> outcome bool;
  api_Minimatch : option jsstr -> options -> outcome minimatch_obj }.

Definition defaults (def : options) : minimatch_api :=
  if bool_decide (def = ∅) then Api minimatch Minimatch
  else Api (fun _ _ _ => Throw (TypeError "orig.minimatch is not a function"))
           (fun pattern o => Minimatch pattern (ext def o)).

(** [Minimatch.defaults(def)] *)
Definition Minimatch_defaults (def : options) : option jsstr -> options -> outcome minimatch_obj :=
  if bool_decide (def = ∅) then Minimatch else api_Minimatch (defaults def).

(** *** [makeRe] *)
Definition part_text (twoStar : jsstr) (p : part) : jsstr :=
  match p with
  | GLOBSTAR => twoStar
  | Lit s => regExpEscape s
  | Re _ src _ => default [] src
  | Bad => []
  end.

Definition makeRe (mm : minimatch_obj) : outcome (minimatch_obj * regexp_cache) :=
  match mm_regexp mm with
  | RxNull =>
      let o := mm_options mm in
      let twoStar := if opt o "noglobstar" then star
                     else if opt o "dot" then twoStarDot else twoStarNoDot in
      let re := js_join (js "|") (map (fun pattern =>
                  js_join (js "\/") (map (part_text twoStar) pattern)) (mm_set mm)) in
      let re := js "^(?:" ++ re ++ js ")$" in
      let re := if mm_negate mm then js "^(?!" ++ re ++ js ").*$" else re in
      r ← (if bool_decide (mm_set mm = []) then Ret RxFalse
           else r ← new_RegExp canon (opt o "nocase") re;
                Ret (match r with Some r => RxRe r | None => RxFalse end));
      Ret (MM o (mm_set mm) (mm_pattern mm) r (mm_negate mm) (mm_comment mm) (mm_empty mm)
             (mm_globSet mm) (mm_globParts mm), r)
  | r => Ret (mm, r)
  end.

(** [minimatch.makeRe(pattern, options)] *)
Definition minimatch_makeRe (pattern : option jsstr) (o : options) : outcome regexp_cache :=
  mm ← Minimatch pattern o;
  r ← makeRe mm;
  Ret r.2.
End env.

(** [minimatch.braceExpand(pattern, options)]: a call without [this]. *)
Definition minimatch_braceExpand (e : esc_texts) (fuel : nat) (pattern : option jsstr) (opts : option options)
    : outcome (list jsstr) := braceExpand e fuel None pattern opts.

(** ** What a pattern means

    [globs ps fs]: the segments of a pattern stand for the whole path; a path may
    end in one slash more than the pattern.  The globstar stands for any run of
    segments that are [free] for it, and at the end of a pattern for one segment at
    least. *)
Section globs.
Context {P : Type} (star : P) (hit : P -> jsstr -> Prop) (free : jsstr -> Prop).

Inductive globs : list P -> list jsstr -> Prop :=
| globs_end : globs [] []
| globs_slash : globs [] [[]]
| globs_part p f ps fs : hit p f -> globs ps fs -> globs (p :: ps) (f :: fs)
| globs_last fs : fs <> [] -> Forall free fs -> globs [star] fs
| globs_star ps run fs : ps <> [] -> fs <> [] -> Forall free run ->
    globs ps fs -> globs (star :: ps) (run ++ fs).
End globs.

(** Two kinds of segments that agree on the names of a path. *)
Lemma globs_transfer {P Q} (starP : P) (starQ : Q) (hitP : P -> jsstr -> Prop) (hitQ : Q -> jsstr -> Prop)
    (free ok : jsstr -> Prop) ps qs fs :
  Forall2 (fun p q => (p = starP -> q = starQ) /\ (forall f, ok f -> hitP p f -> hitQ q f)) ps qs ->
  Forall ok fs -> globs starP hitP free ps fs -> globs starQ hitQ free qs fs.
Proof.
  intros HR Hok H. revert qs HR Hok.
  induction H as [| |p f ps fs Hh _ IH|fs Hne HF|ps run fs Hp Hf HF _ IH]; intros qs HR Hok.
  - apply Forall2_nil_inv_l in HR as ->. constructor.
  - apply Forall2_nil_inv_l in HR as ->. constructor.
  - apply Forall2_cons_inv_l in HR as (q & qs' & [_ Hq] & HR & ->). apply Forall_cons in Hok as [Hf Hok].
    constructor; auto.
  - apply Forall2_cons_inv_l in HR as (q & qs' & [Hq _] & HR & ->). apply Forall2_nil_inv_l in HR as ->.
    rewrite (Hq eq_refl). by constructor.
  - apply Forall2_cons_inv_l in HR as (q & qs' & [Hq _] & HR & ->). rewrite (Hq eq_refl).
    apply Forall_app in Hok as [_ Hok]. constructor; [|done|done|by apply IH].
    intros ->. by apply Forall2_nil_inv_r in HR.
Qed.

Section meaning.
Context (toLowerCase : jsstr -> jsstr) (o : options).
Local Abbreviation hit := (part_hit toLowerCase o).

(** A compiled pattern against the segments of a path. *)
Definition part_globs : list part -> list jsstr -> Prop :=
  globs GLOBSTAR (fun p f => hit p f = true) (fun f => swallowable o f = true).

(** The same as a program on the two lists, with the partial mode; [swallow] is
    the run of a globstar in front of [rest]. *)
Fixpoint swallow (partial : bool) (rest : list jsstr -> bool) (fs : list jsstr) : bool :=
  match fs with
  | [] => partial
  | f :: fs1 => rest fs || (swallowable o f && swallow partial rest fs1)
  end.

Fixpoint glob_match (partial : bool) (ps : list part) (fs : list jsstr) : bool :=
  match ps with
  | [] => match fs with [] => true | [f] => bool_decide (f = []) | _ => false end
  | p :: ps =>
      match fs with
      | [] => partial
      | f :: fs1 =>
          match p with
          | GLOBSTAR =>
              match ps with
              | [] => forallb (swallowable o) fs
              | _ => swallow partial (glob_match partial ps) fs
              end
          | _ => hit p f && glob_match partial ps fs1
          end
      end
  end.

(** *** The loops compute it *)
Lemma slice_from_nat {A} (l : list A) (n : nat) : (n <= length l)%nat -> js_slice_from l (Z.of_nat n) = drop n l.
Proof.
  intros Hn. unfold js_slice_from. rewrite js_slice_in by (unfold js_len; lia).
  rewrite Nat2Z.id. apply take_ge. rewrite length_drop. unfold js_len. lia.
Qed.

Lemma drop_lookup_head {A} (l : list A) (n : nat) x r : drop n l = x :: r -> l !! n = Some x.
Proof. intros E. rewrite <- (Nat.add_0_r n), <- lookup_drop, E. done. Qed.

Lemma js_at_nat {A} (l : list A) (n : nat) x r : drop n l = x :: r -> js_at l (Z.of_nat n) = Ret x.
Proof.
  intros E. apply js_at_Some. rewrite js_get_nat. by eapply drop_lookup_head.
Qed.

Lemma drop_cons_next {A} (l : list A) (n : nat) x r : drop n l = x :: r -> drop (S n) l = r /\ (n < length l)%nat.
Proof.
  intros E. split.
  - replace (S n) with (n + 1)%nat by lia. by rewrite <- drop_drop, E.
  - destruct (decide (n < length l)%nat); [done|]. rewrite drop_ge in E by lia. done.
Qed.

Lemma match_while_spec rec file pattern partial (pr : nat) rounds (fr : nat) :
  (forall k, rec (drop k file) (drop pr pattern) = Ret (glob_match partial (drop pr pattern) (drop k file))) ->
  (pr <= length pattern)%nat -> (fr <= length file)%nat -> (length file - fr < rounds)%nat ->
  match_while rec o file pattern partial (Z.of_nat pr) rounds (Z.of_nat fr) =
  Ret (swallow partial (glob_match partial (drop pr pattern)) (drop fr file)).
Proof.
  intros Hrec Hpr. revert fr. induction rounds as [|rounds IH]; intros fr Hfr Hr; [lia|].
  cbn [match_while]. destruct (drop fr file) as [|f fs] eqn:E.
  - assert (fr = length file) as ->.
    { apply (f_equal length) in E. rewrite length_drop in E. cbn in E. lia. }
    unfold js_len. rewrite Z.ltb_irrefl, Z.eqb_refl, andb_true_r. done.
  - destruct (drop_cons_next _ _ _ _ E) as [E1 Hlt].
    destruct (Z.ltb_spec (Z.of_nat fr) (js_len file)) as [_|?]; [|unfold js_len in *; lia].
    rewrite (js_at_nat _ _ _ _ E). cbn [mbind outcome_bind].
    rewrite !slice_from_nat by lia. rewrite Hrec, E. cbn [mbind outcome_bind swallow].
    destruct (glob_match partial (drop pr pattern) (f :: fs)); [done|]. cbn [orb].
    destruct (swallowable o f); cbn [negb andb].
    + replace (Z.of_nat fr + 1) with (Z.of_nat (S fr)) by lia. rewrite IH by lia. by rewrite E1.
    + destruct (Z.eqb_spec (Z.of_nat fr) (js_len file)); [unfold js_len in *; lia|]. by rewrite andb_false_r.
Qed.

Lemma match_for_spec rec file pattern partial rounds (i : nat) :
  (forall (pr k : nat), (0 < pr <= length pattern)%nat ->
    rec (drop k file) (drop pr pattern) = Ret (glob_match partial (drop pr pattern) (drop k file))) ->
  (i <= length file)%nat -> (i <= length pattern)%nat -> (length file - i < rounds)%nat ->
  match_for toLowerCase rec o file pattern partial rounds (Z.of_nat i) (Z.of_nat i) =
  Ret (glob_match partial (drop i pattern) (drop i file)).
Proof.
  intros Hrec. revert i. induction rounds as [|rounds IH]; intros i Hf Hp Hr; [lia|].
  cbn [match_for]. unfold js_len.
  destruct (drop i pattern) as [|p ps] eqn:Ep.
  { assert (i = length pattern) as Hi.
    { apply (f_equal length) in Ep. rewrite length_drop in Ep. cbn in Ep. lia. }
    rewrite <- Hi, Z.ltb_irrefl, andb_false_r, Z.eqb_refl, andb_true_r. cbn [glob_match].
    destruct (drop i file) as [|f fs] eqn:Ef.
    - assert (i = length file) as ->.
      { apply (f_equal length) in Ef. rewrite length_drop in Ef. cbn in Ef. lia. }
      by rewrite Z.eqb_refl.
    - destruct (drop_cons_next _ _ _ _ Ef) as [E1 Hlt].
      destruct (Z.eqb_spec (Z.of_nat i) (Z.of_nat (length file))); [lia|].
      rewrite js_get_nat, (drop_lookup_head _ _ _ _ Ef).
      apply (f_equal length) in E1. rewrite length_drop in E1. f_equal. destruct fs as [|g fs]; cbn in E1.
      + rewrite (proj2 (Z.eqb_eq _ _)) by lia. cbn [andb]. apply bool_decide_ext. naive_solver.
      + rewrite (proj2 (Z.eqb_neq _ _)) by lia. done. }
  destruct (drop_cons_next _ _ _ _ Ep) as [Ep1 Hltp].
  destruct (drop i file) as [|f fs] eqn:Ef.
  { assert (i = length file) as ->.
    { apply (f_equal length) in Ef. rewrite length_drop in Ef. cbn in Ef. lia. }
    rewrite Z.ltb_irrefl, Z.eqb_refl. cbn [andb].
    by destruct (Z.eqb_spec (Z.of_nat (length file)) (Z.of_nat (length pattern))); [lia|]. }
  destruct (drop_cons_next _ _ _ _ Ef) as [Ef1 Hltf].
  rewrite !(proj2 (Z.ltb_lt _ _)) by lia. cbn [andb].
  rewrite (js_at_nat _ _ _ _ Ep), (js_at_nat _ _ _ _ Ef). cbn [mbind outcome_bind].
  assert (Z.of_nat i + 1 = Z.of_nat (S i)) as Hi by lia. rewrite Hi.
  assert (match_for toLowerCase rec o file pattern partial rounds (Z.of_nat (S i)) (Z.of_nat (S i)) =
          Ret (glob_match partial ps fs)) as Hnext.
  { rewrite <- Ep1, <- Ef1. apply IH; lia. }
  destruct p as [|l|r src gl|]; cbn [glob_match].
  - destruct ps as [|p ps].
    + apply (f_equal length) in Ep1. rewrite length_drop in Ep1. cbn in Ep1.
      rewrite (proj2 (Z.eqb_eq _ _)) by lia. by rewrite slice_from_nat, Ef by lia.
    + pose proof (f_equal length Ep1) as Hl. rewrite length_drop in Hl. cbn in Hl.
      rewrite (proj2 (Z.eqb_neq _ _)) by lia. rewrite (match_while_spec rec file pattern partial (S i)); [|auto with lia|lia..].
      by rewrite Ep1, Ef.
  - rewrite Hnext. by destruct (part_hit _ _ _ _).
  - rewrite Hnext. by destruct (part_hit _ _ _ _).
  - done.
Qed.

Lemma matchOne_fuel_spec depth file pattern partial : (length pattern < depth)%nat ->
  matchOne_fuel toLowerCase depth o file pattern partial = Ret (glob_match partial pattern file).
Proof.
  revert file pattern. induction depth as [|depth IH]; intros file pattern Hd; [lia|].
  cbn [matchOne_fuel]. apply (match_for_spec _ file pattern partial _ 0); [|lia..].
  intros pr k Hpr. apply IH. rewrite length_drop. lia.
Qed.

Lemma matchOne_spec file pattern partial :
  matchOne toLowerCase o file pattern partial = Ret (glob_match partial pattern file).
Proof. apply matchOne_fuel_spec. lia. Qed.

(** *** The program decides the relation *)
Lemma swallow_spec (rest : list jsstr -> bool) fs : (rest [] = false) ->
  swallow false rest fs = true <->
  exists run fs', fs = run ++ fs' /\ Forall (fun f => swallowable o f = true) run /\ rest fs' = true.
Proof.
  intros H0. induction fs as [|f fs IH]; cbn [swallow].
  - split; [done|]. intros (run & fs' & E & _ & H). symmetry in E. apply app_nil in E as [-> ->]. congruence.
  - rewrite orb_true_iff, andb_true_iff, IH. split.
    + intros [H|[H1 (run & fs' & -> & H2 & H3)]]; [by exists [], (f :: fs)|].
      exists (f :: run), fs'. split; [done|]. split; [by constructor|done].
    + intros (run & fs' & E & H2 & H3). destruct run as [|g run]; cbn in E; [subst; auto|].
      injection E as <- ->. apply Forall_cons in H2 as [H1 H2]. right. split; [done|]. eauto.
Qed.

Lemma glob_match_globs ps fs : glob_match false ps fs = true <-> part_globs ps fs.
Proof.
  split.
  - revert fs. induction ps as [|p ps IH]; intros fs H; cbn [glob_match] in H.
    + destruct fs as [|f [|g fs]]; [constructor| |done]. apply bool_decide_eq_true in H as ->. constructor.
    + destruct fs as [|f fs]; [done|]. destruct p as [|l|r src gl|]; [|apply andb_true_iff in H as [H1 H2]..|done].
      * destruct ps as [|p ps].
        -- constructor; [done|]. apply Forall_forall. intros x Hx. 
           rewrite forallb_forall in H. apply H. by apply list_elem_of_In.
        -- apply swallow_spec in H as (run & fs' & -> & H1 & H2); [|done].
           constructor; [done| |done|by apply IH]. by intros ->.
      * constructor; [done|by apply IH].
      * constructor; [done|by apply IH].
  - induction 1 as [| |p f ps fs Hh _ IH|fs Hne HF|ps run fs Hp Hf HF _ IH].
    + done.
    + done.
    + cbn [glob_match]. destruct p; try done; by rewrite Hh, IH.
    + destruct fs as [|f fs]; [done|]. cbn [glob_match]. apply forallb_forall. intros x Hx%list_elem_of_In.
      by eapply Forall_forall in HF.
    + destruct ps as [|p ps]; [done|]. cbn [glob_match].
      destruct (run ++ fs) as [|f l] eqn:E; [by apply app_nil in E as [_ ->]|]. rewrite <- E.
      apply swallow_spec; [done|]. eauto 10.
Qed.

(** A run of the partial mode on the beginning of a path the pattern stands for. *)
Lemma swallow_partial (rest : list jsstr -> bool) run fs fs' : fs' `prefix_of` run ++ fs ->
  Forall (fun f => swallowable o f = true) run ->
  (forall fs'', fs'' `prefix_of` fs -> rest fs'' = true) -> swallow true rest fs' = true.
Proof.
  intros [t Ht] HF Hr. revert fs' Ht. induction HF as [|f run Hf HF IH]; intros fs' Ht.
  - destruct fs' as [|g fs']; [done|]. cbn [swallow]. rewrite Hr; [done|]. by exists t.
  - destruct fs' as [|g fs']; [done|]. cbn in Ht. injection Ht as <- Ht. cbn [swallow].
    rewrite Hf, (IH fs' Ht). apply orb_true_r.
Qed.

Lemma globs_partial ps fs fs' : part_globs ps fs -> fs' `prefix_of` fs -> glob_match true ps fs' = true.
Proof.
  intros H. revert fs'. induction H as [| |p f ps fs Hh _ IH|fs Hne HF|ps run fs Hp Hf HF _ IH]; intros fs' [t Ht].
  - symmetry in Ht. by apply app_nil in Ht as [-> _].
  - destruct fs' as [|g fs']; [done|]. injection Ht as <- Ht. symmetry in Ht. apply app_nil in Ht as [-> _].
    done.
  - destruct fs' as [|g fs']; [done|]. injection Ht as <- Ht. cbn [glob_match].
    assert (glob_match true ps fs' = true) as IH' by (apply IH; by exists t).
    destruct p; try done; by rewrite Hh, IH'.
  - destruct fs' as [|g fs']; [done|]. cbn [glob_match]. apply forallb_forall. intros x Hx%list_elem_of_In.
    subst. apply Forall_app in HF as [HF _]. by eapply Forall_forall in HF.
  - destruct ps as [|p ps]; [done|]. destruct fs' as [|g fs']; [done|]. cbn [glob_match].
    apply (swallow_partial _ run fs); [by exists t|done|]. intros fs''. apply IH.
Qed.

(** *** [match] *)

(** The segments [matchOne] sees. *)
Definition file_of (f : jsstr) (ps : list part) : list jsstr :=
  let fs := regex_split slashSplit (to_slashes f) in
  if opt o "matchBase" && (js_len ps =? 1) then [last_nonempty fs] else fs.

Definition hits (f : jsstr) (set : list (list part)) : bool :=
  existsb (fun ps => glob_match false ps (file_of f ps)) set.

Lemma match_set_spec f set :
  match_set toLowerCase o (regex_split slashSplit (to_slashes f)) false set = Ret (hits f set).
Proof.
  induction set as [|ps set IH]; [done|]. cbn [match_set hits existsb]. fold (file_of f ps).
  rewrite matchOne_spec. cbn [mbind outcome_bind]. by destruct (glob_match false ps (file_of f ps)).
Qed.
End meaning.

(** What [match] answers in full mode: it always returns. *)
Definition match_bool (toLowerCase : jsstr -> jsstr) (mm : minimatch_obj) (f : jsstr) : bool :=
  if mm_comment mm then false else if mm_empty mm then bool_decide (f = []) else
  let hit := hits toLowerCase (mm_options mm) f (mm_set mm) in
  if opt (mm_options mm) "flipNegate" then hit else xorb (mm_negate mm) hit.

Lemma match_returns toLowerCase mm f : match_ toLowerCase mm f false = Ret (match_bool toLowerCase mm f).
Proof.
  unfold match_, match_bool. destruct (mm_comment mm); [done|]. destruct (mm_empty mm); [done|].
  rewrite andb_false_r, match_set_spec. cbn [mbind outcome_bind].
  by destruct (hits _ _ f (mm_set mm)), (opt _ "flipNegate"), (mm_negate mm).
Qed.

Lemma filterM_ret {A} (f : A -> outcome bool) g l : (forall x, f x = Ret (g x)) ->
  filterM f l = Ret (List.filter g l).
Proof.
  intros Hf. induction l as [|x l IH]; [done|]. cbn [filterM List.filter]. rewrite Hf, IH. done.
Qed.

(** *** Leading exclamation marks *)
Lemma drop_spaces_app_ne s t : drop_spaces s = s -> s <> [] -> drop_spaces (s ++ t) = s ++ t.
Proof.
  destruct s as [|c s]; [done|]. cbn [drop_spaces app]. destruct (is_space c); [|done].
  intros H. assert (length (drop_spaces s) <= length s)%nat.
  { clear. induction s as [|d s IH]; [done|]. cbn [drop_spaces]. case_match; cbn [length]; lia. }
  apply (f_equal length) in H. cbn in H. lia.
Qed.

Lemma drop_spaces_suffix s : drop_spaces s `suffix_of` s.
Proof.
  induction s as [|c s IH]; [done|]. cbn [drop_spaces]. case_match; [|done].
  etrans; [exact IH|]. by exists [c].
Qed.

Lemma suffix_same_length (s t : jsstr) : s `suffix_of` t -> (length t <= length s)%nat -> s = t.
Proof. intros [k ->] H. rewrite length_app in H. by destruct k; [|cbn in H; lia]. Qed.

Lemma trimmed s : js_trim s = s -> drop_spaces s = s /\ drop_spaces (reverse s) = reverse s.
Proof.
  intros H. unfold js_trim in H.
  pose proof (drop_spaces_suffix s) as H1. pose proof (suffix_length _ _ H1) as L1.
  pose proof (drop_spaces_suffix (reverse (drop_spaces s))) as H2. pose proof (suffix_length _ _ H2) as L2.
  rewrite length_reverse in L2. pose proof (f_equal length H) as L. rewrite length_reverse in L.
  assert (drop_spaces s = s) as E by (apply suffix_same_length; [done|lia]).
  split; [done|]. rewrite E in *. apply suffix_same_length; [done|]. rewrite length_reverse. lia.
Qed.

Lemma trim_bang s : js_trim s = s -> s <> [] -> js_trim (chr "!" :: s) = chr "!" :: s.
Proof.
  intros [_ H]%trimmed Hne. unfold js_trim. change (drop_spaces (chr "!" :: s)) with (chr "!" :: s).
  rewrite reverse_cons, (drop_spaces_app_ne _ _ H); [|by intros E%(f_equal reverse); rewrite reverse_involutive in E].
  by rewrite reverse_app, reverse_involutive.
Qed.

Lemma to_slashes_id s : to_slashes s = s.
Proof. unfold to_slashes. by rewrite bool_decide_true. Qed.

Lemma substr_drop (s : jsstr) (n : nat) : (n <= length s)%nat -> js_substr s (Z.of_nat n) (js_len s) = drop n s.
Proof.
  intros Hn. unfold js_substr, slice_pos. destruct (Z.ltb_spec (Z.of_nat n) 0); [lia|].
  rewrite Z.min_l by (unfold js_len; lia). rewrite Nat2Z.id. apply take_ge. rewrite length_drop. unfold js_len. lia.
Qed.

Lemma count_bangs_le s : (count_bangs s <= length s)%nat.
Proof. induction s as [|c s IH]; cbn; [lia|]. case_match; lia. Qed.

Section objects.
Context (canon : Z -> Z) (toLowerCase : jsstr -> jsstr) (e : esc_texts) (fuel : nat).

(** The object of a pattern that is no comment: the bangs are counted, the rest is
    compiled. *)
Definition compile (o : options) (p : jsstr) : outcome (list jsstr * list (list part)) :=
  globSet ← (if opt o "nobrace" || negb (regex_test hasBracesRe p) then Ret [p] else expandTop e fuel p);
  set ← mapM (mapM (parse canon o)) (map (regex_split slashSplit) globSet);
  Ret (globSet, List.filter (fun s => negb (existsb is_bad s)) set).

Definition object_of (o : options) (p : jsstr) (neg : bool) (c : list jsstr * list (list part)) : minimatch_obj :=
  MM o c.2 p RxNull neg false false c.1 (map (regex_split slashSplit) c.1).

Lemma Minimatch_compiles o p : js_trim p = p -> p <> [] -> starts_comment o p = false ->
  let n := if opt o "nonegate" then 0%nat else count_bangs p in
  Minimatch canon e fuel (Some p) o = (object_of o (drop n p) (Nat.odd n) <$> compile o (drop n p)).
Proof.
  intros Ht Hne Hc n. unfold Minimatch, need_string. cbn [mbind outcome_bind]. rewrite Ht, to_slashes_id.
  unfold make. cbn [mm_options mm_pattern]. rewrite Hc, (bool_decide_false _ Hne).
  set (mm0 := MM o [] p RxNull false false false [] []).
  assert (parseNegate mm0 = MM o [] (drop n p) RxNull (Nat.odd n) false false [] []) as ->.
  { unfold parseNegate. cbn [mm_options mm0 mm_pattern]. subst n. destruct (opt o "nonegate"); [by rewrite drop_0|].
    cbn. f_equal. destruct (Nat.eqb_spec (count_bangs p) 0) as [->|]; [by rewrite drop_0|].
    apply substr_drop, count_bangs_le. }
  unfold braceExpand, compile. cbn [mm_options mm_pattern fmap option_fmap option_map].
  destruct (if opt o "nobrace" || _ then _ else _) as [g| |]; [|done..]. cbn [mbind outcome_bind].
  by destruct (mapM _ _).
Qed.

Lemma minimatch_compiles o p f : js_trim p = p -> p <> [] -> starts_comment o p = false ->
  minimatch canon toLowerCase e fuel f (Some p) o =
  (mm ← Minimatch canon e fuel (Some p) o; Ret (match_bool toLowerCase mm f)).
Proof.
  intros Ht Hne Hc. unfold minimatch, need_string. cbn [mbind outcome_bind]. rewrite Hc, Ht.
  rewrite (bool_decide_false _ Hne). destruct (Minimatch _ _ _ _ _) as [mm| |]; [|done..].
  cbn [mbind outcome_bind]. apply match_returns.
Qed.
End objects.

(** ** Patterns written from segments *)
Inductive seg : Type :=
| Star2
| Seg (ws : list wild).

Definition seg_text (s : seg) : jsstr :=
  match s with Star2 => js "**" | Seg ws => glob ws end.

Definition path_text (ss : list seg) : jsstr := js_join slash (map seg_text ss).

(** A name under a segment; a segment without wildcards stands for itself. *)
Definition seg_accepts (dot : bool) (s : seg) (f : jsstr) : Prop :=
  match s with
  | Star2 => False
  | Seg ws => wild_match ws f /\ (existsb is_wild ws = true -> first_ok f = true /\ visible dot ws f)
  end.

(** What a written path pattern stands for. *)
Definition path_match (o : options) : list seg -> list jsstr -> Prop :=
  globs Star2 (seg_accepts (opt o "dot")) (fun f => swallowable o f = true).

Definition seg_ok (o : options) (s : seg) : Prop :=
  match s with
  | Star2 => opt o "noglobstar" = false
  | Seg ws => ws <> [] /\ Forall wild_ok ws /\ js_len (glob ws) <= 65536 /\
              (opt o "noglobstar" = true \/ glob ws <> js "**")
  end.

Record path_pattern (o : options) (ss : list seg) : Prop := PathPattern {
  pp_some : ss <> [];
  pp_ok : Forall (seg_ok o) ss;
  pp_case : opt o "nocase" = false;
  pp_base : opt o "matchBase" = false;
  pp_brace : opt o "nobrace" = true \/ (chr "{" ∉ path_text ss);
  pp_trim : js_trim (path_text ss) = path_text ss;
  pp_comment : starts_comment o (path_text ss) = false;
  pp_bang : opt o "nonegate" = true \/ head (path_text ss) <> Some (chr "!") }.

(** ** Splitting at slashes *)
Lemma slash_none total x s : x <> chr "/" -> match_at total slashSplit (x :: s) = None.
Proof.
  intros Hx. unfold match_at, slashSplit. cbn [rmatch]. cbn [repeat_match length Nat.add].
  rewrite bool_decide_false by done. cbn [Nat.ltb Nat.leb].
  destruct (Z.eqb_spec 47 x); [by subst|]. done.
Qed.

Lemma slash_one total s : head s <> Some (chr "/") ->
  exists c, match_at total slashSplit (chr "/" :: s) = Some (c, s).
Proof.
  intros Hs. unfold match_at, slashSplit. cbn [rmatch length Nat.add repeat_match].
  rewrite bool_decide_false by done. cbn [Nat.ltb Nat.leb]. change (47 =? chr "/") with true. cbn iota.
  cbn [Nat.eqb andb Nat.sub]. rewrite bool_decide_false by done. cbn [Nat.ltb Nat.leb].
  destruct s as [|y s]; [by eexists|]. destruct (Z.eqb_spec 47 y) as [<-|]; [by destruct Hs|]. by eexists.
Qed.

Lemma slash_some total s : exists c s', match_at total slashSplit (chr "/" :: s) = Some (c, s') /\
  (length s' <= length s)%nat.
Proof.
  assert (exists c' s', den total slashSplit [] (chr "/" :: s) c' s') as (c' & s' & Hd).
  { unfold slashSplit. cbn [den]. exists [], s, [], s. split; [|done].
    apply (rep_single _ (fun y => y = 47) 1); [apply (single_char total)|done|]. split; [done|].
    exists [47]. split; [done|]. split; [by repeat constructor|]. split; [done|done]. }
  destruct (match_at_complete _ _ _ _ _ Hd) as [[c2 s2] E]. exists c2, s2. split; [done|].
  apply match_at_sound in E. unfold slashSplit in E. cbn [den] in E. destruct E as (c3 & s3 & E & -> & ->).
  apply (rep_single _ (fun y => y = 47) 1) in E as (_ & p & E & _ & Hp & _); [|apply (single_char total)|done].
  apply (f_equal length) in E. rewrite length_app in E. cbn in E. lia.
Qed.

(** The pieces hold no slash. *)
Lemma split_slash_free total skip cur s : (chr "/" ∉ cur) ->
  Forall (fun f => chr "/" ∉ f) (split_re_loop total slashSplit skip cur s).
Proof.
  revert skip cur. induction s as [|x s IH]; intros skip cur Hc; cbn [split_re_loop]; [by repeat constructor|].
  destruct skip as [|skip]; [|by apply IH]. destruct (Z.eq_dec x (chr "/")) as [->|Hx].
  - destruct (slash_some total s) as (c & s' & -> & Hl). unfold consumed. rewrite length_take. cbn [length].
    destruct (Nat.eqb_spec ((S (length s) - length s') `min` S (length s)) 0); [lia|].
    constructor; [done|]. apply IH. apply not_elem_of_nil.
  - rewrite slash_none by done. apply IH. rewrite elem_of_app, list_elem_of_singleton. naive_solver.
Qed.

Lemma segments_slash_free f : Forall (fun f => chr "/" ∉ f) (regex_split slashSplit f).
Proof. apply split_slash_free, not_elem_of_nil. Qed.

Lemma split_piece total cur a s : (chr "/" ∉ a) ->
  split_re_loop total slashSplit 0 cur (a ++ s) = split_re_loop total slashSplit 0 (cur ++ a) s.
Proof.
  revert cur. induction a as [|x a IH]; intros cur Ha; [by rewrite app_nil_r|].
  rewrite not_elem_of_cons in Ha. destruct Ha as [Hx Ha]. cbn [app split_re_loop].
  rewrite slash_none by done. rewrite IH by done. by rewrite <- app_assoc.
Qed.

Lemma split_join_slash total l cur : l <> [] -> Forall (fun p => p <> [] /\ (chr "/" ∉ p)) l ->
  split_re_loop total slashSplit 0 cur (js_join slash l) =
  (cur ++ default [] (head l)) :: tail l.
Proof.
  intros Hne Hl. revert cur Hne. induction Hl as [|p l [Hp Hs] Hl IH]; intros cur Hne; [done|].
  cbn [head default tail]. destruct Hl as [|q l [Hq Hqs] Hl].
  - cbn [js_join]. rewrite <- (app_nil_r p) at 1. by rewrite split_piece.
  - rewrite js_join_cons by done. rewrite split_piece by done.
    change slash with [chr "/"]. set (t := js_join [chr "/"] (q :: l)) in *.
    assert (head t <> Some (chr "/")) as Ht.
    { subst t. destruct q as [|y q]; [done|]. destruct l as [|r l]; cbn [js_join app head];
        intros [= ->]; apply Hqs; left. }
    cbn [app split_re_loop]. destruct (slash_one total t Ht) as [c ->].
    change (chr "/" :: t) with ([chr "/"] ++ t). rewrite consumed_app. cbn [length Nat.eqb Nat.sub].
    specialize (IH [] ltac:(done)). change slash with [chr "/"] in IH. fold t in IH. by rewrite IH.
Qed.

Lemma split_path_text l : l <> [] -> Forall (fun p => p <> [] /\ (chr "/" ∉ p)) l ->
  regex_split slashSplit (js_join slash l) = l.
Proof. intros Hne Hl. unfold regex_split. rewrite split_join_slash by done. by destruct l. Qed.

(** ** Compiling segments *)
Lemma special_not_slash c : reSpecials c = true -> c <> chr "/".
Proof. by intros H ->. Qed.

Lemma glob_text_slash_free w : wild_ok w -> chr "/" ∉ glob_text w.
Proof.
  destruct w as [c| | |neg cs]; cbn [wild_ok glob_text].
  - intros Hc. destruct (written_raw c); rewrite ?elem_of_app, list_elem_of_singleton; [congruence|].
    intros [H|H]; [|congruence]. by apply list_elem_of_singleton in H.
  - intros _ H. by apply list_elem_of_singleton in H.
  - intros _ H. by apply list_elem_of_singleton in H.
  - intros [_ Hcs]. rewrite !elem_of_app. intros [H|[H|[H|H]]].
    + by apply list_elem_of_singleton in H.
    + destruct neg; [by apply list_elem_of_singleton in H|by apply elem_of_nil in H].
    + eapply Forall_forall in Hcs; [|exact H]. done.
    + by apply list_elem_of_singleton in H.
Qed.

Lemma glob_slash_free ws : Forall wild_ok ws -> chr "/" ∉ glob ws.
Proof.
  induction 1 as [|w ws Hw _ IH]; [apply not_elem_of_nil|]. unfold glob. cbn [map concat].
  rewrite elem_of_app. intros [H|H]; [by eapply glob_text_slash_free|by apply IH].
Qed.

Lemma no_wild_lits ws : existsb is_wild ws = false -> exists s, ws = map WLit s.
Proof.
  induction ws as [|w ws IH]; cbn [existsb]; intros H; [by exists []|]. bool_props.
  destruct IH as [s ->]; [done|]. destruct w as [c| | |]; try done. by exists (c :: s).
Qed.

Lemma wild_match_lits s f : wild_match (map WLit s) f <-> f = s.
Proof.
  revert f. induction s as [|c s IH]; intros f; cbn [map wild_match]; [done|].
  setoid_rewrite IH. naive_solver.
Qed.

(** The part a segment compiles to. *)
Definition part_of (s : seg) (p : part) : Prop :=
  match s, p with
  | Star2, GLOBSTAR => True
  | Seg ws, Lit s => ws = map WLit s
  | Seg ws, Re _ _ raw => raw = Some (glob ws) /\ existsb is_wild ws = true
  | _, _ => False
  end.

Record compiled (toLowerCase : jsstr -> jsstr) (o : options) (s : seg) (p : part) : Prop := Compiled {
  comp_star : s = Star2 <-> p = GLOBSTAR;
  comp_part : part_of s p;
  comp_hit f : chr "/" ∉ f -> (part_hit toLowerCase o p f = true <-> seg_accepts (opt o "dot") s f) }.

Lemma seg_compiles canon toLowerCase o s : opt o "nocase" = false -> seg_ok o s ->
  exists p, parse canon o (seg_text s) = Ret p /\ is_bad p = false /\ compiled toLowerCase o s p.
Proof.
  intros Hc Hs. destruct s as [|ws]; cbn [seg_ok seg_text seg_accepts] in *.
  - exists GLOBSTAR. split; [|by repeat split]. unfold parse. cbn [parse_fuel]. rewrite Hs. done.
  - destruct Hs as (Hne & Hok & Hl & Hstar). destruct (existsb is_wild ws) eqn:Ew.
    + assert (wild_segment o ws) as Hseg by (by constructor).
      destruct (segment_compiles canon o ws Hseg) as [src E]. eexists. split; [exact E|].
      split; [done|]. split; [done|by split|]. intros f Hf. cbn [part_hit].
      rewrite segment_re_test by done. cbn [seg_accepts]. tauto.
    + destruct (no_wild_lits ws Ew) as [s ->]. exists (Lit s). split.
      { apply lits_compile; [exact (proj1 (Forall_map _ _ _) Hok)|done|done]. }
      split; [done|]. split; [done|done|]. intros f Hf. cbn [part_hit seg_accepts]. rewrite Hc, bool_decide_eq_true, wild_match_lits, Ew.
      split; [by intros ->|by intros [-> _]].
Qed.

Lemma segs_compile canon toLowerCase o ss : opt o "nocase" = false -> Forall (seg_ok o) ss ->
  exists ps, mapM (parse canon o) (map seg_text ss) = Ret ps /\ existsb is_bad ps = false /\
    Forall2 (compiled toLowerCase o) ss ps.
Proof.
  intros Hc. induction 1 as [|s ss Hs Hss (ps & E & Hb & HR)]; [by exists []|].
  destruct (seg_compiles canon toLowerCase o s Hc Hs) as (p & Ep & Hp & Hcp).
  exists (p :: ps). cbn [map mapM]. rewrite Ep. cbn [mbind outcome_bind]. rewrite E.
  split; [done|]. cbn [existsb]. rewrite Hp, Hb. split; [done|]. by constructor.
Qed.

Lemma no_brace s : chr "{" ∉ s -> regex_test hasBracesRe s = false.
Proof.
  intros Hs. apply not_true_iff_false. intros H. apply regex_test_spec in H as (n & c' & s' & Hd).
  unfold hasBracesRe in Hd. cbn [den] in Hd. destruct Hd as (c1 & s1 & [_ E] & _).
  apply Hs. assert (chr "{" ∈ drop n s) as Hi by (rewrite E; left).
  rewrite <- (take_drop n s). apply elem_of_app. by right.
Qed.

Lemma seg_text_piece o s : seg_ok o s -> seg_text s <> [] /\ (chr "/" ∉ seg_text s).
Proof.
  destruct s as [|ws]; cbn [seg_ok seg_text].
  - intros _. split; [done|]. by apply (bool_decide_unpack _).
  - intros (Hne & Hok & _). split; [by apply glob_nonempty|by apply glob_slash_free].
Qed.

Lemma path_compiles canon toLowerCase e fuel o ss : path_pattern o ss ->
  exists ps, compile canon e fuel o (path_text ss) = Ret ([path_text ss], [ps]) /\
    Forall2 (compiled toLowerCase o) ss ps.
Proof.
  intros [Hne Hok Hc _ Hbr _ _ _]. destruct (segs_compile canon toLowerCase o ss Hc Hok) as (ps & E & Hb & HR).
  exists ps. split; [|done]. unfold compile.
  assert (opt o "nobrace" || negb (regex_test hasBracesRe (path_text ss)) = true) as ->.
  { destruct Hbr as [->|Hbr]; [done|]. rewrite (no_brace _ Hbr). apply orb_true_r. }
  assert (regex_split slashSplit (path_text ss) = map seg_text ss) as Es.
  { apply split_path_text; [by destruct ss|]. apply Forall_map. eapply Forall_impl; [exact Hok|].
    intros s. apply seg_text_piece. }
  cbn [mbind outcome_bind map]. rewrite Es. cbn [mapM]. rewrite E.
  cbn [mbind outcome_bind mret outcome_ret List.filter]. by rewrite Hb.
Qed.

Lemma path_globs toLowerCase o ss ps fs : 
  Forall2 (compiled toLowerCase o) ss ps ->
  Forall (fun f => chr "/" ∉ f) fs ->
  part_globs toLowerCase o ps fs <-> path_match o ss fs.
Proof.
  intros HR Hfs. split; apply globs_transfer with (ok := fun f => chr "/" ∉ f); try done.
  - apply Forall2_flip. eapply Forall2_impl; [exact HR|]. intros s p [H1 _ H2]. split; [tauto|]. intros f Hf. by apply H2.
  - eapply Forall2_impl; [exact HR|]. intros s p [H1 _ H2]. split; [tauto|]. intros f Hf. by apply H2.
Qed.

(** The object of a written pattern, and what it answers. *)
Lemma path_text_nonempty o ss : path_pattern o ss -> path_text ss <> [].
Proof.
  intros [Hne Hok _ _ _ _ _ _]. destruct ss as [|s ss]; [done|].
  apply Forall_cons in Hok as [Hs _]. apply seg_text_piece in Hs as [Hs _].
  unfold path_text. cbn [map js_join]. destruct (map seg_text ss); [done|]. by destruct (seg_text s).
Qed.

Lemma path_object canon toLowerCase e fuel o ss : path_pattern o ss ->
  exists ps, Minimatch canon e fuel (Some (path_text ss)) o =
    Ret (object_of o (path_text ss) false ([path_text ss], [ps])) /\ Forall2 (compiled toLowerCase o) ss ps.
Proof.
  intros Hp. destruct (path_compiles canon toLowerCase e fuel o ss Hp) as (ps & E & HR). exists ps. split; [|done].
  pose proof (path_text_nonempty o ss Hp) as Hne'. destruct Hp as [_ _ _ _ _ Ht Hcm Hbang].
  rewrite Minimatch_compiles by done.
  assert ((if opt o "nonegate" then 0%nat else count_bangs (path_text ss)) = 0%nat) as ->.
  { destruct (opt o "nonegate"); [done|]. destruct Hbang as [?|Hbang]; [done|].
    destruct (path_text ss) as [|c t]; [done|]. cbn [count_bangs]. destruct (Z.eqb_spec c (chr "!")) as [->|]; [|done].
    by destruct Hbang. }
  by rewrite drop_0, E.
Qed.

Lemma path_answer canon toLowerCase e fuel o ss f : path_pattern o ss ->
  exists ps, minimatch canon toLowerCase e fuel f (Some (path_text ss)) o =
    Ret (glob_match toLowerCase o false ps (regex_split slashSplit f)) /\
    Minimatch canon e fuel (Some (path_text ss)) o =
    Ret (object_of o (path_text ss) false ([path_text ss], [ps])) /\ Forall2 (compiled toLowerCase o) ss ps.
Proof.
  intros Hp. destruct (path_object canon toLowerCase e fuel o ss Hp) as (ps & E & HR). exists ps.
  pose proof (path_text_nonempty o ss Hp). split; [|done]. destruct Hp as [_ _ _ Hbase _ Ht Hcm _].
  rewrite minimatch_compiles, E by done. cbn [mbind outcome_bind]. f_equal.
  unfold match_bool, object_of. cbn [mm_comment mm_empty mm_options mm_set mm_negate snd].
  unfold hits, file_of. cbn [existsb]. rewrite Hbase, to_slashes_id, orb_false_r. cbn [andb xorb].
  by destruct (opt o "flipNegate").
Qed.

(** ** The theorems *)

(** C26: the index loops of [matchOne] end on every input and decide the
    declarative reading of the pattern: a segment for a segment, a run of free
    segments for a globstar, one trailing slash to spare. *)
Theorem matchOne_exact (toLowerCase : jsstr -> jsstr) (o : options) (file : list jsstr) (pattern : list part) :
  exists b, matchOne toLowerCase o file pattern false = Ret b /\
    (b = true <-> part_globs toLowerCase o pattern file).
Proof.
  eexists. split; [apply matchOne_spec|]. apply glob_match_globs.
Qed.

(** The partial mode never turns away the beginning of a path that the
    pattern stands for, so a traversal that asks it before it descends misses no
    match. *)
Theorem matchOne_partial_keeps (toLowerCase : jsstr -> jsstr) (o : options) (file front : list jsstr)
    (pattern : list part) (Hm : part_globs toLowerCase o pattern file) (Hf : front `prefix_of` file) :
  matchOne toLowerCase o front pattern true = Ret true.
Proof. rewrite matchOne_spec. f_equal. by eapply globs_partial. Qed.

Lemma matchOne_partial_keeps_witness :
  let pattern := [Lit (js "a"); GLOBSTAR; Lit (js "c")] in
  let file := [js "a"; js "x"; js "y"; js "c"] in
  part_globs id ∅ pattern file /\ matchOne id ∅ [js "a"; js "x"] pattern true = Ret true.
Proof.
  intros pattern file. assert (part_globs id ∅ pattern file) as Hm.
  { apply glob_match_globs. vm_compute. reflexivity. }
  split; [exact Hm|]. apply (matchOne_partial_keeps id ∅ file [js "a"; js "x"] pattern Hm).
  exists [js "y"; js "c"]. reflexivity.
Defined.

(** C24: a pattern written from segments, wildcard segments and globstars joined by
    slashes, accepts a path exactly when the segments stand for the pieces of the
    path: trimming, negation, comment and brace handling, splitting, compilation
    and the matching loop compose to the textbook meaning. *)
Theorem path_pattern_exact (canon : Z -> Z) (toLowerCase : jsstr -> jsstr) (e : esc_texts) (fuel : nat)
    (o : options) (ss : list seg) (f : jsstr) (Hp : path_pattern o ss) :
  exists b, minimatch canon toLowerCase e fuel f (Some (path_text ss)) o = Ret b /\
    (b = true <-> path_match o ss (regex_split slashSplit f)).
Proof.
  destruct (path_answer canon toLowerCase e fuel o ss f Hp) as (ps & E & _ & HR). eexists. split; [exact E|].
  rewrite glob_match_globs. apply path_globs; [done|]. apply segments_slash_free.
Qed.

Lemma path_pattern_exact_witness :
  let ss := [Seg (map WLit (js "src")); Star2; Seg ([WStar] ++ map WLit (js ".js"))] in
  let e := make_escs (js "1") (js "2") (js "3") (js "4") (js "5") in
  path_pattern ∅ ss /\ path_text ss = js "src/**/*.js" /\
  exists b, minimatch id id e 10 (js "src/a/b.js") (Some (js "src/**/*.js")) ∅ = Ret b /\
    (b = true <-> path_match ∅ ss [js "src"; js "a"; js "b.js"]).
Proof.
  intros ss e. assert (path_pattern ∅ ss) as Hp.
  { split.
    - discriminate.
    - repeat constructor; try discriminate; try (right; vm_compute; discriminate);
        apply (bool_decide_unpack _); vm_compute; exact I.
    - reflexivity.
    - reflexivity.
    - right. apply (bool_decide_unpack _). vm_compute. exact I.
    - vm_compute. reflexivity.
    - vm_compute. reflexivity.
    - right. vm_compute. discriminate. }
  split; [exact Hp|]. split; [vm_compute; reflexivity|].
  apply (path_pattern_exact id id e 10 ∅ ss (js "src/a/b.js") Hp).
Defined.

(** An exclamation mark in front of a pattern negates its answer for every
    path, errors aside, and stacks: the object compiles the same rest and flips one
    flag. *)
Theorem bang_negates (canon : Z -> Z) (toLowerCase : jsstr -> jsstr) (e : esc_texts) (fuel : nat)
    (o : options) (pat f : jsstr) (Hn : opt o "nonegate" = false) (Hf : opt o "flipNegate" = false)
    (Hc : starts_comment o pat = false) (Ht : js_trim pat = pat) (Hne : pat <> []) :
  minimatch canon toLowerCase e fuel f (Some (chr "!" :: pat)) o =
  (negb <$> minimatch canon toLowerCase e fuel f (Some pat) o).
Proof.
  assert (starts_comment o (chr "!" :: pat) = false) as Hc'.
  { unfold starts_comment. by rewrite andb_false_r. }
  rewrite !minimatch_compiles by (done || by apply trim_bang).
  rewrite !Minimatch_compiles by (done || by apply trim_bang). rewrite Hn.
  change (count_bangs (chr "!" :: pat)) with (S (count_bangs pat)).
  change (drop (S (count_bangs pat)) (chr "!" :: pat)) with (drop (count_bangs pat) pat).
  destruct (compile canon e fuel o (drop (count_bangs pat) pat)) as [c| |]; [|done..].
  cbn [fmap outcome_fmap mbind outcome_bind]. f_equal. unfold match_bool, object_of.
  cbn [mm_comment mm_empty mm_options mm_set mm_negate]. rewrite Hf, Nat.odd_succ, <- Nat.negb_odd.
  by destruct (Nat.odd _), (hits _ _ _ _).
Qed.

Lemma bang_negates_witness :
  let e := make_escs (js "1") (js "2") (js "3") (js "4") (js "5") in
  minimatch id id e 10 (js "b.js") (Some (js "*.js")) ∅ = Ret true /\
  minimatch id id e 10 (js "b.js") (Some (chr "!" :: js "*.js")) ∅ =
    (negb <$> minimatch id id e 10 (js "b.js") (Some (js "*.js")) ∅).
Proof.
  intros e. split; [vm_compute; reflexivity|].
  apply (bang_negates id id e 10 ∅ (js "*.js") (js "b.js")); first [vm_compute; reflexivity|discriminate].
Defined.

(** The list filter keeps the names the object matches, in order, and answers
    the pattern itself when nothing is left and [nonull] is set. *)
Theorem match_list_filters (canon : Z -> Z) (toLowerCase : jsstr -> jsstr) (e : esc_texts) (fuel : nat)
    (o : options) (p : jsstr) (mm : minimatch_obj) (names : list jsstr)
    (Hmm : Minimatch canon e fuel (Some p) o = Ret mm) :
  let l := List.filter (match_bool toLowerCase mm) names in
  match_list canon toLowerCase e fuel names (Some p) o =
  Ret (if opt (mm_options mm) "nonull" && bool_decide (l = []) then [p] else l).
Proof.
  intros l. unfold match_list. rewrite Hmm. cbn [mbind outcome_bind].
  rewrite (filterM_ret _ (match_bool toLowerCase mm)) by (intros x; apply match_returns).
  cbn [mbind outcome_bind need_string]. fold l. f_equal.
  case_bool_decide as El; [rewrite El|]; by destruct (opt (mm_options mm) "nonull").
Qed.

Lemma match_list_filters_witness :
  let e := make_escs (js "1") (js "2") (js "3") (js "4") (js "5") in
  exists mm, Minimatch id e 10 (Some (js "{a,b}?")) ∅ = Ret mm /\
  match_list id id e 10 [js "ax"; js "c"; js "by"] (Some (js "{a,b}?")) ∅ =
  Ret (let l := List.filter (match_bool id mm) [js "ax"; js "c"; js "by"] in
       if opt (mm_options mm) "nonull" && bool_decide (l = []) then [js "{a,b}?"] else l).
Proof.
  intros e. eexists. split; [vm_compute; reflexivity|].
  apply (match_list_filters id id e 10 ∅ (js "{a,b}?")). vm_compute. reflexivity.
Defined.

(** The wrapper that [defaults] returns cannot be called. *)
Lemma defaults_call_throws canon toLowerCase e fuel (def o : options) p pattern : def <> ∅ ->
  api_call (defaults canon toLowerCase e fuel def) p pattern o =
  Throw (TypeError "orig.minimatch is not a function").
Proof. intros Hd. unfold defaults. by rewrite bool_decide_false. Qed.
