(* ===== verification/GlobCommon.v ===== *)
(** * File globs: options, cache and results

    Module 15 (glob/common) of docs/generated_site/assets/javascripts/lunr/wordcut.js:
    what the synchronous and the asynchronous glob share.  The file system is not
    part of the sources: [FileSystem] holds the four calls the glob makes, and the
    theorems say what they ask of it.  A glob object is split into the settings
    that [setopts] computes and the store that the search writes.  Object keys that
    are file names are kept in the order [Object.keys] lists them. *)
From stdpp Require Import gmap.
From S2P Require Import Prelude JsString JsArray JsState JsRegex PathModule BraceExpansion MinimatchParse Minimatch.

(** ** The file system *)
Record fs_error : Type := FsError { er_code : option string; er_syscall : option string }.

Inductive fs_result (A : Type) : Type :=
| FsOk (a : A)
| FsErr (er : fs_error).
Arguments FsOk {A} _.
Arguments FsErr {A} _.

Record stats : Type := Stats { isDirectory : bool; isSymbolicLink : bool }.

(** The calls do not change the file system, and nothing else does while a
    synchronous glob runs. *)
Class FileSystem : Type := {
  readdirSync : jsstr -> fs_result (list jsstr);
  lstatSync : jsstr -> fs_result stats;
  statSync : jsstr -> fs_result stats;
  realpathSync : jsstr -> fs_result jsstr }.

(** [throw er] *)
Definition thrown (er : fs_error) : js_error := PlainError (default "" (er_code er)).

(** ** Objects used as sets of keys *)

(** The keys in the order of their insertion. *)
Abbreviation keyset := (list (list Z)).
Definition key_add (k : jsstr) (s : keyset) : keyset := if bool_decide (k ∈ s) then s else s ++ [k].

(** [Object.keys]: array indices first, in their order. *)
Definition is_index (k : jsstr) : bool := match index_key k with Some _ => true | None => false end.
Definition object_keys (s : keyset) : list jsstr :=
  sort_by (fun a b => default 0 (index_key a) - default 0 (index_key b)) (List.filter is_index s) ++
  List.filter (fun k => negb (is_index k)) s.

(** ** Options and settings *)
Inductive cache_entry : Type :=
| CTrue
| CFalse
| CFile
| CDir
| CEntries (l : list jsstr).

(** A caller's options: the flags and the other values. *)
Record glob_options : Type := GlobOptions {
  go_flags : options;
  go_cwd : option jsstr;
  go_root : option jsstr;
  go_maxLength : option Z;
  go_ignore : option (jsstr + list jsstr);
  go_cache : option (gmap (list Z) cache_entry);
  go_statCache : option (gmap (list Z) (option stats));
  go_symlinks : option (gmap (list Z) bool) }.

Definition no_options : glob_options := GlobOptions ∅ None None None None None None None.

Record ignore_item : Type := Ignore { matcher : minimatch_obj; gmatcher : option minimatch_obj }.

(** The fields of a glob object that [setopts] writes and the search reads. *)
Record settings : Type := Settings {
  g_pattern : jsstr;
  g_strict : bool;
  g_realpath : bool;
  g_follow : bool;
  g_dot : bool;
  g_mark : bool;
  g_nodir : bool;
  g_nounique : bool;
  g_nonull : bool;
  g_nosort : bool;
  g_nocase : bool;
  g_stat : bool;
  g_noprocess : bool;
  g_maxLength : option Z;
  g_ignore : list ignore_item;
  g_changedCwd : bool;
  g_cwd : jsstr;
  g_root : jsstr;
  g_nomount : bool;
  g_minimatch : minimatch_obj }.

(** The fields the search writes; a cached [false] of [statCache] is [None]. *)
Record store : Type := Store {
  cache : gmap (list Z) cache_entry;
  statCache : gmap (list Z) (option stats);
  symlinks : gmap (list Z) bool;
  matches : list (option keyset) }.

Definition set_cache (a : jsstr) (c : cache_entry) (s : store) : store :=
  Store (<[a := c]> (cache s)) (statCache s) (symlinks s) (matches s).
Definition set_statCache (a : jsstr) (st : option stats) (s : store) : store :=
  Store (cache s) (<[a := st]> (statCache s)) (symlinks s) (matches s).
Definition set_symlink (a : jsstr) (b : bool) (s : store) : store :=
  Store (cache s) (statCache s) (<[a := b]> (symlinks s)) (matches s).
Definition set_matches (m : list (option keyset)) (s : store) : store :=
  Store (cache s) (statCache s) (symlinks s) m.

(** [if (!this.matches[index]) this.matches[index] = Object.create(null)] and
    [this.matches[index][e] = true] *)
Definition touch_matches (index : nat) (s : store) : store :=
  set_matches (alter (fun m => Some (default [] m)) index (matches s)) s.
Definition put_match (index : nat) (e : jsstr) (s : store) : store :=
  set_matches (alter (fun m => key_add e <$> m) index (matches s)) s.

(** A cached value in a condition. *)
Definition is_truthy (c : cache_entry) : bool := match c with CFalse => false | _ => true end.
Definition is_dir (c : cache_entry) : bool := match c with CDir | CEntries _ => true | _ => false end.

Definition globstarTailRe : regex := Eval vm_compute in regex_lit "(\/\*\*)+$".
Definition slashEndRe : regex := Eval vm_compute in regex_lit "\/$".

Section common.
(** What the language and the bundle leave open: case mappings, the comparison of
    strings in the user's language, the random escape texts and the step budget of
    brace expansion. *)
Context (canon : Z -> Z) (toLowerCase : jsstr -> jsstr) (localeCompare : jsstr -> jsstr -> Z)
        (escs : esc_texts) (fuel : nat).

Definition alphasorti (a b : jsstr) : Z := localeCompare (toLowerCase a) (toLowerCase b).
Definition alphasort (a b : jsstr) : Z := localeCompare a b.

(** *** setopts *)
Definition ignoreMap (pattern : jsstr) : outcome ignore_item :=
  gm ← (if bool_decide (js_slice_from pattern (-3) = js "/**") then
          g ← Minimatch canon escs fuel (Some (replace_first globstarTailRe (fun _ => []) pattern)) ∅;
          Ret (Some g)
        else Ret None);
  m ← Minimatch canon escs fuel (Some pattern) ∅;
  Ret (Ignore m gm).

Definition setupIgnores (opts : glob_options) : outcome (list ignore_item) :=
  mapM ignoreMap
    (match go_ignore opts with
     | None => []
     | Some (inl p) => if truthy p then [p] else []
     | Some (inr l) => l
     end).

(** [options.k === false ? false : true] *)
Definition unless_false (o : options) (k : string) : bool := negb (bool_decide (o !! k = Some false)).

Definition setopts (pattern : jsstr) (opts : glob_options) : outcome (settings * store) :=
  let o := go_flags opts in
  pattern ← (if opt o "matchBase" && (indexOf pattern slash 0 =? -1) then
               if opt o "noglobstar" then Throw (PlainError "base matching requires globstar")
               else Ret (js "**/" ++ pattern)
             else Ret pattern);
  ignore ← setupIgnores opts;
  cwd ← (match go_cwd opts with
         | None => Ret (process_cwd, false)
         | Some c => r ← resolve [Some c]; Ret (c, negb (bool_decide (r = process_cwd)))
         end);
  root ← (match go_root opts with
          | Some (c :: r) => Ret (c :: r)
          | _ => resolve [Some cwd.1; Some slash]
          end);
  root ← resolve [Some root];
  let flags := <["nonegate" := unless_false o "nonegate"]> (<["nocomment" := unless_false o "nocomment"]> o) in
  mm ← Minimatch canon escs fuel (Some pattern) flags;
  Ret (Settings pattern (unless_false o "strict") (opt o "realpath") (opt o "follow") (opt o "dot")
         (opt o "mark" || opt o "nodir") (opt o "nodir") (opt o "nounique") (opt o "nonull")
         (opt o "nosort") (opt o "nocase") (opt o "stat") (opt o "noprocess")
         (match go_maxLength opts with Some n => if n =? 0 then None else Some n | None => None end)
         ignore cwd.2 cwd.1 root (opt o "nomount") mm,
       Store (default ∅ (go_cache opts)) (default ∅ (go_statCache opts)) (default ∅ (go_symlinks opts)) []).

(** *** makeAbs, mark *)
Definition makeAbs (g : settings) (f : jsstr) : outcome jsstr :=
  if bool_decide (charAt f 0 = slash) then join [Some (g_root g); Some f]
  else if path_is_absolute f || bool_decide (f = []) then Ret f
  else if g_changedCwd g then resolve [Some (g_cwd g); Some f]
  else resolve [Some f].

Definition ends_in_slash (p : jsstr) : bool := bool_decide (js_slice_from p (-1) = slash).

Definition mark (g : settings) (p : jsstr) : stM store jsstr :=
  abs ← lift (makeAbs g p);
  s ← get_st;
  match cache s !! abs with
  | Some c =>
      if is_truthy c then
        let m := if is_dir c && negb (ends_in_slash p) then p ++ slash
                 else if negb (is_dir c) && ends_in_slash p then js_slice p 0 (-1)
                 else p in
        if bool_decide (m = p) then mret m else
        mabs ← lift (makeAbs g m);
        modify_st (fun s =>
          Store (<[mabs := c]> (cache s))
                (match statCache s !! abs with
                 | Some st => <[mabs := st]> (statCache s)
                 | None => delete mabs (statCache s)
                 end)
                (symlinks s) (matches s)) ;;
        mret m
      else mret p
  | None => mret p
  end.

(** *** Ignored paths *)
Definition item_match (m : minimatch_obj) (path : jsstr) : outcome bool := match_ toLowerCase m path false.

(** [some] with a test that may throw. *)
Fixpoint someM {A} (f : A -> outcome bool) (l : list A) : outcome bool :=
  match l with
  | [] => Ret false
  | x :: l => b ← f x; if (b : bool) then Ret true else someM f l
  end.

Definition below_ignored (path : jsstr) (item : ignore_item) : outcome bool :=
  match gmatcher item with Some gm => item_match gm path | None => Ret false end.

Definition isIgnored (g : settings) (path : jsstr) : outcome bool :=
  someM (fun item => b ← item_match (matcher item) path;
                     if (b : bool) then Ret true else below_ignored path item) (g_ignore g).

Definition childrenIgnored (g : settings) (path : jsstr) : outcome bool :=
  someM (below_ignored path) (g_ignore g).

(** *** finish *)
Definition add_found (nou : bool) (all : list jsstr) (m : list jsstr) : list jsstr :=
  if nou then all ++ m else foldl (fun acc k => key_add k acc) all m.

Definition gather (g : settings) (ms : list (option keyset)) : list jsstr :=
  let all := foldl (fun all '(i, m) =>
      match m with
      | Some (k :: ks) => add_found (g_nounique g) all (object_keys (k :: ks))
      | _ => if g_nonull g then
               add_found (g_nounique g) all [default (js "undefined") (mm_globSet (g_minimatch g) !! i)]
             else all
      end) [] (imap pair ms) in
  if g_nounique g then all else object_keys all.

Fixpoint mapM_st {S A B} (f : A -> stM S B) (l : list A) : stM S (list B) :=
  match l with
  | [] => mret []
  | x :: l => y ← f x; ys ← mapM_st f l; mret (y :: ys)
  end.

Definition finish (g : settings) : stM store (list jsstr) :=
  s ← get_st;
  let all := gather g (matches s) in
  let all := if g_nosort g then all else sort_by (if g_nocase g then alphasorti else alphasort) all in
  all ← (if g_mark g then
           l ← mapM_st (mark g) all;
           mret (if g_nodir g then List.filter (fun e => negb (regex_test slashEndRe e)) l else l)
         else mret all);
  match g_ignore g with
  | [] => mret all
  | _ => lift (filterM (fun m => b ← isIgnored g m; Ret (negb b)) all)
  end.
End common.
