(* ===== verification/GlobSync.v ===== *)
(** * File globs: the synchronous search

    Module 17 (glob/sync) of docs/generated_site/assets/javascripts/lunr/wordcut.js:
    [globSync] compiles a pattern, walks the directories a pattern can reach with a
    cache of what it read, and collects the names that match, one set per brace
    alternative.  Every method of the class is a definition here, in the store of
    [GlobCommon]; [_process], [_processReaddir] and [_processGlobStar] call each
    other, so the first takes a step budget and hands itself to the others. *)
From stdpp Require Import gmap.
From S2P Require Import Prelude JsString JsArray JsState JsRegex PathModule BraceExpansion MinimatchParse Minimatch GlobCommon.

Section sync.
Context `{FileSystem}.
Context (canon : Z -> Z) (toLowerCase : jsstr -> jsstr) (localeCompare : jsstr -> jsstr -> Z)
        (escs : esc_texts) (fuel : nat).

(** ** Reading directories *)
Definition child_path (abs e : jsstr) : jsstr :=
  if bool_decide (abs = slash) then abs ++ e else abs ++ slash ++ e.

Definition _readdirEntries (g : settings) (abs : jsstr) (entries : list jsstr) : stM store (list jsstr) :=
  (if negb (g_mark g) && negb (g_stat g) then
     iterM (fun e => modify_st (set_cache (child_path abs e) CTrue)) entries
   else mret tt) ;;
  modify_st (set_cache abs (CEntries entries)) ;;
  mret entries.

(** The codes of [_readdirError]. *)
Definition not_dir_codes : list string := ["ENOTSUP"; "ENOTDIR"]%string.
Definition missing_codes : list string := ["ENOENT"; "ELOOP"; "ENAMETOOLONG"; "UNKNOWN"]%string.

Definition _readdirError (g : settings) (f : jsstr) (er : fs_error) : stM store unit :=
  abs ← lift (makeAbs g f);
  let code := default "" (er_code er) in
  if bool_decide (code ∈ not_dir_codes) then modify_st (set_cache abs CFile)
  else if bool_decide (code ∈ missing_codes) then modify_st (set_cache abs CFalse)
  else
    modify_st (set_cache abs CFalse) ;;
    if g_strict g then throw_st (thrown er) else mret tt.

(** [_readdir(abs, false)]: [None] stands for the two empty values. *)
Definition readdir_plain (g : settings) (abs : jsstr) : stM store (option (list jsstr)) :=
  s ← get_st;
  match cache s !! abs with
  | Some CFalse | Some CFile => mret None
  | Some (CEntries c) => mret (Some c)
  | _ =>
      match readdirSync abs with
      | FsOk entries => l ← _readdirEntries g abs entries; mret (Some l)
      | FsErr er => _readdirError g abs er ;; mret None
      end
  end.

Definition _readdirInGlobStar (g : settings) (abs : jsstr) : stM store (option (list jsstr)) :=
  if g_follow g then readdir_plain g abs else
  match lstatSync abs with
  | FsErr _ => mret None
  | FsOk lstat =>
      let isSym := isSymbolicLink lstat in
      modify_st (set_symlink abs isSym) ;;
      if negb isSym && negb (isDirectory lstat) then modify_st (set_cache abs CFile) ;; mret None
      else readdir_plain g abs
  end.

Definition _readdir (g : settings) (abs : jsstr) (inGlobStar : bool) : stM store (option (list jsstr)) :=
  s ← get_st;
  if inGlobStar && bool_decide (symlinks s !! abs = None) then _readdirInGlobStar g abs
  else readdir_plain g abs.

(** ** Looking at one file *)

(** What the cache alone answers. *)
Definition cached_stat (needDir : bool) (c : cache_entry) : option cache_entry :=
  let c := match c with CEntries _ => CDir | c => c end in
  if negb needDir || is_dir c then Some c
  else match c with CFile => Some CFalse | _ => None end.

Definition _stat (g : settings) (f : jsstr) : stM store cache_entry :=
  abs ← lift (makeAbs g f);
  let needDir := ends_in_slash f in
  if (match g_maxLength g with Some n => n <? js_len f | None => false end) then mret CFalse else
  s ← get_st;
  match (if g_stat g then None else cache s !! abs ≫= cached_stat needDir) with
  | Some c => mret c
  | None =>
      let found :=
        match mjoin (statCache s !! abs) with
        | Some st => Some st
        | None =>
            match lstatSync abs with
            | FsErr _ => None
            | FsOk l => if isSymbolicLink l then
                          match statSync abs with FsOk st => Some st | FsErr _ => Some l end
                        else Some l
            end
        end in
      match found with
      | None => mret CFalse
      | Some st =>
          let c := if isDirectory st then CDir else CFile in
          modify_st (set_statCache abs (Some st)) ;;
          modify_st (fun s => match cache s !! abs with
                              | Some c' => if is_truthy c' then s else set_cache abs c s
                              | None => set_cache abs c s
                              end) ;;
          mret (if needDir && negb (is_dir c) then CFalse else c)
      end
  end.

(** [_emitMatch], which nothing in the synchronous class calls. *)
Definition _emitMatch (g : settings) (index : nat) (e : jsstr) : stM store unit :=
  _ ← lift (makeAbs g e);
  e ← (if g_mark g then mark g e else mret e);
  s ← get_st;
  match mjoin (matches s !! index) with
  | None => throw_st (TypeError "Cannot read property of undefined")
  | Some ks =>
      if bool_decide (e ∈ ks) then mret tt else
      abs ← lift (makeAbs g e);
      if g_nodir g && (match cache s !! abs with Some c => is_dir c | None => false end) then mret tt
      else modify_st (put_match index e) ;;
           if g_stat g then _ ← _stat g e; mret tt else mret tt
  end.

(** ** Walking a pattern *)
Definition is_string (p : part) : bool := match p with Lit _ => true | _ => false end.

(** The parts before the first one that is not a string. *)
Fixpoint leading (pattern : list part) : list jsstr :=
  match pattern with
  | Lit s :: pattern => s :: leading pattern
  | _ => []
  end.

(** [isAbsolute(pattern.join('/'))] for a pattern that starts with a string: its
    first unit is in the first string or is the separator. *)
Definition joined_absolute (pattern : list part) : bool :=
  match pattern with
  | Lit [] :: _ :: _ => true
  | Lit s :: _ => path_is_absolute s
  | _ => false
  end.

Definition _processSimple (g : settings) (prefix : jsstr) (index : nat) : stM store unit :=
  exists_ ← _stat g prefix;
  modify_st (touch_matches index) ;;
  if negb (is_truthy exists_) then mret tt else
  prefix ← (if truthy prefix && path_is_absolute prefix && negb (g_nomount g) then
              if bool_decide (charAt prefix 0 = slash) then lift (join [Some (g_root g); Some prefix])
              else
                p ← lift (resolve [Some (g_root g); Some prefix]);
                mret (if regex_test (regex_lit "[\/\\]$") prefix then p ++ slash else p)
            else mret prefix);
  modify_st (put_match index prefix).

(** [this.dot || rawGlob.charAt(0) === '.'], where a regular expression that did not
    compile has no [_glob]. *)
Definition dot_ok (g : settings) (rawGlob : option jsstr) : outcome bool :=
  if g_dot g then Ret true else
  match rawGlob with
  | Some rawGlob => Ret (bool_decide (charAt rawGlob 0 = dot))
  | None => Throw (TypeError "Cannot read property 'charAt' of undefined")
  end.

Definition entry_hit (g : settings) (prefix : option jsstr) (r : regex) (dotOk : bool) (e : jsstr) : bool :=
  if negb (bool_decide (charAt e 0 = dot)) || dotOk then
    if mm_negate (g_minimatch g) && negb (match prefix with Some p => truthy p | None => false end)
    then negb (regex_test r e) else regex_test r e
  else false.

(** [e] below [prefix], as a match. *)
Definition match_name (g : settings) (prefix : option jsstr) (e : jsstr) : outcome jsstr :=
  let e := match prefix with
           | Some (c :: p) => if ends_in_slash (c :: p) then (c :: p) ++ e else (c :: p) ++ slash ++ e
           | _ => e
           end in
  if bool_decide (charAt e 0 = slash) && negb (g_nomount g) then join [Some (g_root g); Some e] else Ret e.

(** The string parts in front of the rest of a pattern. *)
Definition prefix_parts (prefix : option jsstr) : list part :=
  match prefix with Some (c :: p) => [Lit (c :: p)] | _ => [] end.

Section walk.
Context (rec : list part -> nat -> bool -> stM store unit).

Definition _processReaddir (g : settings) (prefix : option jsstr) (abs : jsstr) (remain : list part)
    (index : nat) (inGlobStar : bool) : stM store unit :=
  entries ← _readdir g abs inGlobStar;
  match entries, remain with
  | Some entries, Re r _ rawGlob :: rest =>
      dotOk ← lift (dot_ok g rawGlob);
      let matchedEntries := List.filter (entry_hit g prefix r dotOk) entries in
      match matchedEntries, rest with
      | [], _ => mret tt
      | _, [] =>
          if negb (g_mark g) && negb (g_stat g) then
            modify_st (touch_matches index) ;;
            iterM (fun e => name ← lift (match_name g prefix e); modify_st (put_match index name)) matchedEntries
          else iterM (fun e => rec (prefix_parts prefix ++ [Lit e]) index inGlobStar) matchedEntries
      | _, _ => iterM (fun e => rec (prefix_parts prefix ++ Lit e :: rest) index inGlobStar) matchedEntries
      end
  | _, _ => mret tt
  end.

Definition _processGlobStar (g : settings) (prefix : option jsstr) (abs : jsstr) (remain : list part)
    (index : nat) (inGlobStar : bool) : stM store unit :=
  entries ← _readdir g abs inGlobStar;
  match entries with
  | None => mret tt
  | Some entries =>
      let remainWithoutGlobStar := tail remain in
      rec (prefix_parts prefix ++ remainWithoutGlobStar) index false ;;
      s ← get_st;
      if default false (symlinks s !! abs) && inGlobStar then mret tt else
      iterM (fun e =>
        if bool_decide (charAt e 0 = dot) && negb (g_dot g) then mret tt else
        rec (prefix_parts prefix ++ Lit e :: remainWithoutGlobStar) index true ;;
        rec (prefix_parts prefix ++ Lit e :: remain) index true) entries
  end.
End walk.

Fixpoint _process (steps : nat) (g : settings) (pattern : list part) (index : nat) (inGlobStar : bool)
    : stM store unit :=
  match steps with
  | O => no_fuel
  | S steps =>
      let strings := leading pattern in
      let remain := drop (length strings) pattern in
      match remain, strings with
      | [], _ => _processSimple g (js_join slash strings) index
      | pn :: _, _ =>
          let prefix0 := match strings with [] => None | _ => Some (js_join slash strings) end in
          let prefix := match prefix0 with
                        | None => None
                        | Some p => if path_is_absolute p || joined_absolute pattern then
                                      Some (if negb (truthy p) || negb (path_is_absolute p) then slash ++ p else p)
                                    else Some p
                        end in
          let read := default dot prefix in
          abs ← lift (makeAbs g read);
          ignored ← lift (childrenIgnored toLowerCase g read);
          if (ignored : bool) then mret tt else
          match pn with
          | GLOBSTAR => _processGlobStar (_process steps g) g prefix abs remain index inGlobStar
          | _ => _processReaddir (_process steps g) g prefix abs remain index inGlobStar
          end
      end
  end.

(** ** The constructor *)

(** [_finish]: real paths first. *)
Definition real_name (g : settings) (p : jsstr) : outcome jsstr :=
  p ← makeAbs g p;
  match realpathSync p with
  | FsOk real => Ret real
  | FsErr er => if bool_decide (er_syscall er = Some "stat"%string) then makeAbs g p else Throw (thrown er)
  end.

Definition real_set (g : settings) (m : option keyset) : outcome (option keyset) :=
  match m with
  | None => Ret None
  | Some ks => s ← foldM (fun s p => r ← real_name g p; Ret (key_add r s)) [] (object_keys ks); Ret (Some s)
  end.

Definition _finish (g : settings) : stM store (list jsstr) :=
  (if g_realpath g then
     s ← get_st;
     ms ← lift (mapM (real_set g) (matches s));
     modify_st (set_matches ms)
   else mret tt) ;;
  finish toLowerCase localeCompare g.

(** [new GlobSync(pattern, options)]: the object after the search.  [callback] says
    that the caller passed a function. *)
Definition GlobSync (steps : nat) (pattern : jsstr) (opts : glob_options) (callback : bool)
    : outcome (settings * store * option (list jsstr)) :=
  if negb (truthy pattern) then Throw (PlainError "must provide pattern") else
  if callback then Throw (TypeError "callback provided to sync glob") else
  '(g, s) ← setopts canon escs fuel pattern opts;
  if g_noprocess g then Ret (g, s, None) else
  let set := mm_set (g_minimatch g) in
  match (modify_st (set_matches (replicate (length set) None)) ;;
         iterM (fun '(i, p) => _process steps g p i false) (imap pair set) ;;
         _finish g) s with
  | (s, Ret found) => Ret (g, s, Some found)
  | (_, Throw er) => Throw er
  | (_, OutOfFuel) => OutOfFuel
  end.

Definition globSync (steps : nat) (pattern : jsstr) (opts : glob_options) (callback : bool)
    : outcome (option (list jsstr)) :=
  if callback then Throw (TypeError "callback provided to sync glob") else
  r ← GlobSync steps pattern opts callback;
  Ret r.2.
End sync.
