(* ===== verification/GlobExact.v ===== *)
(** * File globs: the search finds what the pattern matches

    The search of [GlobSync] against the matcher of [Minimatch].  A directory is a
    stack of names, as in [PathModule]; [tree_like] collects what a file system
    without symbolic links promises, [truthful] says that the cache of a glob
    object agrees with it, and [expands] reads a compiled pattern as a walk through
    the directories.  The search ends and collects exactly that walk, the cache
    notwithstanding, except for names below a regular file: reading such a
    directory says that it is no directory, which the cache keeps as a file.  The
    walk in turn is the reading of the pattern that [minimatch] decides. *)
From stdpp Require Import gmap.
From S2P Require Import Prelude JsString JsArray JsState JsRegex PathModule BraceExpansion MinimatchParse Minimatch GlobCommon GlobSync.

(** ** Paths below the working directory *)
Definition file_name (x : jsstr) : Prop := component x /\ name x.

Definition at_dir (base l : list jsstr) : list jsstr := reverse l ++ base.

Lemma dir_ok_app a b : dir_ok (a ++ b) <-> dir_ok a /\ dir_ok b.
Proof. unfold dir_ok. rewrite !Forall_app. tauto. Qed.

Lemma dir_ok_names l : dir_ok (reverse l) <-> Forall file_name l.
Proof. unfold dir_ok, file_name. rewrite !Forall_reverse, Forall_and. tauto. Qed.

Lemma at_dir_ok base l : dir_ok base -> Forall file_name l -> dir_ok (at_dir base l).
Proof. intros Hb Hl. apply dir_ok_app. by rewrite dir_ok_names. Qed.

Lemma at_dir_snoc base l e : at_dir base (l ++ [e]) = e :: at_dir base l.
Proof. unfold at_dir. by rewrite reverse_app. Qed.

Lemma at_dir_length base l : length (at_dir base l) = (length l + length base)%nat.
Proof. unfold at_dir. by rewrite length_app, length_reverse. Qed.

Lemma dir_name_inj d d' : dir_ok d -> dir_ok d' -> dir_name d = dir_name d' -> d = d'.
Proof. intros H H' E. rewrite <- (cd_dir_name [] d H), E. by apply cd_dir_name. Qed.

Lemma names_components l : Forall file_name l -> Forall component l.
Proof. intros H. eapply Forall_impl; [exact H|]. by intros x [? _]. Qed.

Lemma cd_join base l : Forall file_name l -> cd base (js_join slash l) = at_dir base l.
Proof.
  intros Hl. unfold cd. rewrite join_not_absolute, path_parts_join by by apply names_components.
  apply walk_names. eapply Forall_impl; [exact Hl|]. by intros x [_ ?].
Qed.

Lemma join_nonempty l : Forall component l -> l <> [] -> js_join slash l <> [].
Proof. intros Hl Hne E. pose proof (truthy_join l Hl) as Ht. rewrite E in Ht. by destruct l. Qed.

(** Joining groups of joined names. *)
Lemma join_groups ls : Forall (fun l => l <> []) ls ->
  js_join slash (map (js_join slash) ls) = js_join slash (concat ls).
Proof.
  induction 1 as [|l ls Hl Hls IH]; [done|]. cbn [map concat].
  destruct (decide (ls = [])) as [->|Hne]; [by rewrite app_nil_r|].
  rewrite js_join_cons by by destruct ls. rewrite IH.
  assert (concat ls <> []) as Hc by (destruct Hls as [|k ls Hk _]; [done|]; by destruct k).
  clear IH. induction l as [|x l IH]; [done|].
  destruct l as [|y l]; [change ([x] ++ concat ls) with (x :: concat ls); by rewrite (js_join_cons slash x (concat ls))|].
  rewrite (js_join_cons slash x (y :: l)) by done. cbn [app].
  rewrite (js_join_cons slash x (y :: l ++ concat ls)) by done.
  change (y :: l ++ concat ls) with ((y :: l) ++ concat ls). rewrite <- IH by done. by rewrite <- !app_assoc.
Qed.

Lemma charAt_join l : Forall component l -> charAt (js_join slash l) 0 <> slash.
Proof.
  intros Hl E. pose proof (join_not_absolute l Hl) as Ha. unfold isAbsolute in Ha.
  by rewrite E, bool_decide_true in Ha.
Qed.

Lemma join_relative l : Forall component l -> path_is_absolute (js_join slash l) = false.
Proof. intros Hl. apply bool_decide_eq_false, charAt_join, Hl. Qed.

Lemma join_end l : Forall component l -> ends_in_slash (js_join slash l) = false.
Proof. intros Hl. apply bool_decide_eq_false, join_no_trailing, Hl. Qed.

Lemma child_path_dir d e : dir_ok (e :: d) -> child_path (dir_name d) e = dir_name (e :: d).
Proof.
  intros [_ [He Hd]%Forall_cons]. unfold child_path, dir_name. rewrite reverse_cons, join_last.
  assert (reverse d = [] <-> d = []) as Hr.
  { split; [|by intros ->]. intros E%(f_equal reverse). by rewrite reverse_involutive in E. }
  destruct (decide (d = [])) as [->|Hne]; [done|]. rewrite bool_decide_false.
  - destruct (reverse d); [tauto|]. by rewrite <- !app_assoc.
  - intros E. apply (join_nonempty (reverse d)); [by apply Forall_reverse|tauto|]. by injection E.
Qed.

(** ** What a file system promises *)

(** A path exists. *)
Definition there `{FileSystem} (d : list jsstr) : Prop := exists st, lstatSync (dir_name d) = FsOk st.
Definition lists `{FileSystem} (d : list jsstr) (es : list jsstr) : Prop := readdirSync (dir_name d) = FsOk es.

(** Directories list names, and exactly the paths below them that exist; only a
    directory can be read; reading fails with one of the usual codes, and not as
    missing where something is; the depth is bounded. *)
Record tree_like `{FileSystem} (height : nat) : Prop := {
  tl_names d es : dir_ok d -> lists d es -> Forall file_name es;
  tl_listed d es e : dir_ok d -> lists d es -> e ∈ es -> there (e :: d);
  tl_parent d e : dir_ok (e :: d) -> there (e :: d) -> exists es, lists d es /\ e ∈ es;
  tl_dir d es : dir_ok d -> lists d es ->
    exists st, lstatSync (dir_name d) = FsOk st /\ (isDirectory st || isSymbolicLink st = true);
  tl_stat d es : dir_ok d -> lists d es -> exists st, statSync (dir_name d) = FsOk st /\ isDirectory st = true;
  tl_codes d er : dir_ok d -> readdirSync (dir_name d) = FsErr er ->
    default "" (er_code er) ∈ not_dir_codes ++ missing_codes;
  tl_missing d er : dir_ok d -> readdirSync (dir_name d) = FsErr er ->
    default "" (er_code er) ∈ missing_codes -> ~ there d;
  tl_depth d es : dir_ok d -> lists d es -> (length d <= height)%nat;
  tl_empty : exists er, lstatSync [] = FsErr er }.

(** No symbolic link: a directory is walked by one path only. *)
Definition no_links `{FileSystem} : Prop :=
  forall d st, dir_ok d -> lstatSync (dir_name d) = FsOk st -> isSymbolicLink st = false.

Definition listing `{FileSystem} (d : list jsstr) : option (list jsstr) :=
  match readdirSync (dir_name d) with FsOk es => Some es | FsErr _ => None end.

(** A path the cache may report though nothing is there: it was read as a directory
    and is below something that is none. *)
Definition phantom `{FileSystem} (d : list jsstr) : Prop :=
  exists er, readdirSync (dir_name d) = FsErr er /\ default "" (er_code er) ∈ not_dir_codes /\ ~ there d.

(** A search without marks, limits, ignored paths, negation and another root. *)
Record plain_search (g : settings) (base : list jsstr) : Prop := {
  ps_mark : g_mark g = false;
  ps_limit : g_maxLength g = None;
  ps_ignore : g_ignore g = [];
  ps_negate : mm_negate (g_minimatch g) = false;
  ps_root : g_root g = slash;
  ps_base : base = if g_changedCwd g then cd [] (g_cwd g) else [] }.

Lemma plain_base_ok g base : plain_search g base -> dir_ok base.
Proof. intros [_ _ _ _ _ ->]. case_match; [apply cd_ok, root_ok|apply root_ok]. Qed.

Section exact.
Context `{FileSystem} (height : nat) (Hfs : tree_like height).
Context (g : settings) (base : list jsstr) (Hg : plain_search g base).

Local Abbreviation here l := (at_dir base l).

Lemma base_ok : dir_ok base.
Proof. by eapply plain_base_ok. Qed.

Lemma here_ok l : Forall file_name l -> dir_ok (here l).
Proof. apply at_dir_ok, base_ok. Qed.

(** *** makeAbs *)
Lemma makeAbs_join l : Forall file_name l -> l <> [] ->
  makeAbs g (js_join slash l) = Ret (dir_name (here l)).
Proof.
  intros Hl Hne. pose proof (names_components _ Hl) as Hc. unfold makeAbs.
  rewrite (bool_decide_false _ (charAt_join l Hc)), join_relative by done.
  rewrite bool_decide_false by by apply join_nonempty. cbn [orb].
  pose proof (ps_base _ _ Hg) as Hb. pose proof (cd_join base l Hl) as Hcd.
  destruct (g_changedCwd g).
  - pose proof (resolve_is_cd [g_cwd g; js_join slash l]) as Hr. cbn [map foldl] in Hr. by rewrite Hr, <- Hb, Hcd.
  - pose proof (resolve_is_cd [js_join slash l]) as Hr. cbn [map foldl] in Hr. by rewrite Hr, <- Hb, Hcd.
Qed.

Lemma makeAbs_dot : makeAbs g dot = Ret (dir_name base).
Proof.
  unfold makeAbs. cbn [charAt]. change (path_is_absolute dot) with false.
  rewrite bool_decide_false by done. rewrite bool_decide_false by done. cbn [orb].
  pose proof base_ok as Hbok. pose proof (ps_base _ _ Hg) as Hb.
  assert (forall d, cd d dot = d) as Hdot by done.
  destruct (g_changedCwd g).
  - pose proof (resolve_is_cd [g_cwd g; dot]) as Hr. cbn [map foldl] in Hr. by rewrite Hr, <- Hb, Hdot.
  - pose proof (resolve_is_cd [dot]) as Hr. cbn [map foldl] in Hr. by rewrite Hr, <- Hb, Hdot.
Qed.

Lemma makeAbs_dir d : dir_ok d -> makeAbs g (dir_name d) = Ret (dir_name d).
Proof.
  intros [Hn Hc]. unfold makeAbs. rewrite bool_decide_true by done. rewrite (ps_root _ _ Hg).
  unfold join. cbn [join_filter truthy slash]. change (truthy (dir_name d)) with true.
  cbn [mbind outcome_bind]. f_equal.
  rewrite normalize_abs by done.
  assert (path_parts (js_join slash [slash; dir_name d]) = reverse d) as ->.
  { change (js_join slash [slash; dir_name d]) with (slash ++ slash ++ slash ++ js_join slash (reverse d)).
    rewrite !path_parts_slash. apply path_parts_join. by apply Forall_reverse. }
  rewrite normalizeArray_walk, walk_names, app_nil_r, reverse_involutive by by apply Forall_reverse.
  destruct d as [|x d]; [done|]. cbv zeta.
  rewrite (bool_decide_false (substr (js_join slash [slash; dir_name (x :: d)]) (-1) None = slash)); [by rewrite andb_false_r|].
  change (js_join slash [slash; dir_name (x :: d)]) with (slash ++ slash ++ slash ++ js_join slash (reverse (x :: d))).
  rewrite reverse_cons, join_last. apply Forall_cons in Hc as [[Hx Hs] _].
  destruct x as [|c x _] using rev_ind; [done|]. rewrite !app_assoc, substr_last_app.
  intros [= ->]. apply Hs, elem_of_app. right. by apply list_elem_of_singleton.
Qed.

(** *** The cache tells the truth *)
Definition entry_true (d : list jsstr) (c : cache_entry) : Prop :=
  match c with
  | CTrue | CDir => there d
  | CFalse => ~ there d
  | CFile => listing d = None /\ (there d \/ phantom d)
  | CEntries es => lists d es
  end.

Definition stat_true (d : list jsstr) (st : option stats) : Prop :=
  match st with
  | Some st => there d /\ (isDirectory st = false -> listing d = None)
  | None => ~ there d
  end.

Record truthful (s : store) : Prop := {
  tr_cache d c : dir_ok d -> cache s !! dir_name d = Some c -> entry_true d c;
  tr_stat d st : dir_ok d -> statCache s !! dir_name d = Some st -> stat_true d st;
  tr_links d b : dir_ok d -> symlinks s !! dir_name d = Some b ->
    exists st, lstatSync (dir_name d) = FsOk st /\ isSymbolicLink st = b;
  tr_follow : g_follow g = true -> symlinks s = ∅;
  tr_nocache : cache s !! [] = None;
  tr_nostat : statCache s !! [] = None }.

Lemma truthful_cache d c s : dir_ok d -> entry_true d c -> truthful s -> truthful (set_cache (dir_name d) c s).
Proof.
  intros Hd Hc [H1 H2 H3 H4 H5 H6]. split; cbn; try done.
  - intros d' c' Hd' [[E <-]|[_ E]]%lookup_insert_Some; [|by apply H1].
    apply dir_name_inj in E as ->; done.
  - by rewrite lookup_insert_ne.
Qed.

Lemma truthful_link d b s st : dir_ok d -> lstatSync (dir_name d) = FsOk st -> isSymbolicLink st = b ->
  g_follow g = false -> truthful s -> truthful (set_symlink (dir_name d) b s).
Proof.
  intros Hd Hst Hb Hf [H1 H2 H3 H4 H5 H6]. split; cbn; try done; [|congruence].
  intros d' b' Hd' [[E <-]|[_ E]]%lookup_insert_Some; [|by apply H3].
  apply dir_name_inj in E as ->; [|done..]. by exists st.
Qed.

Lemma truthful_stat d st s : dir_ok d -> stat_true d st -> truthful s -> truthful (set_statCache (dir_name d) st s).
Proof.
  intros Hd Ht [H1 H2 H3 H4 H5 H6]. split; cbn; try done.
  - intros d' st' Hd' [[E <-]|[_ E]]%lookup_insert_Some; [|by eapply H2].
    apply dir_name_inj in E as ->; done.
  - by rewrite lookup_insert_ne.
Qed.

Lemma truthful_matches m s : truthful s -> truthful (set_matches m s).
Proof. by intros [H1 H2 H3 H4 H5 H6]. Qed.

(** *** Computations that look *)
Definition quiet (s s' : store) : Prop :=
  matches s' = matches s /\ forall a, is_Some (symlinks s !! a) -> is_Some (symlinks s' !! a).

#[local] Instance quiet_preorder : PreOrder quiet.
Proof.
  split; [by intros s|]. intros s1 s2 s3 [E1 H1] [E2 H2]. split; [congruence|]. auto.
Qed.

Definition looks {A} (m : stM store A) (Q : A -> store -> Prop) : Prop :=
  forall s, truthful s -> exists a s', m s = (s', Ret a) /\ truthful s' /\ quiet s s' /\ Q a s'.

Lemma looks_ret {A} (a : A) (Q : A -> store -> Prop) : (forall s, Q a s) -> looks (mret a) Q.
Proof. intros HQ s Hs. exists a, s. split; [done|]. split; [done|]. split; [reflexivity|apply HQ]. Qed.

Lemma looks_bind {A B} (m : stM store A) (f : A -> stM store B) Q Q' :
  looks m Q -> (forall a s, truthful s -> Q a s -> exists b s', f a s = (s', Ret b) /\ truthful s' /\ quiet s s' /\ Q' b s') ->
  looks (m ≫= f) Q'.
Proof.
  intros Hm Hf s Hs. destruct (Hm s Hs) as (a & s1 & E1 & Hs1 & Hq1 & HQ).
  destruct (Hf a s1 Hs1 HQ) as (b & s2 & E2 & Hs2 & Hq2 & HQ'). exists b, s2.
  split; [unfold mbind, stM_bind; by rewrite E1|]. split; [done|]. split; [by etrans|done].
Qed.

Lemma looks_modify f : (forall s, truthful s -> truthful (f s) /\ quiet s (f s)) ->
  looks (modify_st f) (fun _ _ => True).
Proof. intros Hf s Hs. exists tt, (f s). destruct (Hf s Hs). done. Qed.

Lemma looks_then {A} (m : stM store unit) (n : stM store A) Q : looks m (fun _ _ => True) -> looks n Q ->
  looks (m ;; n) Q.
Proof. intros Hm Hn. eapply looks_bind; [exact Hm|]. intros _ s Hs _. by apply Hn. Qed.

Lemma looks_cache d c : dir_ok d -> entry_true d c -> looks (modify_st (set_cache (dir_name d) c)) (fun _ _ => True).
Proof. intros Hd Hc. apply looks_modify. intros s Hs. split; [by apply truthful_cache|done]. Qed.

Lemma looks_iter {A} (body : A -> stM store unit) l : (forall x, x ∈ l -> looks (body x) (fun _ _ => True)) ->
  looks (iterM body l) (fun _ _ => True).
Proof.
  intros Hl. induction l as [|x l IH]; cbn [iterM]; [by apply looks_ret|].
  apply looks_then; [apply Hl; left|]. apply IH. intros y Hy. apply Hl. by right.
Qed.

Lemma not_there d er : lstatSync (dir_name d) = FsErr er -> ~ there d.
Proof. intros E [st Hst]. congruence. Qed.

Lemma listing_there d es : dir_ok d -> listing d = Some es -> there d.
Proof.
  unfold listing. intros Hd. destruct (readdirSync (dir_name d)) eqn:E; [|done]. intros _.
  destruct (tl_dir _ Hfs d _ Hd E) as (st & Hst & _). by exists st.
Qed.

Lemma gone_unlisted d : dir_ok d -> ~ there d -> listing d = None.
Proof. intros Hd Hn. destruct (listing d) eqn:E; [|done]. by apply listing_there in E. Qed.

(** *** Reading a directory *)
Lemma readdirEntries_looks d es : dir_ok d -> lists d es ->
  looks (_readdirEntries g (dir_name d) es) (fun l _ => l = es).
Proof.
  intros Hd He. unfold _readdirEntries. apply looks_then.
  - case_match; [|by apply looks_ret]. apply looks_iter. intros e Hi.
    assert (dir_ok (e :: d)) as Hed.
    { pose proof (tl_names _ Hfs d es Hd He) as Hn. rewrite Forall_forall in Hn.
      destruct (Hn e Hi). destruct Hd. split; by constructor. }
    rewrite child_path_dir by done. apply looks_cache; [done|]. by apply (tl_listed _ Hfs d es).
  - apply looks_then; [by apply looks_cache|by apply looks_ret].
Qed.

Lemma readdirError_looks d er : dir_ok d -> readdirSync (dir_name d) = FsErr er ->
  looks (_readdirError g (dir_name d) er) (fun _ _ => True).
Proof.
  intros Hd E. unfold _readdirError, lift. rewrite makeAbs_dir by done.
  change (looks (if bool_decide (default "" (er_code er) ∈ not_dir_codes) then modify_st (set_cache (dir_name d) CFile)
    else if bool_decide (default "" (er_code er) ∈ missing_codes) then modify_st (set_cache (dir_name d) CFalse)
    else modify_st (set_cache (dir_name d) CFalse) ;; if g_strict g then throw_st (thrown er) else mret tt) (fun _ _ => True)).
  case_bool_decide as H1.
  - apply looks_cache; [done|]. split; [unfold listing; by rewrite E|].
    destruct (lstatSync (dir_name d)) as [st|er'] eqn:El; [left; by exists st|].
    right. exists er. split; [done|]. split; [done|]. by eapply not_there.
  - case_bool_decide as H2.
    + apply looks_cache; [done|]. by apply (tl_missing _ Hfs d er).
    + exfalso. pose proof (tl_codes _ Hfs d er Hd E) as Hc. apply elem_of_app in Hc. tauto.
Qed.

Lemma readdir_plain_looks d : dir_ok d -> looks (readdir_plain g (dir_name d)) (fun r _ => r = listing d).
Proof.
  intros Hd s Hs. unfold readdir_plain. change ((get_st ≫= ?f) s) with (f s s); cbv beta.
  assert (looks (match readdirSync (dir_name d) with
                 | FsOk entries => l ← _readdirEntries g (dir_name d) entries; mret (Some l)
                 | FsErr er => _readdirError g (dir_name d) er ;; mret None
                 end) (fun r _ => r = listing d)) as Hread.
  { destruct (readdirSync (dir_name d)) as [es|er] eqn:E.
    - eapply looks_bind; [by apply readdirEntries_looks|]. cbn. intros l s1 Hs1 ->.
      exists (Some es), s1. split_and!; [done|done|reflexivity|]. unfold listing. by rewrite E.
    - apply looks_then; [by apply readdirError_looks|]. apply looks_ret. intros _. unfold listing. by rewrite E. }
  destruct (cache s !! dir_name d) as [c|] eqn:Ec; [|by apply Hread].
  pose proof (tr_cache s Hs d c Hd Ec) as Ht.
  destruct c; cbn [entry_true] in Ht; try (by apply Hread); eexists _, s; (split; [reflexivity|]); (split; [done|]);
    (split; [reflexivity|]).
  - by rewrite gone_unlisted.
  - by destruct Ht as [-> _].
  - unfold listing. by rewrite Ht.
Qed.

Lemma readdir_looks d b : dir_ok d ->
  looks (_readdir g (dir_name d) b) (fun r s => r = listing d /\
    (b = true -> g_follow g = false -> r <> None -> is_Some (symlinks s !! dir_name d))).
Proof.
  intros Hd s Hs. unfold _readdir. change ((get_st ≫= ?f) s) with (f s s); cbv beta.
  destruct (readdir_plain_looks d Hd s Hs) as (r & s1 & E1 & Hs1 & Hq1 & Hr).
  case_match eqn:Eb.
  - apply andb_true_iff in Eb as [-> _]. unfold _readdirInGlobStar. destruct (g_follow g) eqn:Ef.
    { by exists r, s1. }
    destruct (lstatSync (dir_name d)) as [st|er] eqn:El.
    + set (s2 := set_symlink (dir_name d) (isSymbolicLink st) s).
      assert (truthful s2) as Hs2 by by eapply truthful_link.
      assert (is_Some (symlinks s2 !! dir_name d)) as Hl by (cbn; by rewrite lookup_insert_eq).
      assert (quiet s s2) as Hq2.
      { split; [done|]. intros a Ha. cbn. rewrite lookup_insert_is_Some'. by right. }
      change ((modify_st ?f ;; ?m) s) with (m (f s)). fold s2.
      destruct (negb (isSymbolicLink st) && negb (isDirectory st)) eqn:Ek.
      * assert (listing d = None) as Hnone.
        { destruct (listing d) as [es|] eqn:E; [|done]. unfold listing in E.
          destruct (readdirSync (dir_name d)) as [es'|] eqn:E'; [|done].
          destruct (tl_dir _ Hfs d es' Hd E') as (st' & Hst' & Hk). rewrite El in Hst'. injection Hst' as <-.
          by destruct (isSymbolicLink st), (isDirectory st). }
        assert (truthful (set_cache (dir_name d) CFile s2)) as Hs3.
        { apply truthful_cache; [done| |done]. split; [done|]. left. by exists st. }
        exists None, (set_cache (dir_name d) CFile s2). split; [done|]. split; [done|]. split; [by etrans|].
        by rewrite Hnone.
      * destruct (readdir_plain_looks d Hd s2 Hs2) as (r' & s3 & E3 & Hs3 & Hq3 & Hr').
        exists r', s3. split; [done|]. split; [done|]. split; [by etrans|]. split; [done|]. intros _ _ _. by apply Hq3.
    + exists None, s. split; [done|]. split; [done|]. split; [reflexivity|]. split; [|done].
      symmetry. apply gone_unlisted; [done|]. by eapply not_there.
  - exists r, s1. split; [done|]. split; [done|]. split; [done|]. split; [done|]. intros -> _ _.
    apply Hq1. apply bool_decide_eq_false in Eb. by destruct (symlinks s !! dir_name d).
Qed.

(** *** Looking at a path *)
Definition plausible (p : list jsstr) : Prop := there (here p) \/ (g_stat g = false /\ phantom (here p)).

Lemma stat_file d st : dir_ok d -> lstatSync (dir_name d) = FsOk st -> isSymbolicLink st = false ->
  isDirectory st = false -> listing d = None.
Proof.
  intros Hd Hst Hl Hk. unfold listing. destruct (readdirSync (dir_name d)) as [es|] eqn:E; [|done].
  destruct (tl_dir _ Hfs d es Hd E) as (st' & Hst' & Ht). rewrite Hst in Hst'. injection Hst' as <-.
  by rewrite Hl, Hk in Ht.
Qed.

Lemma stat_target d : dir_ok d ->
  match statSync (dir_name d) with FsOk st => isDirectory st = false | FsErr _ => True end -> listing d = None.
Proof.
  intros Hd Hst. unfold listing. destruct (readdirSync (dir_name d)) as [es|] eqn:E; [|done].
  destruct (tl_stat _ Hfs d es Hd E) as (st' & Hst' & Ht). rewrite Hst' in Hst. congruence.
Qed.

(** What the file system says about a path, links followed where they lead. *)
Definition look (abs : jsstr) : option stats :=
  match lstatSync abs with
  | FsErr _ => None
  | FsOk l => if isSymbolicLink l then match statSync abs with FsOk st => Some st | FsErr _ => Some l end
              else Some l
  end.

Lemma look_true d : dir_ok d -> stat_true d (look (dir_name d)).
Proof.
  intros Hd. unfold look. destruct (lstatSync (dir_name d)) as [l|er] eqn:El; [|by eapply not_there].
  assert (there d) as Ht by (by exists l).
  destruct (isSymbolicLink l) eqn:Ek; [|split; [done|]; intros; by eapply stat_file].
  pose proof (stat_target d Hd) as Hst. destruct (statSync (dir_name d)) as [st|]; by split; [|auto].
Qed.

Definition look_up (s : store) (abs : jsstr) : option stats :=
  match mjoin (statCache s !! abs) with Some st => Some st | None => look abs end.

Lemma look_up_true d s : dir_ok d -> truthful s -> stat_true d (look_up s (dir_name d)).
Proof.
  intros Hd Hs. unfold look_up. destruct (statCache s !! dir_name d) as [[st|]|] eqn:E;
    [by apply (tr_stat s Hs)|by apply look_true..].
Qed.

(** What the cache answers about a path that need not be a directory. *)
Lemma cached_plausible p c : Forall file_name p -> entry_true (here p) c -> g_stat g = false ->
  exists c', cached_stat false c = Some c' /\ (is_truthy c' = true -> plausible p) /\ (there (here p) -> is_truthy c' = true).
Proof.
  intros Hp Hc Hst. unfold plausible. destruct c as [| | | |es]; cbn [entry_true] in Hc; eexists; (split; [reflexivity|]).
  - split; [by left|done].
  - by split.
  - split; [|done]. intros _. destruct Hc as [_ [?|?]]; [by left|by right].
  - split; [by left|done].
  - split; [|done]. intros _. left. apply (listing_there _ es); [by apply here_ok|]. unfold listing. by rewrite Hc.
Qed.

Definition note_stat (abs : jsstr) (st : stats) (s : store) : store :=
  let s := set_statCache abs (Some st) s in
  let c := if isDirectory st then CDir else CFile in
  match cache s !! abs with
  | Some c' => if is_truthy c' then s else set_cache abs c s
  | None => set_cache abs c s
  end.

Lemma stat_unfold f abs s : makeAbs g f = Ret abs -> ends_in_slash f = false ->
  _stat g f s =
  match (if g_stat g then None else cache s !! abs ≫= cached_stat false) with
  | Some c => (s, Ret c)
  | None => match look_up s abs with
            | None => (s, Ret CFalse)
            | Some st => (note_stat abs st s, Ret (if isDirectory st then CDir else CFile))
            end
  end.
Proof.
  intros Ha He. unfold _stat, lift. rewrite Ha, He, (ps_limit _ _ Hg).
  unfold mbind at 1, stM_bind at 1. cbv beta iota. unfold mbind at 1, stM_bind at 1, get_st. cbv beta iota zeta.
  destruct (if g_stat g then None else _) as [c|]; [done|]. unfold look_up, look.
  destruct (match mjoin (statCache s !! abs) with Some st => Some st | None => _ end); [|done]. done.
Qed.

Lemma note_stat_true d st s : dir_ok d -> there d -> (isDirectory st = false -> listing d = None) ->
  truthful s -> truthful (note_stat (dir_name d) st s) /\ quiet s (note_stat (dir_name d) st s).
Proof.
  intros Hd Ht Hl Hs. assert (truthful (set_statCache (dir_name d) (Some st) s)) as Hs1 by by apply truthful_stat.
  assert (entry_true d (if isDirectory st then CDir else CFile)) as Hc.
  { destruct (isDirectory st); [done|]. split; [by apply Hl|by left]. }
  unfold note_stat. repeat case_match; (split; [|done]); try done; by apply truthful_cache.
Qed.

Lemma stat_looks p : Forall file_name p -> p <> [] ->
  looks (_stat g (js_join slash p))
    (fun c _ => (is_truthy c = true -> plausible p) /\ (there (here p) -> is_truthy c = true)).
Proof.
  intros Hp Hne s Hs. pose proof (here_ok p Hp) as Hd. pose proof (names_components p Hp) as Hc.
  rewrite (stat_unfold _ _ s (makeAbs_join p Hp Hne) (join_end p Hc)).
  destruct (if g_stat g then None else _) as [c|] eqn:Ec.
  - exists c, s. split_and!; [done|done|reflexivity|..]; destruct (g_stat g) eqn:Est; try done;
      destruct (cache s !! dir_name (here p)) as [c0|] eqn:E0; try done;
      destruct (cached_plausible p c0 Hp (tr_cache s Hs _ _ Hd E0) Est) as (c' & Ec' & H1 & H2);
      change (Some c0 ≫= cached_stat false) with (cached_stat false c0) in Ec; rewrite Ec' in Ec; by injection Ec as <-.
  - pose proof (look_up_true (here p) s Hd Hs) as Hl. destruct (look_up s _) as [st|].
    + destruct Hl as [Ht Hl]. destruct (note_stat_true (here p) st s Hd Ht Hl Hs) as [Hn Hq].
      eexists _, _. split_and!; [reflexivity|done|done|intros _; by left|intros _; by destruct (isDirectory st)].
    + exists CFalse, s. by split_and!.
Qed.

Lemma stat_empty : looks (_stat g []) (fun c _ => c = CFalse).
Proof.
  intros s Hs. rewrite (stat_unfold [] [] s) by done. rewrite (tr_nocache s Hs).
  unfold look_up, look. rewrite (tr_nostat s Hs). cbn [mjoin option_join]. destruct (tl_empty _ Hfs) as [er ->].
  exists CFalse, s. split_and!; [by destruct (g_stat g)|done|reflexivity|done].
Qed.

(** *** Computations that collect *)
Definition keys (i : nat) (s : store) : keyset := default [] (mjoin (matches s !! i)).

Definition knows (A : list jsstr) (s : store) : Prop := Forall (fun a => is_Some (symlinks s !! a)) A.

Definition grows (i : nat) (s s' : store) : Prop :=
  (forall a, is_Some (symlinks s !! a) -> is_Some (symlinks s' !! a)) /\
  length (matches s') = length (matches s) /\
  (forall j, j <> i -> matches s' !! j = matches s !! j) /\ keys i s ⊆ keys i s'.

Lemma quiet_grows i s s' : quiet s s' -> grows i s s'.
Proof. intros [E H0]. unfold grows, keys. rewrite E. by split_and!. Qed.

Lemma grows_trans i s1 s2 s3 : grows i s1 s2 -> grows i s2 s3 -> grows i s1 s3.
Proof.
  intros (H1 & H2 & H3 & H4) (K1 & K2 & K3 & K4). split_and!; [auto|congruence| |set_solver].
  intros j Hj. by rewrite K3, H3.
Qed.

(** [m] adds to set [i] the names of the paths of [P]: all that are there, and none
    that is implausible.  It may rely on the link status of the paths in [A]. *)
Definition gathers (i : nat) (A : list jsstr) (P : list jsstr -> Prop) (m : stM store unit) : Prop :=
  forall s, truthful s -> knows A s -> (i < length (matches s))%nat ->
  exists s', m s = (s', Ret tt) /\ truthful s' /\ grows i s s' /\
    (forall k, k ∈ keys i s' -> k ∈ keys i s \/ exists p, P p /\ k = js_join slash p /\ plausible p) /\
    (forall p, P p -> p <> [] -> there (here p) -> js_join slash p ∈ keys i s').

Lemma gathers_iff i A P Q m : (forall p, P p <-> Q p) -> gathers i A P m -> gathers i A Q m.
Proof.
  intros HPQ Hm s Hs HA Hi. destruct (Hm s Hs HA Hi) as (s' & E & Hs' & Hgr & H1 & H2). exists s'.
  split_and!; [done..| |].
  - intros k Hk. destruct (H1 k Hk) as [|(p & Hp & Hr)]; [by left|right]. exists p. by rewrite <- HPQ.
  - intros p Hp. by apply H2, HPQ.
Qed.

Lemma gathers_weaken i A B P m : B ⊆ A -> gathers i B P m -> gathers i A P m.
Proof.
  intros HBA Hm s Hs HA Hi. apply Hm; [done| |done]. unfold knows in *. rewrite Forall_forall in *. auto.
Qed.

Lemma gathers_nothing i A : gathers i A (fun _ => False) (mret tt).
Proof.
  intros s Hs _ _. exists s. split_and!; [done|done|by apply quiet_grows|by left|done].
Qed.

Lemma knows_grows i A s s' : grows i s s' -> knows A s -> knows A s'.
Proof. intros [Hl _] HA. eapply Forall_impl; [exact HA|]. intros a. apply Hl. Qed.

Lemma gathers_seq i A P Q m n : gathers i A P m -> gathers i A Q n -> gathers i A (fun p => P p \/ Q p) (m ;; n).
Proof.
  intros Hm Hn s Hs HA Hi. destruct (Hm s Hs HA Hi) as (s1 & E1 & Hs1 & Hg1 & H1 & H2).
  destruct (Hn s1 Hs1) as (s2 & E2 & Hs2 & Hg2 & K1 & K2); [by eapply knows_grows|by rewrite (proj1 (proj2 Hg1))|].
  exists s2. split_and!; [unfold mbind, stM_bind; by rewrite E1|done|by eapply grows_trans|..].
  - intros k [Hk|(p & Hp & Hr)]%K1; [|right; eauto]. apply H1 in Hk as [|(p & Hp & Hr)]; [by left|right; eauto].
  - intros p [Hp|Hp] Hne Ht; [|by apply K2]. apply Hg2. by apply H2.
Qed.

Lemma gathers_iter {X} i A (P : X -> list jsstr -> Prop) (body : X -> stM store unit) l :
  (forall x, x ∈ l -> gathers i A (P x) (body x)) ->
  gathers i A (fun p => exists x, x ∈ l /\ P x p) (iterM body l).
Proof.
  induction l as [|x l IH]; intros Hl; cbn [iterM].
  - eapply gathers_iff; [|apply gathers_nothing]. intros p. split; [done|]. by intros (x & Hx%elem_of_nil & _).
  - eapply gathers_iff; [|apply gathers_seq; [apply Hl; left|apply IH; intros y Hy; apply Hl; by right]].
    intros p. cbn. setoid_rewrite elem_of_cons. naive_solver.
Qed.

Lemma gathers_look {X} i A P (m : stM store X) (Q : X -> store -> Prop) f : looks m Q ->
  (forall a, exists B, (forall s, Q a s -> knows B s) /\ ((exists s, Q a s) -> gathers i (B ++ A) P (f a))) ->
  gathers i A P (m ≫= f).
Proof.
  intros Hm Hf s Hs HA Hi. destruct (Hm s Hs) as (a & s1 & E1 & Hs1 & Hq1 & HQ).
  destruct (Hf a) as (B & HB & HG). pose proof (quiet_grows i _ _ Hq1) as Hg1.
  destruct (HG (ex_intro _ s1 HQ) s1 Hs1) as (s2 & E2 & Hs2 & Hg2 & K1 & K2).
  - apply Forall_app. split; [by apply HB|by eapply knows_grows].
  - by rewrite (proj1 (proj2 Hg1)).
  - assert (keys i s1 = keys i s) as Ek by (unfold keys; by rewrite (proj1 Hq1)).
    exists s2. split_and!; [unfold mbind, stM_bind; by rewrite E1|done|by eapply grows_trans| |done].
    intros k Hk. rewrite <- Ek. by apply K1.
Qed.

Lemma gathers_lift {X} i A P (a : X) f : gathers i A P (f a) -> gathers i A P (lift (Ret a) ≫= f).
Proof. intros Hf. exact Hf. Qed.

(** *** Adding a name *)
Lemma lookup_slot i s : (i < length (matches s))%nat -> exists m, matches s !! i = Some m.
Proof. intros Hi. by apply lookup_lt_is_Some_2. Qed.

Lemma keys_slot i s ks : matches s !! i = Some (Some ks) -> keys i s = ks.
Proof. unfold keys. by intros ->. Qed.

Lemma slot_grows f i s ks ks' : truthful s -> keys i s = ks -> f <$> matches s !! i = Some (Some ks') -> ks ⊆ ks' ->
  let s' := set_matches (alter f i (matches s)) s in
  truthful s' /\ grows i s s' /\ matches s' !! i = Some (Some ks').
Proof.
  intros Hs Hk Hf Hsub s'. assert (matches s' !! i = Some (Some ks')) as Hm.
  { cbn. by rewrite list_lookup_alter_eq. }
  split_and!; [by apply truthful_matches| |done]. split_and!; [done|apply length_alter| |].
  - intros j Hj. cbn. by rewrite list_lookup_alter_ne.
  - by rewrite (keys_slot _ _ _ Hm), Hk.
Qed.

Lemma touch_matches_grows i s : truthful s -> (i < length (matches s))%nat ->
  truthful (touch_matches i s) /\ grows i s (touch_matches i s) /\
  matches (touch_matches i s) !! i = Some (Some (keys i s)).
Proof.
  intros Hs [m Hm]%lookup_slot. apply slot_grows with (keys i s); [done|done| |done].
  unfold keys. rewrite Hm. by destruct m.
Qed.

Lemma key_add_elem k e s : k ∈ key_add e s <-> k ∈ s \/ k = e.
Proof.
  unfold key_add. case_bool_decide; [naive_solver|]. rewrite elem_of_app, list_elem_of_singleton. done.
Qed.

Lemma put_match_grows i e ks s : truthful s -> matches s !! i = Some (Some ks) ->
  truthful (put_match i e s) /\ grows i s (put_match i e s) /\
  matches (put_match i e s) !! i = Some (Some (key_add e ks)).
Proof.
  intros Hs Hm. apply slot_grows with ks; [done|by apply keys_slot|by rewrite Hm|].
  intros k Hk. apply key_add_elem. by left.
Qed.

Lemma simple_gathers i A p : Forall file_name p ->
  gathers i A (fun q => q = p) (_processSimple g (js_join slash p) i).
Proof.
  intros Hp s Hs HA Hi. destruct (decide (p = [])) as [->|Hne].
  - destruct (stat_empty s Hs) as (c & s1 & E & Hs1 & Hq & ->).
    pose proof (quiet_grows i _ _ Hq) as Hg1.
    destruct (touch_matches_grows i s1 Hs1) as (Ht & Hg2 & Hk%keys_slot); [by rewrite (proj1 Hq)|].
    exists (touch_matches i s1). split_and!; [|done|by eapply grows_trans| |by intros q ->].
    + unfold _processSimple. cbn [js_join]. unfold mbind at 1, stM_bind at 1. by rewrite E.
    + intros k. rewrite Hk. unfold keys. rewrite (proj1 Hq). by left.
  - destruct (stat_looks p Hp Hne s Hs) as (c & s1 & E & Hs1 & Hq & Hc1 & Hc2).
    pose proof (quiet_grows i _ _ Hq) as Hg1.
    destruct (touch_matches_grows i s1 Hs1) as (Ht & Hg2 & Hm); [by rewrite (proj1 Hq)|].
    pose proof (keys_slot _ _ _ Hm) as Hk.
    assert (keys i s1 = keys i s) as Ek by (unfold keys; by rewrite (proj1 Hq)).
    assert (path_is_absolute (js_join slash p) = false) as Hrel by by apply join_relative, names_components.
    destruct (is_truthy c) eqn:Ec.
    + destruct (put_match_grows i (js_join slash p) _ _ Ht Hm) as (Hp1 & Hp2 & Hp4%keys_slot).
      exists (put_match i (js_join slash p) (touch_matches i s1)).
      split_and!; [|done|by do 2 (eapply grows_trans; [eassumption|])|..].
      * unfold _processSimple. unfold mbind at 1, stM_bind at 1. rewrite E. cbv beta iota.
        rewrite Ec, Hrel, andb_false_r. done.
      * intros k. rewrite Hp4, key_add_elem, Ek. intros [?| ->]; [by left|right]. exists p. auto.
      * intros q -> _ _. rewrite Hp4. apply key_add_elem. by right.
    + exists (touch_matches i s1). split_and!; [|done|by eapply grows_trans|..].
      * unfold _processSimple. unfold mbind at 1, stM_bind at 1. rewrite E. cbv beta iota. by rewrite Ec.
      * intros k. rewrite Hk, Ek. by left.
      * intros q -> _ Hth. apply Hc2 in Hth. congruence.
Qed.

(** ** A pattern as a walk *)

(** A name a wildcard part sees: one with a leading dot only with the option or
    when the part starts with a dot. *)
Definition sees (raw e : jsstr) : bool :=
  negb (bool_decide (charAt e 0 = dot)) || (g_dot g || bool_decide (charAt raw 0 = dot)).

(** The same for a globstar. *)
Definition walks_into (e : jsstr) : bool := negb (bool_decide (charAt e 0 = dot)) || g_dot g.

(** A globstar that came here does not go on through a symbolic link. *)
Definition blocked (l : list jsstr) (inGlobStar : bool) : Prop :=
  inGlobStar = true /\ g_follow g = false /\
  exists st, lstatSync (dir_name (here l)) = FsOk st /\ isSymbolicLink st = true.

(** From the directory [l] the parts lead down the names [fs]. *)
Inductive expands : list jsstr -> bool -> list part -> list jsstr -> Prop :=
| ex_end l b : expands l b [] []
| ex_lit l b s ps fs : expands (l ++ [s]) b ps fs -> expands l b (Lit s :: ps) (s :: fs)
| ex_re l b r src raw ps es e fs : listing (here l) = Some es -> e ∈ es -> sees raw e = true ->
    regex_test r e = true -> expands (l ++ [e]) b ps fs -> expands l b (Re r src (Some raw) :: ps) (e :: fs)
| ex_none l b ps es fs : listing (here l) = Some es -> expands l false ps fs -> expands l b (GLOBSTAR :: ps) fs
| ex_instead l b ps es e fs : listing (here l) = Some es -> e ∈ es -> walks_into e = true -> ~ blocked l b ->
    expands (l ++ [e]) true ps fs -> expands l b (GLOBSTAR :: ps) (e :: fs)
| ex_below l b ps es e fs : listing (here l) = Some es -> e ∈ es -> walks_into e = true -> ~ blocked l b ->
    expands (l ++ [e]) true (GLOBSTAR :: ps) fs -> expands l b (GLOBSTAR :: ps) (e :: fs).

(** The paths a walk from [l] reaches. *)
Definition reached (l : list jsstr) (b : bool) (ps : list part) (p : list jsstr) : Prop :=
  exists fs, p = l ++ fs /\ expands l b ps fs.

Lemma reached_end l b p : reached l b [] p <-> p = l.
Proof.
  split.
  - intros (fs & -> & He). inversion He; subst. apply app_nil_r.
  - intros ->. exists []. split; [by rewrite app_nil_r|constructor].
Qed.

Lemma reached_lit l b s ps p : reached l b (Lit s :: ps) p <-> reached (l ++ [s]) b ps p.
Proof.
  split.
  - intros (fs & -> & He). inversion He; subst. eexists. split; [|eassumption]. by rewrite <- app_assoc.
  - intros (fs & -> & He). exists (s :: fs). split; [by rewrite <- app_assoc|by constructor].
Qed.

Lemma reached_lits l b ss ps p : reached l b (map Lit ss ++ ps) p <-> reached (l ++ ss) b ps p.
Proof.
  revert l. induction ss as [|s ss IH]; intros l; cbn [map app]; [by rewrite app_nil_r|].
  rewrite reached_lit, IH. by rewrite <- app_assoc.
Qed.

Lemma reached_re l b r src raw ps p es : listing (here l) = Some es ->
  reached l b (Re r src (Some raw) :: ps) p <->
  exists e, e ∈ List.filter (fun e => sees raw e && regex_test r e) es /\ reached (l ++ [e]) b ps p.
Proof.
  intros Hes. split.
  - intros (fs & -> & He). inversion He; subst. exists e. simplify_eq. split.
    + apply list_elem_of_In, filter_In. split; [by apply list_elem_of_In|]. apply andb_true_iff. done.
    + eexists. split; [|eassumption]. by rewrite <- app_assoc.
  - intros (e & He & fs & -> & Hx). apply list_elem_of_In, filter_In in He as [He%list_elem_of_In [H1 H2]%andb_true_iff].
    exists (e :: fs). split; [by rewrite <- app_assoc|by econstructor].
Qed.

Lemma reached_star l b ps p es : listing (here l) = Some es ->
  reached l b (GLOBSTAR :: ps) p <->
  reached l false ps p \/
  (~ blocked l b /\ exists e, e ∈ es /\ walks_into e = true /\
    (reached (l ++ [e]) true ps p \/ reached (l ++ [e]) true (GLOBSTAR :: ps) p)).
Proof.
  intros Hes. split.
  - intros (fs & -> & He). inversion He; subst; simplify_eq.
    + left. by eexists.
    + right. split; [done|]. exists e. split_and!; [done|done|]. left. eexists. split; [|eassumption]. by rewrite <- app_assoc.
    + right. split; [done|]. exists e. split_and!; [done|done|]. right. eexists. split; [|eassumption]. by rewrite <- app_assoc.
  - intros [(fs & -> & Hx)|(Hnb & e & He & Hw & [(fs & -> & Hx)|(fs & -> & Hx)])].
    + exists fs. split; [done|by econstructor].
    + exists (e :: fs). split; [by rewrite <- app_assoc|by eapply ex_instead].
    + exists (e :: fs). split; [by rewrite <- app_assoc|by eapply ex_below].
Qed.

(** *** What [_processReaddir] and [_processGlobStar] collect *)
Lemma dot_ok_raw raw : dot_ok g (Some raw) = Ret (g_dot g || bool_decide (charAt raw 0 = dot)).
Proof. unfold dot_ok. by destruct (g_dot g). Qed.

Lemma entry_hit_sees prefix r raw e :
  entry_hit g prefix r (g_dot g || bool_decide (charAt raw 0 = dot)) e = sees raw e && regex_test r e.
Proof.
  unfold entry_hit, sees. rewrite (ps_negate _ _ Hg). cbn [andb].
  by destruct (negb _ || _).
Qed.

Definition prefix_of_dir (l : list jsstr) : option jsstr :=
  match l with [] => None | _ => Some (js_join slash l) end.

Definition group_of (l : list jsstr) : list (list jsstr) := match l with [] => [] | _ => [l] end.

Lemma prefix_parts_dir l : Forall component l -> prefix_parts (prefix_of_dir l) = map Lit (map (js_join slash) (group_of l)).
Proof.
  intros Hl. destruct l as [|x l]; [done|]. cbn [prefix_of_dir prefix_parts group_of map].
  pose proof (join_nonempty (x :: l) Hl ltac:(done)). by destruct (js_join slash (x :: l)).
Qed.

Lemma match_name_dir l e : Forall component (l ++ [e]) ->
  match_name g (prefix_of_dir l) e = Ret (js_join slash (l ++ [e])).
Proof.
  intros Hle. unfold match_name.
  assert ((match prefix_of_dir l with
           | Some (c :: p) => if ends_in_slash (c :: p) then (c :: p) ++ e else (c :: p) ++ slash ++ e
           | _ => e
           end) = js_join slash (l ++ [e])) as ->.
  { rewrite join_last. destruct l as [|x l]; [done|]. apply Forall_app in Hle as [Hl _].
    cbn [prefix_of_dir]. pose proof (join_nonempty (x :: l) Hl ltac:(done)).
    pose proof (join_end (x :: l) Hl) as He. destruct (js_join slash (x :: l)); [done|].
    rewrite He. by rewrite <- app_assoc. }
  by rewrite (bool_decide_false _ (charAt_join _ Hle)).
Qed.

Lemma gathers_readdir i A P d b f : dir_ok d ->
  (listing d = None -> gathers i A P (f None)) ->
  (forall es, listing d = Some es ->
     gathers i ((if b && negb (g_follow g) then [dir_name d] else []) ++ A) P (f (Some es))) ->
  gathers i A P (_readdir g (dir_name d) b ≫= f).
Proof.
  intros Hd Hnone Hsome. eapply gathers_look; [by apply readdir_looks|]. intros r.
  destruct (decide (r = listing d)) as [->|Hr].
  2: { exists []. split; [intros; constructor|]. by intros (s & ? & _). }
  destruct (listing d) as [es|] eqn:El.
  - exists (if b && negb (g_follow g) then [dir_name d] else []). split; [|intros _; by apply Hsome].
    intros s [_ Hl]. unfold knows. destruct b, (g_follow g); cbn; try by constructor.
    constructor; [|constructor]. by apply Hl.
  - exists []. split; [intros; constructor|]. intros _. by apply Hnone.
Qed.

Lemma put_names i (f : jsstr -> jsstr) es s ks : truthful s -> matches s !! i = Some (Some ks) ->
  let s' := foldl (fun s e => put_match i (f e) s) s es in
  truthful s' /\ grows i s s' /\ forall k, k ∈ keys i s' <-> k ∈ ks \/ exists e, e ∈ es /\ k = f e.
Proof.
  revert s ks. induction es as [|e es IH]; intros s ks Hs Hks; cbn [foldl].
  - split_and!; [done|by apply quiet_grows|]. intros k. rewrite (keys_slot _ _ _ Hks).
    split; [by left|]. intros [?|(e & He%elem_of_nil & _)]; done.
  - destruct (put_match_grows i (f e) ks s Hs Hks) as (H1 & H2 & H3).
    destruct (IH _ _ H1 H3) as (K1 & K2 & K3). split_and!; [done|by eapply grows_trans|].
    intros k. rewrite K3, key_add_elem. setoid_rewrite elem_of_cons. naive_solver.
Qed.

Lemma names_gathers i A l es : Forall (fun e => Forall file_name (l ++ [e]) /\ there (here (l ++ [e]))) es ->
  gathers i A (fun p => exists e, e ∈ es /\ p = l ++ [e])
    (modify_st (touch_matches i) ;;
     iterM (fun e => name ← lift (match_name g (prefix_of_dir l) e); modify_st (put_match i name)) es).
Proof.
  intros Hes s Hs HA Hi. destruct (touch_matches_grows i s Hs Hi) as (Ht & Hg1 & Hm).
  assert (forall s, iterM (fun e => name ← lift (match_name g (prefix_of_dir l) e); modify_st (put_match i name)) es s =
    (foldl (fun s e => put_match i (js_join slash (l ++ [e])) s) s es, Ret tt)) as Hit.
  { clear -Hes. intros s. revert s. induction Hes as [|e es [He _] Hes IH]; intros s; [done|]. cbn [iterM foldl].
    rewrite <- IH. unfold lift. unfold mbind at 1, stM_bind at 1. unfold mbind at 1, stM_bind at 1.
    rewrite match_name_dir by by apply names_components. done. }
  destruct (put_names i (fun e => js_join slash (l ++ [e])) es _ _ Ht Hm) as (K1 & K2 & K3).
  eexists. split_and!; [|exact K1|by eapply grows_trans|..].
  - unfold mbind, stM_bind, modify_st. apply Hit.
  - intros k [?|(e & He & ->)]%K3; [by left|right]. exists (l ++ [e]). split; [by exists e|]. split; [done|].
    left. rewrite Forall_forall in Hes. by apply Hes.
  - intros p (e & He & ->) _ _. apply K3. right. by exists e.
Qed.

(** *** The walk of the search *)
Definition part_ok (p : part) : Prop :=
  match p with Lit s => file_name s | Re _ _ raw => is_Some raw | GLOBSTAR => True | Bad => False end.

Definition magic (ps : list part) : nat := length (List.filter (fun p => negb (is_string p)) ps).

(** Steps that are enough: directories above the bound for each part that is no
    name, and the way down from here. *)
Definition enough (steps : nat) (l : list jsstr) (ps : list part) : Prop :=
  (magic ps * (height + 2) + (height + 1 - length (here l)) < steps)%nat.

(** A pattern with a prefix of joined names. *)
Definition pattern_of (ls : list (list jsstr)) (ps : list part) : list part :=
  map Lit (map (js_join slash) ls) ++ ps.

Definition groups_ok (ls : list (list jsstr)) (l : list jsstr) : Prop :=
  concat ls = l /\ Forall file_name l /\ Forall (fun k => k <> []) ls.

Definition rec_ok (rec : list part -> nat -> bool -> stM store unit) (steps : nat) : Prop :=
  forall i A ls l ps b, groups_ok ls l -> Forall part_ok ps -> enough steps l ps ->
  gathers i A (reached l b ps) (rec (pattern_of ls ps) i b).

Lemma groups_snoc l e : Forall file_name (l ++ [e]) -> groups_ok (group_of l ++ [[e]]) (l ++ [e]).
Proof.
  intros H1. split_and!; [|done|].
  - destruct l; [done|]. cbn. by rewrite ?app_nil_r.
  - destruct l; by repeat constructor.
Qed.

Lemma groups_group l : Forall file_name l -> groups_ok (group_of l) l.
Proof. intros H1. split_and!; [by destruct l; cbn; rewrite ?app_nil_r|done|by destruct l; repeat constructor]. Qed.

Lemma pattern_child l e ps : Forall file_name l ->
  prefix_parts (prefix_of_dir l) ++ Lit e :: ps = pattern_of (group_of l ++ [[e]]) ps.
Proof.
  intros Hl. rewrite prefix_parts_dir by by apply names_components. unfold pattern_of.
  rewrite !map_app, <- app_assoc. done.
Qed.

Lemma entries_ok l es : Forall file_name l -> listing (here l) = Some es ->
  Forall (fun e => Forall file_name (l ++ [e]) /\ there (here (l ++ [e]))) es.
Proof.
  intros Hl Hes. pose proof (here_ok l Hl) as Hd. apply Forall_forall. intros e He.
  assert (lists (here l) es) as Hle.
  { unfold listing, lists in *. destruct (readdirSync _); [|done]. by injection Hes as ->. }
  pose proof (tl_names _ Hfs _ _ Hd Hle) as Hn. rewrite Forall_forall in Hn.
  split; [apply Forall_app; split; [done|by repeat constructor; apply Hn]|].
  rewrite at_dir_snoc. by apply (tl_listed _ Hfs _ es).
Qed.

Lemma enough_rest steps l l' p ps : is_string p = false -> enough (S steps) l (p :: ps) -> enough steps l' ps.
Proof.
  unfold enough, magic. intros Hp. cbn [List.filter]. rewrite Hp. cbn [negb length]. lia.
Qed.

Lemma enough_down steps l e ps es : Forall file_name l -> listing (here l) = Some es ->
  enough (S steps) l ps -> enough steps (l ++ [e]) ps.
Proof.
  intros Hl Hes. unfold enough. rewrite at_dir_snoc. cbn [length].
  assert (length (here l) <= height)%nat; [|lia].
  apply (tl_depth _ Hfs (here l) es); [by apply here_ok|]. unfold listing, lists in *.
  destruct (readdirSync _); [|done]. by injection Hes as ->.
Qed.

Lemma reached_unlisted l b p ps q : listing (here l) = None -> is_string p = false -> reached l b (p :: ps) q <-> False.
Proof.
  intros Hn Hp. split; [|done]. intros (fs & -> & He). inversion He; subst; simplify_eq; done.
Qed.

Lemma children_gather rec steps i A l b ps es : rec_ok rec steps -> Forall file_name l -> Forall part_ok ps ->
  Forall (fun e => Forall file_name (l ++ [e]) /\ enough steps (l ++ [e]) ps) es ->
  gathers i A (fun p => exists e, e ∈ es /\ reached (l ++ [e]) b ps p)
    (iterM (fun e => rec (prefix_parts (prefix_of_dir l) ++ Lit e :: ps) i b) es).
Proof.
  intros Hrec Hl Hps Hes. apply gathers_iter. intros e He. rewrite Forall_forall in Hes. destruct (Hes e He) as [Hn Hen].
  rewrite pattern_child by done. apply Hrec; [by apply groups_snoc|done|done].
Qed.

Lemma processReaddir_gathers rec steps i A l b r src raw rest :
  let remain := Re r src (Some raw) :: rest in
  rec_ok rec steps -> Forall file_name l -> Forall part_ok rest -> enough (S steps) l remain ->
  gathers i A (reached l b remain) (_processReaddir rec g (prefix_of_dir l) (dir_name (here l)) remain i b).
Proof.
  intros remain Hrec Hl Hps Hen. unfold _processReaddir. apply gathers_readdir; [by apply here_ok|..].
  - intros Hn. eapply gathers_iff; [|apply gathers_nothing]. intros p. unfold remain. by rewrite reached_unlisted.
  - intros es Hes. eapply (gathers_weaken i _ A); [set_solver|]. cbn [remain].
    rewrite dot_ok_raw. apply gathers_lift.
    rewrite (List.filter_ext (entry_hit g (prefix_of_dir l) r _) _ (entry_hit_sees _ r raw)).
    set (M := List.filter _ es).
    eapply gathers_iff; [intros p; symmetry; by apply reached_re|]. fold M.
    assert (Forall (fun e => Forall file_name (l ++ [e]) /\ there (here (l ++ [e]))) M) as HM.
    { apply Forall_forall. intros e [He _]%list_elem_of_In%filter_In. pose proof (entries_ok l es Hl Hes) as Hok.
      rewrite Forall_forall in Hok. apply Hok. by apply list_elem_of_In. }
    assert (gathers i A (fun p => exists e, e ∈ M /\ reached (l ++ [e]) b rest p)
      (iterM (fun e => rec (prefix_parts (prefix_of_dir l) ++ Lit e :: rest) i b) M)) as Hch.
    { eapply children_gather; [done..|]. eapply Forall_impl; [exact HM|]. cbn. intros e [He _]. split; [done|].
      by apply (enough_rest steps l _ (Re r src (Some raw))). }
    clearbody M. destruct M as [|e' M'] eqn:EM; [exact Hch|]. rewrite <- EM in *. destruct rest as [|p rest]; [|exact Hch].
    case_match; [|exact Hch].
    eapply gathers_iff; [|by apply names_gathers]. intros q. by setoid_rewrite reached_end.
Qed.

Lemma blocked_spec l b s : dir_ok (here l) -> truthful s ->
  knows (if b && negb (g_follow g) then [dir_name (here l)] else []) s ->
  default false (symlinks s !! dir_name (here l)) && b = true <-> blocked l b.
Proof.
  intros Hd Hs Hk. unfold blocked. destruct b; [|rewrite andb_false_r; naive_solver]. rewrite andb_true_r.
  destruct (g_follow g) eqn:Ef.
  - rewrite (tr_follow s Hs Ef), lookup_empty. cbn. naive_solver.
  - cbn [andb negb] in Hk. apply Forall_cons in Hk as [[v Hv] _]. rewrite Hv. cbn [default].
    destruct (tr_links s Hs _ _ Hd Hv) as (st & Hst & <-). rewrite Hst. naive_solver.
Qed.

Lemma gathers_get i A P (f : store -> stM store unit) :
  (forall s, truthful s -> knows A s -> exists m, (forall s', truthful s' -> knows A s' -> f s' s' = m s') /\ gathers i A P m) ->
  gathers i A P (get_st ≫= f).
Proof.
  intros Hf s Hs HA Hi. destruct (Hf s Hs HA) as (m & Em & Hm). destruct (Hm s Hs HA Hi) as (s' & E & Hr).
  exists s'. split; [|done]. unfold mbind, stM_bind, get_st. by rewrite Em.
Qed.

Lemma processGlobStar_gathers rec steps i A l b rest : let remain := GLOBSTAR :: rest in
  rec_ok rec steps -> Forall file_name l -> Forall part_ok rest -> enough (S steps) l remain ->
  gathers i A (reached l b remain) (_processGlobStar rec g (prefix_of_dir l) (dir_name (here l)) remain i b).
Proof.
  intros remain Hrec Hl Hps Hen. unfold _processGlobStar. pose proof (here_ok l Hl) as Hd.
  apply gathers_readdir; [done|..].
  { intros Hn. eapply gathers_iff; [|apply gathers_nothing]. intros p. unfold remain. by rewrite reached_unlisted. }
  intros es Hes. set (B := if b && negb (g_follow g) then _ else _).
  eapply gathers_iff; [intros p; symmetry; by apply reached_star|]. cbn [remain tail].
  apply gathers_seq.
  { rewrite prefix_parts_dir by by apply names_components. apply Hrec; [by apply groups_group|done|].
    by apply (enough_rest steps l _ GLOBSTAR). }
  apply gathers_get. intros s Hs HA.
  assert (forall s', truthful s' -> knows (B ++ A) s' ->
    (default false (symlinks s' !! dir_name (here l)) && b = true <-> blocked l b)) as Hbl.
  { intros s' Hs' [HB _]%Forall_app. by apply blocked_spec. }
  destruct (default false (symlinks s !! dir_name (here l)) && b) eqn:Eb.
  - exists (mret tt : stM store unit). split.
    + intros s' Hs' HA'. by rewrite (proj2 (Hbl s' Hs' HA') (proj1 (Hbl s Hs HA) Eb)).
    + eapply gathers_iff; [|apply gathers_nothing]. apply Hbl in Eb; [|done..]. naive_solver.
  - assert (~ blocked l b) as Hnb by (intros Hx; apply (Hbl s Hs HA) in Hx; congruence).
    exists (iterM (fun e =>
        if bool_decide (charAt e 0 = dot) && negb (g_dot g) then mret tt else
        rec (prefix_parts (prefix_of_dir l) ++ Lit e :: rest) i true ;;
        rec (prefix_parts (prefix_of_dir l) ++ Lit e :: remain) i true) es). split.
    + intros s' Hs' HA'. destruct (default false (symlinks s' !! dir_name (here l)) && b) eqn:E; [by apply Hbl in E|].
      reflexivity.
    + eapply gathers_iff; [|apply (gathers_iter i (B ++ A) (fun e p => walks_into e = true /\
        (reached (l ++ [e]) true rest p \/ reached (l ++ [e]) true remain p)))]; [naive_solver|].
      intros e He. pose proof (entries_ok l es Hl Hes) as Hok. rewrite Forall_forall in Hok. destruct (Hok e He) as [Hn _].
      unfold walks_into. destruct (bool_decide (charAt e 0 = dot) && negb (g_dot g)) eqn:Ed.
      * eapply gathers_iff; [|apply gathers_nothing]. intros p. destruct (bool_decide _), (g_dot g); naive_solver.
      * eapply gathers_iff; [|apply gathers_seq;
          [rewrite pattern_child by done; apply Hrec; [by apply groups_snoc|done|by apply (enough_rest steps l _ GLOBSTAR)]|
           rewrite (pattern_child l e remain) by done; apply Hrec;
             [by apply groups_snoc|by constructor|by eapply enough_down]]].
        intros p. destruct (bool_decide _), (g_dot g); naive_solver.
Qed.

(** *** [_process] *)
Context (toLowerCase : jsstr -> jsstr).

Lemma leading_split ps : ps = map Lit (leading ps) ++ drop (length (leading ps)) ps /\
  leading (drop (length (leading ps)) ps) = [].
Proof.
  induction ps as [|p ps [IH1 IH2]]; [done|]. destruct p as [|s|r src raw|]; try done.
  cbn [leading length drop map app]. split; [by rewrite <- IH1|done].
Qed.

Lemma leading_app ss ps : leading (map Lit ss ++ ps) = ss ++ leading ps.
Proof. induction ss as [|s ss IH]; [done|]. cbn [map app leading]. by rewrite IH. Qed.

Lemma magic_lits ss ps : magic (map Lit ss ++ ps) = magic ps.
Proof. unfold magic. induction ss as [|s ss IH]; [done|]. cbn [map app List.filter is_string negb]. exact IH. Qed.

Lemma join_singles ss : map (js_join slash) (map (fun s => [s]) ss) = ss.
Proof. induction ss as [|s ss IH]; [done|]. cbn [map]. by rewrite IH. Qed.

Lemma concat_singles {X} (ss : list X) : concat (map (fun s => [s]) ss) = ss.
Proof. induction ss as [|s ss IH]; [done|]. cbn [map concat]. by rewrite IH. Qed.

(** The prefix the method computes is the directory reached so far. *)
Lemma prefix_of_groups ls l ps : groups_ok ls l ->
  match match map (js_join slash) ls with [] => None | _ => Some (js_join slash (map (js_join slash) ls)) end with
  | None => None
  | Some p => if path_is_absolute p || joined_absolute (pattern_of ls ps) then
                Some (if negb (truthy p) || negb (path_is_absolute p) then slash ++ p else p)
              else Some p
  end = prefix_of_dir l.
Proof.
  intros (<- & Hl & Hne). destruct Hne as [|k ls Hk Hne]; [done|]. cbn [map].
  change (js_join slash k :: map (js_join slash) ls) with (map (js_join slash) (k :: ls)).
  rewrite join_groups by by constructor. pose proof (names_components _ Hl) as Hc. cbn [concat] in *.
  rewrite join_relative by done. apply Forall_app in Hc as [Hck _].
  assert (joined_absolute (pattern_of (k :: ls) ps) = false) as ->.
  { unfold pattern_of. cbn [map app joined_absolute]. pose proof (join_nonempty k Hck Hk) as Hjk.
    pose proof (join_relative k Hck). by destruct (js_join slash k). }
  cbn [orb]. by destruct k.
Qed.

Lemma makeAbs_read l : Forall file_name l -> makeAbs g (default dot (prefix_of_dir l)) = Ret (dir_name (here l)).
Proof.
  intros Hl. destruct l as [|x l]; [apply makeAbs_dot|]. cbn [prefix_of_dir default]. by apply makeAbs_join.
Qed.

Lemma process_step steps i A ls l ps b : rec_ok (_process toLowerCase steps g) steps -> groups_ok ls l ->
  Forall part_ok ps -> leading ps = [] -> enough (S steps) l ps ->
  gathers i A (reached l b ps) (_process toLowerCase (S steps) g (pattern_of ls ps) i b).
Proof.
  intros Hrec Hls Hps Hlead Hen. cbn [_process].
  assert (leading (pattern_of ls ps) = map (js_join slash) ls) as ->.
  { unfold pattern_of. by rewrite leading_app, Hlead, app_nil_r. }
  assert (drop (length (map (js_join slash) ls)) (pattern_of ls ps) = ps) as ->.
  { unfold pattern_of. rewrite <- (length_map Lit). apply drop_app_length. }
  destruct ps as [|pn rest].
  - destruct Hls as (<- & Hl & Hne). rewrite join_groups by done.
    eapply gathers_iff; [|by apply simple_gathers]. intros p. by rewrite reached_end.
  - cbv zeta. rewrite (prefix_of_groups ls l) by done. destruct Hls as (_ & Hl & _).
    rewrite makeAbs_read by done. apply gathers_lift.
    assert (childrenIgnored toLowerCase g (default dot (prefix_of_dir l)) = Ret false) as ->.
    { unfold childrenIgnored. by rewrite (ps_ignore _ _ Hg). }
    apply gathers_lift. apply Forall_cons in Hps as [Hpn Hps].
    destruct pn as [|s|r src [raw|]|]; [|done| |by destruct Hpn|done].
    + by eapply processGlobStar_gathers.
    + by eapply processReaddir_gathers.
Qed.

Lemma process_ok steps : rec_ok (_process toLowerCase steps g) steps.
Proof.
  induction steps as [|steps IH]; intros i A ls l ps b Hls Hps Hen; [unfold enough in Hen; lia|].
  destruct (leading_split ps) as [E Hlead]. revert E Hlead.
  generalize (leading ps) as ss. intros ss. generalize (drop (length ss) ps) as rest. intros rest -> Hlead.
  apply Forall_app in Hps as [Hss Hrest]. assert (Forall file_name ss) as Hfn by exact (proj1 (Forall_map _ _ _) Hss).
  assert (pattern_of ls (map Lit ss ++ rest) = pattern_of (ls ++ map (fun s => [s]) ss) rest) as ->.
  { unfold pattern_of. by rewrite !map_app, join_singles, <- app_assoc. }
  eapply gathers_iff; [intros p; symmetry; apply reached_lits|].
  destruct Hls as (Hc & Hl & Hne). apply process_step; [done| |done|done|].
  - split_and!; [by rewrite concat_app, concat_singles, Hc|by apply Forall_app|].
    apply Forall_app. split; [done|]. apply Forall_map, Forall_true. done.
  - unfold enough in *. rewrite magic_lits in Hen. rewrite !at_dir_length in *. rewrite length_app. lia.
Qed.

(** ** The walk is the reading of the pattern *)
Lemma lists_listing d es : lists d es <-> listing d = Some es.
Proof.
  unfold lists, listing. destruct (readdirSync (dir_name d)); split; intros E; try done; [by injection E as ->|by injection E as ->].
Qed.

Lemma there_parent l e : Forall file_name (l ++ [e]) -> there (here (l ++ [e])) ->
  exists es, listing (here l) = Some es /\ e ∈ es.
Proof.
  intros Hn Ht. rewrite at_dir_snoc in Ht. pose proof (here_ok _ Hn) as Hd. rewrite at_dir_snoc in Hd.
  destruct (tl_parent _ Hfs _ _ Hd Ht) as (es & Hes & He). exists es. by rewrite <- lists_listing.
Qed.

Lemma there_prefix l fs : Forall file_name (l ++ fs) -> there (here (l ++ fs)) -> there (here l).
Proof.
  induction fs as [|e fs IH] using rev_ind; intros Hn Ht; [by rewrite app_nil_r in Ht|].
  rewrite app_assoc in Hn, Ht. destruct (there_parent _ _ Hn Ht) as (es & Hes & _).
  apply Forall_app in Hn as [Hn _]. apply IH; [done|]. eapply listing_there; [by apply here_ok|exact Hes].
Qed.

Lemma there_listed l e fs : Forall file_name (l ++ e :: fs) -> there (here (l ++ e :: fs)) ->
  exists es, listing (here l) = Some es /\ e ∈ es.
Proof.
  intros Hn Ht. apply there_parent.
  - apply Forall_app in Hn as [Hl Hf]. apply Forall_cons in Hf as [He _]. apply Forall_app. by split; [|repeat constructor; apply He].
  - apply (there_prefix _ fs); by rewrite <- app_assoc.
Qed.

(** Patterns that do not end in a globstar. *)
Definition closed (ps : list part) : Prop := last ps <> Some GLOBSTAR.

Lemma closed_cons p ps : closed (p :: ps) -> (ps = [] /\ p <> GLOBSTAR) \/ (ps <> [] /\ closed ps).
Proof.
  unfold closed. intros Hc. destruct ps as [|q ps]; [left; split; [done|]|by right]. intros ->. by apply Hc.
Qed.

Lemma closed_tail p ps : closed (p :: ps) -> closed ps.
Proof. intros [[-> _]|[_ ?]]%closed_cons; done. Qed.

Lemma closed_star ps : closed (GLOBSTAR :: ps) -> ps <> [] /\ closed ps.
Proof. intros [[_ ?]|?]%closed_cons; done. Qed.

Lemma listing_names l es e : Forall file_name l -> listing (here l) = Some es -> e ∈ es -> Forall file_name (l ++ [e]).
Proof.
  intros Hl Hes He. pose proof (entries_ok l es Hl Hes) as Hok. rewrite Forall_forall in Hok. by apply Hok.
Qed.

Lemma expands_names l b ps fs : Forall part_ok ps -> Forall file_name l -> expands l b ps fs -> Forall file_name (l ++ fs).
Proof.
  intros Hps Hl He. induction He as [l b|l b s ps fs _ IH|l b r src raw ps es e fs Hes He _ _ _ IH|l b ps es fs _ _ IH|
    l b ps es e fs Hes He _ _ _ IH|l b ps es e fs Hes He _ _ _ IH].
  - by rewrite app_nil_r.
  - apply Forall_cons in Hps as [Hs Hps]. rewrite cons_middle, app_assoc. apply IH; [done|].
    apply Forall_app. split; [done|by repeat constructor; apply Hs].
  - apply Forall_cons in Hps as [_ Hps]. rewrite cons_middle, app_assoc. apply IH; [done|by eapply listing_names].
  - apply Forall_cons in Hps as [_ Hps]. by apply IH.
  - apply Forall_cons in Hps as [_ Hps]. rewrite cons_middle, app_assoc. apply IH; [done|by eapply listing_names].
  - rewrite cons_middle, app_assoc. apply IH; [done|by eapply listing_names].
Qed.

Lemma expands_some l b ps fs : expands l b ps fs -> closed ps -> ps <> [] -> fs <> [].
Proof.
  intros He. induction He as [| | |l b ps es fs _ _ IH| |]; intros Hc Hne; try done.
  apply closed_star in Hc as [Hp Hc]. auto.
Qed.

Section reading.
Context (o : options) (Hdot : opt o "dot" = g_dot g) (Hcase : opt o "nocase" = false).

Lemma swallow_walks e : file_name e -> swallowable o e = walks_into e.
Proof.
  intros [_ [H1 H2]]. unfold swallowable, walks_into. rewrite Hdot.
  rewrite (bool_decide_false (e = js ".")), (bool_decide_false (e = js "..")) by done. cbn [orb].
  change (js ".") with dot. by destruct (g_dot g), (bool_decide _).
Qed.

Lemma globs_star_more ps e fs : ps <> [] -> swallowable o e = true -> part_globs toLowerCase o (GLOBSTAR :: ps) fs ->
  part_globs toLowerCase o (GLOBSTAR :: ps) (e :: fs).
Proof.
  intros Hne He Hg1. inversion Hg1; subst; try done.
  change (e :: run ++ fs0) with ((e :: run) ++ fs0). constructor; [done|done|by constructor|done].
Qed.

Lemma expands_globs l b ps fs : Forall part_ok ps -> Forall file_name l -> closed ps -> expands l b ps fs ->
  part_globs toLowerCase o ps fs.
Proof.
  intros Hps Hl Hc He. induction He as [l b|l b s ps fs _ IH|l b r src raw ps es e fs Hes He Hs Hr _ IH|l b ps es fs Hes Hx IH|
    l b ps es e fs Hes He Hw _ Hx IH|l b ps es e fs Hes He Hw _ Hx IH].
  - constructor.
  - apply Forall_cons in Hps as [Hs Hps]. constructor; [cbn; rewrite Hcase; by apply bool_decide_eq_true|].
    apply IH; [done| |by eapply closed_tail]. apply Forall_app. split; [done|by repeat constructor; apply Hs].
  - apply Forall_cons in Hps as [_ Hps]. constructor; [done|]. apply IH; [done|by eapply listing_names|by eapply closed_tail].
  - apply Forall_cons in Hps as [_ Hps]. apply closed_star in Hc as [Hne Hc].
    apply (globs_star GLOBSTAR _ _ ps []); [done|by eapply expands_some|constructor|by apply IH].
  - apply Forall_cons in Hps as [_ Hps]. apply closed_star in Hc as [Hne Hc].
    pose proof (listing_names l es e Hl Hes He) as Hn.
    apply (globs_star GLOBSTAR _ _ ps [e]); [done|by eapply expands_some| |by apply IH].
    repeat constructor. apply Forall_app in Hn as [_ Hn]. apply Forall_cons in Hn as [Hn _]. by rewrite swallow_walks.
  - pose proof (closed_star _ Hc) as [Hne _]. pose proof (listing_names l es e Hl Hes He) as Hn.
    apply globs_star_more; [done| |by apply IH]. apply Forall_app in Hn as [_ Hn]. apply Forall_cons in Hn as [Hn _].
    by rewrite swallow_walks.
Qed.

(** A part whose expression sees the leading dots it asks for. *)
Definition dot_true (p : part) : Prop :=
  match p with Re r _ (Some raw) => forall e, chr "/" ∉ e -> regex_test r e = true -> sees raw e = true | _ => True end.

Context (Hnl : no_links).

Lemma not_blocked l b : Forall file_name l -> ~ blocked l b.
Proof. intros Hl (_ & _ & st & Hst & Hk). rewrite (Hnl _ st (here_ok l Hl) Hst) in Hk. done. Qed.

Lemma names_cons l e fs : Forall file_name (l ++ e :: fs) -> Forall file_name l /\ file_name e /\ Forall file_name ((l ++ [e]) ++ fs).
Proof. intros Hn. rewrite <- app_assoc. split; [|split; [|done]]; apply Forall_app in Hn as [Hl Hn]; [done|]. by apply Forall_cons in Hn as [? _]. Qed.

Lemma run_expands l b ps run fs : fs <> [] -> Forall (fun f => swallowable o f = true) run ->
  Forall file_name (l ++ run ++ fs) -> there (here (l ++ run ++ fs)) ->
  (forall l b, Forall file_name (l ++ fs) -> there (here (l ++ fs)) -> expands l b ps fs) ->
  expands l b (GLOBSTAR :: ps) (run ++ fs).
Proof.
  intros Hne Hrun Hn Ht Hps. revert l b Hn Ht. induction Hrun as [|e run He Hrun IH]; intros l b Hn Ht; cbn [app] in *.
  - destruct fs as [|f fs]; [done|]. destruct (there_listed _ _ _ Hn Ht) as (es & Hes & _).
    eapply ex_none; [exact Hes|by apply Hps].
  - destruct (there_listed _ _ _ Hn Ht) as (es & Hes & Hi). apply names_cons in Hn as (Hl & Hf & Hn).
    eapply ex_below; [exact Hes|done|by rewrite <- swallow_walks|by apply not_blocked|].
    apply IH; [done|]. by rewrite <- app_assoc.
Qed.

Lemma globs_expands ps fs : part_globs toLowerCase o ps fs -> Forall part_ok ps -> Forall dot_true ps -> closed ps ->
  forall l b, Forall file_name (l ++ fs) -> there (here (l ++ fs)) -> expands l b ps fs.
Proof.
  intros Hglob. induction Hglob as [| |p f ps fs Hh _ IH|fs Hne HF|ps run fs Hp Hf HF _ IH]; intros Hps Hdt Hc l b Hn Ht.
  - constructor.
  - apply Forall_app in Hn as [_ Hn]. apply Forall_cons in Hn as [[[Hn _] _] _]. done.
  - apply Forall_cons in Hps as [Hp Hps]. apply Forall_cons in Hdt as [Hd Hdt]. apply closed_tail in Hc.
    destruct (there_listed _ _ _ Hn Ht) as (es & Hes & Hi). apply names_cons in Hn as (Hl & Hfn & Hn).
    rewrite cons_middle, app_assoc in Ht. specialize (IH Hps Hdt Hc (l ++ [f]) b Hn Ht).
    destruct p as [|s|r src [raw|]|]; try done.
    + cbn in Hh. rewrite Hcase in Hh. apply bool_decide_eq_true in Hh as ->. by constructor.
    + econstructor; [exact Hes|done| |done|done]. apply Hd; [|done]. destruct Hfn as [[_ Hsl] _]. exact Hsl.
    + by destruct Hp.
  - by destruct (closed_star _ Hc).
  - apply Forall_cons in Hps as [_ Hps]. apply Forall_cons in Hdt as [_ Hdt]. apply closed_star in Hc as [_ Hc].
    apply run_expands; [done..|]. intros l' b' Hn' Ht'. by apply IH.
Qed.
End reading.
End exact.
