(* ===== verification/GlobTree.v ===== *)
(** * File systems that are finite trees

    A concrete file system for the glob theorems: directories and regular files,
    with the error codes of a POSIX system.  [tree_fs_ok] shows that every such tree
    keeps the promises [GlobExact] asks for, so they can be kept; [bundle_fs] is the
    file system of the bundle, an empty module whose functions are missing. *)
From S2P Require Import Prelude JsString PathModule GlobCommon GlobSync GlobExact.

Inductive node : Type :=
| NFile
| NDir (entries : list (jsstr * node)).

Definition enoent : fs_error := FsError (Some "ENOENT"%string) (Some "stat"%string).
Definition enotdir : fs_error := FsError (Some "ENOTDIR"%string) (Some "stat"%string).

Fixpoint assoc (x : jsstr) (es : list (jsstr * node)) : option node :=
  match es with
  | [] => None
  | (k, n) :: es => if decide (k = x) then Some n else assoc x es
  end.

(** The node a path leads to. *)
Fixpoint find (p : list jsstr) (n : node) : fs_result node :=
  match p with
  | [] => FsOk n
  | x :: p =>
      match n with
      | NFile => FsErr enotdir
      | NDir es => match assoc x es with Some m => find p m | None => FsErr enoent end
      end
  end.

Definition resolve_node (root : node) (a : jsstr) : fs_result node :=
  if isAbsolute a then find (path_parts a) root else FsErr enoent.

Definition node_stats (n : node) : stats := match n with NFile => Stats false false | NDir _ => Stats true false end.

Definition tree_stat (root : node) (a : jsstr) : fs_result stats :=
  match resolve_node root a with FsOk n => FsOk (node_stats n) | FsErr er => FsErr er end.

Definition tree_fs (root : node) : FileSystem := {|
  readdirSync a := match resolve_node root a with
                   | FsOk (NDir es) => FsOk (map fst es)
                   | FsOk NFile => FsErr enotdir
                   | FsErr er => FsErr er
                   end;
  lstatSync := tree_stat root;
  statSync := tree_stat root;
  realpathSync a := match resolve_node root a with FsOk _ => FsOk a | FsErr er => FsErr er end |}.

(** Module 12 of the bundle is an empty object: every call throws a TypeError, which
    has no code. *)
Definition missing_function : fs_error := FsError None None.
Definition bundle_fs : FileSystem := {|
  readdirSync _ := FsErr missing_function;
  lstatSync _ := FsErr missing_function;
  statSync _ := FsErr missing_function;
  realpathSync _ := FsErr missing_function |}.

(** ** Trees keep the promises *)

(** Names of entries are names, and different. *)
Fixpoint node_ok (n : node) : Prop :=
  match n with
  | NFile => True
  | NDir es =>
      NoDup (map fst es) /\
      (fix all (es : list (jsstr * node)) : Prop :=
         match es with [] => True | (k, m) :: es => file_name k /\ node_ok m /\ all es end) es
  end.

Fixpoint node_height (n : node) : nat :=
  match n with
  | NFile => 0
  | NDir es =>
      S ((fix most (es : list (jsstr * node)) : nat :=
            match es with [] => 0 | (_, m) :: es => Nat.max (node_height m) (most es) end) es)
  end%nat.

Lemma assoc_elem x es m : assoc x es = Some m -> x ∈ map fst es.
Proof.
  induction es as [|[k n] es IH]; cbn [assoc map fst]; [done|]. case_decide as E; [subst; left|right; auto].
Qed.

Lemma elem_assoc x es : x ∈ map fst es -> exists m, assoc x es = Some m.
Proof.
  induction es as [|[k n] es IH]; cbn [assoc map fst]; [by intros ?%elem_of_nil|].
  intros [->|Hx]%elem_of_cons; case_decide; try done; eauto.
Qed.

Lemma node_ok_child x es m : node_ok (NDir es) -> assoc x es = Some m -> node_ok m.
Proof.
  intros [_ Hall]. induction es as [|[k n] es IH]; cbn [assoc]; [done|]. destruct Hall as (_ & Hn & Hall).
  case_decide; [by intros [= <-]|auto].
Qed.

Lemma node_ok_names es : node_ok (NDir es) -> Forall file_name (map fst es).
Proof.
  intros [_ Hall]. induction es as [|[k n] es IH]; [constructor|]. destruct Hall as (Hk & _ & Hall).
  constructor; [done|auto].
Qed.

Lemma height_child x es m : assoc x es = Some m -> (node_height m < node_height (NDir es))%nat.
Proof.
  cbn [node_height]. induction es as [|[k n] es IH]; cbn [assoc]; [done|]. case_decide; [intros [= <-]; lia|].
  intros Hm%IH. lia.
Qed.

Lemma find_ok p n m : node_ok n -> find p n = FsOk m -> node_ok m /\ (length p + node_height m <= node_height n)%nat.
Proof.
  revert n. induction p as [|x p IH]; intros n Hn; cbn [find]; [intros [= <-]; cbn; split; [done|lia]|].
  destruct n as [|es]; [done|]. destruct (assoc x es) as [k|] eqn:E; [|done]. intros Hf.
  destruct (IH k (node_ok_child x es k Hn E) Hf). split; [done|]. pose proof (height_child _ _ _ E). cbn [length]. lia.
Qed.

Lemma find_snoc p x n : find (p ++ [x]) n = match find p n with FsOk m => find [x] m | FsErr er => FsErr er end.
Proof.
  revert n. induction p as [|y p IH]; intros n; [done|]. cbn [app find]. destruct n as [|es]; [done|].
  by destruct (assoc y es).
Qed.

Lemma find_code p n er : find p n = FsErr er -> er = enoent \/ er = enotdir.
Proof.
  revert n. induction p as [|y p IH]; intros n; [done|]. cbn [find]. destruct n as [|es].
  - intros [= <-]. by right.
  - destruct (assoc y es); [apply IH|]. intros [= <-]. by left.
Qed.

Section tree.
Context (root : node) (Hroot : node_ok root).
#[local] Existing Instance tree_fs.

Lemma resolve_dir d : dir_ok d -> resolve_node root (dir_name d) = find (reverse d) root.
Proof.
  intros [_ Hc]. unfold resolve_node, dir_name. change (isAbsolute (slash ++ _)) with true. cbv iota.
  by rewrite path_parts_slash, path_parts_join by by apply Forall_reverse.
Qed.

Lemma there_node d : dir_ok d -> there (H := tree_fs root) d <-> exists n, find (reverse d) root = FsOk n.
Proof.
  intros Hd. unfold there. cbn [lstatSync tree_fs]. unfold tree_stat. rewrite resolve_dir by done.
  destruct (find (reverse d) root); split; intros [? E]; try done; by eexists.
Qed.

Lemma lists_node d es : dir_ok d -> lists (H := tree_fs root) d es ->
  exists es', find (reverse d) root = FsOk (NDir es') /\ es = map fst es'.
Proof.
  intros Hd. unfold lists. cbn [readdirSync tree_fs]. rewrite resolve_dir by done.
  destruct (find (reverse d) root) as [[|es']|]; intros E; try done. injection E as <-. by eexists.
Qed.

Lemma unreadable_node d er : dir_ok d -> readdirSync (FileSystem := tree_fs root) (dir_name d) = FsErr er ->
  er = enotdir \/ (er = enoent /\ find (reverse d) root = FsErr er).
Proof.
  intros Hd. cbn [readdirSync tree_fs]. rewrite resolve_dir by done.
  destruct (find (reverse d) root) as [[|es']|] eqn:E; intros [= <-]; [by left|].
  destruct (find_code _ _ _ E) as [->| ->]; [by right|by left].
Qed.

Lemma tree_fs_ok : tree_like (H := tree_fs root) (node_height root).
Proof.
  split.
  - intros d es Hd (es' & E & ->)%lists_node; [|done]. apply node_ok_names.
    by destruct (find_ok _ _ _ Hroot E).
  - intros d es e Hd (es' & E & ->)%lists_node He; [|done].
    assert (dir_ok (e :: d)) as Hed.
    { destruct (find_ok _ _ _ Hroot E) as [Hk%node_ok_names _]. rewrite Forall_forall in Hk.
      destruct (Hk e He), Hd. split; by constructor. }
    apply there_node; [done|]. rewrite reverse_cons, find_snoc, E. cbn [find].
    destruct (elem_assoc _ _ He) as [m ->]. by exists m.
  - intros d e Hed [n E]%there_node; [|done]. rewrite reverse_cons, find_snoc in E.
    assert (dir_ok d) as Hd by (destruct Hed as [[_ ?]%Forall_cons [_ ?]%Forall_cons]; by split).
    destruct (find (reverse d) root) as [[|es]|] eqn:Ef; try done. cbn [find] in E.
    destruct (assoc e es) as [m|] eqn:Ea; [|done]. exists (map fst es). split; [|by eapply assoc_elem].
    unfold lists. cbn [readdirSync tree_fs]. by rewrite resolve_dir, Ef.
  - intros d es Hd (es' & E & ->)%lists_node; [|done]. exists (Stats true false). split; [|done].
    cbn [lstatSync tree_fs]. unfold tree_stat. by rewrite resolve_dir, E.
  - intros d es Hd (es' & E & ->)%lists_node; [|done]. exists (Stats true false). split; [|done].
    cbn [statSync tree_fs]. unfold tree_stat. by rewrite resolve_dir, E.
  - intros d er Hd [->|[-> _]]%unreadable_node; [..|done]; apply (bool_decide_unpack _); vm_compute; exact I.
  - intros d er Hd [->|[-> E]]%unreadable_node Hm; [..|done]; [by apply (bool_decide_eq_true_2 (_ ∈ _)) in Hm; vm_compute in Hm|].
    intros [n En]%there_node; congruence.
  - intros d es Hd (es' & E & ->)%lists_node; [|done]. destruct (find_ok _ _ _ Hroot E) as [_ Hh].
    rewrite length_reverse in Hh. lia.
  - by exists enoent.
Qed.

Lemma tree_fs_plain : no_links (H := tree_fs root).
Proof.
  intros d st Hd. cbn [lstatSync tree_fs]. unfold tree_stat. destruct (resolve_node root (dir_name d)) as [[]|]; [..|done];
    by intros [= <-].
Qed.
End tree.
