(* ===== verification/GlobSearch.v ===== *)
(** * File globs: what [glob.sync] returns

    The public entry of [GlobSync] on patterns written from segments: it returns
    the existing paths the pattern matches in the sense of [minimatch], whatever
    the tree, the working directory and the locale.  Then the errors: unreadable
    directories, missing files, the bundle without a file system; and concrete runs
    that show where the search departs from its contract. *)
From stdpp Require Import gmap.
From S2P Require Import Prelude JsString JsArray JsState JsRegex PathModule BraceExpansion MinimatchParse Minimatch GlobCommon GlobSync GlobExact GlobTree.

(** ** Sorting and key sets *)
Lemma filter_partition {A} (f : A -> bool) l : List.filter f l ++ List.filter (fun x => negb (f x)) l ≡ₚ l.
Proof.
  induction l as [|x l IH]; [done|]. cbn [List.filter]. destruct (f x); cbn [negb app]; [by rewrite IH|].
  by rewrite <- Permutation_middle, IH.
Qed.

Lemma object_keys_perm s : object_keys s ≡ₚ s.
Proof. unfold object_keys. by rewrite sort_by_perm, filter_partition. Qed.

Lemma add_found_elem nou all m k : k ∈ add_found nou all m <-> k ∈ all \/ k ∈ m.
Proof.
  unfold add_found. destruct nou; [apply elem_of_app|]. revert all.
  induction m as [|x m IH]; intros all; cbn [foldl].
  - split; [by left|]. by intros [?|?%elem_of_nil].
  - rewrite IH, key_add_elem, elem_of_cons. tauto.
Qed.

Section found.
Context (toLowerCase : jsstr -> jsstr) (localeCompare : jsstr -> jsstr -> Z) (g : settings).

Lemma gather_elem ms k : g_nonull g = false -> k ∈ gather g ms <-> exists ks, Some ks ∈ ms /\ k ∈ ks.
Proof.
  clear toLowerCase localeCompare. intros Hn. unfold gather. rewrite Hn.
  assert (forall (f : nat -> nat) acc, k ∈ foldl (fun all '(i, m) =>
      match m with
      | Some (k :: ks) => add_found (g_nounique g) all (object_keys (k :: ks))
      | _ => all
      end) acc (imap (fun i m => (f i, m)) ms) <-> k ∈ acc \/ exists ks, Some ks ∈ ms /\ k ∈ ks) as Hk.
  { induction ms as [|m ms IH]; intros f acc; cbn [imap foldl].
    - split; [by left|]. by intros [?|(ks & ?%elem_of_nil & _)].
    - rewrite (IH (f ∘ S)). setoid_rewrite elem_of_cons. destruct m as [[|x ks]|].
      + split; [naive_solver|]. intros [?|(ks & [[= ->]|?] & Hi)]; [by left|by apply elem_of_nil in Hi|right; eauto].
      + rewrite add_found_elem, object_keys_perm. naive_solver.
      + naive_solver. }
  pose proof (Hk (fun i => i) []) as Hall. rewrite elem_of_nil in Hall.
  destruct (g_nounique g); [|rewrite object_keys_perm]; (etransitivity; [exact Hall|naive_solver]).
Qed.

Lemma key_add_nodup k s : NoDup s -> NoDup (key_add k s).
Proof.
  intros Hs. unfold key_add. case_bool_decide as Hk; [done|]. apply NoDup_app. split_and!; [done| |apply NoDup_singleton].
  intros x Hx ->%list_elem_of_singleton. done.
Qed.

Lemma gather_nodup ms : g_nounique g = false -> NoDup (gather g ms).
Proof.
  intros Hn. unfold gather. rewrite Hn, object_keys_perm.
  assert (forall l acc, NoDup acc -> NoDup (add_found false acc l)) as Hadd.
  { intros l. unfold add_found. induction l as [|x l IH]; intros acc Ha; cbn [foldl]; [done|]. by apply IH, key_add_nodup. }
  match goal with |- NoDup (foldl ?f _ _) => cut (forall l acc, NoDup acc -> NoDup (foldl f acc l)) end.
  { intros Hc. apply Hc. constructor. }
  induction l as [|[i m] l IH]; intros acc Ha; cbn [foldl]; [done|]. apply IH.
  repeat case_match; try done; by apply Hadd.
Qed.

Lemma keys_gather s k : g_nonull g = false -> length (matches s) = 1%nat -> k ∈ gather g (matches s) <-> k ∈ keys 0 s.
Proof.
  clear toLowerCase localeCompare. intros Hn Hl. rewrite gather_elem by done. unfold keys. destruct (matches s) as [|m [|]] eqn:Em; try done.
  cbn. setoid_rewrite list_elem_of_singleton. destruct m as [ks|]; cbn; [|rewrite elem_of_nil]; naive_solver.
Qed.

(** Without marks and ignored paths the result is the collected keys, sorted. *)
Lemma finish_found s : g_mark g = false -> g_ignore g = [] ->
  exists found, finish toLowerCase localeCompare g s = (s, Ret found) /\ found ≡ₚ gather g (matches s) /\
    (g_nosort g = false -> found = sort_by (if g_nocase g then alphasorti toLowerCase localeCompare
                                           else alphasort localeCompare) (gather g (matches s))).
Proof.
  intros Hm Hi. unfold finish. rewrite Hm, Hi. eexists. split; [reflexivity|].
  destruct (g_nosort g); [done|]. split; [apply sort_by_perm|done].
Qed.
End found.

(** ** Compiled patterns are patterns of the search *)

(** A segment that is one fixed name is no link to a directory. *)
Definition seg_named (s : seg) : Prop := forall t, s = Seg (map WLit t) -> name t.

Lemma compiled_part toLowerCase o s p : seg_ok o s -> seg_named s -> compiled toLowerCase o s p -> part_ok p.
Proof.
  intros Hs Hn [_ Hpart _]. destruct s as [|ws], p as [|t|r src raw|]; try done; cbn [part_of part_ok] in *.
  - subst ws. destruct Hs as (Hne & Hok & _). split; [|by apply Hn]. split; [by destruct t|].
    intros Hi. rewrite Forall_forall in Hok. apply (Hok (WLit slash_unit)); [|done].
    apply list_elem_of_In, in_map, list_elem_of_In, Hi.
  - destruct Hpart as [-> _]. by eexists.
Qed.

Lemma compiled_dots toLowerCase o g s p : seg_ok o s -> opt o "dot" = g_dot g -> compiled toLowerCase o s p -> dot_true g p.
Proof.
  intros Hs Hdot [_ Hpart Hhit]. destruct s as [|ws], p as [|t|r src raw|]; try done; cbn [part_of] in *.
  destruct Hpart as [-> Hw]. cbn [dot_true]. intros e He Hr. apply (Hhit e He) in Hr. cbn [seg_accepts] in Hr.
  destruct Hr as [Hm Hv]. destruct (Hv Hw) as [_ Hvis]. clear Hv. unfold sees.
  destruct (g_dot g); [by rewrite orb_true_r|]. cbn [orb]. rewrite Hdot in Hvis.
  destruct (bool_decide (charAt e 0 = dot)) eqn:Ee; [|done]. cbn [negb orb]. apply bool_decide_eq_true in Ee.
  apply bool_decide_eq_true. destruct Hs as (Hne & Hok & _). destruct ws as [|w ws]; [done|]. cbn [visible] in Hvis.
  assert (head e = Some (chr ".")) as Hh by (destruct e; [done|]; by injection Ee as ->).
  destruct w as [c| | |neg cs]; try by destruct (Hvis eq_refl).
  destruct Hm as (f' & -> & _). injection Hh as ->. done.
Qed.

Lemma compiled_parts toLowerCase o ss ps : Forall2 (compiled toLowerCase o) ss ps -> Forall (seg_ok o) ss ->
  Forall seg_named ss -> Forall part_ok ps /\ forall g, opt o "dot" = g_dot g -> Forall (dot_true g) ps.
Proof.
  induction 1 as [|s p ss ps Hs HR IH]; [by split; constructor|].
  intros [H1 Hok]%Forall_cons [H2 Hnamed]%Forall_cons. destruct (IH Hok Hnamed) as [IH1 IH2].
  split; [constructor; [by eapply compiled_part|done]|]. intros g Hdot. constructor; [by eapply compiled_dots|auto].
Qed.

Lemma compiled_closed toLowerCase o ss ps : Forall2 (compiled toLowerCase o) ss ps -> last ss <> Some Star2 -> closed ps.
Proof.
  intros HR. unfold closed. induction HR as [|s p ss ps Hs HR IH]; intros Hl Hp; [done|].
  destruct HR as [|s' p' ss ps Hs' HR]; [|by apply IH]. apply Hl. injection Hp as ->. cbn. f_equal. by apply (comp_star _ _ _ _ Hs).
Qed.

(** ** Options that leave the search plain *)
Definition glob_flags (o : options) : options :=
  <["nonegate" := unless_false o "nonegate"]> (<["nocomment" := unless_false o "nocomment"]> o).

Lemma glob_flags_opt o k : k <> "nonegate"%string -> k <> "nocomment"%string -> opt (glob_flags o) k = opt o k.
Proof. intros H1 H2. unfold opt, glob_flags. by rewrite !lookup_insert_ne. Qed.

(** No marks, no placeholder for patterns without matches, no real paths, no folding
    of case, no other root, no limit, no ignored paths, empty caches. *)
Record plain_options (opts : glob_options) : Prop := {
  po_mark : opt (go_flags opts) "mark" = false;
  po_nodir : opt (go_flags opts) "nodir" = false;
  po_nonull : opt (go_flags opts) "nonull" = false;
  po_realpath : opt (go_flags opts) "realpath" = false;
  po_noprocess : opt (go_flags opts) "noprocess" = false;
  po_root : go_root opts = None;
  po_limit : go_maxLength opts = None;
  po_ignore : go_ignore opts = None;
  po_caches : go_cache opts = None /\ go_statCache opts = None /\ go_symlinks opts = None }.

(** The working directory of a search. *)
Definition work_dir (opts : glob_options) : list jsstr := cd [] (default slash (go_cwd opts)).

Definition empty_store : store := Store ∅ ∅ ∅ [].

Lemma resolve_root c : resolve [Some c; Some slash] = Ret slash.
Proof. apply (resolve_is_cd [c; slash]). Qed.

Lemma cd_root c : dir_name (cd [] c) = slash -> cd [] c = [].
Proof. intros E. apply dir_name_inj; [apply cd_ok, root_ok|apply root_ok|exact E]. Qed.

Section search.
Context (canon : Z -> Z) (toLowerCase : jsstr -> jsstr) (localeCompare : jsstr -> jsstr -> Z)
        (escs : esc_texts) (fuel : nat).

Lemma setopts_plain pattern opts mm : plain_options opts -> opt (go_flags opts) "matchBase" = false ->
  Minimatch canon escs fuel (Some pattern) (glob_flags (go_flags opts)) = Ret mm -> mm_negate mm = false ->
  exists g, setopts canon escs fuel pattern opts = Ret (g, empty_store) /\
    plain_search g (work_dir opts) /\ g_minimatch g = mm /\ g_dot g = opt (go_flags opts) "dot" /\
    g_stat g = opt (go_flags opts) "stat" /\ g_nounique g = opt (go_flags opts) "nounique" /\
    g_nosort g = opt (go_flags opts) "nosort" /\ g_nocase g = opt (go_flags opts) "nocase" /\ g_nonull g = false /\ g_realpath g = false /\ g_noprocess g = false /\
    g_strict g = unless_false (go_flags opts) "strict" /\ g_nodir g = false.
Proof.
  intros [Hm Hd Hn Hr Hp Hroot Hl Hi (Hc1 & Hc2 & Hc3)] Hb Hmm Hneg. unfold setopts.
  unfold setupIgnores. rewrite Hb, Hi, Hroot, Hl, Hc1, Hc2, Hc3. cbn [andb mbind outcome_bind mapM].
  fold (glob_flags (go_flags opts)).
  destruct (go_cwd opts) as [c|] eqn:Ec.
  - pose proof (resolve_is_cd [c]) as Hrc. cbn [map foldl] in Hrc. rewrite Hrc. cbn [mbind outcome_bind fst].
    rewrite resolve_root. cbn [mbind outcome_bind]. change (resolve [Some slash]) with (Ret slash).
    cbn [mbind outcome_bind]. rewrite Hmm. cbn [mbind outcome_bind].
    eexists. split; [reflexivity|]. cbn. rewrite Hm, Hd. split_and!; try done.
    split; cbn; try done. unfold work_dir. rewrite Ec. cbn [default].
    case_bool_decide as E; [|done]. by apply cd_root.
  - cbn [mbind outcome_bind fst]. rewrite resolve_root. cbn [mbind outcome_bind].
    change (resolve [Some slash]) with (Ret slash). cbn [mbind outcome_bind]. rewrite Hmm. cbn [mbind outcome_bind].
    eexists. split; [reflexivity|]. cbn. rewrite Hm, Hd. split_and!; try done.
    split; cbn; try done. unfold work_dir. by rewrite Ec.
Qed.

(** What the search of one compiled pattern returns. *)
Lemma search_collects `{FileSystem} height (Hfs : tree_like height) g base ps steps :
  plain_search g base -> Forall part_ok ps -> mm_set (g_minimatch g) = [ps] -> g_nonull g = false ->
  g_realpath g = false -> ((length ps + 1) * (height + 2) <= steps)%nat ->
  exists s found,
    (modify_st (set_matches (replicate (length (mm_set (g_minimatch g))) None)) ;;
     iterM (fun '(i, p) => _process toLowerCase steps g p i false) (imap pair (mm_set (g_minimatch g))) ;;
     _finish toLowerCase localeCompare g) empty_store = (s, Ret found) /\
    (forall k, k ∈ found -> exists p, reached g base [] false ps p /\ k = js_join slash p /\ plausible g base p) /\
    (forall p, reached g base [] false ps p -> p <> [] -> there (at_dir base p) -> js_join slash p ∈ found) /\
    (g_nounique g = false -> NoDup found) /\
    (g_nosort g = false -> g_nocase g = false -> (forall a b, 0 <= localeCompare a b -> localeCompare b a <= 0) ->
       Sorted (fun a b => localeCompare a b <= 0) found).
Proof.
  intros Hg Hps Hset Hnn Hrp Hsteps. rewrite Hset. cbn [length replicate imap].
  set (s0 := set_matches [None] empty_store).
  assert (truthful g s0) as Hs0 by (split; cbn; try done; intros; by rewrite lookup_empty in *).
  destruct (process_ok height Hfs g base Hg toLowerCase steps 0%nat [] [] [] ps false) with (s := s0)
    as (s1 & E1 & Hs1 & (_ & Hlen & _) & H1 & H2).
  - by split_and!; [|constructor|constructor].
  - done.
  - unfold enough. rewrite at_dir_length. cbn [length].
    assert (magic ps <= length ps)%nat; [|nia]. unfold magic. apply List.filter_length_le.
  - done.
  - constructor.
  - cbn. lia.
  - destruct (finish_found toLowerCase localeCompare g s1) as (found & Ef & Hf & Hsort); [apply Hg..|].
    assert (forall k, k ∈ found <-> k ∈ keys 0 s1) as Hk.
    { intros k. rewrite Hf. by apply keys_gather. }
    exists s1, found. split_and!.
    + rewrite (bind_ran _ _ _ s0 tt) by done. cbn [iterM]. change (pattern_of [] ps) with ps in E1.
      rewrite (bind_ran _ _ s0 s1 tt); [|by rewrite (bind_ran _ _ _ _ _ E1)].
      unfold _finish. by rewrite Hrp, (bind_ran _ _ _ s1 tt).
    + intros k Hin%Hk. destruct (H1 k Hin) as [Hx|?]; [|done]. by apply elem_of_nil in Hx.
    + intros p Hp Hne Ht. apply Hk. by apply H2.
    + intros Hu. rewrite Hf. by apply gather_nodup.
    + intros Hs Hc Hlc. rewrite Hsort, Hc by done. by apply sort_by_sorted.
Qed.

Lemma join_names_inj p q : Forall file_name p -> Forall file_name q -> js_join slash p = js_join slash q -> p = q.
Proof.
  intros Hp Hq E. rewrite <- (path_parts_join p), <- (path_parts_join q) by by apply names_components. by rewrite E.
Qed.

Lemma split_join_names p : Forall file_name p -> p <> [] -> regex_split slashSplit (js_join slash p) = p.
Proof.
  intros Hp Hne. apply split_path_text; [done|]. eapply Forall_impl; [exact Hp|]. by intros x [[Hx Hs] _].
Qed.

Lemma reached_nil g base `{FileSystem} b ps p : reached g base [] b ps p <-> expands g base [] b ps p.
Proof. split; [by intros (fs & -> & He)|]. intros He. by exists p. Qed.

(** A written pattern the theorem is about: no globstar at the end, no segment that
    is a directory link. *)
Record searchable (opts : glob_options) (ss : list seg) : Prop := {
  se_pattern : path_pattern (glob_flags (go_flags opts)) ss;
  se_last : last ss <> Some Star2;
  se_named : Forall seg_named ss }.

(** The settings and the compiled pattern of such a search. *)
Record prepared (opts : glob_options) (ss : list seg) (g : settings) (ps : list part) : Prop := {
  pr_plain : plain_search g (work_dir opts);
  pr_set : mm_set (g_minimatch g) = [ps];
  pr_compiled : Forall2 (compiled toLowerCase (glob_flags (go_flags opts))) ss ps;
  pr_minimatch f : minimatch canon toLowerCase escs fuel f (Some (path_text ss)) (glob_flags (go_flags opts)) =
    Ret (glob_match toLowerCase (glob_flags (go_flags opts)) false ps (regex_split slashSplit f));
  pr_dot : g_dot g = opt (go_flags opts) "dot";
  pr_stat : g_stat g = opt (go_flags opts) "stat";
  pr_nounique : g_nounique g = opt (go_flags opts) "nounique";
  pr_nosort : g_nosort g = opt (go_flags opts) "nosort";
  pr_nocase : g_nocase g = false;
  pr_off : g_nonull g = false /\ g_realpath g = false /\ g_noprocess g = false /\ g_nodir g = false;
  pr_parts : Forall part_ok ps /\ Forall (dot_true g) ps /\ closed ps }.

Lemma path_text_truthy opts ss : searchable opts ss -> truthy (path_text ss) = true.
Proof. intros [Hp _ _]. pose proof (path_text_nonempty _ _ Hp). by destruct (path_text ss). Qed.

Lemma setopts_prepared opts ss : plain_options opts -> searchable opts ss ->
  exists g ps, setopts canon escs fuel (path_text ss) opts = Ret (g, empty_store) /\ prepared opts ss g ps.
Proof.
  intros Ho [Hp Hlast Hnamed]. set (o := glob_flags (go_flags opts)) in *.
  assert (forall f, exists ps, minimatch canon toLowerCase escs fuel f (Some (path_text ss)) o =
    Ret (glob_match toLowerCase o false ps (regex_split slashSplit f)) /\
    Minimatch canon escs fuel (Some (path_text ss)) o =
    Ret (object_of o (path_text ss) false ([path_text ss], [ps])) /\ Forall2 (compiled toLowerCase o) ss ps) as Hans
    by (intros f; by apply path_answer).
  destruct (Hans []) as (ps & _ & Hmm & HR).
  assert (opt (go_flags opts) "matchBase" = false) as Hbase by (rewrite <- (glob_flags_opt _ "matchBase") by done; apply Hp).
  assert (opt (go_flags opts) "nocase" = false) as Hcase by (rewrite <- (glob_flags_opt _ "nocase") by done; apply Hp).
  destruct (setopts_plain (path_text ss) opts _ Ho Hbase Hmm eq_refl)
    as (g & Eset & Hg & Hmmg & Hdot & Hst & Hnu & Hns & Hnc & Hnn & Hrp & Hnp & _ & Hnd).
  destruct (compiled_parts _ _ _ _ HR (pp_ok _ _ Hp) Hnamed) as [Hok Hdt].
  exists g, ps. split; [done|]. split; try done.
  - by rewrite Hmmg.
  - intros f. destruct (Hans f) as (ps' & E & Hmm' & _). rewrite Hmm in Hmm'. injection Hmm' as <-. exact E.
  - by rewrite Hnc.
  - split_and!; [done| |by eapply compiled_closed]. apply Hdt. rewrite Hdot. by apply glob_flags_opt.
Qed.

(** What a search that reaches the paths of the pattern may report. *)
Definition collected `{FileSystem} (g : settings) (base : list jsstr) (ps : list part) (found : list jsstr) : Prop :=
  (forall k, k ∈ found -> exists p, reached g base [] false ps p /\ k = js_join slash p /\ plausible g base p) /\
  (forall p, reached g base [] false ps p -> p <> [] -> there (at_dir base p) -> js_join slash p ∈ found).

(** The existing paths among the names found are those that [matched] accepts; the
    others are accepted too and, without the option [stat], lie below something that
    is no directory. *)
Definition agrees `{FileSystem} (opts : glob_options) (matched : jsstr -> outcome bool) (found : list jsstr) : Prop :=
  (forall p, Forall file_name p -> p <> [] -> there (at_dir (work_dir opts) p) ->
     (js_join slash p ∈ found <-> matched (js_join slash p) = Ret true)) /\
  (forall k, k ∈ found -> exists p, Forall file_name p /\ p <> [] /\ k = js_join slash p /\ matched k = Ret true /\
     (there (at_dir (work_dir opts) p) \/
      (opt (go_flags opts) "stat" = false /\ phantom (at_dir (work_dir opts) p)))).

Lemma collected_agrees `{FileSystem} height (Hfs : tree_like height) (Hnl : no_links) opts ss g ps found :
  searchable opts ss -> prepared opts ss g ps -> collected g (work_dir opts) ps found ->
  agrees opts (fun k => minimatch canon toLowerCase escs fuel k (Some (path_text ss)) (glob_flags (go_flags opts))) found.
Proof.
  intros [Hp Hlast Hnamed] Hr [K1 K2]. pose proof (pr_plain _ _ _ _ Hr) as Hg. destruct (pr_parts _ _ _ _ Hr) as (Hok & Hdt & Hclosed).
  set (o := glob_flags (go_flags opts)) in *. pose proof (pp_case _ _ Hp) as Hcase.
  assert (opt o "dot" = g_dot g) as Hod by (rewrite (pr_dot _ _ _ _ Hr); by apply glob_flags_opt).
  assert (forall p, Forall file_name p -> p <> [] ->
    minimatch canon toLowerCase escs fuel (js_join slash p) (Some (path_text ss)) o = Ret true <-> part_globs toLowerCase o ps p) as Hm.
  { intros p Hn Hne. unfold o. rewrite (pr_minimatch _ _ _ _ Hr), split_join_names by done. rewrite <- glob_match_globs.
    split; [by intros [= ->]|by intros ->]. }
  assert (forall p, reached g (work_dir opts) [] false ps p -> Forall file_name p /\ part_globs toLowerCase o ps p /\ p <> []) as Hre.
  { intros p He%reached_nil. split_and!.
    - by apply (expands_names height Hfs g (work_dir opts) Hg [] false ps p) in He.
    - by eapply (expands_globs height Hfs g (work_dir opts) Hg).
    - eapply expands_some; [exact He|done|]. intros ->. pose proof (pr_compiled _ _ _ _ Hr) as HR.
      apply Forall2_nil_inv_r in HR as ->. by destruct (pp_some _ _ Hp). }
  split.
  - intros p Hn Hne Ht. rewrite Hm by done. split.
    + intros (q & Hq & Eq & _)%K1. destruct (Hre q Hq) as (Hqn & Hglob & _).
      by apply join_names_inj in Eq as ->.
    + intros Hglob. apply K2; [|done|done]. apply reached_nil. by eapply (globs_expands height Hfs g (work_dir opts) Hg).
  - intros k (p & Hq & -> & Hpl)%K1. destruct (Hre p Hq) as (Hpn & Hglob & Hne). exists p. split_and!; [done..|by apply Hm|].
    unfold plausible in Hpl. by rewrite (pr_stat _ _ _ _ Hr) in Hpl.
Qed.

Lemma globSync_runs `{FileSystem} height (Hfs : tree_like height) opts ss steps :
  plain_options opts -> searchable opts ss -> ((length ss + 1) * (height + 2) <= steps)%nat ->
  exists g ps found,
    globSync canon toLowerCase localeCompare escs fuel steps (path_text ss) opts false = Ret (Some found) /\
    prepared opts ss g ps /\ collected g (work_dir opts) ps found /\
    (opt (go_flags opts) "nounique" = false -> NoDup found) /\
    (opt (go_flags opts) "nosort" = false -> (forall a b, 0 <= localeCompare a b -> localeCompare b a <= 0) ->
       Sorted (fun a b => localeCompare a b <= 0) found).
Proof.
  intros Ho Hss Hsteps. destruct (setopts_prepared opts ss Ho Hss) as (g & ps & Eset & Hr).
  pose proof Hr as [Hg Hset HR _ _ _ Hnu Hns Hnc (Hnn & Hrp & Hnp & _) (Hps & _ & _)].
  destruct (search_collects height Hfs g (work_dir opts) ps steps) as (s & found & E & K1 & K2 & K3 & K4); [done..| |].
  { by rewrite <- (Forall2_length _ _ _ HR). }
  rewrite Hnu in K3. rewrite Hns, Hnc in K4.
  exists g, ps, found. split_and!; [|done|by split|done|intros; by apply K4].
  unfold globSync, GlobSync. rewrite (path_text_truthy opts ss Hss). cbn [negb].
  rewrite Eset. cbn [mbind outcome_bind]. by rewrite Hnp, E.
Qed.
End search.

(** ** The theorems *)

(** C20: [glob.sync] agrees with [minimatch].  On a tree without symbolic links, for
    every pattern written from wildcard segments, names and inner globstars, in every
    working directory and with every option that concerns the search, the call
    returns; an existing path is among the results exactly when [minimatch] says that
    the pattern matches it, and every result is a path the pattern matches that
    exists, or, without the [stat] option, lies below something that is no
    directory. *)
Theorem glob_sync_exact (fs : FileSystem) (height : nat) (Hfs : tree_like height) (Hnl : no_links)
    (canon : Z -> Z) (toLowerCase : jsstr -> jsstr) (localeCompare : jsstr -> jsstr -> Z) (escs : esc_texts)
    (fuel steps : nat) (opts : glob_options) (ss : list seg) (Ho : plain_options opts) (Hss : searchable opts ss)
    (Hsteps : ((length ss + 1) * (height + 2) <= steps)%nat) :
  let matched k := minimatch canon toLowerCase escs fuel k (Some (path_text ss)) (glob_flags (go_flags opts)) in
  exists found,
    globSync canon toLowerCase localeCompare escs fuel steps (path_text ss) opts false = Ret (Some found) /\
    agrees opts matched found.
Proof.
  intros matched. destruct (globSync_runs canon toLowerCase localeCompare escs fuel height Hfs opts ss steps Ho Hss Hsteps)
    as (g & ps & found & E & Hr & Hc & _).
  exists found. split; [exact E|]. by apply (collected_agrees canon toLowerCase escs fuel height Hfs Hnl opts ss g ps found).
Qed.

(** A small tree: a file next to a directory with sources. *)
Definition file (name : string) : jsstr * node := (js name, NFile).
Definition dir (name : string) (es : list (jsstr * node)) : jsstr * node := (js name, NDir es).
Definition demo_tree : node :=
  NDir [file "file"; dir "src" [file "a.js"; file ".c.js"; dir "lib" [file "b.js"]]].
Definition demo_pattern : list seg := [Seg (map WLit (js "src")); Star2; Seg (WStar :: map WLit (js ".js"))].
Definition demo_escs : esc_texts := make_escs (js "1") (js "2") (js "3") (js "4") (js "5").
Definition unit_compare (a b : jsstr) : Z := if str_ltb a b then -1 else if str_ltb b a then 1 else 0.

Definition flag_options (flags : list string) : glob_options :=
  GlobOptions (list_to_map (map (fun f => (f, true)) flags)) None None None None None None None.

(** What [glob.sync] returns on a tree. *)
Definition glob_tree (root : node) (pattern : jsstr) (opts : glob_options) : outcome (option (list jsstr)) :=
  globSync (H := tree_fs root) id id unit_compare demo_escs 20 40 pattern opts false.

(** Boolean checks of the side conditions, for the witnesses. *)
Definition file_name_b (x : jsstr) : bool := bool_decide (x <> []) && bool_decide (slash_unit ∉ x) &&
  bool_decide (x <> dot) && bool_decide (x <> dotdot).

Lemma file_name_check x : file_name_b x = true -> file_name x.
Proof. unfold file_name_b. rewrite !andb_true_iff, !bool_decide_eq_true. unfold file_name, component, name. tauto. Qed.

Fixpoint node_ok_b (n : node) : bool :=
  match n with
  | NFile => true
  | NDir es =>
      bool_decide (NoDup (map fst es)) &&
      (fix all (es : list (jsstr * node)) : bool :=
         match es with [] => true | (k, m) :: es => file_name_b k && node_ok_b m && all es end) es
  end.

Lemma node_ok_check (n : node) : node_ok_b n = true -> node_ok n.
Proof.
  revert n. fix IH 1. intros [|es]; cbn [node_ok_b node_ok]; [done|]. rewrite andb_true_iff, bool_decide_eq_true.
  intros [Hnd Hall]. split; [exact Hnd|]. clear Hnd. induction es as [|[k m] es IHes]; [done|].
  apply andb_true_iff in Hall as [[Hk Hm]%andb_true_iff Hall].
  split; [by apply file_name_check|]. split; [by apply IH|by apply IHes].
Qed.

Lemma named_lits s : name s -> seg_named (Seg (map WLit s)).
Proof.
  intros Hs t [= E]. assert (t = s) as ->; [|done]. revert t E. clear Hs.
  induction s as [|c s IH]; intros [|d t]; try done. cbn. intros [= -> E]. f_equal. by apply IH.
Qed.

Lemma named_wild ws : existsb is_wild ws = true -> seg_named (Seg ws).
Proof. intros Hw t [= ->]. by rewrite lits_plain in Hw. Qed.

Lemma named_star : seg_named Star2.
Proof. by intros t. Qed.

Lemma demo_ok : node_ok demo_tree.
Proof. apply node_ok_check. vm_compute. reflexivity. Qed.

Lemma plain_no_options : plain_options no_options.
Proof. by split. Qed.

Lemma demo_searchable : searchable no_options demo_pattern.
Proof.
  split.
  - split.
    + discriminate.
    + repeat constructor; try discriminate; try (right; vm_compute; discriminate);
        apply (bool_decide_unpack _); vm_compute; exact I.
    + reflexivity.
    + reflexivity.
    + right. apply (bool_decide_unpack _). vm_compute. exact I.
    + vm_compute. reflexivity.
    + vm_compute. reflexivity.
    + left. reflexivity.
  - discriminate.
  - apply Forall_cons. split; [by apply named_lits|]. apply Forall_cons. split; [apply named_star|].
    apply Forall_cons. split; [by apply named_wild|constructor].
Qed.

Lemma glob_sync_exact_witness :
  path_text demo_pattern = js "src/**/*.js" /\
  let matched k := minimatch id id demo_escs 20 k (Some (path_text demo_pattern)) (glob_flags ∅) in
  let fs := tree_fs demo_tree in
  exists found,
    glob_tree demo_tree (path_text demo_pattern) no_options = Ret (Some found) /\ agrees no_options matched found.
Proof.
  split; [vm_compute; reflexivity|].
  apply (glob_sync_exact (tree_fs demo_tree) (node_height demo_tree) (tree_fs_ok demo_tree demo_ok)
           (tree_fs_plain demo_tree) id id unit_compare demo_escs 20 40 no_options demo_pattern
           plain_no_options demo_searchable).
  apply (bool_decide_unpack _). vm_compute. exact I.
Defined.

Lemma demo_found : glob_tree demo_tree (js "src/**/*.js") no_options = Ret (Some (map js ["src/a.js"; "src/lib/b.js"]%string)).
Proof. vm_compute. reflexivity. Qed.

(** The results of [glob.sync] hold no path twice, and neighbours are in the
    order of the comparison, unless the options turn that off. *)
Theorem glob_sync_ordered (fs : FileSystem) (height : nat) (Hfs : tree_like height)
    (canon : Z -> Z) (toLowerCase : jsstr -> jsstr) (localeCompare : jsstr -> jsstr -> Z) (escs : esc_texts)
    (fuel steps : nat) (opts : glob_options) (ss : list seg) (Ho : plain_options opts) (Hss : searchable opts ss)
    (Hsteps : ((length ss + 1) * (height + 2) <= steps)%nat)
    (Hlc : forall a b, 0 <= localeCompare a b -> localeCompare b a <= 0) :
  exists found,
    globSync canon toLowerCase localeCompare escs fuel steps (path_text ss) opts false = Ret (Some found) /\
    (opt (go_flags opts) "nounique" = false -> NoDup found) /\
    (opt (go_flags opts) "nosort" = false -> Sorted (fun a b => localeCompare a b <= 0) found).
Proof.
  destruct (globSync_runs canon toLowerCase localeCompare escs fuel height Hfs opts ss steps Ho Hss Hsteps)
    as (g & ps & found & E & _ & _ & K3 & K4).
  exists found. auto.
Qed.

Lemma unit_compare_flip a b : 0 <= unit_compare a b -> unit_compare b a <= 0.
Proof. unfold unit_compare. destruct (str_ltb a b), (str_ltb b a); lia. Qed.

Lemma glob_sync_ordered_witness :
  exists found,
    glob_tree demo_tree (path_text demo_pattern) no_options = Ret (Some found) /\
    (opt (go_flags no_options) "nounique" = false -> NoDup found) /\
    (opt (go_flags no_options) "nosort" = false -> Sorted (fun a b => unit_compare a b <= 0) found).
Proof.
  apply (glob_sync_ordered (tree_fs demo_tree) (node_height demo_tree) (tree_fs_ok demo_tree demo_ok)
           id id unit_compare demo_escs 20 40 no_options demo_pattern plain_no_options demo_searchable).
  - apply (bool_decide_unpack _). vm_compute. exact I.
  - exact unit_compare_flip.
Defined.

(** ** Errors *)
Lemma readdirError_unusual g base d er s : plain_search g base -> dir_ok d ->
  default "" (er_code er) ∉ not_dir_codes ++ missing_codes ->
  _readdirError g (dir_name d) er s =
  (set_cache (dir_name d) CFalse s, if g_strict g then Throw (thrown er) else Ret tt).
Proof.
  intros Hg Hd [H1 H2]%not_elem_of_app. unfold _readdirError, lift. rewrite (makeAbs_dir g base Hg d Hd).
  rewrite (bind_ran _ _ s s (dir_name d)) by done. cbv zeta.
  rewrite (bool_decide_false _ H1), (bool_decide_false _ H2).
  rewrite (bind_ran _ _ s (set_cache (dir_name d) CFalse s) tt) by done. by destruct (g_strict g).
Qed.


(** A working directory that cannot be read for an unusual reason makes a
    pattern that starts with a wildcard throw that error, or, without [strict], find
    nothing. *)
Theorem glob_unreadable (fs : FileSystem) (er : fs_error)
    (canon : Z -> Z) (toLowerCase : jsstr -> jsstr) (localeCompare : jsstr -> jsstr -> Z) (escs : esc_texts)
    (fuel steps : nat) (opts : glob_options) (ws : list wild) (Ho : plain_options opts)
    (Hp : path_pattern (glob_flags (go_flags opts)) [Seg ws]) (Hw : existsb is_wild ws = true)
    (Hread : readdirSync (dir_name (work_dir opts)) = FsErr er)
    (Her : default "" (er_code er) ∉ not_dir_codes ++ missing_codes) :
  globSync canon toLowerCase localeCompare escs fuel (S steps) (glob ws) opts false =
  (if unless_false (go_flags opts) "strict" then Throw (thrown er) else Ret (Some [])).
Proof.
  set (o := glob_flags (go_flags opts)) in *.
  destruct (path_object canon toLowerCase escs fuel o [Seg ws] Hp) as (ps & Hmm & HR).
  assert (path_text [Seg ws] = glob ws) as Et by done. rewrite Et in Hmm.
  assert (opt (go_flags opts) "matchBase" = false) as Hbase by (rewrite <- (glob_flags_opt _ "matchBase") by done; apply Hp).
  destruct (setopts_plain canon escs fuel (glob ws) opts _ Ho Hbase Hmm eq_refl)
    as (g & Eset & Hg & Hmmg & _ & _ & _ & _ & _ & Hnn & Hrp & Hnp & Hstrict & _).
  apply Forall2_cons_inv_l in HR as (p & ps' & Hs & HR & ->). apply Forall2_nil_inv_l in HR as ->.
  pose proof (comp_part _ _ _ _ Hs) as Hpart. destruct p as [|t|r src raw|]; try done; cbn [part_of] in Hpart.
  { subst ws. by rewrite lits_plain in Hw. }
  destruct Hpart as [-> _]. set (s0 := set_matches [None] empty_store).
  set (s1 := set_cache (dir_name (work_dir opts)) CFalse s0).
  pose proof (plain_base_ok _ _ Hg) as Hdir.
  assert (_process toLowerCase (S steps) g [Re r src (Some (glob ws))] 0 false s0 =
    (s1, if g_strict g then Throw (thrown er) else Ret tt)) as Eproc.
  { cbn [_process leading length drop]. cbv zeta. cbn [default]. rewrite (makeAbs_dot g _ Hg). unfold lift.
    rewrite (bind_ran _ _ s0 s0 (dir_name (work_dir opts))) by done.
    rewrite (bind_ran _ _ s0 s0 false) by (unfold childrenIgnored; by rewrite (ps_ignore _ _ Hg)).
    unfold _processReaddir.
    assert (_readdir g (dir_name (work_dir opts)) false s0 =
      (s1, if g_strict g then Throw (thrown er) else Ret None)) as Erd.
    { unfold _readdir. rewrite (bind_ran _ _ s0 s0 s0) by done. cbn [andb]. unfold readdir_plain.
      rewrite (bind_ran _ _ s0 s0 s0) by done. cbn [cache s0 set_matches empty_store]. rewrite lookup_empty, Hread.
      unfold mbind at 1, stM_bind at 1. rewrite (readdirError_unusual g (work_dir opts)) by done.
      by destruct (g_strict g). }
    unfold mbind at 1, stM_bind at 1. rewrite Erd. by destruct (g_strict g). }
  unfold globSync, GlobSync. pose proof (path_text_nonempty _ _ Hp) as Hne. rewrite Et in Hne.
  destruct (glob ws) as [|c t] eqn:Eg; [done|]. cbn [truthy negb].
  rewrite Eset. cbn [mbind outcome_bind]. rewrite Hnp, Hmmg. cbn [object_of mm_set snd length replicate imap].
  rewrite (bind_ran _ _ empty_store s0 tt) by done. cbn [iterM]. rewrite <- Hstrict.
  destruct (g_strict g) eqn:Es.
  - unfold mbind, stM_bind. by rewrite Eproc.
  - rewrite (bind_ran _ _ s0 s1 tt) by (by rewrite (bind_ran _ _ _ _ _ Eproc)).
    unfold _finish. rewrite Hrp, (bind_ran _ _ s1 s1 tt) by done.
    destruct (finish_found toLowerCase localeCompare g s1) as (found & Ef & Hf & _); [apply Hg..|]. rewrite Ef.
    assert (found = []) as ->; [|done]. apply Permutation_nil. rewrite Hf. unfold gather. rewrite Hnn. by destruct (g_nounique g).
Qed.

Lemma glob_unreadable_witness :
  globSync (H := bundle_fs) id id unit_compare demo_escs 20 3 (js "*.js") no_options false = Throw (thrown missing_function).
Proof.
  apply (glob_unreadable bundle_fs missing_function id id unit_compare demo_escs 20 2 no_options (WStar :: map WLit (js ".js"))).
  - exact plain_no_options.
  - split.
    + discriminate.
    + repeat constructor; try discriminate; try (right; vm_compute; discriminate);
        apply (bool_decide_unpack _); vm_compute; exact I.
    + reflexivity.
    + reflexivity.
    + right. apply (bool_decide_unpack _). vm_compute. exact I.
    + vm_compute. reflexivity.
    + vm_compute. reflexivity.
    + left. reflexivity.
  - reflexivity.
  - reflexivity.
  - apply (bool_decide_unpack _). vm_compute. exact I.
Defined.

(** In the bundle a pattern without wildcards finds nothing. *)
Lemma bundle_finds_nothing :
  globSync (H := bundle_fs) id id unit_compare demo_escs 20 3 (js "data/tdict-std.txt") no_options false = Ret (Some []).
Proof. vm_compute. reflexivity. Qed.

(** ** Departures *)

(** The first alternative reads [file/x] as a directory; the second then reports it
    though there is no such file; alone it does not. *)
Lemma phantom_match :
  glob_tree demo_tree (js "{*/x/*,*/x}") no_options = Ret (Some [js "file/x"]) /\
  glob_tree demo_tree (js "*/x") no_options = Ret (Some []) /\
  glob_tree demo_tree (js "{*/x/*,*/x}") (flag_options ["stat"%string]) = Ret (Some []).
Proof. vm_compute. done. Qed.

(** Without mounting, the second wildcard of an absolute pattern doubles the slash. *)
Lemma nomount_double_slash :
  glob_tree demo_tree (js "/*/lib") (flag_options ["nomount"%string]) = Ret (Some [js "//src/lib"]).
Proof. vm_compute. reflexivity. Qed.

(** With another root, a failed read is recorded under the wrong path: [/lib] cannot
    be read, the cache says so about [/src/lib], which is what the second alternative
    asks for. *)
Lemma root_confuses_cache :
  let opts := GlobOptions ∅ None (Some (js "/src")) None None None None None in
  glob_tree demo_tree (js "{lib/*,/lib}") opts = Ret (Some []) /\
  glob_tree demo_tree (js "/lib") opts = Ret (Some [js "/src/lib"]).
Proof. vm_compute. done. Qed.
