(* ===== verification/GlobAsync.v ===== *)
(** * File globs: the asynchronous search

    Module 16 (glob) of docs/generated_site/assets/javascripts/lunr/wordcut.js: the
    same search as [GlobSync] by callbacks.  Every callback the sources create is a
    constructor of [callback] that holds what the closure captures; [call] applies
    one.  Requests to the file system wait in [pending], the answers of [inflight]
    that are put off wait in [waiting], and [turn] says what one turn of the event
    loop may do: answer any pending request, run the first waiting tick, or let the
    client pause, resume or abort.  The order of the answers is left open.

    Client code is not called back: events are recorded in [emitted], and the
    callback of the caller in [cb_answer]. *)
From stdpp Require Import gmap.
From S2P Require Import Prelude JsString JsArray JsState JsRegex PathModule BraceExpansion MinimatchParse Minimatch GlobCommon GlobSync.

(** ** Callbacks, answers, requests *)
Inductive callback : Type :=
| KDone
| KReaddir (prefix : option jsstr) (abs : jsstr) (remain : list part) (index : nat) (inGlobStar : bool) (cb : callback)
| KGlobStar (prefix : option jsstr) (abs : jsstr) (remain : list part) (index : nat) (inGlobStar : bool) (cb : callback)
| KSimple (prefix : jsstr) (index : nat) (cb : callback)
| KReaddirCb (abs : jsstr) (cb : callback)
| KLstatGlob (abs : jsstr) (cb : callback)
| KLstat (f abs : jsstr) (cb : callback)
| KStat (f abs : jsstr) (lstat : stats) (cb : callback)
| KRealpath (index : nat) (p : jsstr)
| KRes (key : jsstr) (id : nat).

(** The arguments of a call: [cb()], [cb(er)] and [cb(null, x)]. *)
Inductive answer : Type :=
| Nothing
| Failed (er : fs_error)
| Entries (l : list jsstr)
| Stat (st : stats)
| Exists (c : cache_entry)
| Real (p : jsstr).

Inductive request : Type :=
| RReaddir (p : jsstr)
| RLstat (p : jsstr)
| RStat (p : jsstr)
| RRealpath (p : jsstr).

Definition answer_of {A} (f : A -> answer) (r : fs_result A) : answer :=
  match r with FsOk a => f a | FsErr er => Failed er end.

Definition serve `{FileSystem} (r : request) : answer :=
  match r with
  | RReaddir p => answer_of Entries (readdirSync p)
  | RLstat p => answer_of Stat (lstatSync p)
  | RStat p => answer_of Stat (statSync p)
  | RRealpath p => answer_of Real (realpathSync p)
  end.

Inductive glob_event : Type :=
| EEnd (found : list jsstr)
| EMatch (m : jsstr)
| EStat (m : jsstr) (st : stats)
| EError (er : fs_error)
| EAbort
| EPause
| EResume.

(** ** The object and the event loop *)
Record astate : Type := AState {
  a_store : store;
  reqs : gmap (list Z) (list callback);
  res_called : list bool;
  pending : list (request * callback);
  waiting : list (jsstr * answer);
  processing : Z;
  aborted : bool;
  paused : bool;
  didRealpath : bool;
  emitQueue : list (nat * jsstr);
  processQueue : list (list part * nat * bool * callback);
  setsLeft : Z;
  namesLeft : gmap nat Z;
  a_found : option (list jsstr);
  emitted : list glob_event;
  cb_answer : option (fs_error + list jsstr) }.

Definition set_store x (s : astate) := AState x (reqs s) (res_called s) (pending s) (waiting s) (processing s) (aborted s)
  (paused s) (didRealpath s) (emitQueue s) (processQueue s) (setsLeft s) (namesLeft s) (a_found s) (emitted s) (cb_answer s).
Definition set_reqs x (s : astate) := AState (a_store s) x (res_called s) (pending s) (waiting s) (processing s) (aborted s)
  (paused s) (didRealpath s) (emitQueue s) (processQueue s) (setsLeft s) (namesLeft s) (a_found s) (emitted s) (cb_answer s).
Definition set_called x (s : astate) := AState (a_store s) (reqs s) x (pending s) (waiting s) (processing s) (aborted s)
  (paused s) (didRealpath s) (emitQueue s) (processQueue s) (setsLeft s) (namesLeft s) (a_found s) (emitted s) (cb_answer s).
Definition set_pending x (s : astate) := AState (a_store s) (reqs s) (res_called s) x (waiting s) (processing s) (aborted s)
  (paused s) (didRealpath s) (emitQueue s) (processQueue s) (setsLeft s) (namesLeft s) (a_found s) (emitted s) (cb_answer s).
Definition set_waiting x (s : astate) := AState (a_store s) (reqs s) (res_called s) (pending s) x (processing s) (aborted s)
  (paused s) (didRealpath s) (emitQueue s) (processQueue s) (setsLeft s) (namesLeft s) (a_found s) (emitted s) (cb_answer s).
Definition set_processing x (s : astate) := AState (a_store s) (reqs s) (res_called s) (pending s) (waiting s) x (aborted s)
  (paused s) (didRealpath s) (emitQueue s) (processQueue s) (setsLeft s) (namesLeft s) (a_found s) (emitted s) (cb_answer s).
Definition set_aborted x (s : astate) := AState (a_store s) (reqs s) (res_called s) (pending s) (waiting s) (processing s) x
  (paused s) (didRealpath s) (emitQueue s) (processQueue s) (setsLeft s) (namesLeft s) (a_found s) (emitted s) (cb_answer s).
Definition set_paused x (s : astate) := AState (a_store s) (reqs s) (res_called s) (pending s) (waiting s) (processing s) (aborted s)
  x (didRealpath s) (emitQueue s) (processQueue s) (setsLeft s) (namesLeft s) (a_found s) (emitted s) (cb_answer s).
Definition set_realpathed x (s : astate) := AState (a_store s) (reqs s) (res_called s) (pending s) (waiting s) (processing s)
  (aborted s) (paused s) x (emitQueue s) (processQueue s) (setsLeft s) (namesLeft s) (a_found s) (emitted s) (cb_answer s).
Definition set_queues x y (s : astate) := AState (a_store s) (reqs s) (res_called s) (pending s) (waiting s) (processing s)
  (aborted s) (paused s) (didRealpath s) x y (setsLeft s) (namesLeft s) (a_found s) (emitted s) (cb_answer s).
Definition set_left x y (s : astate) := AState (a_store s) (reqs s) (res_called s) (pending s) (waiting s) (processing s)
  (aborted s) (paused s) (didRealpath s) (emitQueue s) (processQueue s) x y (a_found s) (emitted s) (cb_answer s).
Definition set_found x (s : astate) := AState (a_store s) (reqs s) (res_called s) (pending s) (waiting s) (processing s)
  (aborted s) (paused s) (didRealpath s) (emitQueue s) (processQueue s) (setsLeft s) (namesLeft s) x (emitted s) (cb_answer s).
Definition add_event x (s : astate) := AState (a_store s) (reqs s) (res_called s) (pending s) (waiting s) (processing s)
  (aborted s) (paused s) (didRealpath s) (emitQueue s) (processQueue s) (setsLeft s) (namesLeft s) (a_found s) (emitted s ++ [x])
  (cb_answer s).
(** The callback of the caller is wrapped in [once]. *)
Definition answer_once x (s : astate) := AState (a_store s) (reqs s) (res_called s) (pending s) (waiting s) (processing s)
  (aborted s) (paused s) (didRealpath s) (emitQueue s) (processQueue s) (setsLeft s) (namesLeft s) (a_found s) (emitted s)
  (match cb_answer s with None => Some x | Some y => Some y end).

(** A computation on the store of the search. *)
Definition on_store {A} (m : stM store A) : stM astate A :=
  fun s => let '(st, o) := m (a_store s) in (set_store st s, o).

Definition ask (r : request) (k : callback) : stM astate unit := modify_st (fun s => set_pending (pending s ++ [(r, k)]) s).

(** *** Keys of inflight *)
Definition nul : jsstr := [0].
Definition bool_text (b : bool) : jsstr := if b then js "true" else js "false".
Definition readdir_key (abs : jsstr) (inGlobStar : bool) : jsstr := js "readdir" ++ nul ++ abs ++ nul ++ bool_text inGlobStar.
Definition lstat_key (abs : jsstr) : jsstr := js "lstat" ++ nul ++ abs.
Definition stat_key (abs : jsstr) : jsstr := js "stat" ++ nul ++ abs.

(** [inflight(key, cb)] *)
Definition inflight (key : jsstr) (cb : callback) : stM astate (option callback) :=
  s ← get_st;
  match reqs s !! key with
  | Some cbs => modify_st (set_reqs (<[key := cbs ++ [cb]]> (reqs s))) ;; mret None
  | None =>
      modify_st (set_reqs (<[key := [cb]]> (reqs s))) ;;
      modify_st (set_called (res_called s ++ [false])) ;;
      mret (Some (KRes key (length (res_called s))))
  end.

(** The [finally] block of [RES]. *)
Definition res_finally (key : jsstr) (len : nat) (args : answer) (s : astate) : astate :=
  match reqs s !! key with
  | Some cbs =>
      if (len <? length cbs)%nat
      then set_waiting (waiting s ++ [(key, args)]) (set_reqs (<[key := drop len cbs]> (reqs s)) s)
      else set_reqs (delete key (reqs s)) s
  | None => s
  end.

(** [try { m } finally { f }] *)
Definition try_finally (m : stM astate unit) (f : astate -> astate) : stM astate unit :=
  fun s => let '(s', o) := m s in (f s', o).

Section async.
Context `{FileSystem}.
Context (toLowerCase : jsstr -> jsstr) (localeCompare : jsstr -> jsstr -> Z).
(** The settings of the object, and whether the caller passed a callback. *)
Context (g : settings) (has_cb : bool).

(** [emit] with the listeners the constructor added. *)
Definition emit (e : glob_event) : stM astate unit :=
  modify_st (add_event e) ;;
  match e with
  | EError er => if has_cb then modify_st (answer_once (inl er)) else throw_st (thrown er)
  | EEnd found => if has_cb then modify_st (answer_once (inr found)) else mret tt
  | _ => mret tt
  end.

Definition abort : stM astate unit := modify_st (set_aborted true) ;; emit EAbort.

Definition pause : stM astate unit :=
  s ← get_st;
  if paused s then mret tt else modify_st (set_paused true) ;; emit EPause.

(** *** Finishing *)

(** [if (--n === 0) self._finish()] of [_realpath] *)
Definition next (fin : stM astate unit) : stM astate unit :=
  modify_st (fun s => set_left (setsLeft s - 1) (namesLeft s) s) ;;
  s ← get_st;
  if setsLeft s =? 0 then fin else mret tt.

Definition _realpathSet (fin : stM astate unit) (index : nat) : stM astate unit :=
  s ← get_st;
  match mjoin (matches (a_store s) !! index) with
  | None => next fin
  | Some matchset =>
      match object_keys matchset with
      | [] => next fin
      | found =>
          modify_st (fun s => set_store (set_matches (<[index := Some []]> (matches (a_store s))) (a_store s)) s) ;;
          modify_st (fun s => set_left (setsLeft s) (<[index := js_len found]> (namesLeft s)) s) ;;
          iterM (fun p => p ← lift (makeAbs g p); ask (RRealpath p) (KRealpath index p)) found
      end
  end.

Definition _realpath (fin : stM astate unit) : stM astate unit :=
  s ← get_st;
  if didRealpath s then mret tt else
  modify_st (set_realpathed true) ;;
  let n := length (matches (a_store s)) in
  if (n =? 0)%nat then fin else
  modify_st (fun s => set_left (Z.of_nat n) (namesLeft s) s) ;;
  iterM (_realpathSet fin) (seq 0 n).

(** [_finish]: it calls itself through [_realpath], once. *)
Fixpoint finish_rounds (rounds : nat) : stM astate unit :=
  match rounds with
  | O => no_fuel
  | S rounds =>
      s ← get_st;
      if aborted s then mret tt else
      if g_realpath g && negb (didRealpath s) then _realpath (finish_rounds rounds) else
      found ← on_store (finish toLowerCase localeCompare g);
      modify_st (set_found (Some found)) ;;
      emit (EEnd found)
  end.
Definition _finish : stM astate unit := finish_rounds 2.

(** The callback of [fs.realpath]. *)
Definition realpath_answer (index : nat) (p : jsstr) (a : answer) : stM astate unit :=
  match a with
  | Real real => modify_st (fun s => set_store (put_match index real (a_store s)) s)
  | Failed er =>
      if bool_decide (er_syscall er = Some "stat"%string)
      then modify_st (fun s => set_store (put_match index p (a_store s)) s)
      else emit (EError er)
  | _ => mret tt
  end ;;
  modify_st (fun s => set_left (setsLeft s) (alter (fun n => n - 1) index (namesLeft s)) s) ;;
  s ← get_st;
  if default 0 (namesLeft s !! index) =? 0 then next _finish else mret tt.

(** [done] of the constructor. *)
Definition done_ : stM astate unit :=
  modify_st (fun s => set_processing (processing s - 1) s) ;;
  s ← get_st;
  if processing s <=? 0 then _finish else mret tt.

(** *** Matches *)
Definition _emitMatch (index : nat) (e : jsstr) : stM astate unit :=
  s ← get_st;
  if aborted s then mret tt else
  match mjoin (matches (a_store s) !! index) with
  | None => throw_st (TypeError "Cannot read property of undefined")
  | Some ks =>
      if bool_decide (e ∈ ks) then mret tt else
      ignored ← lift (isIgnored toLowerCase g e);
      if (ignored : bool) then mret tt else
      if paused s then modify_st (fun s => set_queues (emitQueue s ++ [(index, e)]) (processQueue s) s) else
      abs ← lift (makeAbs g e);
      if g_nodir g && (match cache (a_store s) !! abs with Some c => is_dir c | None => false end) then mret tt else
      e ← (if g_mark g then on_store (mark g e) else mret e);
      modify_st (fun s => set_store (put_match index e (a_store s)) s) ;;
      s ← get_st;
      match mjoin (statCache (a_store s) !! abs) with
      | Some st => emit (EStat e st)
      | None => mret tt
      end ;;
      emit (EMatch e)
  end.

Section calls.
(** Applying a callback. *)
Context (call : callback -> answer -> stM astate unit).

(** *** inflight *)
Definition RES (key : jsstr) (args : answer) : stM astate unit :=
  s ← get_st;
  match reqs s !! key with
  | None => throw_st (TypeError "Cannot read property length of undefined")
  | Some cbs => try_finally (iterM (fun cb => call cb args) cbs) (res_finally key (length cbs) args)
  end.

(** [once(RES)] *)
Definition res_once (key : jsstr) (id : nat) (args : answer) : stM astate unit :=
  s ← get_st;
  if default false (res_called s !! id) then mret tt else
  modify_st (set_called (<[id := true]> (res_called s))) ;;
  RES key args.

(** *** Reading directories *)
Definition _readdirEntries_cb (abs : jsstr) (entries : list jsstr) (cb : callback) : stM astate unit :=
  s ← get_st;
  if aborted s then mret tt else
  l ← on_store (_readdirEntries g abs entries);
  call cb (Entries l).

Definition _readdirError_cb (f : jsstr) (er : fs_error) (cb : callback) : stM astate unit :=
  s ← get_st;
  if aborted s then mret tt else
  abs ← lift (makeAbs g f);
  let code := default "" (er_code er) in
  (if bool_decide (code ∈ not_dir_codes) then on_store (modify_st (set_cache abs CFile))
   else if bool_decide (code ∈ missing_codes) then on_store (modify_st (set_cache abs CFalse))
   else
     on_store (modify_st (set_cache abs CFalse)) ;;
     if g_strict g then emit (EError er) ;; abort else mret tt) ;;
  call cb Nothing.

Definition readdirCb (abs : jsstr) (cb : callback) (a : answer) : stM astate unit :=
  match a with
  | Failed er => _readdirError_cb abs er cb
  | Entries entries => _readdirEntries_cb abs entries cb
  | _ => mret tt
  end.

(** [_readdir]; [in_star] is the call of [_readdirInGlobStar]. *)
Definition readdir_with (in_star : callback -> stM astate unit) (abs : jsstr) (inGlobStar : bool) (cb : callback)
    : stM astate unit :=
  s ← get_st;
  if aborted s then mret tt else
  k ← inflight (readdir_key abs inGlobStar) cb;
  match k with
  | None => mret tt
  | Some cb =>
      if inGlobStar && bool_decide (symlinks (a_store s) !! abs = None) then in_star cb else
      match cache (a_store s) !! abs with
      | Some CFalse | Some CFile => call cb Nothing
      | Some (CEntries c) => call cb (Entries c)
      | _ => ask (RReaddir abs) (KReaddirCb abs cb)
      end
  end.
Definition readdir_plain_cb (abs : jsstr) (cb : callback) : stM astate unit := readdir_with (fun _ => mret tt) abs false cb.

Definition _readdirInGlobStar_cb (abs : jsstr) (cb : callback) : stM astate unit :=
  s ← get_st;
  if aborted s then mret tt else
  if g_follow g then readdir_plain_cb abs cb else
  lstatcb ← inflight (lstat_key abs) (KLstatGlob abs cb);
  match lstatcb with
  | Some lstatcb => ask (RLstat abs) lstatcb
  | None => mret tt
  end.

(** [lstatcb_] of [_readdirInGlobStar]. *)
Definition lstat_in_star (abs : jsstr) (cb : callback) (a : answer) : stM astate unit :=
  match a with
  | Stat lstat =>
      let isSym := isSymbolicLink lstat in
      on_store (modify_st (set_symlink abs isSym)) ;;
      if negb isSym && negb (isDirectory lstat) then on_store (modify_st (set_cache abs CFile)) ;; call cb Nothing
      else readdir_plain_cb abs cb
  | Failed _ => call cb Nothing
  | _ => mret tt
  end.

Definition _readdir_cb (abs : jsstr) (inGlobStar : bool) (cb : callback) : stM astate unit :=
  readdir_with (_readdirInGlobStar_cb abs) abs inGlobStar cb.

(** *** Looking at one file *)
Definition _stat2 (f abs : jsstr) (st : option stats) (cb : callback) : stM astate unit :=
  on_store (modify_st (set_statCache abs st)) ;;
  match st with
  | None => call cb Nothing
  | Some st =>
      if ends_in_slash abs && negb (isDirectory st) then call cb (Exists CFalse) else
      let c := if isDirectory st then CDir else CFile in
      on_store (modify_st (fun s => match cache s !! abs with
                                    | Some c' => if is_truthy c' then s else set_cache abs c s
                                    | None => set_cache abs c s
                                    end)) ;;
      call cb (if ends_in_slash f && negb (is_dir c) then Nothing else Exists c)
  end.

(** [lstatcb_] of [_stat]. *)
Definition lstat_answer (f abs : jsstr) (cb : callback) (a : answer) : stM astate unit :=
  match a with
  | Stat lstat => if isSymbolicLink lstat then ask (RStat abs) (KStat f abs lstat cb) else _stat2 f abs (Some lstat) cb
  | Failed _ => _stat2 f abs None cb
  | _ => mret tt
  end.

Definition stat_answer (f abs : jsstr) (lstat : stats) (cb : callback) (a : answer) : stM astate unit :=
  match a with
  | Stat st => _stat2 f abs (Some st) cb
  | Failed _ => _stat2 f abs (Some lstat) cb
  | _ => mret tt
  end.

Definition _stat_cb (f : jsstr) (cb : callback) : stM astate unit :=
  abs ← lift (makeAbs g f);
  let needDir := ends_in_slash f in
  if (match g_maxLength g with Some n => n <? js_len f | None => false end) then call cb Nothing else
  s ← get_st;
  match (if g_stat g then None else cache (a_store s) !! abs ≫= cached_stat needDir) with
  | Some c => call cb (if needDir && negb (is_dir c) then Nothing else Exists c)
  | None =>
      match statCache (a_store s) !! abs with
      | Some None => call cb (Exists CFalse)
      | Some (Some st) =>
          let type := if isDirectory st then CDir else CFile in
          call cb (if needDir && negb (is_dir type) then Nothing else Exists type)
      | None =>
          statcb ← inflight (stat_key abs) (KLstat f abs cb);
          match statcb with
          | Some statcb => ask (RLstat abs) statcb
          | None => mret tt
          end
      end
  end.

(** *** Walking a pattern *)
Definition _processSimple_cb (prefix : jsstr) (index : nat) (cb : callback) : stM astate unit :=
  _stat_cb prefix (KSimple prefix index cb).

Definition mounted (prefix : jsstr) : outcome jsstr :=
  if truthy prefix && path_is_absolute prefix && negb (g_nomount g) then
    if bool_decide (charAt prefix 0 = slash) then join [Some (g_root g); Some prefix]
    else p ← resolve [Some (g_root g); Some prefix];
         Ret (if regex_test (regex_lit "[\/\\]$") prefix then p ++ slash else p)
  else Ret prefix.

Definition _processSimple2 (prefix : jsstr) (index : nat) (exists_ : answer) (cb : callback) : stM astate unit :=
  on_store (modify_st (touch_matches index)) ;;
  match exists_ with
  | Exists c =>
      if negb (is_truthy c) then call cb Nothing else
      prefix ← lift (mounted prefix);
      _emitMatch index prefix ;;
      call cb Nothing
  | _ => call cb Nothing
  end.

Definition _process_cb (pattern : list part) (index : nat) (inGlobStar : bool) (cb : callback) : stM astate unit :=
  s ← get_st;
  if aborted s then mret tt else
  modify_st (fun s => set_processing (processing s + 1) s) ;;
  if paused s then
    modify_st (fun s => set_queues (emitQueue s) (processQueue s ++ [(pattern, index, inGlobStar, cb)]) s)
  else
    let strings := leading pattern in
    let remain := drop (length strings) pattern in
    match remain with
    | [] => _processSimple_cb (js_join slash strings) index cb
    | pn :: _ =>
        let prefix0 := match strings with [] => None | _ => Some (js_join slash strings) end in
        let prefix := match prefix0 with
                      | None => None
                      | Some p => if path_is_absolute p || joined_absolute pattern then
                                    Some (if negb (truthy p) || negb (path_is_absolute p) then slash ++ p else p)
                                  else Some p
                      end in
        let read := default dot prefix in
        abs ← lift (makeAbs g read);
        ignored ← lift (childrenIgnored toLowerCase g read);
        if (ignored : bool) then call cb Nothing else
        match pn with
        | GLOBSTAR => _readdir_cb abs inGlobStar (KGlobStar prefix abs remain index inGlobStar cb)
        | _ => _readdir_cb abs inGlobStar (KReaddir prefix abs remain index inGlobStar cb)
        end
    end.

(** [e] below [prefix]. *)
Definition below (prefix : option jsstr) (e : jsstr) : jsstr :=
  match prefix with
  | Some (c :: p) => if bool_decide (c :: p = slash) then (c :: p) ++ e else (c :: p) ++ slash ++ e
  | _ => e
  end.

Definition below_mounted (prefix : option jsstr) (e : jsstr) : outcome jsstr :=
  let e := below prefix e in
  if bool_decide (charAt e 0 = slash) && negb (g_nomount g) then join [Some (g_root g); Some e] else Ret e.

Definition _processReaddir2 (prefix : option jsstr) (abs : jsstr) (remain : list part) (index : nat)
    (inGlobStar : bool) (entries : option (list jsstr)) (cb : callback) : stM astate unit :=
  match entries, remain with
  | None, _ => call cb Nothing
  | Some entries, Re r _ rawGlob :: rest =>
      dotOk ← lift (dot_ok g rawGlob);
      let matchedEntries := List.filter (entry_hit g prefix r dotOk) entries in
      match matchedEntries, rest with
      | [], _ => call cb Nothing
      | _, [] =>
          if negb (g_mark g) && negb (g_stat g) then
            on_store (modify_st (touch_matches index)) ;;
            iterM (fun e => name ← lift (below_mounted prefix e); _emitMatch index name) matchedEntries ;;
            call cb Nothing
          else
            iterM (fun e => _process_cb [Lit (below prefix e)] index inGlobStar cb) matchedEntries ;;
            call cb Nothing
      | _, _ =>
          iterM (fun e => _process_cb (Lit (below prefix e) :: rest) index inGlobStar cb) matchedEntries ;;
          call cb Nothing
      end
  | _, _ => throw_st (TypeError "Cannot read property 'charAt' of undefined")
  end.

Definition _processGlobStar2 (prefix : option jsstr) (abs : jsstr) (remain : list part) (index : nat)
    (inGlobStar : bool) (entries : option (list jsstr)) (cb : callback) : stM astate unit :=
  match entries with
  | None => call cb Nothing
  | Some entries =>
      let remainWithoutGlobStar := tail remain in
      let gspref := prefix_parts prefix in
      _process_cb (gspref ++ remainWithoutGlobStar) index false cb ;;
      s ← get_st;
      if default false (symlinks (a_store s) !! abs) && inGlobStar then call cb Nothing else
      iterM (fun e =>
        if bool_decide (charAt e 0 = dot) && negb (g_dot g) then mret tt else
        _process_cb (gspref ++ Lit e :: remainWithoutGlobStar) index true cb ;;
        _process_cb (gspref ++ Lit e :: remain) index true cb) entries ;;
      call cb Nothing
  end.

(** *** resume *)
Definition resume : stM astate unit :=
  s ← get_st;
  if negb (paused s) then mret tt else
  emit EResume ;;
  modify_st (set_paused false) ;;
  eq ← (fun s => (s, Ret (emitQueue s)));
  modify_st (fun s => set_queues [] (processQueue s) s) ;;
  iterM (fun '(index, e) => _emitMatch index e) eq ;;
  pq ← (fun s => (s, Ret (processQueue s)));
  modify_st (fun s => set_queues (emitQueue s) [] s) ;;
  iterM (fun '(pattern, index, inGlobStar, cb) =>
    modify_st (fun s => set_processing (processing s - 1) s) ;;
    _process_cb pattern index inGlobStar cb) pq.
End calls.

Definition entries_of (a : answer) : option (list jsstr) := match a with Entries l => Some l | _ => None end.

Fixpoint call (steps : nat) (k : callback) (a : answer) : stM astate unit :=
  match steps with
  | O => no_fuel
  | S steps =>
      match k with
      | KDone => done_
      | KReaddir prefix abs remain index b cb => _processReaddir2 (call steps) prefix abs remain index b (entries_of a) cb
      | KGlobStar prefix abs remain index b cb => _processGlobStar2 (call steps) prefix abs remain index b (entries_of a) cb
      | KSimple prefix index cb => _processSimple2 (call steps) prefix index a cb
      | KReaddirCb abs cb => readdirCb (call steps) abs cb a
      | KLstatGlob abs cb => lstat_in_star (call steps) abs cb a
      | KLstat f abs cb => lstat_answer (call steps) f abs cb a
      | KStat f abs lstat cb => stat_answer (call steps) f abs lstat cb a
      | KRealpath index p => realpath_answer index p a
      | KRes key id => res_once (call steps) key id a
      end
  end.

(** ** Turns of the event loop *)
Inductive client_op : Type := CAbort | CPause | CResume.

Inductive turn : Type :=
| Answer (i : nat)
| Tick
| Client (op : client_op).

(** [None]: there is nothing to do for this turn. *)
Definition take_turn (steps : nat) (t : turn) (s : astate) : option (astate * outcome unit) :=
  match t with
  | Answer i =>
      match pending s !! i with
      | Some (r, k) => Some (call steps k (serve r) (set_pending (delete i (pending s)) s))
      | None => None
      end
  | Tick =>
      match waiting s with
      | (key, args) :: rest => Some (RES (call steps) key args (set_waiting rest s))
      | [] => None
      end
  | Client CAbort => Some (abort s)
  | Client CPause => Some (pause s)
  | Client CResume => Some (resume (call steps) s)
  end.

(** Turns one after the other; one with nothing to do changes nothing.  An exception
    that leaves a turn does not stop the event loop. *)
Fixpoint run_turns (steps : nat) (ts : list turn) (s : astate) : astate * list (outcome unit) :=
  match ts with
  | [] => (s, [])
  | t :: ts =>
      match take_turn steps t s with
      | Some (s1, o) => let '(s2, os) := run_turns steps ts s1 in (s2, o :: os)
      | None => run_turns steps ts s
      end
  end.

(** Nothing is under way. *)
Definition idle (s : astate) : Prop := pending s = [] /\ waiting s = [].

(** The search of the constructor. *)
Definition process_all (steps : nat) : stM astate unit :=
  let set := mm_set (g_minimatch g) in
  modify_st (fun s => set_store (set_matches (replicate (length set) None) (a_store s)) s) ;;
  if g_noprocess g then mret tt else
  match set with
  | [] => done_
  | _ => iterM (fun '(i, p) => _process_cb (call steps) p i false KDone) (imap pair set)
  end.
End async.

(** A new object; [reqs0] is what earlier searches left in the table of inflight,
    which all of them share. *)
Definition new_object (st : store) (reqs0 : gmap (list Z) (list callback)) : astate :=
  AState st reqs0 [] [] [] 0 false false false [] [] 0 ∅ None [] None.

Section entry.
Context `{FileSystem}.
Context (canon : Z -> Z) (toLowerCase : jsstr -> jsstr) (localeCompare : jsstr -> jsstr -> Z)
        (escs : esc_texts) (fuel : nat).

Inductive glob_result : Type :=
| SyncObject (o : settings * store * option (list jsstr))
| AsyncObject (g : settings) (s : astate) (o : outcome unit).

(** [new Glob(pattern, options, cb)] *)
Definition Glob (steps : nat) (reqs0 : gmap (list Z) (list callback)) (pattern : jsstr) (opts : glob_options) (has_cb : bool)
    : outcome glob_result :=
  if opt (go_flags opts) "sync" then
    if has_cb then Throw (TypeError "callback provided to sync glob")
    else o ← GlobSync canon toLowerCase localeCompare escs fuel steps pattern opts false; Ret (SyncObject o)
  else
    '(g, st) ← setopts canon escs fuel pattern opts;
    let '(s, o) := process_all toLowerCase localeCompare g has_cb steps (new_object st reqs0) in
    Ret (AsyncObject g s o).

(** [glob(pattern, options, cb)]: names at once with the option [sync], else the
    object. *)
Definition glob (steps : nat) (reqs0 : gmap (list Z) (list callback)) (pattern : jsstr) (opts : glob_options) (has_cb : bool)
    : outcome (option (list jsstr) + glob_result) :=
  if opt (go_flags opts) "sync" then
    if has_cb then Throw (TypeError "callback provided to sync glob")
    else found ← globSync canon toLowerCase localeCompare escs fuel steps pattern opts false; Ret (inl found)
  else o ← Glob steps reqs0 pattern opts has_cb; Ret (inr o).

(** [glob.hasMagic] *)
Definition hasMagic (pattern : jsstr) (opts : glob_options) : outcome bool :=
  let opts := GlobOptions (<["noprocess" := true]> (go_flags opts)) (go_cwd opts) (go_root opts) (go_maxLength opts)
                (go_ignore opts) (go_cache opts) (go_statCache opts) (go_symlinks opts) in
  o ← Glob 0 ∅ pattern opts false;
  let set := mm_set (g_minimatch (match o with SyncObject (g, _, _) => g | AsyncObject g _ _ => g end)) in
  if (1 <? length set)%nat then Ret true else
  match set with
  | [] => Throw (TypeError "Cannot read property 'length' of undefined")
  | parts :: _ => Ret (existsb (fun p => negb (is_string p)) parts)
  end.
End entry.
