(* ===== verification/GlobTurns.v ===== *)
(** * File globs: the asynchronous search, turn by turn

    The invariant of [GlobAsync] on file systems without symbolic links.  What is
    registered with inflight is a list of jobs, each of which stands for the paths it
    will report ([reach]); every registered key has exactly one place from which it
    will be answered, a pending request, a waiting tick, another registered callback
    or the call under way ([ledger]); and a number that no call increases and every
    turn decreases bounds the work that is left ([energy], [load]).  A call is then
    specified by [does]: what it takes from the stack, which paths it takes over,
    and how much energy it may spend, which is also the step budget it needs. *)
From stdpp Require Import gmap.
From S2P Require Import Prelude JsString JsArray JsState JsRegex PathModule BraceExpansion MinimatchParse Minimatch GlobCommon GlobSync GlobExact GlobAsync.

(** ** What is registered

    [R] lists the keys whose callbacks are being called, with how many of them the
    pass calls: these are no longer counted as registered. *)
Fixpoint skip (R : list (jsstr * nat)) (key : jsstr) : nat :=
  match R with
  | [] => 0
  | (k, n) :: R => if decide (k = key) then n else skip R key
  end.

Definition with_key (key : jsstr) (ks : list callback) : list (jsstr * callback) := map (pair key) ks.

Definition regs (R : list (jsstr * nat)) (m : gmap (list Z) (list callback)) : list (jsstr * callback) :=
  concat (map (fun '(key, ks) => with_key key (drop (skip R key) ks)) (map_to_list m)).

Lemma concat_perm {A} (l k : list (list A)) : l ≡ₚ k -> concat l ≡ₚ concat k.
Proof.
  induction 1 as [|x l k _ IH|x y l|l k m _ IH1 _ IH2]; cbn [concat]; [done|by rewrite IH| |by rewrite IH1].
  by rewrite !app_assoc, (Permutation_app_comm y x).
Qed.

Lemma regs_insert R m key ks :
  regs R (<[key := ks]> m) ≡ₚ with_key key (drop (skip R key) ks) ++ regs R (delete key m).
Proof.
  unfold regs. rewrite <- insert_delete_eq. etrans; [apply concat_perm, Permutation_map, map_to_list_insert|done].
  apply lookup_delete_eq.
Qed.

Lemma regs_split R m key ks : m !! key = Some ks ->
  regs R m ≡ₚ with_key key (drop (skip R key) ks) ++ regs R (delete key m).
Proof. intros Hk. rewrite <- regs_insert. by rewrite insert_id. Qed.

Lemma regs_new R m key k : m !! key = None -> skip R key = 0%nat -> regs R (<[key := [k]]> m) ≡ₚ (key, k) :: regs R m.
Proof. intros Hm Hs. rewrite regs_insert, Hs. by rewrite delete_id. Qed.

Lemma regs_push R m key ks k : m !! key = Some ks -> (skip R key <= length ks)%nat ->
  regs R (<[key := ks ++ [k]]> m) ≡ₚ (key, k) :: regs R m.
Proof.
  intros Hm Hs. rewrite regs_insert, (regs_split R m key ks) by done. unfold with_key.
  rewrite drop_app_le by done. rewrite map_app, <- app_assoc. cbn [map app]. apply Permutation_sym, Permutation_middle.
Qed.

Lemma regs_skip R R' m : (forall key ks, m !! key = Some ks -> skip R key = skip R' key) -> regs R m = regs R' m.
Proof.
  intros Hs. unfold regs. f_equal. apply map_ext_in. intros [key ks] Hi.
  apply list_elem_of_In, elem_of_map_to_list in Hi. by rewrite (Hs key ks).
Qed.

(** A pass over the callbacks of a key begins, and ends. *)
Lemma regs_begin R m key ks : m !! key = Some ks -> skip R key = 0%nat ->
  regs R m ≡ₚ with_key key ks ++ regs ((key, length ks) :: R) m.
Proof.
  intros Hm Hs. rewrite (regs_split R m key ks), (regs_split (_ :: R) m key ks) by done. cbn [skip].
  rewrite decide_True, Hs, drop_all by done. cbn [with_key map app drop].
  rewrite (regs_skip R ((key, length ks) :: R)); [done|].
  intros key' ks' Hk. cbn [skip]. case_decide; [subst; by rewrite lookup_delete_eq in Hk|done].
Qed.

Lemma regs_end R m key len ks : m !! key = Some ks -> skip R key = 0%nat ->
  regs ((key, len) :: R) m ≡ₚ with_key key (drop len ks) ++ regs R (delete key m).
Proof.
  intros Hm Hs. rewrite (regs_split _ m key ks) by done. cbn [skip]. rewrite decide_True by done.
  rewrite (regs_skip R ((key, len) :: R)); [done|].
  intros key' ks' Hk. cbn [skip]. case_decide; [subst; by rewrite lookup_delete_eq in Hk|done].
Qed.

Definition flat {A B} (f : A -> list B) (l : list A) : list B := concat (map f l).

#[export] Instance flat_proper {A B} (f : A -> list B) : Proper (Permutation ==> Permutation) (flat f).
Proof. intros l k Hlk. apply concat_perm, Permutation_map, Hlk. Qed.

Lemma flat_app {A B} (f : A -> list B) l k : flat f (l ++ k) = flat f l ++ flat f k.
Proof. unfold flat. by rewrite map_app, concat_app. Qed.

Lemma flat_one {A B} (f : A -> list B) x : flat f [x] = f x.
Proof. apply app_nil_r. Qed.

Lemma flat_cons {A B} (f : A -> list B) x l : flat f (x :: l) = f x ++ flat f l.
Proof. done. Qed.

(** The key a callback will answer. *)
Definition link_of (k : callback) : list (jsstr * option nat) :=
  match k with
  | KRes key id | KLstatGlob _ (KRes key id) | KReaddirCb _ (KRes key id) => [(key, Some id)]
  | _ => []
  end.

Definition ledger (R : list (jsstr * nat)) (s : astate) : list (jsstr * option nat) :=
  flat (fun x => link_of x.2) (regs R (reqs s)) ++ flat (fun x => link_of x.2) (pending s) ++
  map (fun x => (x.1, None)) (waiting s).

Section turns.
Context `{FileSystem} (height : nat) (Hfs : tree_like height) (Hnl : no_links).
Context (g : settings) (base : list jsstr) (Hg : plain_search g base).
Context (Hnodir : g_nodir g = false) (Hrp : g_realpath g = false) (Hnn : g_nonull g = false).
Context (toLowerCase : jsstr -> jsstr) (localeCompare : jsstr -> jsstr -> Z) (has_cb : bool).
(** What the search is to find. *)
Context (goal : list jsstr -> Prop).

Local Abbreviation here l := (at_dir base l).
Local Abbreviation spot l := (dir_name (at_dir base l)).

(** ** Energy *)
Definition entries_at (abs : jsstr) : list jsstr :=
  match readdirSync abs with FsOk es => es | FsErr _ => [] end.

(** What a job will cost: its own calls, and its children with their requests. *)
Fixpoint wt (n : nat) (abs : jsstr) (ps : list part) : nat :=
  match n with
  | O => 0
  | S n =>
      match ps with
      | [] => 3
      | Lit s :: ps => wt n (child_path abs s) ps
      | GLOBSTAR :: rest =>
          2 + (wt n abs rest + 7) +
          sum_list_with (fun e => wt n (child_path abs e) rest + wt n (child_path abs e) (GLOBSTAR :: rest) + 14) (entries_at abs)
      | _ :: rest => 2 + sum_list_with (fun e => wt n (child_path abs e) rest + 7) (entries_at abs)
      end
  end%nat.

Definition budget (ps : list part) : nat := (length ps * (height + 2) + height + 2)%nat.
Definition weight (abs : jsstr) (ps : list part) : nat := wt (budget ps) abs ps.

Definition rank (d : list jsstr) (ps : list part) : nat := (length ps * (height + 2) + (height + 1 - length d))%nat.

Lemma entries_at_ok d : dir_ok d -> Forall (fun e => dir_ok (e :: d)) (entries_at (dir_name d)) /\
  (entries_at (dir_name d) <> [] -> (length d <= height)%nat).
Proof.
  intros Hd. unfold entries_at. destruct (readdirSync (dir_name d)) as [es|er] eqn:E; [|by split].
  split; [|intros _; by apply (tl_depth _ Hfs d es)]. pose proof (tl_names _ Hfs d es Hd E) as Hn.
  eapply Forall_impl; [exact Hn|]. intros e [He1 He2]. destruct Hd as [Hd1 Hd2]. split; by constructor.
Qed.

Lemma sum_list_with_eq {A} (f f' : A -> nat) l : (forall x, x ∈ l -> f x = f' x) -> sum_list_with f l = sum_list_with f' l.
Proof.
  induction l as [|x l IH]; intros Hx; [done|]. cbn. rewrite IH, Hx; [done|by left|]. intros y Hy. apply Hx. by right.
Qed.

Lemma wt_stable n m d ps : dir_ok d -> Forall part_ok ps -> (rank d ps < n)%nat -> (rank d ps < m)%nat ->
  wt n (dir_name d) ps = wt m (dir_name d) ps.
Proof.
  revert m d ps. induction n as [|n IH]; intros m d ps Hd Hps Hn Hm; [lia|]. destruct m as [|m]; [lia|].
  destruct ps as [|p ps]; [done|]. apply Forall_cons in Hps as [Hp Hps].
  destruct (entries_at_ok d Hd) as [Hes Hlen]. rewrite Forall_forall in Hes. unfold rank in *. cbn [length] in *.
  assert (forall e, e ∈ entries_at (dir_name d) -> dir_ok (e :: d) /\ (length d <= height)%nat) as He.
  { intros e He. split; [by apply Hes|]. apply Hlen. intros E. rewrite E in He. by apply elem_of_nil in He. }
  destruct p as [|s|r src raw|]; cbn [wt]; [| | |by destruct Hp].
  - rewrite (IH m d ps) by (done || lia). f_equal. apply sum_list_with_eq.
    intros e [Hed Hl]%He. rewrite child_path_dir by done.
    rewrite (IH m (e :: d) ps), (IH m (e :: d) (GLOBSTAR :: ps)); try done; try (by constructor); cbn [length]; lia.
  - assert (dir_ok (s :: d)) as Hsd by (destruct Hd, Hp; split; by constructor).
    rewrite child_path_dir by done. apply IH; [done|done|..]; cbn [length]; lia.
  - f_equal. apply sum_list_with_eq. intros e [Hed Hl]%He. rewrite child_path_dir by done.
    f_equal. apply IH; [done|done|..]; cbn [length]; lia.
Qed.

Lemma weight_wt n d ps : dir_ok d -> Forall part_ok ps -> (rank d ps < n)%nat -> wt n (dir_name d) ps = weight (dir_name d) ps.
Proof. intros Hd Hps Hn. apply wt_stable; try done. unfold rank, budget. lia. Qed.

Lemma names_snoc l e : Forall file_name l -> file_name e -> Forall file_name (l ++ [e]).
Proof. intros Hl He. apply Forall_app. split; [done|]. constructor; [done|constructor]. Qed.

Lemma weight_lit l s ps : Forall file_name l -> file_name s -> Forall part_ok ps ->
  weight (spot l) (Lit s :: ps) = weight (spot (l ++ [s])) ps.
Proof.
  intros Hl Hs Hps. assert (dir_ok (s :: here l)) as Hd.
  { rewrite <- at_dir_snoc. apply (here_ok g base Hg). by apply names_snoc. }
  unfold weight at 1, budget. cbn [length]. rewrite Nat.add_succ_r. cbn [wt].
  rewrite child_path_dir, at_dir_snoc by done. apply weight_wt; [done|done|]. unfold rank. cbn [length]. nia.
Qed.

Lemma weight_lits l ss ps : Forall file_name l -> Forall file_name ss -> Forall part_ok ps ->
  weight (spot l) (map Lit ss ++ ps) = weight (spot (l ++ ss)) ps.
Proof.
  revert l. induction ss as [|s ss IH]; intros l Hl Hss Hps; cbn [map app]; [by rewrite app_nil_r|].
  apply Forall_cons in Hss as [Hs Hss]. rewrite weight_lit; [|done|done|apply Forall_app; split; [by apply Forall_map|done]].
  rewrite IH, <- app_assoc; try done. by apply names_snoc.
Qed.

Lemma listed_ok l es e : Forall file_name l -> listing (here l) = Some es -> e ∈ es ->
  Forall file_name (l ++ [e]) /\ child_path (spot l) e = spot (l ++ [e]) /\ (length (here l) <= height)%nat /\ there (here (l ++ [e])).
Proof.
  intros Hl Hes He. pose proof (entries_ok height Hfs g base Hg l es Hl Hes) as Hok. rewrite Forall_forall in Hok.
  destruct (Hok e He) as [Hn Ht]. pose proof (here_ok g base Hg _ Hn) as Hd. split; [done|].
  rewrite at_dir_snoc in Hd. rewrite child_path_dir, at_dir_snoc by done. split; [done|]. split; [|by rewrite <- at_dir_snoc].
  eapply (tl_depth _ Hfs); [by apply (here_ok g base Hg)|]. by apply lists_listing.
Qed.

Lemma entries_at_listing d es : listing d = Some es -> entries_at (dir_name d) = es.
Proof. unfold listing, entries_at. destruct (readdirSync (dir_name d)); [by intros [= ->]|done]. Qed.

Lemma weight_re l es r src raw rest : Forall file_name l -> Forall part_ok rest -> is_Some raw -> listing (here l) = Some es ->
  weight (spot l) (Re r src raw :: rest) = (2 + sum_list_with (fun e => weight (spot (l ++ [e])) rest + 7) es)%nat.
Proof.
  intros Hl Hps Hraw Hes. unfold weight at 1, budget. cbn [length]. rewrite Nat.add_succ_r. cbn [wt].
  rewrite (entries_at_listing _ es) by done. f_equal. apply sum_list_with_eq. intros e He.
  destruct (listed_ok l es e Hl Hes He) as (Hn & -> & Hlen & _). f_equal. apply weight_wt; [by apply (here_ok g base Hg)|done|].
  unfold rank. nia.
Qed.

Lemma weight_star l es rest : Forall file_name l -> Forall part_ok rest -> listing (here l) = Some es ->
  weight (spot l) (GLOBSTAR :: rest) =
  (2 + (weight (spot l) rest + 7) +
   sum_list_with (fun e => weight (spot (l ++ [e])) rest + weight (spot (l ++ [e])) (GLOBSTAR :: rest) + 14) es)%nat.
Proof.
  intros Hl Hps Hes. unfold weight at 1, budget. cbn [length]. rewrite Nat.add_succ_r. cbn [wt].
  rewrite (entries_at_listing _ es) by done. rewrite (weight_wt _ (here l)); [|by apply (here_ok g base Hg)|done|unfold rank; nia].
  f_equal. apply sum_list_with_eq. intros e He.
  destruct (listed_ok l es e Hl Hes He) as (Hn & -> & Hlen & _). pose proof (here_ok g base Hg _ Hn) as Hd.
  assert (length (here (l ++ [e])) = S (length (here l))) as El by by rewrite at_dir_snoc.
  rewrite (weight_wt _ (here (l ++ [e])) rest), (weight_wt _ (here (l ++ [e])) (GLOBSTAR :: rest)); try done;
    [by constructor| |]; unfold rank; rewrite El; cbn [length]; nia.
Qed.

(** *** What a callback costs, and what is owed *)
Definition energy (k : callback) : nat :=
  match k with
  | KReaddir _ abs remain _ _ _ | KGlobStar _ abs remain _ _ _ => weight abs remain
  | KLstatGlob _ _ => 5
  | KLstat _ _ _ => 3
  | KSimple _ _ _ | KReaddirCb _ _ => 2
  | KDone | KRes _ _ => 1
  | KStat _ _ _ _ | KRealpath _ _ => 0
  end%nat.

(** The number of open calls of [done]. *)
Definition debt (k : callback) : nat :=
  match k with KReaddir _ _ _ _ _ _ | KGlobStar _ _ _ _ _ _ | KLstat _ _ _ => 1 | _ => 0 end%nat.

Definition total {A} (f : callback -> nat) (l : list (A * callback)) : nat := sum_list_with (fun x => f x.2) l.

#[local] Instance total_proper {A} f : Proper (Permutation ==> eq) (@total A f).
Proof. unfold total. intros l k. induction 1; cbn; lia. Qed.

Lemma total_cons {A} f x k (l : list (A * callback)) : total f ((x, k) :: l) = (f k + total f l)%nat.
Proof. done. Qed.

Lemma total_app {A} f (l k : list (A * callback)) : total f (l ++ k) = (total f l + total f k)%nat.
Proof. apply sum_list_with_app. Qed.

Definition load (R : list (jsstr * nat)) (s : astate) : nat :=
  (total energy (regs R (reqs s)) + total energy (pending s) + length (waiting s))%nat.

Definition debts (R : list (jsstr * nat)) (s : astate) : nat := total debt (regs R (reqs s)).

(** ** Jobs

    At the directory [l] the parts [ps] remain. *)
Definition job (l : list jsstr) (b : bool) (ps : list part) : callback :=
  match ps with
  | [] => KLstat (js_join slash l) (spot l) (KSimple (js_join slash l) 0 KDone)
  | GLOBSTAR :: _ => KGlobStar (prefix_of_dir l) (spot l) ps 0 b KDone
  | _ => KReaddir (prefix_of_dir l) (spot l) ps 0 b KDone
  end.

Definition job_key (l : list jsstr) (b : bool) (ps : list part) : jsstr :=
  match ps with [] => stat_key (spot l) | _ => readdir_key (spot l) b end.

Record job_ok (l : list jsstr) (b : bool) (ps : list part) : Prop := {
  jo_names : Forall file_name l;
  jo_parts : Forall part_ok ps;
  jo_closed : closed ps;
  jo_lead : leading ps = [];
  jo_some : ps = [] -> l <> [];
  jo_goal : forall p, reached g base l b ps p -> goal p }.

Definition reach (k : callback) (p : list jsstr) : Prop :=
  exists l b ps, k = job l b ps /\ job_ok l b ps /\ reached g base l b ps p.

(** What may be registered under a key. *)
Inductive reg_ok : jsstr -> callback -> Prop :=
| rk_job l b ps : job_ok l b ps -> reg_ok (job_key l b ps) (job l b ps)
| rk_res d id : dir_ok d -> reg_ok (readdir_key (dir_name d) false) (KRes (readdir_key (dir_name d) true) id)
| rk_lstat d id : dir_ok d -> g_follow g = false -> reg_ok (lstat_key (dir_name d)) (KLstatGlob (dir_name d) (KRes (readdir_key (dir_name d) true) id)).

Inductive pend_ok : request -> callback -> Prop :=
| po_dir d b id : dir_ok d -> pend_ok (RReaddir (dir_name d)) (KReaddirCb (dir_name d) (KRes (readdir_key (dir_name d) b) id))
| po_lstat d id : dir_ok d -> pend_ok (RLstat (dir_name d)) (KRes (lstat_key (dir_name d)) id)
| po_stat d id : dir_ok d -> pend_ok (RLstat (dir_name d)) (KRes (stat_key (dir_name d)) id).

Definition right_answer (key : jsstr) (a : answer) : Prop :=
  (forall d b, dir_ok d -> key = readdir_key (dir_name d) b -> entries_of a = listing d) /\
  (forall d, dir_ok d -> key = lstat_key (dir_name d) \/ key = stat_key (dir_name d) -> a = serve (RLstat (dir_name d))).

(** ** The invariant *)

(** The places a key will be answered from: one for each registered key, and each
    function of inflight once and not called yet. *)
Record books (L : list (jsstr * option nat)) (m : gmap (list Z) (list callback)) (called : list bool) : Prop := {
  bk_keys : NoDup (map fst L);
  bk_dom key : is_Some (m !! key) <-> key ∈ map fst L;
  bk_ids : NoDup (omap snd L);
  bk_fresh id : id ∈ omap snd L -> called !! id = Some false }.

Definition no_end (e : glob_event) : Prop := match e with EEnd _ | EError _ | EAbort => False | _ => True end.

Definition unfinished (s : astate) : Prop := Forall no_end (emitted s) /\ a_found s = None /\ cb_answer s = None.

(** The result for collected matches. *)
Definition final (ms : list (option keyset)) : list jsstr :=
  let all := gather g ms in
  if g_nosort g then all
  else sort_by (if g_nocase g then alphasorti toLowerCase localeCompare else alphasort localeCompare) all.

Lemma finish_final st : finish toLowerCase localeCompare g st = (st, Ret (final (matches st))).
Proof. unfold finish. by rewrite (ps_mark _ _ Hg), (ps_ignore _ _ Hg). Qed.

Definition finished (s : astate) : Prop :=
  exists evs found, emitted s = evs ++ [EEnd found] /\ Forall no_end evs /\ a_found s = Some found /\
    cb_answer s = (if has_cb then Some (inr found) else None) /\
    found = final (matches (a_store s)).

(** [hand]: the keys that the calls under way will still answer, those of [R] among
    them; [h]: the calls of [done] they still owe. *)
Record inv (R : list (jsstr * nat)) (hand : list (jsstr * option nat)) (h : nat) (s : astate) : Prop := {
  iv_store : truthful g (a_store s);
  iv_one : length (matches (a_store s)) = 1%nat;
  iv_sound k : k ∈ keys 0 (a_store s) ->
    exists p, k = js_join slash p /\ Forall file_name p /\ goal p /\ plausible g base p;
  iv_calm : aborted s = false /\ paused s = false;
  iv_regs : Forall (fun x => reg_ok x.1 x.2) (regs R (reqs s));
  iv_pending : Forall (fun x => pend_ok x.1 x.2) (pending s);
  iv_waiting : Forall (fun x => right_answer x.1 x.2) (waiting s);
  iv_books : books (hand ++ ledger R s) (reqs s) (res_called s);
  iv_skip key : skip R key <> 0%nat -> (key, None) ∈ hand;
  iv_full key ks : reqs s !! key = Some ks -> ks <> [] /\ (skip R key <= length ks)%nat;
  iv_count : processing s = Z.of_nat (h + debts R s);
  iv_end : if decide (h + debts R s = 0)%nat then finished s else unfinished s }.

(** The paths that are found or that something registered will find. *)
Definition covered (R : list (jsstr * nat)) (s : astate) (p : list jsstr) : Prop :=
  js_join slash p ∈ keys 0 (a_store s) \/ exists x, x ∈ regs R (reqs s) /\ reach x.2 p.

Definition takes (R : list (jsstr * nat)) (s s' : astate) (P : list jsstr -> Prop) : Prop :=
  forall p, p <> [] -> there (here p) -> covered R s p \/ P p -> covered R s' p.

(** With [n] steps [m] answers the keys of [hin] that are not in [hout], pays the
    calls of [done] that make the difference of [h] and [h'], takes over the paths
    [P], and spends less than [e]. *)
Definition does (n : nat) (R : list (jsstr * nat)) (hin : list (jsstr * option nat)) (h : nat)
    (hout : list (jsstr * option nat)) (h' : nat) (P : list jsstr -> Prop) (e : nat) (m : stM astate unit) : Prop :=
  forall s, inv R hin h s -> (load R s + e <= n)%nat ->
  exists s', m s = (s', Ret tt) /\ inv R hout h' s' /\ takes R s s' P /\ (load R s' + 1 <= load R s + e)%nat.

Lemma does_seq n R H1 h1 H2 h2 H3 h3 P Q e1 e2 m1 m2 :
  does n R H1 h1 H2 h2 P e1 m1 -> does n R H2 h2 H3 h3 Q e2 m2 ->
  does n R H1 h1 H3 h3 (fun p => P p \/ Q p) (e1 + e2) (m1 ;; m2).
Proof.
  intros D1 D2 s Hs He. destruct (D1 s Hs) as (s1 & E1 & Hs1 & T1 & L1); [lia|].
  destruct (D2 s1 Hs1) as (s2 & E2 & Hs2 & T2 & L2); [lia|].
  exists s2. split_and!; [by rewrite (bind_ran _ _ _ _ _ E1)|done| |lia].
  intros p Hp Ht Hc. apply T2; [done..|]. destruct Hc as [Hc|[Hc|Hc]]; [left; by apply T1; [..|left]|left; by apply T1; [..|right]|by right].
Qed.

Lemma does_ret n R hand h P e : (forall p, ~ P p) -> (1 <= e)%nat -> does n R hand h hand h P e (mret tt).
Proof.
  intros HP He s Hs _. exists s. split_and!; [done|done| |lia]. intros p _ _ [Hc|Hc]; [done|by destruct (HP p)].
Qed.

Lemma does_weaken n n' R hin h hout h' P P' e e' m : (n' + e <= n + e')%nat -> (e <= e')%nat -> (forall p, P' p -> P p) ->
  does n R hin h hout h' P e m -> does n' R hin h hout h' P' e' m.
Proof.
  intros Hn He HP D s Hs Hl. destruct (D s Hs) as (s' & E & Hs' & T & L); [lia|].
  exists s'. split_and!; [done|done| |lia]. intros p Hp Ht Hc. apply T; [done..|]. destruct Hc; auto.
Qed.

(** *** Keeping the books *)
Lemma books_perm L L' m called : L ≡ₚ L' -> books L m called -> books L' m called.
Proof.
  intros HL [H1 H2 H3 H4]. split; [by rewrite <- HL|intros key; by rewrite <- HL|by rewrite <- HL|].
  intros id. rewrite <- HL. apply H4.
Qed.

Lemma books_new L m called key ks : books L m called -> m !! key = None ->
  books ((key, Some (length called)) :: L) (<[key := ks]> m) (called ++ [false]).
Proof.
  intros [H1 H2 H3 H4] Hk. split; cbn [map fst omap list_omap snd].
  - constructor; [|done]. intros Hi%H2. rewrite Hk in Hi. by destruct Hi.
  - intros key'. rewrite elem_of_cons. destruct (decide (key' = key)) as [->|Hne].
    + rewrite lookup_insert_eq. naive_solver.
    + rewrite lookup_insert_ne by done. rewrite H2. naive_solver.
  - constructor; [|done]. intros Hi%H4. apply lookup_lt_Some in Hi. lia.
  - intros id [->|Hi%H4]%elem_of_cons; [by rewrite lookup_app_r, Nat.sub_diag|].
    rewrite lookup_app_l; [done|by eapply lookup_lt_Some].
Qed.

Lemma books_put L m called key ks : books L m called -> is_Some (m !! key) -> books L (<[key := ks]> m) called.
Proof.
  intros [H1 H2 H3 H4] Hk. split; [done| |done|done]. intros key'. rewrite <- H2.
  destruct (decide (key' = key)) as [->|Hne]; [by rewrite lookup_insert_eq; split|by rewrite lookup_insert_ne].
Qed.

Lemma books_call L m called key id : books ((key, Some id) :: L) m called ->
  called !! id = Some false /\ books ((key, None) :: L) m (<[id := true]> called).
Proof.
  intros [H1 H2 H3 H4]. split; [apply H4; by left|]. cbn in *. apply NoDup_cons in H3 as [Hi H3].
  split; [done|done|done|]. intros id' Hi'. rewrite list_lookup_insert_ne; [apply H4; by right|]. by intros ->.
Qed.

Lemma books_drop L m called key x : books ((key, x) :: L) m called -> books L (delete key m) called.
Proof.
  intros [H1 H2 H3 H4]. cbn in *. apply NoDup_cons in H1 as [Hi H1]. split; [done| |by destruct x; [apply NoDup_cons in H3 as [_ ?]|]|].
  - intros key'. destruct (decide (key' = key)) as [->|Hne].
    + rewrite lookup_delete_eq. split; [by intros []|done].
    + rewrite lookup_delete_ne, H2, elem_of_cons by done. naive_solver.
  - intros id Hid. apply H4. destruct x; [by right|done].
Qed.

Lemma books_none L m called key x : books ((key, x) :: L) m called -> exists ks, m !! key = Some ks.
Proof. intros [_ H2 _ _]. apply H2. by left. Qed.

Lemma ledger_regs R s l : regs R (reqs s) ≡ₚ l ->
  ledger R s ≡ₚ flat (fun x => link_of x.2) l ++ flat (fun x => link_of x.2) (pending s) ++ map (fun x => (x.1, None)) (waiting s).
Proof. intros Hl. unfold ledger. by rewrite Hl. Qed.

(** *** inflight *)
Lemma inflight_reg R hand h key k s : inv R (link_of k ++ hand) (h + debt k) s -> reg_ok key k ->
  exists s' r, inflight key k s = (s', Ret r) /\ a_store s' = a_store s /\
    inv R (match r with None => [] | Some k' => link_of k' end ++ hand) h s' /\
    (forall p, covered R s p \/ reach k p -> covered R s' p) /\ load R s' = (load R s + energy k)%nat /\
    match r with None => True | Some k' => exists id, k' = KRes key id end.
Proof.
  intros Hs Hk. unfold inflight. rewrite (bind_ran _ _ s s s) by done.
  set (s1 r c := set_called c (set_reqs r s)).
  assert (forall r c new, regs R r ≡ₚ (key, k) :: regs R (reqs s) ->
    books (new ++ (link_of k ++ hand) ++ ledger R s) r c ->
    (forall key' ks, r !! key' = Some ks -> ks <> [] /\ (skip R key' <= length ks)%nat) ->
    inv R (new ++ hand) h (s1 r c) /\ (forall p, covered R s p \/ reach k p -> covered R (s1 r c) p) /\
    load R (s1 r c) = (load R s + energy k)%nat) as Hput.
  { intros r c new Hr Hb Hfull. assert (debts R (s1 r c) = (debt k + debts R s)%nat) as Hd by (unfold debts; cbn; by rewrite Hr).
    destruct Hs. split_and!.
    - split; try done.
      + cbn. rewrite Hr. by constructor.
      + eapply books_perm; [|exact Hb]. rewrite (ledger_regs R (s1 r c) _ Hr). unfold ledger, flat. cbn [map concat snd].
        solve_Permutation.
      + intros key' Hsk. apply elem_of_app. right. specialize (iv_skip0 key' Hsk). apply elem_of_app in iv_skip0 as [Hi|?]; [|done].
        destruct k; cbn in Hi; repeat case_match; try (by apply elem_of_nil in Hi); by apply list_elem_of_singleton in Hi.
      + cbn. rewrite iv_count0, Hd. lia.
      + rewrite Hd. replace (h + (debt k + debts R s))%nat with (h + debt k + debts R s)%nat by lia. done.
    - intros p Hp. unfold covered. cbn. setoid_rewrite Hr. setoid_rewrite elem_of_cons.
      destruct Hp as [[Hp|(x & Hx & Hp)]|Hp]; [by left|right; exists x; by split; [right|]|right; exists (key, k); by split; [left|]].
    - unfold load. cbn [reqs pending waiting s1 set_called set_reqs]. rewrite Hr, total_cons. lia. }
  destruct (reqs s !! key) as [ks|] eqn:E.
  - destruct (Hput (<[key := ks ++ [k]]> (reqs s)) (res_called s) []) as (K1 & K2 & K3).
    + apply regs_push; [done|by eapply iv_full].
    + cbn [app]. apply books_put; [apply Hs|by rewrite E].
    + intros key' ks'. destruct (decide (key' = key)) as [->|Hne].
      * rewrite lookup_insert_eq. intros [= <-]. split; [by destruct ks|]. rewrite length_app.
        destruct (iv_full _ _ _ _ Hs key ks E). lia.
      * rewrite lookup_insert_ne by done. by eapply iv_full.
    + exists (set_reqs (<[key := ks ++ [k]]> (reqs s)) s), None. by split_and!.
  - assert (skip R key = 0%nat) as Hz.
    { destruct (decide (skip R key = 0%nat)) as [|Hsk]; [done|].
      apply (iv_skip _ _ _ _ Hs) in Hsk. assert (is_Some (reqs s !! key)) as [? ?]; [|congruence].
      apply (bk_dom _ _ _ (iv_books _ _ _ _ Hs)). rewrite map_app, elem_of_app. left. by apply (list_elem_of_fmap_2 fst _ (key, None)). }
    destruct (Hput (<[key := [k]]> (reqs s)) (res_called s ++ [false]) [(key, Some (length (res_called s)))]) as (K1 & K2 & K3).
    + by apply regs_new.
    + cbn [app]. apply books_new; [apply Hs|done].
    + intros key' ks'. destruct (decide (key' = key)) as [->|Hne].
      * rewrite lookup_insert_eq, Hz. intros [= <-]. split; [done|lia].
      * rewrite lookup_insert_ne by done. by eapply iv_full.
    + eexists _, _. split_and!; [reflexivity|done|exact K1|exact K2|exact K3|by eexists].
Qed.

(** *** Steps that leave the work alone *)
Record same_work (s s' : astate) : Prop := {
  sw_reqs : reqs s' = reqs s;
  sw_pending : pending s' = pending s;
  sw_waiting : waiting s' = waiting s;
  sw_called : res_called s' = res_called s;
  sw_processing : processing s' = processing s;
  sw_calm : aborted s' = aborted s /\ paused s' = paused s }.

Definition sound (st : store) : Prop :=
  forall k, k ∈ keys 0 st -> exists p, k = js_join slash p /\ Forall file_name p /\ goal p /\ plausible g base p.

Lemma same_work_inv R hand h s s' : inv R hand h s -> same_work s s' -> truthful g (a_store s') ->
  length (matches (a_store s')) = 1%nat -> sound (a_store s') ->
  (if decide (h + debts R s = 0)%nat then finished s' else unfinished s') -> inv R hand h s'.
Proof.
  intros [] [E1 E2 E3 E4 E5 [E6 E7]] Ht Hone Hsound Hend.
  assert (ledger R s' = ledger R s) as El by (unfold ledger; by rewrite E1, E2, E3).
  assert (debts R s' = debts R s) as Ed by (unfold debts; by rewrite E1).
  split; rewrite ?E1, ?E2, ?E3, ?E4, ?E5, ?E6, ?E7, ?El, ?Ed; done.
Qed.

Lemma same_work_load R s s' : same_work s s' -> load R s' = load R s.
Proof. intros [E1 E2 E3 _ _ _]. unfold load. by rewrite E1, E2, E3. Qed.

Lemma same_work_covered R s s' : same_work s s' -> keys 0 (a_store s) ⊆ keys 0 (a_store s') ->
  forall p, covered R s p -> covered R s' p.
Proof. intros [E1 _ _ _ _ _] Hk p [Hp|Hp]; [left; auto|right; by rewrite E1]. Qed.

(** Looking things up on the store. *)
Lemma on_store_looks {A} (m : stM store A) Q R hand h s : looks g m Q -> inv R hand h s ->
  exists a st, on_store m s = (set_store st s, Ret a) /\ inv R hand h (set_store st s) /\ Q a st /\
    load R (set_store st s) = load R s /\ forall p, covered R s p -> covered R (set_store st s) p.
Proof.
  intros Hm Hs. destruct (Hm (a_store s) (iv_store _ _ _ _ Hs)) as (a & st & E & Ht & [Eq _] & HQ).
  assert (same_work s (set_store st s)) as Hw by done.
  assert (keys 0 st = keys 0 (a_store s)) as Ek by (unfold keys; by rewrite Eq).
  exists a, st. split_and!; [unfold on_store; by rewrite E| |done|by apply same_work_load|].
  - eapply same_work_inv; [exact Hs|done|done|..].
    + rewrite <- (iv_one _ _ _ _ Hs). cbn. by rewrite Eq.
    + unfold sound. cbn. rewrite Ek. apply Hs.
    + pose proof (iv_end _ _ _ _ Hs) as He. case_decide; [|done]. unfold finished in *. cbn. by rewrite Eq.
  - apply same_work_covered; [done|]. cbn. by rewrite Ek.
Qed.

Lemma skip_hand key k hand : (key, None) ∈ link_of k ++ hand -> (key, None) ∈ hand.
Proof.
  intros [Hi|?]%elem_of_app; [|done].
  destruct k; cbn in Hi; repeat case_match; try (by apply elem_of_nil in Hi); by apply list_elem_of_singleton in Hi.
Qed.

(** A request takes over the answer it is to give. *)
Lemma ask_ok R hand h r k s : inv R (link_of k ++ hand) h s -> pend_ok r k ->
  exists s', ask r k s = (s', Ret tt) /\ inv R hand h s' /\ load R s' = (load R s + energy k)%nat /\
    forall p, covered R s p -> covered R s' p.
Proof.
  intros Hs Hk. eexists. split; [reflexivity|]. split_and!; [|unfold load; cbn; unfold total; rewrite sum_list_with_app; cbn; lia|done].
  destruct Hs. split; try done.
  - cbn. apply Forall_app. split; [done|]. by constructor; [|constructor].
  - eapply books_perm; [|exact iv_books0]. unfold ledger. cbn [reqs pending waiting set_pending]. rewrite flat_app, flat_one.
    cbn [snd]. solve_Permutation.
  - intros key Hsk. by eapply skip_hand, iv_skip0.
Qed.

(** *** [done] and matches *)
Lemma done_ok n R hand h : does n R hand (S h) hand h (fun _ => False) 1 (done_ toLowerCase localeCompare g has_cb).
Proof.
  intros s Hs _. unfold done_. set (s1 := set_processing (processing s - 1) s).
  assert (processing s1 = Z.of_nat (h + debts R s)) as Hc.
  { cbn. rewrite (iv_count _ _ _ _ Hs). lia. }
  pose proof (iv_end _ _ _ _ Hs) as Hend. rewrite decide_False in Hend by lia.
  rewrite (bind_ran _ _ s s1 tt) by done. rewrite (bind_ran _ _ s1 s1 s1) by done. rewrite Hc.
  assert (forall s', same_work s1 s' -> a_store s' = a_store s ->
    (if decide (h + debts R s = 0)%nat then finished s' else unfinished s') ->
    inv R hand h s' /\ takes R s s' (fun _ => False) /\ (load R s' + 1 <= load R s + 1)%nat) as Hdone.
  { intros s' [E1 E2 E3 E4 E5 [E6 E7]] Est He. destruct Hs.
    assert (ledger R s' = ledger R s) as El by (unfold ledger; by rewrite E1, E2, E3).
    assert (debts R s' = debts R s) as Ed by (unfold debts; by rewrite E1).
    split_and!.
    - split; rewrite ?Est, ?E1, ?E2, ?E3, ?E4, ?E5, ?E6, ?E7, ?El, ?Ed; done.
    - intros p _ _ [Hp|[]]. unfold covered in *. by rewrite Est, E1.
    - unfold load. rewrite E1, E2, E3. done. }
  destruct (Z.leb_spec (Z.of_nat (h + debts R s)) 0) as [Hz|Hz].
  - destruct Hend as (Hev & Hfo & Hcb). unfold _finish. cbn [finish_rounds].
    rewrite (bind_ran _ _ s1 s1 s1) by done. cbn [aborted s1 set_processing].
    rewrite (proj1 (iv_calm _ _ _ _ Hs)), Hrp. cbn [andb].
    unfold on_store. rewrite (bind_ran _ _ s1 s1 (final (matches (a_store s)))); [|cbn; by rewrite finish_final].
    set (found := final (matches (a_store s))). set (s2 := add_event (EEnd found) (set_found (Some found) s1)).
    exists (if has_cb then answer_once (inr found) s2 else s2). split; [unfold emit; by destruct has_cb|].
    apply Hdone; [by destruct has_cb|by destruct has_cb|]. rewrite decide_True by lia. exists (emitted s), found.
    unfold s2. destruct has_cb; cbn; rewrite ?Hcb; by split_and!.
  - exists s1. split; [done|]. apply Hdone; [done|done|]. by rewrite decide_False by lia.
Qed.

Lemma join_abs p : Forall file_name p -> p <> [] -> makeAbs g (js_join slash p) = Ret (spot p).
Proof. by apply makeAbs_join. Qed.

Lemma emit_same e s : no_end e -> (emit has_cb e s) = (add_event e s, Ret tt).
Proof. intros He. unfold emit. by destruct e. Qed.

(** A match that is reported is in the set afterwards. *)
Lemma emitMatch_ok R hand h p ks s : inv R hand (S h) s -> matches (a_store s) !! 0%nat = Some (Some ks) ->
  Forall file_name p -> p <> [] -> goal p -> plausible g base p ->
  exists s', _emitMatch toLowerCase g has_cb 0 (js_join slash p) s = (s', Ret tt) /\ inv R hand (S h) s' /\
    matches (a_store s') !! 0%nat = Some (Some (key_add (js_join slash p) ks)) /\ same_work s s'.
Proof.
  intros Hs Hm Hp Hne Hgoal Hpl. unfold _emitMatch. rewrite (bind_ran _ _ s s s) by done.
  destruct (iv_calm _ _ _ _ Hs) as [Ha Hpa]. rewrite Ha. unfold mjoin at 1, option_join. rewrite Hm.
  unfold key_add at 1. destruct (bool_decide (js_join slash p ∈ ks)) eqn:Ein.
  - exists s. split_and!; [done|done| |done]. rewrite Hm. done.
  - unfold lift at 1. unfold isIgnored. rewrite (ps_ignore _ _ Hg). cbn [someM].
    rewrite (bind_ran _ _ s s false) by done. rewrite Hpa. unfold lift. rewrite join_abs by done.
    rewrite (bind_ran _ _ s s (spot p)) by done. rewrite Hnodir, (ps_mark _ _ Hg). cbn [andb].
    rewrite (bind_ran _ _ s s (js_join slash p)) by done.
    set (st := put_match 0 (js_join slash p) (a_store s)).
    destruct (put_match_grows g 0 (js_join slash p) ks (a_store s) (iv_store _ _ _ _ Hs) Hm) as (K1 & (_ & K2 & _) & K3).
    fold st in K1, K2, K3.
    rewrite (bind_ran _ _ s (set_store st s) tt) by done.
    set (s1 := set_store st s). rewrite (bind_ran _ _ s1 s1 s1) by done.
    assert (forall s', same_work s1 s' -> a_store s' = st -> unfinished s' -> inv R hand (S h) s' /\
      matches (a_store s') !! 0%nat = Some (Some (ks ++ [js_join slash p])) /\ same_work s s') as Hfin.
    { intros s' Hw Est Hu. unfold key_add in K3. rewrite Ein in K3. split_and!; [|by rewrite Est|destruct Hw; by split].
      eapply same_work_inv; [exact Hs|destruct Hw; by split|by rewrite Est|rewrite Est, K2; apply Hs| |by rewrite decide_False by lia].
      intros k. rewrite Est. rewrite (keys_slot _ _ _ K3), elem_of_app, list_elem_of_singleton.
      intros [Hk| ->]; [apply Hs; by rewrite (keys_slot _ _ _ Hm)|]. by exists p. }
    pose proof (iv_end _ _ _ _ Hs) as Hend. rewrite decide_False in Hend by lia. destruct Hend as (Hev & Hfo & Hcb).
    set (ev := match mjoin (statCache (a_store s1) !! spot p) with Some stx => [EStat (js_join slash p) stx] | None => [] end).
    exists (add_event (EMatch (js_join slash p)) (foldl (fun s e => add_event e s) s1 ev)).
    split; [|apply Hfin]; subst ev; destruct (mjoin (statCache (a_store s1) !! spot p)) as [stx|]; try done.
    + split_and!; try done. cbn. rewrite !Forall_app. by repeat constructor.
    + split_and!; try done. cbn. rewrite !Forall_app. by repeat constructor.
Qed.

(** *** Answering a key *)
Lemma readdir_key_inj a b a' b' : readdir_key a b = readdir_key a' b' -> a = a' /\ b = b'.
Proof.
  unfold readdir_key. intros E%app_inv_head%app_inv_head.
  assert (b = b') as <-.
  { apply (f_equal reverse) in E. rewrite !reverse_app in E. by destruct b, b'. }
  split; [|done]. by apply app_inv_tail in E.
Qed.

Lemma lstat_key_inj a a' : lstat_key a = lstat_key a' -> a = a'.
Proof. unfold lstat_key. by intros E%app_inv_head%app_inv_head. Qed.

Lemma stat_key_inj a a' : stat_key a = stat_key a' -> a = a'.
Proof. unfold stat_key. by intros E%app_inv_head%app_inv_head. Qed.

Lemma right_readdir d b a : dir_ok d -> entries_of a = listing d -> right_answer (readdir_key (dir_name d) b) a.
Proof.
  intros Hd Ha. split; [|by intros d' _ [?|?]].
  intros d' b' Hd' [E _]%readdir_key_inj. apply dir_name_inj in E as <-; done.
Qed.

Lemma right_lstat d key : dir_ok d -> key = lstat_key (dir_name d) \/ key = stat_key (dir_name d) ->
  right_answer key (serve (RLstat (dir_name d))).
Proof.
  intros Hd Hk. split; [by intros d' b' _ ->; destruct Hk|].
  intros d' Hd' Hk'. assert (dir_name d = dir_name d') as ->; [|done].
  destruct Hk as [->| ->], Hk' as [E|E]; try done; [by apply lstat_key_inj|by apply stat_key_inj].
Qed.

(** The callbacks of a key are called when the answer for it is there. *)
Definition calls_ok (n : nat) (call : callback -> answer -> stM astate unit) : Prop :=
  forall R hand h key k a, reg_ok key k -> right_answer key a ->
  does n R (link_of k ++ hand) (h + debt k) hand h (reach k) (energy k) (call k a).

Section answering.
Context (n : nat) (call : callback -> answer -> stM astate unit) (Hcall : calls_ok n call).

Definition sum_of (f : callback -> nat) (ks : list callback) : nat := sum_list_with f ks.

Lemma total_with_key f key ks : total f (with_key key ks) = sum_of f ks.
Proof. unfold total, with_key, sum_of. induction ks as [|k ks IH]; [done|]. cbn. by rewrite IH. Qed.

Lemma flat_with_key key ks : flat (fun x : jsstr * callback => link_of x.2) (with_key key ks) = flat link_of ks.
Proof. unfold flat, with_key. by rewrite map_map. Qed.

Lemma pass_ok R hand h key a cbs s : right_answer key a -> Forall (reg_ok key) cbs ->
  inv R (flat link_of cbs ++ hand) (h + sum_of debt cbs) s -> (load R s + sum_of energy cbs <= n)%nat ->
  exists s', iterM (fun cb => call cb a) cbs s = (s', Ret tt) /\ inv R hand h s' /\
    takes R s s' (fun p => exists cb, cb ∈ cbs /\ reach cb p) /\
    (load R s' + length cbs <= load R s + sum_of energy cbs)%nat.
Proof.
  intros Ha Hcbs. revert s. induction Hcbs as [|cb cbs Hcb Hcbs IH]; intros s Hs He.
  - exists s. cbn in Hs. rewrite Nat.add_0_r in Hs. split_and!; [done|done| |cbn; lia].
    intros p _ _ [?|(cb & Hi%elem_of_nil & _)]; done.
  - cbn [iterM]. unfold sum_of in *. cbn [sum_list_with] in *. rewrite flat_cons, <- app_assoc in Hs.
    replace (h + (debt cb + sum_list_with debt cbs))%nat with (h + sum_list_with debt cbs + debt cb)%nat in Hs by lia.
    destruct (Hcall R _ _ key cb a Hcb Ha s Hs) as (s1 & E1 & Hs1 & T1 & L1); [lia|].
    destruct (IH s1 Hs1) as (s2 & E2 & Hs2 & T2 & L2); [lia|].
    exists s2. split_and!; [by rewrite (bind_ran _ _ _ _ _ E1)|done| |cbn [length]; lia].
    intros p Hp Ht Hc. apply T2; [done..|]. destruct Hc as [Hc|(cb' & [->|Hi]%elem_of_cons & Hc)].
    + left. apply T1; [done..|by left].
    + left. apply T1; [done..|by right].
    + right. by exists cb'.
Qed.

(** The end of an answer: the requests [r] and the waiting ticks [w] that are left. *)
Lemma finally_keeps R hand h key len ks s r w : inv ((key, len) :: R) ((key, None) :: hand) h s -> skip R key = 0%nat ->
  reqs s !! key = Some ks ->
  regs R r ≡ₚ regs ((key, len) :: R) (reqs s) ->
  books (hand ++ flat (fun x => link_of x.2) (regs R r) ++ flat (fun x => link_of x.2) (pending s) ++ map (fun x => (x.1, None)) w) r (res_called s) ->
  Forall (fun x => right_answer x.1 x.2) w -> (length w <= length (waiting s) + 1)%nat ->
  (forall key' ks', r !! key' = Some ks' -> (key' <> key /\ reqs s !! key' = Some ks') \/ (key' = key /\ ks' <> [])) ->
  let s' := set_waiting w (set_reqs r s) in
  inv R hand h s' /\ (forall p, covered ((key, len) :: R) s p -> covered R s' p) /\
  (load R s' <= load ((key, len) :: R) s + 1)%nat.
Proof.
  intros Hs Hz Hks Hr Hb Hw Hl Hf s''. destruct (iv_full _ _ _ _ Hs key ks Hks) as [_ Hlen]. cbn [skip] in Hlen. rewrite decide_True in Hlen by done.
  assert (debts R s'' = debts ((key, len) :: R) s) as Hd by (unfold debts; cbn; by rewrite Hr).
  split_and!.
  - destruct Hs. split; try done.
    + cbn. by rewrite Hr.
    + intros key' Hsk. destruct (decide (key' = key)) as [->|Hne]; [done|].
      specialize (iv_skip0 key'). cbn [skip] in iv_skip0. rewrite decide_False in iv_skip0 by done.
      specialize (iv_skip0 Hsk) as [[=]|?]%elem_of_cons; done.
    + intros key' ks' [[Hne Hk]|[-> Hk]]%Hf; [|split; [done|lia]].
      specialize (iv_full0 key' ks' Hk). cbn [skip] in iv_full0. by rewrite decide_False in iv_full0.
    + by rewrite Hd.
    + by rewrite Hd.
  - intros p [Hp|(x & Hx & Hp)]; [by left|right; exists x]. cbn. by rewrite Hr.
  - unfold load. cbn [reqs pending waiting s'' set_waiting set_reqs]. rewrite Hr. lia.
Qed.

(** [finally]: the callbacks registered meanwhile wait for a tick. *)
Lemma finally_ok R hand h key a len s : inv ((key, len) :: R) ((key, None) :: hand) h s -> skip R key = 0%nat ->
  right_answer key a ->
  let s' := res_finally key len a s in
  inv R hand h s' /\ (forall p, covered ((key, len) :: R) s p -> covered R s' p) /\
  (load R s' <= load ((key, len) :: R) s + 1)%nat.
Proof.
  intros Hs Hz Ha s'. destruct (books_none _ _ _ _ _ (iv_books _ _ _ _ Hs)) as (ks & Hks).
  pose proof (regs_end R (reqs s) key len ks Hks Hz) as Hend.
  destruct (iv_full _ _ _ _ Hs key ks Hks) as [_ Hlen]. cbn [skip] in Hlen. rewrite decide_True in Hlen by done.
  pose proof (fun r w => finally_keeps R hand h key len ks s r w Hs Hz Hks) as Hput.
  unfold s', res_finally. rewrite Hks. destruct (Nat.ltb_spec len (length ks)) as [Hlt|Hge].
  - apply Hput.
    + rewrite Hend, regs_insert, Hz. by rewrite drop_0.
    + eapply books_perm; [|apply books_put; [apply Hs|by rewrite Hks]]. unfold ledger.
      rewrite map_app. cbn [map fst].
      assert (regs R (<[key:=drop len ks]> (reqs s)) ≡ₚ regs ((key, len) :: R) (reqs s)) as ->.
      { rewrite Hend, regs_insert, Hz. by rewrite drop_0. }
      cbn [app]. solve_Permutation.
    + apply Forall_app. split; [apply Hs|]. by constructor; [|constructor].
    + by rewrite length_app.
    + intros key' ks'. destruct (decide (key' = key)) as [->|Hne].
      * rewrite lookup_insert_eq. intros [= <-]. right. split; [done|]. intros E%(f_equal length). rewrite length_drop in E. cbn in E. lia.
      * rewrite lookup_insert_ne by done. by left.
  - rewrite drop_ge in Hend by done. cbn [with_key map app] in Hend.
    replace (set_reqs (delete key (reqs s)) s) with (set_waiting (waiting s) (set_reqs (delete key (reqs s)) s)) by done.
    apply Hput; [by rewrite Hend| |apply Hs|lia|].
    + pose proof (iv_books _ _ _ _ Hs) as Hb. cbn [app] in Hb. apply books_drop in Hb.
      eapply books_perm; [|exact Hb]. unfold ledger. by rewrite Hend.
    + intros key' ks' [Hne Hk]%lookup_delete_Some. by left.
Qed.

Lemma RES_ok R hand h key a : skip R key = 0%nat -> right_answer key a ->
  forall s, inv R ((key, None) :: hand) h s -> (load R s <= n)%nat ->
  exists s', RES call key a s = (s', Ret tt) /\ inv R hand h s' /\ takes R s s' (fun _ => False) /\ (load R s' <= load R s)%nat.
Proof.
  intros Hz Ha s Hs Hl. destruct (books_none _ _ _ _ _ (iv_books _ _ _ _ Hs)) as (ks & Hks).
  unfold RES. rewrite (bind_ran _ _ s s s) by done. rewrite Hks. unfold try_finally.
  set (R' := (key, length ks) :: R). pose proof (regs_begin R (reqs s) key ks Hks Hz) as Hb. fold R' in Hb.
  assert (load R s = (sum_of energy ks + load R' s)%nat) as El by (unfold load; rewrite Hb, total_app, total_with_key; lia).
  assert (debts R s = (sum_of debt ks + debts R' s)%nat) as Ed by (unfold debts; by rewrite Hb, total_app, total_with_key).
  destruct (pass_ok R' ((key, None) :: hand) h key a ks s) as (s1 & E1 & Hs1 & T1 & L1).
  - done.
  - pose proof (iv_regs _ _ _ _ Hs) as Hr. rewrite Hb, Forall_app in Hr. destruct Hr as [Hr _].
    unfold with_key in Hr. rewrite Forall_map in Hr. exact Hr.
  - destruct Hs. split; try done.
    + rewrite Hb, Forall_app in iv_regs0. apply iv_regs0.
    + eapply books_perm; [|exact iv_books0]. rewrite (ledger_regs R s _ Hb), flat_app, flat_with_key. unfold ledger. solve_Permutation.
    + intros key' Hsk. apply elem_of_app. right. cbn [skip R'] in Hsk. case_decide as E; [subst; by left|]. by apply iv_skip0.
    + intros key' ks' Hk. destruct (iv_full0 key' ks' Hk) as [? ?]. split; [done|]. unfold R'; cbn [skip]. destruct (decide (key = key')) as [E|E]; [rewrite <- E, Hks in Hk; injection Hk as <-; lia|done].
    + rewrite iv_count0, Ed. lia.
    + rewrite Ed in iv_end0. replace (h + sum_of debt ks + debts R' s)%nat with (h + (sum_of debt ks + debts R' s))%nat by lia. done.
  - lia.
  - rewrite E1. destruct (finally_ok R hand h key a (length ks) s1 Hs1 Hz Ha) as (K1 & K2 & K3).
    eexists. split_and!; [reflexivity|exact K1| |].
    + intros p Hp Ht [Hc|[]]. apply K2, T1; [done..|]. destruct Hc as [Hc|(x & Hx & Hc)]; [by left; left|].
      rewrite Hb, elem_of_app in Hx. destruct Hx as [Hx|Hx]; [|by left; right; exists x].
      unfold with_key in Hx. apply list_elem_of_fmap in Hx as (cb & -> & Hi). right. by exists cb.
    + destruct (iv_full _ _ _ _ Hs key ks Hks) as [Hne _]. assert (1 <= length ks)%nat by (destruct ks; cbn; [done|lia]). fold R' in K3. lia.
Qed.

Lemma res_once_ok R hand h key id a : right_answer key a ->
  forall s, inv R ((key, Some id) :: hand) h s -> (load R s <= n)%nat ->
  exists s', res_once call key id a s = (s', Ret tt) /\ inv R hand h s' /\ takes R s s' (fun _ => False) /\ (load R s' <= load R s)%nat.
Proof.
  intros Ha s Hs Hl. destruct (books_call _ _ _ _ _ (iv_books _ _ _ _ Hs)) as [Hf Hb].
  unfold res_once. rewrite (bind_ran _ _ s s s) by done. rewrite Hf. change (default false (Some false)) with false. cbv iota.
  set (s1 := set_called (<[id := true]> (res_called s)) s). rewrite (bind_ran _ _ s s1 tt) by done.
  refine (RES_ok R hand h key a _ Ha s1 _ Hl).
  - destruct (decide (skip R key = 0%nat)) as [|Hsk]; [done|]. apply (iv_skip _ _ _ _ Hs) in Hsk as [[=]|Hi]%elem_of_cons.
    pose proof (bk_keys _ _ _ (iv_books _ _ _ _ Hs)) as Hnd. cbn in Hnd. apply NoDup_cons in Hnd as [Hni _].
    destruct Hni. rewrite map_app, elem_of_app. left. by apply (list_elem_of_fmap_2 fst _ (key, None)).
  - destruct Hs. split; try done. intros key' Hsk. apply elem_of_cons. right. specialize (iv_skip0 key' Hsk). by apply elem_of_cons in iv_skip0 as [[=]|?].
Qed.
End answering.

(** ** The walk, given what the calls do *)
Definition good_answer (p : list jsstr) (a : answer) : Prop :=
  match a with
  | Exists c => (is_truthy c = true -> plausible g base p) /\ (there (here p) -> is_truthy c = true)
  | _ => ~ there (here p)
  end.

Section walking.
Context (n : nat) (call : callback -> answer -> stM astate unit).
Context (Hdone : forall R hand h, does n R hand (S h) hand h (fun _ => False) 1 (call KDone Nothing)).
Context (Hres : forall R hand h key id a, right_answer key a ->
  does n R ((key, Some id) :: hand) h hand h (fun _ => False) 1 (call (KRes key id) a)).
Context (Hsimple : forall R hand h p a, Forall file_name p -> p <> [] -> goal p -> good_answer p a ->
  does n R hand (S h) hand h (fun q => q = p) 2 (call (KSimple (js_join slash p) 0 KDone) a)).

(** *** Reading directories *)
Lemma rest_ok R hand h d b id s : dir_ok d -> inv R ((readdir_key (dir_name d) b, Some id) :: hand) h s -> (load R s + 3 <= n)%nat ->
  exists s', (match cache (a_store s) !! dir_name d with
              | Some CFalse | Some CFile => call (KRes (readdir_key (dir_name d) b) id) Nothing
              | Some (CEntries c) => call (KRes (readdir_key (dir_name d) b) id) (Entries c)
              | _ => ask (RReaddir (dir_name d)) (KReaddirCb (dir_name d) (KRes (readdir_key (dir_name d) b) id))
              end) s = (s', Ret tt) /\ inv R hand h s' /\ takes R s s' (fun _ => False) /\ (load R s' <= load R s + 2)%nat.
Proof.
  intros Hd Hs Hl. set (key := readdir_key (dir_name d) b) in *.
  assert (forall a, entries_of a = listing d -> exists s', call (KRes key id) a s = (s', Ret tt) /\ inv R hand h s' /\
    takes R s s' (fun _ => False) /\ (load R s' <= load R s + 2)%nat) as Hc.
  { intros a Ha. destruct (Hres R hand h key id a (right_readdir d b a Hd Ha) s Hs) as (s' & E & Hs' & T & L); [lia|].
    exists s'. split_and!; [done..|lia]. }
  assert (exists s', ask (RReaddir (dir_name d)) (KReaddirCb (dir_name d) (KRes key id)) s = (s', Ret tt) /\ inv R hand h s' /\
    takes R s s' (fun _ => False) /\ (load R s' <= load R s + 2)%nat) as Hask.
  { destruct (ask_ok R hand h (RReaddir (dir_name d)) (KReaddirCb (dir_name d) (KRes key id)) s Hs) as (s' & E & Hs' & L & T); [by constructor|].
    exists s'. split_and!; [done|done| |rewrite L; cbn; lia]. intros p _ _ [Hp|[]]. by apply T. }
  pose proof (tr_cache g _ (iv_store _ _ _ _ Hs) d) as Htr.
  destruct (cache (a_store s) !! dir_name d) as [[| | | |c]|]; [exact Hask| | |exact Hask| |exact Hask];
    specialize (Htr _ Hd eq_refl); cbn in Htr; apply Hc; cbn.
  - symmetry. by eapply gone_unlisted.
  - by destruct Htr.
  - symmetry. by apply lists_listing.
Qed.

Lemma readdir_ok R hand h d b k star : dir_ok d -> reg_ok (readdir_key (dir_name d) b) k ->
  (b = true -> forall id, does n R ((readdir_key (dir_name d) b, Some id) :: hand) h hand h (fun _ => False) 7
     (star (KRes (readdir_key (dir_name d) b) id))) ->
  does n R (link_of k ++ hand) (h + debt k) hand h (reach k) (energy k + (if b then 7 else 3)) (readdir_with call star (dir_name d) b k).
Proof.
  intros Hd Hk Hstar s Hs Hl. unfold readdir_with. rewrite (bind_ran _ _ s s s) by done.
  rewrite (proj1 (iv_calm _ _ _ _ Hs)).
  destruct (inflight_reg R hand h _ k s Hs Hk) as (s1 & r & E1 & Est & Hs1 & T1 & L1 & Hr). rewrite (bind_ran _ _ _ _ _ E1).
  destruct r as [k'|].
  - destruct Hr as (id & ->). cbn [link_of app] in Hs1. rewrite <- Est.
    assert (exists s', (if b && bool_decide (symlinks (a_store s1) !! dir_name d = None)
      then star (KRes (readdir_key (dir_name d) b) id)
      else match cache (a_store s1) !! dir_name d with
              | Some CFalse | Some CFile => call (KRes (readdir_key (dir_name d) b) id) Nothing
              | Some (CEntries c) => call (KRes (readdir_key (dir_name d) b) id) (Entries c)
              | _ => ask (RReaddir (dir_name d)) (KReaddirCb (dir_name d) (KRes (readdir_key (dir_name d) b) id))
              end) s1 = (s', Ret tt) /\ inv R hand h s' /\ takes R s1 s' (fun _ => False) /\
      (load R s' + 1 <= load R s1 + (if b then 7 else 3))%nat) as (s2 & E2 & Hs2 & T2 & L2).
    { destruct (b && _) eqn:Eb.
      - apply andb_true_iff in Eb as [-> _]. destruct (Hstar eq_refl id s1 Hs1) as (s2 & E2 & Hs2 & T2 & L2); [lia|]. by exists s2.
      - destruct (rest_ok R hand h d b id s1 Hd Hs1) as (s2 & E2 & Hs2 & T2 & L2); [destruct b; lia|].
        exists s2. split_and!; [done..|destruct b; lia]. }
    exists s2. split_and!; [exact E2|done| |lia]. intros p Hp Ht Hc. apply T2; [done..|left]. by apply T1.
  - exists s1. split_and!; [done|done| |destruct b; lia]. intros p _ _ Hc. by apply T1.
Qed.

Lemma readdir_plain_ok R hand h d id : dir_ok d ->
  does n R ((readdir_key (dir_name d) true, Some id) :: hand) h hand h (fun _ => False) 4
    (readdir_plain_cb call (dir_name d) (KRes (readdir_key (dir_name d) true) id)).
Proof.
  intros Hd s Hs Hl.
  destruct (readdir_ok R hand h d false (KRes (readdir_key (dir_name d) true) id) (fun _ => mret tt) Hd (rk_res d id Hd)) with (s := s)
    as (s' & E & Hs' & T & L); [done|cbn; by rewrite Nat.add_0_r|cbn; lia|].
  exists s'. split_and!; [done|done| |done]. intros p Hp Ht [Hc|[]]. apply T; [done..|by left].
Qed.

Lemma in_star_ok R hand h d id : dir_ok d ->
  does n R ((readdir_key (dir_name d) true, Some id) :: hand) h hand h (fun _ => False) 7
    (_readdirInGlobStar_cb g call (dir_name d) (KRes (readdir_key (dir_name d) true) id)).
Proof.
  intros Hd s Hs Hl. unfold _readdirInGlobStar_cb. rewrite (bind_ran _ _ s s s) by done. rewrite (proj1 (iv_calm _ _ _ _ Hs)).
  destruct (g_follow g) eqn:Ef.
  - destruct (readdir_plain_ok R hand h d id Hd s Hs) as (s' & E & Hs' & T & L); [lia|]. exists s'. split_and!; [done..|lia].
  - destruct (inflight_reg R hand h (lstat_key (dir_name d)) (KLstatGlob (dir_name d) (KRes (readdir_key (dir_name d) true) id)) s)
      as (s1 & r & E1 & Est & Hs1 & T1 & L1 & Hr); [by rewrite Nat.add_0_r|by constructor|].
    rewrite (bind_ran _ _ _ _ _ E1). cbn [energy] in L1. destruct r as [k'|].
    + destruct Hr as (id' & ->).
      destruct (ask_ok R hand h (RLstat (dir_name d)) (KRes (lstat_key (dir_name d)) id') s1 Hs1) as (s2 & E2 & Hs2 & L2 & T2); [by constructor|].
      exists s2. split_and!; [done|done| |cbn in L2; lia]. intros p _ _ [Hc|[]]. apply T2, T1. by left.
    + exists s1. split_and!; [done|done| |lia]. intros p _ _ [Hc|[]]. apply T1. by left.
Qed.

(** A job is registered where the directory will be read. *)
Lemma readdir_job_ok R hand h l b p ps : job_ok l b (p :: ps) ->
  does n R hand (S h) hand h (reached g base l b (p :: ps)) (weight (spot l) (p :: ps) + 7)
    (_readdir_cb g call (spot l) b (job l b (p :: ps))).
Proof.
  intros Hj. pose proof (here_ok g base Hg l (jo_names _ _ _ Hj)) as Hd.
  assert (is_string p = false) as Hp by (pose proof (jo_lead _ _ _ Hj) as E; by destruct p).
  assert (energy (job l b (p :: ps)) = weight (spot l) (p :: ps) /\ debt (job l b (p :: ps)) = 1%nat /\ link_of (job l b (p :: ps)) = [])
    as (He & Hdb & Hlk).
  { destruct p; cbn; try done. }
  intros s Hs Hl.
  destruct (readdir_ok R hand h (here l) b (job l b (p :: ps)) (_readdirInGlobStar_cb g call (spot l)) Hd) with (s := s)
    as (s' & E & Hs' & T & L).
  - apply (rk_job l b (p :: ps)), Hj.
  - intros -> id. by apply in_star_ok.
  - rewrite Hlk, Hdb. cbn [app]. by rewrite Nat.add_1_r.
  - rewrite He. destruct b; lia.
  - exists s'. split_and!; [done|done| |destruct b; lia]. intros q Hq Ht Hc. apply T; [done..|].
    destruct Hc as [Hc|Hc]; [by left|right; by exists l, b, (p :: ps)].
Qed.

(** *** Looking at one path *)
Lemma stat_ok R hand h p : Forall file_name p -> p <> [] -> goal p ->
  does n R hand (S h) hand h (fun q => q = p) 7 (_stat_cb g call (js_join slash p) (KSimple (js_join slash p) 0 KDone)).
Proof.
  intros Hp Hne Hgoal s Hs Hl. pose proof (here_ok g base Hg p Hp) as Hd. unfold _stat_cb, lift.
  rewrite (join_abs p Hp Hne). rewrite (bind_ran _ _ s s (spot p)) by done.
  rewrite (join_end p (names_components p Hp)), (ps_limit _ _ Hg), (bind_ran _ _ s s s) by done. cbn [andb].
  assert (forall a, good_answer p a -> exists s', call (KSimple (js_join slash p) 0 KDone) a s = (s', Ret tt) /\
    inv R hand h s' /\ takes R s s' (fun q => q = p) /\ (load R s' + 1 <= load R s + 7)%nat) as Hc.
  { intros a Ha. destruct (Hsimple R hand h p a Hp Hne Hgoal Ha s Hs) as (s' & E & Hs' & T & L); [lia|].
    exists s'. split_and!; [done..|lia]. }
  destruct (if g_stat g then None else _) as [c|] eqn:Ec.
  - apply Hc. cbn. destruct (g_stat g) eqn:Est; [done|].
    destruct (cache (a_store s) !! spot p) as [c0|] eqn:E0; [|done].
    destruct (cached_plausible height Hfs g base Hg p c0 Hp (tr_cache g _ (iv_store _ _ _ _ Hs) _ _ Hd E0) Est) as (c' & Ec' & H1 & H2).
    change (Some c0 ≫= cached_stat false) with (cached_stat false c0) in Ec. rewrite Ec' in Ec. injection Ec as <-. by split.
  - pose proof (tr_stat g _ (iv_store _ _ _ _ Hs) (here p)) as Htr.
    destruct (statCache (a_store s) !! spot p) as [[st|]|].
    + destruct (Htr _ Hd eq_refl) as [Ht _]. apply Hc. cbn. split; [intros _; by left|intros _; by destruct (isDirectory st)].
    + pose proof (Htr _ Hd eq_refl) as Ht. apply Hc. cbn in *. by split.
    + assert (job_ok p false []) as Hj by (split; [done|constructor|done|done|done|by intros q ->%reached_end]).
      destruct (inflight_reg R hand h (stat_key (spot p)) (job p false []) s) as (s1 & r & E1 & Est & Hs1 & T1 & L1 & Hr);
        [cbn [job link_of debt app]; by rewrite Nat.add_1_r|apply (rk_job p false []), Hj|].
      cbn [job] in E1. rewrite (bind_ran _ _ _ _ _ E1). cbn [job energy] in L1.
      assert (takes R s s1 (fun q => q = p)) as Ht1.
      { intros q _ _ [Hc'| ->]; apply T1; [by left|right]. exists p, false, []. split; [done|]. split; [done|]. by apply reached_end. }
      destruct r as [k'|].
      * destruct Hr as (id & ->).
        destruct (ask_ok R hand h (RLstat (spot p)) (KRes (stat_key (spot p)) id) s1 Hs1) as (s2 & E2 & Hs2 & L2 & T2); [by constructor|].
        exists s2. split_and!; [done|done| |cbn in L2; lia]. intros q Hq Ht Hc'. by apply T2, Ht1.
      * exists s1. split_and!; [done|done|done|lia].
Qed.

(** *** [_process] *)
Lemma process_lead_ok R hand h ls l ps b s : groups_ok ls l -> job_ok l b ps ->
  inv R hand (S h) (set_processing (processing s + 1) s) -> (load R s + (weight (spot l) ps + 7) <= n)%nat ->
  exists s', _process_cb toLowerCase g call (pattern_of ls ps) 0 b KDone s = (s', Ret tt) /\ inv R hand h s' /\
    takes R s s' (reached g base l b ps) /\ (load R s' + 1 <= load R s + (weight (spot l) ps + 7))%nat.
Proof.
  intros Hls Hj Hs Hl. unfold _process_cb. rewrite (bind_ran _ _ s s s) by done.
  set (s0 := set_processing (processing s + 1) s) in *. destruct (iv_calm _ _ _ _ Hs) as [Ha Hp]. cbn in Ha, Hp.
  rewrite Ha, Hp. rewrite (bind_ran _ _ s s0 tt) by done.
  assert (forall Q e m, does n R hand (S h) hand h Q e m -> (e <= weight (spot l) ps + 7)%nat ->
    (forall q, q <> [] -> reached g base l b ps q -> Q q) ->
    exists s', m s0 = (s', Ret tt) /\ inv R hand h s' /\ takes R s s' (reached g base l b ps) /\
      (load R s' + 1 <= load R s + (weight (spot l) ps + 7))%nat) as Hm.
  { intros Q e m D He HQ. destruct (D s0 Hs) as (s' & E & Hs' & T & L); [change (load R s0) with (load R s); lia|].
    change (load R s0) with (load R s) in L. exists s'. split_and!; [done|done| |lia].
    intros q Hq Ht Hc. apply T; [done..|]. destruct Hc; [by left|right; by apply HQ]. }
  assert (leading (pattern_of ls ps) = map (js_join slash) ls) as ->.
  { unfold pattern_of. by rewrite leading_app, (jo_lead _ _ _ Hj), app_nil_r. }
  assert (drop (length (map (js_join slash) ls)) (pattern_of ls ps) = ps) as ->.
  { unfold pattern_of. rewrite <- (length_map Lit). apply drop_app_length. }
  destruct ps as [|pn rest].
  - destruct Hls as (<- & Hn & Hne). rewrite join_groups by done. unfold _processSimple_cb.
    eapply Hm; [apply stat_ok; [done|by apply (jo_some _ _ _ Hj)|apply (jo_goal _ _ _ Hj); by apply reached_end]| |].
    + unfold weight, budget. rewrite Nat.add_comm. cbn. lia.
    + by intros q _ ->%reached_end.
  - cbv zeta. rewrite (prefix_of_groups ls l) by done. destruct Hls as (_ & Hn & _).
    unfold lift. rewrite (makeAbs_read g base Hg) by done. rewrite (bind_ran _ _ s0 s0 (spot l)) by done.
    assert (childrenIgnored toLowerCase g (default dot (prefix_of_dir l)) = Ret false) as ->.
    { unfold childrenIgnored. by rewrite (ps_ignore _ _ Hg). }
    rewrite (bind_ran _ _ s0 s0 false) by done. pose proof (readdir_job_ok R hand h l b pn rest Hj) as D.
    pose proof (jo_lead _ _ _ Hj) as Hlead. pose proof (jo_parts _ _ _ Hj) as Hps. apply Forall_cons in Hps as [Hpn _].
    destruct pn as [|t|r src raw|]; [|done| |by destruct Hpn]; cbn [job] in D; (eapply Hm; [exact D|lia|done]).
Qed.

Lemma walk_ok R hand h ls l ps b s : groups_ok ls l -> Forall part_ok ps -> closed ps -> (ps = [] -> l <> []) ->
  (forall p, reached g base l b ps p -> goal p) ->
  inv R hand (S h) (set_processing (processing s + 1) s) -> (load R s + (weight (spot l) ps + 7) <= n)%nat ->
  exists s', _process_cb toLowerCase g call (pattern_of ls ps) 0 b KDone s = (s', Ret tt) /\ inv R hand h s' /\
    takes R s s' (reached g base l b ps) /\ (load R s' + 1 <= load R s + (weight (spot l) ps + 7))%nat.
Proof.
  intros Hls Hps Hc Hne Hgoal Hs Hl. destruct (leading_split ps) as [E Hlead]. revert E Hlead.
  generalize (leading ps) as ss. intros ss. generalize (drop (length ss) ps) as rest. intros rest -> Hlead.
  apply Forall_app in Hps as [Hss Hrest]. assert (Forall file_name ss) as Hfn by exact (proj1 (Forall_map _ _ _) Hss).
  assert (pattern_of ls (map Lit ss ++ rest) = pattern_of (ls ++ map (fun s => [s]) ss) rest) as ->.
  { unfold pattern_of. by rewrite !map_app, join_singles, <- app_assoc. }
  destruct Hls as (Hcat & Hn & Hgr). rewrite (weight_lits l ss rest) in * by done.
  assert (Forall file_name (l ++ ss)) as Hls by by apply Forall_app.
  destruct (process_lead_ok R hand h (ls ++ map (fun s => [s]) ss) (l ++ ss) rest b s) as (s' & E & Hs' & T & L).
  - split_and!; [by rewrite concat_app, concat_singles, Hcat|done|].
    apply Forall_app. split; [done|]. apply Forall_map, Forall_true. done.
  - split; [done|done| |done| |].
    + unfold closed in *. destruct rest as [|x rest]; [done|]. by rewrite last_app_cons in Hc.
    + intros -> E. apply app_eq_nil in E as [-> ->]. by apply Hne.
    + intros p Hp. by apply Hgoal, reached_lits.
  - done.
  - done.
  - exists s'. split_and!; [done|done| |done]. intros p Hp Ht Hc'. apply T; [done..|].
    destruct Hc' as [?|?]; [by left|right]. by apply reached_lits.
Qed.

(** *** What is done with the entries of a directory *)
Lemma iter_ok {X} R hand h (P : X -> list jsstr -> Prop) (f : X -> nat) body l :
  (forall x, x ∈ l -> does n R hand h hand h (P x) (f x) (body x)) ->
  forall s, inv R hand h s -> (load R s + sum_list_with f l <= n)%nat ->
  exists s', iterM body l s = (s', Ret tt) /\ inv R hand h s' /\ takes R s s' (fun p => exists x, x ∈ l /\ P x p) /\
    (load R s' <= load R s + sum_list_with f l)%nat.
Proof.
  induction l as [|x l IH]; intros Hx s Hs Hl.
  - exists s. split_and!; [done|done| |cbn; lia]. intros p _ _ [?|(x & Hi%elem_of_nil & _)]; done.
  - cbn [iterM sum_list_with] in *. destruct (Hx x ltac:(by left) s Hs) as (s1 & E1 & Hs1 & T1 & L1); [lia|].
    destruct (IH ltac:(intros y Hy; apply Hx; by right) s1 Hs1) as (s2 & E2 & Hs2 & T2 & L2); [lia|].
    exists s2. split_and!; [by rewrite (bind_ran _ _ _ _ _ E1)|done| |lia].
    intros p Hp Ht Hc. apply T2; [done..|]. destruct Hc as [Hc|(y & [->|Hi]%elem_of_cons & Hc)].
    + left. apply T1; [done..|by left].
    + left. apply T1; [done..|by right].
    + right. by exists y.
Qed.

Lemma inv_open R hand h s : inv R hand (S h) s -> inv R hand (S (S h)) (set_processing (processing s + 1) s).
Proof.
  intros []. split; try done. cbn. rewrite iv_count0. unfold debts. cbn. lia.
Qed.

Lemma child_ok R hand h ls l ps b : groups_ok ls l -> Forall part_ok ps -> closed ps -> (ps = [] -> l <> []) ->
  (forall p, reached g base l b ps p -> goal p) ->
  does n R hand (S h) hand (S h) (reached g base l b ps) (weight (spot l) ps + 7) (_process_cb toLowerCase g call (pattern_of ls ps) 0 b KDone).
Proof. intros H1 H2 H3 H4 H5 s Hs Hl. apply (walk_ok R hand (S h) ls); try done. by apply inv_open. Qed.

(** The children, then [done]. *)
Lemma children_ok {X} R hand h (P : X -> list jsstr -> Prop) (f : X -> nat) body l e :
  (forall x, x ∈ l -> does n R hand (S h) hand (S h) (P x) (f x) (body x)) -> (sum_list_with f l + 1 <= e)%nat ->
  does n R hand (S h) hand h (fun p => exists x, x ∈ l /\ P x p) e (iterM body l ;; call KDone Nothing).
Proof.
  intros Hx He s Hs Hl. destruct (iter_ok R hand (S h) P f body l Hx s Hs) as (s1 & E1 & Hs1 & T1 & L1); [lia|].
  destruct (Hdone R hand h s1 Hs1) as (s2 & E2 & Hs2 & T2 & L2); [lia|].
  exists s2. split_and!; [by rewrite (bind_ran _ _ _ _ _ E1)|done| |lia].
  intros p Hp Ht Hc. apply T2; [done..|left]. by apply T1.
Qed.

Lemma nothing_ok R hand h P e : (forall p, ~ P p) -> (1 <= e)%nat -> does n R hand (S h) hand h P e (call KDone Nothing).
Proof.
  intros HP He. eapply does_weaken; [..|apply Hdone]; [lia|done|]. intros p Hp. by destruct (HP p).
Qed.

Lemma below_dir l e : Forall component (l ++ [e]) -> below (prefix_of_dir l) e = js_join slash (l ++ [e]).
Proof.
  intros Hle. rewrite join_last. destruct l as [|x l]; [done|]. apply Forall_app in Hle as [Hl _].
  cbn [prefix_of_dir below]. pose proof (join_nonempty (x :: l) Hl ltac:(done)).
  pose proof (charAt_join (x :: l) Hl) as Hch. destruct (js_join slash (x :: l)) as [|c p] eqn:E; [done|].
  rewrite bool_decide_false; [by rewrite <- app_assoc|]. intros E'. by rewrite E' in Hch.
Qed.

Lemma below_mounted_dir l e : Forall component (l ++ [e]) -> below_mounted g (prefix_of_dir l) e = Ret (js_join slash (l ++ [e])).
Proof. intros Hle. unfold below_mounted. by rewrite below_dir, (bool_decide_false _ (charAt_join _ Hle)). Qed.

Lemma sum_list_with_filter {A} (f : A -> nat) (p : A -> bool) l : (sum_list_with f (List.filter p l) <= sum_list_with f l)%nat.
Proof. induction l as [|x l IH]; [done|]. cbn. destruct (p x); cbn; lia. Qed.

Lemma single_group l e : Forall file_name (l ++ [e]) -> groups_ok [l ++ [e]] (l ++ [e]).
Proof. intros Hn. split_and!; [cbn; by rewrite app_nil_r|done|]. constructor; [by destruct l|constructor]. Qed.

Lemma touch_inv R hand h s : inv R hand (S h) s -> let s' := set_store (touch_matches 0 (a_store s)) s in
  inv R hand (S h) s' /\ matches (a_store s') !! 0%nat = Some (Some (keys 0 (a_store s))) /\ same_work s s' /\ keys 0 (a_store s') = keys 0 (a_store s).
Proof.
  intros Hs s'. destruct (touch_matches_grows g 0 (a_store s) (iv_store _ _ _ _ Hs)) as (H1 & (_ & H2 & _) & H3).
  { rewrite (iv_one _ _ _ _ Hs). lia. }
  pose proof (keys_slot _ _ _ H3) as Hk. split_and!; [|done|done|done].
  eapply same_work_inv; [exact Hs|done|done|by rewrite <- (iv_one _ _ _ _ Hs)| |].
  - intros k. cbn. rewrite Hk. apply Hs.
  - pose proof (iv_end _ _ _ _ Hs) as He. rewrite decide_False in He by lia. by rewrite decide_False by lia.
Qed.

(** Names that need no further look are matches at once. *)
Lemma names_ok R hand h l es s : inv R hand (S h) s ->
  Forall (fun e => Forall file_name (l ++ [e]) /\ there (here (l ++ [e])) /\ goal (l ++ [e])) es ->
  exists s', (on_store (modify_st (touch_matches 0)) ;;
     iterM (fun e => name ← lift (below_mounted g (prefix_of_dir l) e); _emitMatch toLowerCase g has_cb 0 name) es) s = (s', Ret tt) /\
    inv R hand (S h) s' /\ takes R s s' (fun p => exists e, e ∈ es /\ p = l ++ [e]) /\ load R s' = load R s.
Proof.
  intros Hs Hes. destruct (touch_inv R hand h s Hs) as (Hs1 & Hm & Hw & Hk).
  set (s1 := set_store (touch_matches 0 (a_store s)) s) in *. rewrite (bind_ran _ _ s s1 tt) by done.
  assert (forall ks s, inv R hand (S h) s -> matches (a_store s) !! 0%nat = Some (Some ks) ->
    exists s', iterM (fun e => name ← lift (below_mounted g (prefix_of_dir l) e); _emitMatch toLowerCase g has_cb 0 name) es s = (s', Ret tt) /\
      inv R hand (S h) s' /\ same_work s s' /\ (forall k, k ∈ keys 0 (a_store s') <-> k ∈ ks \/ exists e, e ∈ es /\ k = js_join slash (l ++ [e]))) as Hit.
  { clear -Hes Hg Hnodir Hfs Hnl. induction Hes as [|e es (Hn & Ht & Hgo) Hes IH]; intros ks s Hs Hm; cbn [iterM].
    - exists s. split_and!; [done|done|done|]. intros k. rewrite (keys_slot _ _ _ Hm). split; [by left|]. by intros [?|(e & Hi%elem_of_nil & _)].
    - unfold lift at 1. rewrite below_mounted_dir by by apply names_components.
      destruct (emitMatch_ok R hand h (l ++ [e]) ks s Hs Hm Hn) as (s1 & E1 & Hs1 & Hm1 & Hw1); [by destruct l|done|by left|].
      rewrite (bind_ran _ _ s s1 tt); [|by rewrite (bind_ran _ _ s s (js_join slash (l ++ [e])))].
      destruct (IH _ s1 Hs1 Hm1) as (s2 & E2 & Hs2 & Hw2 & Hk2). exists s2. split_and!; [done|done| |].
      + destruct Hw1 as [A1 A2 A3 A4 A5 [A6 A7]], Hw2 as [B1 B2 B3 B4 B5 [B6 B7]]. split; [..|split]; congruence.
      + intros k. rewrite Hk2, key_add_elem. setoid_rewrite elem_of_cons. naive_solver. }
  destruct (Hit _ s1 Hs1 Hm) as (s2 & E2 & Hs2 & Hw2 & Hk2).
  exists s2. split_and!; [done|done| |].
  - intros p Hp Ht Hc. destruct Hc as [[Hc|Hc]|(e & He & ->)].
    + left. rewrite Hk2. left. exact Hc.
    + right. by rewrite (sw_reqs _ _ Hw2).
    + left. rewrite Hk2. right. by exists e.
  - rewrite (same_work_load R s1 s2 Hw2). by apply same_work_load.
Qed.

Lemma processReaddir2_ok R hand h l b r src raw rest : job_ok l b (Re r src (Some raw) :: rest) ->
  does n R hand (S h) hand h (reached g base l b (Re r src (Some raw) :: rest)) (weight (spot l) (Re r src (Some raw) :: rest) - 1)
    (_processReaddir2 toLowerCase g has_cb call (prefix_of_dir l) (spot l) (Re r src (Some raw) :: rest) 0 b (listing (here l)) KDone).
Proof.
  intros Hj. pose proof (jo_names _ _ _ Hj) as Hl. pose proof (jo_parts _ _ _ Hj) as [_ Hps]%Forall_cons.
  pose proof (jo_closed _ _ _ Hj) as Hc%closed_tail. unfold _processReaddir2.
  destruct (listing (here l)) as [es|] eqn:Hes.
  2: { apply nothing_ok; [intros p Hr; by apply reached_unlisted in Hr|].
       unfold weight, budget. rewrite Nat.add_comm. cbn. lia. }
  rewrite (weight_re l es r src (Some raw) rest) by (done || by eexists). rewrite dot_ok_raw.
  set (M := List.filter (fun e => sees g raw e && regex_test r e) es).
  assert (List.filter (entry_hit g (prefix_of_dir l) r (g_dot g || bool_decide (charAt raw 0 = dot))) es = M) as EM'.
  { apply List.filter_ext. intros e. by apply (entry_hit_sees g base Hg). }
  assert (forall q, reached g base l b (Re r src (Some raw) :: rest) q <-> exists e, e ∈ M /\ reached g base (l ++ [e]) b rest q) as HM
    by (intros q; by apply reached_re).
  pose proof (sum_list_with_filter (fun e => (weight (spot (l ++ [e])) rest + 7)%nat) (fun e => sees g raw e && regex_test r e) es) as Hsum. fold M in Hsum.
  assert (forall e, e ∈ M -> Forall file_name (l ++ [e]) /\ there (here (l ++ [e])) /\ forall q, reached g base (l ++ [e]) b rest q -> goal q) as Hok.
  { intros e He. pose proof He as [Hi _]%list_elem_of_In%filter_In. apply list_elem_of_In in Hi.
    destruct (listed_ok l es e Hl Hes Hi) as (Hn & _ & _ & Ht). split_and!; [done|done|].
    intros q Hq. apply (jo_goal _ _ _ Hj), HM. by exists e. }
  assert (does n R hand (S h) hand h (reached g base l b (Re r src (Some raw) :: rest))
    (2 + sum_list_with (fun e => weight (spot (l ++ [e])) rest + 7) es - 1)%nat
    (iterM (fun e => _process_cb toLowerCase g call (Lit (below (prefix_of_dir l) e) :: rest) 0 b KDone) M ;; call KDone Nothing)) as Hch.
  { eapply does_weaken; [reflexivity|reflexivity| |apply (children_ok R hand h (fun e q => reached g base (l ++ [e]) b rest q)
      (fun e => (weight (spot (l ++ [e])) rest + 7)%nat))]; [intros q Hq; by apply HM| |lia].
    intros e He. destruct (Hok e He) as (Hn & _ & Hgo). rewrite below_dir by by apply names_components.
    apply (child_ok R hand h [l ++ [e]]); [by apply single_group|done|done|by destruct l|done]. }
  intros s Hs He. unfold lift at 1. rewrite (bind_ran _ _ s s (g_dot g || bool_decide (charAt raw 0 = dot))) by done.
  rewrite EM'. clearbody M. destruct M as [|e' M'] eqn:EM; [|rewrite <- EM in *; destruct rest as [|p rest]].
  - revert s Hs He. apply nothing_ok; [|lia]. intros q (e & Hi%elem_of_nil & _)%HM. done.
  - destruct (negb (g_mark g) && negb (g_stat g)); [|by apply Hch].
    destruct (names_ok R hand h l M s Hs) as (s1 & E1 & Hs1 & T1 & L1).
    { apply Forall_forall. intros e Hi. destruct (Hok e Hi) as (? & ? & Hgo). split_and!; [done|done|]. by apply Hgo, reached_end. }
    destruct (Hdone R hand h s1 Hs1) as (s2 & E2 & Hs2 & T2 & L2); [lia|].
    exists s2. split_and!; [|done| |lia].
    + by rewrite (seq_ran _ _ _ _ _ E1).
    + intros q Hq Ht Hc'. apply T2; [done..|left]. apply T1; [done..|]. destruct Hc' as [?|Hr%HM]; [by left|right].
      destruct Hr as (e & Hi & ->%reached_end). by exists e.
  - by apply Hch.
Qed.

Lemma no_symlink R hand h l s : Forall file_name l -> inv R hand h s -> default false (symlinks (a_store s) !! spot l) = false.
Proof.
  intros Hl Hs. pose proof (here_ok g base Hg l Hl) as Hd.
  destruct (symlinks (a_store s) !! spot l) as [v|] eqn:Hv; [|done].
  destruct (tr_links g _ (iv_store _ _ _ _ Hs) _ _ Hd Hv) as (st & Hst & <-). by apply (Hnl (here l)).
Qed.

(** The entries of a directory below a globstar: each is taken for the rest of the
    pattern and for the pattern from the globstar on. *)
Lemma star_children_ok R hand h l b rest es : job_ok l b (GLOBSTAR :: rest) -> listing (here l) = Some es ->
  does n R hand (S h) hand h (fun q => exists e, e ∈ es /\ walks_into g e = true /\
      (reached g base (l ++ [e]) true rest q \/ reached g base (l ++ [e]) true (GLOBSTAR :: rest) q))
    (1 + sum_list_with (fun e => weight (spot (l ++ [e])) rest + weight (spot (l ++ [e])) (GLOBSTAR :: rest) + 14) es)%nat
    (iterM (fun e =>
        if bool_decide (charAt e 0 = dot) && negb (g_dot g) then mret tt else
        _process_cb toLowerCase g call (prefix_parts (prefix_of_dir l) ++ Lit e :: rest) 0 true KDone ;;
        _process_cb toLowerCase g call (prefix_parts (prefix_of_dir l) ++ Lit e :: GLOBSTAR :: rest) 0 true KDone) es ;;
     call KDone Nothing).
Proof.
  intros Hj Hes. pose proof (jo_names _ _ _ Hj) as Hl. pose proof (jo_parts _ _ _ Hj) as [_ Hps]%Forall_cons.
  destruct (closed_star _ (jo_closed _ _ _ Hj)) as [Hne Hc].
  assert (forall q e, e ∈ es -> walks_into g e = true ->
    reached g base (l ++ [e]) true rest q \/ reached g base (l ++ [e]) true (GLOBSTAR :: rest) q -> reached g base l b (GLOBSTAR :: rest) q) as Hr.
  { intros q e He Hw Hq. rewrite (reached_star g base l b rest q es) by done.
    pose proof (not_blocked g base Hg Hnl l b Hl). naive_solver. }
  apply (children_ok R hand h (fun e q => walks_into g e = true /\
      (reached g base (l ++ [e]) true rest q \/ reached g base (l ++ [e]) true (GLOBSTAR :: rest) q))
      (fun e => (weight (spot (l ++ [e])) rest + weight (spot (l ++ [e])) (GLOBSTAR :: rest) + 14)%nat)); [|lia].
  intros e He. destruct (listed_ok l es e Hl Hes He) as (Hn & _ & _ & _). unfold walks_into.
  destruct (bool_decide (charAt e 0 = dot) && negb (g_dot g)) eqn:Ed.
  - apply does_ret; [|lia]. intros q [Hw _]. by destruct (bool_decide _), (g_dot g).
  - assert (walks_into g e = true) as Hw by (unfold walks_into; by destruct (bool_decide _), (g_dot g)).
    rewrite (pattern_child l e rest), (pattern_child l e (GLOBSTAR :: rest)) by done.
    eapply does_weaken; [..|eapply does_seq; apply (child_ok R hand h (group_of l ++ [[e]]) (l ++ [e]))];
      try (by apply groups_snoc); try done; try (by destruct l); try (by constructor).
    + lia.
    + lia.
    + by intros q [_ Hq].
    + intros q Hq. apply (jo_goal _ _ _ Hj), (Hr q e); [done..|by left].
    + by apply (jo_closed _ _ _ Hj).
    + intros q Hq. apply (jo_goal _ _ _ Hj), (Hr q e); [done..|by right].
Qed.

Lemma processGlobStar2_ok R hand h l b rest : job_ok l b (GLOBSTAR :: rest) ->
  does n R hand (S h) hand h (reached g base l b (GLOBSTAR :: rest)) (weight (spot l) (GLOBSTAR :: rest) - 1)
    (_processGlobStar2 toLowerCase g call (prefix_of_dir l) (spot l) (GLOBSTAR :: rest) 0 b (listing (here l)) KDone).
Proof.
  intros Hj. pose proof (jo_names _ _ _ Hj) as Hl. pose proof (jo_parts _ _ _ Hj) as [_ Hps]%Forall_cons.
  destruct (closed_star _ (jo_closed _ _ _ Hj)) as [Hne Hc]. unfold _processGlobStar2.
  destruct (listing (here l)) as [es|] eqn:Hes.
  2: { apply nothing_ok; [intros p Hr; by apply reached_unlisted in Hr|].
       unfold weight, budget. rewrite Nat.add_comm. cbn. lia. }
  rewrite (weight_star l es rest) by done. cbn [tail].
  assert (forall q, reached g base l b (GLOBSTAR :: rest) q <-> reached g base l false rest q \/
    exists e, e ∈ es /\ walks_into g e = true /\ (reached g base (l ++ [e]) true rest q \/ reached g base (l ++ [e]) true (GLOBSTAR :: rest) q)) as Hr.
  { intros q. rewrite (reached_star g base l b rest q es) by done.
    pose proof (not_blocked g base Hg Hnl l b Hl). naive_solver. }
  pose proof (star_children_ok R hand h l b rest es Hj Hes) as Hch.
  intros s Hs He.
  destruct (child_ok R hand h (group_of l) l rest false) with (s := s) as (s1 & E1 & Hs1 & T1 & L1); try done; [by apply groups_group| |lia|].
  { intros q Hq. apply (jo_goal _ _ _ Hj), Hr. by left. }
  assert (prefix_parts (prefix_of_dir l) ++ rest = pattern_of (group_of l) rest) as Ep.
  { by rewrite prefix_parts_dir by by apply names_components. }
  rewrite Ep, (bind_ran _ _ _ _ _ E1), (bind_ran _ _ s1 s1 s1) by done.
  rewrite (no_symlink R hand (S h) l s1) by done. cbn [andb].
  destruct (Hch s1 Hs1) as (s2 & E2 & Hs2 & T2 & L2); [lia|].
  exists s2. split_and!; [done|done| |lia]. intros q Hq Ht Hc'. apply T2; [done..|].
  destruct Hc' as [Hx|[Hx|Hx]%Hr]; [left; apply T1; [done..|by left]|left; apply T1; [done..|by right]|by right].
Qed.

Lemma processSimple2_ok R hand h p a : Forall file_name p -> p <> [] -> goal p -> good_answer p a ->
  does n R hand (S h) hand h (fun q => q = p) 1 (_processSimple2 toLowerCase g has_cb call (js_join slash p) 0 a KDone).
Proof.
  intros Hp Hne Hgoal Ha s Hs He. unfold _processSimple2. destruct (touch_inv R hand h s Hs) as (Hs1 & Hm & Hw & Hk).
  set (s1 := set_store (touch_matches 0 (a_store s)) s) in *. rewrite (bind_ran _ _ s s1 tt) by done.
  pose proof (same_work_load R s s1 Hw) as L1. pose proof (same_work_covered R s s1 Hw) as C1. rewrite Hk in C1. specialize (C1 ltac:(done)).
  assert (~ there (here p) -> exists s', call KDone Nothing s1 = (s', Ret tt) /\ inv R hand h s' /\ takes R s s' (fun q => q = p) /\
    (load R s' + 1 <= load R s + 1)%nat) as Hno.
  { intros Hnt. destruct (Hdone R hand h s1 Hs1) as (s2 & E2 & Hs2 & T2 & L2); [lia|].
    exists s2. split_and!; [done|done| |lia]. intros q Hq Ht [Hc| ->]; [|done]. apply T2; [done..|left]. by apply C1. }
  destruct a as [| | | |c|]; try by apply Hno. destruct Ha as [Ha1 Ha2].
  destruct (is_truthy c) eqn:Ec; cbn [negb]; [|apply Hno; intros Ht; apply Ha2 in Ht; congruence].
  assert (mounted g (js_join slash p) = Ret (js_join slash p)) as Hmt.
  { unfold mounted. rewrite (join_relative p) by by apply names_components. by rewrite andb_false_r. }
  unfold lift. rewrite Hmt, (bind_ran _ _ s1 s1 (js_join slash p)) by done.
  destruct (emitMatch_ok R hand h p _ s1 Hs1 Hm Hp Hne Hgoal (Ha1 eq_refl)) as (s2 & E2 & Hs2 & Hm2 & Hw2).
  rewrite (bind_ran _ _ _ _ _ E2). destruct (Hdone R hand h s2 Hs2) as (s3 & E3 & Hs3 & T3 & L3);
    [rewrite (same_work_load R s1 s2 Hw2); lia|].
  rewrite (same_work_load R s1 s2 Hw2) in L3. exists s3. split_and!; [done|done| |lia].
  intros q Hq Ht Hc. apply T3; [done..|left]. destruct Hc as [Hc| ->].
  - apply (same_work_covered R s1 s2 Hw2); [|by apply C1]. rewrite (keys_slot _ _ _ Hm2), (keys_slot _ _ _ Hm). intros k Hi. apply key_add_elem. by left.
  - left. rewrite (keys_slot _ _ _ Hm2). apply key_add_elem. by right.
Qed.
End walking.

(** ** Every call does what it owes *)
Lemma abs_end d : dir_ok d -> d <> [] -> ends_in_slash (dir_name d) = false.
Proof.
  intros [_ Hc] Hne. destruct d as [|x d]; [done|]. apply Forall_cons in Hc as [[Hx Hs] _].
  destruct x as [|c x _] using rev_ind; [done|]. unfold dir_name. rewrite reverse_cons, join_last, !app_assoc.
  apply bool_decide_eq_false. intros E. assert ([c] = slash) as [= ->] by (rewrite <- E; symmetry; apply substr_last_app).
  apply Hs, elem_of_app. right. by apply list_elem_of_singleton.
Qed.

Lemma here_some p : p <> [] -> here p <> [].
Proof. intros Hp [E _]%app_eq_nil. apply Hp. apply (f_equal reverse) in E. by rewrite reverse_involutive in E. Qed.

Local Abbreviation call := (call toLowerCase localeCompare g has_cb).

Record call_ok (n : nat) : Prop := {
  co_done R hand h : does n R hand (S h) hand h (fun _ => False) 1 (call n KDone Nothing);
  co_simple R hand h p a : Forall file_name p -> p <> [] -> goal p -> good_answer p a ->
    does n R hand (S h) hand h (fun q => q = p) 2 (call n (KSimple (js_join slash p) 0 KDone) a);
  co_res R hand h key id a : right_answer key a ->
    does n R ((key, Some id) :: hand) h hand h (fun _ => False) 1 (call n (KRes key id) a);
  co_dir R hand h d b id : dir_ok d ->
    does n R ((readdir_key (dir_name d) b, Some id) :: hand) h hand h (fun _ => False) 2
      (call n (KReaddirCb (dir_name d) (KRes (readdir_key (dir_name d) b) id)) (serve (RReaddir (dir_name d))));
  co_reg : calls_ok n (call n) }.

Section step.
Context (n : nat) (IH : call_ok n).

Lemma step_down R hin h hout h' P e e' m : does n R hin h hout h' P e m -> (e < e')%nat -> does (S n) R hin h hout h' P e' m.
Proof. intros D He. eapply does_weaken; [..|exact D]; [lia|lia|done]. Qed.

(** A call after the store was read or written. *)
Lemma after_store {A} (m : stM store A) Q (f : A -> stM astate unit) R hin h hout h' P e : looks g m Q ->
  (forall a st, Q a st -> does n R hin h hout h' P e (f a)) -> does n R hin h hout h' P e (on_store m ≫= f).
Proof.
  intros Hm Hf s Hs He. destruct (on_store_looks m Q R hin h s Hm Hs) as (a & st & E & Hs1 & HQ & L & C).
  rewrite (bind_ran _ _ _ _ _ E). destruct (Hf a st HQ _ Hs1) as (s' & E' & Hs' & T & L'); [lia|].
  exists s'. split_and!; [done|done| |lia]. intros p Hp Ht [Hc|Hc]; apply T; try done; [left; by apply C|by right].
Qed.

Lemma if_calm (m : stM astate unit) R hin h hout h' P e : does n R hin h hout h' P e m ->
  does n R hin h hout h' P e (s ← get_st; if aborted s then mret tt else m).
Proof.
  intros D s Hs He. rewrite (bind_ran _ _ s s s) by done. rewrite (proj1 (iv_calm _ _ _ _ Hs)). by apply D.
Qed.

Lemma stat2_ok R hand h p st : Forall file_name p -> p <> [] -> goal p -> stat_true (here p) st ->
  does n R hand (S h) hand h (fun q => q = p) 2 (_stat2 (call n) (js_join slash p) (spot p) st (KSimple (js_join slash p) 0 KDone)).
Proof.
  intros Hp Hne Hgoal Hst. pose proof (here_ok g base Hg p Hp) as Hd. unfold _stat2.
  assert (looks g (modify_st (set_statCache (spot p) st)) (fun _ _ => True)) as Hl1.
  { apply looks_modify. intros s Hs. split; [by apply truthful_stat|done]. }
  eapply after_store; [exact Hl1|]. intros _ _ _.
  destruct st as [st|]; [|by apply (co_simple n IH)]. destruct Hst as [Ht Hl].
  rewrite abs_end, join_end by (done || by apply here_some || by apply names_components). cbn [andb].
  assert (entry_true (here p) (if isDirectory st then CDir else CFile)) as Hc.
  { destruct (isDirectory st); [done|]. split; [by apply Hl|by left]. }
  eapply after_store; [apply looks_modify|].
  - intros s Hs. split; [|by repeat case_match]. repeat case_match; try done; by apply truthful_cache.
  - intros _ _ _. apply (co_simple n IH); try done. cbn. split; [intros _; by left|intros _; by destruct (isDirectory st)].
Qed.

Lemma lstat_none d : dir_ok d -> match lstatSync (dir_name d) with FsOk st => stat_true d (Some st) | FsErr _ => stat_true d None end.
Proof.
  intros Hd. pose proof (look_true height Hfs d Hd) as Hl. unfold look in Hl.
  destruct (lstatSync (dir_name d)) as [st|] eqn:E; [|done]. by rewrite (Hnl d st Hd E) in Hl.
Qed.

Lemma lstat_answer_ok R hand h p : Forall file_name p -> p <> [] -> goal p ->
  does n R hand (S h) hand h (fun q => q = p) 2
    (lstat_answer (call n) (js_join slash p) (spot p) (KSimple (js_join slash p) 0 KDone) (serve (RLstat (spot p)))).
Proof.
  intros Hp Hne Hgoal. pose proof (here_ok g base Hg p Hp) as Hd. pose proof (lstat_none _ Hd) as Hl. cbn [serve].
  destruct (lstatSync (spot p)) as [st|er] eqn:E; cbn [answer_of lstat_answer].
  - rewrite (Hnl (here p) st Hd E). by apply stat2_ok.
  - by apply stat2_ok.
Qed.

Lemma readdirCb_ok R hand h d b id : dir_ok d ->
  does n R ((readdir_key (dir_name d) b, Some id) :: hand) h hand h (fun _ => False) 1
    (readdirCb g has_cb (call n) (dir_name d) (KRes (readdir_key (dir_name d) b) id) (serve (RReaddir (dir_name d)))).
Proof.
  intros Hd. cbn [serve]. destruct (readdirSync (dir_name d)) as [es|er] eqn:E; cbn [answer_of readdirCb].
  - unfold _readdirEntries_cb. apply if_calm. eapply after_store; [by apply (readdirEntries_looks height Hfs g d es)|].
    intros l _ ->. apply (co_res n IH), right_readdir; [done|]. cbn. unfold listing. by rewrite E.
  - unfold _readdirError_cb. apply if_calm.
    assert (does n R ((readdir_key (dir_name d) b, Some id) :: hand) h hand h (fun _ => False) 1
      (on_store (_readdirError g (dir_name d) er) ;; call n (KRes (readdir_key (dir_name d) b) id) Nothing)) as D.
    { eapply after_store; [by apply (readdirError_looks height Hfs g base Hg)|]. intros _ _ _.
      apply (co_res n IH), right_readdir; [done|]. cbn. unfold listing. by rewrite E. }
    intros s Hs He. destruct (D s Hs He) as (s' & E' & Hr). exists s'. split; [|done]. rewrite <- E'.
    unfold _readdirError, lift. rewrite (makeAbs_dir g base Hg) by done. rewrite (bind_ran _ _ s s (dir_name d)) by done.
    pose proof (tl_codes _ Hfs d er Hd E) as Hc. apply elem_of_app in Hc.
    unfold mbind at 1 3, stM_bind at 1 3. unfold on_store at 4. unfold mbind at 3, stM_bind at 3.
    case_bool_decide; [done|]. case_bool_decide; [done|]. tauto.
Qed.

Lemma lstat_in_star_ok R hand h d id : dir_ok d -> g_follow g = false ->
  does n R ((readdir_key (dir_name d) true, Some id) :: hand) h hand h (fun _ => False) 4
    (lstat_in_star (call n) (dir_name d) (KRes (readdir_key (dir_name d) true) id) (serve (RLstat (dir_name d)))).
Proof.
  intros Hd Hf. pose proof (lstat_none _ Hd) as Hl. cbn [serve].
  assert (forall a, entries_of a = listing d -> does n R ((readdir_key (dir_name d) true, Some id) :: hand) h hand h (fun _ => False) 4
    (call n (KRes (readdir_key (dir_name d) true) id) a)) as Hc.
  { intros a Ha. eapply does_weaken; [..|apply (co_res n IH), right_readdir; [exact Hd|exact Ha]]; [lia|lia|done]. }
  destruct (lstatSync (dir_name d)) as [st|er] eqn:E; cbn [answer_of lstat_in_star].
  - eapply after_store; [apply looks_modify; intros s Hs; split;
      [by eapply truthful_link; [..|exact Hs]|split; [done|]; intros a Ha; cbn; destruct (decide (a = dir_name d)) as [->|];
        [by rewrite lookup_insert_eq|by rewrite lookup_insert_ne]]|].
    intros _ _ _. destruct (negb (isSymbolicLink st) && negb (isDirectory st)) eqn:Ek.
    + apply andb_true_iff in Ek as [Ek1 Ek2]. apply negb_true_iff in Ek1, Ek2. destruct Hl as [Ht Hn].
      eapply after_store; [apply (looks_cache g d CFile); [done|]; split; [by apply Hn|by left]|]. intros _ _ _.
      apply Hc. cbn. symmetry. by apply Hn.
    + apply readdir_plain_ok; [|done]. intros R' hand' h' key id' a Ha. by apply (co_res n IH).
  - apply Hc. cbn. symmetry. by eapply gone_unlisted.
Qed.

Lemma readdir_job R hand h l b p ps a : job_ok l b (p :: ps) -> entries_of a = listing (here l) ->
  does (S n) R hand (S h) hand h (reached g base l b (p :: ps)) (weight (spot l) (p :: ps)) (call (S n) (job l b (p :: ps)) a).
Proof.
  intros Hj Ha. pose proof (jo_lead _ _ _ Hj) as Hlead. pose proof (jo_parts _ _ _ Hj) as Hps. apply Forall_cons in Hps as [Hp _].
  assert (1 <= weight (spot l) (p :: ps))%nat as Hw.
  { unfold weight, budget. rewrite Nat.add_comm. destruct p as [| |r src raw|]; cbn; try done; lia. }
  pose proof (co_done n IH) as C1. pose proof (co_res n IH) as C2. pose proof (co_simple n IH) as C3.
  destruct p as [|t|r src [raw|]|]; try done; [..|by destruct Hp]; cbn [job GlobAsync.call]; rewrite Ha.
  - eapply step_down; [by apply (processGlobStar2_ok n (call n) C1 C2 C3)|lia].
  - eapply step_down; [by apply (processReaddir2_ok n (call n) C1 C2 C3)|lia].
Qed.

Lemma reach_job l b ps p : job_ok l b ps -> reach (job l b ps) p -> reached g base l b ps p.
Proof.
  intros Hj (l' & b' & ps' & E & Hj' & Hr).
  assert (spot l = spot l' -> l = l') as Hl.
  { intros Es. apply dir_name_inj in Es; [|by apply (here_ok g base Hg), Hj|by apply (here_ok g base Hg), Hj'].
    unfold at_dir in Es. apply app_inv_tail in Es. apply (f_equal reverse) in Es. by rewrite !reverse_involutive in Es. }
  pose proof (jo_lead _ _ _ Hj) as Hlead. pose proof (jo_lead _ _ _ Hj') as Hlead'.
  assert (l = l') as <-.
  { apply Hl. destruct ps as [|[|t|r src raw|] ps], ps' as [|[|t'|r' src' raw'|] ps']; cbn [job] in E; congruence. }
  destruct ps as [|[|t|r src raw|] ps], ps' as [|[|t'|r' src' raw'|] ps']; try done; cbn [job] in E; try congruence.
  apply reached_end in Hr as ->. by apply reached_end.
Qed.

Lemma call_step : call_ok (S n).
Proof.
  split.
  - intros R hand h. apply done_ok.
  - intros R hand h p a Hp Hne Hgoal Ha. cbn [GlobAsync.call].
    eapply step_down; [apply (processSimple2_ok n (call n)); try done; apply (co_done n IH)|lia].
  - intros R hand h key id a Ha s Hs He. cbn [GlobAsync.call].
    destruct (res_once_ok n (call n) (co_reg n IH) R hand h key id a Ha s Hs) as (s' & E & Hs' & T & L); [lia|].
    exists s'. split_and!; [done..|lia].
  - intros R hand h d b id Hd. cbn [GlobAsync.call]. eapply step_down; [by apply readdirCb_ok|apply Nat.lt_succ_diag_r].
  - intros R hand h key k a Hk Ha. destruct Hk as [l b ps Hj|d id Hd|d id Hd Hf].
    + destruct ps as [|p ps].
      * cbn [job link_of debt energy app job_key] in *. rewrite Nat.add_1_r. cbn [GlobAsync.call].
        pose proof (jo_names _ _ _ Hj) as Hl. pose proof (here_ok g base Hg l Hl) as Hd.
        rewrite (proj2 Ha (here l) Hd (or_intror eq_refl)).
        eapply does_weaken; [| | |apply lstat_answer_ok; [done|by apply (jo_some _ _ _ Hj)|apply (jo_goal _ _ _ Hj); by apply reached_end]]; [lia|lia|].
        intros q Hq. apply (reach_job l b [] q Hj) in Hq. by apply reached_end in Hq.
      * assert (energy (job l b (p :: ps)) = weight (spot l) (p :: ps) /\ debt (job l b (p :: ps)) = 1%nat /\ link_of (job l b (p :: ps)) = [])
          as (He & Hdb & Hlk) by (pose proof (jo_lead _ _ _ Hj); by destruct p).
        rewrite He, Hdb, Hlk, Nat.add_1_r. cbn [app].
        eapply does_weaken; [reflexivity|reflexivity| |apply readdir_job; [exact Hj|]].
        -- intros q. by apply reach_job.
        -- apply (proj1 Ha (here l) b); [by apply (here_ok g base Hg), Hj|done].
    + cbn [link_of debt energy app]. rewrite Nat.add_0_r. cbn [GlobAsync.call]. intros s Hs He.
      destruct (res_once_ok n (call n) (co_reg n IH) R hand h (readdir_key (dir_name d) true) id a) with (s := s) as (s' & E & Hs' & T & L);
        [by apply right_readdir, (proj1 Ha d false Hd)|done|lia|].
      exists s'. split_and!; [done|done| |lia]. intros p Hp Ht [Hc|Hc]; apply T; try done; [by left|].
      destruct Hc as (l & b & ps & E' & _). by destruct ps as [|[] ps].
    + cbn [link_of debt energy app]. rewrite Nat.add_0_r. cbn [GlobAsync.call].
      rewrite (proj2 Ha d Hd (or_introl eq_refl)). eapply step_down; [|apply Nat.lt_succ_diag_r].
      eapply does_weaken; [reflexivity|reflexivity| |by apply lstat_in_star_ok].
      intros p (l & b & ps & E' & _). by destruct ps as [|[] ps].
Qed.
End step.

Lemma energy_some key k : reg_ok key k -> (1 <= energy k)%nat.
Proof.
  intros [l b ps Hj|d id Hd|d id Hd Hf]; [|cbn; lia..]. destruct ps as [|p ps]; [cbn; lia|].
  pose proof (jo_lead _ _ _ Hj) as Hl. pose proof (jo_parts _ _ _ Hj) as Hps. apply Forall_cons in Hps as [Hp _].
  destruct p as [|t|r src raw|]; try done; cbn [job energy]; unfold weight, budget; rewrite Nat.add_comm; cbn; lia.
Qed.

Lemma call_ok_all n : call_ok n.
Proof.
  induction n as [|n IH]; [|by apply call_step].
  split; [..|intros R hand h key k a Hk Ha s Hs He; apply energy_some in Hk; lia]; intros; intros s Hs He; lia.
Qed.

(** ** Turns *)
Definition loop_turn (t : turn) : Prop := match t with Client _ => False | _ => True end.

Local Abbreviation take_turn := (take_turn toLowerCase localeCompare g has_cb).
Local Abbreviation run_turns := (run_turns toLowerCase localeCompare g has_cb).

(** The next state after a turn that did something. *)
Definition advances (s s' : astate) : Prop :=
  inv [] [] 0 s' /\ takes [] s s' (fun _ => False) /\ (load [] s' < load [] s)%nat.

Lemma answer_advances n i r k s : inv [] [] 0 s -> (load [] s <= n)%nat -> pending s !! i = Some (r, k) ->
  exists s', call n k (serve r) (set_pending (delete i (pending s)) s) = (s', Ret tt) /\ advances s s'.
Proof.
  intros Hs Hn Hi. pose proof (delete_Permutation _ _ _ Hi) as Hp. set (s1 := set_pending (delete i (pending s)) s).
  assert (load [] s = (load [] s1 + energy k)%nat) as El by (unfold load; cbn [pending reqs waiting s1 set_pending]; rewrite (total_proper energy _ _ Hp), total_cons; lia).
  assert (inv [] (link_of k ++ []) 0 s1 /\ pend_ok r k) as [Hs1 Hk].
  { destruct Hs. rewrite Hp in iv_pending0. apply Forall_cons in iv_pending0 as [Hk Hrest]. split; [|done]. split; try done.
    eapply books_perm; [|exact iv_books0]. unfold ledger. cbn [reqs pending waiting s1 set_pending].
    pose proof (flat_proper (fun x : request * callback => link_of x.2) _ _ Hp) as Hf. rewrite flat_cons in Hf. rewrite Hf. cbn [snd]. solve_Permutation. }
  assert (forall P e, does n [] (link_of k ++ []) 0 [] 0 P e (call n k (serve r)) -> (e <= energy k)%nat ->
    exists s', call n k (serve r) s1 = (s', Ret tt) /\ advances s s') as Hd.
  { intros P e D He. destruct (D s1 Hs1) as (s' & E & Hs' & T & L); [lia|]. exists s'. split; [done|]. split_and!; [done| |lia].
    intros p Hp' Ht [Hc|[]]. apply T; [done..|by left]. }
  pose proof (call_ok_all n) as Hcall. destruct Hk as [d b id Hdir|d id Hdir|d id Hdir]; cbn [link_of app] in *.
  - eapply Hd; [by apply (co_dir n Hcall)|done].
  - eapply Hd; [apply (co_res n Hcall), right_lstat; [exact Hdir|by left]|done].
  - eapply Hd; [apply (co_res n Hcall), right_lstat; [exact Hdir|by right]|done].
Qed.

Lemma tick_advances n key a rest s : inv [] [] 0 s -> (load [] s <= n)%nat -> waiting s = (key, a) :: rest ->
  exists s', RES (call n) key a (set_waiting rest s) = (s', Ret tt) /\ advances s s'.
Proof.
  intros Hs Hn Hw. set (s1 := set_waiting rest s).
  assert (load [] s = (load [] s1 + 1)%nat) as El by (unfold load; cbn [pending reqs waiting s1 set_waiting]; rewrite Hw; cbn [length]; lia).
  assert (inv [] [(key, None)] 0 s1 /\ right_answer key a) as [Hs1 Ha].
  { destruct Hs. rewrite Hw in iv_waiting0. apply Forall_cons in iv_waiting0 as [Ha Hrest]. split; [|done]. split; try done.
    eapply books_perm; [|exact iv_books0]. unfold ledger. cbn [reqs pending waiting s1 set_waiting]. rewrite Hw. cbn [map fst]. solve_Permutation. }
  destruct (RES_ok n (call n) (co_reg n (call_ok_all n)) [] [] 0 key a eq_refl Ha s1 Hs1) as (s' & E & Hs' & T & L); [lia|].
  exists s'. split; [done|]. split_and!; [done|done|lia].
Qed.

Lemma turn_advances n t s s' o : loop_turn t -> inv [] [] 0 s -> (load [] s <= n)%nat ->
  take_turn n t s = Some (s', o) -> o = Ret tt /\ advances s s'.
Proof.
  intros Ht Hs Hn. destruct t as [i| |op]; [..|done]; cbn [GlobAsync.take_turn].
  - destruct (pending s !! i) as [[r k]|] eqn:Hi; [|done]. destruct (answer_advances n i r k s Hs Hn Hi) as (s1 & E & Ha).
    rewrite E. by intros [= <- <-].
  - destruct (waiting s) as [|[key a] rest] eqn:Hw; [done|]. destruct (tick_advances n key a rest s Hs Hn Hw) as (s1 & E & Ha).
    rewrite E. by intros [= <- <-].
Qed.

Lemma run_advances n ts s s' os : Forall loop_turn ts -> inv [] [] 0 s -> (load [] s <= n)%nat ->
  run_turns n ts s = (s', os) ->
  Forall (eq (Ret tt)) os /\ inv [] [] 0 s' /\ takes [] s s' (fun _ => False) /\ (length os + load [] s' <= load [] s)%nat.
Proof.
  intros Hts. revert s os. induction Hts as [|t ts Ht Hts IH]; intros s os Hs Hn; cbn [GlobAsync.run_turns].
  - intros [= <- <-]. split_and!; [constructor|done| |cbn; lia]. by intros p _ _ [?|[]].
  - destruct (take_turn n t s) as [[s1 o]|] eqn:E; [|by apply IH].
    destruct (turn_advances n t s s1 o Ht Hs Hn E) as (-> & Hs1 & T1 & L1).
    destruct (run_turns n ts s1) as [s2 os2] eqn:E2. intros [= <- <-].
    destruct (IH s1 os2 Hs1) as (K1 & K2 & K3 & K4); [lia|done|]. split_and!; [by constructor|done| |cbn [length]; lia].
    intros p Hp Hth [Hc|[]]. apply K3; [done..|left]. apply T1; [done..|by left].
Qed.

(** Every registered key has a driver: when nothing is under way nothing is registered. *)
Lemma idle_unregistered s : inv [] [] 0 s -> idle s -> regs [] (reqs s) = [].
Proof.
  intros Hs [Hp Hw]. pose proof (bk_dom _ _ _ (iv_books _ _ _ _ Hs)) as Hdom. unfold ledger in Hdom.
  rewrite Hp, Hw in Hdom. cbn [flat map concat app] in Hdom. rewrite !app_nil_r in Hdom.
  pose proof (iv_regs _ _ _ _ Hs) as Hok. rewrite Forall_forall in Hok.
  assert (forall key ks, reqs s !! key = Some ks -> exists key' d, (exists ks', reqs s !! key' = Some ks') /\
    key = readdir_key (dir_name d) true /\ (key' = readdir_key (dir_name d) false \/ key' = lstat_key (dir_name d))) as Hdrive.
  { intros key ks Hk. assert (is_Some (reqs s !! key)) as Hi by by exists ks. apply Hdom in Hi.
    apply list_elem_of_fmap in Hi as ([key0 o] & -> & Hi). unfold flat in Hi. apply list_elem_of_In, in_concat in Hi as (l & Hl%list_elem_of_In & Hi%list_elem_of_In).
    apply list_elem_of_fmap in Hl as ([key' k] & -> & Hl). pose proof (Hok _ Hl) as Hr. cbn [fst snd] in *.
    assert (exists ks', reqs s !! key' = Some ks') as Hin.
    { unfold regs in Hl. apply list_elem_of_In, in_concat in Hl as (l' & Hl'%list_elem_of_In & Hl%list_elem_of_In). apply list_elem_of_fmap in Hl' as ([key1 ks1] & -> & Hl').
      unfold with_key in Hl. apply list_elem_of_fmap in Hl as (k1 & [= -> ->] & _). exists ks1. by apply elem_of_map_to_list. }
    destruct Hr as [l b ps Hj|d id Hd|d id Hd Hf].
    - exfalso. destruct ps as [|[] ps]; by apply elem_of_nil in Hi.
    - apply list_elem_of_singleton in Hi as [= -> ->]. eexists _, d. split; [exact Hin|]. by split; [|left].
    - apply list_elem_of_singleton in Hi as [= -> ->]. eexists _, d. split; [exact Hin|]. by split; [|right]. }
  assert (reqs s = ∅) as ->; [|done]. apply map_empty. intros key. destruct (reqs s !! key) as [ks|] eqn:Hk; [exfalso|done].
  destruct (Hdrive key ks Hk) as (key' & d & (ks' & Hk') & _ & Hor).
  destruct (Hdrive key' ks' Hk') as (_ & d' & _ & E & _). rewrite E in Hor.
  destruct Hor as [[_ ?]%readdir_key_inj|?]; done.
Qed.

Lemma idle_finished s : inv [] [] 0 s -> idle s -> finished s.
Proof.
  intros Hs Hi. pose proof (iv_end _ _ _ _ Hs) as He. unfold debts in He. rewrite (idle_unregistered s Hs Hi) in He. done.
Qed.

Lemma idle_covered s p : inv [] [] 0 s -> idle s -> covered [] s p -> js_join slash p ∈ keys 0 (a_store s).
Proof.
  intros Hs Hi [Hc|(x & Hx & _)]; [done|]. rewrite (idle_unregistered s Hs Hi) in Hx. by apply elem_of_nil in Hx.
Qed.
End turns.
