(* ===== verification/GlobAsyncSearch.v ===== *)
(** * File globs: what the asynchronous search reports

    The public entry of [GlobAsync] on the patterns of [GlobSearch]: whatever order
    the answers of the file system and the ticks take, the search ends after a
    bounded number of turns, reports the end once, with what [minimatch] accepts, and
    with the list of [glob.sync].  Then aborting a search; and concrete runs that
    show where the search departs from its contract. *)
From stdpp Require Import gmap.
From S2P Require Import Prelude JsString JsArray JsState JsRegex PathModule BraceExpansion MinimatchParse Minimatch GlobCommon GlobSync GlobExact GlobTree GlobSearch GlobAsync GlobTurns.

(** What a client sees at the end: one end event, the last, with the names found,
    and the callback was given them if there is one. *)
Definition reported (has_cb : bool) (s : astate) (found : list jsstr) : Prop :=
  (exists evs, emitted s = evs ++ [EEnd found] /\ Forall no_end evs) /\
  a_found s = Some found /\ cb_answer s = (if has_cb then Some (inr found) else None).

Section runs.
Context `{FileSystem} (height : nat) (Hfs : tree_like height) (Hnl : no_links).
Context (canon : Z -> Z) (toLowerCase : jsstr -> jsstr) (localeCompare : jsstr -> jsstr -> Z)
        (escs : esc_texts) (fuel : nat) (has_cb : bool).

Local Abbreviation goal_of g base ps := (reached g base [] false ps).
Local Abbreviation inv g base ps := (inv g base toLowerCase localeCompare has_cb (goal_of g base ps)).

(** *** The constructor starts the search *)
Lemma start_inv opts ss g ps : prepared canon toLowerCase escs fuel opts ss g ps ->
  inv g (work_dir opts) ps [] [] 1
    (set_processing 1 (set_store (set_matches [None] empty_store) (new_object empty_store ∅))).
Proof.
  intros Hr. split; cbn; try done.
  - intros k Hk. by apply elem_of_nil in Hk.
  - split; cbn; [constructor| |constructor|intros id Hid; by apply elem_of_nil in Hid].
    intros key. rewrite lookup_empty. split; [by intros []|intros Hk; by apply elem_of_nil in Hk].
Qed.

Lemma Glob_starts opts ss g ps n : setopts canon escs fuel (path_text ss) opts = Ret (g, empty_store) ->
  prepared canon toLowerCase escs fuel opts ss g ps -> searchable opts ss -> opt (go_flags opts) "sync" = false ->
  (weight height (dir_name (work_dir opts)) ps + 7 <= n)%nat ->
  exists s0, Glob canon toLowerCase localeCompare escs fuel n ∅ (path_text ss) opts has_cb = Ret (AsyncObject g s0 (Ret tt)) /\
    inv g (work_dir opts) ps [] [] 0 s0 /\
    (forall p, reached g (work_dir opts) [] false ps p -> p <> [] -> there (at_dir (work_dir opts) p) ->
       covered g (work_dir opts) (goal_of g (work_dir opts) ps) [] s0 p) /\
    (load height [] s0 <= weight height (dir_name (work_dir opts)) ps + 6)%nat.
Proof.
  intros Eset Hr Hss Hsync Hn. pose proof Hr as [Hg Hset HR _ _ _ _ _ _ (Hnn & Hrp & Hnp & Hnd) (Hps & _ & Hclosed)].
  set (s := set_store (set_matches [None] empty_store) (new_object empty_store ∅)).
  pose proof (call_ok_all height Hfs Hnl g (work_dir opts) Hg Hnd Hrp toLowerCase localeCompare has_cb (goal_of g (work_dir opts) ps) n) as Hc.
  destruct (walk_ok height Hfs g (work_dir opts) Hg toLowerCase localeCompare has_cb (goal_of g (work_dir opts) ps) n
    (call toLowerCase localeCompare g has_cb n)) with (R := @nil (jsstr * nat)) (hand := @nil (jsstr * option nat)) (h := 0%nat)
    (ls := @nil (list jsstr)) (l := @nil jsstr) (ps := ps) (b := false) (s := s)
    as (s0 & E & Hs0 & T & L); try done.
  - apply Hc.
  - apply Hc.
  - intros ->. pose proof (pp_some _ _ (se_pattern _ _ Hss)). by apply Forall2_nil_inv_r in HR.
  - by apply (start_inv opts ss).
  - exists s0. split_and!; [|done| |change (load height [] s) with 0%nat in L; change (at_dir (work_dir opts) []) with (work_dir opts) in L; lia].
    + unfold Glob. rewrite Hsync, Eset. cbn [mbind outcome_bind]. unfold process_all. rewrite Hset, Hnp. cbn [length replicate imap].
      change (pattern_of [] ps) with ps in E. rewrite (bind_ran _ _ _ s tt) by done. cbn [iterM]. by rewrite (bind_ran _ _ _ _ _ E).
    + intros p Hp Hne Ht. apply T; [done..|by right].
Qed.

(** *** The end of a run *)
Section ends.
Context (opts : glob_options) (ss : list seg) (g : settings) (ps : list part)
  (Hr : prepared canon toLowerCase escs fuel opts ss g ps).

Local Abbreviation base := (work_dir opts).

Lemma nonull_off : g_nonull g = false.
Proof. apply (pr_off _ _ _ _ _ _ _ _ Hr). Qed.

Lemma final_elem s k : inv g base ps [] [] 0 s -> k ∈ final g toLowerCase localeCompare (matches (a_store s)) <-> k ∈ keys 0 (a_store s).
Proof.
  intros Hs. unfold final. etrans; [|apply keys_gather; [by apply nonull_off|apply Hs]].
  destruct (g_nosort g); [done|]. by rewrite sort_by_perm.
Qed.

(** No call of [done] is open: nothing registered will find anything. *)
Lemma settled_covered s p : debts [] s = 0%nat -> covered g base (goal_of g base ps) [] s p ->
  js_join slash p ∈ keys 0 (a_store s).
Proof.
  intros Hd [Hc|([key k] & Hx & l & b & qs & E & Hj & _)]; [done|]. cbn [snd] in E. subst k.
  assert (debt (job base l b qs) <= total debt (regs [] (reqs s)))%nat as Hle.
  { apply (sum_list_with_in (key, job base l b qs) (fun x => debt x.2)), Hx. }
  unfold debts in Hd. rewrite Hd in Hle. pose proof (jo_lead _ _ _ _ _ _ Hj) as Hl. destruct qs as [|[] qs]; cbn in Hle; try done; lia.
Qed.

Lemma finished_collected s : inv g base ps [] [] 0 s -> debts [] s = 0%nat ->
  (forall p, reached g base [] false ps p -> p <> [] -> there (at_dir base p) -> covered g base (goal_of g base ps) [] s p) ->
  collected g base ps (final g toLowerCase localeCompare (matches (a_store s))).
Proof.
  intros Hs Hd Hc. split.
  - intros k Hk%final_elem; [|done]. eapply iv_sound in Hk as (p & -> & _ & Hg & Hpl); [|exact Hs]. by exists p.
  - intros p Hp Hne Ht. apply final_elem; [done|]. by apply settled_covered, Hc.
Qed.

Lemma ended s found : inv g base ps [] [] 0 s -> EEnd found ∈ emitted s ->
  debts [] s = 0%nat /\ reported has_cb s found /\ found = final g toLowerCase localeCompare (matches (a_store s)).
Proof.
  intros Hs Hin. pose proof (iv_end _ _ _ _ _ _ _ _ _ _ Hs) as He. cbn [Nat.add] in He.
  destruct (decide (debts [] s = 0%nat)) as [Hd|_].
  - destruct He as (evs & f & E & Hev & Hf & Hcb & ->). rewrite E, elem_of_app, list_elem_of_singleton in Hin.
    destruct Hin as [Hin|[= ->]]; [rewrite Forall_forall in Hev; by apply Hev in Hin|]. split; [done|]. split; [|done].
    split; [by exists evs|done].
  - destruct He as (Hev & _). rewrite Forall_forall in Hev. by apply Hev in Hin.
Qed.
End ends.

Lemma active_turn g n s : idle s \/ exists t s' o, loop_turn t /\ take_turn toLowerCase localeCompare g has_cb n t s = Some (s', o).
Proof.
  destruct (pending s) as [|[r k] rs] eqn:Ep; [destruct (waiting s) as [|[key a] w] eqn:Ew; [by left|]|].
  - right. destruct (RES (call toLowerCase localeCompare g has_cb n) key a (set_waiting w s)) as [s' o] eqn:E.
    exists Tick, s', o. split; [done|]. cbn. by rewrite Ew, E.
  - right. destruct (call toLowerCase localeCompare g has_cb n k (serve r) (set_pending rs s)) as [s' o] eqn:E.
    exists (Answer 0), s', o. split; [done|]. cbn. rewrite Ep. cbn. by rewrite E.
Qed.

Lemma async_runs opts ss : plain_options opts -> searchable opts ss -> opt (go_flags opts) "sync" = false ->
  exists bound g ps, prepared canon toLowerCase escs fuel opts ss g ps /\
    forall n, (bound <= n)%nat ->
    exists s0, Glob canon toLowerCase localeCompare escs fuel n ∅ (path_text ss) opts has_cb = Ret (AsyncObject g s0 (Ret tt)) /\
    forall ts s os, Forall loop_turn ts -> run_turns toLowerCase localeCompare g has_cb n ts s0 = (s, os) ->
      Forall (eq (Ret tt)) os /\ (length os <= bound)%nat /\
      (idle s \/ exists t s', loop_turn t /\ take_turn toLowerCase localeCompare g has_cb n t s = Some (s', Ret tt)) /\
      (idle s -> exists found, EEnd found ∈ emitted s) /\
      (forall found, EEnd found ∈ emitted s -> reported has_cb s found /\ collected g (work_dir opts) ps found /\
         exists ms, found = final g toLowerCase localeCompare ms).
Proof.
  intros Ho Hss Hsync. destruct (setopts_prepared canon toLowerCase escs fuel opts ss Ho Hss) as (g & ps & Eset & Hr).
  exists (weight height (dir_name (work_dir opts)) ps + 7)%nat, g, ps. split; [done|]. intros n Hn.
  destruct (Glob_starts opts ss g ps n Eset) as (s0 & E0 & Hs0 & Hc0 & L0); try done.
  exists s0. split; [done|]. intros ts s os Hts Hrun.
  pose proof Hr as [Hg _ _ _ _ _ _ _ _ (_ & Hrp & _ & Hnd) _].
  destruct (run_advances height Hfs Hnl g (work_dir opts) Hg Hnd Hrp toLowerCase localeCompare has_cb _ n ts s0 s os Hts Hs0)
    as (K1 & Hs & T & L); [lia|done|]. split_and!; [done|lia|..].
  - destruct (active_turn g n s) as [Hi|(t & s' & o & Ht & E)]; [by left|right]. exists t, s'. split; [done|].
    destruct (turn_advances height Hfs Hnl g (work_dir opts) Hg Hnd Hrp toLowerCase localeCompare has_cb _ n t s s' o Ht Hs) as [-> _]; [lia|done..].
  - intros Hi. destruct (idle_finished _ _ _ _ _ _ s Hs Hi) as (evs & found & -> & _). exists found.
    apply elem_of_app. right. by left.
  - intros found Hin. destruct (ended opts g ps s found Hs Hin) as (Hd & Hrep & ->). split_and!; [done| |by eexists].
    apply (finished_collected opts ss g ps Hr); [done|done|]. intros p Hp Hne Ht. apply T; [done..|left]. by apply Hc0.
Qed.
End runs.

(** ** The theorems *)

(** C21: the asynchronous search, under any schedule.  However the answers of the file
    system and the ticks are ordered, no turn throws and the search comes to rest
    after a bounded number of turns, for as long as something is under way some turn
    can be taken; at rest the end was reported, and the end is reported once, after
    every match, with exactly the names [minimatch] accepts, to the listeners and to
    the callback. *)
Theorem glob_async_exact (fs : FileSystem) (height : nat) (Hfs : tree_like height) (Hnl : no_links)
    (canon : Z -> Z) (toLowerCase : jsstr -> jsstr) (localeCompare : jsstr -> jsstr -> Z) (escs : esc_texts)
    (fuel : nat) (has_cb : bool) (opts : glob_options) (ss : list seg) (Ho : plain_options opts)
    (Hss : searchable opts ss) (Hsync : opt (go_flags opts) "sync" = false) :
  let matched k := minimatch canon toLowerCase escs fuel k (Some (path_text ss)) (glob_flags (go_flags opts)) in
  exists bound, forall steps, (bound <= steps)%nat ->
  exists g s0, Glob canon toLowerCase localeCompare escs fuel steps ∅ (path_text ss) opts has_cb = Ret (AsyncObject g s0 (Ret tt)) /\
  forall ts s os, Forall loop_turn ts -> run_turns toLowerCase localeCompare g has_cb steps ts s0 = (s, os) ->
    Forall (eq (Ret tt)) os /\ (length os <= bound)%nat /\
    (idle s \/ exists t s', loop_turn t /\ take_turn toLowerCase localeCompare g has_cb steps t s = Some (s', Ret tt)) /\
    (idle s -> exists found, EEnd found ∈ emitted s) /\
    (forall found, EEnd found ∈ emitted s -> reported has_cb s found /\ agrees opts matched found).
Proof.
  intros matched.
  destruct (async_runs height Hfs Hnl canon toLowerCase localeCompare escs fuel has_cb opts ss Ho Hss Hsync)
    as (bound & g & ps & Hr & Hrun).
  exists bound. intros steps Hsteps. destruct (Hrun steps Hsteps) as (s0 & E & Hts). exists g, s0. split; [exact E|].
  intros ts s os Hl Ht. destruct (Hts ts s os Hl Ht) as (K1 & K2 & K3 & K4 & K5). split_and!; [done..|].
  intros found (Hrep & Hc & _)%K5. split; [done|].
  by apply (collected_agrees canon toLowerCase escs fuel height Hfs Hnl opts ss g ps found).
Qed.

Lemma glob_async_exact_witness :
  let fs := tree_fs demo_tree in
  let matched k := minimatch id id demo_escs 20 k (Some (path_text demo_pattern)) (glob_flags ∅) in
  exists bound, forall steps, (bound <= steps)%nat ->
  exists g s0, Glob id id unit_compare demo_escs 20 steps ∅ (path_text demo_pattern) no_options true = Ret (AsyncObject g s0 (Ret tt)) /\
  forall ts s os, Forall loop_turn ts -> run_turns id unit_compare g true steps ts s0 = (s, os) ->
    Forall (eq (Ret tt)) os /\ (length os <= bound)%nat /\
    (idle s \/ exists t s', loop_turn t /\ take_turn id unit_compare g true steps t s = Some (s', Ret tt)) /\
    (idle s -> exists found, EEnd found ∈ emitted s) /\
    (forall found, EEnd found ∈ emitted s -> reported true s found /\ agrees no_options matched found).
Proof.
  apply (glob_async_exact (tree_fs demo_tree) (node_height demo_tree) (tree_fs_ok demo_tree demo_ok)
           (tree_fs_plain demo_tree) id id unit_compare demo_escs 20 true no_options demo_pattern
           plain_no_options demo_searchable).
  reflexivity.
Defined.

(** *** The list of [glob.sync] *)

(** A comparison of strings that is a total order. *)
Record total_compare (cmp : jsstr -> jsstr -> Z) : Prop := {
  tc_flip a b : 0 <= cmp a b -> cmp b a <= 0;
  tc_trans a b c : cmp a b <= 0 -> cmp b c <= 0 -> cmp a c <= 0;
  tc_antisym a b : cmp a b <= 0 -> cmp b a <= 0 -> a = b }.

Lemma sorted_names_unique cmp l k : total_compare cmp -> Sorted (fun a b => cmp a b <= 0) l ->
  Sorted (fun a b => cmp a b <= 0) k -> NoDup l -> NoDup k -> (forall x, x ∈ l <-> x ∈ k) -> l = k.
Proof.
  intros [_ Ht Ha] Hl Hk Nl Nk Hx. assert (Transitive (fun a b => cmp a b <= 0)) as Htr by (intros a b c; apply Ht).
  apply (Sorted_unique_strong (fun a b => cmp a b <= 0)); [|done|done|by apply NoDup_Permutation].
  intros a b _ _. apply Ha.
Qed.

Lemma agrees_same `{FileSystem} opts matched l k : opt (go_flags opts) "stat" = true ->
  agrees opts matched l -> agrees opts matched k -> forall x, x ∈ l -> x ∈ k.
Proof.
  intros Hs [_ H2] [K1 _] x (p & Hp & Hne & -> & Hm & [Ht|[Hf _]])%H2; [|congruence].
  by apply K1.
Qed.

Lemma final_ordered cmp toLowerCase g ms : total_compare cmp -> g_nosort g = false -> g_nounique g = false ->
  g_nocase g = false -> NoDup (final g toLowerCase cmp ms) /\ Sorted (fun a b => cmp a b <= 0) (final g toLowerCase cmp ms).
Proof.
  intros Hcmp Hs Hu Hc. unfold final. rewrite Hs, Hc. split; [rewrite sort_by_perm; by apply gather_nodup|].
  apply sort_by_sorted, Hcmp.
Qed.

(** C22: with the option [stat], duplicates removed and names sorted by a total
    order, the asynchronous search gives its callback the list that [glob.sync]
    returns for the same pattern and options, whatever the schedule. *)
Theorem glob_async_is_sync (fs : FileSystem) (height : nat) (Hfs : tree_like height) (Hnl : no_links)
    (canon : Z -> Z) (toLowerCase : jsstr -> jsstr) (localeCompare : jsstr -> jsstr -> Z) (escs : esc_texts)
    (fuel : nat) (opts : glob_options) (ss : list seg) (Ho : plain_options opts) (Hss : searchable opts ss)
    (Hsync : opt (go_flags opts) "sync" = false) (Hstat : opt (go_flags opts) "stat" = true)
    (Hnu : opt (go_flags opts) "nounique" = false) (Hns : opt (go_flags opts) "nosort" = false)
    (Hcmp : total_compare localeCompare) :
  exists bound, forall steps, (bound <= steps)%nat ->
  exists found g s0,
    globSync canon toLowerCase localeCompare escs fuel steps (path_text ss) opts false = Ret (Some found) /\
    Glob canon toLowerCase localeCompare escs fuel steps ∅ (path_text ss) opts true = Ret (AsyncObject g s0 (Ret tt)) /\
    forall ts, Forall loop_turn ts -> let s := (run_turns toLowerCase localeCompare g true steps ts s0).1 in
      idle s -> cb_answer s = Some (inr found).
Proof.
  destruct (async_runs height Hfs Hnl canon toLowerCase localeCompare escs fuel true opts ss Ho Hss Hsync)
    as (bound & g & ps & Hr & Hrun).
  exists (bound + (length ss + 1) * (height + 2))%nat. intros steps Hsteps.
  destruct (globSync_runs canon toLowerCase localeCompare escs fuel height Hfs opts ss steps Ho Hss)
    as (g' & ps' & found & E & Hr' & Hc & Nf & Sf); [lia|].
  destruct (Hrun steps) as (s0 & E0 & Hts); [lia|]. exists found, g, s0. split_and!; [done..|].
  intros ts Hl. destruct (run_turns toLowerCase localeCompare g true steps ts s0) as [s os] eqn:Et. cbn [fst]. intros Hi.
  destruct (Hts ts s os Hl Et) as (_ & _ & _ & K4 & K5). destruct (K4 Hi) as (found' & Hin).
  destruct (K5 found' Hin) as ((_ & _ & ->) & Hc' & ms & Ems). do 2 f_equal.
  destruct (final_ordered localeCompare toLowerCase g ms) as [Nf' Sf'];
    [done|by rewrite (pr_nosort _ _ _ _ _ _ _ _ Hr)|by rewrite (pr_nounique _ _ _ _ _ _ _ _ Hr)|apply Hr|].
  rewrite <- Ems in Nf', Sf'.
  apply (sorted_names_unique localeCompare); [done..|apply Sf; [done|apply Hcmp]|done|by apply Nf|].
  pose proof (collected_agrees _ _ _ _ height Hfs Hnl opts ss g' ps' found Hss Hr' Hc) as A1.
  pose proof (collected_agrees _ _ _ _ height Hfs Hnl opts ss g ps found' Hss Hr Hc') as A2.
  intros x. split; [by apply (agrees_same opts _ _ _ Hstat A2 A1)|by apply (agrees_same opts _ _ _ Hstat A1 A2)].
Qed.

Lemma unit_compare_total : total_compare unit_compare.
Proof.
  assert (forall a b, unit_compare a b <= 0 <-> str_le a b) as Hle.
  { intros a b. unfold unit_compare, str_le. destruct (str_ltb a b) eqn:E1; [by rewrite (str_ltb_asym _ _ E1)|].
    destruct (str_ltb b a); [by split|done]. }
  split.
  - apply unit_compare_flip.
  - intros a b c. rewrite !Hle. unfold str_le. apply str_le_trans.
  - intros a b. rewrite !Hle. unfold str_le. intros H1 H2. destruct (str_ltb_total a b) as [|[|]]; congruence.
Qed.

Definition stat_options : glob_options := flag_options ["stat"%string].

Lemma plain_stat : plain_options stat_options.
Proof. by split. Qed.

Lemma searchable_stat : searchable stat_options demo_pattern.
Proof.
  destruct demo_searchable as [[] H2 H3]. split; [|done..]. split; try done.
Qed.

Lemma glob_async_is_sync_witness :
  let fs := tree_fs demo_tree in
  exists bound, forall steps, (bound <= steps)%nat ->
  exists found g s0,
    globSync id id unit_compare demo_escs 20 steps (path_text demo_pattern) stat_options false = Ret (Some found) /\
    Glob id id unit_compare demo_escs 20 steps ∅ (path_text demo_pattern) stat_options true = Ret (AsyncObject g s0 (Ret tt)) /\
    forall ts, Forall loop_turn ts -> let s := (run_turns id unit_compare g true steps ts s0).1 in
      idle s -> cb_answer s = Some (inr found).
Proof.
  apply (glob_async_is_sync (tree_fs demo_tree) (node_height demo_tree) (tree_fs_ok demo_tree demo_ok)
           (tree_fs_plain demo_tree) id id unit_compare demo_escs 20 stat_options demo_pattern
           plain_stat searchable_stat); [reflexivity|reflexivity|reflexivity|reflexivity|apply unit_compare_total].
Defined.

(** ** After abort *)
Definition quiet_event (e : glob_event) : Prop := match e with EEnd _ | EMatch _ | EStat _ _ => False | _ => True end.

(** Aborted, nothing is reported but errors, pauses, resumes and aborts. *)
Definition silent (s s' : astate) : Prop :=
  aborted s = true -> aborted s' = true /\ a_found s' = a_found s /\
    (exists evs, emitted s' = emitted s ++ evs /\ Forall quiet_event evs) /\
    (forall found, cb_answer s' = Some (inr found) -> cb_answer s = Some (inr found)).

#[export] Instance silent_preorder : PreOrder silent.
Proof.
  split.
  - intros s Ha. split_and!; [done|done| |done]. exists []. by rewrite app_nil_r.
  - intros s1 s2 s3 H12 H23 Ha. destruct (H12 Ha) as (A2 & F2 & (e2 & E2 & Q2) & C2).
    destruct (H23 A2) as (A3 & F3 & (e3 & E3 & Q3) & C3). split_and!; [done|congruence| |auto].
    exists (e2 ++ e3). rewrite E3, E2, <- app_assoc. split; [done|]. by apply Forall_app.
Qed.

(** Nothing a client sees changes. *)
Lemma silent_same s s' : (aborted s = true -> aborted s' = true) -> a_found s' = a_found s -> emitted s' = emitted s ->
  cb_answer s' = cb_answer s -> silent s s'.
Proof. intros H1 H2 H3 H4 Ha. rewrite H2, H3, H4. split_and!; [by apply H1|done| |done]. exists []. by rewrite app_nil_r. Qed.

Lemma silent_live s s' : aborted s = false -> silent s s'.
Proof. intros H Ha. congruence. Qed.

Local Abbreviation keeps := (keeps silent).

Lemma keeps_lift {A} (m : outcome A) : keeps (lift m).
Proof. intros s. cbn. reflexivity. Qed.

Lemma keeps_on_store {A} (m : stM store A) : keeps (on_store m).
Proof. intros s. unfold on_store. destruct (m (a_store s)) as [st o]. by apply silent_same. Qed.

Lemma keeps_work f : (forall s, aborted (f s) = aborted s /\ a_found (f s) = a_found s /\ emitted (f s) = emitted s /\ cb_answer (f s) = cb_answer s) ->
  keeps (modify_st f).
Proof. intros Hf. apply keeps_modify. intros s. destruct (Hf s) as (H1 & H2 & H3 & H4). apply silent_same; congruence. Qed.

(** Work behind a guard on the flag. *)
Lemma keeps_guard (f : astate -> stM astate unit) : keeps (s ← get_st; if aborted s then mret tt else f s).
Proof.
  intros s. unfold mbind, stM_bind, get_st. destruct (aborted s) eqn:Ha; [apply keeps_ret, silent_preorder|by apply silent_live].
Qed.

Create HintDb silent.
#[local] Hint Extern 1 (quiet_event _) => exact I : silent.

Ltac walk :=
  repeat first
    [ solve [auto 3 with silent nocore] | apply keeps_guard | apply keeps_lift | apply keeps_on_store | apply keeps_work; done
    | apply keeps_ret, silent_preorder | apply keeps_throw, silent_preorder | apply keeps_no_fuel, silent_preorder
    | apply keeps_get, silent_preorder
    | progress (intros; cbv zeta)
    | apply keeps_iter; [apply silent_preorder|]
    | apply keeps_bind; [apply silent_preorder| |]
    | case_match
    | done ].

Section aborted.
Context `{FileSystem} (toLowerCase : jsstr -> jsstr) (localeCompare : jsstr -> jsstr -> Z) (g : settings) (has_cb : bool).

Lemma emit_keeps e : quiet_event e -> keeps (emit has_cb e).
Proof.
  intros He s Ha. unfold emit, modify_st, mbind, stM_bind.
  destruct e as [| | |er| | |]; try done; cbn; try (split_and!; [done|done|by eexists [_]; repeat constructor|done]).
  destruct has_cb; cbn; (split_and!; [done|done|by eexists [_]; repeat constructor|]); [|done].
  intros found. destruct (cb_answer s); [done|]. by intros [= ?].
Qed.
#[local] Hint Resolve emit_keeps : silent.

Lemma abort_keeps : keeps (abort has_cb).
Proof. unfold abort. apply keeps_bind; [apply _| |intros _; by apply emit_keeps]. apply keeps_modify. intros s. by apply silent_same. Qed.
#[local] Hint Resolve abort_keeps : silent.

Lemma pause_keeps : keeps (pause has_cb).
Proof. unfold pause. walk. Qed.

Lemma finish_keeps rounds : keeps (finish_rounds toLowerCase localeCompare g has_cb rounds).
Proof. destruct rounds as [|rounds]; [apply keeps_no_fuel, _|apply keeps_guard]. Qed.
#[local] Hint Resolve finish_keeps : silent.

Lemma done_keeps : keeps (done_ toLowerCase localeCompare g has_cb).
Proof. unfold done_, _finish. walk. Qed.

Lemma realpath_answer_keeps index p a : keeps (realpath_answer toLowerCase localeCompare g has_cb index p a).
Proof. unfold realpath_answer, next, _finish. walk. Qed.

Section calls.
Context (call : callback -> answer -> stM astate unit) (Hcall : forall k a, keeps (call k a)).
#[local] Hint Resolve Hcall : silent.

Lemma RES_keeps key a : keeps (RES call key a).
Proof.
  unfold RES. apply keeps_bind; [apply _|apply keeps_get, _|]. intros s. case_match; [|apply keeps_throw, _].
  intros s1. unfold try_finally. pose proof (keeps_iter silent (fun cb => call cb a) l (fun k => Hcall k a) s1) as Hk.
  destruct (iterM (fun cb => call cb a) l s1) as [s2 o]. cbn in *. etrans; [exact Hk|].
  apply silent_same; unfold res_finally; repeat case_match; done.
Qed.
#[local] Hint Resolve RES_keeps : silent.

Lemma inflight_keeps key k : keeps (inflight key k).
Proof. unfold inflight. walk. Qed.
#[local] Hint Resolve inflight_keeps : silent.

Lemma ask_keeps r k : keeps (ask r k).
Proof. unfold ask. walk. Qed.
#[local] Hint Resolve ask_keeps : silent.

Lemma readdir_keeps star abs b k : (forall k, keeps (star k)) -> keeps (readdir_with call star abs b k).
Proof. intros Hs. apply keeps_guard. Qed.
#[local] Hint Resolve readdir_keeps : silent.

Lemma stat2_keeps f abs st k : keeps (_stat2 call f abs st k).
Proof. unfold _stat2. walk. Qed.
#[local] Hint Resolve stat2_keeps : silent.

Lemma stat_keeps f k : keeps (_stat_cb g call f k).
Proof. unfold _stat_cb. walk. Qed.
#[local] Hint Resolve stat_keeps : silent.

Lemma emitMatch_keeps i e : keeps (_emitMatch toLowerCase g has_cb i e).
Proof. apply keeps_guard. Qed.
#[local] Hint Resolve emitMatch_keeps : silent.

Lemma process_keeps pattern i b k : keeps (_process_cb toLowerCase g call pattern i b k).
Proof. apply keeps_guard. Qed.
#[local] Hint Resolve process_keeps : silent.

Lemma processSimple2_keeps p i a k : keeps (_processSimple2 toLowerCase g has_cb call p i a k).
Proof. unfold _processSimple2. walk. Qed.

Lemma processReaddir2_keeps prefix abs remain i b es k : keeps (_processReaddir2 toLowerCase g has_cb call prefix abs remain i b es k).
Proof. unfold _processReaddir2. walk. Qed.

Lemma processGlobStar2_keeps prefix abs remain i b es k : keeps (_processGlobStar2 toLowerCase g call prefix abs remain i b es k).
Proof. unfold _processGlobStar2. walk. Qed.

Lemma resume_keeps : keeps (resume toLowerCase g has_cb call).
Proof.
  unfold resume. apply keeps_bind; [apply _|apply keeps_get, _|]. intros s. case_match; [apply keeps_ret, _|].
  walk; intros s'; cbn; reflexivity.
Qed.
End calls.
#[local] Hint Resolve inflight_keeps ask_keeps readdir_keeps stat2_keeps stat_keeps emitMatch_keeps process_keeps RES_keeps : silent.

Lemma call_keeps steps k a : keeps (call toLowerCase localeCompare g has_cb steps k a).
Proof.
  revert k a. induction steps as [|steps IH]; intros k a; [apply keeps_no_fuel, _|].
  destruct k; cbn [GlobAsync.call].
  - apply done_keeps.
  - by apply processReaddir2_keeps.
  - by apply processGlobStar2_keeps.
  - by apply processSimple2_keeps.
  - unfold readdirCb, _readdirEntries_cb, _readdirError_cb. walk.
  - unfold lstat_in_star, readdir_plain_cb. walk.
  - unfold lstat_answer. walk.
  - unfold stat_answer. walk.
  - apply realpath_answer_keeps.
  - unfold res_once. walk.
Qed.

Lemma turn_silent steps t s s' o : take_turn toLowerCase localeCompare g has_cb steps t s = Some (s', o) -> silent s s'.
Proof.
  destruct t as [i| |[| |]]; cbn [take_turn].
  - destruct (pending s !! i) as [[r k]|]; [|done]. intros [= E]. etrans; [|].
    2: { pose proof (call_keeps steps k (serve r) (set_pending (delete i (pending s)) s)) as Hk. rewrite E in Hk. exact Hk. }
    by apply silent_same.
  - destruct (waiting s) as [|[key a] rest]; [done|]. intros [= E]. etrans; [|].
    2: { pose proof (RES_keeps _ (call_keeps steps) key a (set_waiting rest s)) as Hk. rewrite E in Hk. exact Hk. }
    by apply silent_same.
  - intros E%(inj Some). pose proof (abort_keeps s) as Hk. by rewrite E in Hk.
  - intros E%(inj Some). pose proof (pause_keeps s) as Hk. by rewrite E in Hk.
  - intros E%(inj Some). pose proof (resume_keeps (GlobAsync.call toLowerCase localeCompare g has_cb steps) s) as Hk. by rewrite E in Hk.
Qed.

Lemma run_silent steps ts s s' os : run_turns toLowerCase localeCompare g has_cb steps ts s = (s', os) -> silent s s'.
Proof.
  revert s os. induction ts as [|t ts IH]; intros s os; cbn [run_turns]; [by intros [= <- _]|].
  destruct (take_turn _ _ _ _ steps t s) as [[s1 o]|] eqn:E; [|by apply IH].
  destruct (run_turns _ _ _ _ steps ts s1) as [s2 os2] eqn:E2. intros [= <- _].
  etrans; [by eapply turn_silent|by eapply IH].
Qed.
End aborted.

(** C23: an aborted search stays aborted.  Whatever happens next, answers, ticks or
    calls of the client, and whatever the file system, the options and the state are,
    no match and no end is reported, the result is not set and the callback of the
    caller is not given one. *)
Theorem aborted_stays_silent (fs : FileSystem) (toLowerCase : jsstr -> jsstr) (localeCompare : jsstr -> jsstr -> Z)
    (g : settings) (has_cb : bool) (steps : nat) (s : astate) (ts : list turn) :
  let s1 := (abort has_cb s).1 in
  let s2 := (run_turns toLowerCase localeCompare g has_cb steps ts s1).1 in
  aborted s2 = true /\ a_found s2 = a_found s /\
  (exists evs, emitted s2 = emitted s ++ EAbort :: evs /\ Forall quiet_event evs) /\
  (forall found, cb_answer s2 = Some (inr found) -> cb_answer s = Some (inr found)).
Proof.
  intros s1 s2. assert (silent s1 s2) as Hsl.
  { unfold s2. destruct (run_turns toLowerCase localeCompare g has_cb steps ts s1) as [s' os] eqn:E. by eapply run_silent. }
  destruct (Hsl eq_refl) as (Ha & Hf & (evs & He & Hq) & Hc). split_and!; [done|done| |done].
  exists evs. split; [|done]. change (emitted s1) with (emitted s ++ [EAbort]) in He. by rewrite He, <- app_assoc.
Qed.

(** ** Departures *)

(** A search on a tree, with turns. *)
Definition search_tree (root : node) (reqs0 : gmap (list Z) (list callback)) (pattern : jsstr) (opts : glob_options)
    (ts : list turn) : option astate :=
  match Glob (H := tree_fs root) id id unit_compare demo_escs 50 200 reqs0 pattern opts true with
  | Ret (AsyncObject g s _) => Some (run_turns (H := tree_fs root) id unit_compare g true 200 ts s).1
  | _ => None
  end.

(** What was reported, what the callback was given, and how much is under way. *)
Definition report (s : astate) : list glob_event * option (fs_error + list jsstr) * nat :=
  (emitted s, cb_answer s, (length (pending s) + length (waiting s))%nat).

(** Serving everything in order. *)
Definition in_order : list turn := concat (replicate 20 [Answer 0; Tick]).

Lemma demo_search :
  report <$> search_tree demo_tree ∅ (js "src/*.js") no_options in_order =
  Some ([EMatch (js "src/a.js"); EEnd [js "src/a.js"]], Some (inr [js "src/a.js"]), 0%nat).
Proof. vm_compute. reflexivity. Qed.

(** The first alternative is ignored and so done at once: the end is reported, and the
    callback given an empty list, before the second one is begun; its matches come
    after the end, and a second end. *)
Lemma ended_too_early :
  let opts := GlobOptions ∅ None None None (Some (inl (js "zz/**"))) None None None in
  let found := map js ["src/a.js"; "src/lib"]%string in
  report <$> search_tree demo_tree ∅ (js "{zz/*,src/*}") opts in_order =
    Some (EEnd [] :: map EMatch found ++ [EEnd found], Some (inr []), 0%nat) /\
  glob_tree demo_tree (js "{zz/*,src/*}") opts = Ret (Some found).
Proof. vm_compute. done. Qed.

(** An aborted search leaves its key in the table of inflight, which is shared: a later
    search of the same directory asks for nothing and never ends. *)
Lemma abort_blocks_later_searches :
  exists s, search_tree demo_tree ∅ (js "src/*") no_options (Client CAbort :: in_order) = Some s /\
    idle s /\ map fst (map_to_list (reqs s)) = [readdir_key (js "/src") false] /\
    report <$> search_tree demo_tree (reqs s) (js "src/*.js") no_options in_order = Some ([], None, 0%nat).
Proof. eexists. split; [vm_compute; reflexivity|]. split; [by vm_compute|]. split; vm_compute; reflexivity. Qed.

(** The end is reported while a match waits for the client to resume; it comes after. *)
Lemma paused_search_ends :
  let opts := no_options in
  report <$> search_tree demo_tree ∅ (js "src/*.js") opts (Client CPause :: in_order) = Some ([EPause; EEnd []], Some (inr []), 0%nat) /\
  report <$> search_tree demo_tree ∅ (js "src/*.js") opts (Client CPause :: in_order ++ [Client CResume]) =
    Some ([EPause; EEnd []; EResume; EMatch (js "src/a.js")], Some (inr []), 0%nat).
Proof. vm_compute. done. Qed.

(** Whether a pattern has wildcards cannot be asked of the empty pattern. *)
Lemma hasMagic_empty :
  let magic p := hasMagic (H := tree_fs demo_tree) id id unit_compare demo_escs 50 p no_options in
  magic (js "src/*") = Ret true /\ magic (js "src/a.js") = Ret false /\
  magic [] = Throw (TypeError "Cannot read property 'length' of undefined").
Proof. vm_compute. done. Qed.
