(* ===== verification/JsJson.v ===== *)
(** * JSON.stringify

    The serializer of the language, as util and assert call it: with the [toJSON] methods
    of the values, a replacer function, and an exception for a cycle.  There is no
    indentation and no list of properties. *)
From stdpp Require Import list.
From S2P Require Import Prelude JsString JsArray JsState JsRegex JsLiteral JsObject.

(** [try { m } catch (e) { mret a }] *)
Definition or_else {S A} (m : stM S A) (a : A) : stM S A := fun s =>
  match m s with (s', Throw _) => (s', Ret a) | r => r end.

Section json.
Context `{Realm} `{Client}.

(** The value that is written for [holder[k]]. *)
Definition json_value (replacer : option js_fun) (holder : value) (k : key) : stM heap value :=
  v ← getM holder k;
  v ← (if is_object v then
         t ← getM v (prop "toJSON");
         h ← get_st;
         if is_function h t then callM t v [Str (key_text k)] else mret v
       else mret v);
  v ← match replacer with Some f => f holder [Str (key_text k); v] | None => mret v end;
  h ← get_st;
  match class_of h v with
  | Some (CNumber _) => p ← to_prim v; mret (Num (number_of_prim p))
  | Some (CString _) => s ← to_text v; mret (Str s)
  | Some (CBoolean b) => mret (Bool b)
  | _ => mret v
  end.

Definition json_number (n : number) : jsstr := match n with Int _ | MinusZero => text_of_number n | _ => js "null" end.

(** The text for [holder[k]]; none for undefined and for functions. *)
Fixpoint json_property (fuel : nat) (replacer : option js_fun) (stack : list loc) (holder : value) (k : key) : stM heap (option jsstr) :=
  match fuel with
  | O => no_fuel
  | S fuel =>
      v ← json_value replacer holder k;
      h ← get_st;
      match v with
      | Undefined => mret None
      | Null => mret (Some (js "null"))
      | Bool b => mret (Some (text_of_prim (Bool b)))
      | Num n => mret (Some (json_number n))
      | Str s => mret (Some (json_quote s))
      | Obj l =>
          if is_function h v then mret None else
          if bool_decide (l ∈ stack) then throw_st (TypeError "Converting circular structure to JSON") else
          let inner := json_property fuel replacer (l :: stack) v in
          match h !! l with
          | Some o =>
              if bool_decide (o_class o = CArray) then
                ts ← mapS (fun i => t ← inner (Index i); mret (default (js "null") t)) (seq 0 (length (o_elems o)));
                mret (Some (js "[" ++ js_join (js ",") ts ++ js "]"))
              else
                ts ← mapS (fun k => t ← inner k; mret ((fun t => json_quote (key_text k) ++ js ":" ++ t) <$> t)) (own_keys o);
                mret (Some (js "{" ++ js_join (js ",") (omap id ts) ++ js "}"))
          | None => mret None
          end
      end
  end.

(** [JSON.stringify(v, replacer)] *)
Definition json_stringify (fuel : nat) (replacer : option js_fun) (v : value) : stM heap (option jsstr) :=
  holder ← alloc (Object CObject (Some object_proto) [] [([], (v, true))]);
  json_property fuel replacer [] holder (Name []).
End json.
