(* ===== verification/Util.v ===== *)
(** * util: types, inheritance, deprecation

    Modules 19 and 26 to 28 of wordcut.js but for the printing of values, which is in
    UtilInspect: the tests of types, [inherits] in its two versions, [_extend],
    [deprecate] and the time stamp of [log].  [inherits_links] says what inheriting gives
    the instances; [deprecated_warns_once] counts the warnings. *)
From stdpp Require Import list.
From S2P Require Import Prelude JsString JsArray JsState JsObject JsHeap.

(** ** Types *)
Section types.
Context `{Realm}.

Definition isArray (h : heap) (ar : value) : bool := bool_decide (class_of h ar = Some CArray).
Definition isBoolean (h : heap) (arg : value) : bool := bool_decide (typeof h arg = "boolean"%string).
Definition isNull (arg : value) : bool := bool_decide (arg = Null).
Definition isNullOrUndefined (arg : value) : bool := nullish arg.
Definition isNumber (h : heap) (arg : value) : bool := bool_decide (typeof h arg = "number"%string).
Definition isString (h : heap) (arg : value) : bool := bool_decide (typeof h arg = "string"%string).
Definition isSymbol (h : heap) (arg : value) : bool := bool_decide (typeof h arg = "symbol"%string).
Definition isUndefined (arg : value) : bool := bool_decide (arg = Undefined).
Definition isObject (h : heap) (arg : value) : bool := bool_decide (typeof h arg = "object"%string) && negb (bool_decide (arg = Null)).
Definition objectToString (h : heap) (o : value) : string := class_name h o.
Definition isRegExp (h : heap) (re : value) : bool := isObject h re && bool_decide (objectToString h re = "RegExp"%string).
Definition isDate (h : heap) (d : value) : bool := isObject h d && bool_decide (objectToString h d = "Date"%string).

(** [e instanceof Error], with the prototype the language gives to [Error] *)
Definition instance_of_Error (h : heap) (e : value) : bool := match e with Obj l => on_chain (length h) h l error_proto | _ => false end.
Definition isError (h : heap) (e : value) : bool :=
  isObject h e && (bool_decide (objectToString h e = "Error"%string) || instance_of_Error h e).

Definition isFunction (h : heap) (arg : value) : bool := bool_decide (typeof h arg = "function"%string).
Definition isPrimitive (h : heap) (arg : value) : bool :=
  bool_decide (arg = Null) || isBoolean h arg || isNumber h arg || isString h arg || isSymbol h arg || isUndefined arg.

(** Whether [isBuffer] answers something true. *)
Definition isBuffer (h : heap) (arg : value) : outcome bool :=
  if negb (truthy arg) then Ret false else
  if negb (bool_decide (typeof h arg = "object"%string)) then Ret false else
  copy ← get h arg (prop "copy");
  if negb (isFunction h copy) then Ret false else
  fill ← get h arg (prop "fill");
  if negb (isFunction h fill) then Ret false else
  read ← get h arg (prop "readUInt8");
  Ret (isFunction h read).

Lemma primitive_not_object h v : isPrimitive h v = negb (is_object v).
Proof.
  destruct v as [| | | | |l]; try done. unfold isPrimitive, isBoolean, isNumber, isString, isSymbol, isUndefined, typeof. cbn.
  by destruct (o_class <$> h !! l) as [[]|].
Qed.
End types.

(** ** Inheritance *)
Section inheriting.
Context `{Realm} `{Client}.

(** [Object.create(proto, {constructor: ...})] *)
Definition object_create (proto ctor : value) : stM heap value :=
  let props := [(js "constructor", (ctor, false))] in
  match proto with
  | Obj p => alloc (Object CObject (Some p) [] props)
  | Null => alloc (Object CObject None [] props)
  | _ => throw_st (TypeError "Object prototype may only be an Object or null")
  end.

Definition inherits (ctor superCtor : value) : stM heap unit :=
  putM ctor (prop "super_") superCtor ;;
  proto ← getM superCtor (prop "prototype");
  p ← object_create proto ctor;
  putM ctor (prop "prototype") p.

(** The version without [Object.create]; [new] takes a prototype that is an object. *)
Definition inherits_shim (ctor superCtor : value) : stM heap unit :=
  putM ctor (prop "super_") superCtor ;;
  proto ← getM superCtor (prop "prototype");
  instance ← match proto with Obj p => alloc (Object CObject (Some p) [] []) | _ => new_object end;
  putM ctor (prop "prototype") instance ;;
  p ← getM ctor (prop "prototype");
  putM p (prop "constructor") ctor.

Definition _extend (origin add : value) : stM heap value :=
  h ← get_st;
  if negb (truthy add) || negb (isObject h add) then mret origin else
  let keys := match add with Obj l => match h !! l with Some o => own_keys o | None => [] end | _ => [] end in
  iterM (fun k => v ← getM add k; putM origin k v) (reverse keys) ;;
  mret origin.
End inheriting.

(** ** The time of a log line *)
Record clock_time : Type := ClockTime { t_month : Z; t_date : Z; t_hours : Z; t_minutes : Z; t_seconds : Z }.

Definition pad (n : Z) : jsstr := if n <? 10 then js "0" ++ dec n else dec n.
Definition months : list jsstr :=
  map js ["Jan"; "Feb"; "Mar"; "Apr"; "May"; "Jun"; "Jul"; "Aug"; "Sep"; "Oct"; "Nov"; "Dec"]%string.

Definition timestamp (d : clock_time) : jsstr :=
  let time := js_join (js ":") [pad (t_hours d); pad (t_minutes d); pad (t_seconds d)] in
  js_join (js " ") [dec (t_date d); default [] (months !! Z.to_nat (t_month d)); time].

(** ** Deprecation

    What [deprecate] reads of the process while it runs; the variable [warned] of a
    function that warns, with what is printed. *)
Record process_flags : Type := ProcessFlags {
  pf_defined : bool;       (* global.process is there *)
  noDeprecation : bool;
  throwDeprecation : bool;
  traceDeprecation : bool }.

Inductive notice : Type := ConsoleTrace (msg : string) | ConsoleError (msg : string).

Record warning : Type := Warning { w_warned : bool; w_console : list notice; w_heap : heap }.

(** A computation on the heap, and one of a function whose own variable is [warned]. *)
Definition on_heap {A} (m : stM heap A) : stM warning A := fun w =>
  let '(h, r) := m (w_heap w) in (Warning (w_warned w) (w_console w) h, r).

Definition fresh_warned {A} (m : stM warning A) : stM warning A := fun w =>
  let '(w', r) := m (Warning false (w_console w) (w_heap w)) in (Warning (w_warned w) (w_console w') (w_heap w'), r).

Definition notify (n : notice) : stM warning unit := modify_st (fun w => Warning (w_warned w) (w_console w ++ [n]) (w_heap w)).

(** The inner function [deprecated]. *)
Definition deprecated (flags : process_flags) (fn : js_fun) (msg : string) (this : value) (args : list value) : stM warning value :=
  w ← get_st;
  (if negb (w_warned w) then
     (if throwDeprecation flags then throw_st (PlainError msg)
      else if traceDeprecation flags then notify (ConsoleTrace msg)
      else notify (ConsoleError msg)) ;;
     modify_st (fun w => Warning true (w_console w) (w_heap w))
   else mret tt) ;;
  on_heap (fn this args).

(** The function that [deprecate] returns where [process] is not there yet: it calls
    [deprecate] again and runs what that returns.  The budget bounds these calls. *)
Fixpoint deprecated_later (fuel : nat) (flags : process_flags) (fn : js_fun) (msg : string) (this : value) (args : list value)
    : stM warning value :=
  match fuel with
  | O => no_fuel
  | S fuel =>
      if negb (pf_defined flags) then deprecated_later fuel flags fn msg this args
      else if noDeprecation flags then on_heap (fn this args)
      else fresh_warned (deprecated flags fn msg this args)
  end.

(** Calling what [deprecate] returned under [made], with the flags of the time of the call. *)
Definition deprecate (fuel : nat) (made : process_flags) (fn : js_fun) (msg : string) (flags : process_flags)
    (this : value) (args : list value) : stM warning value :=
  if negb (pf_defined made) then deprecated_later fuel flags fn msg this args
  else if noDeprecation made then on_heap (fn this args)
  else deprecated flags fn msg this args.

(** ** What inheriting gives *)

(** The heap afterwards: the new prototype is the last object; its [constructor] is
    enumerable in the old version only. *)
Definition linked (old : bool) (h : heap) (c s p : loc) (co : object) : heap :=
  <[c := set_own (prop "prototype") (Obj (length h)) (set_own (prop "super_") (Obj s) co)]> h ++
  [Object CObject (Some p) [] [(js "constructor", (Obj c, old))]].

Section inherits_laws.
Context `{Realm} (h : heap) (c s p : loc) (co so : object) (ps : list loc).
Hypothesis (Hc : h !! c = Some co) (Hfc : o_class co = CFunction) (Hs : h !! s = Some so) (Hfs : o_class so = CFunction).
Hypothesis (Hne : c <> s) (Hp : get_own so (prop "prototype") = Some (Obj p)) (Hps : chain h p ps) (Hcps : c ∉ ps).

Let co1 := set_own (prop "super_") (Obj s) co.
Let co2 := set_own (prop "prototype") (Obj (length h)) co1.

Lemma super_set : putM (Obj c) (prop "super_") (Obj s) h = (<[c := co1]> h, Ret tt).
Proof. by apply putM_object; [|rewrite Hfc]. Qed.

Lemma super_prototype : getM (Obj s) (prop "prototype") (<[c := co1]> h) = (<[c := co1]> h, Ret (Obj p)).
Proof. apply (getM_own _ s so); [by rewrite heap_set_ne|done]. Qed.

Lemma prototype_set o : putM (Obj c) (prop "prototype") (Obj (length h)) (<[c := co1]> h ++ [o]) = (<[c := co2]> h ++ [o], Ret tt).
Proof.
  assert (c < length h)%nat as Hlt by (by eapply lookup_lt_Some).
  rewrite (putM_object _ c co1); [..|by cbn; rewrite Hfc].
  - by rewrite heap_set_old, heap_set_twice by (by rewrite heap_set_length).
  - rewrite heap_old by (by rewrite heap_set_length). by apply (heap_set_eq h c co1 co).
Qed.

Lemma inherits_run (old : bool) : (if old then inherits_shim else inherits) (Obj c) (Obj s) h = (linked old h c s p co, Ret tt).
Proof.
  assert (c < length h)%nat as Hlt by (by eapply lookup_lt_Some).
  assert (length (<[c := co1]> h) = length h) as Hlen by apply heap_set_length.
  destruct old; unfold inherits_shim, inherits; rewrite (bind_ran _ _ _ _ _ super_set), (bind_ran _ _ _ _ _ super_prototype).
  - set (o := Object CObject (Some p) [] []).
    rewrite (bind_ran _ _ _ (<[c := co1]> h ++ [o]) (Obj (length h))) by (unfold alloc; by rewrite Hlen).
    rewrite (bind_ran _ _ _ _ _ (prototype_set o)).
    rewrite (bind_ran _ _ _ (<[c := co2]> h ++ [o]) (Obj (length h))).
    + rewrite (putM_object _ (length h) o); [|rewrite <- (heap_set_length h c co2); apply heap_new|done].
      unfold linked. rewrite <- (heap_set_length h c co2) at 1. by rewrite heap_set_new.
    + apply (getM_own _ c co2).
      * rewrite heap_old by (by rewrite heap_set_length). by apply (heap_set_eq h c co2 co).
      * unfold co2. rewrite get_set_own, bool_decide_eq_true_2; [done..|]. by cbn; rewrite Hfc.
  - rewrite (bind_ran _ _ _ (<[c := co1]> h ++ [Object CObject (Some p) [] [(js "constructor", (Obj c, false))]]) (Obj (length h)))
      by (unfold object_create, alloc; by rewrite Hlen).
    apply prototype_set.
Qed.

(** *** The heap afterwards *)
Section after.
Context (old : bool) (made : list object).

Let h' : heap := linked old h c s p co ++ made.
Let po := Object CObject (Some p) [] [(js "constructor", (Obj c, old))].

Lemma linked_ctor : h' !! c = Some co2.
Proof.
  apply heap_grown. unfold linked. rewrite heap_old by (rewrite heap_set_length; by eapply lookup_lt_Some). by apply (heap_set_eq h c co2 co).
Qed.

Lemma linked_new : h' !! length h = Some po.
Proof. apply heap_grown. pose proof (heap_new (<[c := co2]> h) po) as E. by rewrite heap_set_length in E. Qed.

Lemma linked_old x : (x < length h)%nat -> x <> c -> h' !! x = h !! x.
Proof.
  intros Hx Hxc. destruct (h !! x) as [o|] eqn:Ho; [|by apply lookup_ge_None in Ho; lia]. apply heap_grown. unfold linked.
  rewrite heap_old by (by rewrite heap_set_length). by rewrite heap_set_ne.
Qed.

Lemma linked_chain x : x ∈ ps -> h' !! x = h !! x.
Proof.
  intros Hx. pose proof (chain_in_heap h p ps Hps) as Hin. rewrite Forall_forall in Hin. apply linked_old; [by apply Hin|by intros ->].
Qed.

Lemma linked_reads : get h' (Obj c) (prop "super_") = Ret (Obj s) /\ get h' (Obj c) (prop "prototype") = Ret (Obj (length h)) /\
  get h' (Obj s) (prop "prototype") = Ret (Obj p).
Proof.
  split_and!; [apply (get_own_ret h' c co2); [apply linked_ctor|]; unfold co2, co1; rewrite !get_set_own by (cbn; by rewrite Hfc)..|];
    [by rewrite bool_decide_eq_false_2, bool_decide_eq_true_2|by rewrite bool_decide_eq_true_2|].
  apply (get_own_ret h' s so); [|done]. rewrite linked_old; [done|by eapply lookup_lt_Some|done].
Qed.

(** An object made with the new prototype *)
Context (x : loc) (o : object) (Hx : h' !! x = Some o) (Hxp : o_proto o = Some (length h)).

Lemma instance_chain : chain h' x (x :: length h :: ps).
Proof. eapply chain_next; [done..|]. eapply chain_next; [apply linked_new|done|]. eapply chain_other; [|done]. apply linked_chain. Qed.

Lemma instance_get k : get_own o k = None -> get h' (Obj x) k = (if bool_decide (k = prop "constructor") then Ret (Obj c) else get h (Obj p) k).
Proof.
  intros Hk. rewrite (get_chain h' x _ k instance_chain), (chain_prop_cons _ _ _ _ _ Hx), Hk, (chain_prop_cons _ _ _ _ _ linked_new).
  rewrite (chain_prop_other h h' ps k linked_chain), (get_chain h p ps k Hps).
  case_bool_decide as Ek; [by subst k|]. replace (get_own po k) with (@None value); [done|].
  destruct k as [i|m]; [done|]. unfold po, get_own, assoc. cbn [o_class o_props List.find fst].
  rewrite bool_decide_eq_false_2; [done|]. intros E. apply Ek. by rewrite <- E.
Qed.

Lemma instance_loop : ordinary (o_class o) = true -> get_own o (prop "constructor") = None ->
  prop "constructor" ∈ for_in (length h') h' x [] <-> old = true.
Proof.
  intros Hord Hk. assert (exists m, length h' = S (S m)) as [m ->].
  { unfold h', linked. rewrite !length_app, heap_set_length. cbn. pose proof (lookup_lt_Some _ _ _ Hc). exists (length h + length made - 1)%nat. lia. }
  rewrite (for_in_next _ _ _ _ _ _ Hx Hxp), (for_in_next _ _ _ _ p _ linked_new eq_refl), !elem_of_app.
  cbn [app].
  assert (prop "constructor" ∉ all_own o) as Hseen by (rewrite all_own_spec, Hk; by intros []).
  split.
  - intros [Hi|[Hi|Hi]].
    + destruct Hseen. apply own_keys_own. apply list_elem_of_In, filter_In in Hi as [Hi _]. by apply list_elem_of_In.
    + apply list_elem_of_In, filter_In in Hi as [Hi _]. revert Hi. unfold po. case old; [done|]. intros [].
    + exfalso. revert Hi. apply for_in_seen. apply elem_of_app. right. apply all_own_spec. by eexists.
  - intros Eold. right. left. apply list_elem_of_In, filter_In. split; [|by rewrite bool_decide_eq_false_2 by done].
    apply list_elem_of_In. unfold po. rewrite Eold. by left.
Qed.
End after.
End inherits_laws.

(** Inheriting, in both versions.  An object made afterwards with the prototype
    of the constructor is an instance of it and of the constructor it inherits from; what it
    does not have itself it finds where the objects of the other constructor find it, but
    [constructor], which is the constructor itself and shows up in a loop over the keys
    only in the old version. *)
Theorem inherits_links (R : Realm) (old : bool) (h : heap) (c s p : loc) (co so : object) (ps : list loc)
    (Hc : h !! c = Some co) (Hfc : o_class co = CFunction) (Hs : h !! s = Some so) (Hfs : o_class so = CFunction) (Hne : c <> s)
    (Hp : get_own so (prop "prototype") = Some (Obj p)) (Hps : chain h p ps) (Hcps : c ∉ ps) :
  exists h', (if old then inherits_shim else inherits) (Obj c) (Obj s) h = (h', Ret tt) /\
    get h' (Obj c) (prop "super_") = Ret (Obj s) /\ get h' (Obj c) (prop "prototype") = Ret (Obj (length h)) /\
    forall made x o (h2 : heap := h' ++ made), h2 !! x = Some o -> o_proto o = Some (length h) -> ordinary (o_class o) = true ->
      instance_of h2 (Obj x) (Obj c) = Ret true /\ instance_of h2 (Obj x) (Obj s) = Ret true /\
      forall k, get_own o k = None ->
        get h2 (Obj x) k = (if bool_decide (k = prop "constructor") then Ret (Obj c) else get h (Obj p) k) /\
        (k = prop "constructor" -> k ∈ for_in (length h2) h2 x [] <-> old = true).
Proof.
  exists (linked old h c s p co). split; [by eapply inherits_run|]. pose proof (linked_reads h c s p co so Hc Hfc Hs Hne Hp old []) as Hr.
  rewrite app_nil_r in Hr. destruct Hr as (E1 & E2 & _).
  split_and!; [done..|]. intros made x o h2 Hx Hxp Hord. destruct (linked_reads h c s p co so Hc Hfc Hs Hne Hp old made) as (_ & E2' & E3').
  assert (chain h2 x (x :: length h :: ps)) as Hcx by (by eapply instance_chain). split_and!.
  - rewrite (instance_of_chain _ x _ c _ (length h) Hcx (linked_ctor h c s p co Hc old made)); [|done..]. by rewrite bool_decide_eq_true_2 by left.
  - rewrite (instance_of_chain _ x _ s so p Hcx); [..|done|done].
    + cbn [tail]. rewrite bool_decide_eq_true_2; [done|]. right. inversion Hps; by left.
    + rewrite <- Hs. eapply linked_old; [done..|by eapply lookup_lt_Some|done].
  - intros k Hk. split; [by eapply instance_get|]. intros ->. by eapply instance_loop.
Qed.

(** Two constructors, the second with a method, and an object made with the first one. *)
Definition small_realm : Realm :=
  {| object_proto := 0; array_proto := 0; function_proto := 0; string_proto := 0; number_proto := 0; boolean_proto := 0;
     error_proto := 0; underscore_proto := 0 |}.

Definition small_client : Client :=
  {| apply := fun _ _ _ => mret Undefined; to_primitive := fun _ => mret Undefined; numeral := fun _ => NaN |}.

Definition two_constructors : heap :=
  [Object CObject None [] [];
   Object CObject (Some 0%nat) [] [(js "speak", (Str (js "hello"), true))];
   Object CFunction (Some 0%nat) [] [(js "prototype", (Obj 1, false))];
   Object CFunction (Some 0%nat) [] [(js "prototype", (Obj 0, false))]].

Lemma inherits_links_witness : exists h', inherits (H := small_realm) (Obj 3) (Obj 2) two_constructors = (h', Ret tt) /\
  get (H := small_realm) (h' ++ [Object CObject (Some 4%nat) [] []]) (Obj 5) (prop "speak") = Ret (Str (js "hello")).
Proof.
  destruct (inherits_links small_realm false two_constructors 3 2 1 (Object CFunction (Some 0%nat) [] [(js "prototype", (Obj 0, false))])
    (Object CFunction (Some 0%nat) [] [(js "prototype", (Obj 1, false))]) [1; 0]%nat eq_refl eq_refl eq_refl eq_refl ltac:(discriminate) eq_refl)
    as (h' & E & _ & _ & Hmade).
  - eapply chain_next; [reflexivity|reflexivity|]. eapply chain_last; reflexivity.
  - apply (bool_decide_unpack _). vm_compute. exact I.
  - exists h'. split; [exact E|]. vm_compute in E. injection E as <-.
    pose proof (Hmade [Object CObject (Some 4%nat) [] []] 5%nat (Object CObject (Some 4%nat) [] []) eq_refl eq_refl eq_refl) as (_ & _ & Hk).
    etransitivity; [exact (proj1 (Hk (prop "speak") eq_refl))|]. reflexivity.
Defined.

(** ** Warnings of deprecated functions *)
Section warnings.
Context (flags : process_flags) (fn : js_fun) (msg : string) (this : value) (args : list value).

Definition notice_of : notice := if traceDeprecation flags then ConsoleTrace msg else ConsoleError msg.

(** A call that warns, one after a warning, and one where the process asks for an exception. *)
Lemma deprecated_first w : throwDeprecation flags = false -> w_warned w = false ->
  deprecated flags fn msg this args w =
  (Warning true (w_console w ++ [notice_of]) (fn this args (w_heap w)).1, (fn this args (w_heap w)).2).
Proof.
  intros Ht Hw. unfold deprecated, notice_of. rewrite (bind_ran _ _ w w w) by done. rewrite Hw, Ht. cbn [negb].
  destruct (traceDeprecation flags); unfold on_heap, notify, modify_st, mbind, stM_bind; cbn; by destruct (fn this args (w_heap w)).
Qed.

Lemma deprecated_again w : w_warned w = true ->
  deprecated flags fn msg this args w = (Warning true (w_console w) (fn this args (w_heap w)).1, (fn this args (w_heap w)).2).
Proof.
  intros Hw. unfold deprecated. rewrite (bind_ran _ _ w w w) by done. rewrite Hw. cbn [negb].
  unfold on_heap, mbind, stM_bind, mret, stM_ret. rewrite Hw. by destruct (fn this args (w_heap w)).
Qed.

Lemma deprecated_refuses w : throwDeprecation flags = true -> w_warned w = false -> deprecated flags fn msg this args w = (w, Throw (PlainError msg)).
Proof. intros Ht Hw. unfold deprecated. rewrite (bind_ran _ _ w w w) by done. by rewrite Hw, Ht. Qed.

(** A function that was made deprecated before [process] was there warns at every call:
    each call makes another [warned]. *)
Lemma deprecated_later_warns fuel w : pf_defined flags = true -> noDeprecation flags = false -> throwDeprecation flags = false ->
  deprecated_later (S fuel) flags fn msg this args w =
  (Warning (w_warned w) (w_console w ++ [notice_of]) (fn this args (w_heap w)).1, (fn this args (w_heap w)).2).
Proof.
  intros Hd Hn Ht. cbn [deprecated_later]. rewrite Hd, Hn. cbn [negb]. unfold fresh_warned. by rewrite deprecated_first.
Qed.

(** Where [process] is never there, as in a browser, a call goes on for ever. *)
Lemma deprecated_never_ends fuel w : pf_defined flags = false -> deprecated_later fuel flags fn msg this args w = (w, OutOfFuel).
Proof. intros Hd. induction fuel as [|fuel IH]; [done|]. cbn [deprecated_later]. by rewrite Hd. Qed.
End warnings.

(** A computation with what becomes of it. *)
Definition outcome_of {S A} (m : stM S A) : stM S (outcome A) := fun s => let '(s, r) := m s in (s, Ret r).

(** A deprecated function warns at its first call and never again, and every call does
    what the function does. *)
Theorem deprecated_warns_once (flags : process_flags) (fn : js_fun) (msg : string) (w : warning) (calls : list (value * list value)) w' rs :
  throwDeprecation flags = false -> w_warned w = false ->
  mapS (fun c => outcome_of (deprecated flags fn msg c.1 c.2)) calls w = (w', Ret rs) ->
  w_console w' = w_console w ++ (match calls with [] => [] | _ => [notice_of flags msg] end) /\
  mapS (fun c => outcome_of (fn c.1 c.2)) calls (w_heap w) = (w_heap w', Ret rs).
Proof.
  intros Ht Hw. assert (forall cs w w' rs, w_warned w = true ->
    mapS (fun c => outcome_of (deprecated flags fn msg c.1 c.2)) cs w = (w', Ret rs) ->
    w_console w' = w_console w /\ mapS (fun c => outcome_of (fn c.1 c.2)) cs (w_heap w) = (w_heap w', Ret rs)) as Hagain.
  { clear. induction cs as [|[this args] cs IH]; intros w w' rs Hw E; cbn [mapS] in *.
    - injection E as <- <-. done.
    - unfold mbind, stM_bind, outcome_of in *. cbn [fst snd] in *. rewrite deprecated_again in E by done. destruct (fn this args (w_heap w)) as [h r]. cbn [fst snd] in E.
      destruct (mapS _ cs (Warning true (w_console w) h)) as [w1 [rs1| |]] eqn:E1; try done. injection E as <- <-.
      apply IH in E1 as [-> E2]; [|done]. cbn [w_heap w_console] in *. split; [done|]. by rewrite E2. }
  destruct calls as [|[this args] calls]; cbn [mapS]; intros E.
  - injection E as <- <-. by rewrite app_nil_r.
  - unfold mbind, stM_bind, outcome_of in *. cbn [fst snd] in *. rewrite deprecated_first in E by done. destruct (fn this args (w_heap w)) as [h r]. cbn [fst snd] in E.
    destruct (mapS _ calls (Warning true (w_console w ++ [notice_of flags msg]) h)) as [w1 [rs1| |]] eqn:E1; try done. injection E as <- <-.
    apply Hagain in E1 as [-> E2]; [|done]. cbn [w_heap w_console] in *. split; [done|]. by rewrite E2.
Qed.
