(* ===== verification/UtilInspect.v ===== *)
(** * util: printing values

    [inspect] and [format] of module 28 of wordcut.js.  The context of a print is an object
    on the heap, as in the code, since functions of the client may get hold of it; what
    [stylize] is set to is one of the two functions of the module (an options object that
    brings its own is left out).  The tables of colours and styles are as the module sets
    them.  [inspect_terminates]: printing ends on every heap, cyclic or not;
    [string_reads_back]: a printed string is a literal of that string. *)
From stdpp Require Import list.
From S2P Require Import Prelude JsString JsArray JsState JsRegex JsLiteral JsObject JsHeap JsJson Util.

(** The function objects of the module, and the texts of dates, which depend on the
    time zone. *)
Class Printing : Type := {
  inspect_function : loc;
  stylizeNoColor_function : loc;
  stylizeWithColor_function : loc;
  date_text : number -> jsstr;
  date_utc_text : number -> jsstr }.

(** ** Colours *)
Definition colors : list (string * (Z * Z)) :=
  [("bold", (1, 22)); ("italic", (3, 23)); ("underline", (4, 24)); ("inverse", (7, 27)); ("white", (37, 39)); ("grey", (90, 39));
   ("black", (30, 39)); ("blue", (34, 39)); ("cyan", (36, 39)); ("green", (32, 39)); ("magenta", (35, 39)); ("red", (31, 39)); ("yellow", (33, 39))]%string.

Definition styles : list (string * string) :=
  [("special", "cyan"); ("number", "yellow"); ("boolean", "yellow"); ("undefined", "grey"); ("null", "bold"); ("string", "green");
   ("date", "magenta"); ("regexp", "red")]%string.

Definition table {A} (l : list (string * A)) (s : string) : option A := snd <$> List.find (fun p => bool_decide (p.1 = s)) l.

Definition stylizeWithColor (str : jsstr) (styleType : string) : jsstr :=
  match table styles styleType ≫= table colors with
  | Some (a, b) => (27 :: js "[") ++ dec a ++ js "m" ++ str ++ (27 :: js "[") ++ dec b ++ js "m"
  | None => str
  end.

Definition stylizeNoColor (str : jsstr) (styleType : string) : jsstr := str.

(** ** Quoting *)
Definition dquote : jsstr := [34].
Definition edge_quotes : regex := default REmpty (regex_parse (js "^" ++ dquote ++ js "|" ++ dquote ++ js "$")).
Definition edge_quotes_group : regex := default REmpty (regex_parse (js "(^" ++ dquote ++ js "|" ++ dquote ++ js "$)")).
Definition single_quote : regex := regex_lit "'".
Definition escaped_quote : regex := default REmpty (regex_parse (js "\\" ++ dquote)).

Definition quote_string (s : jsstr) : jsstr :=
  js "'" ++
  replace_global escaped_quote (fun _ => dquote)
    (replace_global single_quote (fun _ => js "\'")
      (replace_global edge_quotes (fun _ => []) (json_quote s))) ++
  js "'".

Definition identifier_name : regex := default REmpty (regex_parse (js "^" ++ dquote ++ js "([a-zA-Z_][a-zA-Z_0-9]*)" ++ dquote ++ js "$")).

(** The name of a property that is no identifier. *)
Definition quote_key (name : jsstr) : jsstr :=
  replace_global edge_quotes_group (fun _ => js "'")
    (replace_global escaped_quote (fun _ => dquote)
      (replace_global single_quote (fun _ => js "\'") name)).

Definition all_digits : regex := regex_lit "^\d+$".
Definition ansi_escape : regex := regex_lit "\u001b\[\d\d?m".
Definition newline : jsstr := [10].

(** ** Lines *)
Definition reduceToSingleString (output : list jsstr) (base : jsstr) (braces : jsstr * jsstr) : jsstr :=
  let length := foldl (fun prev cur => prev + js_len (replace_global ansi_escape (fun _ => []) cur) + 1) 0 output in
  if 60 <? length
  then braces.1 ++ (if bool_decide (base = []) then [] else base ++ newline ++ js " ") ++ js " " ++
       js_join (js "," ++ newline ++ js "  ") output ++ js " " ++ braces.2
  else braces.1 ++ base ++ js " " ++ js_join (js ", ") output ++ js " " ++ braces.2.

(** A text of several lines below its name. *)
Definition indent (array : bool) (str : jsstr) : jsstr :=
  if bool_decide (-1 < indexOf str newline 0) then
    if array then js_slice_from (js_join newline (map (app (js "  ")) (js_split str newline))) 2
    else newline ++ js_join newline (map (app (js "   ")) (js_split str newline))
  else str.

Section printing.
Context `{Realm} `{Client} `{Printing}.

Definition stylize (ctx : value) (str : jsstr) (styleType : string) : stM heap jsstr :=
  f ← getM ctx (prop "stylize");
  mret (if bool_decide (f = Obj stylizeWithColor_function) then stylizeWithColor str styleType else stylizeNoColor str styleType).

Definition formatPrimitive (ctx v : value) : stM heap (option jsstr) :=
  match v with
  | Undefined => t ← stylize ctx (js "undefined") "undefined"; mret (Some t)
  | Str s => t ← stylize ctx (quote_string s) "string"; mret (Some t)
  | Num n => t ← stylize ctx (text_of_number n) "number"; mret (Some t)
  | Bool b => t ← stylize ctx (text_of_prim (Bool b)) "boolean"; mret (Some t)
  | Null => t ← stylize ctx (js "null") "null"; mret (Some t)
  | Obj _ => mret None
  end.

(** [Error.prototype.toString.call(v)] *)
Definition error_text (v : value) : stM heap jsstr :=
  name ← getM v (prop "name");
  name ← (if isUndefined name then mret (js "Error") else to_text name);
  msg ← getM v (prop "message");
  msg ← (if isUndefined msg then mret [] else to_text msg);
  mret (if bool_decide (name = []) then msg else if bool_decide (msg = []) then name else name ++ js ": " ++ msg).

Definition formatError (v : value) : stM heap jsstr := t ← error_text v; mret (js "[" ++ t ++ js "]").

(** [value.name ? ': ' + value.name : ''] *)
Definition name_suffix (v : value) : stM heap jsstr :=
  n ← getM v (prop "name");
  if truthy n then t ← to_text n; mret (js ": " ++ t) else mret [].

Definition regexp_text (h : heap) (v : value) : jsstr := match class_of h v with Some (CRegExp t) => t | _ => [] end.
Definition date_of (h : heap) (v : value) : number := match class_of h v with Some (CDate t) => t | _ => NaN end.

(** [Object.keys] and [Object.getOwnPropertyNames] of an object *)
Definition object_keys (h : heap) (v : value) : list key :=
  match v with Obj l => match h !! l with Some o => own_keys o | None => [] end | _ => [] end.

Definition own_names (h : heap) (v : value) : list key :=
  match v with
  | Obj l =>
      match h !! l with
      | Some o => index_keys o ++ (match o_class o with CArray | CString _ => [prop "length"] | _ => [] end) ++ map (fun p => Name p.1) (o_props o)
      | None => []
      end
  | _ => []
  end.

(** The elements of the array of values that are being printed. *)
Definition elements (h : heap) (v : value) : list value :=
  match v with Obj l => match h !! l with Some o => omap id (o_elems o) | None => [] end | _ => [] end.

Definition array_size (h : heap) (v : value) : nat :=
  match v with Obj l => match h !! l with Some o => length (o_elems o) | None => 0%nat end | _ => 0%nat end.

(** [arr.pop()] *)
Definition pop (arr : value) : stM heap unit :=
  match arr with
  | Obj l =>
      modify_st (fun h => match h !! l with
                          | Some o => <[l := Object (o_class o) (o_proto o) (removelast (o_elems o)) (o_props o)]> h
                          | None => h
                          end)
  | _ => throw_st (TypeError "pop is not a function")
  end.

(** [recurseTimes - 1] *)
Definition minus_one (v : value) : stM heap value :=
  p ← to_prim v;
  mret (Num (match number_of_prim p with Int z => Int (z - 1) | MinusZero => Int (-1) | n => n end)).

(** *** Properties *)

(** The functions below print nested values by [print], which is [formatValue]. *)
Definition printer : Type := value -> value -> stM heap jsstr.

Definition property_name (ctx : value) (key : jsstr) : stM heap jsstr :=
  let name := json_quote key in
  if regex_test identifier_name name then stylize ctx (js_slice name 1 (js_len name - 1)) "name"
  else stylize ctx (quote_key name) "string".

Definition formatProperty (print : printer) (ctx v recurseTimes : value) (visibleKeys : list key) (array : bool) (k : key) : stM heap jsstr :=
  w ← getM v k;
  seen ← getM ctx (prop "seen");
  h ← get_st;
  str ← (if negb (existsb (fun x => strict_eq x w) (elements h seen)) then
           deeper ← (if isNull recurseTimes then mret Null else minus_one recurseTimes);
           str ← print w deeper;
           mret (indent array str)
         else stylize ctx (js "[Circular]") "special");
  if negb (bool_decide (k ∈ visibleKeys)) then mret (js "[" ++ key_text k ++ js "]: " ++ str) else
  if array && regex_test all_digits (key_text k) then mret str else
  name ← property_name ctx (key_text k);
  mret (name ++ js ": " ++ str).

Definition formatArray (print : printer) (ctx v recurseTimes : value) (visibleKeys keys : list key) : stM heap (list jsstr) :=
  h ← get_st;
  items ← mapS (fun i =>
    own ← look (fun h => own_prop h v (Index i));
    if (own : bool) then formatProperty print ctx v recurseTimes visibleKeys true (Index i) else mret []) (seq 0 (array_size h v));
  others ← mapS (formatProperty print ctx v recurseTimes visibleKeys true)
    (List.filter (fun k => negb (regex_test all_digits (key_text k))) keys);
  mret (items ++ others).

(** *** Objects *)

(** What is printed of an object without keys; none where the general form applies. *)
Definition formatEmpty (ctx v : value) : stM heap (option jsstr) :=
  h ← get_st;
  if isFunction h v then n ← name_suffix v; t ← stylize ctx (js "[Function" ++ n ++ js "]") "special"; mret (Some t) else
  if isRegExp h v then t ← stylize ctx (regexp_text h v) "regexp"; mret (Some t) else
  if isDate h v then t ← stylize ctx (date_text (date_of h v)) "date"; mret (Some t) else
  if isError h v then t ← formatError v; mret (Some t) else
  mret None.

Definition object_base (v : value) : stM heap jsstr :=
  h ← get_st;
  base ← (if isFunction h v then n ← name_suffix v; mret (js " [Function" ++ n ++ js "]") else mret []);
  let base := if isRegExp h v then js " " ++ regexp_text h v else base in
  let base := if isDate h v then js " " ++ date_utc_text (date_of h v) else base in
  if isError h v then t ← formatError v; mret (js " " ++ t) else mret base.

(** [formatValue] of an object, from the keys on. *)
Definition formatObject (print : printer) (ctx v recurseTimes : value) : stM heap jsstr :=
  h ← get_st;
  let visibleKeys := object_keys h v in
  showHidden ← getM ctx (prop "showHidden");
  let keys := if truthy showHidden then own_names h v else visibleKeys in
  if isError h v && (bool_decide (prop "message" ∈ keys) || bool_decide (prop "description" ∈ keys)) then formatError v else
  short ← (if bool_decide (keys = []) then formatEmpty ctx v else mret None);
  match short with
  | Some t => mret t
  | None =>
      let array := isArray h v in
      let braces := if array then (js "[", js "]") else (js "{", js "}") in
      base ← object_base v;
      h ← get_st;
      if bool_decide (keys = []) && (negb array || (array_size h v =? 0)%nat) then mret (braces.1 ++ base ++ braces.2) else
      deep ← less_than recurseTimes (Num (Int 0));
      if (deep : bool) then
        if isRegExp h v then stylize ctx (regexp_text h v) "regexp" else stylize ctx (js "[Object]") "special"
      else
        seen ← getM ctx (prop "seen");
        push seen v ;;
        output ← (if array then formatArray print ctx v recurseTimes visibleKeys keys
                  else mapS (formatProperty print ctx v recurseTimes visibleKeys false) keys);
        seen ← getM ctx (prop "seen");
        pop seen ;;
        mret (reduceToSingleString output base braces)
  end.

(** The [inspect] method of a value, if it is the client's. *)
Definition custom_inspect (ctx v : value) : stM heap (option value) :=
  customInspect ← getM ctx (prop "customInspect");
  if negb (truthy customInspect && truthy v) then mret None else
  f ← getM v (prop "inspect");
  h ← get_st;
  if negb (isFunction h f) || strict_eq f (Obj inspect_function) then mret None else
  c ← getM v (prop "constructor");
  if truthy c then p ← getM c (prop "prototype"); mret (if strict_eq p v then None else Some f) else mret (Some f).

Fixpoint formatValue (fuel : nat) (ctx v recurseTimes : value) : stM heap jsstr :=
  match fuel with
  | O => no_fuel
  | S fuel =>
      custom ← custom_inspect ctx v;
      match custom with
      | Some f =>
          ret ← callM f v [recurseTimes; ctx];
          match ret with Str s => mret s | _ => formatValue fuel ctx ret recurseTimes end
      | None =>
          primitive ← formatPrimitive ctx v;
          match primitive with
          | Some t => mret t
          | None => formatObject (formatValue fuel ctx) ctx v recurseTimes
          end
      end
  end.

(** ** inspect and format *)
Definition arg (args : list value) (i : nat) : value := default Undefined (args !! i).

Definition set_default (ctx : value) (name : string) (v : value) : stM heap unit :=
  old ← getM ctx (prop name);
  if isUndefined old then putM ctx (prop name) v else mret tt.

Definition inspect (fuel : nat) (args : list value) : stM heap jsstr :=
  let opts := arg args 1 in
  seen ← new_array [];
  ctx ← alloc (Object CObject (Some object_proto) [] [(js "seen", (seen, true)); (js "stylize", (Obj stylizeNoColor_function, true))]);
  (if (3 <=? length args)%nat then putM ctx (prop "depth") (arg args 2) else mret tt) ;;
  (if (4 <=? length args)%nat then putM ctx (prop "colors") (arg args 3) else mret tt) ;;
  h ← get_st;
  (if isBoolean h opts then putM ctx (prop "showHidden") opts
   else if truthy opts then _extend ctx opts ;; mret tt else mret tt) ;;
  set_default ctx "showHidden" (Bool false) ;;
  set_default ctx "depth" (Num (Int 2)) ;;
  set_default ctx "colors" (Bool false) ;;
  set_default ctx "customInspect" (Bool true) ;;
  c ← getM ctx (prop "colors");
  (if truthy c then putM ctx (prop "stylize") (Obj stylizeWithColor_function) else mret tt) ;;
  depth ← getM ctx (prop "depth");
  formatValue fuel ctx (arg args 0) depth.

Definition formatRegExp : regex := regex_lit "%[sdj%]".

(** The callback of the replacement, with the arguments that are left. *)
Definition format_match (fuel : nat) (x : jsstr) (rest : list value) : stM heap (jsstr * list value) :=
  if bool_decide (x = js "%%") then mret (js "%", rest) else
  match rest with
  | [] => mret (x, [])
  | v :: rest =>
      if bool_decide (x = js "%s") then t ← to_text v; mret (t, rest)
      else if bool_decide (x = js "%d") then p ← to_prim v; mret (text_of_number (number_of_prim p), rest)
      else if bool_decide (x = js "%j") then
        t ← or_else (t ← json_stringify fuel None v; mret (default (js "undefined") t)) (js "[Circular]");
        mret (t, rest)
      else mret (x, v :: rest)
  end.

Definition format_step (fuel : nat) (f : jsstr) (st : jsstr * Z * list value) (m : match_result) : stM heap (jsstr * Z * list value) :=
  let '(str, index, rest) := st in
  p ← format_match fuel (m_text m) rest;
  let '(t, rest) := (p : jsstr * list value) in
  mret (str ++ js_slice f index (m_index m) ++ t, m_index m + js_len (m_text m), rest).

Definition format (fuel : nat) (args : list value) : stM heap jsstr :=
  match args with
  | Str f :: rest =>
      st ← foldS (format_step fuel f) ([], 0, rest) (matches_loop (length f) formatRegExp 0 f 0);
      let '(str, index, rest) := (st : jsstr * Z * list value) in
      foldS (fun str x =>
        h ← get_st;
        t ← (if isNull x || negb (isObject h x) then to_text x else inspect fuel [x]);
        mret (str ++ js " " ++ t)) (str ++ js_slice_from f index) rest
  | _ => ts ← mapS (fun a => inspect fuel [a]) args; mret (js_join (js " ") ts)
  end.

(** What [log] hands to the console: a format and two texts. *)
Definition log (fuel : nat) (now : clock_time) (args : list value) : stM heap (list value) :=
  t ← format fuel args;
  mret [Str (js "%s - %s"); Str (timestamp now); Str t].
End printing.

(** ** A printed string *)

(** Taking the quotes off *)
Lemma edge_quotes_match total t :
  match_at total edge_quotes t =
  match t with
  | x :: r => if 34 =? x then (if (length t =? total)%nat then Some ([], r) else match r with [] => Some ([], []) | _ => None end) else None
  | [] => None
  end.
Proof.
  unfold match_at. replace edge_quotes with ltac:(let r := eval vm_compute in edge_quotes in exact r) by (vm_compute; reflexivity).
  destruct t as [|x t]; cbn -[Z.eqb Nat.eqb length]; destruct (_ =? total)%nat; try done; destruct (34 =? x); try done; by destruct t.
Qed.

Lemma strip_end total v i : (length v + 1 < total)%nat -> replace_loop total edge_quotes (fun _ => []) 0 (v ++ [34]) i = v.
Proof.
  revert i. induction v as [|x v IH]; intros i Hv; cbn [app replace_loop]; rewrite edge_quotes_match.
  - rewrite Z.eqb_refl, edge_quotes_match. match goal with |- context [(?a =? total)%nat] => by destruct (a =? total)%nat end.
  - match goal with |- context [(?a =? total)%nat] => replace (a =? total)%nat with false
      by (symmetry; apply Nat.eqb_neq; cbn in *; rewrite length_app; cbn; lia) end.
    cbn [length] in Hv. rewrite IH by lia.
    assert (exists y w, v ++ [34] = y :: w) as (y & w & ->) by (destruct v; by do 2 eexists). by destruct (34 =? x).
Qed.

Lemma strip_quotes u : replace_global edge_quotes (fun _ => []) (34 :: u ++ [34]) = u.
Proof.
  unfold replace_global. pose proof (replace_match (length (34 :: u ++ [34])) edge_quotes (fun _ => []) 34 [] (u ++ [34]) 0 []) as E.
  cbn [app] in E. rewrite E; [|by rewrite edge_quotes_match, Z.eqb_refl, Nat.eqb_refl]. apply strip_end. cbn. rewrite length_app. cbn. lia.
Qed.

(** What becomes of a chunk *)
Definition with_single (c : Z) : jsstr := if c =? 39 then [92; 39] else [c].
Definition mid_chunk (t : jsstr) (c : Z) : jsstr := if c =? 39 then [92; 39] else t.
Definition last_chunk (t : jsstr) (c : Z) : jsstr := if c =? 34 then [34] else mid_chunk t c.

Lemma single_quotes s : replace_global single_quote (fun _ => js "\'") s = concat (map with_single s).
Proof.
  unfold with_single. etrans; [apply (replace_units _ _ _ (fun c => 39 =? c) (fun _ => [92; 39]))|].
  - by vm_compute.
  - intros c r. unfold match_at. replace single_quote with ltac:(let r := eval vm_compute in single_quote in exact r) by (vm_compute; reflexivity).
    cbn -[Z.eqb]. by destruct (39 =? c).
  - done.
  - f_equal. apply map_ext. intros c. by rewrite (Z.eqb_sym 39 c).
Qed.

Lemma hex_digit_range d : 0 <= d < 16 -> 48 <= hex_digit d <= 57 \/ 97 <= hex_digit d <= 102.
Proof. unfold hex_digit. intros. destruct (Z.ltb_spec d 10); lia. Qed.

Lemma hex4_units c : Forall (fun u => 48 <= u <= 57 \/ 97 <= u <= 102) (hex4 c).
Proof. apply Forall_map, Forall_forall. intros d _. apply hex_digit_range, Z.mod_pos_bound. lia. Qed.

Ltac each_escape Hi := repeat (apply elem_of_cons in Hi as [[= -> ->]|Hi]); [..|by apply elem_of_nil in Hi].

Lemma single_chunk t c : chunk_for t c -> concat (map with_single t) = mid_chunk t c.
Proof.
  unfold mid_chunk. destruct 1 as [e c Hi|c Hc Hr Hn|c Hc].
  - unfold json_escapes in Hi. each_escape Hi; done.
  - rewrite (proj2 (Z.eqb_neq _ _) Hn). cbn [map concat]. change (with_single 92) with [92]. change (with_single 117) with [117]. cbn [app]. do 2 f_equal.
    pose proof (hex4_units c) as Hh. induction (hex4 c) as [|u us IH]; [done|]. apply Forall_cons in Hh as [Hu Hus]. cbn [map concat]. rewrite IH by done.
    unfold with_single. by rewrite (proj2 (Z.eqb_neq u 39)) by lia.
  - cbn. unfold with_single. rewrite app_nil_r. by destruct (Z.eqb_spec c 39) as [->|].
Qed.

Lemma single_chunks ts s : Forall2 chunk_for ts s -> concat (map with_single (concat ts)) = concat (zip_with mid_chunk ts s).
Proof.
  induction 1 as [|t c ts s Ht Hts IH]; [done|]. cbn [concat zip_with]. by rewrite map_app, concat_app, IH, (single_chunk t c).
Qed.

(** Quotes lose their escape again. *)
Lemma escaped_quote_match total t : match_at total escaped_quote t = match t with x :: y :: r => if (92 =? x) && (34 =? y) then Some ([], r) else None | _ => None end.
Proof.
  unfold match_at. replace escaped_quote with ltac:(let r := eval vm_compute in escaped_quote in exact r) by (vm_compute; reflexivity).
  destruct t as [|x [|y r]]; cbn -[Z.eqb]; [done|by destruct (92 =? x)|]. destruct (92 =? x); [|done]. by destruct (34 =? y).
Qed.

Lemma mid_head t c r : chunk_for t c -> exists x u, mid_chunk t c ++ r = x :: u /\ x <> 34.
Proof.
  unfold mid_chunk. intros Ht. destruct (c =? 39); [by do 2 eexists|]. destruct Ht as [e c Hi|c Hc Hr Hn|c Hc]; try by do 2 eexists.
  eexists c, _. split; [done|]. intros ->. done.
Qed.

Lemma mids_head ts s : Forall2 chunk_for ts s -> match concat (zip_with mid_chunk ts s) with x :: _ => x <> 34 | [] => True end.
Proof.
  destruct 1 as [|t c ts s Ht Hts]; [done|]. cbn [zip_with concat]. destruct (mid_head t c (concat (zip_with mid_chunk ts s)) Ht) as (x & u & -> & Hx).
  done.
Qed.

Lemma skip_unit total f x r i : x <> 92 \/ match r with y :: _ => y <> 34 | [] => True end ->
  replace_loop total escaped_quote f 0 (x :: r) i = x :: replace_loop total escaped_quote f 0 r (i + 1).
Proof.
  intros Hx. cbn [replace_loop]. rewrite escaped_quote_match. destruct r as [|y r]; [done|].
  replace ((92 =? x) && (34 =? y)) with false; [done|]. symmetry. apply andb_false_iff. rewrite !Z.eqb_neq. destruct Hx; [left|right]; lia.
Qed.

Lemma skip_units total f u r i : Forall (fun x => x <> 92) u ->
  exists j, replace_loop total escaped_quote f 0 (u ++ r) i = u ++ replace_loop total escaped_quote f 0 r j.
Proof.
  intros Hu. revert i. induction Hu as [|x u Hx Hu IH]; intros i; [by exists i|]. cbn [app]. rewrite skip_unit by (by left).
  destruct (IH (i + 1)) as [j ->]. by exists j.
Qed.

Lemma unescape_chunk total t c r i : chunk_for t c -> match r with y :: _ => y <> 34 | [] => True end ->
  exists j, replace_loop total escaped_quote (fun _ => dquote) 0 (mid_chunk t c ++ r) i =
    last_chunk t c ++ replace_loop total escaped_quote (fun _ => dquote) 0 r j.
Proof.
  intros Ht Hr. unfold last_chunk, mid_chunk.
  assert (forall e, e <> 34 -> e <> 92 \/ e = 92 -> exists j, replace_loop total escaped_quote (fun _ => dquote) 0 ([92; e] ++ r) i =
    [92; e] ++ replace_loop total escaped_quote (fun _ => dquote) 0 r j) as Hpair.
  { intros e He Hb. cbn [app]. exists (i + 1 + 1). rewrite skip_unit by (by right). rewrite skip_unit; [done|]. destruct Hb; [by left|by right]. }
  destruct (Z.eqb_spec c 39) as [->|Hc39]; [by apply Hpair; [|left]|]. destruct Ht as [e c Hi|c Hc Hr2 Hn|c Hc].
  - unfold json_escapes in Hi. each_escape Hi; try (apply Hpair; lia).
    exists (i + 1 + Z.of_nat 1). by apply (replace_match total escaped_quote (fun _ => dquote) 92 [34] r i []); rewrite escaped_quote_match.
  - replace (c =? 34) with false; [|symmetry; apply Z.eqb_neq; intros ->; by destruct Hr2].
    destruct (skip_units total (fun _ => dquote) (hex4 c) r (i + 1 + 1)) as [j Hj].
    { eapply Forall_impl; [apply hex4_units|]. cbn. lia. }
    exists j. cbn [app]. rewrite skip_unit by (by right). rewrite skip_unit by (by left). by rewrite Hj.
  - assert (c <> 34 /\ c <> 92) as [H1 H2] by (split; intros ->; done). rewrite (proj2 (Z.eqb_neq _ _) H1). exists (i + 1). cbn [app]. by rewrite skip_unit by (by left).
Qed.

Lemma unescape_chunks total ts s i : Forall2 chunk_for ts s ->
  replace_loop total escaped_quote (fun _ => dquote) 0 (concat (zip_with mid_chunk ts s)) i = concat (zip_with last_chunk ts s).
Proof.
  intros Hts. revert i. induction Hts as [|t c ts s Ht Hts IH]; intros i; [cbn [zip_with concat replace_loop]; by rewrite escaped_quote_match|].
  cbn [zip_with concat]. destruct (unescape_chunk total t c (concat (zip_with mid_chunk ts s)) i Ht (mids_head ts s Hts)) as [j ->].
  by rewrite IH.
Qed.

Ltac decided := apply (bool_decide_unpack _); vm_compute; exact I.

Lemma last_reads t c : chunk_for t c -> reads 39 [10; 13] (last_chunk t c) c.
Proof.
  intros Ht. unfold last_chunk, mid_chunk. destruct (Z.eqb_spec c 34) as [->|H34]; [apply reads_unit; decided|].
  destruct (Z.eqb_spec c 39) as [->|H39]; [apply reads_escape; decided|]. destruct Ht as [e c Hi|c Hc Hr Hn|c Hc].
  - unfold json_escapes in Hi. each_escape Hi; apply reads_escape; decided.
  - apply reads_hex; [decided..|done].
  - assert (c <> 10 /\ c <> 13 /\ c <> 92) as (H1 & H2 & H3) by (split_and!; intros ->; done). apply reads_unit; [done| |done].
    rewrite !not_elem_of_cons. split_and!; try done. apply not_elem_of_nil.
Qed.

(** C19: a printed string is a literal of the string.  What [inspect] writes for it, in
    single quotes, reads back as the string, whatever quotes, backslashes, control units and
    halves of surrogate pairs are in it. *)
Theorem string_reads_back (s : jsstr) :
  exists body, quote_string s = 39 :: body /\ forall rest, read_literal 39 [10; 13] (body ++ rest) = Some (s, rest).
Proof.
  unfold quote_string, json_quote. pose proof (json_chunks_for s) as Hs. rewrite strip_quotes, single_quotes, (single_chunks _ s) by done.
  unfold replace_global. rewrite (unescape_chunks _ _ s) by done. eexists. split; [done|]. intros rest. rewrite <- app_assoc.
  apply read_chunks. induction Hs as [|t c ts s Ht Hts IH]; cbn [zip_with]; constructor; [by apply last_reads|done].
Qed.

(** A name is not always printed as a literal: a backslash at its end takes the escape of
    the quote that is put behind it. *)
Lemma key_quoted_wrong : quote_key (json_quote (js "x\")) = js "'x\'" /\ read_literal 39 [10; 13] (js "x\': 1") = None.
Proof. by vm_compute. Qed.

(** ** Printing ends *)

(** A computation that returns and leaves the heap as it is. *)
Definition calm {A} (h : heap) (m : stM heap A) : Prop := exists a, m h = (h, Ret a).

Lemma calm_ret {A} h (a : A) : calm h (mret a).
Proof. by exists a. Qed.

Lemma calm_bind {A B} h (m : stM heap A) (f : A -> stM heap B) : calm h m -> (forall a, calm h (f a)) -> calm h (m ≫= f).
Proof. intros [a Ha] Hf. destruct (Hf a) as [b Hb]. exists b. by rewrite (bind_ran _ _ _ _ _ Ha). Qed.

Lemma calm_get {B} h (f : heap -> stM heap B) : calm h (f h) -> calm h (get_st ≫= f).
Proof. intros [b Hb]. by exists b. Qed.

Lemma calm_look {A} h (f : heap -> outcome A) a : f h = Ret a -> calm h (look f).
Proof. intros E. exists a. unfold look. by rewrite E. Qed.

Lemma calm_mapS {A B} h (body : A -> stM heap B) l : (forall x, calm h (body x)) -> calm h (mapS body l).
Proof.
  intros Hb. induction l as [|x l IH]; cbn [mapS]; [apply calm_ret|]. apply calm_bind; [apply Hb|]. intros y.
  apply calm_bind; [exact IH|]. intros ys. apply calm_ret.
Qed.

Lemma calm_if {A} h (b : bool) (m n : stM heap A) : calm h m -> calm h n -> calm h (if b then m else n).
Proof. by destruct b. Qed.

Section endings.
Context `{Realm} `{Client} `{Printing}.

(** Converting an object runs no code that writes. *)
Hypothesis (Hprim : forall l h, exists p, to_primitive l h = (h, Ret p) /\ is_object p = false).

Lemma calm_getM h v k : nullish v = false -> calm h (getM v k).
Proof. intros Hv. eapply calm_look. unfold get. by rewrite Hv. Qed.

Lemma calm_to_prim h v : calm h (to_prim v).
Proof.
  destruct v as [| | | | |l]; try apply calm_ret. cbn [to_prim]. destruct (Hprim l h) as (p & E & Hp). exists p.
  by rewrite (bind_ran _ _ _ _ _ E), Hp.
Qed.

Lemma calm_to_text h v : calm h (to_text v).
Proof. apply calm_bind; [apply calm_to_prim|]. intros p. apply calm_ret. Qed.

Lemma calm_less_than h v w : calm h (less_than v w).
Proof. do 2 (apply calm_bind; [apply calm_to_prim|]; intros ?). apply calm_ret. Qed.

Lemma calm_minus_one h v : calm h (minus_one v).
Proof. apply calm_bind; [apply calm_to_prim|]. intros p. apply calm_ret. Qed.

Lemma calm_stylize h c str type : calm h (stylize (Obj c) str type).
Proof. apply calm_bind; [by apply calm_getM|]. intros f. apply calm_ret. Qed.

Create HintDb calm.
#[local] Hint Resolve calm_ret calm_getM calm_to_prim calm_to_text calm_less_than calm_minus_one calm_stylize calm_if : calm.
#[local] Hint Extern 2 (calm _ (_ ≫= _)) => (apply calm_bind; [|intros ?]) : calm.

Lemma calm_formatError h l : calm h (formatError (Obj l)).
Proof. unfold formatError, error_text. eauto 20 with calm. Qed.

Lemma calm_name_suffix h l : calm h (name_suffix (Obj l)).
Proof. unfold name_suffix. eauto 20 with calm. Qed.

Lemma calm_formatPrimitive h c v : calm h (formatPrimitive (Obj c) v).
Proof. destruct v; cbn [formatPrimitive]; eauto 10 with calm. Qed.
#[local] Hint Resolve calm_formatError calm_name_suffix calm_formatPrimitive : calm.

Lemma calm_formatEmpty h c l : calm h (formatEmpty (Obj c) (Obj l)).
Proof. apply calm_get. eauto 20 with calm. Qed.

Lemma calm_object_base h l : calm h (object_base (Obj l)).
Proof. apply calm_get. eauto 20 with calm. Qed.

Lemma calm_property_name h c s : calm h (property_name (Obj c) s).
Proof. unfold property_name. eauto 20 with calm. Qed.
#[local] Hint Resolve calm_formatEmpty calm_object_base calm_property_name : calm.

(** The context [c] of a print that asks no [inspect] methods; its array [s] holds the
    objects [ls] that are being printed. *)
Record printing_of (h : heap) (c s : loc) (ls : list loc) : Prop := {
  pr_ctx : exists o ci, h !! c = Some o /\ get_own o (prop "customInspect") = Some ci /\ truthy ci = false /\ get_own o (prop "seen") = Some (Obj s);
  pr_seen : exists p ps, h !! s = Some (Object CArray p (map Some (map Obj ls)) ps);
  pr_apart : c <> s;
  pr_nodup : NoDup ls;
  pr_old : Forall (fun l => l < length h)%nat ls }.

Lemma printing_short h c s ls : printing_of h c s ls -> (length ls <= length h)%nat.
Proof.
  intros [_ _ _ Hnd Hin]. rewrite <- (length_seq (length h) 0). apply submseteq_length, NoDup_submseteq; [done|].
  intros l Hl. rewrite Forall_forall in Hin. apply elem_of_seq. specialize (Hin l Hl). lia.
Qed.

(** An object is put on the list and taken off again. *)
Lemma printing_push h c s ls l : printing_of h c s ls -> l ∉ ls -> (l < length h)%nat ->
  exists h1, push (Obj s) (Obj l) h = (h1, Ret tt) /\ printing_of h1 c s (ls ++ [l]) /\ length h1 = length h /\ pop (Obj s) h1 = (h, Ret tt).
Proof.
  intros [(o & ci & Ho & Hci & Ht & Hs) (p & ps & Hseen) Hne Hnd Hin] Hl Hlt.
  set (so := Object CArray p (map Some (map Obj ls)) ps) in *. set (so1 := Object CArray p (map Some (map Obj (ls ++ [l]))) ps).
  exists (<[s := so1]> h).
  assert (set_own (Index (length (o_elems so))) (Obj l) so = so1) as Eso.
  { unfold so, so1, set_own, set_elem. cbn [o_class o_proto o_elems o_props]. rewrite Nat.ltb_irrefl, Nat.sub_diag, !map_app. done. }
  split_and!.
  - unfold push. rewrite (bind_ran _ _ _ h h) by done. rewrite Hseen, Eso. done.
  - split.
    + exists o, ci. split_and!; try done. by rewrite heap_set_ne.
    + exists p, ps. by apply (heap_set_eq h s so1 so).
    + done.
    + apply NoDup_app. split_and!; [done|by intros x Hx ->%list_elem_of_singleton|apply NoDup_singleton].
    + rewrite heap_set_length. apply Forall_app. by split; [|constructor].
  - apply heap_set_length.
  - assert (forall h1 : heap, h1 !! s = Some so1 -> pop (Obj s) h1 = (<[s := so]> h1, Ret tt)) as Epop.
    { intros h1 E1. unfold pop, modify_st. rewrite E1. cbn [o_class o_proto o_elems o_props so1]. rewrite !map_app. cbn [map]. by rewrite removelast_last. }
    etrans; [exact (Epop _ (heap_set_eq h s so1 so Hseen))|]. rewrite heap_set_twice. f_equal. exact (list_insert_id h s so Hseen).
Qed.

Section nested.
Context (c s : loc) (print : printer).

Lemma calm_seen h ls {B} (f : value -> stM heap B) : printing_of h c s ls -> calm h (f (Obj s)) -> calm h (seen ← getM (Obj c) (prop "seen"); f seen).
Proof.
  intros [(o & ci & Ho & _ & _ & Hs) _ _ _ _] [b Hb]. exists b. by rewrite (bind_ran _ _ _ _ _ (getM_own h c o _ _ Ho Hs)).
Qed.

Lemma elements_seen h ls : printing_of h c s ls -> elements h (Obj s) = map Obj ls.
Proof.
  intros [_ (p & ps & Hseen) _ _ _]. unfold elements. rewrite Hseen. cbn [o_elems]. clear Hseen. induction ls as [|l ls IH]; [done|]. cbn. f_equal. apply IH.
Qed.

(** The printer works on what is not on the list. *)
Definition prints (h : heap) (ls : list loc) : Prop := forall w r, (forall m, w = Obj m -> m ∉ ls) -> calm h (print w r).

Lemma calm_property h ls l r visible array k : printing_of h c s ls -> prints h ls ->
  calm h (formatProperty print (Obj c) (Obj l) r visible array k).
Proof.
  intros Hpr Hprint. apply calm_bind; [by apply calm_getM|]. intros w. apply (calm_seen h ls); [done|]. apply calm_get.
  apply calm_bind; [|intros str; eauto 20 with calm]. rewrite (elements_seen h ls Hpr). destruct (existsb _ _) eqn:E; cbn [negb]; [apply calm_stylize|].
  apply calm_bind; [eauto with calm|]. intros deeper. apply calm_bind; [|intros; apply calm_ret]. apply Hprint. intros m -> Hm.
  assert (existsb (fun x => strict_eq x (Obj m)) (map Obj ls) = true) as Et; [|by rewrite E in Et].
  apply existsb_exists. exists (Obj m). split; [apply in_map; by apply list_elem_of_In|]. cbn. by rewrite bool_decide_eq_true_2.
Qed.

Lemma calm_array h ls l r visible keys : printing_of h c s ls -> prints h ls ->
  calm h (formatArray print (Obj c) (Obj l) r visible keys).
Proof.
  intros Hpr Hprint. apply calm_get. apply calm_bind.
  - apply calm_mapS. intros i. apply calm_bind; [by eapply calm_look|]. intros own. apply calm_if; [by eapply calm_property|apply calm_ret].
  - intros items. apply calm_bind; [|intros; apply calm_ret]. apply calm_mapS. intros k. by eapply calm_property.
Qed.

Lemma calm_object h ls l r : printing_of h c s ls -> l ∉ ls ->
  (forall h1, printing_of h1 c s (ls ++ [l]) -> length h1 = length h -> prints h1 (ls ++ [l])) ->
  calm h (formatObject print (Obj c) (Obj l) r).
Proof.
  intros Hpr Hl Hprint. unfold formatObject. apply calm_get. apply calm_bind; [by apply calm_getM|]. intros showHidden.
  set (keys := if truthy showHidden then own_names h (Obj l) else object_keys h (Obj l)). apply calm_if; [apply calm_formatError|].
  apply calm_bind; [eauto with calm|]. intros [t|]; [apply calm_ret|]. apply calm_bind; [apply calm_object_base|]. intros base. apply calm_get.
  destruct (h !! l) as [o|] eqn:Eo.
  - apply calm_if; [apply calm_ret|]. apply calm_bind; [apply calm_less_than|]. intros deep. apply calm_if; [eauto with calm|].
    apply (calm_seen h ls); [done|]. destruct (printing_push h c s ls l Hpr Hl) as (h1 & Epush & Hpr1 & Hlen & Epop); [by eapply lookup_lt_Some|].
    specialize (Hprint h1 Hpr1 Hlen). set (out := if isArray h (Obj l) then formatArray _ _ _ _ _ _ else _).
    assert (calm h1 out) as [texts Eout].
    { apply calm_if; [by eapply calm_array|]. apply calm_mapS. intros k. by eapply calm_property. }
    eexists. rewrite (bind_ran _ _ _ _ _ Epush), (bind_ran _ _ _ _ _ Eout).
    destruct Hpr1 as [(o1 & ci & Ho1 & _ & _ & Hs1) _ _ _ _]. rewrite (bind_ran _ _ _ _ _ (getM_own h1 c o1 _ _ Ho1 Hs1)).
    by rewrite (bind_ran _ _ _ _ _ Epop).
  - assert (keys = []) as -> by (unfold keys, own_names, object_keys; rewrite Eo; by destruct (truthy showHidden)).
    rewrite bool_decide_eq_true_2 by done. replace (isArray h (Obj l)) with false; [apply calm_ret|].
    unfold isArray, class_of. by rewrite Eo.
Qed.
End nested.

Lemma formatPrimitive_some h c v : is_object v = false -> exists t, formatPrimitive (Obj c) v h = (h, Ret (Some t)).
Proof.
  intros Hv. destruct v; try done; cbn [formatPrimitive];
    match goal with |- context [stylize ?x ?str ?type] => destruct (calm_stylize h c str type) as [t Et] end;
    exists t; by rewrite (bind_ran _ _ _ _ _ Et).
Qed.

Lemma formatValue_calm fuel c s h ls v r : printing_of h c s ls -> (forall l, v = Obj l -> l ∉ ls) -> (length h - length ls < fuel)%nat ->
  calm h (formatValue fuel (Obj c) v r).
Proof.
  revert h ls v r. induction fuel as [|fuel IH]; intros h ls v r Hpr Hv Hf; [lia|]. cbn [formatValue].
  assert (custom_inspect (Obj c) v h = (h, Ret None)) as Ec.
  { destruct (pr_ctx _ _ _ _ Hpr) as (o & ci & Ho & Hci & Ht & _). unfold custom_inspect.
    rewrite (bind_ran _ _ _ _ _ (getM_own h c o _ _ Ho Hci)). by rewrite Ht. }
  destruct (is_object v) eqn:Eo.
  - destruct v as [| | | | |l]; try done. destruct (calm_object c s (formatValue fuel (Obj c)) h ls l r Hpr) as [t Et]; [by apply Hv| |].
    + intros h1 Hpr1 Hlen w r' Hw. apply (IH h1 (ls ++ [l])); [done|done|]. pose proof (printing_short _ _ _ _ Hpr1) as Hs.
      rewrite length_app in *. cbn in *. lia.
    + exists t. by rewrite (bind_ran _ _ _ _ _ Ec), (bind_ran _ _ _ h None).
  - destruct (formatPrimitive_some h c v Eo) as [t Et]. exists t. by rewrite (bind_ran _ _ _ _ _ Ec), (bind_ran _ _ _ _ _ Et).
Qed.

(** *** Setting up the context *)
Section set_up.
Context (h : heap) (l : loc) (oo : object) (ci : value).
Hypothesis (Hl : h !! l = Some oo) (Hclass : o_class oo = CObject).
Hypothesis (Hkeys : forall k, k ∈ own_keys oo -> k ∈ map prop ["showHidden"; "depth"; "colors"; "customInspect"]%string).
Hypothesis (Hci : get_own oo (prop "customInspect") = Some ci) (Hown : prop "customInspect" ∈ own_keys oo).
Hypothesis (Hoff : truthy ci = false) (Hdef : ci <> Undefined).

Let seen_array := Object CArray (Some array_proto) [] [].
Let grown (o : object) : heap := (h ++ [seen_array]) ++ [o].
Let n := length h.

(** The context: its list of values, and whether [customInspect] was copied. *)
Definition context_ok (copied : bool) (o : object) : Prop :=
  o_class o = CObject /\ get_own o (prop "seen") = Some (Obj n) /\ (copied = true -> get_own o (prop "customInspect") = Some ci).

Lemma grown_ctx o : grown o !! S n = Some o.
Proof. unfold grown. replace (S n) with (length (h ++ [seen_array])) by (rewrite length_app; cbn; unfold n; lia). apply heap_new. Qed.

Lemma grown_old o : grown o !! l = Some oo.
Proof. by do 2 apply heap_grown. Qed.

Lemma context_put o k v : o_class o = CObject -> putM (Obj (S n)) k v (grown o) = (grown (set_own k v o), Ret tt).
Proof.
  intros Ho. rewrite (putM_object _ (S n) o); [|apply grown_ctx|by rewrite Ho]. f_equal. unfold grown.
  replace (S n) with (length (h ++ [seen_array])) by (rewrite length_app; cbn; unfold n; lia). apply heap_set_new.
Qed.

Lemma context_set copied o k v : context_ok copied o -> k <> prop "seen" -> (k = prop "customInspect" -> v = ci) -> context_ok copied (set_own k v o).
Proof.
  intros (Ho & Hs & Hc) Hk Hv. split_and!; [by destruct k|..]; [|intros Hcop]; rewrite get_set_own by (by rewrite Ho).
  - by rewrite bool_decide_eq_false_2.
  - case_bool_decide as E; [by rewrite Hv|by apply Hc].
Qed.

(** A step of the set-up keeps the context in order. *)
Definition keeps_context (before after : bool) (m : stM heap unit) : Prop := forall o, context_ok before o ->
  exists o', m (grown o) = (grown o', Ret tt) /\ context_ok after o'.

Lemma context_default (name : string) v : prop name <> prop "seen" -> (prop name = prop "customInspect" -> v = ci) ->
  keeps_context true true (set_default (Obj (S n)) name v).
Proof.
  intros Hn Hv o Ho. unfold set_default. destruct (calm_getM (grown o) (Obj (S n)) (prop name) eq_refl) as [old Eold].
  rewrite (bind_ran _ _ _ _ _ Eold). destruct (isUndefined old); [|by exists o].
  exists (set_own (prop name) v o). split; [apply context_put, Ho|by apply context_set].
Qed.

Lemma context_default_inspect v : keeps_context true true (set_default (Obj (S n)) "customInspect" v).
Proof.
  intros o Ho. exists o. split; [|done]. unfold set_default. destruct Ho as (_ & _ & Hc).
  rewrite (bind_ran _ _ _ _ _ (getM_own _ _ _ _ _ (grown_ctx o) (Hc eq_refl))). unfold isUndefined. by rewrite bool_decide_eq_false_2.
Qed.

Lemma context_copies ks : (forall k, k ∈ ks -> k ∈ own_keys oo) -> forall copied,
  keeps_context copied (copied || bool_decide (prop "customInspect" ∈ ks))
    (iterM (fun k => v ← getM (Obj l) k; putM (Obj (S n)) k v) ks).
Proof.
  induction ks as [|k ks IH]; intros Hks copied o Ho; cbn [iterM].
  - exists o. split; [done|]. rewrite bool_decide_eq_false_2 by apply not_elem_of_nil. by rewrite orb_false_r.
  - assert (k ∈ map prop ["showHidden"; "depth"; "colors"; "customInspect"]%string) as Hk by (apply Hkeys, Hks; left).
    destruct (calm_getM (grown o) (Obj l) k eq_refl) as [v Ev]. 
    assert (k = prop "customInspect" -> v = ci) as Hv.
    { intros ->. pose proof (getM_own _ _ _ _ _ (grown_old o) Hci) as E. rewrite Ev in E. by injection E. }
    assert (k <> prop "seen") as Hns by (intros ->; revert Hk; apply (bool_decide_unpack _); vm_compute; exact I).
    destruct (IH ltac:(intros k' Hk'; apply Hks; by right) (copied || bool_decide (k = prop "customInspect")) (set_own k v o)) as (o' & E' & Ho').
    { pose proof (context_set copied o k v Ho Hns Hv) as (H2 & H3 & H4). split_and!; [done..|]. intros [Hcop|Hcop]%orb_true_iff; [by apply H4|].
      apply bool_decide_eq_true in Hcop as ->. rewrite get_set_own by (by rewrite (proj1 Ho)). rewrite bool_decide_eq_true_2 by done. by rewrite Hv. }
    exists o'. split.
    + rewrite (bind_ran _ _ _ (grown (set_own k v o)) tt); [done|]. rewrite (bind_ran _ _ _ _ _ Ev). apply context_put, Ho.
    + destruct Ho' as (H2 & H3 & H4). split_and!; [done..|]. intros Hcop. apply H4. revert Hcop.
      rewrite !orb_true_iff, !bool_decide_eq_true, elem_of_cons. naive_solver.
Qed.

Lemma context_extend o : context_ok false o -> exists o', (_extend (Obj (S n)) (Obj l) ;; mret tt) (grown o) = (grown o', Ret tt) /\ context_ok true o'.
Proof.
  intros Ho. destruct (context_copies (reverse (own_keys oo)) ltac:(intros k; by rewrite elem_of_reverse) false o Ho) as (o' & E & Ho').
  exists o'. split.
  - rewrite (bind_ran _ _ _ (grown o') (Obj (S n))); [done|]. unfold _extend. rewrite (bind_ran _ _ _ (grown o) (grown o)) by done.
    assert (isObject (grown o) (Obj l) = true) as ->.
    { unfold isObject, typeof. rewrite (grown_old o). cbn [fmap option_fmap option_map]. by rewrite Hclass. }
    cbn [truthy negb orb]. rewrite (grown_old o). by rewrite (bind_ran _ _ _ _ _ E).
  - rewrite bool_decide_eq_true_2 in Ho'; [done|]. by apply elem_of_reverse.
Qed.

Lemma context_prints o : context_ok true o -> printing_of (grown o) (S n) n [].
Proof.
  intros (Ho & Hs & Hc). split.
  - exists o, ci. split_and!; [apply grown_ctx|by apply Hc|done|done].
  - exists (Some array_proto), []. apply heap_grown. apply heap_new.
  - lia.
  - constructor.
  - constructor.
Qed.

Lemma inspect_calm v : exists o text, inspect (length h + 3) [v; Obj l] h = (grown o, Ret text).
Proof.
  unfold inspect. rewrite (bind_ran _ _ h (h ++ [seen_array]) (Obj n)) by done.
  set (o0 := Object CObject (Some object_proto) [] [(js "seen", (Obj n, true)); (js "stylize", (Obj stylizeNoColor_function, true))]).
  rewrite (bind_ran _ _ _ (grown o0) (Obj (S n))) by (unfold alloc; rewrite length_app, Nat.add_1_r; done).
  cbn [length Nat.leb]. do 2 rewrite (bind_ran _ _ (grown o0) (grown o0) tt) by done. rewrite (bind_ran _ _ (grown o0) (grown o0) (grown o0)) by done.
  change (arg [v; Obj l] 1) with (Obj l). change (arg [v; Obj l] 0) with v.
  assert (isBoolean (grown o0) (Obj l) = false) as ->.
  { unfold isBoolean, typeof. rewrite (grown_old o0). cbn [fmap option_fmap option_map]. by rewrite Hclass. }
  cbn [truthy]. assert (context_ok false o0) as H0k by (split_and!; [done|by vm_compute|done]).
  destruct (context_extend o0 H0k) as (o1 & E1 & H1k). rewrite (bind_ran _ _ _ _ _ E1).
  destruct (context_default "showHidden" (Bool false) ltac:(done) ltac:(done) o1 H1k) as (o2 & E2 & H2k). rewrite (bind_ran _ _ _ _ _ E2).
  destruct (context_default "depth" (Num (Int 2)) ltac:(done) ltac:(done) o2 H2k) as (o3 & E3 & H3k). rewrite (bind_ran _ _ _ _ _ E3).
  destruct (context_default "colors" (Bool false) ltac:(done) ltac:(done) o3 H3k) as (o4 & E4 & H4k). rewrite (bind_ran _ _ _ _ _ E4).
  destruct (context_default_inspect (Bool true) o4 H4k) as (o5 & E5 & H5k). rewrite (bind_ran _ _ _ _ _ E5).
  destruct (calm_getM (grown o5) (Obj (S n)) (prop "colors") eq_refl) as [colored Ec]. rewrite (bind_ran _ _ _ _ _ Ec).
  assert (exists o6, (if truthy colored then putM (Obj (S n)) (prop "stylize") (Obj stylizeWithColor_function) else mret tt) (grown o5) =
    (grown o6, Ret tt) /\ context_ok true o6) as (o6 & E6 & H6k).
  { destruct (truthy colored); [|by exists o5]. eexists. split; [apply context_put, H5k|by apply context_set]. }
  rewrite (bind_ran _ _ _ _ _ E6).
  destruct (calm_getM (grown o6) (Obj (S n)) (prop "depth") eq_refl) as [depth Ed]. rewrite (bind_ran _ _ _ _ _ Ed).
  destruct (formatValue_calm (length h + 3) (S n) n (grown o6) [] v depth) as [text Et].
  - by apply context_prints.
  - intros m _. apply not_elem_of_nil.
  - unfold grown. rewrite !length_app. cbn. lia.
  - by exists o6, text.
Qed.
End set_up.
End endings.

(** C18: printing ends.  With [customInspect] switched off, and conversions of objects that
    leave the heap alone, [inspect] returns a text for every value of every heap, however
    its objects refer to each other and whatever the other options are, [depth: null]
    included: its nesting is at most the number of objects and two more.  Nothing of the heap
    has changed then; the context and its list are new. *)
Theorem inspect_terminates (R : Realm) (C : Client) (P : Printing) (h : heap) (v : value) (l : loc) (opts : object) (ci : value)
    (Hprim : forall l h, exists p, to_primitive l h = (h, Ret p) /\ is_object p = false)
    (Hl : h !! l = Some opts) (Hclass : o_class opts = CObject)
    (Hkeys : forall k, k ∈ own_keys opts -> k ∈ map prop ["showHidden"; "depth"; "colors"; "customInspect"]%string)
    (Hci : get_own opts (prop "customInspect") = Some ci) (Hown : prop "customInspect" ∈ own_keys opts)
    (Hoff : truthy ci = false) (Hdef : ci <> Undefined) :
  exists seen ctx text, inspect (length h + 3) [v; Obj l] h = (h ++ [seen; ctx], Ret text).
Proof.
  destruct (inspect_calm Hprim h l opts ci Hl Hclass Hkeys Hci Hown Hoff Hdef v) as (o & text & E). eexists _, o, text. rewrite E.
  f_equal. by rewrite <- app_assoc.
Qed.

(** ** Examples *)
Definition small_printing : Printing :=
  {| inspect_function := 100; stylizeNoColor_function := 101; stylizeWithColor_function := 102; date_text := fun _ => []; date_utc_text := fun _ => [] |}.

(** An object that refers to itself, and the options of an unbounded print. *)
Definition looped : heap :=
  [Object CObject None [] [];
   Object CObject (Some 0%nat) [] [(js "a", (Num (Int 1), true)); (js "it's", (Str (js "me"), true)); (js "me", (Obj 1, true)); (js "list", (Obj 2, true))];
   Object CArray (Some 0%nat) [Some Null; None; Some (Obj 3)] [];
   Object CObject (Some 0%nat) [] [(js "depth", (Null, true)); (js "customInspect", (Bool false, true))]].

Definition other_realm : Realm :=
  {| object_proto := 0; array_proto := 0; function_proto := 0; string_proto := 0; number_proto := 0; boolean_proto := 0;
     error_proto := 50; underscore_proto := 50 |}.

Lemma inspect_terminates_witness : exists seen ctx text,
  inspect (H := other_realm) (H0 := small_client) (H1 := small_printing) 7 [Obj 1; Obj 3] looped = (looped ++ [seen; ctx], Ret text) /\
  text = js "{ a: 1," ++ newline ++ js "  'it\'s': 'me'," ++ newline ++ js "  me: [Circular]," ++ newline ++
    js "  list: [ null, , { depth: null, customInspect: false } ] }".
Proof.
  destruct (inspect_terminates other_realm small_client small_printing looped (Obj 1) 3
    (Object CObject (Some 0%nat) [] [(js "depth", (Null, true)); (js "customInspect", (Bool false, true))]) (Bool false)) as (seen & ctx & text & E).
  - intros l h. exists Undefined. split; reflexivity.
  - reflexivity.
  - reflexivity.
  - apply Forall_forall. apply (bool_decide_unpack _). vm_compute. exact I.
  - reflexivity.
  - apply (bool_decide_unpack _). vm_compute. exact I.
  - reflexivity.
  - discriminate.
  - exists seen, ctx, text. split; [exact E|]. vm_compute in E. injection E as _ _ <-. vm_compute. reflexivity.
Defined.
