(* ===== verification/UtilDebug.v ===== *)
(** * The debug logs of util

    [util.debuglog] gives a section of a program its own log, which prints when the variable
    NODE_DEBUG names the section.  The name becomes a regular expression between two word
    boundaries; a boundary looks at the text around it, so it is added to the matcher of
    JsRegex.v from outside: before the match, and as the continuation after it. *)
From stdpp Require Import gmap.
From S2P Require Import Prelude JsString JsState JsRegex JsObject UtilInspect.

(** ** Word boundaries *)

Definition word_at (c : option Z) : bool := match c with Some c => is_word_char c | None => false end.

(** The boundary before the rest [s] of [text]. *)
Definition at_boundary (text s : jsstr) : bool :=
  xorb (word_at (last (take (length text - length s) text))) (word_at (head s)).

(** One alternative of the pattern, with a boundary at its ends or not. *)
Record branch : Type := Branch { b_left : bool; b_re : regex; b_right : bool }.

(** The alternatives of a pattern between two boundaries: the boundaries belong to the
    first and to the last. *)
Fixpoint branches (left right : bool) (r : regex) : list branch :=
  match r with
  | RAlt r1 r2 => Branch left r1 false :: branches false right r2
  | _ => [Branch left r right]
  end.

Definition match_branch (text s : jsstr) (b : branch) : bool :=
  (negb (b_left b) || at_boundary text s) &&
  match rmatch (length text) (b_re b) [] s (fun c s' => if negb (b_right b) || at_boundary text s' then Some (c, s') else None) with
  | Some _ => true
  | None => false
  end.

(** The rests of a text, where a match is tried. *)
Fixpoint rests (s : jsstr) : list jsstr := s :: match s with [] => [] | _ :: s => rests s end.

Section debug.
(** The mapping of the ignore-case flag, and [toUpperCase]. *)
Context (canon : Z -> Z) (toUpperCase : jsstr -> jsstr).

(** The pattern: of a name that ends in a backslash, that backslash escapes the one of the
    second boundary, and the letter b is left.  Back-references and boundaries in the name
    itself are outside the model. *)
Definition debug_pattern (set : jsstr) : outcome (list branch) :=
  match regex_parse set, regex_parse (set ++ js "\b") with
  | Some r, _ => if supported r then Ret (branches true true (fold_case canon r)) else OutOfFuel
  | None, Some r => if supported r then Ret (branches true false (fold_case canon r)) else OutOfFuel
  | None, None => Throw (PlainError "SyntaxError: Invalid regular expression")
  end.

(** [new RegExp(...).test(text)] *)
Definition debug_test (set text : jsstr) : outcome bool :=
  bs ← debug_pattern set;
  Ret (existsb (fun s => existsb (match_branch text s) bs) (rests text)).

(** ** The loggers *)

Inductive logger : Type := Loud (set : jsstr) (pid : value) | Silent.

(** The variables [debugs] and [debugEnviron].  The names are in upper case, so none is a
    property that every object has. *)
Record debug_state : Type := DebugState { debugs : gmap (list Z) logger; debugEnviron : option jsstr }.

Definition no_logs : debug_state := DebugState ∅ None.

(** [env] and [pid] are what the process object holds at the time of the call. *)
Definition debuglog (env : option jsstr) (pid : value) (set : jsstr) : stM debug_state logger :=
  modify_st (fun s => DebugState (debugs s) (Some (match debugEnviron s with Some e => e | None => default [] env end))) ;;
  s ← get_st;
  let set := toUpperCase set in
  match debugs s !! set with
  | Some l => mret l
  | None =>
      hit ← lift (debug_test set (default [] (debugEnviron s)));
      let l := if (hit : bool) then Loud set pid else Silent in
      modify_st (fun s => DebugState (<[set := l]> (debugs s)) (debugEnviron s)) ;;
      mret l
  end.
End debug.

(** What a call of a logger hands to [console.error]. *)
Definition logger_call `{Realm} `{Client} `{Printing} (fuel : nat) (l : logger) (args : list value) : stM heap (option (list value)) :=
  match l with
  | Loud set pid => msg ← format fuel args; mret (Some [Str (js "%s %d: %s"); Str set; pid; Str msg])
  | Silent => mret None
  end.

(** ** A name of letters is looked for as a whole word *)

Lemma fold_unit canon x y : 0 <= x < 65536 -> fold_test canon y (fun a => item_match a (CRange x x)) = (canon x =? canon y).
Proof.
  intros Hx. apply eq_true_iff_eq. unfold fold_test. rewrite existsb_exists. split.
  - intros (a & _ & [Ha Hb]%andb_true_iff). cbn [item_match] in Hb. rewrite in_range_unit in Hb. by apply Z.eqb_eq in Hb as ->.
  - intros E. exists x. split; [apply list_elem_of_In, elem_of_seqZ; lia|]. cbn [item_match]. by rewrite E, in_range_unit, Z.eqb_refl.
Qed.

(** The text starts with [w] under the mapping. *)
Fixpoint starts_folded (canon : Z -> Z) (w s : jsstr) : bool :=
  match w, s with
  | [], _ => true
  | x :: w, y :: s => (canon x =? canon y) && starts_folded canon w s
  | _, [] => false
  end.

Lemma text_match canon total w c s k : Forall (fun x => 0 <= x < 65536) w ->
  rmatch total (fold_case canon (text_ast w)) c s k = if starts_folded canon w s then k c (drop (length w) s) else None.
Proof.
  intros Hw. revert s. induction Hw as [|x w Hx Hw IH]; intros s; [done|]. cbn [text_ast fold_case rmatch starts_folded].
  destruct s as [|y s]; [done|]. unfold class_ok. cbn [existsb]. change (item_match y (fold_item canon (CRange x x))) with (fold_test canon y (fun a => item_match a (CRange x x))).
  rewrite fold_unit, orb_false_r, xorb_false_l by done. destruct (canon x =? canon y); [|done]. cbn [andb]. apply IH.
Qed.

Lemma starts_folded_spec canon w s : starts_folded canon w s = true <-> exists m q, s = m ++ q /\ map canon m = map canon w.
Proof.
  revert s. induction w as [|x w IH]; intros s; cbn [starts_folded].
  - split; [intros _; by exists [], s|done].
  - destruct s as [|y s].
    + split; [done|]. intros ([|] & q & ? & ?); done.
    + rewrite andb_true_iff, IH, Z.eqb_eq. split.
      * intros (E & m & q & -> & Em). exists (y :: m), q. cbn. by rewrite E, Em.
      * intros ([|z m] & q & E & Em); [done|]. injection E as -> ->. cbn in Em. injection Em as Ez Em. split; [done|]. by exists m, q.
Qed.

Lemma rests_spec s t : t ∈ rests s <-> exists p, s = p ++ t.
Proof.
  revert t. induction s as [|x s IH]; intros t; cbn [rests]; rewrite elem_of_cons.
  - split; [intros [->|Hn]; [by exists []|by apply not_elem_of_nil in Hn]|]. intros (p & E). left. by destruct p.
  - rewrite IH. split.
    + intros [->|(p & ->)]; [by exists []|by exists (x :: p)].
    + intros ([|y p] & E); [by left|]. right. injection E as -> ->. by exists p.
Qed.

Lemma boundary_at p s : at_boundary (p ++ s) s = xorb (word_at (last p)) (word_at (head s)).
Proof. unfold at_boundary. rewrite length_app. replace (length p + length s - length s)%nat with (length p) by lia. by rewrite take_app_length. Qed.

Lemma word_range x : is_word_char x = true -> 0 <= x < 65536.
Proof. unfold is_word_char, is_digit, in_range. intros. bool_props. lia. Qed.

Lemma plain_word w : Forall (fun x => is_word_char x = true) w -> plain_text w.
Proof.
  intros Hw. eapply Forall_impl; [exact Hw|]. intros x Hx Hin. revert Hx. apply not_true_iff_false. revert x Hin. apply Forall_forall.
  apply (bool_decide_unpack _). vm_compute. exact I.
Qed.

Section words.
Context (canon : Z -> Z) (canon_word : forall x y, canon x = canon y -> is_word_char x = is_word_char y).

Lemma same_word m w : map canon m = map canon w -> Forall (fun x => is_word_char x = true) w -> Forall (fun x => is_word_char x = true) m.
Proof.
  revert w. induction m as [|x m IH]; intros [|y w] E Hw; try done. cbn in E. injection E as Ex Em.
  inversion_clear Hw. constructor; [by rewrite (canon_word x y)|by eapply IH].
Qed.

Lemma ends_of_word m : m <> [] -> Forall (fun x => is_word_char x = true) m -> word_at (head m) = true /\ forall p, word_at (last (p ++ m)) = true.
Proof.
  intros Hne Hm. destruct m as [|x m] using rev_ind; [done|]. apply Forall_app in Hm as [Hm Hx]. split.
  - destruct m as [|y m]; cbn; [by inversion Hx|by inversion Hm].
  - intros p. rewrite app_assoc, last_snoc. by inversion Hx.
Qed.

Lemma word_pattern w : Forall (fun x => is_word_char x = true) w -> w <> [] ->
  debug_pattern canon w = Ret [Branch true (fold_case canon (text_ast w)) true].
Proof.
  intros Hw Hne. unfold debug_pattern. rewrite parse_plain by by apply plain_word.
  assert (supported (text_ast w) = true) as -> by (clear; by induction w).
  by destruct w as [|x w].
Qed.

Lemma word_branch w p s : Forall (fun x => is_word_char x = true) w -> w <> [] ->
  match_branch (p ++ s) s (Branch true (fold_case canon (text_ast w)) true) = true <->
  exists m q, s = m ++ q /\ map canon m = map canon w /\ word_at (last p) = false /\ word_at (head q) = false.
Proof.
  intros Hw Hne. unfold match_branch. cbn [b_left b_re b_right negb orb].
  rewrite text_match by (eapply Forall_impl; [exact Hw|apply word_range]).
  assert (forall m q, s = m ++ q -> map canon m = map canon w ->
    at_boundary (p ++ s) s = negb (word_at (last p)) /\ drop (length w) s = q /\ at_boundary (p ++ s) q = negb (word_at (head q))) as Hends.
  { intros m q -> E. assert (length m = length w) as El by by rewrite <- (length_map canon m), E, length_map.
    destruct (ends_of_word m) as [Hh Hl]; [by intros ->; destruct w|by eapply same_word|].
    split; [|split].
    - rewrite boundary_at. assert (head (m ++ q) = head m) as -> by (destruct m; [by destruct w|done]). rewrite Hh. by destruct (word_at _).
    - by rewrite <- El, drop_app_length.
    - rewrite app_assoc, boundary_at, Hl. done. }
  split.
  - intros [Hb Hm]%andb_true_iff. destruct (starts_folded canon w s) eqn:Es; [|done].
    apply starts_folded_spec in Es as (m & q & E & Em). destruct (Hends m q E Em) as (E1 & E2 & E3).
    exists m, q. rewrite E1 in Hb. rewrite E2, E3 in Hm. repeat split; [done|done|by apply negb_true_iff|].
    by destruct (word_at (head q)).
  - intros (m & q & E & Em & Hp & Hq). destruct (Hends m q E Em) as (E1 & E2 & E3).
    assert (starts_folded canon w s = true) as -> by (apply starts_folded_spec; eauto).
    by rewrite E1, E2, E3, Hp, Hq.
Qed.
End words.

(** For a name of letters, digits and underscores the test is what the documentation of
    debuglog promises: the name stands in the variable as a whole word, in any case. *)
Theorem debuglog_words (canon : Z -> Z) (canon_word : forall x y, canon x = canon y -> is_word_char x = is_word_char y)
    (w text : jsstr) (Hw : Forall (fun x => is_word_char x = true) w) (Hne : w <> []) :
  exists b, debug_test canon w text = Ret b /\
    (b = true <-> exists p m q, text = p ++ m ++ q /\ map canon m = map canon w /\
       word_at (last p) = false /\ word_at (head q) = false).
Proof.
  unfold debug_test. rewrite word_pattern by done. cbn [mbind outcome_bind]. eexists. split; [done|].
  rewrite existsb_exists. split.
  - intros (s & Hs & Hb). apply list_elem_of_In, rests_spec in Hs as (p & ->). cbn [existsb] in Hb. rewrite orb_false_r in Hb.
    apply (word_branch canon canon_word w p s) in Hb as (m & q & -> & ?); [|done..]. by exists p, m, q.
  - intros (p & m & q & -> & Hm). exists (m ++ q). split; [apply list_elem_of_In, rests_spec; by exists p|].
    cbn [existsb]. rewrite orb_false_r. apply (word_branch canon canon_word w p (m ++ q)); [done..|]. by exists m, q.
Qed.

(** ** The first call decides *)

(** A section that has a logger keeps it, whatever is called and whatever becomes of the
    environment. *)
Lemma debuglog_keeps canon toUpperCase env pid set s k l : debugs s !! k = Some l ->
  debugs (debuglog canon toUpperCase env pid set s).1 !! k = Some l.
Proof.
  intros Hk. unfold debuglog, get_st, modify_st, lift, mbind, stM_bind. cbn [fst snd debugs debugEnviron].
  destruct (debugs s !! toUpperCase set) as [l'|] eqn:E; [done|]. destruct (debug_test _ _ _) as [hit| |]; [|done..].
  change (<[toUpperCase set := if (hit : bool) then Loud (toUpperCase set) pid else Silent]> (debugs s) !! k = Some l).
  rewrite lookup_insert_ne; [done|]. intros <-. congruence.
Qed.

Lemma debuglog_cached canon toUpperCase env pid set s l : debugs s !! toUpperCase set = Some l ->
  (debuglog canon toUpperCase env pid set s).2 = Ret l.
Proof.
  intros Hk. unfold debuglog, get_st, modify_st, lift, mbind, stM_bind. cbn [fst snd debugs debugEnviron]. by rewrite Hk.
Qed.

Theorem debuglog_once canon toUpperCase env pid set s s' l (calls : list (option jsstr * value * jsstr)) env' pid' :
  debuglog canon toUpperCase env pid set s = (s', Ret l) ->
  (debuglog canon toUpperCase env' pid' set
    (foldl (fun s '(env, pid, set) => (debuglog canon toUpperCase env pid set s).1) s' calls)).2 = Ret l.
Proof.
  intros E. apply debuglog_cached.
  assert (debugs s' !! toUpperCase set = Some l) as Hl.
  { unfold debuglog, get_st, modify_st, lift, mbind, stM_bind in E. cbn [fst snd debugs debugEnviron] in E.
    destruct (debugs s !! toUpperCase set) as [l'|] eqn:Ek; [by injection E as <- <-|]. destruct (debug_test _ _ _) as [hit| |]; [|done..].
    injection E as <- <-. cbn. apply lookup_insert_eq. }
  clear E. revert s' Hl. induction calls as [|[[e p] t] calls IH]; intros s' Hl; [done|]. by apply IH, debuglog_keeps.
Qed.

(** The variable is read once: what it holds later is not seen, not even for sections asked
    for later. *)
Lemma environment_read_once canon toUpperCase env pid set s t env' : debugEnviron s = Some t ->
  debuglog canon toUpperCase env pid set s = debuglog canon toUpperCase env' pid set s.
Proof. intros E. unfold debuglog, get_st, modify_st, mbind, stM_bind. cbn [fst snd]. by rewrite E. Qed.

(** Punctuation in a name is not escaped: a bar separates alternatives, of which the first
    has the boundary on its left only and the last on its right only; a backslash at the end
    takes the second boundary away; a name that is no pattern throws. *)
Lemma debug_names canon :
  debug_pattern canon (js "A|B") = Ret [Branch true (fold_case canon (text_ast (js "A"))) false; Branch false (fold_case canon (text_ast (js "B"))) true] /\
  debug_pattern canon (js "A\") = Ret [Branch true (fold_case canon (text_ast (js "A\b"))) false] /\
  debug_pattern canon (js "A(") = Throw (PlainError "SyntaxError: Invalid regular expression").
Proof. split_and!; reflexivity. Qed.
