(* ===== verification/Assert.v ===== *)
(** * assert

    Module 9 of wordcut.js.  Assertions throw values, so their computations end normally,
    with a value that was thrown, or by running out of a budget ([run]); what becomes of an
    error of the language when it is thrown is a parameter ([Natives]).  The stack of an
    error is no property of the model; what its text becomes is [strip_frames].
    [deepEqual_plain]: on data without cycles deep equality decides the relation of the
    comments of the module, but for pairs of a primitive and an object; [throws_verdict]:
    what [throws] and [doesNotThrow] make of each end of a block. *)
From stdpp Require Import list.
From S2P Require Import Prelude JsString JsArray JsState JsRegex JsLiteral JsObject JsHeap JsJson Util.

(** ** Computations that throw values *)
Inductive completion (A : Type) : Type := Normal (a : A) | Raised (v : value) | Exhausted.
Arguments Normal {A} _.
Arguments Raised {A} _.
Arguments Exhausted {A}.

Definition run (A : Type) : Type := heap -> heap * completion A.

#[export] Instance run_ret : MRet run := fun A a h => (h, Normal a).
#[export] Instance run_bind : MBind run :=
  fun A B f m h =>
    match m h with
    | (h', Normal a) => f a h'
    | (h', Raised v) => (h', Raised v)
    | (h', Exhausted) => (h', Exhausted)
    end.

Definition raise {A} (v : value) : run A := fun h => (h, Raised v).

(** The object the language throws for an error, and the prototype of [AssertionError]. *)
Class Natives : Type := {
  native_error : js_error -> heap -> heap * value;
  assertion_proto : loc }.

Section asserting.
Context `{Realm} `{Client} `{Natives}.

Definition from_st {A} (m : stM heap A) : run A := fun h =>
  match m h with
  | (h', Ret a) => (h', Normal a)
  | (h', Throw e) => let '(h'', v) := native_error e h' in (h'', Raised v)
  | (h', OutOfFuel) => (h', Exhausted)
  end.

(** ** Messages *)
Definition arg (args : list value) (i : nat) : value := default Undefined (args !! i).

(** [isFinite] of a number *)
Definition finite (v : value) : bool := match v with Num (Int _) | Num MinusZero => true | _ => false end.

Definition replacer : js_fun := fun _ args =>
  let v := arg args 1 in
  h ← get_st;
  if isUndefined v then mret (Str (js "undefined")) else
  if isNumber h v && negb (finite v) then mret (Str (text_of_prim v)) else
  if isFunction h v || isRegExp h v then f ← getM v (prop "toString"); callM f v [] else
  mret v.

Definition truncate (s : jsstr) (n : Z) : jsstr := if js_len s <? n then s else js_slice s 0 n.

(** [truncate(JSON.stringify(v, replacer), 128)] in a sum of texts *)
Definition shortened (fuel : nat) (v : value) : stM heap jsstr :=
  t ← json_stringify fuel (Some replacer) v;
  mret (match t with Some t => truncate t 128 | None => js "undefined" end).

Definition getMessage (fuel : nat) (self : value) : stM heap jsstr :=
  actual ← getM self (prop "actual");
  a ← shortened fuel actual;
  operator ← getM self (prop "operator");
  o ← to_text operator;
  expected ← getM self (prop "expected");
  e ← shortened fuel expected;
  mret (a ++ js " " ++ o ++ js " " ++ e).

(** [new AssertionError({message, actual, expected, operator})] *)
Definition AssertionError (fuel : nat) (actual expected message operator : value) : stM heap value :=
  self ← alloc (Object CObject (Some assertion_proto) [] []);
  putM self (prop "name") (Str (js "AssertionError")) ;;
  putM self (prop "actual") actual ;;
  putM self (prop "expected") expected ;;
  putM self (prop "operator") operator ;;
  (if truthy message then
     putM self (prop "message") message ;;
     putM self (prop "generatedMessage") (Bool false)
   else
     t ← getMessage fuel self;
     putM self (prop "message") (Str t) ;;
     putM self (prop "generatedMessage") (Bool true)) ;;
  mret self.

(** Where the language cannot capture a stack, the text [out] of a fresh one is kept from
    behind the line of the function that made the error. *)
Definition strip_frames (out fn_name : jsstr) : jsstr :=
  let idx := indexOf out (10 :: fn_name) 0 in
  if 0 <=? idx then
    let next_line := indexOf out [10] (idx + 1) in
    js_substring out (next_line + 1) (js_len out)
  else out.

Definition fail {A} (fuel : nat) (actual expected message operator : value) : run A :=
  e ← from_st (AssertionError fuel actual expected message operator);
  raise e.

(** ** Truth and equality *)
Definition str (s : string) : value := Str (js s).

Definition ok (fuel : nat) (v message : value) : run unit :=
  if negb (truthy v) then fail fuel v (Bool true) message (str "==") else mret tt.

(** [a == b] *)
Definition loose_prim (a b : value) : bool :=
  match a, b with
  | (Undefined | Null), (Undefined | Null) => true
  | (Undefined | Null), _ | _, (Undefined | Null) => false
  | Str s, Str t => bool_decide (s = t)
  | _, _ => num_eq (number_of_prim a) (number_of_prim b)
  end.

Definition loose_eq (a b : value) : stM heap bool :=
  match a, b with
  | Obj l, Obj m => mret (bool_decide (l = m))
  | Obj _, (Undefined | Null) | (Undefined | Null), Obj _ => mret false
  | Obj _, _ => p ← to_prim a; mret (loose_prim p b)
  | _, Obj _ => p ← to_prim b; mret (loose_prim a p)
  | _, _ => mret (loose_prim a b)
  end.

Definition equal (fuel : nat) (actual expected message : value) : run unit :=
  same ← from_st (loose_eq actual expected);
  if negb (same : bool) then fail fuel actual expected message (str "==") else mret tt.

Definition notEqual (fuel : nat) (actual expected message : value) : run unit :=
  same ← from_st (loose_eq actual expected);
  if (same : bool) then fail fuel actual expected message (str "!=") else mret tt.

Definition strictEqual (fuel : nat) (actual expected message : value) : run unit :=
  if negb (strict_eq actual expected) then fail fuel actual expected message (str "===") else mret tt.

Definition notStrictEqual (fuel : nat) (actual expected message : value) : run unit :=
  if strict_eq actual expected then fail fuel actual expected message (str "!==") else mret tt.

(** ** Deep equality *)

(** Whether all of them pass, up to the first that does not. *)
Fixpoint all_st {A} (f : A -> stM heap bool) (l : list A) : stM heap bool :=
  match l with
  | [] => mret true
  | x :: l => r ← f x; if (r : bool) then all_st f l else mret false
  end.

Definition same_prop (a b : value) (k : key) : stM heap bool := x ← getM a k; y ← getM b k; mret (strict_eq x y).

Definition isArguments (h : heap) (v : value) : bool := bool_decide (class_name h v = "Arguments"%string).

(** The number of elements a loop up to [length] goes through. *)
Definition loop_length (v : value) : nat := match number_of_prim v with Int z => Z.to_nat z | _ => 0%nat end.

(** [pSlice.call(v)] *)
Definition slice_all (v : value) : stM heap value :=
  n ← getM v (prop "length");
  h ← get_st;
  alloc (Object CArray (Some array_proto) (map (fun i => prop_of h v (Index i)) (seq 0 (loop_length n))) []).

Definition both (f : value -> stM heap bool) (a b : value) : stM heap bool := x ← f a; if (x : bool) then f b else mret false.

Definition buffers_equal (a b : value) : stM heap bool :=
  m ← getM a (prop "length");
  n ← getM b (prop "length");
  same ← loose_eq m n;
  if negb (same : bool) then mret false else all_st (fun i => same_prop a b (Index i)) (seq 0 (loop_length m)).

Definition objectKeys (h : heap) (v : value) : list key :=
  match v with Obj l => match h !! l with Some o => own_keys o | None => [] end | _ => [] end.

Definition key_order (k k' : key) : Z :=
  if str_ltb (key_text k) (key_text k') then -1 else if str_ltb (key_text k') (key_text k) then 1 else 0.

(** [objEquiv], with [deep] for [_deepEqual] *)
Definition objEquiv (deep : value -> value -> stM heap bool) (a b : value) : stM heap bool :=
  if isNullOrUndefined a || isNullOrUndefined b then mret false else
  same ← same_prop a b (prop "prototype");
  if negb (same : bool) then mret false else
  h ← get_st;
  if isPrimitive h a || isPrimitive h b then mret (strict_eq a b) else
  let aIsArgs := isArguments h a in
  let bIsArgs := isArguments h b in
  if xorb aIsArgs bIsArgs then mret false else
  if aIsArgs then a ← slice_all a; b ← slice_all b; deep a b else
  let ka := sort_by key_order (objectKeys h a) in
  let kb := sort_by key_order (objectKeys h b) in
  if negb (length ka =? length kb)%nat then mret false else
  if negb (bool_decide (map key_text ka = map key_text kb)) then mret false else
  all_st (fun k => x ← getM a k; y ← getM b k; deep x y) (reverse ka).

Definition date_value (h : heap) (v : value) : number := match class_of h v with Some (CDate t) => t | _ => NaN end.

Fixpoint _deepEqual (fuel : nat) (actual expected : value) : stM heap bool :=
  match fuel with
  | O => no_fuel
  | S fuel =>
      if strict_eq actual expected then mret true else
      buffers ← both (fun v => look (fun h => isBuffer h v)) actual expected;
      if (buffers : bool) then buffers_equal actual expected else
      h ← get_st;
      if isDate h actual && isDate h expected then mret (num_eq (date_value h actual) (date_value h expected)) else
      if isRegExp h actual && isRegExp h expected then
        all_st (fun k => same_prop actual expected (prop k)) ["source"; "global"; "multiline"; "lastIndex"; "ignoreCase"]%string else
      if negb (isObject h actual) && negb (isObject h expected) then loose_eq actual expected else
      objEquiv (_deepEqual fuel) actual expected
  end.

Definition deepEqual (fuel : nat) (actual expected message : value) : run unit :=
  same ← from_st (_deepEqual fuel actual expected);
  if negb (same : bool) then fail fuel actual expected message (str "deepEqual") else mret tt.

Definition notDeepEqual (fuel : nat) (actual expected message : value) : run unit :=
  same ← from_st (_deepEqual fuel actual expected);
  if (same : bool) then fail fuel actual expected message (str "notDeepEqual") else mret tt.

(** ** Exceptions *)
Definition expectedException (actual expected : value) : run bool :=
  if negb (truthy actual) || negb (truthy expected) then mret false else
  regexp ← from_st (look (fun h => Ret (bool_decide (class_name h expected = "RegExp"%string))));
  if (regexp : bool) then
    r ← from_st (f ← getM expected (prop "test"); callM f expected [actual]);
    mret (truthy r)
  else
    instance ← from_st (look (fun h => instance_of h actual expected));
    if (instance : bool) then mret true else
    r ← from_st (this ← new_object; callM expected this [actual]);
    mret (strict_eq r (Bool true)).

(** What a block throws; undefined if it throws nothing. *)
Definition caught (block : run value) : run value := fun h =>
  match block h with
  | (h', Normal _) => (h', Normal Undefined)
  | (h', Raised v) => (h', Normal v)
  | (h', Exhausted) => (h', Exhausted)
  end.

Definition throws_message (expected message : value) : stM heap jsstr :=
  name ← (if truthy expected then getM expected (prop "name") else mret Undefined);
  head ← (if truthy name then t ← to_text name; mret (js " (" ++ t ++ js ").") else mret (js "."));
  rest ← (if truthy message then t ← to_text message; mret (js " " ++ t) else mret (js "."));
  mret (head ++ rest).

(** The end of [_throws], once it is known what was thrown. *)
Definition judge (fuel : nat) (shouldThrow : bool) (actual expected : value) (message : jsstr) : run unit :=
  (if shouldThrow && negb (truthy actual)
   then fail fuel actual expected (Str (js "Missing expected exception" ++ message)) Undefined else mret tt) ;;
  unwanted ← (if negb shouldThrow then expectedException actual expected else mret false);
  (if (unwanted : bool)
   then fail fuel actual expected (Str (js "Got unwanted exception" ++ message)) Undefined else mret tt) ;;
  mismatch ← (if shouldThrow && truthy actual && truthy expected
              then r ← expectedException actual expected; mret (negb (r : bool)) else mret false);
  if (mismatch : bool) || (negb shouldThrow && truthy actual) then raise actual else mret tt.

Definition _throws (fuel : nat) (shouldThrow : bool) (block : run value) (expected message : value) : run unit :=
  strings ← from_st (look (fun h => Ret (isString h expected)));
  let '(expected, message) := if (strings : bool) then (Null, expected) else (expected, message) in
  actual ← caught block;
  message ← from_st (throws_message expected message);
  judge fuel shouldThrow actual expected message.

Definition throws (fuel : nat) (block : run value) (error message : value) : run unit := _throws fuel true block error message.
Definition doesNotThrow (fuel : nat) (block : run value) (expected message : value) : run unit := _throws fuel false block expected message.

Definition ifError (err : value) : run unit := if truthy err then raise err else mret tt.
End asserting.

(** ** Deep equality of plain data *)

(** Keys are told apart by their texts. *)
Definition canonical (k : key) : Prop := key_of_text (key_text k) = k.

Lemma sorted_texts ks : Sorted str_le (map key_text (sort_by key_order ks)).
Proof.
  assert (forall a b, 0 <= key_order a b -> key_order b a <= 0) as Hc.
  { intros a b. unfold key_order. destruct (str_ltb (key_text a) (key_text b)) eqn:E1, (str_ltb (key_text b) (key_text a)) eqn:E2; lia. }
  pose proof (sort_by_sorted key_order ks Hc) as Hs. induction Hs as [|k l Hl IH Hk]; cbn [map]; constructor; [done|].
  destruct Hk as [|k' l Hk]; cbn [map]; constructor. unfold key_order in Hk. unfold str_le.
  destruct (str_ltb (key_text k) (key_text k')) eqn:E1; [by apply str_ltb_asym|]. by destruct (str_ltb (key_text k') (key_text k)).
Qed.

(** The sorted texts of two lists of keys agree when the keys are the same. *)
Lemma same_keys ks ks' : NoDup ks -> NoDup ks' -> Forall canonical ks -> Forall canonical ks' ->
  map key_text (sort_by key_order ks) = map key_text (sort_by key_order ks') <-> forall k, k ∈ ks <-> k ∈ ks'.
Proof.
  intros Hn Hn' Hc Hc'. split.
  - intros E. assert (forall l, Forall canonical l -> map key_of_text (map key_text (sort_by key_order l)) = sort_by key_order l) as Hback.
    { intros l Hl. rewrite map_map. rewrite <- (map_id (sort_by key_order l)) at 2. apply map_ext_in. intros k Hk.
      apply list_elem_of_In in Hk. rewrite sort_by_perm in Hk. rewrite Forall_forall in Hl. by apply Hl. }
    intros k. rewrite <- (sort_by_perm key_order ks), <- (sort_by_perm key_order ks').
    by rewrite <- (Hback ks), <- (Hback ks'), E.
  - intros Hk. apply (Sorted_unique str_le); [apply sorted_texts..|]. rewrite !sort_by_perm. by rewrite (NoDup_Permutation ks ks').
Qed.

Section deep.
Context `{Realm} `{Client} (h : heap) (D : loc -> Prop).

(** Arrays and objects that hold primitives and each other. *)
Record plain : Prop := {
  pl_object l : D l -> exists o, h !! l = Some o /\ (o_class o = CArray \/ o_class o = CObject) /\
    NoDup (own_keys o) /\ Forall canonical (own_keys o);
  pl_prototype l : D l -> get h (Obj l) (prop "prototype") = Ret Undefined;
  pl_buffer l : D l -> isBuffer h (Obj l) = Ret false;
  pl_closed l o k m : D l -> h !! l = Some o -> k ∈ own_keys o -> get_own o k = Some (Obj m) -> D m }.

Definition in_data (v : value) : Prop := match v with Obj l => D l | _ => True end.

(** The relation that is decided: that of the comments 7.1 to 7.5, but for a pair of a
    primitive and an object, which comment 7.4 compares with [==] and the code tells apart. *)
Inductive equivalent : value -> value -> Prop :=
| equivalent_same v w : strict_eq v w = true -> equivalent v w
| equivalent_loosely v w : is_object v = false -> is_object w = false -> loose_prim v w = true -> equivalent v w
| equivalent_deeply l m o o' : h !! l = Some o -> h !! m = Some o' -> (forall k, k ∈ own_keys o <-> k ∈ own_keys o') ->
    (forall k v w, k ∈ own_keys o -> get_own o k = Some v -> get_own o' k = Some w -> equivalent v w) ->
    equivalent (Obj l) (Obj m).

(** A test that returns, leaves the heap alone and decides [P]. *)
Definition decides (m : stM heap bool) (P : Prop) : Prop := exists b, m h = (h, Ret b) /\ (b = true <-> P).

Lemma decides_ret b (P : Prop) : (b = true <-> P) -> decides (mret b) P.
Proof. intros Hb. by exists b. Qed.

Lemma decides_bind {A} (m : stM heap A) (f : A -> stM heap bool) a P : m h = (h, Ret a) -> decides (f a) P -> decides (m ≫= f) P.
Proof. intros E (b & Eb & Hb). exists b. by rewrite (bind_ran _ _ _ _ _ E). Qed.

Lemma decides_iff m (P Q : Prop) : (P <-> Q) -> decides m P -> decides m Q.
Proof. intros HPQ (b & E & Hb). exists b. split; [done|]. by rewrite Hb. Qed.

Lemma decides_all {A} (f : A -> stM heap bool) (P : A -> Prop) l : (forall x, x ∈ l -> decides (f x) (P x)) -> decides (all_st f l) (forall x, x ∈ l -> P x).
Proof.
  induction l as [|x l IH]; intros Hf; cbn [all_st].
  - apply decides_ret. split; [|done]. intros _ x Hx. by apply elem_of_nil in Hx.
  - destruct (Hf x) as (b & Eb & Hb); [by left|]. apply (decides_bind _ _ b); [done|]. destruct b.
    + apply (decides_iff _ (forall y, y ∈ l -> P y)); [|apply IH; intros y Hy; apply Hf; by right].
      split; intros HP y; [intros [->|Hy]%elem_of_cons; [by apply Hb|by apply HP]|intros Hy; apply HP; by right].
    + apply decides_ret. split; [done|]. intros HP. apply Hb. apply HP. by left.
Qed.

(** Every enumerable key of an array or object has a value. *)
Lemma own_key_value o k : o_class o = CArray \/ o_class o = CObject -> k ∈ own_keys o -> exists v, get_own o k = Some v.
Proof.
  intros Hc Hk. unfold own_keys in Hk. apply elem_of_app in Hk as [Hk|Hk].
  - unfold index_keys in Hk. apply elem_of_app in Hk as [Hk|Hk]; [destruct (o_class o); destruct Hc; try done; by apply elem_of_nil in Hk|].
    apply list_elem_of_omap in Hk as ([i v] & Hi & Hv). destruct v as [v|]; [|done]. injection Hv as <-.
    apply elem_of_lookup_imap in Hi as (j & v' & [= -> <-] & Hj). exists v. unfold get_own. by destruct Hc as [->| ->]; rewrite Hj.
  - apply list_elem_of_omap in Hk as ([n [w []]] & Hi & [= <-]). unfold get_own.
    assert (exists v, fst <$> assoc n (o_props o) = Some v) as [v Ev].
    { unfold assoc. destruct (List.find _ (o_props o)) as [[n' [w' e]]|] eqn:E; [by exists w'|].
      apply list_elem_of_In in Hi. pose proof (find_none _ _ E _ Hi) as Hn. cbn in Hn. by rewrite bool_decide_eq_true_2 in Hn. }
    destruct Hc as [->| ->]; [|by exists v]. case_bool_decide; [by eexists|by exists v].
Qed.

Hypothesis (Hplain : plain).

(** What makes two objects deeply equal, with [E] for their values. *)
Definition same_contents (E : value -> value -> Prop) (l m : loc) : Prop := exists o o', h !! l = Some o /\ h !! m = Some o' /\
  (forall k, k ∈ own_keys o <-> k ∈ own_keys o') /\
  (forall k v w, k ∈ own_keys o -> get_own o k = Some v -> get_own o' k = Some w -> E v w).

Lemma data_kinds l : D l -> isDate h (Obj l) = false /\ isRegExp h (Obj l) = false /\ isObject h (Obj l) = true /\ isArguments h (Obj l) = false.
Proof.
  intros Hl. destruct (pl_object Hplain l Hl) as (o & Ho & Hc & _).
  unfold isDate, isRegExp, isObject, isArguments, typeof, objectToString, class_name. rewrite Ho. cbn [fmap option_fmap option_map].
  by destruct Hc as [->| ->].
Qed.

Lemma decides_equiv deep l m : D l -> D m ->
  (forall k v w o o', h !! l = Some o -> h !! m = Some o' -> k ∈ own_keys o -> k ∈ own_keys o' ->
    get_own o k = Some v -> get_own o' k = Some w -> decides (deep v w) (equivalent v w)) ->
  decides (objEquiv deep (Obj l) (Obj m)) (same_contents equivalent l m).
Proof.
  intros Hl Hm Hdeep. unfold objEquiv. cbn [isNullOrUndefined nullish orb].
  apply (decides_bind _ _ true).
  { unfold same_prop, getM. unfold mbind, stM_bind, look. by rewrite (pl_prototype Hplain l Hl), (pl_prototype Hplain m Hm). }
  cbn [negb]. apply (decides_bind _ _ h); [done|]. rewrite !primitive_not_object. cbn [is_object negb orb].
  destruct (data_kinds l Hl) as (_ & _ & _ & ->), (data_kinds m Hm) as (_ & _ & _ & ->). cbn [xorb].
  destruct (pl_object Hplain l Hl) as (o & Ho & Hc & Hn & Hk), (pl_object Hplain m Hm) as (o' & Ho' & Hc' & Hn' & Hk').
  unfold objectKeys. rewrite Ho, Ho'. pose proof (same_keys _ _ Hn Hn' Hk Hk') as Hsame.
  destruct (Nat.eqb_spec (length (sort_by key_order (own_keys o))) (length (sort_by key_order (own_keys o')))) as [El|El]; cbn [negb].
  - case_bool_decide as Et; cbn [negb].
    + pose proof (proj1 Hsame Et) as Hks. apply (decides_iff _ (forall k, k ∈ reverse (sort_by key_order (own_keys o)) ->
        forall v w, get_own o k = Some v -> get_own o' k = Some w -> equivalent v w)).
      * split; [intros HE; exists o, o'; split_and!; try done; intros k v w Hi; apply HE; by rewrite elem_of_reverse, sort_by_perm|].
        intros (o1 & o1' & Ho1 & Ho1' & _ & HE) k Hi v w. rewrite elem_of_reverse, sort_by_perm in Hi.
        rewrite Ho in Ho1. rewrite Ho' in Ho1'. injection Ho1 as <-. injection Ho1' as <-. by apply HE.
      * apply decides_all. intros k Hi. rewrite elem_of_reverse, sort_by_perm in Hi.
        destruct (own_key_value o k Hc Hi) as [v Hv], (own_key_value o' k Hc' (proj1 (Hks k) Hi)) as [w Hw].
        apply (decides_bind _ _ v); [by eapply getM_own|]. apply (decides_bind _ _ w); [by eapply getM_own|].
        apply (decides_iff _ (equivalent v w)); [|eapply Hdeep; try done; by apply Hks]. rewrite Hv, Hw. split; [by intros ? ? ? [= <-] [= <-]|by intros HE; apply HE].
    + apply decides_ret. split; [done|]. intros (o1 & o1' & Ho1 & Ho1' & HE & _). destruct Et. apply Hsame.
      rewrite Ho in Ho1. rewrite Ho' in Ho1'. by injection Ho1 as <-; injection Ho1' as <-.
  - apply decides_ret. split; [done|]. intros (o1 & o1' & Ho1 & Ho1' & HE & _). destruct El.
    rewrite Ho in Ho1. rewrite Ho' in Ho1'. injection Ho1 as <-. injection Ho1' as <-.
    rewrite <- (length_map key_text), (proj2 Hsame HE). apply length_map.
Qed.

Lemma equivalent_objects l m : l <> m -> equivalent (Obj l) (Obj m) <-> same_contents equivalent l m.
Proof.
  intros Hne. split.
  - inversion 1; subst; [|done|by do 2 eexists]. unfold strict_eq in *. by case_bool_decide; [congruence|].
  - intros (o & o' & H1 & H2 & H3 & H4). by eapply equivalent_deeply.
Qed.

Lemma equivalent_mixed v w : is_object v <> is_object w -> ~ equivalent v w.
Proof.
  intros Hne. inversion 1 as [? ? E|? ? E1 E2 _|]; subst; [|congruence|done].
  apply strict_eq_spec in E as [[-> _]|[[-> ->]|[-> ->]]]; done.
Qed.

Lemma buffer_data v : in_data v -> isBuffer h v = Ret false.
Proof.
  destruct v as [| |b|n|t|l]; cbn [in_data]; intros Hv; [..|by apply (pl_buffer Hplain)]; unfold isBuffer; try done; cbn [typeof]; by case_match.
Qed.

(** A primitive is never deeply equal to an object. *)
Lemma decides_mixed deep v w : in_data v -> in_data w -> is_object v <> is_object w -> decides (objEquiv deep v w) False.
Proof.
  intros Hv Hw Hne. unfold objEquiv. destruct (isNullOrUndefined v) eqn:E1; [by apply decides_ret|].
  destruct (isNullOrUndefined w) eqn:E2; [by apply decides_ret|]. cbn [orb].
  assert (exists b, same_prop v w (prop "prototype") h = (h, Ret b)) as [b Eb].
  { unfold same_prop, getM, mbind, stM_bind, look, get. unfold isNullOrUndefined in E1, E2. rewrite E1, E2. by eexists. }
  apply (decides_bind _ _ b); [done|]. destruct b; [|by apply decides_ret]. cbn [negb]. apply (decides_bind _ _ h); [done|].
  rewrite !primitive_not_object. assert (strict_eq v w = false) as Es.
  { apply not_true_is_false. rewrite strict_eq_spec. intros [[-> _]|[[-> ->]|[-> ->]]]; done. }
  destruct (is_object v), (is_object w); cbn [negb orb]; try done; apply decides_ret; by rewrite Es.
Qed.

Lemma decides_loosely v w : is_object v = false -> is_object w = false -> strict_eq v w = false -> decides (loose_eq v w) (equivalent v w).
Proof.
  intros Hv Hw Es. assert (loose_eq v w = mret (loose_prim v w)) as -> by (by destruct v, w). apply decides_ret. split; [by apply equivalent_loosely|].
  inversion 1; subst; try done. congruence.
Qed.

Lemma decides_deep (rank : loc -> nat) fuel v w :
  (forall l o k m, D l -> h !! l = Some o -> k ∈ own_keys o -> get_own o k = Some (Obj m) -> (rank m < rank l)%nat) ->
  in_data v -> in_data w -> (match v with Obj l => S (rank l) | _ => 0 end < fuel)%nat -> decides (_deepEqual fuel v w) (equivalent v w).
Proof.
  intros Hrank. revert v w. induction fuel as [|fuel IH]; intros v w Hv Hw Hf; [lia|]. cbn [_deepEqual].
  destruct (strict_eq v w) eqn:Es; [apply decides_ret; split; [by constructor|done]|].
  apply (decides_bind _ _ false).
  { unfold both. rewrite (bind_ran _ _ h h false); [done|]. unfold look. by rewrite (buffer_data v). }
  apply (decides_bind _ _ h); [done|].
  destruct (is_object v) eqn:Ov, (is_object w) eqn:Ow.
  - destruct v as [| | | | |l], w as [| | | | |m]; try done. cbn [in_data] in *.
    destruct (data_kinds l Hv) as (-> & -> & -> & _). cbn [negb andb].
    assert (l <> m) as Hne by (intros ->; revert Es; cbn; by rewrite bool_decide_eq_true_2).
    eapply decides_iff; [symmetry; by apply equivalent_objects|]. apply decides_equiv; [done..|].
    intros k x y o o' Ho Ho' Hk Hk' Hx Hy.
    apply IH; [destruct x; [done..|]; by eapply (pl_closed Hplain l)| |].
    + destruct y; [done..|]. by eapply (pl_closed Hplain m).
    + destruct x as [| | | | |x]; try lia. specialize (Hrank l o k x Hv Ho Hk Hx). lia.
  - destruct v as [| | | | |l]; try done. destruct (data_kinds l Hv) as (-> & -> & -> & _). cbn [negb andb].
    eapply decides_iff; [|by apply decides_mixed; try congruence]. split; [done|]. intros E. by apply equivalent_mixed in E; [|congruence].
  - destruct w as [| | | | |l]; try done. destruct (data_kinds l Hw) as (-> & -> & -> & _). rewrite !andb_false_r. cbn [negb].
    eapply decides_iff; [|by apply decides_mixed; try congruence]. split; [done|]. intros E. by apply equivalent_mixed in E; [|congruence].
  - assert (isObject h v = false /\ isObject h w = false) as [Hv' Hw'] by (by destruct v, w). unfold isDate, isRegExp.
    rewrite Hv', Hw'. cbn [andb negb]. by apply decides_loosely.
Qed.
End deep.

(** C16: deep equality of plain data.  On arrays and objects without cycles that hold
    primitives and each other, [_deepEqual] returns, changes nothing, and answers whether
    the values are equivalent: primitives compare with [==], objects by the set of their
    enumerable keys and the equivalence of the values under each, and a primitive is never
    equivalent to an object. *)
Theorem deepEqual_plain (R : Realm) (C : Client) (h : heap) (D : loc -> Prop) (Hplain : plain h D) (rank : loc -> nat) (n : nat)
    (Hrank : forall l o k m, D l -> h !! l = Some o -> k ∈ own_keys o -> get_own o k = Some (Obj m) -> (rank m < rank l)%nat)
    (Hn : forall l, D l -> (rank l < n)%nat) (v w : value) (Hv : in_data D v) (Hw : in_data D w) :
  exists b, _deepEqual (n + 2) v w h = (h, Ret b) /\ (b = true <-> equivalent h v w) /\ (is_object v <> is_object w -> b = false).
Proof.
  destruct (decides_deep h D Hplain rank (n + 2) v w) as (b & E & Hb); [done..| |].
  - destruct v as [| | | | |l]; try lia. specialize (Hn l Hv). lia.
  - exists b. split_and!; [done|done|]. intros Hne. apply not_true_is_false. rewrite Hb. by apply equivalent_mixed.
Qed.

(** Where [==] takes an object for a primitive, deep equality does not. *)
Lemma loosely_not_deeply (R : Realm) (C : Client) (h h' : heap) (D : loc -> Prop) (Hplain : plain h D) l w p fuel :
  D l -> is_object w = false -> nullish w = false -> to_prim (Obj l) h = (h', Ret p) -> loose_prim p w = true ->
  loose_eq (Obj l) w h = (h', Ret true) /\ _deepEqual (S fuel) (Obj l) w h = (h, Ret false).
Proof.
  intros Hl Hw Hn Hp Hpw. split.
  - assert (loose_eq (Obj l) w = (p ← to_prim (Obj l); mret (loose_prim p w))) as -> by (by destruct w).
    rewrite (bind_ran _ _ _ _ _ Hp). by rewrite Hpw.
  - cbn [_deepEqual]. assert (strict_eq (Obj l) w = false) as -> by (by destruct w).
    rewrite (bind_ran _ _ h h false).
    2: { unfold both. rewrite (bind_ran _ _ h h false); [done|]. unfold look. by rewrite (pl_buffer h D Hplain l Hl). }
    cbv iota. rewrite (bind_ran _ _ h h h) by done. destruct (data_kinds h D Hplain l Hl) as (-> & -> & -> & _). cbn [negb andb].
    destruct (decides_mixed h D (_deepEqual fuel) (Obj l) w) as (b & E & Hb); [done|by destruct w|by rewrite Hw|].
    destruct b; [by destruct Hb as [[] _]|done].
Qed.

(** ** What an assertion throws *)
Section raising.
Context `{Realm} `{Client} `{Natives}.

(** The error of an assertion that was given a message. *)
Definition assertion (actual expected message operator : value) : object :=
  Object CObject (Some assertion_proto) [] [(js "name", (str "AssertionError", true)); (js "actual", (actual, true)); (js "expected", (expected, true));
    (js "operator", (operator, true)); (js "message", (message, true)); (js "generatedMessage", (Bool false, true))].

Lemma put_new h o k v : ordinary (o_class o) = true -> putM (Obj (length h)) k v (h ++ [o]) = (h ++ [set_own k v o], Ret tt).
Proof. intros Ho. rewrite (putM_object _ (length h) o) by (done || apply heap_new). by rewrite heap_set_new. Qed.

Lemma assertion_built fuel h actual expected message operator : truthy message = true ->
  AssertionError fuel actual expected message operator h = (h ++ [assertion actual expected message operator], Ret (Obj (length h))).
Proof.
  intros Hm. unfold AssertionError. rewrite (bind_ran _ _ h (h ++ [Object CObject (Some assertion_proto) [] []]) (Obj (length h))) by done.
  do 4 (erewrite bind_ran; [|by apply put_new]). rewrite Hm.
  rewrite (bind_ran _ _ _ (h ++ [assertion actual expected message operator]) tt); [done|].
  erewrite bind_ran; [|by apply put_new]. rewrite put_new by done. reflexivity.
Qed.

Lemma fail_raises {A} fuel h actual expected message operator : truthy message = true ->
  fail (A := A) fuel actual expected message operator h = (h ++ [assertion actual expected message operator], Raised (Obj (length h))).
Proof.
  intros Hm. unfold fail, mbind, run_bind, from_st. by rewrite assertion_built.
Qed.

Lemma run_ran {A B} (m : run A) (f : A -> run B) h h' a : m h = (h', Normal a) -> (m ≫= f) h = f a h'.
Proof. intros E. unfold mbind, run_bind. by rewrite E. Qed.

Lemma from_ran {A} (m : stM heap A) h h' a : m h = (h', Ret a) -> from_st m h = (h', Normal a).
Proof. intros E. unfold from_st. by rewrite E. Qed.

(** What the block threw, as [_throws] sees it. *)
Definition thrown_by (c : completion value) : value := match c with Raised v => v | _ => Undefined end.

Lemma caught_ran block h h1 c : block h = (h1, c) -> c <> Exhausted -> caught block h = (h1, Normal (thrown_by c)).
Proof. intros E Hc. unfold caught. rewrite E. by destruct c. Qed.

(** An expectation that is a text is the message. *)
Definition expectation (h : heap) (expected : value) : value := if isString h expected then Null else expected.
Definition own_message (h : heap) (expected message : value) : value := if isString h expected then expected else message.

(** The steps in front of the verdict *)
Lemma throws_head fuel should block h h1 h2 c expected message text : block h = (h1, c) -> c <> Exhausted ->
  throws_message (expectation h expected) (own_message h expected message) h1 = (h2, Ret text) ->
  _throws fuel should block expected message h = judge fuel should (thrown_by c) (expectation h expected) text h2.
Proof.
  intros Hb Hc Ht. unfold _throws. rewrite (run_ran _ _ h h (isString h expected)) by done. unfold expectation, own_message in *.
  destruct (isString h expected); rewrite (run_ran _ _ _ _ _ (caught_ran block h h1 c Hb Hc)); by rewrite (run_ran _ _ _ _ _ (from_ran _ _ _ _ Ht)).
Qed.

(** The end of a call, where a judgement follows it. *)
Definition concluded (r : heap * completion bool) (verdict : bool -> heap -> heap * completion unit) : heap * completion unit :=
  match r with
  | (h, Normal b) => verdict b h
  | (h, Raised v) => (h, Raised v)
  | (h, Exhausted) => (h, Exhausted)
  end.

Definition missing (thrown e : value) (text : jsstr) (h : heap) : heap * completion unit :=
  (h ++ [assertion thrown e (Str (js "Missing expected exception" ++ text)) Undefined], Raised (Obj (length h))).
Definition unwanted (thrown e : value) (text : jsstr) (h : heap) : heap * completion unit :=
  (h ++ [assertion thrown e (Str (js "Got unwanted exception" ++ text)) Undefined], Raised (Obj (length h))).

Lemma unexpected thrown e h : truthy e = false -> expectedException thrown e h = (h, Normal false).
Proof. intros He. unfold expectedException. by rewrite He, orb_true_r. Qed.

Lemma judge_throws fuel thrown e text h : judge fuel true thrown e text h =
  if negb (truthy thrown) then missing thrown e text h else
  if negb (truthy e) then (h, Normal tt) else
  concluded (expectedException thrown e h) (fun ok h => (h, if ok then Normal tt else Raised thrown)).
Proof.
  unfold judge. destruct (truthy thrown) eqn:E; cbn [andb negb].
  - rewrite (run_ran _ _ h h tt), (run_ran _ _ h h false), (run_ran _ _ h h tt) by done. destruct (truthy e) eqn:Ee; cbn [negb].
    + unfold mbind, run_bind. destruct (expectedException thrown e h) as [h3 [[]|v|]]; done.
    + by rewrite (run_ran _ _ h h false).
  - unfold mbind at 1, run_bind at 1. by rewrite fail_raises.
Qed.

Lemma judge_not_throws fuel thrown e text h : judge fuel false thrown e text h =
  if negb (truthy thrown) then (h, Normal tt) else
  if negb (truthy e) then (h, Raised thrown) else
  concluded (expectedException thrown e h) (fun found h => if found then unwanted thrown e text h else (h, Raised thrown)).
Proof.
  unfold judge. cbn [andb negb]. rewrite (run_ran _ _ h h tt) by done. destruct (truthy thrown) eqn:E; cbn [negb].
  - destruct (truthy e) eqn:Ee; cbn [negb].
    + unfold mbind at 1, run_bind at 1. destruct (expectedException thrown e h) as [h3 [[]|v|]]; [|done..].
      unfold mbind at 1, run_bind at 1. by rewrite fail_raises.
    + by rewrite (run_ran _ _ h h false) by (by apply unexpected).
  - by rewrite (run_ran _ _ h h false) by (unfold expectedException; by rewrite E).
Qed.

Lemma from_bind {A B C'} (m : stM heap A) (f : A -> stM heap B) (g : B -> run C') h h' a : m h = (h', Ret a) ->
  (from_st (m ≫= f) ≫= g) h = (from_st (f a) ≫= g) h'.
Proof. intros E. unfold mbind at 1, run_bind, from_st. by rewrite (bind_ran _ _ _ _ _ E). Qed.

(** A regular expression, and a constructor or a test as the expectation *)
Lemma expected_regexp h v l f : truthy v = true -> class_name h (Obj l) = "RegExp"%string -> get h (Obj l) (prop "test") = Ret f ->
  expectedException v (Obj l) h = (r ← from_st (callM f (Obj l) [v]); mret (truthy r)) h.
Proof.
  intros Hv Hc Hf. unfold expectedException. rewrite Hv. cbn [truthy negb orb]. rewrite (run_ran _ _ h h true).
  - by rewrite (from_bind _ _ _ h h f) by (unfold getM, look; by rewrite Hf).
  - apply from_ran. unfold look. do 2 f_equal. by apply bool_decide_eq_true_2.
Qed.

Lemma expected_function h v f b : truthy v = true -> is_function h (Obj f) = true -> instance_of h v (Obj f) = Ret b ->
  expectedException v (Obj f) h =
  if b then (h, Normal true)
  else (r ← from_st (callM (Obj f) (Obj (length h)) [v]); mret (strict_eq r (Bool true))) (h ++ [Object CObject (Some object_proto) [] []]).
Proof.
  intros Hv Hf Hi. unfold expectedException. rewrite Hv. cbn [truthy negb orb]. rewrite (run_ran _ _ h h false).
  - rewrite (run_ran _ _ h h b) by (apply from_ran; unfold look; by rewrite Hi). destruct b; [done|].
    by rewrite (from_bind _ _ _ h (h ++ [Object CObject (Some object_proto) [] []]) (Obj (length h))).
  - apply from_ran. unfold look. do 2 f_equal. apply bool_decide_eq_false_2. unfold is_function, typeof in Hf. unfold class_name.
    destruct (o_class <$> h !! f) as [[]|]; try done; by apply bool_decide_eq_true in Hf.
Qed.
End raising.

(** C17: the verdict on a block that ends, with any expectation and message (a text in the
    place of the expectation is the message).  [throws] throws an assertion error if the
    block threw nothing true, accepts the rest if there is no expectation or the expectation
    takes what was thrown, and throws it again otherwise.  [doesNotThrow] accepts what threw
    nothing true, throws an assertion error if the expectation takes what was thrown, and
    throws it again otherwise.  A regular expression takes what its [test] calls true; a
    function takes its instances and what it returns the value true for. *)
Theorem throws_verdict (R : Realm) (C : Client) (N : Natives) fuel (block : run value) (h h1 h2 : heap) (c : completion value)
    (expected message : value) (text : jsstr) (thrown := thrown_by c) (e := expectation h expected)
    (Hb : block h = (h1, c)) (Hc : c <> Exhausted) (Htext : throws_message e (own_message h expected message) h1 = (h2, Ret text)) :
  throws fuel block expected message h =
    (if negb (truthy thrown) then missing thrown e text h2 else
     if negb (truthy e) then (h2, Normal tt) else
     concluded (expectedException thrown e h2) (fun ok h => (h, if ok then Normal tt else Raised thrown))) /\
  doesNotThrow fuel block expected message h =
    (if negb (truthy thrown) then (h2, Normal tt) else
     if negb (truthy e) then (h2, Raised thrown) else
     concluded (expectedException thrown e h2) (fun found h => if found then unwanted thrown e text h else (h, Raised thrown))) /\
  (truthy thrown = true ->
    (forall l f, class_name h2 (Obj l) = "RegExp"%string -> get h2 (Obj l) (prop "test") = Ret f ->
      expectedException thrown (Obj l) h2 = (r ← from_st (callM f (Obj l) [thrown]); mret (truthy r)) h2) /\
    (forall f b, is_function h2 (Obj f) = true -> instance_of h2 thrown (Obj f) = Ret b ->
      expectedException thrown (Obj f) h2 =
      if b then (h2, Normal true)
      else (r ← from_st (callM (Obj f) (Obj (length h2)) [thrown]); mret (strict_eq r (Bool true)))
             (h2 ++ [Object CObject (Some object_proto) [] []]))).
Proof.
  split_and!.
  - unfold throws. rewrite (throws_head fuel true block h h1 h2 c expected message text) by done. apply judge_throws.
  - unfold doesNotThrow. rewrite (throws_head fuel false block h h1 h2 c expected message text) by done. apply judge_not_throws.
  - intros Ht. split; [intros l f Hl Hf; by apply expected_regexp|intros f b Hf Hi; by apply expected_function].
Qed.

(** ** Examples *)
Definition small_natives : Natives :=
  {| native_error := fun _ h => (h ++ [Object CError None [] []], Obj (length h)); assertion_proto := 0 |}.

(** An array of an array, and an object of an object with the same keys. *)
Definition shapes : heap :=
  [Object CObject None [] [];
   Object CArray (Some 0%nat) [Some (Num (Int 1)); Some (Obj 2)] [];
   Object CArray (Some 0%nat) [Some (Str (js "2"))] [];
   Object CObject (Some 0%nat) [Some (Str (js "1")); Some (Obj 4)] [];
   Object CObject (Some 0%nat) [Some (Num (Int 2))] []].

Definition is_shape (l : loc) : Prop := l ∈ [1; 2; 3; 4]%nat.

Lemma shape_cases (P : loc -> Prop) : P 1%nat -> P 2%nat -> P 3%nat -> P 4%nat -> forall l, is_shape l -> P l.
Proof. unfold is_shape. intros H1 H2 H3 H4 l Hl. repeat (apply elem_of_cons in Hl as [->|Hl]; [done|]). by apply elem_of_nil in Hl. Qed.

Ltac each_key Hk := vm_compute in Hk; repeat (apply elem_of_cons in Hk as [->|Hk]); [..|by apply elem_of_nil in Hk].

Lemma shapes_closed l o k m : is_shape l -> shapes !! l = Some o -> k ∈ own_keys o -> get_own o k = Some (Obj m) -> (l, m) ∈ [(1, 2); (3, 4)]%nat.
Proof.
  unfold is_shape. intros Hl Ho Hk Hm. repeat (apply elem_of_cons in Hl as [->|Hl]); [..|by apply elem_of_nil in Hl]; injection Ho as <-; each_key Hk;
    vm_compute in Hm; try discriminate; injection Hm as <-; apply (bool_decide_unpack _); vm_compute; exact I.
Qed.

Lemma shapes_plain : plain (H := small_realm) shapes is_shape.
Proof.
  split.
  - apply shape_cases; eexists; (split; [reflexivity|]); (split; [by (left + right)|]); split; apply (bool_decide_unpack _); vm_compute; exact I.
  - by apply shape_cases.
  - by apply shape_cases.
  - intros l o k m Hl Ho Hk Hm. pose proof (shapes_closed l o k m Hl Ho Hk Hm) as Hi.
    repeat (apply elem_of_cons in Hi as [[= -> ->]|Hi]; [apply (bool_decide_unpack _); vm_compute; exact I|]). by apply elem_of_nil in Hi.
Qed.

Lemma deepEqual_plain_witness :
  _deepEqual (H := small_realm) (H0 := small_client) 4 (Obj 1) (Obj 3) shapes = (shapes, Ret true) /\ equivalent (H0 := small_client) shapes (Obj 1) (Obj 3).
Proof.
  destruct (deepEqual_plain small_realm small_client shapes is_shape shapes_plain (fun l => match l with 1%nat | 3%nat => 1%nat | _ => 0%nat end) 2) with (v := Obj 1) (w := Obj 3)
    as (b & E & Hb & _).
  - intros l o k m Hl Ho Hk Hm. pose proof (shapes_closed l o k m Hl Ho Hk Hm) as Hi.
    repeat (apply elem_of_cons in Hi as [[= -> ->]|Hi]; [vm_compute; repeat constructor|]). by apply elem_of_nil in Hi.
  - apply shape_cases; vm_compute; repeat constructor.
  - unfold in_data, is_shape. apply (bool_decide_unpack _). vm_compute. exact I.
  - unfold in_data, is_shape. apply (bool_decide_unpack _). vm_compute. exact I.
  - assert (b = true) as -> by (vm_compute in E; congruence). split; [exact E|]. by apply Hb.
Defined.

(** With a message in the place of the expectation, on blocks that throw and that do not. *)
Lemma throws_verdict_witness :
  throws (H := small_realm) (H0 := small_client) (H1 := small_natives) 5 (raise (str "oops")) (str "must throw") Undefined shapes = (shapes, Normal tt) /\
  doesNotThrow (H := small_realm) (H0 := small_client) (H1 := small_natives) 5 (raise (str "oops")) Undefined Undefined shapes = (shapes, Raised (str "oops")) /\
  throws (H := small_realm) (H0 := small_client) (H1 := small_natives) 5 (mret Null) (str "must throw") Undefined shapes =
    (shapes ++ [assertion (H1 := small_natives) Undefined Null (str "Missing expected exception. must throw") Undefined], Raised (Obj 5)).
Proof.
  destruct (throws_verdict small_realm small_client small_natives 5 (raise (str "oops")) shapes shapes shapes (Raised (str "oops"))
    (str "must throw") Undefined (js ". must throw") eq_refl ltac:(discriminate) eq_refl) as (E1 & _ & _).
  destruct (throws_verdict small_realm small_client small_natives 5 (raise (str "oops")) shapes shapes shapes (Raised (str "oops"))
    Undefined Undefined (js "..") eq_refl ltac:(discriminate) eq_refl) as (_ & E2 & _).
  destruct (throws_verdict small_realm small_client small_natives 5 (mret Null) shapes shapes shapes (Normal Null)
    (str "must throw") Undefined (js ". must throw") eq_refl ltac:(discriminate) eq_refl) as (E3 & _ & _).
  split; [exact E1|]. split; [exact E2|exact E3].
Defined.

(** ** Departures *)

(** Two objects that each contain themselves. *)
Definition loops : heap :=
  [Object CObject None [] [];
   Object CObject (Some 0%nat) [] [(js "self", (Obj 1, true))];
   Object CObject (Some 0%nat) [] [(js "self", (Obj 2, true))]].

(** Comparing them never ends. *)
Lemma cyclic_never_ends fuel : _deepEqual (H := small_realm) (H0 := small_client) fuel (Obj 1) (Obj 2) loops = (loops, OutOfFuel).
Proof.
  induction fuel as [|fuel IH]; [done|].
  assert (forall deep : value -> value -> stM heap bool, deep (Obj 1) (Obj 2) loops = (loops, OutOfFuel) ->
    objEquiv (H := small_realm) (H0 := small_client) deep (Obj 1) (Obj 2) loops = (loops, OutOfFuel)) as Hd.
  { intros deep E. transitivity ((r ← deep (Obj 1) (Obj 2); if (r : bool) then mret true else mret false) loops); [vm_compute; reflexivity|].
    unfold mbind, stM_bind. by rewrite E. }
  transitivity (objEquiv (H := small_realm) (H0 := small_client) (_deepEqual (H := small_realm) (H0 := small_client) fuel) (Obj 1) (Obj 2) loops); [reflexivity|]. by apply Hd.
Qed.

(** An exception that is false is taken to be none. *)
Lemma false_exception_missed :
  throws (H := small_realm) (H0 := small_client) (H1 := small_natives) 5 (raise (Num (Int 0))) Undefined Undefined shapes =
    (shapes ++ [assertion (H1 := small_natives) (Num (Int 0)) Undefined (str "Missing expected exception..") Undefined], Raised (Obj 5)) /\
  doesNotThrow (H := small_realm) (H0 := small_client) (H1 := small_natives) 5 (raise (Num (Int 0))) Undefined Undefined shapes = (shapes, Normal tt).
Proof. by vm_compute. Qed.

(** An assertion without a message about cyclic data throws the error of [JSON.stringify]
    in place of its own. *)
Lemma cyclic_message_lost :
  (AssertionError (H := small_realm) (H0 := small_client) (H1 := small_natives) 9 (Obj 1) Null Undefined (str "==") loops).2 =
  Throw (TypeError "Converting circular structure to JSON").
Proof. by vm_compute. Qed.

(** ** The text of a stack *)

(** The first line of the function and all above it are gone. *)
Theorem strip_frames_spec (above fn_name line below : jsstr)
    (Hfirst : forall k, (k < length above)%nat -> starts_with (10 :: fn_name) (drop k (above ++ 10 :: fn_name ++ line ++ 10 :: below)) = false)
    (Hline : 10 ∉ fn_name ++ line) :
  strip_frames (above ++ 10 :: fn_name ++ line ++ 10 :: below) fn_name = below.
Proof.
  set (out := above ++ 10 :: fn_name ++ line ++ 10 :: below) in *.
  assert (length out = length above + S (length (fn_name ++ line) + S (length below)))%nat as Hl.
  { unfold out. rewrite !length_app. cbn [length]. rewrite !length_app. cbn [length]. lia. }
  assert (indexOf out (10 :: fn_name) 0 = Z.of_nat (length above)) as Hi.
  { unfold indexOf. replace (Z.min (Z.max 0 0) (js_len out)) with 0 by (unfold js_len; lia). rewrite drop_0.
    apply (find_first _ out (length above) 0); [done| |lia].
    unfold out. rewrite drop_app_length. apply (starts_self (10 :: fn_name)). }
  assert (drop (S (length above)) out = (fn_name ++ line) ++ 10 :: below) as Hd.
  { unfold out. rewrite (cons_middle 10 above), <- app_assoc, app_assoc. rewrite drop_app_length' by (rewrite length_app; cbn; lia). done. }
  assert (indexOf out [10] (Z.of_nat (length above) + 1) = Z.of_nat (S (length above) + length (fn_name ++ line))) as Hn.
  { unfold indexOf. replace (Z.min _ _) with (Z.of_nat (S (length above))) by (unfold js_len; lia). rewrite Nat2Z.id, Hd.
    rewrite (find_first _ _ (length (fn_name ++ line))); [lia| | |rewrite (length_app (fn_name ++ line)); lia].
    - intros k Hk. rewrite drop_app_le by lia. destruct (drop k (fn_name ++ line)) as [|x t] eqn:E.
      + apply (f_equal length) in E. rewrite length_drop in E. cbn in E. lia.
      + cbn [starts_with app]. assert (x ∈ fn_name ++ line) as Hx by (rewrite <- (take_drop k (fn_name ++ line)), E; apply elem_of_app; right; left).
        destruct (Z.eqb_spec 10 x) as [<-|]; [by destruct Hline|done].
    - rewrite drop_app_length. done. }
  unfold strip_frames. rewrite Hi, (proj2 (Z.leb_le _ _)), Hn by lia. rewrite js_substring_in by (unfold js_len; lia).
  assert (drop (S (S (length above) + length (fn_name ++ line))) out = below) as Hb.
  { replace (S _) with (S (length above) + S (length (fn_name ++ line)))%nat by lia. rewrite <- drop_drop, Hd.
    rewrite (cons_middle 10), app_assoc, drop_app_length' by (rewrite !length_app; cbn; lia). done. }
  rewrite js_slice_in by (unfold js_len; lia). unfold js_len. rewrite Hl.
  replace (Z.to_nat (_ + 1)) with (S (S (length above) + length (fn_name ++ line))) by lia. rewrite Hb. apply take_ge. lia.
Qed.

Lemma strip_frames_spec_witness : strip_frames (js "Error" ++ 10 :: js "fail@" ++ js "a.js:1" ++ 10 :: js "main@a.js:9") (js "fail@") = js "main@a.js:9".
Proof.
  apply (strip_frames_spec (js "Error") (js "fail@") (js "a.js:1") (js "main@a.js:9")).
  - intros k Hk. change (length (js "Error")) with 5%nat in Hk. do 5 (destruct k as [|k]; [reflexivity|]). lia.
  - apply (bool_decide_unpack _). vm_compute. exact I.
Defined.

(** Of a text that ends with the line of the function nothing is taken away. *)
Lemma last_frame_kept : strip_frames (js "Error" ++ 10 :: js "fail@a.js:1") (js "fail") = js "Error" ++ 10 :: js "fail@a.js:1".
Proof. by vm_compute. Qed.

