(* ===== verification/TraceViewer.v ===== *)
(** * The trace viewer

    The script of src/log_viewer/viewer.html: it loads the tab-separated trace a
    processor model writes and a disassembly listing, shows the rows, the state of
    the selected row and the line at its program counter, and searches the rows.

    [viewer] holds the variables of the script and what it wrote into the page;
    the handlers are computations on it that may throw ([stM]), and [event] lists
    what the user and the loader can do.  The theorems: every reachable state is
    well formed, the marked rows included; with a trace loaded no event throws; a search finds exactly the
    rows that match and the two buttons go round them; written tables read back;
    a refused file changes nothing but the error banner. *)
From stdpp Require Import gmap.
From S2P Require Import Prelude JsString JsDouble JsState JsRegex.

(** ** Data *)
Abbreviation row := (gmap (list Z) (list Z)).

(** A line of the disassembly: its text and its address. *)
Record objline : Type := ObjLine { ol_text : jsstr; ol_addr : option Z }.

(** A field of the state view: column, value, the two style flags. *)
Record field : Type := Field { f_col : jsstr; f_value : jsstr; f_changed : bool; f_wide : bool }.

Inductive group : Type := Control | Psr | Globals | Outputs | Locals | Inputs.
#[export] Instance group_eq_dec : EqDecision group.
Proof. solve_decision. Defined.

(** The text next to the search field. *)
Inductive match_info : Type :=
| InfoEmpty
| InfoNoMatches
| InfoAt (pos total : Z).

(** The first seven fields are the variables of the script, the others the state of
    the page: the error banner, the search field, the number of table rows and the
    marks on them, the header and the state view, the marked line of the
    disassembly, the search status and whether the two buttons are disabled. *)
Record viewer : Type := Viewer {
  cols : list jsstr;
  rows : list row;
  selectedIdx : Z;
  matches : list Z;
  matchPos : Z;
  objdumpLines : option (list objline);
  error : option jsstr;
  search : jsstr;
  table : Z;
  selected_tr : option Z;
  matched_trs : list Z;
  rowHeader : option (list jsstr);
  stateView : list (group * list field);
  current_line : option Z;
  info : match_info;
  disabled : bool }.

Definition init : viewer :=
  Viewer [] [] (-1) [] (-1) None None [] 0 None [] None [] None InfoEmpty true.

(** ** Constants *)
Definition REQUIRED_TRACE_COLS : list jsstr := Eval vm_compute in
  map js ["seq"; "time"; "pc"; "event"; "detail"]%string.
Definition SEQ_COLS : list jsstr := REQUIRED_TRACE_COLS.
Definition CONTROL_ORDER : list jsstr := Eval vm_compute in
  map js ["mode"; "wim"; "y"; "tbr"; "pc"; "npc"]%string.

Definition psrRe : regex := Eval vm_compute in regex_lit "^psr_".
Definition globalsRe : regex := Eval vm_compute in regex_lit "^g[0-7]$".
Definition outputsRe : regex := Eval vm_compute in regex_lit "^o[0-7]$".
Definition localsRe : regex := Eval vm_compute in regex_lit "^l[0-7]$".
Definition inputsRe : regex := Eval vm_compute in regex_lit "^i[0-7]$".
Definition addrRe : regex := Eval vm_compute in regex_lit "^\s*([0-9a-fA-F]+):".
Definition decimalRe : regex := Eval vm_compute in regex_lit "^\d+$".
Definition extRe : regex := Eval vm_compute in regex_lit "\.[^./]+$".

Definition classify (col : jsstr) : option group :=
  if regex_test psrRe col then Some Psr
  else if regex_test globalsRe col then Some Globals
  else if regex_test outputsRe col then Some Outputs
  else if regex_test localsRe col then Some Locals
  else if regex_test inputsRe col then Some Inputs
  else if bool_decide (col ∈ CONTROL_ORDER) then Some Control
  else None.

(** ** Files *)

(** [text.replace(/\r/g, "").split("\n")] *)
Definition text_lines (text : jsstr) : list jsstr :=
  js_split (List.filter (fun c => negb (c =? 13)) text) [10].

(** The object of a line: a later column of the same name wins. *)
Fixpoint row_of (header parts : list jsstr) (obj : row) : row :=
  match header with
  | [] => obj
  | h :: header => row_of header (tail parts) (<[h := default [] (head parts)]> obj)
  end.

Definition tab : jsstr := [9].

Definition parseTSV (text : jsstr) : outcome (list jsstr * list row) :=
  match List.filter (fun l => 0 <? js_len l) (text_lines text) with
  | [] => Throw (TypeError "Cannot read properties of undefined (reading 'split')")
  | l :: lines =>
      let header := js_split l tab in
      Ret (header, map (fun line => row_of header (js_split line tab) ∅) lines)
  end.

Definition validateTraceHeader (header : list jsstr) : option jsstr :=
  if (js_len header <? 2) || negb (bool_decide (head header = Some (js "seq"))) then
    Some (js "Not a valid trace file: expected a tab-separated file with a 'seq' column first.")
  else
    match List.filter (fun c => negb (bool_decide (c ∈ header))) REQUIRED_TRACE_COLS with
    | [] => None
    | missing => Some (js "Not a valid trace file: missing required column(s): " ++ js_join (js ", ") missing)
    end.

Definition validateObjdump (lines : list objline) : option jsstr :=
  if existsb (fun l => match ol_addr l with Some _ => true | None => false end) lines then None
  else Some (js "Not a valid disassembly file: no address-labeled lines found (expected e.g. '  10:\t...').").

(** ** Numbers

    [Number] of an exact natural number is [to_number] of JsDouble. *)
Fixpoint radix_prefix (radix : Z) (s : jsstr) : jsstr :=
  match s with
  | c :: r => match hex_val c with
              | Some d => if d <? radix then c :: radix_prefix radix r else []
              | None => []
              end
  | [] => []
  end.

Definition radix_value (radix : Z) (s : jsstr) : Z :=
  foldl (fun acc c => radix * acc + default 0 (hex_val c)) 0 s.

Definition has_0x (s : jsstr) : bool :=
  match s with c :: d :: _ => (c =? 48) && ((d =? 120) || (d =? 88)) | _ => false end.

(** [parseInt(s, radix)] for the radices 10 and 16; [None] is NaN. *)
Definition parseInt (s : jsstr) (radix : Z) : option Z :=
  let s := drop_spaces s in
  let '(sign, s) := match s with
                    | c :: r => if c =? chr "-" then (-1, r) else if c =? chr "+" then (1, r) else (1, s)
                    | [] => (1, s)
                    end in
  let s := if (radix =? 16) && has_0x s then drop 2 s else s in
  match radix_prefix radix s with
  | [] => None
  | digits => Some (sign * to_number (radix_value radix digits))
  end.

(** Equality of two numbers: NaN is different from everything. *)
Definition same_number (a b : option Z) : bool :=
  match a, b with Some x, Some y => x =? y | _, _ => false end.

(** [n.toString(16)] of a natural number. *)
Definition hex_digit (d : Z) : Z := if d <? 10 then 48 + d else 87 + d.
Fixpoint hex_digits (fuel : nat) (n : Z) (acc : jsstr) : jsstr :=
  match fuel with
  | O => acc
  | S fuel => if n <? 16 then hex_digit n :: acc else hex_digits fuel (n / 16) (hex_digit (n mod 16) :: acc)
  end.
Definition toString16 (n : Z) : jsstr :=
  if n =? infinity then js "Infinity" else hex_digits (S (Z.to_nat (Z.log2 n))) n [].

Definition parseObjdumpAddr (line : jsstr) : option Z :=
  match regex_exec addrRe line with
  | Some m => parseInt (default [] (cap_get (m_caps m) 1)) 16
  | None => None
  end.

(** [basename] and the disassembly path of the automatic loader. *)
Definition basename (path : jsstr) : jsstr := default [] (last (js_split path (js "/"))).
Definition objdumpPath (objdump : option jsstr) (tracePath : jsstr) : jsstr :=
  match objdump with
  | Some (c :: p) => c :: p
  | _ => replace_first extRe (fun _ => js ".objdump") tracePath
  end.

(** ** Writes to the variables and the page *)
Definition showError (msg : option jsstr) (v : viewer) : viewer :=
  Viewer (cols v) (rows v) (selectedIdx v) (matches v) (matchPos v) (objdumpLines v)
    msg (search v) (table v) (selected_tr v) (matched_trs v) (rowHeader v)
    (stateView v) (current_line v) (info v) (disabled v).

Definition set_trace (header : list jsstr) (data : list row) (v : viewer) : viewer :=
  Viewer header data (selectedIdx v) [] (-1) (objdumpLines v)
    (error v) (search v) (table v) (selected_tr v) (matched_trs v) (rowHeader v)
    (stateView v) (current_line v) (info v) (disabled v).

Definition set_table (n : Z) (v : viewer) : viewer :=
  Viewer (cols v) (rows v) (selectedIdx v) (matches v) (matchPos v) (objdumpLines v)
    (error v) (search v) n None [] (rowHeader v)
    (stateView v) (current_line v) (info v) (disabled v).

Definition set_matches (m : list Z) (pos : Z) (marked : list Z) (v : viewer) : viewer :=
  Viewer (cols v) (rows v) (selectedIdx v) m pos (objdumpLines v)
    (error v) (search v) (table v) (selected_tr v) marked (rowHeader v)
    (stateView v) (current_line v) (info v) (disabled v).

Definition set_selected (idx : Z) (tr : option Z) (v : viewer) : viewer :=
  Viewer (cols v) (rows v) idx (matches v) (matchPos v) (objdumpLines v)
    (error v) (search v) (table v) tr (matched_trs v) (rowHeader v)
    (stateView v) (current_line v) (info v) (disabled v).

Definition set_header (h : option (list jsstr)) (v : viewer) : viewer :=
  Viewer (cols v) (rows v) (selectedIdx v) (matches v) (matchPos v) (objdumpLines v)
    (error v) (search v) (table v) (selected_tr v) (matched_trs v) h
    (stateView v) (current_line v) (info v) (disabled v).

Definition set_stateView (s : list (group * list field)) (v : viewer) : viewer :=
  Viewer (cols v) (rows v) (selectedIdx v) (matches v) (matchPos v) (objdumpLines v)
    (error v) (search v) (table v) (selected_tr v) (matched_trs v) (rowHeader v)
    s (current_line v) (info v) (disabled v).

Definition set_objdump (l : list objline) (v : viewer) : viewer :=
  Viewer (cols v) (rows v) (selectedIdx v) (matches v) (matchPos v) (Some l)
    (error v) (search v) (table v) (selected_tr v) (matched_trs v) (rowHeader v)
    (stateView v) None (info v) (disabled v).

Definition set_current (i : option Z) (v : viewer) : viewer :=
  Viewer (cols v) (rows v) (selectedIdx v) (matches v) (matchPos v) (objdumpLines v)
    (error v) (search v) (table v) (selected_tr v) (matched_trs v) (rowHeader v)
    (stateView v) i (info v) (disabled v).

Definition set_search (q : jsstr) (v : viewer) : viewer :=
  Viewer (cols v) (rows v) (selectedIdx v) (matches v) (matchPos v) (objdumpLines v)
    (error v) q (table v) (selected_tr v) (matched_trs v) (rowHeader v)
    (stateView v) (current_line v) (info v) (disabled v).

Definition set_info (i : match_info) (d : bool) (v : viewer) : viewer :=
  Viewer (cols v) (rows v) (selectedIdx v) (matches v) (matchPos v) (objdumpLines v)
    (error v) (search v) (table v) (selected_tr v) (matched_trs v) (rowHeader v)
    (stateView v) (current_line v) i d.

(** ** Tables and views *)

(** [classList.add("evt-" + r.event)] refuses a token with white space. *)
Definition ascii_space (c : Z) : bool :=
  (c =? 9) || (c =? 10) || (c =? 12) || (c =? 13) || (c =? 32).
Definition event_token_ok (r : row) : bool :=
  negb (existsb ascii_space (default (js "undefined") (r !! js "event"))).

Fixpoint rows_before_bad (rs : list row) : nat :=
  match rs with
  | r :: rs => if event_token_ok r then S (rows_before_bad rs) else 0%nat
  | [] => 0%nat
  end.

Definition buildLeftTable : stM viewer unit :=
  v ← get_st;
  modify_st (set_table (Z.of_nat (rows_before_bad (rows v)))) ;;
  if forallb event_token_ok (rows v) then mret tt else throw_st (PlainError "InvalidCharacterError").

(** Stable sort of columns by their place in [CONTROL_ORDER]. *)
Definition control_rank (c : jsstr) : Z :=
  match list_find (fun d => d = c) CONTROL_ORDER with Some (i, _) => Z.of_nat i | None => -1 end.
Fixpoint insert_control (c : jsstr) (l : list jsstr) : list jsstr :=
  match l with
  | [] => [c]
  | d :: l' => if control_rank c <? control_rank d then c :: l else d :: insert_control c l'
  end.
Definition sort_control (l : list jsstr) : list jsstr := foldl (fun acc c => insert_control c acc) [] l.

Definition group_cols (columns : list jsstr) (g : group) : list jsstr :=
  let l := List.filter (fun c => bool_decide (classify c = Some g)) columns in
  if decide (g = Control) then sort_control l else l.

Definition group_order : list group := [Control; Psr; Globals; Outputs; Locals; Inputs].

Definition field_of (prev : option row) (cur : row) (col : jsstr) : outcome field :=
  match cur !! col with
  | None => Throw (TypeError "Cannot read properties of undefined (reading 'length')")
  | Some value =>
      let changed := match prev with Some p => negb (bool_decide (p !! col = Some value)) | None => false end in
      Ret (Field col value changed (4 <? js_len value))
  end.

(** The groups that have columns, in their fixed order. *)
Definition groups_view (columns : list jsstr) (prev : option row) (cur : row) (gs : list group)
    : outcome (list (group * list field)) :=
  mapM (fun g => fs ← mapM (field_of prev cur) (group_cols columns g); Ret (g, fs))
    (List.filter (fun g => negb (bool_decide (group_cols columns g = []))) gs).

Definition renderRowHeader (idx : Z) : stM viewer unit :=
  v ← get_st;
  cur ← lift (js_at (rows v) idx);
  modify_st (set_header (Some (map (fun c => default (js "undefined") (cur !! c)) SEQ_COLS))).

Definition renderState (idx : Z) : stM viewer unit :=
  modify_st (set_stateView []) ;;
  v ← get_st;
  cur ← lift (js_at (rows v) idx);
  view ← lift (groups_view (cols v) (if 0 <? idx then js_get (rows v) (idx - 1) else None) cur group_order);
  modify_st (set_stateView view).

(** The first index that satisfies a test, as [findIndex]. *)
Fixpoint findIndex {A} (p : A -> bool) (l : list A) (i : Z) : option Z :=
  match l with
  | [] => None
  | x :: l => if p x then Some i else findIndex p l (i + 1)
  end.

Definition has_addr (pc : Z) (l : objline) : bool := bool_decide (ol_addr l = Some pc).

Definition highlightObjdumpForPC (pcStr : option jsstr) : stM viewer unit :=
  v ← get_st;
  match objdumpLines v with
  | None => mret tt
  | Some lines =>
      modify_st (set_current None) ;;
      match parseInt (default (js "undefined") pcStr) 16 with
      | None => mret tt
      | Some pc =>
          match findIndex (has_addr pc) lines 0 with
          | None => mret tt
          | Some i => modify_st (set_current (Some i))
          end
      end
  end.

Definition selectRow (idx : Z) : stM viewer unit :=
  v ← get_st;
  modify_st (set_selected idx (if (0 <=? idx) && (idx <? table v) then Some idx else None)) ;;
  renderRowHeader idx ;;
  renderState idx ;;
  cur ← lift (js_at (rows v) idx);
  highlightObjdumpForPC (cur !! js "pc").

(** ** Searching *)
Record query : Type := Query { q_field : option jsstr; q_value : jsstr }.

Definition FIELD_ALIASES (f : jsstr) : option jsstr :=
  if decide (f = js "t") then Some (js "time")
  else if decide (f = js "sr") then Some (js "seq")
  else if decide (f = js "pc") then Some (js "pc")
  else None.

(** Names every object inherits: [FIELD_ALIASES[f]] is a function or an object. *)
Definition object_names : list jsstr := Eval vm_compute in
  map js ["constructor"; "__defineGetter__"; "__defineSetter__"; "hasOwnProperty"; "__lookupGetter__";
          "__lookupSetter__"; "isPrototypeOf"; "propertyIsEnumerable"; "toString"; "valueOf";
          "__proto__"; "toLocaleString"]%string.

Section lower.
Context (toLowerCase : jsstr -> jsstr).

Definition evalQuery (columns : list jsstr) (raw : jsstr) : option query :=
  let q := js_trim raw in
  match q with
  | [] => None
  | _ =>
      let eq := indexOf q (js "=") 0 in
      let plain := Some (Query None q) in
      if 0 <? eq then
        let fieldRaw := toLowerCase (js_trim (js_slice q 0 eq)) in
        let value := js_trim (js_slice_from q (eq + 1)) in
        if bool_decide (fieldRaw ∈ object_names) then plain else
        let fld := default fieldRaw (FIELD_ALIASES fieldRaw) in
        if bool_decide (fld ∈ columns) then Some (Query (Some fld) value) else plain
      else plain
  end.

Definition stripHex (s : jsstr) : jsstr := if has_0x s then drop 2 s else s.

Definition valuesMatch (cell : option jsstr) (q : jsstr) : bool :=
  let cell := js_trim (default [] cell) in
  let q := js_trim q in
  if has_0x cell && has_0x q then
    same_number (parseInt (stripHex cell) 16) (parseInt (stripHex q) 16)
  else if has_0x cell && regex_test decimalRe q then
    same_number (parseInt (stripHex cell) 16) (parseInt q 10)
  else if negb (has_0x cell) && regex_test decimalRe cell && regex_test decimalRe q then
    same_number (parseInt cell 10) (parseInt q 10)
  else bool_decide (toLowerCase cell = toLowerCase q).

Definition rowMatchesQuery (columns : list jsstr) (r : row) (q : query) : bool :=
  match q_field q with
  | Some (c :: f) => valuesMatch (r !! (c :: f)) (q_value q)
  | _ =>
      let needle := toLowerCase (q_value q) in
      existsb (fun c => 0 <=? indexOf (toLowerCase (default [] (r !! c))) needle 0) columns
  end.

(** Indices of the rows that match, in order. *)
Fixpoint matching (p : row -> bool) (rs : list row) (i : Z) : list Z :=
  match rs with
  | [] => []
  | r :: rs => if p r then i :: matching p rs (i + 1) else matching p rs (i + 1)
  end.

Definition updateMatchInfo : stM viewer unit :=
  modify_st (fun v =>
    set_info
      (match matches v with
       | [] => match search v with [] => InfoEmpty | _ => InfoNoMatches end
       | m => InfoAt (matchPos v + 1) (js_len m)
       end)
      (js_len (matches v) <? 2) v).

Definition doSearch : stM viewer unit :=
  v ← get_st;
  match evalQuery (cols v) (search v) with
  | None => modify_st (set_matches [] (-1) []) ;; updateMatchInfo
  | Some q =>
      let m := matching (fun r => rowMatchesQuery (cols v) r q) (rows v) 0 in
      let shown := List.filter (fun i => i <? table v) m in
      match m with
      | [] => modify_st (set_matches [] (-1) []) ;; updateMatchInfo
      | i :: _ => modify_st (set_matches m 0 shown) ;; selectRow i ;; updateMatchInfo
      end
  end.

Definition step (delta : Z) : stM viewer unit :=
  v ← get_st;
  match matches v with
  | [] => mret tt
  | m =>
      let pos := Z.rem (matchPos v + delta + js_len m) (js_len m) in
      modify_st (set_matches m pos (matched_trs v)) ;;
      idx ← lift (js_at m pos);
      selectRow idx ;;
      updateMatchInfo
  end.

Definition selectRowForAddr (addr : Z) : stM viewer unit :=
  v ← get_st;
  match findIndex (fun r => valuesMatch (r !! js "pc") (js "0x" ++ toString16 addr)) (rows v) 0 with
  | Some idx => selectRow idx
  | None => mret tt
  end.

(** ** Loading *)
Definition loadTraceText (text : jsstr) : stM viewer bool :=
  parsed ← lift (parseTSV text);
  match validateTraceHeader parsed.1 with
  | Some err => modify_st (showError (Some err)) ;; mret false
  | None =>
      modify_st (showError None) ;;
      modify_st (set_trace parsed.1 parsed.2) ;;
      buildLeftTable ;;
      (match parsed.2 with [] => mret tt | _ => selectRow 0 end) ;;
      updateMatchInfo ;;
      mret true
  end.

Definition loadObjdumpText (text : jsstr) : stM viewer bool :=
  let lines := map (fun line => ObjLine line (parseObjdumpAddr line)) (text_lines text) in
  match validateObjdump lines with
  | Some err => modify_st (showError (Some err)) ;; mret false
  | None =>
      modify_st (showError None) ;;
      modify_st (set_objdump lines) ;;
      v ← get_st;
      (if 0 <=? selectedIdx v then
         cur ← lift (js_at (rows v) (selectedIdx v));
         highlightObjdumpForPC (cur !! js "pc")
       else mret tt) ;;
      mret true
  end.

(** ** Events

    What reaches the script: files (picked or fetched), typing, the Enter key, the
    two buttons, the arrow keys outside the search field, clicks on a table row and
    on a line of the disassembly. *)
Inductive event : Type :=
| LoadTrace (text : jsstr)
| LoadObjdump (text : jsstr)
| TypeSearch (q : jsstr)
| Enter
| Next
| Prev
| ArrowDown
| ArrowUp
| ClickRow (i : Z)
| ClickLine (i : Z).

Definition handle (e : event) : stM viewer unit :=
  v ← get_st;
  match e with
  | LoadTrace text => loadTraceText text ;; mret tt
  | LoadObjdump text => loadObjdumpText text ;; mret tt
  | TypeSearch q => modify_st (set_search q)
  | Enter => doSearch
  | Next => if disabled v then mret tt else step 1
  | Prev => if disabled v then mret tt else step (-1)
  | ArrowDown => if selectedIdx v <? js_len (rows v) - 1 then selectRow (selectedIdx v + 1) else mret tt
  | ArrowUp => if 0 <? selectedIdx v then selectRow (selectedIdx v - 1) else mret tt
  | ClickRow i => if (0 <=? i) && (i <? table v) then selectRow i else mret tt
  | ClickLine i =>
      match objdumpLines v with
      | Some lines => match js_get lines i with
                      | Some (ObjLine _ (Some addr)) => selectRowForAddr addr
                      | _ => mret tt
                      end
      | None => mret tt
      end
  end.

(** The page after a list of events, exceptions reported and forgotten. *)
Definition run (es : list event) (v : viewer) : viewer := foldl (fun v e => (handle e v).1) v es.
End lower.

(** ** Rows have every column *)
Lemma row_of_total header parts obj c : c ∈ header -> is_Some (row_of header parts obj !! c).
Proof.
  assert (forall header parts (obj : row), is_Some (obj !! c) -> is_Some (row_of header parts obj !! c)) as Hk.
  { clear. induction header as [|h header IH]; intros parts obj Ho; [done|]. cbn [row_of]. apply IH.
    destruct (decide (h = c)) as [->|]; [rewrite lookup_insert_eq; by eexists|by rewrite lookup_insert_ne]. }
  revert parts obj. induction header as [|h header IH]; intros parts obj Hc; [by apply elem_of_nil in Hc|].
  cbn [row_of]. apply elem_of_cons in Hc as [->|Hc]; [|by apply IH].
  apply Hk. rewrite lookup_insert_eq. by eexists.
Qed.

Definition typed_row (columns : list jsstr) (r : row) : Prop := Forall (fun c => is_Some (r !! c)) columns.

Lemma row_of_typed header parts : typed_row header (row_of header parts ∅).
Proof. apply Forall_forall. intros c. apply row_of_total. Qed.

Lemma parseTSV_typed text h d : parseTSV text = Ret (h, d) -> Forall (typed_row h) d.
Proof.
  unfold parseTSV. destruct (List.filter _ _) as [|l ls]; [done|]. intros [= <- <-].
  apply Forall_map, Forall_forall. intros x _. apply row_of_typed.
Qed.

Lemma valid_header h : validateTraceHeader h = None -> Forall (fun c => c ∈ h) REQUIRED_TRACE_COLS.
Proof.
  unfold validateTraceHeader. case_match; [done|]. destruct (List.filter _ _) as [|m ms] eqn:E; [|done]. intros _.
  apply Forall_forall. intros c Hc. destruct (decide (c ∈ h)) as [|Hn]; [done|].
  assert (In c (List.filter (fun c => negb (bool_decide (c ∈ h))) REQUIRED_TRACE_COLS)) as Hin.
  { apply filter_In. split; [by apply list_elem_of_In|]. by rewrite bool_decide_false. }
  rewrite E in Hin. by apply in_nil in Hin.
Qed.

(** ** Well-formed pages *)
Definition line_ok (l : objline) : Prop := forall a, ol_addr l = Some a -> 0 <= a.

Record wf (v : viewer) : Prop := Wf {
  wf_rows : Forall (typed_row (cols v)) (rows v);
  wf_cols : rows v <> [] -> Forall (fun c => c ∈ cols v) REQUIRED_TRACE_COLS;
  wf_selected : -1 <= selectedIdx v;
  wf_table : 0 <= table v <= js_len (rows v);
  wf_tr : forall i, selected_tr v = Some i -> i = selectedIdx v /\ 0 <= i < table v;
  wf_matches : Forall (fun i => 0 <= i < js_len (rows v)) (matches v);
  wf_sorted : StronglySorted Z.lt (matches v);
  wf_marked : matched_trs v = List.filter (fun i => i <? table v) (matches v);
  wf_pos : (matches v = [] /\ matchPos v = -1) \/ 0 <= matchPos v < js_len (matches v);
  wf_current : forall i, current_line v = Some i ->
    exists ls l a, objdumpLines v = Some ls /\ js_get ls i = Some l /\ ol_addr l = Some a }.

Lemma init_wf : wf init.
Proof. by split; try constructor. Qed.

(** The rest of a page: what well-formedness does not look at. *)
Lemma wf_showError m v : wf v -> wf (showError m v).
Proof. by intros []. Qed.
Lemma wf_set_header h v : wf v -> wf (set_header h v).
Proof. by intros []. Qed.
Lemma wf_set_stateView s v : wf v -> wf (set_stateView s v).
Proof. by intros []. Qed.
Lemma wf_set_search q v : wf v -> wf (set_search q v).
Proof. by intros []. Qed.
Lemma wf_set_info i d v : wf v -> wf (set_info i d v).
Proof. by intros []. Qed.

Lemma wf_set_current i v : wf v ->
  (forall j, i = Some j -> exists ls l a, objdumpLines v = Some ls /\ js_get ls j = Some l /\ ol_addr l = Some a) ->
  wf (set_current i v).
Proof. by intros [] Hi. Qed.

Lemma wf_set_selected idx v : wf v -> 0 <= idx ->
  wf (set_selected idx (if (0 <=? idx) && (idx <? table v) then Some idx else None) v).
Proof.
  intros [] Hi. split; cbn; try done; [lia|]. intros i. case_match eqn:E; [|done]. intros [= <-]. bool_props. done.
Qed.

Create HintDb wf.
#[local] Hint Resolve wf_showError wf_set_header wf_set_stateView wf_set_search wf_set_info : wf.

(** A computation that takes well-formed pages to well-formed pages, whether it
    returns or throws. *)
Definition safe {A} (m : stM viewer A) : Prop := forall v, wf v -> wf (m v).1.

Lemma safe_ret {A} (a : A) : safe (mret a).
Proof. intros v. done. Qed.
Lemma safe_lift {A} (m : outcome A) : safe (lift m).
Proof. intros v. done. Qed.
Lemma safe_throw {A} e : safe (throw_st (A := A) e).
Proof. intros v. done. Qed.
Lemma safe_modify f : (forall v, wf v -> wf (f v)) -> safe (modify_st f).
Proof. intros Hf v. apply Hf. Qed.
Lemma safe_bind {A B} (m : stM viewer A) (k : A -> stM viewer B) :
  safe m -> (forall a, safe (k a)) -> safe (m ≫= k).
Proof.
  intros Hm Hk v Hv. unfold mbind, stM_bind. specialize (Hm v Hv).
  destruct (m v) as [v' [a|e|]]; cbn in *; [by apply Hk|done|done].
Qed.
Lemma safe_get {B} (k : viewer -> stM viewer B) : (forall v, wf v -> wf (k v v).1) -> safe (get_st ≫= k).
Proof. intros Hk v Hv. by apply Hk. Qed.
#[local] Hint Resolve safe_ret safe_lift safe_throw : wf.

Lemma findIndex_spec {A} (p : A -> bool) l i0 i : findIndex p l i0 = Some i ->
  exists x, js_get l (i - i0) = Some x /\ p x = true /\ i0 <= i < i0 + js_len l /\
    forall j y, i0 <= j < i -> js_get l (j - i0) = Some y -> p y = false.
Proof.
  revert i0. induction l as [|x l IH]; intros i0; cbn [findIndex]; [done|]. rewrite js_len_cons.
  pose proof (js_len_nonneg l). destruct (p x) eqn:Ep.
  - intros [= <-]. exists x. rewrite Z.sub_diag. split; [done|]. split; [done|]. split; [lia|]. intros j y Hj. lia.
  - intros (y & Hy & Hp & Hr & Hb)%IH. exists y.
    assert (forall k, i0 + 1 <= k -> js_get (x :: l) (k - i0) = js_get l (k - (i0 + 1))) as Hs.
    { intros k Hk. unfold js_get. destruct (Z.ltb_spec (k - i0) 0); [lia|].
      destruct (Z.ltb_spec (k - (i0 + 1)) 0); [lia|].
      replace (Z.to_nat (k - i0)) with (S (Z.to_nat (k - (i0 + 1)))) by lia. done. }
    rewrite Hs by lia. split; [done|]. split; [done|]. split; [lia|].
    intros j z Hj Hz. destruct (Z.eq_dec j i0) as [->|].
    + rewrite Z.sub_diag in Hz. by injection Hz as <-.
    + rewrite Hs in Hz by lia. eapply Hb; [|exact Hz]. lia.
Qed.

Lemma safe_highlight pc : safe (highlightObjdumpForPC pc).
Proof.
  apply safe_get. intros v Hv. destruct (objdumpLines v) as [lines|] eqn:El; [|done].
  assert (wf (set_current None v)) as Hv1 by (by apply wf_set_current).
  unfold mbind, stM_bind, modify_st. cbn [fst snd]. destruct (parseInt _ _) as [n|]; [|done].
  destruct (findIndex (has_addr n) lines 0) as [i|] eqn:Ei; [|done]. cbn [fst].
  apply wf_set_current; [done|]. intros j [= <-]. apply findIndex_spec in Ei as (l & Hl & Ha & _).
  rewrite Z.sub_0_r in Hl. apply bool_decide_eq_true in Ha. cbn. by exists lines, l, n.
Qed.

Lemma safe_renderRowHeader idx : safe (renderRowHeader idx).
Proof.
  apply safe_get. intros v Hv.
  apply (safe_bind (lift _) _ (safe_lift _)); [|done]. intros cur. apply safe_modify. auto with wf.
Qed.

Lemma safe_renderState idx : safe (renderState idx).
Proof.
  apply safe_bind; [apply safe_modify; auto with wf|]. intros _. apply safe_get. intros v Hv.
  apply (safe_bind (lift _) _ (safe_lift _)); [|done]. intros cur.
  apply safe_bind; [auto with wf|]. intros s. apply safe_modify. auto with wf.
Qed.
#[local] Hint Resolve safe_highlight safe_renderRowHeader safe_renderState : wf.

Lemma safe_selectRow idx : 0 <= idx -> safe (selectRow idx).
Proof.
  intros Hi. apply safe_get. intros v Hv.
  apply (safe_bind (renderRowHeader idx)
    (fun _ => renderState idx ;; cur ← lift (js_at (rows v) idx); highlightObjdumpForPC (cur !! js "pc"))).
  - auto with wf.
  - intros _. apply safe_bind; [auto with wf|]. intros _. apply safe_bind; auto with wf.
  - by apply wf_set_selected.
Qed.

Lemma safe_updateMatchInfo : safe updateMatchInfo.
Proof. apply safe_modify. auto with wf. Qed.
#[local] Hint Resolve safe_selectRow safe_updateMatchInfo : wf.

Lemma wf_no_matches v : wf v -> wf (set_matches [] (-1) [] v).
Proof. intros []. split; cbn; try done; [constructor..|by left]. Qed.

Lemma matching_spec p rs i0 :
  Forall (fun i => i0 <= i < i0 + js_len rs) (matching p rs i0) /\ StronglySorted Z.lt (matching p rs i0) /\
  forall i, i ∈ matching p rs i0 <-> exists r, 0 <= i - i0 /\ js_get rs (i - i0) = Some r /\ p r = true.
Proof.
  revert i0. induction rs as [|r rs IH]; intros i0; cbn [matching].
  - split; [constructor|]. split; [constructor|]. intros i. rewrite elem_of_nil. split; [done|].
    intros (r & _ & H & _). by apply js_get_Some_range in H as [??%Z.lt_nge].
  - destruct (IH (i0 + 1)) as (H1 & H2 & H3). rewrite js_len_cons. pose proof (js_len_nonneg rs) as Hl.
    assert (Forall (fun i => i0 <= i < i0 + (1 + js_len rs)) (matching p rs (i0 + 1))) as H1'.
    { eapply Forall_impl; [exact H1|]. cbn. lia. }
    assert (Forall (Z.lt i0) (matching p rs (i0 + 1))) as H1''.
    { eapply Forall_impl; [exact H1|]. cbn. lia. }
    assert (forall i, i ∈ matching p rs (i0 + 1) <->
              exists x, 1 <= i - i0 /\ js_get (r :: rs) (i - i0) = Some x /\ p x = true) as H3'.
    { intros i. rewrite H3. split; intros (x & Hi & Hx & Hp); exists x.
      - split; [lia|]. split; [|done]. revert Hx. unfold js_get.
        destruct (Z.ltb_spec (i - (i0 + 1)) 0); [lia|]. destruct (Z.ltb_spec (i - i0) 0); [lia|].
        by replace (Z.to_nat (i - i0)) with (S (Z.to_nat (i - (i0 + 1)))) by lia.
      - split; [lia|]. split; [|done]. revert Hx. unfold js_get.
        destruct (Z.ltb_spec (i - (i0 + 1)) 0); [lia|]. destruct (Z.ltb_spec (i - i0) 0); [lia|].
        by replace (Z.to_nat (i - i0)) with (S (Z.to_nat (i - (i0 + 1)))) by lia. }
    assert (forall i, (exists x, 0 <= i - i0 /\ js_get (r :: rs) (i - i0) = Some x /\ p x = true) <->
              (i = i0 /\ p r = true) \/ i ∈ matching p rs (i0 + 1)) as H4.
    { intros i. rewrite H3'. split.
      - intros (x & Hi & Hx & Hp). destruct (Z.eq_dec i i0) as [->|].
        + rewrite Z.sub_diag in Hx. injection Hx as <-. by left.
        + right. exists x. split; [lia|done].
      - intros [[-> Hp]|(x & Hi & Hx & Hp)].
        + exists r. rewrite Z.sub_diag. done.
        + exists x. split; [lia|done]. }
    destruct (p r) eqn:Ep.
    + split; [constructor; [lia|done]|]. split; [by constructor|]. intros i. rewrite H4, elem_of_cons. naive_solver.
    + split; [done|]. split; [done|]. intros i. rewrite H4. naive_solver.
Qed.

Section lower_proofs.
Context (toLowerCase : jsstr -> jsstr).

Lemma safe_doSearch : safe (doSearch toLowerCase).
Proof.
  apply safe_get. intros v Hv. destruct (evalQuery toLowerCase (cols v) (search v)) as [q|].
  2: { apply (safe_bind (modify_st _)); [apply safe_modify; apply wf_no_matches|auto with wf|done]. }
  destruct (matching_spec (fun r => rowMatchesQuery toLowerCase (cols v) r q) (rows v) 0) as (H1 & H2 & _).
  destruct (matching _ (rows v) 0) as [|i m] eqn:Em.
  { apply (safe_bind (modify_st _)); [apply safe_modify; apply wf_no_matches|auto with wf|done]. }
  set (shown := List.filter (fun j => j <? table v) (i :: m)).
  assert (wf (set_matches (i :: m) 0 shown v)) as Hv1.
  { destruct Hv. split; cbn; try done. right. rewrite js_len_cons. pose proof (js_len_nonneg m). lia. }
  apply (safe_bind (selectRow i) (fun _ => updateMatchInfo)); [|auto with wf|exact Hv1].
  apply safe_selectRow. apply Forall_inv in H1. lia.
Qed.

Lemma step_pos v delta : wf v -> matches v <> [] -> -1 <= delta ->
  0 <= Z.rem (matchPos v + delta + js_len (matches v)) (js_len (matches v)) < js_len (matches v).
Proof.
  intros Hv Hm Hd. destruct (wf_pos v Hv) as [[? _]|Hp]; [done|].
  apply Z.rem_bound_pos; lia.
Qed.

Lemma wf_set_pos pos v : wf v -> 0 <= pos < js_len (matches v) ->
  wf (set_matches (matches v) pos (matched_trs v) v).
Proof. intros [] Hp. split; cbn; try done. by right. Qed.

Lemma safe_step delta : -1 <= delta -> safe (step delta).
Proof.
  intros Hd. apply safe_get. intros v Hv. destruct (matches v) as [|i0 m0] eqn:Em; [done|]. rewrite <- Em.
  assert (matches v <> []) as Hne by (by rewrite Em).
  pose proof (step_pos v delta Hv Hne Hd) as Hp. set (pos := Z.rem _ _) in *.
  destruct (js_at_range (matches v) pos Hp) as (idx & Hg & E).
  assert (0 <= idx) as Hidx.
  { apply js_get_elem in Hg. pose proof (wf_matches v Hv) as HF. eapply Forall_forall in HF; [|exact Hg]. lia. }
  unfold mbind, stM_bind, modify_st, lift. cbn [fst snd]. fold pos. rewrite E.
  apply (safe_bind (selectRow idx) (fun _ => updateMatchInfo)); [by apply safe_selectRow|auto with wf|].
  by apply wf_set_pos.
Qed.
#[local] Hint Resolve safe_doSearch safe_step : wf.

Lemma safe_forAddr addr : safe (selectRowForAddr toLowerCase addr).
Proof.
  apply safe_get. intros v Hv. destruct (findIndex _ (rows v) 0) as [i|] eqn:E; [|done].
  apply safe_selectRow; [|done]. apply findIndex_spec in E as (r & _ & _ & Hi & _). lia.
Qed.

(** Loading a trace: the new table, then the selection. *)
Lemma rows_before_bad_le rs : (rows_before_bad rs <= length rs)%nat.
Proof. induction rs as [|r rs IH]; cbn; [lia|]. case_match; lia. Qed.

Lemma wf_loaded header data v : wf v -> Forall (typed_row header) data ->
  Forall (fun c => c ∈ header) REQUIRED_TRACE_COLS ->
  wf (set_table (Z.of_nat (rows_before_bad data)) (set_trace header data v)).
Proof.
  intros [] Hd Hh. pose proof (rows_before_bad_le data).
  split; cbn; try done; try constructor; try done; unfold js_len; lia.
Qed.

Lemma safe_loadTrace text : safe (loadTraceText text).
Proof.
  intros v Hv. unfold loadTraceText, lift, mbind, stM_bind. destruct (parseTSV text) as [[h d]| |] eqn:Ep; [|done..].
  cbn [fst snd]. destruct (validateTraceHeader h) as [err|] eqn:Eh; [by apply wf_showError|].
  apply parseTSV_typed in Ep. apply valid_header in Eh. cbn.
  assert (wf (set_table (Z.of_nat (rows_before_bad d)) (set_trace h d (showError None v)))) as Hv1
    by (apply wf_loaded; [by apply wf_showError|done|done]).
  unfold buildLeftTable, get_st, modify_st, mbind, stM_bind. cbn [fst snd rows set_trace].
  destruct (forallb event_token_ok d); [|exact Hv1].
  change (wf (((match d with [] => mret tt | _ :: _ => selectRow 0 end) ;; updateMatchInfo ;; mret true)
    (set_table (Z.of_nat (rows_before_bad d)) (set_trace h d (showError None v)))).1).
  apply safe_bind; [destruct d; [auto with wf|by apply safe_selectRow]| |exact Hv1].
  intros _. apply safe_bind; auto with wf.
Qed.

Lemma safe_loadObjdump text : safe (loadObjdumpText text).
Proof.
  intros v Hv. unfold loadObjdumpText. destruct (validateObjdump _) as [err|]; [by apply wf_showError|].
  set (lines := map _ _).
  assert (wf (set_objdump lines (showError None v))) as Hv1.
  { apply (wf_showError None) in Hv. destruct Hv. by split. }
  unfold get_st, modify_st, mbind, stM_bind. cbn [fst snd].
  change (wf (((if 0 <=? selectedIdx v then
       cur ← lift (js_at (rows v) (selectedIdx v)); highlightObjdumpForPC (cur !! js "pc") else mret tt) ;; mret true)
      (set_objdump lines (showError None v))).1).
  apply safe_bind; [|auto with wf|exact Hv1]. case_match; [|auto with wf]. apply safe_bind; auto with wf.
Qed.
#[local] Hint Resolve safe_forAddr safe_loadTrace safe_loadObjdump : wf.

Lemma safe_handle e : safe (handle toLowerCase e).
Proof.
  apply safe_get. intros v Hv. destruct e; cbn [handle].
  - apply safe_bind; auto with wf.
  - apply safe_bind; auto with wf.
  - by apply wf_set_search.
  - by apply safe_doSearch.
  - case_match; [done|]. by apply safe_step.
  - case_match; [done|]. by apply safe_step.
  - case_match; [|done]. pose proof (wf_selected v Hv). apply safe_selectRow; [lia|done].
  - case_match eqn:E; [|done]. bool_props. apply safe_selectRow; [lia|done].
  - case_match eqn:E; [|done]. bool_props. by apply safe_selectRow.
  - repeat case_match; try done. by apply safe_forAddr.
Qed.

Lemma run_wf es v : wf v -> wf (run toLowerCase es v).
Proof.
  revert v. induction es as [|e es IH]; intros v Hv; [done|]. apply IH. by apply safe_handle.
Qed.
End lower_proofs.

(** ** What a selection writes *)
Lemma mapM_ret {A B} (f : A -> outcome B) l : (forall x, x ∈ l -> returns (f x)) ->
  exists ys, mapM f l = Ret ys.
Proof.
  induction l as [|x l IH]; intros H; [by exists []|].
  destruct (H x ltac:(left)) as [y Ey]. destruct IH as [ys E]; [intros z Hz; apply H; by right|].
  exists (y :: ys). cbn [mapM]. rewrite Ey. cbn [mbind outcome_bind]. by rewrite E.
Qed.

Lemma mapM_Forall2 {A B} (f : A -> outcome B) l ys : mapM f l = Ret ys -> Forall2 (fun x y => f x = Ret y) l ys.
Proof.
  revert ys. induction l as [|x l IH]; intros ys; cbn [mapM]; [by intros [= <-]|].
  destruct (f x) as [y| |] eqn:Ex; [|done..]. cbn [mbind outcome_bind].
  destruct (mapM f l) as [ys'| |]; [|done..]. intros [= <-]. constructor; auto.
Qed.

Lemma elem_insert_control c l x : x ∈ insert_control c l <-> x = c \/ x ∈ l.
Proof.
  induction l as [|d l IH]; cbn [insert_control]; [apply elem_of_cons|].
  case_match; rewrite !elem_of_cons, ?IH, ?elem_of_cons; tauto.
Qed.

Lemma elem_sort_control l x : x ∈ sort_control l <-> x ∈ l.
Proof.
  unfold sort_control. assert (forall acc, x ∈ foldl (fun acc c => insert_control c acc) acc l <-> x ∈ acc \/ x ∈ l) as H.
  { induction l as [|c l IH]; intros acc; cbn [foldl]; [rewrite elem_of_nil; tauto|].
    rewrite IH, elem_insert_control, elem_of_cons. tauto. }
  rewrite H, elem_of_nil. tauto.
Qed.

Lemma elem_group_cols columns g c : c ∈ group_cols columns g <-> c ∈ columns /\ classify c = Some g.
Proof.
  unfold group_cols. set (l := List.filter _ columns).
  assert (c ∈ l <-> c ∈ columns /\ classify c = Some g) as Hl.
  { subst l. rewrite !list_elem_of_In, filter_In. by rewrite bool_decide_eq_true. }
  case_decide; [by rewrite elem_sort_control|done].
Qed.

Definition control_le (a b : jsstr) : Prop := control_rank a <= control_rank b.

Lemma sort_control_sorted l : StronglySorted control_le (sort_control l).
Proof.
  unfold sort_control. assert (forall acc, StronglySorted control_le acc ->
    StronglySorted control_le (foldl (fun acc c => insert_control c acc) acc l)) as H; [|apply H; constructor].
  induction l as [|c l IH]; intros acc Ha; [done|]. cbn [foldl]. apply IH.
  induction Ha as [|d acc Ha IHa Hd]; cbn [insert_control]; [by repeat constructor|].
  destruct (Z.ltb_spec (control_rank c) (control_rank d)).
  - constructor; [by constructor|]. constructor; [unfold control_le; lia|].
    eapply Forall_impl; [exact Hd|]. unfold control_le. lia.
  - constructor; [done|]. apply Forall_forall. intros x [->|Hx]%elem_insert_control; [done|].
    eapply Forall_forall in Hd; [exact Hd|done].
Qed.

Lemma field_returns columns prev cur g c : typed_row columns cur -> c ∈ group_cols columns g ->
  returns (field_of prev cur c).
Proof.
  intros Ht [Hc _]%elem_group_cols. eapply Forall_forall in Ht; [|exact Hc]. destruct Ht as [x E].
  unfold field_of. rewrite E. by eexists.
Qed.

Lemma groups_view_returns columns prev cur gs : typed_row columns cur -> returns (groups_view columns prev cur gs).
Proof.
  intros Ht. unfold groups_view. destruct (mapM_ret (fun g => fs ← mapM (field_of prev cur) (group_cols columns g); Ret (g, fs))
    (List.filter (fun g => negb (bool_decide (group_cols columns g = []))) gs)) as [ys E]; [|by exists ys].
  intros g _. destruct (mapM_ret (field_of prev cur) (group_cols columns g)) as [fs ->]; [|by eexists].
  intros c. by apply field_returns.
Qed.

(** The line a program counter marks. *)
Definition pc_line (lines : list objline) (pc : option jsstr) : option Z :=
  match parseInt (default (js "undefined") pc) 16 with
  | Some n => findIndex (has_addr n) lines 0
  | None => None
  end.

Definition selected_page (idx : Z) (cur : row) (view : list (group * list field)) (v : viewer) : viewer :=
  let v1 := set_stateView view (set_header (Some (map (fun c => default (js "undefined") (cur !! c)) SEQ_COLS))
    (set_selected idx (if (0 <=? idx) && (idx <? table v) then Some idx else None) v)) in
  match objdumpLines v with
  | Some lines => set_current (pc_line lines (cur !! js "pc")) v1
  | None => v1
  end.

Definition previous (v : viewer) (idx : Z) : option row := if 0 <? idx then js_get (rows v) (idx - 1) else None.

Lemma selectRow_page v idx : Forall (typed_row (cols v)) (rows v) -> 0 <= idx < js_len (rows v) ->
  exists cur view, js_get (rows v) idx = Some cur /\
    groups_view (cols v) (previous v idx) cur group_order = Ret view /\
    selectRow idx v = (selected_page idx cur view v, Ret tt).
Proof.
  intros Ht Hi. destruct (js_at_range (rows v) idx Hi) as (cur & Hg & Ha).
  assert (typed_row (cols v) cur) as Hc.
  { apply js_get_elem in Hg. by eapply Forall_forall in Ht. }
  destruct (groups_view_returns (cols v) (previous v idx) cur group_order Hc) as [view Ev].
  exists cur, view. split; [done|]. split; [done|].
  unfold selectRow, renderRowHeader, renderState, get_st, modify_st, lift, mbind, stM_bind. cbn [fst snd].
  cbn [rows set_selected]. rewrite Ha. cbn [cols rows set_selected set_header set_stateView].
  rewrite Ha. unfold previous in Ev. rewrite Ev. cbn [rows set_selected set_header set_stateView].
  unfold highlightObjdumpForPC, selected_page, pc_line, get_st, modify_st, mbind, stM_bind.
  cbn [objdumpLines set_selected set_header set_stateView fst snd].
  destruct (objdumpLines v) as [lines|]; [|done].
  destruct (parseInt _ 16) as [n|]; [|done]. by destruct (findIndex (has_addr n) lines 0).
Qed.

(** What the selection leaves alone. *)
Definition same_data (v v' : viewer) : Prop :=
  cols v' = cols v /\ rows v' = rows v /\ matches v' = matches v /\ matchPos v' = matchPos v /\
  objdumpLines v' = objdumpLines v /\ table v' = table v /\ search v' = search v.

Lemma selected_page_data idx cur view v : same_data v (selected_page idx cur view v) /\
  selectedIdx (selected_page idx cur view v) = idx.
Proof. unfold selected_page. by destruct (objdumpLines v). Qed.

(** Pages with a selection exactly when there are rows. *)
Record good (v : viewer) : Prop := Good {
  good_wf : wf v;
  good_some : rows v <> [] -> 0 <= selectedIdx v < js_len (rows v);
  good_none : rows v = [] -> selectedIdx v = -1 }.

Lemma no_index (l : list row) i : l = [] -> ~ 0 <= i < js_len l.
Proof. intros ->. unfold js_len. cbn. lia. Qed.

Lemma select_good v idx : good v -> 0 <= idx < js_len (rows v) ->
  exists v', selectRow idx v = (v', Ret tt) /\ good v' /\ same_data v v' /\ selectedIdx v' = idx.
Proof.
  intros [Hw Hs Hn] Hi. destruct (selectRow_page v idx (wf_rows v Hw) Hi) as (cur & view & _ & _ & E).
  exists (selected_page idx cur view v). destruct (selected_page_data idx cur view v) as [Hd Hidx].
  split; [done|]. split; [|done]. pose proof (safe_selectRow idx ltac:(lia) v Hw) as Hw'. rewrite E in Hw'.
  destruct Hd as (_ & Hr & _). split; [done| |]; rewrite Hr, Hidx; [by intros _|].
  intros Hr0. by destruct (no_index _ idx Hr0).
Qed.

(** A computation that returns on good pages and keeps them good. *)
Definition returns_good {A} (m : stM viewer A) (v : viewer) : Prop :=
  exists a, (m v).2 = Ret a /\ good (m v).1.

Lemma info_good v : good v -> returns_good updateMatchInfo v.
Proof. intros [Hw Hs Hn]. exists tt. split; [done|]. split; [by apply safe_updateMatchInfo|done..]. Qed.

Lemma returns_good_bind {A B} (m : stM viewer A) (k : A -> stM viewer B) v :
  returns_good m v -> (forall a v', good v' -> returns_good (k a) v') -> returns_good (m ≫= k) v.
Proof.
  intros (a & Ha & Hg) Hk. unfold returns_good, mbind, stM_bind. destruct (m v) as [v' r]. cbn in *. subst r. by apply Hk.
Qed.

Lemma select_returns v idx : good v -> 0 <= idx < js_len (rows v) -> returns_good (selectRow idx) v.
Proof. intros Hg Hi. destruct (select_good v idx Hg Hi) as (v' & E & Hg' & _). exists tt. by rewrite E. Qed.

Lemma ret_good {A} (a : A) v : good v -> returns_good (mret a) v.
Proof. intros Hg. by exists a. Qed.

(** ** No event throws *)

(** Text that a model writes: a line at least, and if the header is accepted, rows
    whose event cells hold no white space. *)
Definition clean_trace (text : jsstr) : Prop :=
  exists h d, parseTSV text = Ret (h, d) /\
    (validateTraceHeader h = None -> d <> [] /\ forallb event_token_ok d = true).

Definition clean_event (e : event) : Prop :=
  match e with LoadTrace text => clean_trace text | _ => True end.

Section never_throws.
Context (toLowerCase : jsstr -> jsstr).

(** Changes of the page that keep the rows and the selection. *)
Lemma good_keep v v' : good v -> wf v' -> rows v' = rows v -> selectedIdx v' = selectedIdx v -> good v'.
Proof. intros [_ Hs Hn] Hw Hr Hi. split; [done| |]; by rewrite Hr, Hi. Qed.

Lemma modify_good f v : good v -> wf (f v) -> rows (f v) = rows v -> selectedIdx (f v) = selectedIdx v ->
  returns_good (modify_st f) v.
Proof. intros Hg Hw Hr Hi. exists tt. split; [done|]. by apply (good_keep v). Qed.

Lemma search_returns v : good v -> returns_good (doSearch toLowerCase) v.
Proof.
  intros Hg. pose proof (good_wf v Hg) as Hw. unfold doSearch.
  change (returns_good (match evalQuery toLowerCase (cols v) (search v) with
    | None => modify_st (set_matches [] (-1) []) ;; updateMatchInfo
    | Some q =>
        let m := matching (fun r => rowMatchesQuery toLowerCase (cols v) r q) (rows v) 0 in
        let shown := List.filter (fun i => i <? table v) m in
        match m with
        | [] => modify_st (set_matches [] (-1) []) ;; updateMatchInfo
        | i :: _ => modify_st (set_matches m 0 shown) ;; selectRow i ;; updateMatchInfo
        end
    end) v).
  assert (returns_good (modify_st (set_matches [] (-1) []) ;; updateMatchInfo) v) as Hno.
  { apply returns_good_bind; [|intros; by apply info_good].
    apply modify_good; [done|by apply wf_no_matches|done|done]. }
  destruct (evalQuery _ _ _) as [q|]; [|done].
  destruct (matching_spec (fun r => rowMatchesQuery toLowerCase (cols v) r q) (rows v) 0) as (H1 & H2 & _).
  cbv zeta. destruct (matching _ (rows v) 0) as [|i m]; [done|].
  set (shown := List.filter (fun j => j <? table v) (i :: m)).
  assert (wf (set_matches (i :: m) 0 shown v)) as Hw1.
  { destruct Hw. split; cbn; try done. right. rewrite js_len_cons. pose proof (js_len_nonneg m). lia. }
  change (returns_good (selectRow i ;; updateMatchInfo) (set_matches (i :: m) 0 shown v)).
  apply returns_good_bind; [|intros; by apply info_good].
  apply select_returns; [by apply (good_keep v)|]. apply Forall_inv in H1. cbn. lia.
Qed.

Lemma step_page v delta : good v -> -1 <= delta -> matches v <> [] ->
  let pos := Z.rem (matchPos v + delta + js_len (matches v)) (js_len (matches v)) in
  exists idx v', step delta v = updateMatchInfo v' /\ js_get (matches v) pos = Some idx /\
    good v' /\ selectedIdx v' = idx /\ matchPos v' = pos /\ matches v' = matches v /\
    0 <= pos < js_len (matches v).
Proof.
  intros Hg Hd Hne pos. pose proof (good_wf v Hg) as Hw.
  pose proof (step_pos v delta Hw Hne Hd) as Hp. fold pos in Hp.
  destruct (js_at_range (matches v) pos Hp) as (idx & Hget & Hat).
  pose proof (wf_set_pos pos v Hw Hp) as Hw1.
  assert (good (set_matches (matches v) pos (matched_trs v) v)) as Hg1 by (by apply (good_keep v)).
  assert (0 <= idx < js_len (rows v)) as Hi.
  { pose proof (wf_matches v Hw) as HF. apply js_get_elem in Hget. by eapply Forall_forall in HF. }
  destruct (select_good _ idx Hg1 Hi) as (v' & E & Hg' & (_ & _ & Hm & Hpos & _) & Hidx).
  exists idx, v'. split; [|done].
  unfold step, get_st, modify_st, lift, mbind, stM_bind. cbn [fst snd].
  destruct (matches v) as [|i0 m0] eqn:Em; [done|]. fold pos. cbn [fst snd].
  fold pos in Hat. rewrite Hat, E. done.
Qed.

Lemma step_returns v delta : good v -> -1 <= delta -> returns_good (step delta) v.
Proof.
  intros Hg Hd. destruct (decide (matches v = [])) as [Em|Hne].
  - exists tt. unfold step, get_st, mbind, stM_bind. cbn [fst snd]. by rewrite Em.
  - destruct (step_page v delta Hg Hd Hne) as (idx & v' & E & _ & Hg' & _).
    unfold returns_good. rewrite E. by apply info_good.
Qed.

(** The page after a trace, and after a disassembly, that is accepted. *)
Lemma loadTrace_page text v h d : wf v -> parseTSV text = Ret (h, d) -> validateTraceHeader h = None ->
  d <> [] -> forallb event_token_ok d = true ->
  let v1 := set_table (Z.of_nat (rows_before_bad d)) (set_trace h d (showError None v)) in
  exists cur view, wf v1 /\ js_get d 0 = Some cur /\ groups_view h None cur group_order = Ret view /\
    loadTraceText text v = ((updateMatchInfo (selected_page 0 cur view v1)).1, Ret true).
Proof.
  intros Hw Ep Eh Hne Hok v1.
  assert (wf v1) as Hw1.
  { pose proof (parseTSV_typed _ _ _ Ep). apply valid_header in Eh. apply wf_loaded; [by apply wf_showError|done|done]. }
  assert (0 <= 0 < js_len (rows v1)) as Hi.
  { cbn. destruct d as [|r0 d]; [done|]. rewrite js_len_cons. pose proof (js_len_nonneg d). lia. }
  destruct (selectRow_page v1 0 (wf_rows v1 Hw1) Hi) as (cur & view & Hcur & Hview & E).
  exists cur, view. split; [done|]. split; [done|]. split; [done|].
  unfold loadTraceText, lift, mbind, stM_bind. rewrite Ep. cbn [fst snd]. rewrite Eh.
  unfold buildLeftTable, get_st, modify_st, mbind, stM_bind. cbn [fst snd rows set_trace]. rewrite Hok.
  cbn [mret stM_ret]. fold v1. destruct d as [|r0 d]; [done|]. by rewrite E.
Qed.

Lemma loadTrace_returns text v : good v -> clean_trace text -> returns_good (loadTraceText text) v.
Proof.
  intros Hg (h & d & Ep & Hd). destruct (validateTraceHeader h) as [err|] eqn:Eh.
  { exists false. unfold loadTraceText, lift, mbind, stM_bind. rewrite Ep. cbn [fst snd]. rewrite Eh.
    split; [done|]. by apply (good_keep v); [|apply wf_showError, Hg|..]. }
  destruct (Hd eq_refl) as [Hne Hok].
  destruct (loadTrace_page text v h d (good_wf v Hg) Ep Eh Hne Hok) as (cur & view & Hw1 & Hcur & _ & E).
  pose proof (safe_loadTrace text v (good_wf v Hg)) as Hw. exists true. rewrite E in *. cbn [fst snd] in *.
  split; [done|]. set (v1 := set_table _ _) in *.
  destruct (selected_page_data 0 cur view v1) as [(_ & Hr & _) Hidx].
  split; [done| |]; cbn; rewrite Hr, Hidx; cbn [v1 rows set_table set_trace]; [|done].
  intros _. destruct d as [|r0 d]; [done|]. rewrite js_len_cons. pose proof (js_len_nonneg d). lia.
Qed.

Lemma loadObjdump_page text v : good v ->
  let lines := map (fun line => ObjLine line (parseObjdumpAddr line)) (text_lines text) in
  validateObjdump lines = None ->
  let v1 := set_objdump lines (showError None v) in
  loadObjdumpText text v =
    (match js_get (rows v) (selectedIdx v) with
     | Some cur => set_current (pc_line lines (cur !! js "pc")) v1
     | None => v1
     end, Ret true).
Proof.
  intros Hg lines El v1. unfold loadObjdumpText. fold lines. rewrite El.
  unfold get_st, modify_st, lift, mbind, stM_bind. cbn [fst snd selectedIdx set_objdump showError rows].
  destruct (decide (rows v = [])) as [Hr|Hr].
  { rewrite (good_none v Hg Hr), Hr. done. }
  pose proof (good_some v Hg Hr) as Hi. destruct (js_at_range _ _ Hi) as (cur & -> & ->).
  rewrite (proj2 (Z.leb_le _ _)) by lia. unfold highlightObjdumpForPC, pc_line, get_st, modify_st, mbind, stM_bind.
  cbn [objdumpLines set_objdump fst snd].
  destruct (parseInt _ 16) as [n|]; [|done]. by destruct (findIndex _ lines 0).
Qed.

Lemma loadObjdump_returns text v : good v -> returns_good (loadObjdumpText text) v.
Proof.
  intros Hg. pose proof (safe_loadObjdump text v (good_wf v Hg)) as Hw. unfold returns_good.
  destruct (validateObjdump (map (fun line => ObjLine line (parseObjdumpAddr line)) (text_lines text))) as [err|] eqn:El.
  { exists false. unfold loadObjdumpText. rewrite El. split; [done|]. by apply (good_keep v); [|apply wf_showError, Hg|..]. }
  rewrite loadObjdump_page in Hw by done. rewrite loadObjdump_page by done. exists true. split; [done|]. apply (good_keep v); [done|exact Hw|..]; cbn [fst]; by case_match.
Qed.

Lemma handle_returns v e : good v -> clean_event e -> returns_good (handle toLowerCase e) v.
Proof.
  intros Hg He. pose proof (good_wf v Hg) as Hw.
  destruct e as [text|text|q| | | | | |i|i]; cbn [clean_event] in He.
  - change (returns_good (loadTraceText text ;; mret tt) v).
    apply returns_good_bind; [by apply loadTrace_returns|]. intros. by apply ret_good.
  - change (returns_good (loadObjdumpText text ;; mret tt) v).
    apply returns_good_bind; [by apply loadObjdump_returns|]. intros. by apply ret_good.
  - by apply (modify_good (set_search q)); [|apply wf_set_search|..].
  - by apply search_returns.
  - change (returns_good (if disabled v then mret tt else step 1) v).
    case_match; [by apply ret_good|by apply step_returns].
  - change (returns_good (if disabled v then mret tt else step (-1)) v).
    case_match; [by apply ret_good|by apply step_returns].
  - change (returns_good (if selectedIdx v <? js_len (rows v) - 1 then selectRow (selectedIdx v + 1) else mret tt) v).
    case_match eqn:E; [|by apply ret_good]. bool_props. pose proof (wf_selected v Hw).
    apply select_returns; [done|lia].
  - change (returns_good (if 0 <? selectedIdx v then selectRow (selectedIdx v - 1) else mret tt) v).
    case_match eqn:E; [|by apply ret_good]. bool_props. apply select_returns; [done|].
    assert (rows v <> []) as Hr by (intros Hr; apply (good_none v Hg) in Hr; lia).
    pose proof (good_some v Hg Hr). lia.
  - change (returns_good (if (0 <=? i) && (i <? table v) then selectRow i else mret tt) v).
    case_match eqn:E; [|by apply ret_good]. bool_props. pose proof (wf_table v Hw). apply select_returns; [done|lia].
  - change (returns_good (match objdumpLines v with
      | Some lines => match js_get lines i with
                      | Some (ObjLine _ (Some addr)) => selectRowForAddr toLowerCase addr
                      | _ => mret tt
                      end
      | None => mret tt
      end) v).
    destruct (objdumpLines v) as [lines|]; [|by apply ret_good].
    destruct (js_get lines i) as [[t [addr|]]|]; [|by apply ret_good..].
    change (returns_good (match findIndex (fun r => valuesMatch toLowerCase (r !! js "pc") (js "0x" ++ toString16 addr)) (rows v) 0 with
      | Some idx => selectRow idx
      | None => mret tt
      end) v).
    destruct (findIndex _ (rows v) 0) as [idx|] eqn:E; [|by apply ret_good].
    apply findIndex_spec in E as (_ & _ & _ & Hi & _). apply select_returns; [done|lia].
Qed.

Lemma run_good es v : good v -> Forall clean_event es -> good (run toLowerCase es v).
Proof.
  intros Hg Hes. revert v Hg. induction Hes as [|e es He _ IH]; intros v Hg; [done|]. apply IH.
  by destruct (handle_returns v e Hg He) as (_ & _ & ?).
Qed.
End never_throws.

Lemma init_good : good init.
Proof. split; [apply init_wf|done|done]. Qed.

(** ** The state view *)
Lemma field_of_spec prev cur c f : field_of prev cur c = Ret f ->
  f_col f = c /\ cur !! c = Some (f_value f) /\
  (f_changed f = true <-> exists p, prev = Some p /\ p !! c <> cur !! c).
Proof.
  unfold field_of. destruct (cur !! c) as [x|] eqn:E; [|done]. intros [= <-]. cbn. split; [done|]. split; [done|].
  destruct prev as [p|].
  - rewrite negb_true_iff, bool_decide_eq_false. naive_solver.
  - split; [done|]. by intros (? & ? & _).
Qed.

Lemma groups_view_spec columns prev cur gs view : groups_view columns prev cur gs = Ret view ->
  map fst view = List.filter (fun g => negb (bool_decide (group_cols columns g = []))) gs /\
  Forall (fun p => Forall2 (fun c f => field_of prev cur c = Ret f) (group_cols columns p.1) p.2) view.
Proof.
  unfold groups_view. intros H%mapM_Forall2. set (l := List.filter _ gs) in *. clearbody l.
  induction H as [|g [g' fs] l view Hg _ [IH1 IH2]]; [by split|].
  destruct (mapM (field_of prev cur) (group_cols columns g)) as [fs'| |] eqn:E; [|done..].
  cbn in Hg. injection Hg as <- <-. cbn [map fst]. rewrite IH1. split; [done|].
  constructor; [|done]. by apply mapM_Forall2.
Qed.

Definition view_shows (columns : list jsstr) (prev : option row) (cur : row) (view : list (group * list field)) : Prop :=
  (forall g c, (c ∈ columns /\ classify c = Some g) <->
     exists fs f, (g, fs) ∈ view /\ f ∈ fs /\ f_col f = c) /\
  (forall g fs f, (g, fs) ∈ view -> f ∈ fs ->
     cur !! f_col f = Some (f_value f) /\
     (f_changed f = true <-> exists p, prev = Some p /\ p !! f_col f <> cur !! f_col f)) /\
  (forall fs, (Control, fs) ∈ view -> StronglySorted control_le (map f_col fs)) /\
  map fst view `sublist_of` group_order.

Lemma fields_cols prev cur cs fs : Forall2 (fun c f => field_of prev cur c = Ret f) cs fs -> map f_col fs = cs.
Proof. induction 1 as [|c f cs fs H _ IH]; [done|]. apply field_of_spec in H as [<- _]. cbn. by rewrite IH. Qed.

Lemma filter_sublist {A} (p : A -> bool) l : List.filter p l `sublist_of` l.
Proof. induction l as [|x l IH]; [constructor|]. cbn [List.filter]. case_match; by constructor. Qed.

Lemma groups_view_shows columns prev cur view :
  groups_view columns prev cur group_order = Ret view -> view_shows columns prev cur view.
Proof.
  intros [Hk Hv]%groups_view_spec.
  assert (forall g fs, (g, fs) ∈ view -> Forall2 (fun c f => field_of prev cur c = Ret f) (group_cols columns g) fs) as Hfs.
  { intros g fs Hin. eapply Forall_forall in Hv; [|exact Hin]. exact Hv. }
  split; [|split; [|split]].
  - intros g c. rewrite <- elem_group_cols. split.
    + intros Hc. assert (g ∈ map fst view) as Hg.
      { rewrite Hk. apply list_elem_of_In, filter_In. split; [apply list_elem_of_In; unfold group_order; destruct g; set_solver|].
        rewrite bool_decide_false; [done|]. intros E. rewrite E in Hc. by apply elem_of_nil in Hc. }
      apply list_elem_of_In, in_map_iff in Hg as ([g' fs] & <- & Hin%list_elem_of_In). cbn [fst] in *.
      pose proof (fields_cols _ _ _ _ (Hfs _ _ Hin)) as Hcols. rewrite <- Hcols in Hc.
      apply list_elem_of_In, in_map_iff in Hc as (f & <- & Hf%list_elem_of_In). eauto.
    + intros (fs & f & Hin & Hf & <-). rewrite <- (fields_cols _ _ _ _ (Hfs _ _ Hin)).
      apply list_elem_of_In, in_map, list_elem_of_In, Hf.
  - intros g fs f Hin Hf. pose proof (Hfs _ _ Hin) as H2. apply list_elem_of_lookup in Hf as [n Hn].
    destruct (Forall2_lookup_r _ _ _ _ _ H2 Hn) as (c & _ & E). apply field_of_spec in E as (<- & E & Hch). done.
  - intros fs Hin. rewrite (fields_cols _ _ _ _ (Hfs _ _ Hin)). unfold group_cols.
    rewrite decide_True by done. apply sort_control_sorted.
  - rewrite Hk. apply filter_sublist.
Qed.

(** ** Numerals *)
Definition is_numeral (radix : Z) (s : jsstr) : Prop :=
  s <> [] /\ Forall (fun c => exists d, hex_val c = Some d /\ d < radix) s.

Lemma hex_val_range c d : hex_val c = Some d -> 48 <= c <= 102 /\ is_space c = false /\ c <> 120 /\ c <> 88 /\ 0 <= d.
Proof.
  unfold hex_val, in_range. intros H.
  assert (48 <= c <= 57 \/ 65 <= c <= 70 \/ 97 <= c <= 102) as Hc.
  { repeat case_match; bool_props; simplify_eq; lia. }
  split; [lia|]. split; [|split; [lia|split; [lia|]]].
  - unfold is_space. repeat match goal with |- context [?a <=? ?b] => destruct (Z.leb_spec a b); try lia
      | |- context [?a =? ?b] => destruct (Z.eqb_spec a b); try lia end; done.
  - repeat case_match; bool_props; simplify_eq; lia.
Qed.

Lemma radix_prefix_all radix s : Forall (fun c => exists d, hex_val c = Some d /\ d < radix) s -> radix_prefix radix s = s.
Proof.
  induction 1 as [|c s (d & E & Hd) _ IH]; [done|]. cbn [radix_prefix]. rewrite E.
  destruct (Z.ltb_spec d radix); [by rewrite IH|lia].
Qed.

Lemma numeral_no_0x radix s : is_numeral radix s -> has_0x s = false.
Proof.
  intros [_ H]. destruct s as [|c [|d s]]; [done|done|]. apply Forall_cons in H as [_ H].
  apply Forall_inv in H as (x & (_ & _ & H1 & H2 & _)%hex_val_range & _). cbn [has_0x].
  destruct (Z.eqb_spec d 120); [done|]. destruct (Z.eqb_spec d 88); [done|]. by rewrite andb_false_r.
Qed.

Lemma parseInt_numeral radix s : is_numeral radix s -> parseInt s radix = Some (to_number (radix_value radix s)).
Proof.
  intros Hn. pose proof (numeral_no_0x _ _ Hn) as H0. destruct Hn as [Hne H]. unfold parseInt.
  destruct s as [|c s]; [done|]. pose proof (Forall_inv H) as (d & (Hc & Hsp & _)%hex_val_range & _).
  cbn [drop_spaces]. rewrite Hsp.
  destruct (Z.eqb_spec c (chr "-")) as [E|_]; [vm_compute in E; lia|].
  destruct (Z.eqb_spec c (chr "+")) as [E|_]; [vm_compute in E; lia|].
  rewrite H0, andb_false_r. cbv iota. rewrite (radix_prefix_all _ _ H).
  f_equal. lia.
Qed.

Lemma numeral_trim radix p s : is_numeral radix s -> (p = [] \/ p = js "0x") -> js_trim (p ++ s) = p ++ s.
Proof.
  intros [Hne H] Hp.
  assert (forall s, s <> [] -> Forall (fun c => is_space c = false) s -> js_trim s = s) as Ht.
  { clear. intros s Hne H. assert (forall s, Forall (fun c => is_space c = false) s -> drop_spaces s = s) as Hd.
    { clear. intros s [|c s' Hc _]; [done|]. cbn [drop_spaces]. by rewrite Hc. }
    unfold js_trim. rewrite (Hd s H), Hd by (by apply Forall_reverse). apply reverse_involutive. }
  apply Ht; [by destruct p|]. apply Forall_app. split.
  - destruct Hp as [->| ->]; by repeat constructor.
  - eapply Forall_impl; [exact H|]. intros c (d & (_ & ? & _)%hex_val_range & _). done.
Qed.

Lemma hex_digit_val d : 0 <= d < 16 -> hex_val (hex_digit d) = Some d.
Proof.
  intros Hd. unfold hex_digit, hex_val, in_range. destruct (Z.ltb_spec d 10).
  - destruct (Z.leb_spec 48 (48 + d)); [|lia]. destruct (Z.leb_spec (48 + d) 57); [|lia]. cbn. f_equal. lia.
  - destruct (Z.leb_spec 48 (87 + d)); [|lia]. destruct (Z.leb_spec (87 + d) 57); [lia|].
    destruct (Z.leb_spec 65 (87 + d)); [|lia]. destruct (Z.leb_spec (87 + d) 70); [lia|].
    destruct (Z.leb_spec 97 (87 + d)); [|lia]. destruct (Z.leb_spec (87 + d) 102); [|lia]. cbn. f_equal. lia.
Qed.

Lemma radix_value_app radix s t : radix_value radix (s ++ t) =
  foldl (fun acc c => radix * acc + default 0 (hex_val c)) (radix_value radix s) t.
Proof. unfold radix_value. by rewrite foldl_app. Qed.

Lemma hex_digits_spec fuel n acc : 0 <= n < 16 ^ Z.of_nat fuel ->
  exists ds, hex_digits fuel n acc = ds ++ acc /\ (fuel <> 0%nat -> is_numeral 16 ds) /\ radix_value 16 ds = n.
Proof.
  revert n acc. induction fuel as [|fuel IH]; intros n acc Hn.
  - exists []. split; [done|]. split; [done|]. cbn in *. lia.
  - cbn [hex_digits]. destruct (Z.ltb_spec n 16) as [Hs|Hs].
    + exists [hex_digit n]. split; [done|]. split.
      * intros _. split; [done|]. repeat constructor. exists n. rewrite hex_digit_val by lia. done.
      * unfold radix_value. cbn [foldl]. rewrite hex_digit_val by lia. cbn. lia.
    + pose proof (Z.div_mod n 16 ltac:(lia)) as Hdm. pose proof (Z.mod_pos_bound n 16 ltac:(lia)) as Hm.
      rewrite Nat2Z.inj_succ, Z.pow_succ_r in Hn by lia.
      destruct (IH (n / 16) (hex_digit (n mod 16) :: acc)) as (ds & E & Hnum & Hv).
      { split; [apply Z.div_pos; lia|apply Z.div_lt_upper_bound; lia]. }
      exists (ds ++ [hex_digit (n mod 16)]). rewrite E, <- app_assoc. split; [done|]. split.
      * intros _. destruct fuel as [|fuel]; [change (16 ^ Z.of_nat 0) with 1 in Hn; lia|]. destruct (Hnum ltac:(done)) as [Hne HF].
        split; [by destruct ds|]. apply Forall_app. split; [done|]. repeat constructor.
        exists (n mod 16). rewrite hex_digit_val by lia. split; [done|lia].
      * rewrite radix_value_app, Hv. cbn [foldl]. rewrite hex_digit_val by lia. cbn. lia.
Qed.

(** Writing a natural number in base 16 and reading it back. *)
Lemma toString16_spec n : 0 <= n < infinity -> is_numeral 16 (toString16 n) /\ radix_value 16 (toString16 n) = n.
Proof.
  intros [Hn Hinf]. unfold toString16. rewrite (proj2 (Z.eqb_neq _ _)) by lia. destruct (hex_digits_spec (S (Z.to_nat (Z.log2 n))) n []) as (ds & E & Hnum & Hv).
  { split; [done|]. rewrite Nat2Z.inj_succ, Z2Nat.id by apply Z.log2_nonneg.
    destruct (Z.eq_dec n 0) as [->|]; [done|]. pose proof (Z.log2_spec n ltac:(lia)) as [_ H].
    eapply Z.lt_le_trans; [exact H|]. apply Z.pow_le_mono_l. pose proof (Z.log2_nonneg n). lia. }
  rewrite app_nil_r in E. rewrite E. split; [by apply Hnum|done].
Qed.

Lemma has_0x_prefix s : has_0x (js "0x" ++ s) = true.
Proof. done. Qed.

Lemma stripHex_prefix s : stripHex (js "0x" ++ s) = s.
Proof. done. Qed.

Lemma decimal_test s : is_numeral 10 s -> regex_test decimalRe s = true.
Proof.
  intros [Hne H]. unfold decimalRe. apply (test_anchored _ s).
  assert (Forall (fun c => class_ok false [CDigit true] c = true) s) as HF.
  { eapply Forall_impl; [exact H|]. intros c (d & E & Hd). unfold class_ok. cbn [existsb item_match].
    assert (is_digit c = true) as ->; [|done]. unfold hex_val in E. unfold is_digit. revert E. 
    destruct (in_range 48 57 c) eqn:E1; [done|].
    destruct (in_range 65 70 c) eqn:E2; [intros [= <-]; unfold in_range in E2; bool_props; lia|].
    destruct (in_range 97 102 c) eqn:E3; [intros [= <-]; unfold in_range in E3; bool_props; lia|done]. }
  exists [], []. cbn [den]. exists [], []. split.
  - apply (rep_single _ _ 1 _ _ _ _ _ _ (single_class (length s) false [CDigit true])); [done|]. split; [done|].
    exists s. rewrite app_nil_r. split; [done|]. split; [done|]. split; [|done]. destruct s; [done|cbn; lia].
  - by exists [], [].
Qed.

(** The value of a hexadecimal program counter cell. *)
Definition pc_value (r : row) : option Z :=
  let cell := js_trim (default [] (r !! js "pc")) in
  if has_0x cell then parseInt (stripHex cell) 16 else None.

(** The page after [k] steps to the next match. *)
Fixpoint next_matches (k : nat) (v : viewer) : viewer :=
  match k with O => v | S k => (step 1 (next_matches k v)).1 end.

Section pages.
Context (toLowerCase : jsstr -> jsstr).

Lemma click_test (lower_prefix : forall s, has_0x (toLowerCase s) = has_0x s) r a : 0 <= a < 2 ^ 53 ->
  valuesMatch toLowerCase (r !! js "pc") (js "0x" ++ toString16 a) = bool_decide (pc_value r = Some a).
Proof.
  intros Ha. destruct (toString16_spec a) as [Hn Hv]; [split; [lia|]; trans (2 ^ 53); [lia|]; by vm_compute|]. unfold valuesMatch, pc_value.
  rewrite (numeral_trim 16 (js "0x") _ Hn) by auto. set (cell := js_trim _).
  rewrite has_0x_prefix, andb_true_r. destruct (has_0x cell) eqn:E.
  - rewrite stripHex_prefix, (parseInt_numeral _ _ Hn), Hv, to_number_small by lia.
    destruct (parseInt (stripHex cell) 16) as [x|]; cbn [same_number].
    + destruct (Z.eqb_spec x a) as [->|]; [by rewrite bool_decide_true|].
      rewrite bool_decide_false; [done|congruence].
    + by rewrite bool_decide_false.
  - cbn [andb]. assert (regex_test decimalRe (js "0x" ++ toString16 a) = false) as ->.
    { apply not_true_iff_false. intros Ht. unfold decimalRe in Ht.
      apply (test_anchored_reads (fun c => is_digit c = true)) in Ht; [|done|].
      - apply Forall_inv_tail, Forall_inv in Ht. done.
      - cbn [reads_only]. split; [|done]. intros y Hy. unfold class_ok in Hy. cbn in Hy. by destruct (is_digit y). }
    rewrite andb_false_r. rewrite !bool_decide_false; [done|done|].
    intros Heq. apply (f_equal has_0x) in Heq. rewrite !lower_prefix in Heq. rewrite E in Heq. done.
Qed.

Lemma findIndex_ext {A} (p q : A -> bool) l i : (forall x, p x = q x) -> findIndex p l i = findIndex q l i.
Proof. intros H. revert i. induction l as [|x l IH]; intros i; cbn; [done|]. by rewrite H, IH. Qed.

Lemma search_page v q : good v -> evalQuery toLowerCase (cols v) (search v) = Some q ->
  let m := matching (fun r => rowMatchesQuery toLowerCase (cols v) r q) (rows v) 0 in
  exists v', doSearch toLowerCase v = (v', Ret tt) /\ matches v' = m /\
    selectedIdx v' = default (selectedIdx v) (head m) /\
    info v' = (match m with [] => InfoNoMatches | _ => InfoAt 1 (js_len m) end).
Proof.
  intros Hg Hq m. pose proof (good_wf v Hg) as Hw.
  destruct (matching_spec (fun r => rowMatchesQuery toLowerCase (cols v) r q) (rows v) 0) as (H1 & H2 & _).
  fold m in H1, H2. unfold doSearch, get_st, modify_st, mbind, stM_bind. cbn [fst snd]. rewrite Hq. fold m.
  assert (search v <> []) as Hs by (intros E; rewrite E in Hq; done).
  destruct m as [|i m'].
  - eexists. split; [reflexivity|]. cbn. by destruct (search v).
  - set (shown := List.filter (fun j => j <? table v) (i :: m')).
    assert (wf (set_matches (i :: m') 0 shown v)) as Hw1.
    { destruct Hw. split; cbn; try done. right. rewrite js_len_cons. pose proof (js_len_nonneg m'). lia. }
    assert (good (set_matches (i :: m') 0 shown v)) as Hg1 by (by apply (good_keep v)).
    destruct (select_good _ i Hg1) as (v' & E & _ & (_ & _ & Hm & Hp & _ & _ & _) & Hi).
    { apply Forall_inv in H1. cbn. lia. }
    rewrite E. cbn [fst snd]. eexists. split; [reflexivity|]. unfold set_info. cbn. rewrite Hm, Hp. cbn. done.
Qed.

Lemma step_iterates v k : good v -> matches v <> [] ->
  let vk := next_matches k v in
  good vk /\ matches vk = matches v /\
  matchPos vk = (matchPos v + Z.of_nat k) mod js_len (matches v) /\
  (k <> 0%nat -> js_get (matches v) (matchPos vk) = Some (selectedIdx vk)).
Proof.
  intros Hg Hne. assert (0 <= matchPos v < js_len (matches v)) as Hp.
  { destruct (wf_pos v (good_wf v Hg)) as [[? _]|]; [done|done]. }
  induction k as [|k IH]; cbn zeta in *.
  - split; [done|]. split; [done|]. split; [|done]. cbn [next_matches]. rewrite Z.add_0_r. symmetry. by apply Z.mod_small.
  - cbn [next_matches]. set (u := next_matches k v) in *. destruct IH as (Hgu & Hm & Hpos & _).
    assert (matches u <> []) as Hneu by (by rewrite Hm).
    destruct (step_page u 1 Hgu ltac:(lia) Hneu) as (idx & v' & E & Hget & Hg' & Hidx & Hp' & Hm' & Hr).
    rewrite E. cbn [updateMatchInfo modify_st fst]. split; [by apply info_good in Hg' as (? & _ & ?)|].
    split; [cbn; by rewrite Hm', Hm|]. rewrite Hm in *.
    pose proof (Z.mod_pos_bound (matchPos v + Z.of_nat k) (js_len (matches v)) ltac:(lia)) as Hb.
    assert (matchPos v' = (matchPos v + Z.of_nat (S k)) mod js_len (matches v)) as Hq.
    { rewrite Hp', Hpos, Z.rem_mod_nonneg by lia.
      replace ((matchPos v + Z.of_nat k) mod js_len (matches v) + 1 + js_len (matches v))
        with ((matchPos v + Z.of_nat k) mod js_len (matches v) + 1 + 1 * js_len (matches v)) by lia.
      rewrite Z.mod_add, Z.add_mod_idemp_l by lia. f_equal. lia. }
    split; [exact Hq|]. intros _. cbn. rewrite Hidx, Hp'. exact Hget.
Qed.
End pages.

(** ** Tables read back *)
Definition cell_ok (s : jsstr) : Prop := (9 ∉ s) /\ (10 ∉ s) /\ (13 ∉ s).

Definition table_text (lines : list (list jsstr)) : jsstr := js_join [10] (map (js_join tab) lines).

Lemma not_elem_join x sep l : (x ∉ sep) -> Forall (fun s => x ∉ s) l -> x ∉ js_join sep l.
Proof.
  intros Hs. induction 1 as [|s l Hx Hl IH]; [apply not_elem_of_nil|].
  destruct l as [|t l]; [done|]. rewrite js_join_cons by done. rewrite !elem_of_app. tauto.
Qed.

Lemma filter_none (x : Z) s : (x ∉ s) -> List.filter (fun c => negb (c =? x)) s = s.
Proof.
  induction s as [|c s IH]; [done|]. rewrite not_elem_of_cons. intros [Hc Hs]. cbn [List.filter].
  destruct (Z.eqb_spec c x); [congruence|]. cbn [negb]. by rewrite IH.
Qed.

Lemma filter_lines l : Forall (fun s : jsstr => s <> []) l -> List.filter (fun s => 0 <? js_len s) l = l.
Proof.
  induction 1 as [|s l Hs _ IH]; [done|]. cbn [List.filter]. rewrite IH.
  destruct s as [|c s]; [done|]. rewrite js_len_cons. pose proof (js_len_nonneg s).
  by rewrite (proj2 (Z.ltb_lt _ _)) by lia.
Qed.

Lemma parse_table lines : lines <> [] ->
  Forall (fun l => l <> [] /\ js_join tab l <> [] /\ Forall cell_ok l) lines ->
  parseTSV (table_text lines) =
  match lines with
  | header :: data => Ret (header, map (fun r => row_of header r ∅) data)
  | [] => Throw (TypeError "Cannot read properties of undefined (reading 'split')")
  end.
Proof.
  intros Hne Hok. unfold parseTSV, text_lines, table_text.
  assert (Forall (fun s => (10 ∉ s) /\ (13 ∉ s) /\ s <> []) (map (js_join tab) lines)) as Hl.
  { apply Forall_map. eapply Forall_impl; [exact Hok|]. intros l (_ & Hj & Hc). cbn.
    split; [|split; [|done]]; apply not_elem_join; try (by intros H%list_elem_of_singleton);
      (eapply Forall_impl; [exact Hc|]; by intros s (? & ? & ?)). }
  rewrite filter_none.
  2: { apply not_elem_join; [by intros H%list_elem_of_singleton|]. eapply Forall_impl; [exact Hl|]. by intros s (? & ? & ?). }
  rewrite join_split_unit; [|by destruct lines|eapply Forall_impl; [exact Hl|]; by intros s (? & ? & ?)].
  rewrite filter_lines by (eapply Forall_impl; [exact Hl|]; by intros s (? & ? & ?)).
  destruct lines as [|header data]; [done|]. cbn [map].
  assert (forall l, l <> [] /\ js_join tab l <> [] /\ Forall cell_ok l -> js_split (js_join tab l) tab = l) as Hs.
  { intros l (Hn & _ & Hc). apply join_split_unit; [done|]. eapply Forall_impl; [exact Hc|]. by intros s (? & _). }
  apply Forall_cons in Hok as [Hh Hd]. rewrite (Hs _ Hh), map_map. f_equal. f_equal.
  apply map_ext_Forall. eapply Forall_impl; [exact Hd|]. intros l Hl'. by rewrite (Hs _ Hl').
Qed.

Lemma row_of_skip header parts obj c : (c ∉ header) -> row_of header parts obj !! c = obj !! c.
Proof.
  revert parts obj. induction header as [|h header IH]; intros parts obj; [done|].
  rewrite not_elem_of_cons. intros [H1 H2]. cbn [row_of]. rewrite IH by done. by rewrite lookup_insert_ne.
Qed.

Lemma row_of_lookup header parts obj i c : NoDup header -> header !! i = Some c ->
  row_of header parts obj !! c = Some (default [] (parts !! i)).
Proof.
  intros Hnd. revert parts obj i. induction Hnd as [|h header Hh _ IH]; intros parts obj i; [done|].
  destruct i as [|i]; cbn [lookup list_lookup row_of].
  - intros [= ->]. rewrite row_of_skip by done. rewrite lookup_insert_eq. by destruct parts.
  - intros Hi. rewrite (IH _ _ i Hi). by destruct parts.
Qed.

(** ** The theorems *)

(** C36: whatever the user does and whatever the files hold, the page stays well
    formed, exceptions included: every row has every column, the required columns
    exist when there are rows, the matches are row numbers in increasing order, the rows
    marked in the table are the matches that the table shows, in the same order, the match
    position lies in the list, the selected row of the table is the one that was selected,
    and the marked line of the disassembly has an address. *)
Theorem viewer_reachable_wf (toLowerCase : jsstr -> jsstr) (es : list event) : wf (run toLowerCase es init).
Proof. apply run_wf, init_wf. Qed.

(** On traces as a model writes them no event throws, in any order of loading,
    searching, stepping, clicking and key presses. *)
Theorem viewer_never_throws (toLowerCase : jsstr -> jsstr) (es : list event) (e : event)
    (Hes : Forall clean_event es) (He : clean_event e) :
  exists v', handle toLowerCase e (run toLowerCase es init) = (v', Ret tt).
Proof.
  destruct (handle_returns toLowerCase (run toLowerCase es init) e) as ([] & Hr & _); [|done|].
  - apply run_good; [apply init_good|done].
  - eexists. by rewrite <- Hr, <- surjective_pairing.
Qed.

(** A small trace: two rows of the required columns and one register. *)
Definition demo_trace : list (list jsstr) :=
  map (map js) [["seq"; "time"; "pc"; "event"; "detail"; "g1"];
                ["0"; "5"; "0x10"; "fetch"; "add"; "1"];
                ["1"; "9"; "0x14"; "fetch"; "sub"; "2"]]%string.

Definition clean_check (text : jsstr) : bool :=
  match parseTSV text with Ret (_, r :: d) => forallb event_token_ok (r :: d) | _ => false end.

Lemma clean_check_sound text : clean_check text = true -> clean_trace text.
Proof.
  unfold clean_check, clean_trace. destruct (parseTSV text) as [[h [|r d]]| |]; try done.
  intros Hd. by exists h, (r :: d).
Qed.

Lemma demo_clean : clean_event (LoadTrace (table_text demo_trace)).
Proof. apply clean_check_sound. vm_compute. reflexivity. Qed.

Lemma viewer_never_throws_witness :
  clean_event (LoadTrace (table_text demo_trace)) /\
  exists v', handle id Enter (run id [LoadTrace (table_text demo_trace); TypeSearch (js "g1=2")] init) = (v', Ret tt).
Proof.
  split; [exact demo_clean|].
  apply (viewer_never_throws id [LoadTrace (table_text demo_trace); TypeSearch (js "g1=2")] Enter).
  - constructor; [exact demo_clean|]. constructor; [exact I|constructor].
  - exact I.
Defined.

(** C35: pressing Enter on a query lists exactly the rows that match it, in order,
    selects the first one, leaves the selection alone when there is none, and says
    which of how many is shown. *)
Theorem search_exact (toLowerCase : jsstr -> jsstr) (es : list event) (q : query) (Hes : Forall clean_event es)
    (Hq : let v := run toLowerCase es init in evalQuery toLowerCase (cols v) (search v) = Some q) :
  let v := run toLowerCase es init in
  exists v', handle toLowerCase Enter v = (v', Ret tt) /\
    (forall i, i ∈ matches v' <->
       exists r, js_get (rows v) i = Some r /\ rowMatchesQuery toLowerCase (cols v) r q = true) /\
    StronglySorted Z.lt (matches v') /\
    selectedIdx v' = default (selectedIdx v) (head (matches v')) /\
    info v' = (match matches v' with [] => InfoNoMatches | m => InfoAt 1 (js_len m) end).
Proof.
  intros v. assert (good v) as Hg by (apply run_good; [apply init_good|done]).
  destruct (search_page toLowerCase v q Hg Hq) as (v' & E & Hm & Hs & Hi).
  destruct (matching_spec (fun r => rowMatchesQuery toLowerCase (cols v) r q) (rows v) 0) as (_ & H2 & H3).
  exists v'. split; [exact E|]. rewrite Hm.
  split; [|split; [done|split; [done|rewrite Hi; by destruct (matching _ _ _)]]].
  intros i. rewrite H3, Z.sub_0_r. split; [naive_solver|]. intros (r & Hr & Hp). exists r.
  pose proof (js_get_Some_range _ _ _ Hr). split; [lia|done].
Qed.

Lemma search_exact_witness :
  let es := [LoadTrace (table_text demo_trace); TypeSearch (js "pc=20")] in
  Forall clean_event es /\
  let v := run id es init in
  exists v', handle id Enter v = (v', Ret tt) /\
    (forall i, i ∈ matches v' <->
       exists r, js_get (rows v) i = Some r /\
         rowMatchesQuery id (cols v) r (Query (Some (js "pc")) (js "20")) = true) /\
    StronglySorted Z.lt (matches v') /\
    selectedIdx v' = default (selectedIdx v) (head (matches v')) /\
    info v' = (match matches v' with [] => InfoNoMatches | m => InfoAt 1 (js_len m) end).
Proof.
  intros es. assert (Forall clean_event es) as Hes.
  { constructor; [exact demo_clean|]. constructor; [exact I|constructor]. }
  split; [exact Hes|].
  apply (search_exact id es (Query (Some (js "pc")) (js "20")) Hes). vm_compute. reflexivity.
Defined.

(** Stepping goes round the matches: [k] steps from a page with matches end at
    position [pos + k] modulo their number, with that match selected. *)
Theorem next_cycles (toLowerCase : jsstr -> jsstr) (es : list event) (k : nat) (Hes : Forall clean_event es)
    (Hm : matches (run toLowerCase es init) <> []) (Hk : k <> 0%nat) :
  let v := run toLowerCase es init in
  let vk := next_matches k v in
  matches vk = matches v /\
  matchPos vk = (matchPos v + Z.of_nat k) mod js_len (matches v) /\
  js_get (matches v) (matchPos vk) = Some (selectedIdx vk).
Proof.
  intros v vk. assert (good v) as Hg by (apply run_good; [apply init_good|done]).
  destruct (step_iterates v k Hg Hm) as (_ & H1 & H2 & H3). auto.
Qed.

Lemma next_cycles_witness :
  let es := [LoadTrace (table_text demo_trace); TypeSearch (js "fetch"); Enter] in
  Forall clean_event es /\
  let v := run id es init in
  matches (next_matches 3 v) = matches v /\
  matchPos (next_matches 3 v) = (matchPos v + Z.of_nat 3) mod js_len (matches v) /\
  js_get (matches v) (matchPos (next_matches 3 v)) = Some (selectedIdx (next_matches 3 v)).
Proof.
  intros es. assert (Forall clean_event es) as Hes.
  { constructor; [exact demo_clean|]. constructor; [exact I|]. constructor; [exact I|constructor]. }
  split; [exact Hes|]. apply (next_cycles id es 3 Hes); [vm_compute; discriminate|discriminate].
Defined.

(** A click on a disassembly line selects the first row whose program counter
    is a hexadecimal cell of that address, and changes nothing when no row is
    there. *)
Theorem click_selects_first (toLowerCase : jsstr -> jsstr) (es : list event) (i a : Z) (text : jsstr)
    (lines : list objline) (lower_prefix : forall s, has_0x (toLowerCase s) = has_0x s)
    (Hes : Forall clean_event es) (Hl : objdumpLines (run toLowerCase es init) = Some lines)
    (Hi : js_get lines i = Some (ObjLine text (Some a))) (Ha : 0 <= a < 2 ^ 53) :
  let v := run toLowerCase es init in
  exists v', handle toLowerCase (ClickLine i) v = (v', Ret tt) /\
    match findIndex (fun r => bool_decide (pc_value r = Some a)) (rows v) 0 with
    | Some idx => selectedIdx v' = idx
    | None => v' = v
    end.
Proof.
  intros v. assert (good v) as Hg by (apply run_good; [apply init_good|done]).
  assert (handle toLowerCase (ClickLine i) v = selectRowForAddr toLowerCase a v) as ->.
  { unfold handle, get_st, mbind, stM_bind. cbn [fst snd]. fold v in Hl. by rewrite Hl, Hi. }
  unfold selectRowForAddr, get_st, mbind, stM_bind. cbn [fst snd].
  rewrite (findIndex_ext _ (fun r => bool_decide (pc_value r = Some a))) by (intros r; by apply click_test).
  destruct (findIndex _ (rows v) 0) as [idx|] eqn:E; [|by eexists].
  apply findIndex_spec in E as (_ & _ & _ & Hr & _).
  destruct (select_good v idx Hg ltac:(lia)) as (v' & E & _ & _ & Hidx). by exists v'.
Qed.

Lemma click_selects_first_witness :
  let es := [LoadTrace (table_text demo_trace); LoadObjdump (js " 14: sub")] in
  Forall clean_event es /\
  let v := run id es init in
  exists v', handle id (ClickLine 0) v = (v', Ret tt) /\
    match findIndex (fun r => bool_decide (pc_value r = Some 20)) (rows v) 0 with
    | Some idx => selectedIdx v' = idx
    | None => v' = v
    end.
Proof.
  intros es. assert (Forall clean_event es) as Hes.
  { constructor; [exact demo_clean|]. constructor; [exact I|constructor]. }
  split; [exact Hes|].
  apply (click_selects_first id es 0 20 (js " 14: sub") [ObjLine (js " 14: sub") (Some 20)]).
  - reflexivity.
  - exact Hes.
  - vm_compute. reflexivity.
  - reflexivity.
  - split; [discriminate|reflexivity].
Defined.

(** The state view of a selected row shows every column of a known group
    exactly under its group with the row's value, marks it as changed exactly when
    the row before has another value, keeps the groups in their fixed order and
    sorts the control registers. *)
Theorem state_view_exact (toLowerCase : jsstr -> jsstr) (es : list event) (idx : Z)
    (Hi : 0 <= idx < js_len (rows (run toLowerCase es init))) :
  let v := run toLowerCase es init in
  exists v' cur, selectRow idx v = (v', Ret tt) /\ js_get (rows v) idx = Some cur /\
    view_shows (cols v) (previous v idx) cur (stateView v').
Proof.
  intros v. assert (wf v) as Hw by (apply run_wf, init_wf).
  destruct (selectRow_page v idx (wf_rows v Hw) Hi) as (cur & view & Hc & Hv & E).
  exists (selected_page idx cur view v), cur. split; [done|]. split; [done|].
  apply groups_view_shows in Hv. unfold selected_page. by destruct (objdumpLines v).
Qed.

Lemma state_view_exact_witness :
  let v := run id [LoadTrace (table_text demo_trace)] init in
  js_len (rows v) = 2 /\
  exists v' cur, selectRow 1 v = (v', Ret tt) /\ js_get (rows v) 1 = Some cur /\
    view_shows (cols v) (previous v 1) cur (stateView v').
Proof.
  split; [vm_compute; reflexivity|].
  apply (state_view_exact id [LoadTrace (table_text demo_trace)] 1). apply (bool_decide_unpack _). vm_compute. exact I.
Defined.

(** A table written with tabs and line feeds reads back: the header, and for
    every line an object that holds the line's cells under the header's names,
    missing cells empty. *)
Theorem table_reads_back (header : list jsstr) (data : list (list jsstr)) (Hnd : NoDup header)
    (Hok : Forall (fun l => l <> [] /\ js_join tab l <> [] /\ Forall cell_ok l) (header :: data)) :
  exists rs, parseTSV (table_text (header :: data)) = Ret (header, rs) /\
    Forall2 (fun cells r => forall i c, header !! i = Some c -> r !! c = Some (default [] (cells !! i))) data rs.
Proof.
  rewrite parse_table by done. eexists. split; [reflexivity|]. apply Forall2_fmap_r, Forall_Forall2_diag, Forall_forall.
  intros cells _ i c Hi. by apply row_of_lookup.
Qed.

Lemma table_reads_back_witness :
  exists rs, parseTSV (table_text demo_trace) = Ret (map js ["seq"; "time"; "pc"; "event"; "detail"; "g1"]%string, rs) /\
    Forall2 (fun cells r => forall i c, map js ["seq"; "time"; "pc"; "event"; "detail"; "g1"]%string !! i = Some c ->
      r !! c = Some (default [] (cells !! i))) (tail demo_trace) rs.
Proof.
  apply (table_reads_back (map js ["seq"; "time"; "pc"; "event"; "detail"; "g1"]%string) (tail demo_trace));
    apply (bool_decide_unpack _); vm_compute; exact I.
Defined.

(** A file that is not accepted leaves the page as it was, the error banner
    apart: a trace whose event cells hold no white space, in any page, and a
    disassembly in every page that clean events reach. *)
Theorem refused_file_keeps (toLowerCase : jsstr -> jsstr) (es : list event) (text : jsstr)
    (Hes : Forall clean_event es)
    (Htok : forall h d, parseTSV text = Ret (h, d) -> forallb event_token_ok d = true) :
  let v := run toLowerCase es init in
  ((loadTraceText text v).2 <> Ret true ->
     (loadTraceText text v).1 = showError (error (loadTraceText text v).1) v) /\
  ((loadObjdumpText text v).2 <> Ret true ->
     (loadObjdumpText text v).1 = showError (error (loadObjdumpText text v).1) v).
Proof.
  intros v. assert (good v) as Hg by (apply run_good; [apply init_good|done]).
  assert (showError (error v) v = v) as Hv by (by destruct v). split.
  - destruct (parseTSV text) as [[h [|r0 d]]| |] eqn:Ep.
    2: { destruct (validateTraceHeader h) as [err|] eqn:Eh.
         - unfold loadTraceText, lift, mbind, stM_bind. rewrite Ep. cbn [fst snd]. by rewrite Eh.
         - destruct (loadTrace_page text v h (r0 :: d) (good_wf v Hg) Ep Eh ltac:(done) (Htok _ _ eq_refl)) as (cur & view & _ & _ & _ & E).
           by rewrite E. }
    all: unfold loadTraceText, lift, mbind, stM_bind; rewrite Ep; cbn [fst snd]; try done. by case_match.
  - destruct (loadObjdump_returns text v Hg) as (b & Hb & _).
    intros Hne. unfold loadObjdumpText in *. destruct (validateObjdump _) as [err|]; [done|].
    set (lines := map _ _) in *. unfold get_st, modify_st, mbind, stM_bind in *. cbn [fst snd] in *.
    exfalso. apply Hne. clear Hne. revert Hb.
    match goal with |- context [match ?x with _ => _ end] => destruct x as [v' [u|e|]] end; cbn; [done|done|done].
Qed.

Lemma refused_file_keeps_witness :
  let v := run id [LoadTrace (table_text demo_trace)] init in
  ((loadTraceText (js "a") v).2 <> Ret true ->
     (loadTraceText (js "a") v).1 = showError (error (loadTraceText (js "a") v).1) v) /\
  ((loadObjdumpText (js "a") v).2 <> Ret true ->
     (loadObjdumpText (js "a") v).1 = showError (error (loadObjdumpText (js "a") v).1) v).
Proof.
  apply (refused_file_keeps id [LoadTrace (table_text demo_trace)] (js "a")).
  - constructor; [exact demo_clean|constructor].
  - intros h d. vm_compute. intros [= <- <-]. reflexivity.
Defined.

(** Cells with the 0x prefix compare by value with hexadecimal and with decimal
    queries: leading zeros, the case of the digits and the notation do not matter;
    numbers up to 2^53 are exact, larger ones are rounded first. *)
Theorem hex_cells_compare (toLowerCase : jsstr -> jsstr) (ds es : jsstr) (Hd : is_numeral 16 ds) :
  (is_numeral 16 es ->
     valuesMatch toLowerCase (Some (js "0x" ++ ds)) (js "0x" ++ es) =
     (to_number (radix_value 16 ds) =? to_number (radix_value 16 es))) /\
  (is_numeral 10 es ->
     valuesMatch toLowerCase (Some (js "0x" ++ ds)) es =
     (to_number (radix_value 16 ds) =? to_number (radix_value 10 es))).
Proof.
  split; intros He; unfold valuesMatch;
    change (default [] (Some (js "0x" ++ ds))) with (js "0x" ++ ds);
    rewrite (numeral_trim 16 (js "0x") ds Hd) by auto; rewrite has_0x_prefix, stripHex_prefix.
  - rewrite (numeral_trim 16 (js "0x") es He) by auto. rewrite has_0x_prefix, stripHex_prefix.
    by rewrite (parseInt_numeral _ _ Hd), (parseInt_numeral _ _ He).
  - change (js_trim es) with (js_trim ([] ++ es)). rewrite (numeral_trim 10 [] es He) by auto. cbn [app].
    rewrite (numeral_no_0x _ _ He), (decimal_test _ He). cbn [andb].
    by rewrite (parseInt_numeral _ _ Hd), (parseInt_numeral _ _ He).
Qed.

Lemma hex_cells_compare_witness :
  (is_numeral 16 (js "20") ->
     valuesMatch id (Some (js "0x" ++ js "0001F")) (js "0x" ++ js "20") =
     (to_number (radix_value 16 (js "0001F")) =? to_number (radix_value 16 (js "20")))) /\
  (is_numeral 10 (js "20") ->
     valuesMatch id (Some (js "0x" ++ js "0001F")) (js "20") =
     (to_number (radix_value 16 (js "0001F")) =? to_number (radix_value 10 (js "20")))).
Proof.
  apply (hex_cells_compare id (js "0001F") (js "20")).
  split; [discriminate|]. repeat (constructor; [by eexists|]). constructor.
Defined.

(** ** Three surprises *)

(** A trace of a header only after a loaded trace keeps the old selection: loading
    a disassembly and the up key then throw. *)
Lemma stale_selection_throws :
  let v := run id [LoadTrace (table_text demo_trace); ArrowDown; LoadTrace (table_text (take 1 demo_trace))] init in
  rows v = [] /\ selectedIdx v = 1 /\
  (handle id ArrowUp v).2 = Throw (TypeError "Cannot read property of undefined") /\
  (handle id (LoadObjdump (js "10: add")) v).2 = Throw (TypeError "Cannot read property of undefined").
Proof. vm_compute. done. Qed.

(** An empty file throws before the banner is written. *)
Lemma empty_file_throws v :
  loadTraceText [] v = (v, Throw (TypeError "Cannot read properties of undefined (reading 'split')")).
Proof. reflexivity. Qed.

(** White space in an event cell stops the load half way: the rows are replaced,
    the table is cut short. *)
Lemma spaced_event_stops_load :
  let text := table_text [map js ["seq"; "time"; "pc"; "event"; "detail"]%string;
                          map js ["0"; "5"; "0x10"; "bus stall"; ""]%string] in
  (loadTraceText text init).2 = Throw (PlainError "InvalidCharacterError") /\
  js_len (rows (loadTraceText text init).1) = 1 /\ table (loadTraceText text init).1 = 0.
Proof. vm_compute. done. Qed.
