(* ===== verification/ViewerPage.v ===== *)
(** * The page around the trace viewer

    The parts of src/log_viewer/viewer.html that surround the viewer of TraceViewer.v: the
    rendered disassembly, the file pickers and the loader that takes its files from the
    address, the light and dark theme, and the drag handles between the panels, with what
    the page keeps in localStorage from one visit to the next.

    [page] is the state, [page_step] one thing that happens to it.  Answers to the requests
    of the loader and of the file pickers arrive in any order and may fail.  Numbers are the
    binary64 numbers of the language ([spec_float]); how they are written and read, and what
    the window measures, are arguments. *)
From Stdlib Require Import SpecFloat.
From stdpp Require Import gmap.
From S2P Require Import Prelude JsString JsState JsRegex TraceViewer.

(** ** Numbers *)
Abbreviation num := spec_float.
Abbreviation storage := (gmap (list Z) (list Z)).

Definition num_of_Z (z : Z) : num := binary_normalize 53 1024 z 0 false.

Definition isNaN (x : num) : bool := match x with S754_nan => true | _ => false end.

(** [Math.max(a, b)] and [Math.min(a, b)] of numbers that are not both zero. *)
Definition Math_max (a b : num) : num := if isNaN a || isNaN b then S754_nan else if SFltb a b then b else a.
Definition Math_min (a b : num) : num := if isNaN a || isNaN b then S754_nan else if SFltb b a then b else a.

(** ** The disassembly panel *)

(** The div of a line; [d_click] is the address its click listener holds. *)
Record line_div : Type := LineDiv { d_class : jsstr; d_text : jsstr; d_idx : Z; d_click : option Z }.
Inductive objdump_html : Type := Notice (text : jsstr) | Divs (l : list line_div).

Definition line_div_of (i : Z) (l : objline) : line_div :=
  LineDiv (js "objline" ++ match ol_addr l with Some _ => js " clickable" | None => [] end) (ol_text l) i (ol_addr l).

Fixpoint line_divs (i : Z) (l : list objline) : list line_div :=
  match l with
  | [] => []
  | x :: l => line_div_of i x :: line_divs (i + 1) l
  end.

Definition renderObjdump (lines : option (list objline)) : objdump_html :=
  match lines with
  | None => Notice (js "No disassembly loaded.")
  | Some lines => Divs (line_divs 0 lines)
  end.

(** ** The page *)

Inductive svg : Type := SUN_SVG | MOON_SVG.

(** A panel with its handle: the variable [dragging], the class of the handle and the width
    or height that was written last. *)
Record pane : Type := Pane { dragging : bool; drag_class : bool; size : jsstr }.

Inductive which : Type := VResizer | HResizer.

(** What has been asked for and not come back: a fetch of a path, the reading of a file. *)
Inductive request : Type :=
| FetchTrace (path : jsstr)
| FetchObjdump (path : jsstr)
| ReadTrace (name : jsstr)
| ReadObjdump (name : jsstr).

Inductive response : Type := Text (text : jsstr) | NotOk (status : Z) | Failed.

Record page : Type := Page {
  shown : viewer;
  traceFileName : jsstr;
  objdumpFileName : jsstr;
  pending : list request;
  warnings : list jsstr;
  localStorage : storage;
  data_theme : jsstr;
  icon : svg;
  left : pane;
  objdumpPane : pane;
  userSelect : jsstr }.

Definition set_shown (v : viewer) (p : page) : page :=
  Page v (traceFileName p) (objdumpFileName p) (pending p) (warnings p) (localStorage p)
    (data_theme p) (icon p) (left p) (objdumpPane p) (userSelect p).
Definition set_names (t o : jsstr) (p : page) : page :=
  Page (shown p) t o (pending p) (warnings p) (localStorage p)
    (data_theme p) (icon p) (left p) (objdumpPane p) (userSelect p).
Definition set_pending (l : list request) (p : page) : page :=
  Page (shown p) (traceFileName p) (objdumpFileName p) l (warnings p) (localStorage p)
    (data_theme p) (icon p) (left p) (objdumpPane p) (userSelect p).
Definition set_warnings (l : list jsstr) (p : page) : page :=
  Page (shown p) (traceFileName p) (objdumpFileName p) (pending p) l (localStorage p)
    (data_theme p) (icon p) (left p) (objdumpPane p) (userSelect p).
Definition set_theme (s : storage) (t : jsstr) (i : svg) (p : page) : page :=
  Page (shown p) (traceFileName p) (objdumpFileName p) (pending p) (warnings p) s
    t i (left p) (objdumpPane p) (userSelect p).
Definition set_panes (s : storage) (l o : pane) (u : jsstr) (p : page) : page :=
  Page (shown p) (traceFileName p) (objdumpFileName p) (pending p) (warnings p) s
    (data_theme p) (icon p) l o u.

(** ** The theme *)
Definition theme_key : jsstr := Eval vm_compute in js "sparc_trace_viewer_theme".

Definition applyTheme (theme : jsstr) (p : page) : page :=
  set_theme (<[theme_key := theme]> (localStorage p)) theme
    (if bool_decide (theme = js "light") then SUN_SVG else MOON_SVG) p.

(** [prefers_light] is the answer of [matchMedia]. *)
Definition initTheme (prefers_light : bool) (p : page) : page :=
  applyTheme match localStorage p !! theme_key with
             | Some (c :: s) => c :: s
             | _ => if prefers_light then js "light" else js "dark"
             end p.

Definition toggleTheme (p : page) : page :=
  applyTheme (if bool_decide (data_theme p = js "light") then js "dark" else js "light") p.

(** ** The drag handles *)
Definition left_key : jsstr := Eval vm_compute in js "sparc_trace_viewer_left_pct".
Definition objdump_key : jsstr := Eval vm_compute in js "sparc_trace_viewer_objdump_pct".

Definition storageKey (w : which) : jsstr := match w with VResizer => left_key | HResizer => objdump_key end.
Definition defaultPct (w : which) : num := match w with VResizer => num_of_Z 46 | HResizer => num_of_Z 50 end.

Definition pane_of (w : which) (p : page) : pane := match w with VResizer => left p | HResizer => objdumpPane p end.

Definition set_pane (w : which) (s : storage) (x : pane) (u : jsstr) (p : page) : page :=
  match w with
  | VResizer => set_panes s x (objdumpPane p) u p
  | HResizer => set_panes s (left p) x u p
  end.

(** What [getBoundingClientRect] of the container returns. *)
Record rect : Type := Rect { r_left : num; r_top : num; r_width : num; r_height : num }.

Section page.
Context (toLowerCase : jsstr -> jsstr).
(** A number as text, and [parseFloat]. *)
Context (number_text : num -> jsstr) (parseFloat : jsstr -> num).

Definition percent_text (x : num) : jsstr := number_text x ++ js "%".

(** The size a panel starts with; [getItem] gives null where nothing is stored. *)
Definition initialPct (w : which) (s : storage) : num :=
  let saved := parseFloat (default (js "null") (s !! storageKey w)) in
  if isNaN saved then defaultPct w else saved.

Definition makeResizer (w : which) (p : page) : page :=
  set_pane w (localStorage p) (Pane false false (percent_text (initialPct w (localStorage p)))) (userSelect p) p.

Definition mousedown (w : which) (p : page) : page :=
  set_pane w (localStorage p) (Pane true true (size (pane_of w p))) (js "none") p.

Definition clamp (x : num) : num := Math_min (num_of_Z 80) (Math_max (num_of_Z 20) x).

Definition pointed (w : which) (r : rect) (clientX clientY : num) : num :=
  match w with
  | VResizer => SFmul 53 1024 (SFdiv 53 1024 (SFsub 53 1024 clientX (r_left r)) (r_width r)) (num_of_Z 100)
  | HResizer => SFmul 53 1024 (SFdiv 53 1024 (SFsub 53 1024 clientY (r_top r)) (r_height r)) (num_of_Z 100)
  end.

Definition mousemove (w : which) (r : rect) (clientX clientY : num) (p : page) : page :=
  let x := pane_of w p in
  if dragging x then
    let pct := clamp (pointed w r clientX clientY) in
    set_pane w (<[storageKey w := number_text pct]> (localStorage p)) (Pane true (drag_class x) (percent_text pct)) (userSelect p) p
  else p.

Definition mouseup (w : which) (p : page) : page :=
  let x := pane_of w p in
  if dragging x then set_pane w (localStorage p) (Pane false false (size x)) [] p else p.

(** ** Loading *)

(** A trace that came back: [name] is what the page calls it, [warn] what is reported when
    the load throws. *)
Definition use_trace (name text : jsstr) (warn : list jsstr) (p : page) : page :=
  let '(v, r) := loadTraceText text (shown p) in
  let p := set_shown v p in
  match r with
  | Ret true => set_names name (objdumpFileName p) p
  | Ret false => p
  | _ => set_warnings (warnings p ++ warn) p
  end.

Definition use_objdump (name text : jsstr) (p : page) : page :=
  let '(v, r) := loadObjdumpText text (shown p) in
  let p := set_shown v p in
  match r with
  | Ret true => set_names (traceFileName p) name p
  | _ => p
  end.

Definition answer (q : request) (r : response) (p : page) : page :=
  match q, r with
  | FetchTrace path, Text text => use_trace (basename path) text [path] p
  | FetchTrace path, _ => set_warnings (warnings p ++ [path]) p
  | FetchObjdump path, Text text => use_objdump (basename path) text p
  | ReadTrace name, Text text => use_trace name text [] p
  | ReadObjdump name, Text text => use_objdump name text p
  | _, _ => p
  end.

(** The parameters of the address. *)
Definition autoLoadFromQuery (trace objdump : option jsstr) : list request :=
  match trace with
  | Some (c :: s) => [FetchTrace (c :: s); FetchObjdump (objdumpPath objdump (c :: s))]
  | _ => []
  end.

(** A visit runs the script from its start; only localStorage is left of the last one. *)
Definition visit (prefers_light : bool) (trace objdump : option jsstr) (s : storage) : page :=
  let blank := Pane false false [] in
  let p := Page init [] [] [] [] s [] MOON_SVG blank blank [] in
  set_pending (autoLoadFromQuery trace objdump) (makeResizer HResizer (makeResizer VResizer (initTheme prefers_light p))).

(** ** Steps *)
Inductive page_event : Type :=
| Ui (e : event)
| PickTrace (name : jsstr)
| PickObjdump (name : jsstr)
| Answer (i : nat) (r : response)
| ToggleTheme
| MouseDown (w : which)
| MouseMove (clientX clientY : num) (main_rect left_rect : rect)
| MouseUp
| Visit (prefers_light : bool) (trace objdump : option jsstr).

Definition page_step (p : page) (e : page_event) : page :=
  match e with
  | Ui e => set_shown (handle toLowerCase e (shown p)).1 p
  | PickTrace name => set_pending (pending p ++ [ReadTrace name]) p
  | PickObjdump name => set_pending (pending p ++ [ReadObjdump name]) p
  | Answer i r =>
      match pending p !! i with
      | Some q => answer q r (set_pending (delete i (pending p)) p)
      | None => p
      end
  | ToggleTheme => toggleTheme p
  | MouseDown w => mousedown w p
  | MouseMove x y main_rect left_rect => mousemove HResizer left_rect x y (mousemove VResizer main_rect x y p)
  | MouseUp => mouseup HResizer (mouseup VResizer p)
  | Visit prefers_light trace objdump => visit prefers_light trace objdump (localStorage p)
  end.

Definition run_page (es : list page_event) (p : page) : page := foldl page_step p es.
End page.

(** ** Arithmetic never makes a NaN out of numbers that can be measured *)

Lemma shr_1_nonneg r : 0 <= shr_m r -> 0 <= shr_m (shr_1 r).
Proof. destruct r as [[|[p|p|]|p] ? ?]; cbn; lia. Qed.

Lemma iter_shr_nonneg n r : 0 <= shr_m r -> 0 <= shr_m (SpecFloat.iter_pos shr_1 n r).
Proof.
  revert r. induction n as [n IH|n IH|]; intros r Hr; cbn [SpecFloat.iter_pos]; [|by apply IH, IH|by apply shr_1_nonneg].
  by apply IH, IH, shr_1_nonneg.
Qed.

Lemma shr_fexp_nonneg prec emax m e l : 0 <= m -> 0 <= shr_m (shr_fexp prec emax m e l).1.
Proof.
  intros Hm. unfold shr_fexp, shr. assert (0 <= shr_m (shr_record_of_loc m l)) by (by destruct l as [|[]]).
  case_match; cbn [fst]; [done|by apply iter_shr_nonneg|done].
Qed.

Lemma round_even_nonneg m l : 0 <= m -> 0 <= round_nearest_even m l.
Proof. intros Hm. destruct l as [|[]]; cbn; [lia|case_match; lia|lia..]. Qed.

Lemma round_number s m e l : 0 <= m -> isNaN (binary_round_aux 53 1024 s m e l) = false.
Proof.
  intros Hm. unfold binary_round_aux. pose proof (shr_fexp_nonneg 53 1024 m e l Hm) as H1.
  destruct (shr_fexp 53 1024 m e l) as [r1 e1]. cbn [fst] in H1.
  pose proof (shr_fexp_nonneg 53 1024 (round_nearest_even (shr_m r1) (loc_of_shr_record r1)) e1 loc_Exact (round_even_nonneg _ _ H1)) as H2.
  destruct (shr_fexp _ _ _ e1 _) as [r2 e2]. cbn [fst] in H2. destruct (shr_m r2); [done| |lia]. by case_match.
Qed.

Lemma normalize_number m e s : isNaN (binary_normalize 53 1024 m e s) = false.
Proof. destruct m; cbn; [done|..]; unfold binary_round; case_match; by apply round_number. Qed.

(** Numbers that are measured: zero or finite. *)
Definition is_real (x : num) : bool := match x with S754_zero _ | S754_finite _ _ _ => true | _ => false end.
Definition is_nonzero (x : num) : bool := match x with S754_finite _ _ _ => true | _ => false end.

Lemma sub_number x y : is_real x = true -> is_real y = true -> isNaN (SFsub 53 1024 x y) = false.
Proof.
  destruct x as [sx| | |sx mx ex], y as [sy| | |sy my ey]; cbn; try done.
  - by destruct sx, sy.
  - intros _ _. apply normalize_number.
Qed.

Lemma div_number x y : isNaN x = false -> is_nonzero y = true -> isNaN (SFdiv 53 1024 x y) = false.
Proof.
  destruct x as [sx|sx| |sx mx ex], y as [sy|sy| |sy my ey]; try done. intros _ _. unfold SFdiv.
  destruct (SFdiv_core_binary _ _ _ _ _ _) as [[mz ez] lz] eqn:E. apply round_number.
  unfold SFdiv_core_binary in E.
  match type of E with context [Z.div_eucl ?a ?b] => pose proof (Z.div_pos a b) as Hq; unfold Z.div in Hq; assert (0 <= a) as Ha end.
  { case_match; [done|apply Z.shiftl_nonneg; lia|done]. }
  destruct (Z.div_eucl _ _) as [q r]. injection E as <- _ _. apply Hq; [exact Ha|lia].
Qed.

Lemma mul_number x y : isNaN x = false -> is_nonzero y = true -> isNaN (SFmul 53 1024 x y) = false.
Proof. destruct x, y; try done. intros _ _. by apply round_number. Qed.

(** A container that is on the screen: measured, and neither flat nor thin. *)
Definition on_screen (r : rect) : bool :=
  is_real (r_left r) && is_real (r_top r) && is_nonzero (r_width r) && is_nonzero (r_height r).

Lemma pointed_number w r x y : on_screen r = true -> is_real x = true -> is_real y = true -> isNaN (pointed w r x y) = false.
Proof.
  intros Hr Hx Hy. unfold on_screen in Hr. bool_props.
  destruct w; apply mul_number; try done; apply div_number; try done; by apply sub_number.
Qed.

(** A percentage the handles allow. *)
Definition percent (x : num) : bool := SFleb (num_of_Z 20) x && SFleb x (num_of_Z 80).

Lemma ltb_leb x y : SFltb x y = true -> SFleb x y = true.
Proof. unfold SFltb, SFleb. by destruct (SFcompare x y) as [[]|]. Qed.

Lemma clamp_percent x : isNaN x = false -> percent (clamp x) = true.
Proof.
  intros Hx. unfold clamp, Math_max. rewrite Hx. change (isNaN (num_of_Z 20)) with false. cbn [orb].
  destruct (SFltb (num_of_Z 20) x) eqn:E1; [|by vm_compute].
  unfold Math_min. rewrite Hx. change (isNaN (num_of_Z 80)) with false. cbn [orb].
  destruct (SFltb x (num_of_Z 80)) eqn:E2; [|by vm_compute].
  unfold percent. by rewrite (ltb_leb _ _ E1), (ltb_leb _ _ E2).
Qed.

(** ** What survives a visit *)

(** The storage when it was written by the page only. *)
Definition stored (number_text : num -> jsstr) (s : storage) : Prop :=
  forall w, s !! storageKey w = None \/ exists x, s !! storageKey w = Some (number_text x) /\ percent x = true.

Definition real_event (e : page_event) : bool :=
  match e with
  | MouseMove x y r1 r2 => is_real x && is_real y && on_screen r1 && on_screen r2
  | _ => true
  end.

Section settings.
Context (toLowerCase : jsstr -> jsstr) (number_text : num -> jsstr) (parseFloat : jsstr -> num).
Context (parse_null : isNaN (parseFloat (js "null")) = true).
Context (parse_text : forall x, percent x = true -> parseFloat (number_text x) = x).

(** The theme and the panels of a page are the ones its storage stands for. *)
Record settled (p : page) : Prop := Settled {
  settled_theme : data_theme p <> [];
  settled_stored : localStorage p !! theme_key = Some (data_theme p);
  settled_icon : icon p = if bool_decide (data_theme p = js "light") then SUN_SVG else MOON_SVG;
  settled_storage : stored number_text (localStorage p);
  settled_size : forall w, size (pane_of w p) = percent_text number_text (initialPct parseFloat w (localStorage p)) }.

Lemma storageKey_theme w : storageKey w <> theme_key.
Proof. by destruct w. Qed.

Lemma storageKey_inj w w' : storageKey w = storageKey w' -> w = w'.
Proof. by destruct w, w'. Qed.

Lemma initialPct_stored w s : stored number_text s -> percent (initialPct parseFloat w s) = true.
Proof.
  intros Hs. unfold initialPct. destruct (Hs w) as [->|(x & -> & Hx)]; cbn [default from_option id].
  - rewrite parse_null. by destruct w; vm_compute.
  - rewrite (parse_text x Hx). by destruct x.
Qed.

Lemma initialPct_new w s x : percent x = true -> initialPct parseFloat w (<[storageKey w := number_text x]> s) = x.
Proof. intros Hx. unfold initialPct. rewrite lookup_insert_eq. cbn [default from_option id]. rewrite (parse_text x Hx). by destruct x. Qed.

Lemma initialPct_other w k t s : k <> storageKey w -> initialPct parseFloat w (<[k := t]> s) = initialPct parseFloat w s.
Proof. intros Hk. unfold initialPct. by rewrite lookup_insert_ne. Qed.

Lemma stored_theme s t : stored number_text s -> stored number_text (<[theme_key := t]> s).
Proof. intros Hs w. rewrite lookup_insert_ne by (symmetry; apply storageKey_theme). apply Hs. Qed.

Lemma stored_pct s w x : stored number_text s -> percent x = true -> stored number_text (<[storageKey w := number_text x]> s).
Proof.
  intros Hs Hx w'. destruct (decide (storageKey w = storageKey w')) as [->|Hk].
  - right. exists x. by rewrite lookup_insert_eq.
  - rewrite lookup_insert_ne by done. apply Hs.
Qed.

(** Steps that leave the settings alone. *)
Definition settings (p : page) : storage * jsstr * svg * jsstr * jsstr :=
  (localStorage p, data_theme p, icon p, size (left p), size (objdumpPane p)).

Lemma settled_keep p q : settings q = settings p -> settled p -> settled q.
Proof.
  unfold settings. intros [= E1 E2 E3 E4 E5] [Ht Hk Hi Hs Hz].
  split; rewrite ?E1, ?E2, ?E3; try done. intros w. rewrite <- Hz. by destruct w.
Qed.

Lemma applyTheme_settled t p : t <> [] -> stored number_text (localStorage p) ->
  (forall w, size (pane_of w p) = percent_text number_text (initialPct parseFloat w (localStorage p))) -> settled (applyTheme t p).
Proof.
  intros Ht Hs Hz. split; cbn; [done|by rewrite lookup_insert_eq|done|by apply stored_theme|].
  intros w. rewrite initialPct_other by (symmetry; apply storageKey_theme). rewrite <- Hz. by destruct w.
Qed.

Lemma visit_settled light trace objdump s : stored number_text s -> settled (visit number_text parseFloat light trace objdump s).
Proof.
  intros Hs. unfold visit, initTheme. cbn [localStorage]. set (t := match s !! theme_key with Some (c :: r) => c :: r | _ => _ end).
  assert (t <> []) as Ht by (unfold t; repeat case_match; done).
  assert (forall w, theme_key <> storageKey w) as Hk by (intros w; symmetry; apply storageKey_theme).
  split; cbn; [done|by rewrite lookup_insert_eq|done|by apply stored_theme|]. by intros [].
Qed.

Lemma pane_settled w x cls sel p : percent x = true -> settled p ->
  settled (set_pane w (<[storageKey w := number_text x]> (localStorage p)) (Pane true cls (percent_text number_text x)) sel p).
Proof.
  intros Hx [Ht Hk Hi Hs Hz].
  assert (forall w', size (pane_of w' (set_pane w (<[storageKey w := number_text x]> (localStorage p)) (Pane true cls (percent_text number_text x)) sel p)) =
    percent_text number_text (initialPct parseFloat w' (<[storageKey w := number_text x]> (localStorage p)))) as Hz'.
  { intros w'. destruct (decide (storageKey w = storageKey w')) as [E|E].
    - apply storageKey_inj in E as <-. rewrite initialPct_new by done. by destruct w.
    - rewrite initialPct_other, <- Hz by done. by destruct w, w'. }
  assert (<[storageKey w := number_text x]> (localStorage p) !! theme_key = Some (data_theme p)) as Hk'.
  { rewrite lookup_insert_ne by apply storageKey_theme. done. }
  pose proof (stored_pct _ w x Hs Hx) as Hs'. destruct w; split; done.
Qed.

Lemma mousemove_settled w r x y p : on_screen r = true -> is_real x = true -> is_real y = true -> settled p ->
  settled (mousemove number_text w r x y p).
Proof.
  intros Hr Hx Hy Hp. unfold mousemove. destruct (dragging (pane_of w p)); [|done].
  apply pane_settled; [|done]. by apply clamp_percent, pointed_number.
Qed.

Lemma use_trace_settings name text warn p : settings (use_trace name text warn p) = settings p.
Proof. unfold use_trace. destruct (loadTraceText _ _) as [v [[]| |]]; done. Qed.

Lemma use_objdump_settings name text p : settings (use_objdump name text p) = settings p.
Proof. unfold use_objdump. destruct (loadObjdumpText _ _) as [v [[]| |]]; done. Qed.

Lemma answer_settings q r p : settings (answer q r p) = settings p.
Proof. destruct q, r; cbn; [apply use_trace_settings| | |apply use_objdump_settings| | |apply use_trace_settings| | |apply use_objdump_settings|..]; done. Qed.

Lemma mouseup_settings w p : settings (mouseup w p) = settings p.
Proof. unfold mouseup. case_match; [|done]. by destruct w. Qed.

Lemma step_settled p e : real_event e = true -> settled p -> settled (page_step toLowerCase number_text parseFloat p e).
Proof.
  intros He Hp. destruct e as [e|name|name|i r| |w|x y r1 r2| |light trace objdump]; cbn [page_step];
    try (by apply (settled_keep p)).
  - case_match; [|done]. by apply (settled_keep p); [rewrite answer_settings|].
  - destruct Hp. apply applyTheme_settled; [by case_bool_decide|done..].
  - by apply (settled_keep p); [destruct w|].
  - cbn in He. bool_props. by apply mousemove_settled, mousemove_settled.
  - by apply (settled_keep p); [rewrite !mouseup_settings|].
  - apply visit_settled, Hp.
Qed.

Lemma run_settled es p : Forall (fun e => real_event e = true) es -> settled p -> settled (run_page toLowerCase number_text parseFloat es p).
Proof.
  intros Hes. revert p. induction Hes as [|e es He _ IH]; intros p Hp; [done|]. by apply IH, step_settled.
Qed.

(** A visit shows what the storage of a settled page stands for. *)
Lemma settled_visit p light trace objdump : settled p ->
  settings (visit number_text parseFloat light trace objdump (localStorage p)) = settings p.
Proof.
  intros Hp. pose proof (visit_settled light trace objdump _ (settled_storage p Hp)) as Hq.
  destruct Hp as [Ht Hk Hi Hs Hz]. pose proof (Hz VResizer) as Hv. pose proof (Hz HResizer) as Hh. cbn [pane_of] in Hv, Hh.
  unfold settings, visit, initTheme. cbn [localStorage]. rewrite Hk. destruct (data_theme p) as [|c t] eqn:Et; [done|].
  cbn. rewrite insert_id by done. rewrite Hi, Hv, Hh. done.
Qed.
End settings.

(** C38: the settings of the page survive.  On a storage that only the page wrote, whatever
    the user does while the containers are on the screen and however often the page is
    visited again: both panels are between 20 and 80 percent wide, so none can be dragged
    away, and the next visit, whatever the system prefers, starts with the theme, the icon
    and the sizes that this one ends with. *)
Theorem settings_survive (toLowerCase : jsstr -> jsstr) (number_text : num -> jsstr) (parseFloat : jsstr -> num)
    (parse_null : isNaN (parseFloat (js "null")) = true)
    (parse_text : forall x, percent x = true -> parseFloat (number_text x) = x)
    (light light' : bool) (trace objdump trace' objdump' : option jsstr) (s : storage) (Hs : stored number_text s)
    (es : list page_event) (Hes : Forall (fun e => real_event e = true) es) :
  let p := run_page toLowerCase number_text parseFloat es (visit number_text parseFloat light trace objdump s) in
  (forall w, exists x, size (pane_of w p) = number_text x ++ js "%" /\ SFleb (num_of_Z 20) x = true /\ SFleb x (num_of_Z 80) = true) /\
  let q := page_step toLowerCase number_text parseFloat p (Visit light' trace' objdump') in
  data_theme q = data_theme p /\ icon q = icon p /\ size (left q) = size (left p) /\ size (objdumpPane q) = size (objdumpPane p).
Proof.
  intros p. assert (settled number_text parseFloat p) as Hp.
  { unfold p. apply run_settled; [done..|]. by apply visit_settled. }
  split.
  - intros w. exists (initialPct parseFloat w (localStorage p)). split; [apply (settled_size _ _ p Hp)|].
    pose proof (initialPct_stored number_text parseFloat parse_null parse_text w _ (settled_storage _ _ p Hp)) as Hx.
    unfold percent in Hx. by bool_props.
  - pose proof (settled_visit number_text parseFloat p light' trace' objdump' Hp) as E. unfold settings in E.
    cbn [page_step]. by injection E.
Qed.

(** A way to write numbers that satisfies what is asked of the language. *)
Definition demo_text (x : num) : jsstr := match x with S754_finite false m e => [Z.pos m; e] | _ => [] end.
Definition demo_parse (s : jsstr) : num := match s with [Z.pos m; e] => S754_finite false m e | _ => S754_nan end.

Lemma demo_parse_text x : percent x = true -> demo_parse (demo_text x) = x.
Proof. by destruct x as [[]|[]| |[] m e]. Qed.

Definition demo_rect : rect := Rect (num_of_Z 0) (num_of_Z 0) (num_of_Z 1000) (num_of_Z 700).
Definition demo_drag : list page_event :=
  [ToggleTheme; MouseDown VResizer; MouseMove (num_of_Z 300) (num_of_Z 9) demo_rect demo_rect; MouseUp].

Lemma settings_survive_witness :
  let p := run_page id demo_text demo_parse demo_drag (visit demo_text demo_parse true None None ∅) in
  (forall w, exists x, size (pane_of w p) = demo_text x ++ js "%" /\ SFleb (num_of_Z 20) x = true /\ SFleb x (num_of_Z 80) = true) /\
  let q := page_step id demo_text demo_parse p (Visit true None None) in
  data_theme q = data_theme p /\ icon q = icon p /\ size (left q) = size (left p) /\ size (objdumpPane q) = size (objdumpPane p).
Proof.
  apply (settings_survive id demo_text demo_parse); [vm_compute; exact eq_refl|exact demo_parse_text| |].
  - intros w. by left.
  - repeat (constructor; [vm_compute; exact eq_refl|]). constructor.
Defined.

(** The drag of the example leaves the panel at 30 percent, and the next visit is dark. *)
Lemma demo_drag_ends :
  let p := run_page id demo_text demo_parse demo_drag (visit demo_text demo_parse true None None ∅) in
  let q := page_step id demo_text demo_parse p (Visit true None None) in
  size (left q) = demo_text (num_of_Z 30) ++ js "%" /\ data_theme q = js "dark" /\ icon q = MOON_SVG.
Proof. by vm_compute. Qed.

(** The first visit writes the preference of the system down as if it were a choice: the
    next visit follows it although the system has changed and nobody has toggled. *)
Lemma first_visit_decides :
  let p := visit demo_text demo_parse true None None ∅ in
  data_theme (page_step id demo_text demo_parse p (Visit false None None)) = js "light".
Proof. by vm_compute. Qed.

(** A container of no width makes a NaN, which goes through the clamp into the storage; the
    next visit falls back to the default. *)
Lemma flat_container_nan :
  let flat := Rect (num_of_Z 5) (num_of_Z 5) (num_of_Z 0) (num_of_Z 0) in
  let x := clamp (pointed VResizer flat (num_of_Z 5) (num_of_Z 5)) in
  x = S754_nan /\ forall parseFloat s, initialPct (fun _ => S754_nan) VResizer (<[left_key := parseFloat x]> s) = num_of_Z 46.
Proof. by vm_compute. Qed.

(** ** The files on the page *)

Definition objlines (text : jsstr) : list objline := map (fun line => ObjLine line (parseObjdumpAddr line)) (text_lines text).

(** The texts the loader takes. *)
Definition trace_accepted (text : jsstr) : bool :=
  match parseTSV text with
  | Ret (h, _) => match validateTraceHeader h with None => true | Some _ => false end
  | _ => false
  end.
Definition objdump_accepted (text : jsstr) : bool := match validateObjdump (objlines text) with None => true | Some _ => false end.

(** The specification: the two files last accepted, each with its name, and the requests. *)
Record files : Type := Files { f_trace : option (jsstr * jsstr); f_objdump : option (jsstr * jsstr); f_pending : list request }.

Definition got_trace (name text : jsstr) (f : files) : files :=
  if trace_accepted text then Files (Some (name, text)) (f_objdump f) (f_pending f) else f.
Definition got_objdump (name text : jsstr) (f : files) : files :=
  if objdump_accepted text then Files (f_trace f) (Some (name, text)) (f_pending f) else f.

Definition got (q : request) (r : response) (f : files) : files :=
  match q, r with
  | FetchTrace path, Text text => got_trace (basename path) text f
  | FetchObjdump path, Text text => got_objdump (basename path) text f
  | ReadTrace name, Text text => got_trace name text f
  | ReadObjdump name, Text text => got_objdump name text f
  | _, _ => f
  end.

Definition files_step (f : files) (e : page_event) : files :=
  match e with
  | PickTrace name => Files (f_trace f) (f_objdump f) (f_pending f ++ [ReadTrace name])
  | PickObjdump name => Files (f_trace f) (f_objdump f) (f_pending f ++ [ReadObjdump name])
  | Answer i r =>
      match f_pending f !! i with
      | Some q => got q r (Files (f_trace f) (f_objdump f) (delete i (f_pending f)))
      | None => f
      end
  | Visit _ trace objdump => Files None None (autoLoadFromQuery trace objdump)
  | _ => f
  end.

(** The page shows these files under these names. *)
Record shows (f : files) (p : page) : Prop := Shows {
  shows_trace : match f_trace f with
    | Some (name, text) => traceFileName p = name /\ parseTSV text = Ret (cols (shown p), rows (shown p))
    | None => traceFileName p = [] /\ cols (shown p) = [] /\ rows (shown p) = []
    end;
  shows_objdump : match f_objdump f with
    | Some (name, text) => objdumpFileName p = name /\ objdumpLines (shown p) = Some (objlines text)
    | None => objdumpFileName p = [] /\ objdumpLines (shown p) = None
    end;
  shows_pending : pending p = f_pending f;
  shows_good : good (shown p) }.

(** What reaches the script: the user does not load files but through the pickers, and the
    traces that come back are as a model writes them. *)
Definition clean_page_event (e : page_event) : Prop :=
  match e with
  | Ui (LoadTrace _) | Ui (LoadObjdump _) => False
  | Answer _ (Text text) => clean_trace text
  | _ => True
  end.

Definition same_files (v v' : viewer) : Prop := cols v' = cols v /\ rows v' = rows v /\ objdumpLines v' = objdumpLines v.

#[export] Instance same_files_preorder : PreOrder same_files.
Proof.
  split; [done|]. intros a b c (E1 & E2 & E3) (F1 & F2 & F3). unfold same_files. by rewrite F1, F2, F3.
Qed.

Lemma lift_same_files {A} (m : outcome A) : keeps same_files (lift m).
Proof. done. Qed.
#[local] Hint Resolve lift_same_files : keeps.

Ltac keep_files :=
  repeat first [ solve [auto with keeps] | done | apply keeps_bind; [tc_solve| |intros ?] | apply keeps_modify; by intros | case_match ].

Lemma highlight_files pc : keeps same_files (highlightObjdumpForPC pc).
Proof. unfold highlightObjdumpForPC. keep_files. Qed.
#[local] Hint Resolve highlight_files : keeps.

Lemma selectRow_files idx : keeps same_files (selectRow idx).
Proof. unfold selectRow, renderRowHeader, renderState. keep_files. Qed.
#[local] Hint Resolve selectRow_files : keeps.

Lemma info_files : keeps same_files updateMatchInfo.
Proof. unfold updateMatchInfo. keep_files. Qed.
#[local] Hint Resolve info_files : keeps.

Section files.
Context (toLowerCase : jsstr -> jsstr) (number_text : num -> jsstr) (parseFloat : jsstr -> num).

(** Nothing the user does in the viewer changes the files. *)
Lemma ui_files e : clean_page_event (Ui e) -> keeps same_files (handle toLowerCase e).
Proof.
  intros He. unfold handle. apply keeps_bind; [tc_solve|auto with keeps|]. intros v. destruct e; try done; unfold doSearch, step, selectRowForAddr; keep_files.
Qed.

Lemma ui_good e v : clean_page_event (Ui e) -> good v -> good (handle toLowerCase e v).1.
Proof.
  intros He Hg. destruct (handle_returns toLowerCase v e Hg) as (_ & _ & H); [|done]. by destruct e.
Qed.

Lemma shows_keep f p q : traceFileName q = traceFileName p -> objdumpFileName q = objdumpFileName p ->
  pending q = pending p -> same_files (shown p) (shown q) -> good (shown q) -> shows f p -> shows f q.
Proof.
  intros E1 E2 E3 (F1 & F2 & F3) Hg [Ht Ho Hp _]. split; [..|done]; rewrite ?E1, ?E2, ?E3, ?F1, ?F2, ?F3; done.
Qed.

Lemma accepted_trace text v : good v -> clean_trace text ->
  match trace_accepted text with
  | true => exists v', loadTraceText text v = (v', Ret true) /\ good v' /\ parseTSV text = Ret (cols v', rows v') /\
      objdumpLines v' = objdumpLines v
  | false => exists v', loadTraceText text v = (v', Ret false) /\ good v' /\ same_files v v'
  end.
Proof.
  intros Hg Hc. destruct (loadTrace_returns text v Hg Hc) as (b & Hb & Hg'). destruct Hc as (h & d & Ep & Hd).
  unfold trace_accepted. rewrite Ep. destruct (validateTraceHeader h) as [err|] eqn:Eh.
  - exists (showError (Some err) v). unfold loadTraceText, lift, mbind, stM_bind in *. rewrite Ep in *. cbn [fst snd] in *.
    rewrite Eh in *. done.
  - destruct (Hd eq_refl) as [Hne Hok].
    destruct (loadTrace_page text v h d (good_wf v Hg) Ep Eh Hne Hok) as (cur & view & Hw1 & Hcur & _ & E).
    rewrite E in *. eexists. split; [done|]. split; [done|]. set (v1 := set_table _ _) in *.
    destruct (selected_page_data 0 cur view v1) as [(E1 & E2 & _ & _ & E5 & _) _]. cbn. by rewrite E1, E2, E5.
Qed.

Lemma accepted_objdump text v : good v ->
  match objdump_accepted text with
  | true => exists v', loadObjdumpText text v = (v', Ret true) /\ good v' /\ objdumpLines v' = Some (objlines text) /\
      cols v' = cols v /\ rows v' = rows v
  | false => exists v', loadObjdumpText text v = (v', Ret false) /\ good v' /\ same_files v v'
  end.
Proof.
  intros Hg. destruct (loadObjdump_returns text v Hg) as (b & Hb & Hg').
  unfold objdump_accepted. destruct (validateObjdump (objlines text)) as [err|] eqn:El.
  - exists (showError (Some err) v). unfold loadObjdumpText in *. fold (objlines text) in *. rewrite El in *. done.
  - pose proof (loadObjdump_page text v Hg El) as E. rewrite E in *. eexists. split; [done|]. split; [done|]. by case_match.
Qed.

Lemma use_trace_shows name text warn f p : clean_trace text -> shows f p -> shows (got_trace name text f) (use_trace name text warn p).
Proof.
  intros Hc Hs. pose proof (accepted_trace text (shown p) (shows_good f p Hs) Hc) as H. unfold got_trace, use_trace.
  destruct (trace_accepted text).
  - destruct H as (v' & -> & Hg & Ep & El). destruct Hs as [Ht Ho Hp _]. split; cbn; [done| |done..]. by rewrite El.
  - destruct H as (v' & -> & Hg & Hf). by apply (shows_keep f p).
Qed.

Lemma use_objdump_shows name text f p : shows f p -> shows (got_objdump name text f) (use_objdump name text p).
Proof.
  intros Hs. pose proof (accepted_objdump text (shown p) (shows_good f p Hs)) as H. unfold got_objdump, use_objdump.
  destruct (objdump_accepted text).
  - destruct H as (v' & -> & Hg & El & E1 & E2). destruct Hs as [Ht Ho Hp _]. split; cbn; [|done..]. by rewrite E1, E2.
  - destruct H as (v' & -> & Hg & Hf). by apply (shows_keep f p).
Qed.

Lemma answer_shows q r f p : (forall text, r = Text text -> clean_trace text) -> shows f p -> shows (got q r f) (answer q r p).
Proof.
  intros Hc Hs. destruct q, r; cbn [answer got]; auto using use_trace_shows, use_objdump_shows; by apply (shows_keep f p); [..|apply (shows_good f p)|].
Qed.

Lemma pending_shows l f p : shows f p -> shows (Files (f_trace f) (f_objdump f) l) (set_pending l p).
Proof. intros []. by split. Qed.

Lemma same_view_shows f p q : shows f p -> shown q = shown p -> traceFileName q = traceFileName p ->
  objdumpFileName q = objdumpFileName p -> pending q = pending p -> shows f q.
Proof. intros Hs E1 E2 E3 E4. apply (shows_keep f p); try done; rewrite E1; [done|apply Hs]. Qed.

Lemma mousemove_shows w r x y f p : shows f p -> shows f (mousemove number_text w r x y p).
Proof. intros Hs. unfold mousemove. case_match; [|done]. by apply (same_view_shows f p); destruct w. Qed.

Lemma mouseup_shows w f p : shows f p -> shows f (mouseup w p).
Proof. intros Hs. unfold mouseup. case_match; [|done]. by apply (same_view_shows f p); destruct w. Qed.

Lemma step_shows f p e : clean_page_event e -> shows f p -> shows (files_step f e) (page_step toLowerCase number_text parseFloat p e).
Proof.
  intros He Hs. destruct e as [e|name|name|i r| |w|x y r1 r2| |light trace objdump]; cbn [page_step files_step].
  - apply (shows_keep f p); try done; [by apply ui_files|apply ui_good; [done|apply Hs]].
  - rewrite (shows_pending f p Hs). by apply pending_shows.
  - rewrite (shows_pending f p Hs). by apply pending_shows.
  - rewrite (shows_pending f p Hs). destruct (f_pending f !! i) as [q|]; [|done].
    apply answer_shows; [|by apply pending_shows]. by intros text ->.
  - by apply (same_view_shows f p).
  - by apply (same_view_shows f p); destruct w.
  - by apply mousemove_shows, mousemove_shows.
  - by apply mouseup_shows, mouseup_shows.
  - split; [done..|apply init_good].
Qed.
End files.


Definition demo_trace_text : jsstr := Eval vm_compute in table_text demo_trace.
Definition demo_listing : jsstr := Eval vm_compute in js "10: add".
Definition demo_visit : list page_event :=
  [Answer 1 (NotOk 404); PickObjdump (js "a.objdump"); Ui ArrowDown; Answer 0 (Text demo_trace_text); Answer 0 (Text demo_listing);
   ToggleTheme; Ui ArrowDown].

Lemma demo_trace_clean : clean_trace demo_trace_text.
Proof. apply clean_check_sound. vm_compute. reflexivity. Qed.

Lemma demo_listing_clean : clean_trace demo_listing.
Proof. exists [demo_listing], []. by vm_compute. Qed.


(** The files of the example. *)
Lemma demo_visit_files :
  foldl files_step (Files None None (autoLoadFromQuery (Some (js "x/a.log")) None)) demo_visit =
  Files (Some (js "a.log", demo_trace_text)) (Some (js "a.objdump", demo_listing)) [].
Proof. by vm_compute. Qed.

(** The page with a trace and a listing, whichever came first. *)
Lemma loads_commute text text' v : good v -> clean_trace text -> trace_accepted text = true -> objdump_accepted text' = true ->
  exists vt vo v', loadTraceText text v = (vt, Ret true) /\ loadObjdumpText text' v = (vo, Ret true) /\
    loadObjdumpText text' vt = (v', Ret true) /\ loadTraceText text vo = (v', Ret true).
Proof.
  intros Hg Hc Ht Ho. destruct (loadTrace_returns text v Hg Hc) as (_ & _ & HgA). destruct Hc as (h & d & Ep & Hd).
  unfold trace_accepted in Ht. rewrite Ep in Ht.
  destruct (validateTraceHeader h) as [|] eqn:Eh; [done|]. destruct (Hd eq_refl) as [Hne Hok].
  unfold objdump_accepted in Ho. destruct (validateObjdump (objlines text')) as [|] eqn:El; [done|].
  pose proof (loadTrace_page text v h d (good_wf _ Hg) Ep Eh Hne Hok) as (cur & view & _ & Hcur & Hview & EA).
  pose proof (loadObjdump_page text' v Hg El) as EB. fold (objlines text') in EB.
  pose proof (loadObjdump_returns text' v Hg) as (_ & _ & HgB). rewrite EA in HgA. rewrite EB in HgB.
  pose proof (loadTrace_page text _ h d (good_wf _ HgB) Ep Eh Hne Hok) as (cur' & view' & _ & Hcur' & Hview' & EC).
  pose proof (loadObjdump_page text' _ HgA El) as ED. fold (objlines text') in ED. cbn [fst] in *.
  rewrite Hcur in Hcur'. injection Hcur' as <-. rewrite Hview in Hview'. injection Hview' as <-.
  eexists _, _, _. split; [exact EA|]. split; [exact EB|]. split; [exact ED|]. rewrite EC. f_equal.
  set (v1 := set_table _ (set_trace h d (showError None v))).
  destruct (selected_page_data 0 cur view v1) as [(_ & E2 & _) E6]. cbn [updateMatchInfo modify_st fst rows selectedIdx set_info].
  rewrite E2, E6. cbn [v1 rows set_table set_trace]. rewrite Hcur.
  assert (exists c, match js_get (rows v) (selectedIdx v) with
    | Some cur => set_current (pc_line (objlines text') (cur !! js "pc")) (set_objdump (objlines text') (showError None v))
    | None => set_objdump (objlines text') (showError None v)
    end = set_current c (set_objdump (objlines text') (showError None v))) as [c ->].
  { destruct (js_get (rows v) (selectedIdx v)) as [r|]; [exists (pc_line (objlines text') (r !! js "pc"))|exists None]; reflexivity. }
  unfold v1, selected_page. cbn [objdumpLines set_current set_objdump set_table set_trace showError].
  by destruct (objdumpLines v).
Qed.

(** The two answers of the loader may come in either order: the page is the same. *)
Theorem answers_commute (path path' text text' : jsstr) (p : page) (Hg : good (shown p)) (Hc : clean_trace text)
    (Ht : trace_accepted text = true) (Ho : objdump_accepted text' = true) :
  answer (FetchObjdump path') (Text text') (answer (FetchTrace path) (Text text) p) =
  answer (FetchTrace path) (Text text) (answer (FetchObjdump path') (Text text') p).
Proof.
  destruct (loads_commute text text' (shown p) Hg Hc Ht Ho) as (vt & vo & v' & E1 & E2 & E3 & E4).
  cbn [answer]. unfold use_trace, use_objdump. rewrite E1, E2. cbn [shown set_shown set_names]. by rewrite E3, E4.
Qed.

(** ** The listing on the page *)

Lemma line_divs_lookup l i n : line_divs i l !! n = line_div_of (i + Z.of_nat n) <$> (l !! n).
Proof.
  revert i n. induction l as [|x l IH]; intros i [|n]; cbn [line_divs lookup list_lookup fmap option_fmap option_map]; try done.
  - by rewrite Z.add_0_r.
  - rewrite IH. by replace (i + 1 + Z.of_nat n) with (i + Z.of_nat (S n)) by lia.
Qed.

(** The n-th line is the n-th div; it carries its number, which is how the marked line is
    found, and a click on it is the click of the viewer. *)
Lemma rendered_line toLowerCase v lines n x : objdumpLines v = Some lines -> lines !! n = Some x ->
  exists divs, renderObjdump (objdumpLines v) = Divs divs /\ divs !! n = Some (line_div_of (Z.of_nat n) x) /\
    handle toLowerCase (ClickLine (Z.of_nat n)) v =
      match d_click (line_div_of (Z.of_nat n) x) with Some addr => selectRowForAddr toLowerCase addr v | None => (v, Ret tt) end.
Proof.
  intros El Hx. exists (line_divs 0 lines). rewrite El. split; [done|]. split; [by rewrite line_divs_lookup, Hx|].
  unfold handle, get_st, mbind, stM_bind. rewrite El.
  rewrite js_get_nat, Hx. destruct x as [t [a|]]; done.
Qed.

(** ** Surprises of the loader *)

(** The error of a trace is gone when the listing comes after it, and stays when it came
    before. *)
Lemma trace_error_lost :
  let load es := error (shown (run_page id demo_text demo_parse es (visit demo_text demo_parse true (Some (js "a.log")) None ∅))) in
  load [Answer 0 (Text (js "no trace")); Answer 0 (Text demo_listing)] = None /\
  load [Answer 1 (Text demo_listing); Answer 0 (Text (js "no trace"))] <> None.
Proof. by vm_compute. Qed.

(** Of a path without extension the loader fetches the trace again as its disassembly and
    reports an error over the loaded trace. *)
Lemma no_extension_error :
  autoLoadFromQuery (Some (js "runs/trace")) None = [FetchTrace (js "runs/trace"); FetchObjdump (js "runs/trace")] /\
  error (shown (run_page id demo_text demo_parse [Answer 0 (Text demo_trace_text); Answer 0 (Text demo_trace_text)]
    (visit demo_text demo_parse true (Some (js "runs/trace")) None ∅))) <> None.
Proof. by vm_compute. Qed.

(** A load that throws half way leaves the name of the last file over the rows of the new one. *)
Lemma stale_name :
  let bad := table_text [map js ["seq"; "time"; "pc"; "event"; "detail"]%string; map js ["7"; "5"; "0x10"; "bus stall"; ""]%string] in
  let p := run_page id demo_text demo_parse
    [PickTrace (js "good.log"); Answer 0 (Text demo_trace_text); PickTrace (js "bad.log"); Answer 0 (Text bad)]
    (visit demo_text demo_parse true None None ∅) in
  traceFileName p = js "good.log" /\ parseTSV bad = Ret (cols (shown p), rows (shown p)).
Proof. split; vm_compute; reflexivity. Qed.
